(* ===== verification/_CoqProject ===== *)
-Q . S2P
Prelude.v
GoStrings.v
Certificates.v
Cache.v
RateLimiter.v
Async.v
Storage.v
Crypto.v
OCSP.v
Clean.v
Config.v
Manage.v
Handshake.v
Maintain.v
ManageAll.v
FileLock.v
AtomicFile.v
Dns.v
Solvers.v
AlpnServer.v
DnsSolver.v
Challenges.v
Account.v
AcmeClient.v
AcmeIssuer.v
ZeroSSL.v
FileStore.v
Lifecycle.v
Toplevel.v
Throttling.v
WaitChans.v
HandshakeSim.v
Cluster.v
EndToEnd.v
Fleet.v
