(* ===== verification/Prelude.v ===== *)
(** * A verified model of certmagic

    certmagic is a Go library that obtains, stores, renews and serves TLS
    certificates. This development models its core as Rocq functions and step
    relations and proves the properties that make it correct.

    ** The program and its parts

    A [Config] (src/config.go) obtains, renews and revokes certificates with a
    list of issuers and keeps them, with their private keys and metadata, in a
    [Storage] (src/storage.go, src/crypto.go). A storage lock per name makes
    sure that one process at a time works on a name. The issuer of the package
    (src/acmeissuer.go) registers an account (src/account.go), makes a client
    (src/acmeclient.go) with solvers for the challenges (src/solvers.go,
    src/dnsutil.go), which another instance of a cluster may answer
    (src/httphandlers.go), and orders certificates, after a rehearsal at a
    test CA when it retries; src/zerosslissuer.go does so with the API of
    ZeroSSL. Background work runs as named jobs of a job manager and is
    retried (src/async.go); the requests to a CA pass a rate limiter
    (src/ratelimiter.go). Loaded certificates (src/certificates.go) get an
    OCSP staple (src/ocsp.go) and live in an in-memory cache that is indexed by
    name (src/cache.go). A TLS handshake (src/handshake.go) picks a
    certificate from the cache or, when allowed, loads or obtains it on
    demand. Maintenance passes (src/maintain.go) renew what is due, refresh
    staples and clean the storage; a goroutine per cache makes them.
    [ManageSync] and [ManageAsync] put names under management, and
    src/certmagic.go wraps this up with package variables and servers. The
    default storage keeps files that are replaced atomically and locks with
    lock files (src/filestorage.go, src/internal/atomicfile).

    ** Files

    - [Prelude]: Go errors and results, with panics as errors that unwind,
      times and durations as [Z] (in nanoseconds, with the saturation of
      [time.Time.Sub]), the state-passing type [ST], tactics, the hint
      databases and generic lemmas.
    - [GoStrings]: the functions of Go's [strings] and [path] packages that the
      sources use, with their laws.
    - [Certificates]: src/certificates.go. The record [Certificate], the
      renewal decision [certNeedsRenewal] with ARI, wildcard matching, which
      subjects qualify, and [fillCertFromLeaf]. The random time inside an ARI
      window is an argument.
    - [Cache]: src/cache.go. Certificates by hash, hashes by name. Each method
      is one step, as each holds the mutex throughout; the random draw and the
      order of map iteration of the eviction are arguments. [writeBack] is the
      write of src/handshake.go that goes round the methods; a [history] has
      the certificates it brought back.
    - [RateLimiter]: src/ratelimiter.go. The ring and its operations; the
      scheduling goroutine is the step relation [loop_step].
    - [Async]: src/async.go. Module [JobManager] has the queue, the set of
      names and the workers with the step relation [step]; module [Retry] has
      [doWithRetry].
    - [Storage]: src/storage.go. Module [KeyBuilder] has the storage keys; the
      class [Storage] is the interface and [StorageLaws] what its documentation
      promises, with the in-memory instance [MemStorage]; [storeTx] and the
      table of held locks.
    - [Crypto]: src/crypto.go and [CertificateResource] of src/certmagic.go.
      The class [Codec] stands for JSON, PEM, DER and IDNA and [CodecLaws] for
      their round trips, with the instance [PlainCodec].
    - [OCSP]: src/ocsp.go. The class [OCSPNet] stands for the responder and the
      OCSP encoding.
    - [Config]: src/config.go from [ObtainCertSync] to [RevokeCert]. An
      [Issuer] is a record of functions on the outside state of the class
      [External], to which the number of the attempt is passed; the [World]
      has the storage, the lock table, the outside state and the trace of
      calls, in which a lock has its outcome and a request what it gave.
    - [Manage]: the functions of src/certificates.go that put certificates into
      the cache, and the forced renewal of src/maintain.go.
    - [Handshake]: src/handshake.go from the selection of a certificate to its
      maintenance. The methods that call one another in a cycle take the
      recursive calls as an argument, which [hs_rec] closes with fuel; waiting
      for another handshake is an argument.
    - [Clean]: [CleanStorage] of src/maintain.go, over the storage interface.
    - [Maintain]: the two maintenance passes of src/maintain.go,
      [RenewManagedCertificates] and [updateOCSPStaples], with [updateARI]. Jobs
      go to the job manager of [Async].
    - [ManageAll]: [manageAll], [manageOne] and [ClientCredentials] of
      src/config.go; [run_task] runs the closures that were submitted as jobs.
    - [FileLock]: [Lock] and [Unlock] of src/filestorage.go with the goroutines
      that refresh lock files. A system call is a step of the executable
      relation [exec] on file system, processes and goroutines.
    - [AtomicFile]: [Store] of src/filestorage.go and src/internal/atomicfile,
      with system calls that succeed or fail one at a time.
    - [Dns]: src/dnsutil.go. The class [DNSNet] stands for the exchange of
      messages with the clock and the context; the cache of zones is a map. The
      search for a zone is compared with relations on the answers that came.
    - [Solvers]: the HTTP and TLS-ALPN solvers of src/solvers.go with their
      wrappers. A [Solver] is a record of operations; the tables of listeners
      and of active challenges are the state of the process. A [book] of the
      calls of [Present] and [CleanUp] tells which of them have counted.
    - [DnsSolver]: the DNS solver of src/solvers.go, with the memory of the
      records that were created and the wait for their propagation.
    - [Challenges]: src/httphandlers.go, [getChallengeInfo] of src/config.go and
      [GetCertificate] of src/handshake.go: what an instance answers.
    - [Account]: src/account.go. The class [ACMENet] stands for the ACME protocol
      and the terminal; its calls are recorded in a trace.
    - [AcmeClient]: src/acmeclient.go and the account lookups of
      src/account.go, with the package variables as the record [PackageVars];
      also what other instances answer of the challenges of its clients.
    - [AcmeIssuer]: src/acmeissuer.go. A panic of [Issue] is the result [None].
    - [ZeroSSL]: src/zerosslissuer.go.
    - [FileStore]: [Store], [Load], [Delete], [List], [Stat] and [Exists] of
      src/filestorage.go on a tree of files, with system calls that fail, some
      of them after a part of their work.
    - [Lifecycle]: [maintainAssets] of src/maintain.go and [Stop] of
      src/cache.go as the step relation [life_step], in which the jobs,
      handshakes with the goroutines they start, and calls that manage names
      take part as [run_task], [handshake] and [manageAll] compute them.
    - [Toplevel]: [New], [NewDefault] and [TLSConfig] of src/config.go and the
      convenience functions of src/certmagic.go; module [Serving] has the
      listeners that the calls of [HTTPS] share.
    - [AlpnServer]: the goroutines of the TLS-ALPN server of src/solvers.go
      and the last [CleanUp], which waits for them.
    - [Throttling]: the rate limiter of [RateLimiter] behind [throttle] of
      [AcmeClient], for any order of the calls of the issuers.
    - [WaitChans]: the maps of wait channels of src/handshake.go as a step
      relation on any number of goroutines, in which a panic is a step.
    - [HandshakeSim]: the handshake of [Handshake], which is one goroutine, is a
      run of [WaitChans]; its waiting lets the others take steps.
    - [Cluster]: [obtainCert] of instances that share a storage, a step at a
      time.
    - [EndToEnd]: the ACME issuer as the issuer of a [Config], and the attempts
      of an operation with retries.
    - [Fleet]: [obtainCert] and [renewCert] of instances that share a storage.

    ** What the theorems show

    - Issuance: every call of a CA, of the retries too, is made with the lock of
      the name acquired (C1); a successful run leaves certificate, key and
      metadata in storage under a configured issuer and does nothing when they
      are there (C2); a renewal happens exactly when it is due or forced, and
      what is stored is what the issuer gave (C3); with the ACME issuer that is
      the preferred chain of an order of the last attempt at its CA (C4);
      instances with one storage obtain a certificate once (C5), and when some
      of them renew it, unforced, one certificate comes into the storage (C6);
      retrying ends, and not early (C36).
    - The ACME issuer: a certificate comes from the CA and not from its test CA
      (C19), and a retry is tried there first (C20); accounts are registered
      with their lock acquired (C22) and once (C21); a window has no more
      tickets for orders at a CA than the limit (C8). ZeroSSL: whatever was set
      up is taken down, unless presenting a file fails (C37).
    - Challenges: what a client has presented is answered by the instances whose
      issuer has its directory ([client_challenge_answered], C23) and nothing
      else is (C24); listeners follow the challenges, except at addresses where
      the calls have not counted in pairs (C25); DNS records follow the active
      challenges (C26); the zone found is the closest one (C28).
    - Resources: what is saved loads back and disturbs nothing else (C11).
    - Cache: the name index and the certificates agree in every reachable state
      and the capacity holds, but for certificates that handshakes write back
      (C7). Loading a managed certificate makes it findable (C33). A revoked one
      is replaced or dropped, or stays when its successor cannot be loaded (C16).
    - Renewal decision: a certificate that is left alone stays valid for five
      more checks (C34).
    - Jobs of a name never overlap and workers are bounded (C9).
    - Maintenance: after a pass every due certificate has its renewal queued or
      running, unless an earlier job of its name has panicked (C10); renewal
      information agrees in caller, cache and storage ([updateARI_agrees]);
      cleaning keeps what is in use (C31). For every interleaving of ticks, jobs,
      handshakes and [Stop] the cache stays one that C7 covers (C29), but a panic
      of the scan freezes it (C39).
    - Names: managing a name ends with a cached certificate or a queued job
      (C30); a configuration that is made is complete (C38).
    - Handshakes: a match carries the name of the client (C12), and a name that
      is not allowed changes nothing (C35). Of concurrent handshakes one at a
      time works on a name (C13), and none waits for ever but behind itself or
      a goroutine that has panicked (C14), which blocks its name (C40). The
      handshake that computes certificates is one of these goroutines, and has
      released all its channels when it returns (C15).
    - Files: they implement a map from keys to values, whatever fails (C27); a
      value is replaced as a whole or not at all (C18); the lock file excludes
      while nothing looks abandoned (C17), and a stale lock is recovered (C32).
    - Further theorems next to the definitions cover OCSP, evictions, removal,
      revocation, transactions, storage keys, job order, listings
      ([List_exact]), the choice among issuers
      ([loadCertResourceAnyIssuer_newest]), accounts ([account_roundtrip]), the
      limiter by itself ([rate_limit_sliding_window]), propagation
      ([wait_loop_returns]), allowlists ([ManageSync_allowlist]), atomic files
      ([atomicFile_settles]), the end of the TLS-ALPN server
      ([cleanup_returns]) and the redirects and listeners of [HTTPS].
      Behaviour that differs from what the comments promise is proved as well:
      [handshake_bypasses_decision], [stray_CleanUp_run],
      [FileLock_empty_reads], [FileLock_orphan_kept],
      [certNeedsRenewal_unselected_window], [storeTx_rollback_loses],
      [Safe_allows_traversal], [NamesKey_collision],
      [doWithRetry_gives_up_nil], [panic_leaks_name],
      [SetMaxEvents_grow_next_slot], [checkStorage_ignores_delete],
      [idn_name_not_found], [renew_replaces_leaks],
      [handshake_empty_without_error], [handshake_waits_for_itself],
      [obtaining_waits_for_itself],
      [refresh_staple_orphans], [updateARI_failure_reports_change],
      [Store_chmod_leak], [populate_port_brackets], [test_tokens_elsewhere],
      [newACMEClient_insecure_test], [agreed_not_read],
      [recreated_account_unused], [forgotten_account_panics],
      [forgotten_test_account], [retry_not_throttled],
      [root_of_bad_chain_panics], [zerossl_present_failed],
      [exists_below_file], [eleven_panics], [HTTPS_not_restartable],
      [http_not_redirected], [redirect_v6], [Default_fields_unused].

    ** Fuel

    Loops whose recursion is not structural carry fuel: [doWithRetry] stops
    after at most 142 attempts (C36), so the fuel of 143 of the issuance model
    is enough; the PEM loop consumes at least one byte in each round, so the
    length of the bundle is enough; [wait_fuel] counts the rounds that fit
    into the timeout ([wait_loop_returns]); the walk of [List] has the number of
    files as its fuel, which no path of the tree exceeds ([List_exact]); polling
    ZeroSSL ends when the API reports an outcome
    ([waitForCertToBeIssued_issued]). The handshake recursion is proved for any
    fuel or evaluated with fuel that suffices.

    ** Not modelled

    What the servers of [HTTPS] do with their connections (net/http), the
    copies of a ClientHello for logs and events, logging, the deadlines of
    contexts, and the test helpers. A handshake takes its steps one after the
    other but for its waits, in which others run (C15). Third-party code (X.509, TLS, ACME, IDNA,
    DNS, OCSP encodings, BLAKE3, the ZeroSSL client, DNS providers) is a
    parameter with its documented behaviour as laws of a class, each with an
    instance. The file system storage implements a map on keys of plain
    components (C27) and not all of [StorageLaws], which quantify over all
    keys, so the theorems on [Config] are not instantiated with it. *)

From stdpp Require Export base tactics list gmap strings fin_maps sets relations sorting.
From Stdlib Require Export ZArith Lia.
From Stdlib Require Import SpecFloat.

#[export] Set Default Goal Selector "!".

(** ** Go errors

    An error value is modelled with the part the code observes: the sentinel
    values it compares with [errors.Is], the [ErrNoRetry] wrapper it looks for
    with [errors.As], and whether a formatted error keeps its cause
    ([fmt.Errorf] with [%w], [Wrapf]) or only its text ([%v] or [errors.New],
    [Errorf]). The message stands for the constant text of the call. A panic
    travels as an error too, [Panic]: it unwinds the callers, so that code which
    handles an error lets it pass, and deferred functions still run. *)
Inductive error : Type :=
| ErrNotExist
| Canceled
| DeadlineExceeded
| ErrNoRetry (e : error)
| Errorf (msg : string)
| Wrapf (msg : string) (e : error)
| Panic (msg : string).

#[export] Instance error_eq_dec : EqDecision error.
Proof. solve_decision. Defined.

(** The chain walked by [errors.Is] and [errors.As]: the error and everything
    it unwraps to. *)
Fixpoint error_chain (e : error) : list error :=
  e :: match e with
       | ErrNoRetry e' | Wrapf _ e' => error_chain e'
       | _ => []
       end.

(** [errors.Is(err, target)] for a sentinel [target]. *)
Definition errors_Is (e target : error) : bool :=
  bool_decide (target ∈ error_chain e).

(** [errors.As(err, &errNoRetry)]. *)
Definition errors_As_ErrNoRetry (e : error) : bool :=
  existsb (λ x, match x with ErrNoRetry _ => true | _ => false end)
          (error_chain e).

Definition is_panic (e : error) : bool := match e with Panic _ => true | _ => false end.

(** ** Results and state *)

Inductive result (A : Type) : Type :=
| Ok (a : A)
| Err (e : error).
Arguments Ok {A} a.
Arguments Err {A} e.

Definition is_Ok {A} (r : result A) : bool :=
  match r with Ok _ => true | Err _ => false end.

#[export] Instance result_eq_dec `{EqDecision A} : EqDecision (result A).
Proof. solve_decision. Defined.

(** Code that changes a state [S] and returns a value. A Go function that
    returns a value and an error is an [ST S (result A)]: an error does not
    undo the changes made before it. *)
Definition ST (S A : Type) : Type := S → A * S.

#[export] Instance ST_ret S : MRet (ST S) := λ A a s, (a, s).
#[export] Instance ST_bind S : MBind (ST S) :=
  λ A B k m s, let '(a, s') := m s in k a s'.

(** [x, err := m; if err != nil { return ..., err }; k x]. *)
Definition bind_result {S A B} (m : ST S (result A))
    (k : A → ST S (result B)) : ST S (result B) :=
  λ s, match m s with
       | (Ok a, s') => k a s'
       | (Err e, s') => (Err e, s')
       end.

Declare Scope go_scope.
Delimit Scope go_scope with go.
Notation "x ←? m ; k" := (bind_result m (λ x, k))
  (at level 20, m at level 100, k at level 200, right associativity,
   only parsing) : go_scope.
Notation "'let?' x := m 'in' k" :=
  (match m with Ok x => k | Err e => Err e end)
  (at level 10, x pattern, k at level 200, only parsing) : go_scope.

(** ** Machine integers *)

Definition int64_min : Z := (- 2 ^ 63)%Z.
Definition int64_max : Z := (2 ^ 63 - 1)%Z.
Definition in_int64 (z : Z) : Prop := (int64_min ≤ z ≤ int64_max)%Z.

(** The two's complement value of [z] in 64 bits. *)
Definition wrap64 (z : Z) : Z := ((z + 2 ^ 63) mod 2 ^ 64 - 2 ^ 63)%Z.

Lemma wrap64_range z : in_int64 (wrap64 z).
Proof.
  unfold in_int64, wrap64, int64_min, int64_max.
  pose proof (Z.mod_pos_bound (z + 2 ^ 63) (2 ^ 64)). lia.
Qed.

Lemma wrap64_id z : in_int64 z → wrap64 z = z.
Proof.
  unfold in_int64, wrap64, int64_min, int64_max. intros H.
  rewrite Z.mod_small; lia.
Qed.

(** ** Time

    A [time.Time] is the number of nanoseconds since the zero time, so
    [IsZero] is equality with 0. A [time.Duration] is an [int64] of
    nanoseconds. *)
Abbreviation Time := Z (only parsing).
Abbreviation Duration := Z (only parsing).

Definition Nanosecond : Duration := 1%Z.
Definition Second : Duration := (10 ^ 9)%Z.
Definition Minute : Duration := (60 * Second)%Z.
Definition Hour : Duration := (60 * Minute)%Z.

Definition time_IsZero (t : Time) : bool := (t =? 0)%Z.
Definition time_After (t u : Time) : bool := (u <? t)%Z.
Definition time_Before (t u : Time) : bool := (t <? u)%Z.
Definition time_Add (t : Time) (d : Duration) : Time := (t + d)%Z.

(** [t.Sub(u)] saturates at the extreme durations. *)
Definition time_Sub (t u : Time) : Duration :=
  Z.max int64_min (Z.min int64_max (t - u)).

(** [t.Truncate(d)] rounds down to a multiple of [d] since the zero time. *)
Definition time_Truncate (t : Time) (d : Duration) : Time :=
  if (d <=? 0)%Z then t else (t - t mod d)%Z.

(** [time.Since(t)] and [time.Until(t)] when the clock reads [now]. *)
Definition time_Since (now t : Time) : Duration := time_Sub now t.
Definition time_Until (now t : Time) : Duration := time_Sub t now.

(** [t.Unix()]: seconds since 1970; [time.Unix(s, 0)] is its inverse on whole
    seconds. *)
Definition unixToInternal : Z := 62135596800%Z.
Definition time_Unix (t : Time) : Z := (t / Second - unixToInternal)%Z.
Definition Unix_time (s : Z) : Time := ((s + unixToInternal) * Second)%Z.

Lemma time_Sub_range t u : in_int64 (time_Sub t u).
Proof. unfold in_int64, time_Sub, int64_min, int64_max. lia. Qed.

Lemma time_Sub_exact t u : in_int64 (t - u) → time_Sub t u = (t - u)%Z.
Proof. unfold in_int64, time_Sub, int64_min, int64_max. lia. Qed.

Lemma time_Sub_mono t t' u u' :
  (t ≤ t')%Z → (u' ≤ u)%Z → (time_Sub t u ≤ time_Sub t' u')%Z.
Proof. unfold time_Sub. lia. Qed.

(** ** [float64] *)

(** IEEE 754 binary64, computed with the axiom-free specification of the
    standard library. *)
Definition float64 : Type := spec_float.
Definition float64_of_Z (z : Z) : float64 := binary_normalize 53 1024 z 0 false.
Definition float64_mul (x y : float64) : float64 := SFmul 53 1024 x y.
Definition float64_div (x y : float64) : float64 := SFdiv 53 1024 x y.
Definition float64_eqb (x y : float64) : bool := SFeqb x y.
Definition float64_leb (x y : float64) : bool := SFleb x y.
Definition float64_ltb (x y : float64) : bool := SFltb x y.

(** [int64(f)]: truncation towards zero; a value that does not fit gives the
    smallest integer (what the 64-bit x86 conversion returns). *)
Definition int64_of_float64 (f : float64) : Z :=
  match f with
  | S754_zero _ => 0%Z
  | S754_finite s m e =>
      let z := (match e with
                | Zneg p => Zpos m / 2 ^ Zpos p
                | _ => Zpos m * 2 ^ e
                end)%Z in
      let v := if s then (- z)%Z else z in
      if ((int64_min <=? v) && (v <=? int64_max))%Z then v else int64_min
  | _ => int64_min
  end.

(** ** Tactics and hints *)

Create HintDb certmagic discriminated.

(** Case analysis on the scrutinee of every [match] and [if] of the goal or
    of a hypothesis, with the equations substituted. *)
Ltac break_match_goal :=
  repeat match goal with
  | |- context [match ?x with _ => _ end] =>
      lazymatch x with
      | context [match _ with _ => _ end] => fail
      | _ => destruct x eqn:?
      end
  end.

Ltac break_match_hyp H :=
  repeat match type of H with
  | context [match ?x with _ => _ end] =>
      lazymatch x with
      | context [match _ with _ => _ end] => fail
      | _ => destruct x eqn:?
      end
  end.

(** Boolean tests turned into propositions. *)
Ltac reflect_bools :=
  repeat match goal with
  | H : (_ && _) = true |- _ => apply andb_true_iff in H as [? ?]
  | H : (_ || _) = false |- _ => apply orb_false_iff in H as [? ?]
  | H : negb _ = true |- _ => apply negb_true_iff in H
  | H : negb _ = false |- _ => apply negb_false_iff in H
  | H : bool_decide _ = true |- _ => apply bool_decide_eq_true_1 in H
  | H : bool_decide _ = false |- _ => apply bool_decide_eq_false_1 in H
  | H : (_ <? _)%Z = true |- _ => apply Z.ltb_lt in H
  | H : (_ <? _)%Z = false |- _ => apply Z.ltb_ge in H
  | H : (_ <=? _)%Z = true |- _ => apply Z.leb_le in H
  | H : (_ <=? _)%Z = false |- _ => apply Z.leb_gt in H
  | H : (_ =? _)%Z = true |- _ => apply Z.eqb_eq in H
  | H : (_ =? _)%Z = false |- _ => apply Z.eqb_neq in H
  | H : (_ =? _)%string = true |- _ => apply String.eqb_eq in H
  | H : (_ =? _)%string = false |- _ => apply String.eqb_neq in H
  end.

(** ** Lists *)

Lemma elem_of_list_omap_Some {A B} (f : A → option B) (l : list A) (y : B) :
  y ∈ omap f l ↔ ∃ x, x ∈ l ∧ f x = Some y.
Proof. apply list_elem_of_omap. Qed.

Lemma drop_cons_S {A} (l : list A) i x t : drop i l = x :: t → drop (S i) l = t.
Proof.
  revert l. induction i as [|i IH]; intros [|y l] H; simpl in *; try done.
  - by injection H as _ ->.
  - by apply IH.
Qed.

Lemma existsb_elem_of {A} (p : A → bool) (l : list A) :
  existsb p l = true ↔ ∃ x, x ∈ l ∧ p x = true.
Proof.
  rewrite existsb_exists. split; intros (x & Hx & Hp); exists x; split; try done.
  - by apply list_elem_of_In.
  - by apply list_elem_of_In.
Qed.

Lemma filter_none {A} (P : A → Prop) `{∀ x, Decision (P x)} (l : list A) :
  (∀ x, x ∈ l → ¬ P x) → filter P l = [].
Proof.
  induction l as [|x l IH]; intros HP; [done|].
  rewrite filter_cons_False by (apply HP; by left).
  apply IH. intros y Hy. apply HP. by right.
Qed.

Lemma filter_all {A} (P : A → Prop) `{∀ x, Decision (P x)} (l : list A) :
  (∀ x, x ∈ l → P x) → filter P l = l.
Proof.
  induction l as [|x l IH]; intros HP; [done|].
  rewrite filter_cons_True by (apply HP; by left).
  f_equal. apply IH. intros y Hy. apply HP. by right.
Qed.
