(* ===== verification/GoStrings.v ===== *)
(** * Go's [strings] and [path] packages

    The functions of the Go standard library the code calls on strings, as
    executable definitions on byte strings, with the lemmas the components
    share. [ToLower] and [TrimSpace] are exact on ASCII, which is what host
    names, storage keys and issuer keys are made of; on other bytes Go works
    on whole code points and the model leaves the byte unchanged. *)

From S2P Require Import Prelude.
From Stdlib Require Import Ascii.
Open Scope string_scope.

#[global] Arguments String.append !_ _ / : simpl nomatch.

Abbreviation bytes := string (only parsing).

(** ** Characters *)

Definition ascii_le (a b : ascii) : bool := (nat_of_ascii a <=? nat_of_ascii b)%nat.
Definition in_range (lo hi c : ascii) : bool := ascii_le lo c && ascii_le c hi.
Definition is_upper (c : ascii) : bool := in_range "A" "Z" c.
Definition is_lower (c : ascii) : bool := in_range "a" "z" c.
Definition is_digit (c : ascii) : bool := in_range "0" "9" c.

Definition lower_ascii (c : ascii) : ascii :=
  if is_upper c then ascii_of_nat (nat_of_ascii c + 32) else c.

(** ['\t'], ['\n'], ['\v'], ['\f'], ['\r'] and [' ']. *)
Definition is_space (c : ascii) : bool :=
  let n := nat_of_ascii c in ((9 <=? n) && (n <=? 13) || (n =? 32))%nat.

(** ** Maps and folds over the bytes of a string *)

Fixpoint string_map (f : ascii → ascii) (s : string) : string :=
  match s with "" => "" | String c s' => String (f c) (string_map f s') end.

Fixpoint string_forall (p : ascii → bool) (s : string) : bool :=
  match s with "" => true | String c s' => p c && string_forall p s' end.

Fixpoint string_filter (p : ascii → bool) (s : string) : string :=
  match s with
  | "" => ""
  | String c s' => if p c then String c (string_filter p s') else string_filter p s'
  end.

Definition ToLower (s : string) : string := string_map lower_ascii s.

Fixpoint TrimLeft (s : string) : string :=
  match s with
  | "" => ""
  | String c s' => if is_space c then TrimLeft s' else s
  end.

Fixpoint TrimRight (s : string) : string :=
  match s with
  | "" => ""
  | String c s' =>
      match TrimRight s' with
      | "" => if is_space c then "" else String c ""
      | r => String c r
      end
  end.

Definition TrimSpace (s : string) : string := TrimRight (TrimLeft s).

Fixpoint string_drop (n : nat) (s : string) : string :=
  match n, s with
  | S n', String _ s' => string_drop n' s'
  | _, _ => s
  end.

Fixpoint string_take (n : nat) (s : string) : string :=
  match n, s with
  | S n', String c s' => String c (string_take n' s')
  | _, _ => ""
  end.

Definition HasPrefix (s pre : string) : bool := String.prefix pre s.
#[global] Arguments HasPrefix : simpl never.

(** [len(s) >= len(suffix) && s[len(s)-len(suffix):] == suffix] *)
Definition HasSuffix (s suf : string) : bool :=
  (String.length suf <=? String.length s)%nat &&
  (string_drop (String.length s - String.length suf) s =? suf).

Definition TrimSuffix (s suf : string) : string :=
  if HasSuffix s suf then string_take (String.length s - String.length suf) s else s.

Fixpoint Contains (s sub : string) : bool :=
  HasPrefix s sub ||
  match s with "" => false | String _ s' => Contains s' sub end.

Definition ContainsAny (s chars : string) : bool :=
  negb (string_forall
          (λ c, string_forall (λ d, negb (Ascii.eqb c d)) chars) s).

(** [strings.Count(s, string(c))] for a one-byte separator. *)
Fixpoint CountByte (s : string) (c : ascii) : nat :=
  match s with
  | "" => 0
  | String d s' => (if Ascii.eqb d c then 1 else 0) + CountByte s' c
  end%nat.

(** [strings.Split(s, string(sep))] for a one-byte separator. *)
Fixpoint Split (s : string) (sep : ascii) : list string :=
  match s with
  | "" => [""]
  | String c s' =>
      if Ascii.eqb c sep then "" :: Split s' sep
      else match Split s' sep with
           | [] => [String c ""]
           | w :: ws => String c w :: ws
           end
  end.

Fixpoint Join (l : list string) (sep : string) : string :=
  match l with
  | [] => ""
  | [w] => w
  | w :: ws => w +:+ sep +:+ Join ws sep
  end.

(** ** [path.Clean] and [path.Join]

    [path.Clean] drops empty and ["."] elements and resolves [".."] against
    the element before it. The elements kept so far are the list [out], last
    first. *)
Definition clean_step (rooted : bool) (out : list string) (e : string) : list string :=
  if (e =? "") || (e =? ".") then out
  else if e =? ".." then
    match out with
    | [] => if rooted then [] else [".."]
    | top :: rest => if top =? ".." then ".." :: out else rest
    end
  else e :: out.

Definition path_Clean (p : string) : string :=
  if p =? "" then "."
  else
    let rooted := HasPrefix p "/" in
    let out := rev (foldl (clean_step rooted) [] (Split p "/")) in
    if rooted then "/" +:+ Join out "/"
    else match out with [] => "." | _ => Join out "/" end.

(** [path.Join]: empty elements are ignored; the result is cleaned, and is
    empty when every element is. *)
Definition path_Join (elems : list string) : string :=
  match filter (λ e, e ≠ "") elems with
  | [] => ""
  | es => path_Clean (Join es "/")
  end.

(** [path.Ext]: the suffix from the last dot of the last element. *)
Fixpoint path_Ext_aux (s acc : string) : string :=
  match s with
  | "" => acc
  | String c s' =>
      if Ascii.eqb c "/" then path_Ext_aux s' ""
      else if Ascii.eqb c "." then path_Ext_aux s' s
      else path_Ext_aux s' acc
  end.
Definition path_Ext (p : string) : string := path_Ext_aux p "".

(** [path.Base]: the last element, without the slashes at the end. *)
Fixpoint strip_slashes (s : string) : string :=
  match s with
  | "" => ""
  | String c s' =>
      match strip_slashes s' with
      | "" => if Ascii.eqb c "/" then "" else String c ""
      | t => String c t
      end
  end.
Definition path_Base (p : string) : string :=
  if p =? "" then "."
  else
    match strip_slashes p with
    | "" => "/"
    | t => List.last (Split t "/") ""
    end.

(** ** Lemmas *)

Lemma append_nil_r (s : string) : s +:+ "" = s.
Proof. induction s as [|c s IH]; simpl; congruence. Qed.

Lemma append_byte (c : ascii) (s : string) : String c "" +:+ s = String c s.
Proof. done. Qed.

Lemma append_assoc (s t u : string) : (s +:+ t) +:+ u = s +:+ t +:+ u.
Proof. induction s as [|c s IH]; simpl; congruence. Qed.

Lemma length_append (s t : string) :
  String.length (s +:+ t) = (String.length s + String.length t)%nat.
Proof. induction s as [|c s IH]; simpl; congruence. Qed.

Lemma append_inj_l (s t u : string) : s +:+ t = s +:+ u → t = u.
Proof. induction s as [|c s IH]; simpl; [done|]. intros [=]. auto. Qed.

Lemma append_inj_r (s t u : string) : s +:+ u = t +:+ u → s = t.
Proof.
  revert t. induction s as [|c s IH]; intros [|d t] H; simpl in *.
  - done.
  - apply (f_equal String.length) in H. simpl in H. rewrite length_append in H. lia.
  - apply (f_equal String.length) in H. simpl in H. rewrite length_append in H. lia.
  - injection H as -> H. f_equal. by apply IH.
Qed.

Lemma HasPrefix_spec (s pre : string) :
  HasPrefix s pre = true ↔ ∃ t, s = pre +:+ t.
Proof.
  unfold HasPrefix. revert s. induction pre as [|c pre IH]; intros s; simpl.
  - split; [eauto|]. intros _. by destruct s.
  - destruct s as [|d s].
    + split; [done|]. intros [t H]. discriminate.
    + simpl. destruct (ascii_dec c d) as [->|Hne].
      * rewrite IH. split; intros [t H]; exists t; [by subst|]. by injection H.
      * split; [done|]. intros [t H]. injection H. congruence.
Qed.

Lemma string_drop_append (s t : string) :
  string_drop (String.length s) (s +:+ t) = t.
Proof. induction s as [|c s IH]; simpl; [by destruct t|done]. Qed.

Lemma string_take_append (s t : string) :
  string_take (String.length s) (s +:+ t) = s.
Proof. induction s as [|c s IH]; simpl; [by destruct t|congruence]. Qed.

Lemma string_take_drop (n : nat) (s : string) :
  string_take n s +:+ string_drop n s = s.
Proof.
  revert s. induction n as [|n IH]; intros [|c s]; simpl; [done..|].
  by rewrite IH.
Qed.

Lemma HasSuffix_spec (s suf : string) :
  HasSuffix s suf = true ↔ ∃ t, s = t +:+ suf.
Proof.
  unfold HasSuffix. split.
  - intros [_ H]%andb_true_iff. apply String.eqb_eq in H.
    exists (string_take (String.length s - String.length suf) s).
    by rewrite <-H at 2; rewrite string_take_drop.
  - intros [t ->]. rewrite length_append. apply andb_true_iff. split.
    + apply Nat.leb_le. lia.
    + rewrite Nat.add_sub, string_drop_append. apply String.eqb_refl.
Qed.

Lemma TrimSuffix_append (t suf : string) : TrimSuffix (t +:+ suf) suf = t.
Proof.
  unfold TrimSuffix.
  rewrite (proj2 (HasSuffix_spec _ _)) by eauto.
  rewrite length_append, Nat.add_sub. apply string_take_append.
Qed.

Lemma Contains_spec (s sub : string) :
  Contains s sub = true ↔ ∃ t u, s = t +:+ sub +:+ u.
Proof.
  induction s as [|c s IH]; simpl; rewrite orb_true_iff, HasPrefix_spec.
  - split.
    + intros [[u ->]|]; [by exists "", u|done].
    + intros (t & u & H). left. exists u. by destruct t.
  - rewrite IH. split.
    + intros [[u ->]|(t & u & ->)]; [by exists "", u|by exists (String c t), u].
    + intros ([|d t] & u & H); simpl in H; [left; by exists u|right].
      injection H as -> ->. by exists t, u.
Qed.

Lemma string_forall_append p (s t : string) :
  string_forall p (s +:+ t) = string_forall p s && string_forall p t.
Proof. induction s as [|c s IH]; simpl; [done|]. by rewrite IH, andb_assoc. Qed.

Lemma string_forall_filter p (s : string) :
  string_forall p (string_filter p s) = true.
Proof.
  induction s as [|c s IH]; simpl; [done|].
  destruct (p c) eqn:E; simpl; [by rewrite E|done].
Qed.

Lemma string_filter_id p (s : string) :
  string_forall p s = true → string_filter p s = s.
Proof.
  induction s as [|c s IH]; simpl; [done|].
  intros [-> H]%andb_true_iff. f_equal. auto.
Qed.

Lemma string_forall_impl (p q : ascii → bool) (s : string) :
  (∀ c, p c = true → q c = true) →
  string_forall p s = true → string_forall q s = true.
Proof.
  intros Hpq. induction s as [|c s IH]; simpl; [done|].
  intros [Hc Hs]%andb_true_iff. apply andb_true_iff. auto.
Qed.

Lemma ContainsAny_false (s chars : string) :
  ContainsAny s chars = false →
  string_forall (λ c, string_forall (λ d, negb (Ascii.eqb c d)) chars) s = true.
Proof. apply negb_false_iff. Qed.

(** *** Lower casing and trimming *)

Lemma lower_ascii_idemp c : lower_ascii (lower_ascii c) = lower_ascii c.
Proof. by destruct c as [[] [] [] [] [] [] [] []]. Qed.

Lemma ToLower_idemp s : ToLower (ToLower s) = ToLower s.
Proof.
  induction s as [|c s IH]; simpl; [done|].
  unfold ToLower in *. simpl. by rewrite lower_ascii_idemp, IH.
Qed.

Lemma ToLower_append s t : ToLower (s +:+ t) = ToLower s +:+ ToLower t.
Proof.
  induction s as [|c s IH]; [done|]. unfold ToLower in *. simpl. by rewrite IH.
Qed.

Lemma is_space_lower c : is_space (lower_ascii c) = is_space c.
Proof. by destruct c as [[] [] [] [] [] [] [] []]. Qed.

Lemma TrimLeft_lower s : TrimLeft (ToLower s) = ToLower (TrimLeft s).
Proof.
  induction s as [|c s IH]; [done|]. unfold ToLower in *. simpl.
  rewrite is_space_lower. by destruct (is_space c).
Qed.

Lemma TrimRight_lower s : TrimRight (ToLower s) = ToLower (TrimRight s).
Proof.
  induction s as [|c s IH]; [done|]. unfold ToLower in *. simpl. rewrite IH.
  destruct (TrimRight s) as [|d r]; simpl; [|done].
  rewrite is_space_lower. by destruct (is_space c).
Qed.

Lemma TrimSpace_lower s : TrimSpace (ToLower s) = ToLower (TrimSpace s).
Proof. unfold TrimSpace. by rewrite TrimLeft_lower, TrimRight_lower. Qed.

Lemma TrimRight_idemp s : TrimRight (TrimRight s) = TrimRight s.
Proof.
  induction s as [|c s IH]; simpl; [done|].
  destruct (TrimRight s) as [|d r] eqn:E; simpl.
  - destruct (is_space c) eqn:Ec; simpl; [done|]. by rewrite Ec.
  - simpl in IH. destruct (TrimRight r) as [|d' r'] eqn:E'; rewrite ?E' in IH; by rewrite IH.
Qed.

(** Trimming on the right keeps the first byte of a non-empty result. *)
Lemma TrimRight_head s :
  TrimRight s = "" ∨ ∃ c r r', s = String c r ∧ TrimRight s = String c r'.
Proof.
  destruct s as [|c s]; simpl; [by left|].
  destruct (TrimRight s) as [|d r].
  - destruct (is_space c); [by left|right; by eexists _, _, _].
  - right. by eexists _, _, _.
Qed.

Lemma TrimLeft_head s : TrimLeft s = "" ∨ ∃ c r, TrimLeft s = String c r ∧ is_space c = false.
Proof.
  induction s as [|c s IH]; simpl; [by left|].
  destruct (is_space c) eqn:E; [done|right; eauto].
Qed.

Lemma TrimSpace_idemp s : TrimSpace (TrimSpace s) = TrimSpace s.
Proof.
  unfold TrimSpace. destruct (TrimRight_head (TrimLeft s)) as [->|(c & r & r' & H1 & H2)].
  - done.
  - destruct (TrimLeft_head s) as [H|(d & t & H & Hd)]; [congruence|].
    assert (d = c) as -> by congruence.
    rewrite H2. simpl. rewrite Hd, <-H2. apply TrimRight_idemp.
Qed.

(** *** Splitting and joining *)

Definition no_byte (sep : ascii) (w : string) : bool :=
  string_forall (λ c, negb (Ascii.eqb c sep)) w.

Lemma Split_nonempty s sep : Split s sep ≠ [].
Proof.
  destruct s as [|c s]; simpl; [done|].
  destruct (Ascii.eqb c sep); [done|]. by destruct (Split s sep).
Qed.

Lemma Join_cons w ws sep :
  ws ≠ [] → Join (w :: ws) sep = w +:+ sep +:+ Join ws sep.
Proof. by destruct ws. Qed.

Lemma Join_Split s sep : Join (Split s sep) (String sep "") = s.
Proof.
  induction s as [|c s IH]; [done|]. simpl.
  pose proof (Split_nonempty s sep) as Hne.
  destruct (Ascii.eqb_spec c sep) as [->|Hc].
  - rewrite Join_cons by done. by rewrite IH.
  - destruct (Split s sep) as [|w ws]; [done|].
    destruct ws as [|w' ws]; simpl in *; by rewrite IH.
Qed.

Lemma Split_no_byte s sep : Forall (λ w, no_byte sep w = true) (Split s sep).
Proof.
  induction s as [|c s IH]; simpl; [by repeat constructor|].
  destruct (Ascii.eqb c sep) eqn:E; [by constructor|].
  destruct (Split s sep) as [|w ws]; [constructor; [|done]; unfold no_byte; simpl; by rewrite E|].
  apply Forall_cons in IH as [Hw Hws]. constructor; [|done].
  unfold no_byte in *. simpl. by rewrite E.
Qed.

Lemma Split_append_no_byte w s sep :
  no_byte sep w = true → Split (w +:+ String sep s) sep = w :: Split s sep.
Proof.
  induction w as [|c w IH]; simpl; [by rewrite Ascii.eqb_refl|].
  unfold no_byte in *. simpl. intros [Hc Hw]%andb_true_iff.
  apply negb_true_iff in Hc. rewrite Hc, IH by done. done.
Qed.

Lemma Split_single w sep : no_byte sep w = true → Split w sep = [w].
Proof.
  induction w as [|c w IH]; simpl; [done|].
  unfold no_byte in *. simpl. intros [Hc Hw]%andb_true_iff.
  apply negb_true_iff in Hc. by rewrite Hc, IH.
Qed.

(** Splitting undoes joining when no element holds the separator. *)
Lemma Split_Join ws sep :
  ws ≠ [] → Forall (λ w, no_byte sep w = true) ws →
  Split (Join ws (String sep "")) sep = ws.
Proof.
  induction ws as [|w ws IH]; [done|]. intros _ [Hw Hws]%Forall_cons.
  destruct ws as [|w' ws]; [by apply Split_single|].
  rewrite Join_cons, append_byte, Split_append_no_byte by done. by rewrite IH.
Qed.

Lemma Join_inj ws ws' sep :
  ws ≠ [] → ws' ≠ [] →
  Forall (λ w, no_byte sep w = true) ws → Forall (λ w, no_byte sep w = true) ws' →
  Join ws (String sep "") = Join ws' (String sep "") → ws = ws'.
Proof.
  intros ???? H. rewrite <-(Split_Join ws sep), <-(Split_Join ws' sep) by done.
  by rewrite H.
Qed.

(** *** Clean paths *)

(** An element [path.Clean] keeps as it is: not empty, ["."] or [".."], and
    without a slash. *)
Definition plain_elem (e : string) : bool :=
  negb (e =? "") && negb (e =? ".") && negb (e =? "..") && no_byte "/" e.

Lemma plain_elem_spec e :
  plain_elem e = true → e ≠ "" ∧ e ≠ "." ∧ e ≠ ".." ∧ no_byte "/" e = true.
Proof. unfold plain_elem. intros H. reflect_bools. auto. Qed.

Lemma clean_step_plain rooted out e :
  plain_elem e = true → clean_step rooted out e = e :: out.
Proof.
  intros (H1 & H2 & H3 & _)%plain_elem_spec. unfold clean_step.
  by rewrite !(proj2 (String.eqb_neq _ _)).
Qed.

Lemma foldl_clean_plain rooted out es :
  Forall (λ e, plain_elem e = true) es →
  foldl (clean_step rooted) out es = (rev es ++ out)%list.
Proof.
  revert out. induction es as [|e es IH]; intros out; [done|].
  intros [He Hes]%Forall_cons. simpl. rewrite clean_step_plain by done.
  rewrite IH by done. by rewrite <-app_assoc.
Qed.

Lemma plain_no_slash e : plain_elem e = true → no_byte "/" e = true.
Proof. by intros (_ & _ & _ & ?)%plain_elem_spec. Qed.

Lemma Join_plain_head es :
  es ≠ [] → Forall (λ e, plain_elem e = true) es →
  Join es "/" ≠ "" ∧ HasPrefix (Join es "/") "/" = false.
Proof.
  intros Hne HF. destruct es as [|e es]; [done|].
  apply Forall_cons in HF as [(H1 & _ & _ & H2)%plain_elem_spec _].
  destruct e as [|c e]; [done|].
  unfold no_byte in H2. simpl in H2. apply andb_true_iff in H2 as [Hc _].
  apply negb_true_iff in Hc. destruct (Ascii.eqb_spec c "/") as [|Hc']; [done|].
  assert (∃ r, Join (String c e :: es) "/" = String c r) as [r ->].
  { destruct es; simpl; by eexists. }
  split; [done|]. apply not_true_iff_false. intros [t Ht]%HasPrefix_spec.
  simpl in Ht. congruence.
Qed.

(** [path.Clean] is the identity on a slash-joined list of plain elements. *)
Lemma path_Clean_plain es :
  es ≠ [] → Forall (λ e, plain_elem e = true) es →
  path_Clean (Join es "/") = Join es "/".
Proof.
  intros Hne HF. destruct (Join_plain_head es) as [Hj Hr]; [done..|].
  unfold path_Clean. rewrite (proj2 (String.eqb_neq _ _)) by done. rewrite Hr.
  rewrite Split_Join; [|done|].
  2:{ eapply Forall_impl; [exact HF|]. apply plain_no_slash. }
  rewrite foldl_clean_plain by done. rewrite app_nil_r, rev_involutive.
  by destruct es.
Qed.

(** Joining plain paths is joining their elements. *)
Lemma path_Join_plain es es' :
  es ≠ [] → es' ≠ [] →
  Forall (λ e, plain_elem e = true) (es ++ es')%list →
  path_Join [Join es "/"; Join es' "/"] = Join (es ++ es')%list "/".
Proof.
  intros Hne Hne' HF. pose proof HF as [H1 H2]%Forall_app.
  destruct (Join_plain_head es) as [Hj _]; [done..|].
  destruct (Join_plain_head es') as [Hj' _]; [done..|].
  unfold path_Join. rewrite !filter_cons_True by done. rewrite filter_nil.
  assert (Join [Join es "/"; Join es' "/"] "/" = Join (es ++ es')%list "/") as ->.
  { clear -Hne Hne'. induction es as [|e es IH]; [done|].
    destruct es as [|e' es].
    - simpl app. by rewrite (Join_cons e es').
    - simpl app. rewrite (Join_cons e (e' :: es)), (Join_cons e (e' :: es ++ es')%list) by done.
      specialize (IH ltac:(done)). simpl app in IH. rewrite <-IH.
      simpl. by rewrite !append_assoc. }
  apply path_Clean_plain; [by destruct es|done].
Qed.

Lemma Split_snoc s w sep :
  no_byte sep w = true → Split (s +:+ String sep w) sep = (Split s sep ++ [w])%list.
Proof.
  intros Hw. induction s as [|c s IH]; simpl.
  - by rewrite Ascii.eqb_refl, Split_single.
  - destruct (Ascii.eqb c sep); [by rewrite IH|]. rewrite IH.
    destruct (Split s sep) as [|x l] eqn:E; [by destruct (Split_nonempty s sep)|done].
Qed.

Lemma Join_snoc l e : ∃ d, Join (l ++ [e])%list "/" = d +:+ e.
Proof.
  induction l as [|x l [d IH]]; [by exists ""|]. simpl app. rewrite Join_cons by (by destruct l).
  rewrite IH. exists (x +:+ "/" +:+ d). by rewrite !append_assoc.
Qed.

(** The last element of a path survives. *)
Lemma path_Join_last p e : plain_elem e = true → ∃ d, path_Join [p; e] = d +:+ e.
Proof.
  intros He. pose proof (plain_elem_spec e He) as (Hne & _ & _ & Hs). unfold path_Join.
  rewrite filter_cons, filter_cons. destruct (decide (e ≠ "")) as [_|]; [|done].
  rewrite filter_nil. destruct (decide (p ≠ "")) as [Hp|Hp]; simpl Join.
  - unfold path_Clean. destruct (String.eqb_spec (p +:+ String "/" e) "") as [Hz|_].
    { by destruct p. }
    change ("/" +:+ e) with (String "/" e). rewrite Split_snoc, foldl_app by done. simpl foldl.
    rewrite clean_step_plain by done. simpl rev.
    destruct (Join_snoc (rev (foldl (clean_step (HasPrefix (p +:+ String "/" e) "/")) [] (Split p "/"))) e)
      as [d Hd]. rewrite Hd. destruct (HasPrefix _ "/").
    + exists ("/" +:+ d). by rewrite !append_assoc.
    + exists d. by destruct (rev _).
  - exists "". change e with (Join [e] "/") at 1. rewrite path_Clean_plain; [done|done|].
    by repeat constructor.
Qed.

(** ** [net.SplitHostPort] and [net.JoinHostPort] *)

(** [strings.IndexByte(s, c)], and the last index; [None] is [-1]. *)
Fixpoint IndexByte (s : string) (c : ascii) : option nat :=
  match s with
  | "" => None
  | String d s' => if Ascii.eqb d c then Some 0%nat else S <$> IndexByte s' c
  end.

Fixpoint LastIndexByte (s : string) (c : ascii) : option nat :=
  match s with
  | "" => None
  | String d s' =>
      match LastIndexByte s' c with
      | Some i => Some (S i)
      | None => if Ascii.eqb d c then Some 0%nat else None
      end
  end.

Definition has_byte (s : string) (c : ascii) : bool := negb (no_byte c s).

(** The host and the port of ["host:port"], ["[host]:port"]; an error when the
    port is missing, a colon is ambiguous or a bracket is misplaced. *)
Definition SplitHostPort (hostport : string) : result (string * string) :=
  match LastIndexByte hostport ":" with
  | None => Err (Errorf "missing port in address")
  | Some i =>
      let port := string_drop (S i) hostport in
      if HasPrefix hostport "[" then
        match IndexByte hostport "]" with
        | None => Err (Errorf "missing ']' in address")
        | Some close =>
            if (S close =? i)%nat then
              if has_byte (string_drop 1 hostport) "[" then
                Err (Errorf "unexpected '[' in address")
              else if has_byte (string_drop (S close) hostport) "]" then
                Err (Errorf "unexpected ']' in address")
              else Ok (string_take (close - 1) (string_drop 1 hostport), port)
            else if (S close =? String.length hostport)%nat then
              Err (Errorf "missing port in address")
            else if HasPrefix (string_drop (S close) hostport) ":" then
              Err (Errorf "too many colons in address")
            else Err (Errorf "missing port in address")
        end
      else
        let host := string_take i hostport in
        if has_byte host ":" then Err (Errorf "too many colons in address")
        else if has_byte hostport "[" then Err (Errorf "unexpected '[' in address")
        else if has_byte hostport "]" then Err (Errorf "unexpected ']' in address")
        else Ok (host, port)
  end.

(** A host that holds a colon is taken for an IPv6 literal and bracketed. *)
Definition JoinHostPort (host port : string) : string :=
  if has_byte host ":" then "[" +:+ host +:+ "]:" +:+ port
  else host +:+ ":" +:+ port.

Example SplitHostPort_v4 : SplitHostPort "8.8.8.8:53" = Ok ("8.8.8.8", "53").
Proof. reflexivity. Qed.
Example SplitHostPort_v6 : SplitHostPort "[::1]:53" = Ok ("::1", "53").
Proof. reflexivity. Qed.

Lemma LastIndexByte_append_none (s t : string) c :
  no_byte c t = true →
  LastIndexByte (s +:+ String c t) c = Some (String.length s).
Proof.
  intros Ht. assert (LastIndexByte t c = None) as E.
  { induction t as [|d t IH]; simpl; [done|].
    unfold no_byte in Ht. simpl in Ht. apply andb_true_iff in Ht as [Hd Ht].
    apply negb_true_iff in Hd. by rewrite IH, Hd. }
  induction s as [|d s IH]; simpl; [by rewrite E, Ascii.eqb_refl|by rewrite IH].
Qed.

Lemma no_byte_append c s t :
  no_byte c (s +:+ t) = no_byte c s && no_byte c t.
Proof. apply string_forall_append. Qed.

Lemma string_drop_S_append (s t : string) c :
  string_drop (S (String.length s)) (s +:+ String c t) = t.
Proof. induction s as [|d s IH]; simpl; [by destruct t|done]. Qed.

Lemma HasPrefix_no_byte (s : string) c :
  no_byte c s = true → HasPrefix s (String c "") = false.
Proof.
  intros H. apply not_true_iff_false. intros [t ->]%HasPrefix_spec.
  unfold no_byte in H. simpl in H. by rewrite Ascii.eqb_refl in H.
Qed.

(** A host without colons or brackets is recovered from its address. *)
Lemma SplitHostPort_JoinHostPort host port :
  no_byte ":" host = true → no_byte "[" host = true → no_byte "]" host = true →
  no_byte ":" port = true → no_byte "[" port = true → no_byte "]" port = true →
  SplitHostPort (JoinHostPort host port) = Ok (host, port).
Proof.
  intros H1 H2 H3 H4 H5 H6.
  unfold JoinHostPort, has_byte. rewrite H1. simpl.
  change (":" +:+ port) with (String ":" port).
  unfold SplitHostPort. rewrite LastIndexByte_append_none by done.
  assert (no_byte "[" (host +:+ String ":" port) = true) as Hb.
  { rewrite no_byte_append, H2. unfold no_byte in *. simpl. by rewrite H5. }
  assert (no_byte "]" (host +:+ String ":" port) = true) as Hb'.
  { rewrite no_byte_append, H3. unfold no_byte in *. simpl. by rewrite H6. }
  rewrite HasPrefix_no_byte by done.
  rewrite string_take_append, string_drop_S_append.
  unfold has_byte. by rewrite H1, Hb, Hb'.
Qed.

Lemma IndexByte_no_byte (s : string) c : no_byte c s = true → IndexByte s c = None.
Proof.
  induction s as [|d s IH]; [done|]. unfold no_byte in *. simpl.
  intros [Hd Hs]%andb_true_iff. apply negb_true_iff in Hd. by rewrite Hd, IH.
Qed.

Lemma IndexByte_append (s t : string) c :
  no_byte c s = true → IndexByte (s +:+ String c t) c = Some (String.length s).
Proof.
  induction s as [|d s IH]; simpl; [by rewrite Ascii.eqb_refl|]. unfold no_byte in *. simpl.
  intros [Hd Hs]%andb_true_iff. apply negb_true_iff in Hd. by rewrite Hd, IH.
Qed.

(** An IPv6 literal is recovered from its address too. *)
Lemma SplitHostPort_JoinHostPort_v6 host port :
  no_byte ":" host = false → no_byte "[" host = true → no_byte "]" host = true →
  no_byte ":" port = true → no_byte "[" port = true → no_byte "]" port = true →
  SplitHostPort (JoinHostPort host port) = Ok (host, port).
Proof.
  intros H1 H2 H3 H4 H5 H6. unfold JoinHostPort, has_byte. rewrite H1. simpl negb. cbv iota.
  set (rest := host +:+ "]" +:+ String ":" port).
  assert ("[" +:+ host +:+ "]:" +:+ port = String "[" rest) as -> by done.
  assert (LastIndexByte rest ":" = Some (S (String.length host))) as Hl.
  { unfold rest. change ("]" +:+ String ":" port) with ("]" +:+ (String ":" port)).
    rewrite <-append_assoc, LastIndexByte_append_none by done.
    rewrite length_append. simpl. f_equal. lia. }
  assert (IndexByte rest "]" = Some (String.length host)) as Hi by by apply IndexByte_append.
  assert (no_byte "[" rest = true) as Hb.
  { unfold rest. rewrite no_byte_append, H2. unfold no_byte in *. simpl. by rewrite H5. }
  assert (string_drop (S (String.length host)) rest = String ":" port) as Hd
    by apply string_drop_S_append.
  assert (string_drop (S (S (String.length host))) rest = port) as Hp.
  { unfold rest. clear. induction host as [|c host IH]; simpl; [by destruct port|done]. }
  unfold SplitHostPort. cbn [LastIndexByte IndexByte]. rewrite Hl, Hi. simpl fmap.
  rewrite (proj2 (HasPrefix_spec (String "[" rest) "[")) by (by exists rest). cbv iota zeta.
  assert (∀ n, string_drop (S n) (String "[" rest) = string_drop n rest) as Hs by done.
  change (if ("[" =? "]")%char then ?x else ?y) with y. cbv iota. rewrite !Hs, Hd, Hp, Nat.eqb_refl. change (string_drop 0 rest) with rest.
  unfold has_byte. rewrite Hb. simpl negb. cbv iota.
  assert (no_byte "]" (String ":" port) = true) as -> by (unfold no_byte; simpl; exact H6).
  simpl negb. cbv iota. rewrite Nat.sub_1_r. simpl pred. unfold rest.
  by rewrite string_take_append.
Qed.

(** ** Directories and extensions *)

Lemma CountByte_append (s t : string) c :
  CountByte (s +:+ t) c = (CountByte s c + CountByte t c)%nat.
Proof. induction s as [|d s IH]; simpl; [done|]. rewrite IH. lia. Qed.

Lemma CountByte_no_byte (s : string) c : no_byte c s = true → CountByte s c = 0%nat.
Proof.
  induction s as [|d s IH]; [done|]. unfold no_byte. simpl.
  intros [Hd Hs]%andb_true_iff. apply negb_true_iff in Hd. by rewrite Hd, IH.
Qed.

Lemma IndexByte_take (s : string) c :
  no_byte c (match IndexByte s c with Some i => string_take i s | None => s end) = true.
Proof.
  induction s as [|d s IH]; simpl; [done|]. unfold no_byte in *.
  destruct (Ascii.eqb d c) eqn:E; [done|].
  destruct (IndexByte s c) as [i|]; simpl; by rewrite E, IH.
Qed.

Lemma append_last (s t : string) c d :
  s +:+ String c "" = t +:+ String d "" → c = d.
Proof.
  revert t. induction s as [|x s IH]; intros [|y t] H; simpl in H; simplify_eq; [done|..|eauto].
  - by destruct t.
  - by destruct s.
Qed.

Lemma path_Ext_aux_suffix (s acc : string) :
  path_Ext_aux s acc = acc ∨ path_Ext_aux s acc = "" ∨ ∃ base, s = base +:+ path_Ext_aux s acc.
Proof.
  revert acc. induction s as [|c s IH]; intros acc; simpl; [by left|].
  assert (∀ a, (∃ base, s = base +:+ path_Ext_aux s a) →
               ∃ base, String c s = base +:+ path_Ext_aux s a) as Hc.
  { intros a [base Hb]. exists (String c base). simpl. by rewrite <-Hb. }
  destruct (Ascii.eqb c "/").
  - destruct (IH "") as [->|[->|?]]; auto.
  - destruct (Ascii.eqb c ".").
    + destruct (IH (String c s)) as [->|[->|?]]; auto. right. right. by exists "".
    + destruct (IH acc) as [->|[->|?]]; auto.
Qed.

Lemma path_Ext_suffix (s : string) : ∃ base, s = base +:+ path_Ext s.
Proof.
  unfold path_Ext. destruct (path_Ext_aux_suffix s "") as [->|[->|?]]; [..|done];
    exists s; by rewrite append_nil_r.
Qed.

Lemma path_Ext_append (s e : string) :
  no_byte "/" e = true → no_byte "." e = true → path_Ext (s +:+ String "." e) = String "." e.
Proof.
  intros Hs Hd. unfold path_Ext. generalize "". induction s as [|c s IH]; intros acc; simpl.
  - generalize (String "." e). clear acc. revert Hs Hd. unfold no_byte.
    induction e as [|d e IH]; simpl; [done|].
    intros [H1 ?]%andb_true_iff [H2 ?]%andb_true_iff. rewrite negb_true_iff in H1, H2.
    rewrite H1, H2. auto.
  - by repeat case_match.
Qed.
