(* ===== verification/Certificates.v ===== *)
(** * Certificates (certificates.go)

    The certificate value of the cache with its metadata, the checks on
    subject names, wildcard matching, and the decision to renew. Parsing of
    X.509 and IP addresses, the hash function and the ACME types' own methods
    are parameters. *)

From S2P Require Import Prelude GoStrings.
From Stdlib Require Import Ascii SpecFloat.
Open Scope string_scope.

(** ** Data *)

(** The fields of a parsed [x509.Certificate] that are used; IP addresses and
    URIs are kept in the form their [String] method prints. *)
Record X509 := MkX509 {
  NotBefore : Time;
  NotAfter : Time;
  CommonName : string;
  DNSNames : list string;
  IPAddresses : list string;
  EmailAddresses : list string;
  URIs : list string;
  OCSPServer : list string;
  IssuingCertificateURL : list string;
}.

(** [tls.Certificate]: the chain in DER, the stapled response, the parsed leaf. *)
Record TLSCertificate := MkTLSCertificate {
  tls_Certificate : list bytes;
  tls_OCSPStaple : bytes;
  tls_Leaf : option X509;
}.

(** [ocsp.Response]; [RespCertNotAfter] is the expiry of the responder's own
    certificate, if the response holds one. *)
Inductive OCSPStatus := OCSPGood | OCSPRevoked | OCSPUnknown.

#[export] Instance OCSPStatus_eq_dec : EqDecision OCSPStatus.
Proof. solve_decision. Defined.

Record OCSPResponse := MkOCSPResponse {
  Status : OCSPStatus;
  ThisUpdate : Time;
  NextUpdate : Time;
  RevocationReason : Z;
  RespCertNotAfter : option Time;
}.

(** [acme.RenewalInfo]. *)
Record RenewalInfo := MkRenewalInfo {
  WindowStart : Time;
  WindowEnd : Time;
  SelectedTime : Time;
  RetryAfter : option Time;
  UniqueIdentifier : string;
}.

Definition zeroRenewalInfo : RenewalInfo := MkRenewalInfo 0 0 0 None "".

(** [type Certificate struct]. *)
Record Certificate := MkCertificate {
  tls : TLSCertificate;
  Names : list string;
  Tags : list string;
  ocsp : option OCSPResponse;
  hash : string;
  managed : bool;
  issuerKey : string;
  ari : RenewalInfo;
}.

#[export] Instance X509_eq_dec : EqDecision X509.
Proof. solve_decision. Defined.
#[export] Instance TLSCertificate_eq_dec : EqDecision TLSCertificate.
Proof. solve_decision. Defined.
#[export] Instance OCSPResponse_eq_dec : EqDecision OCSPResponse.
Proof. solve_decision. Defined.
#[export] Instance RenewalInfo_eq_dec : EqDecision RenewalInfo.
Proof. solve_decision. Defined.
#[export] Instance Certificate_eq_dec : EqDecision Certificate.
Proof. solve_decision. Defined.

(** [tls.Certificate{}] and [Certificate{}]. *)
Definition zeroTLSCertificate : TLSCertificate := MkTLSCertificate [] "" None.
Definition zeroCertificate : Certificate :=
  MkCertificate zeroTLSCertificate [] [] None "" false "" zeroRenewalInfo.

Definition Leaf (cert : Certificate) : option X509 := tls_Leaf (tls cert).

Definition with_Tags (tags : list string) (c : Certificate) : Certificate :=
  MkCertificate (tls c) (Names c) tags (ocsp c) (hash c) (managed c) (issuerKey c) (ari c).
Definition with_ari (a : RenewalInfo) (c : Certificate) : Certificate :=
  MkCertificate (tls c) (Names c) (Tags c) (ocsp c) (hash c) (managed c) (issuerKey c) a.
Definition with_ocsp (o : option OCSPResponse) (c : Certificate) : Certificate :=
  MkCertificate (tls c) (Names c) (Tags c) o (hash c) (managed c) (issuerKey c) (ari c).
Definition with_staple (staple : bytes) (c : Certificate) : Certificate :=
  MkCertificate (MkTLSCertificate (tls_Certificate (tls c)) staple (tls_Leaf (tls c)))
    (Names c) (Tags c) (ocsp c) (hash c) (managed c) (issuerKey c) (ari c).
Definition with_managed (issuer : string) (c : Certificate) : Certificate :=
  MkCertificate (tls c) (Names c) (Tags c) (ocsp c) (hash c) true issuer (ari c).

(** ** Simple methods *)

Definition Empty (cert : Certificate) : bool :=
  bool_decide (tls_Certificate (tls cert) = []).

Fixpoint HasTag_loop (tags : list string) (tag : string) : bool :=
  match tags with
  | [] => false
  | t :: ts => if t =? tag then true else HasTag_loop ts tag
  end.
Definition HasTag (cert : Certificate) (tag : string) : bool :=
  HasTag_loop (Tags cert) tag.

Definition expiresAt (cert : option X509) : Time :=
  match cert with
  | None => 0%Z
  | Some c => time_Add (time_Truncate (NotAfter c) Second) (1 * Second)%Z
  end.

Definition Expired (now : Time) (cert : Certificate) : bool :=
  match Leaf cert with
  | None => false
  | Some _ => time_After now (expiresAt (Leaf cert))
  end.

Definition Lifetime (cert : Certificate) : Duration :=
  match Leaf cert with
  | None => 0%Z
  | Some l => if time_IsZero (NotAfter l) then 0%Z
              else time_Sub (expiresAt (Leaf cert)) (NotBefore l)
  end.

(** ** The renewal decision *)

(** The constants [1.0/3.0], [1.0/20.0] and [1.0/50.0] as [float64]. *)
Definition ratio_of (n d : Z) : float64 := float64_div (float64_of_Z n) (float64_of_Z d).
Definition DefaultRenewalWindowRatio : float64 := Eval vm_compute in ratio_of 1 3.
Definition ratio_1_20 : float64 := Eval vm_compute in ratio_of 1 20.
Definition ratio_1_50 : float64 := Eval vm_compute in ratio_of 1 50.

Definition currentlyInRenewalWindow (now notBefore notAfter : Time)
    (renewalWindowRatio : float64) : bool :=
  if time_IsZero notAfter then false
  else
    let lifetime := time_Sub notAfter notBefore in
    let ratio := if float64_eqb renewalWindowRatio (float64_of_Z 0)
                 then DefaultRenewalWindowRatio else renewalWindowRatio in
    let renewalWindow := int64_of_float64 (float64_mul (float64_of_Z lifetime) ratio) in
    let renewalWindowStart := time_Add notAfter (wrap64 (- renewalWindow)) in
    time_After now renewalWindowStart.

(** What [certNeedsRenewal] reads of the [Config] and its cache's options. *)
Record RenewalConfig := MkRenewalConfig {
  DisableARI : bool;
  RenewalWindowRatio : float64;
  RenewCheckInterval : Duration;
}.

(** The selected renewal time: the one of the renewal information, or one
    drawn in the suggested window. [rnd n] is [rand.Int63n(n)], which panics
    ([None]) when [n] is not positive. *)
Definition ari_selectedTime (rnd : Z → Z) (a : RenewalInfo) : option Time :=
  if time_IsZero (SelectedTime a) &&
     (negb (time_IsZero (WindowStart a)) && negb (time_IsZero (WindowEnd a)))
  then
    let start := wrap64 (time_Unix (WindowStart a) + 1) in
    let end_ := time_Unix (WindowEnd a) in
    let n := wrap64 (end_ - start) in
    if (n <=? 0)%Z then None
    else Some (Unix_time (wrap64 (rnd n + start)))
  else Some (SelectedTime a).

(** The part of [certNeedsRenewal] after the checks on the renewal
    information. *)
Definition expirationNeedsRenewal (cfg : RenewalConfig) (now : Time) (leaf : X509) : bool :=
  let expiration := expiresAt (Some leaf) in
  if currentlyInRenewalWindow now (NotBefore leaf) expiration (RenewalWindowRatio cfg)
  then true
  else
    currentlyInRenewalWindow now (NotBefore leaf) expiration ratio_1_50 ||
    (time_Until now expiration <? wrap64 (RenewCheckInterval cfg * 5))%Z.

(** [None] is the panic of [rand.Int63n]. *)
Definition certNeedsRenewal (cfg : RenewalConfig) (rnd : Z → Z) (now : Time)
    (leaf : option X509) (a : RenewalInfo) : option bool :=
  match leaf with
  | None => Some false
  | Some l =>
      let expiration := expiresAt leaf in
      if DisableARI cfg then Some (expirationNeedsRenewal cfg now l)
      else
        match ari_selectedTime rnd a with
        | None => None
        | Some selectedTime =>
            if negb (time_IsZero selectedTime) then
              let cutoff := time_Add (SelectedTime a) (wrap64 (- RenewCheckInterval cfg)) in
              if time_After now cutoff then Some true
              else if currentlyInRenewalWindow now (NotBefore l) expiration ratio_1_20
              then Some true
              else Some (expirationNeedsRenewal cfg now l)
            else Some (expirationNeedsRenewal cfg now l)
        end
  end.

Definition NeedsRenewal (cfg : RenewalConfig) (rnd : Z → Z) (now : Time)
    (cert : Certificate) : option bool :=
  certNeedsRenewal cfg rnd now (Leaf cert) (ari cert).

(** ** Names of a certificate *)

Section Fill.
(** [x509.ParseCertificate] and the hex encoding of the BLAKE3 hash of the
    concatenated chain. *)
Context (ParseCertificate : bytes → result X509).
Context (blake3_hex : bytes → string).

Definition hashCertificateChain (certChain : list bytes) : string :=
  blake3_hex (foldl (λ acc b, acc +:+ b) "" certChain).

(** One of the loops that appends the subjects of one kind. *)
Definition append_names (norm : string → string) (cn : string)
    (acc subjects : list string) : list string :=
  foldl (λ acc name, if negb (name =? cn) then (acc ++ [norm name])%list else acc)
        acc subjects.

Definition names_of_leaf (leaf : X509) : list string :=
  let cn := CommonName leaf in
  let names := if negb (cn =? "") then [ToLower cn] else [] in
  let names := append_names ToLower cn names (DNSNames leaf) in
  let names := append_names ToLower cn names (IPAddresses leaf) in
  let names := append_names ToLower cn names (EmailAddresses leaf) in
  append_names (λ u, u) cn names (URIs leaf).

Definition fillCertFromLeaf (cert : Certificate) (tlsCert : TLSCertificate)
    : result Certificate :=
  match tls_Certificate tlsCert with
  | [] => Err (Errorf "certificate is empty")
  | der :: _ =>
      match (match tls_Leaf tlsCert with
             | Some l => Ok l
             | None => ParseCertificate der
             end) with
      | Err e => Err e
      | Ok leaf =>
          let names := if negb (CommonName leaf =? "") then names_of_leaf leaf
                       else (Names cert ++ names_of_leaf leaf)%list in
          match names with
          | [] => Err (Errorf "certificate has no names")
          | _ =>
              Ok (MkCertificate
                    (MkTLSCertificate (tls_Certificate tlsCert)
                       (tls_OCSPStaple tlsCert) (Some leaf))
                    names (Tags cert) (ocsp cert)
                    (hashCertificateChain (tls_Certificate tlsCert))
                    (managed cert) (issuerKey cert) (ari cert))
          end
      end
  end.

(** [tls.X509KeyPair] is a parameter of the functions that parse PEM. *)
Definition makeCertificate (X509KeyPair : bytes → bytes → result TLSCertificate)
    (certPEM keyPEM : bytes) : result Certificate :=
  match X509KeyPair certPEM keyPEM with
  | Err e => Err e
  | Ok tlsCert => fillCertFromLeaf zeroCertificate tlsCert
  end.
End Fill.

(** ** Subjects *)

Definition special_chars : string :=
  "()[]{}<> " +:+ String "009" (String "010" (String "034" "\!@#$%^&|;'+=")).

Definition SubjectQualifiesForCert (subj : string) : bool :=
  negb (TrimSpace subj =? "") &&
  negb (HasPrefix subj ".") &&
  negb (HasSuffix subj ".") &&
  (negb (Contains subj "*") || HasPrefix subj "*." || (subj =? "*")) &&
  negb (ContainsAny subj special_chars).

Definition hostOnly (hostport : string) : string :=
  match SplitHostPort hostport with
  | Err _ => hostport
  | Ok (host, _) => host
  end.

(** An IP address as [net.ParseIP] returns it: 32 bits when it has an IPv4
    form, 128 bits otherwise. *)
Inductive IP := IPv4 (a : Z) | IPv6 (a : Z).

(** A parsed CIDR block: its base address and prefix length. *)
Record IPNet := MkIPNet { net_IP : IP; net_ones : Z }.

(** [ipnet.Contains(ip)]. *)
Definition IPNet_Contains (n : IPNet) (ip : IP) : bool :=
  match net_IP n, ip with
  | IPv4 b, IPv4 a => (Z.shiftr a (32 - net_ones n) =? Z.shiftr b (32 - net_ones n))%Z
  | IPv6 b, IPv6 a => (Z.shiftr a (128 - net_ones n) =? Z.shiftr b (128 - net_ones n))%Z
  | _, _ => false
  end.

Definition ipv4 (a b c d : Z) : IP := IPv4 (((a * 256 + b) * 256 + c) * 256 + d)%Z.

Definition privateNetworks : list IPNet :=
  [ MkIPNet (ipv4 127 0 0 0) 8;
    MkIPNet (ipv4 0 0 0 0) 16;
    MkIPNet (ipv4 10 0 0 0) 8;
    MkIPNet (ipv4 172 16 0 0) 12;
    MkIPNet (ipv4 192 168 0 0) 16;
    MkIPNet (ipv4 169 254 0 0) 16;
    MkIPNet (IPv6 1) 7;
    MkIPNet (IPv6 (0xfe80 * 2 ^ 112)%Z) 10;
    MkIPNet (IPv6 (0xfc00 * 2 ^ 112)%Z) 7 ].

Section Subjects.
Context (ParseIP : string → option IP).

Definition SubjectIsIP (subj : string) : bool :=
  match ParseIP subj with Some _ => true | None => false end.

Definition isInternalIP (addr : string) : bool :=
  match ParseIP (hostOnly addr) with
  | None => false
  | Some ip => existsb (λ n, IPNet_Contains n ip) privateNetworks
  end.

Definition SubjectIsInternal (subj : string) : bool :=
  let subj := ToLower (TrimSuffix (hostOnly subj) ".") in
  (subj =? "localhost") ||
  HasSuffix subj ".localhost" ||
  HasSuffix subj ".local" ||
  HasSuffix subj ".internal" ||
  HasSuffix subj ".home.arpa" ||
  isInternalIP subj.

Definition SubjectQualifiesForPublicCert (subj : string) : bool :=
  SubjectQualifiesForCert subj &&
  negb (SubjectIsInternal subj) &&
  (negb (Contains subj "*") ||
   (((CountByte subj "*" =? 1) && (1 <? CountByte subj ".") &&
     (2 <? String.length subj))%nat && HasPrefix subj "*.")).
End Subjects.

(** ** Wildcards *)

(** The loop [for i := range labels] of [MatchWildcard]: labels are replaced
    one after the other in the same slice, an empty label is skipped. *)
Fixpoint MatchWildcard_loop (wildcard : string) (labels : list string)
    (idx : list nat) : bool :=
  match idx with
  | [] => false
  | i :: idx' =>
      if bool_decide (labels !! i = Some "") then MatchWildcard_loop wildcard labels idx'
      else
        let labels' := <[i := "*"]> labels in
        if Join labels' "." =? wildcard then true
        else MatchWildcard_loop wildcard labels' idx'
  end.

Definition MatchWildcard (subject wildcard : string) : bool :=
  let subject := ToLower subject in
  let wildcard := ToLower wildcard in
  if subject =? wildcard then true
  else if negb (Contains wildcard "*") then false
  else
    let labels := Split subject "." in
    MatchWildcard_loop wildcard labels (seq 0 (length labels)).

(** The candidates the lookups try: the labels replaced from the left by
    ["*"], one more each time ([AllMatchingCertificates] and
    [getCertificateFromCache] share this loop). *)
Fixpoint wildcard_loop (labels : list string) (idx : list nat) : list string :=
  match idx with
  | [] => []
  | i :: idx' =>
      let labels' := <[i := "*"]> labels in
      Join labels' "." :: wildcard_loop labels' idx'
  end.

Definition wildcard_candidates (name : string) : list string :=
  let labels := Split name "." in
  wildcard_loop labels (seq 0 (length labels)).

(** * Properties *)

(** ** Wildcards *)

Lemma Join_star_no_byte k labels :
  Forall (λ w, no_byte "." w = true) labels →
  Forall (λ w, no_byte "." w = true) (replicate k "*" ++ drop k labels)%list.
Proof.
  intros H. apply Forall_app. split.
  - by apply Forall_replicate.
  - by apply Forall_drop.
Qed.

(** Replacing label [k] after the first [k] labels were replaced. *)
Lemma insert_star k (labels : list string) :
  (k < length labels)%nat →
  <[k := "*"]> (replicate k "*" ++ drop k labels)%list =
  (replicate (S k) "*" ++ drop (S k) labels)%list.
Proof.
  intros Hk. destruct (lookup_lt_is_Some_2 labels k Hk) as [x Hx].
  rewrite (drop_S labels x k Hx).
  rewrite replicate_S_end, <-app_assoc.
  rewrite insert_app_r_alt by (by rewrite length_replicate).
  by rewrite length_replicate, Nat.sub_diag.
Qed.

Lemma wildcard_loop_spec labels n k :
  (k + n = length labels)%nat →
  wildcard_loop (replicate k "*" ++ drop k labels)%list (seq k n) =
  map (λ i, Join (replicate (S i) "*" ++ drop (S i) labels)%list ".") (seq k n).
Proof.
  revert k. induction n as [|n IH]; intros k Hk; [done|]. simpl.
  rewrite insert_star by lia. f_equal. apply (IH (S k)). lia.
Qed.

(** The [i]th candidate has its first [i + 1] labels replaced. *)
Lemma wildcard_candidates_spec name :
  let labels := Split name "." in
  wildcard_candidates name =
  map (λ i, Join (replicate (S i) "*" ++ drop (S i) labels)%list ".")
      (seq 0 (length labels)).
Proof. apply (wildcard_loop_spec (Split name ".") (length (Split name ".")) 0). lia. Qed.

Lemma elem_of_wildcard_candidates name w :
  w ∈ wildcard_candidates name ↔
  ∃ k, (k < length (Split name "."))%nat ∧
       w = Join (replicate (S k) "*" ++ drop (S k) (Split name "."))%list ".".
Proof.
  rewrite wildcard_candidates_spec, list_elem_of_In, in_map_iff. split.
  - intros (k & <- & Hk). apply in_seq in Hk. exists k. split; [lia|done].
  - intros (k & Hk & ->). exists k. split; [done|]. apply in_seq. lia.
Qed.

(** Without empty labels the loop of [MatchWildcard] tries exactly the
    candidates. *)
Lemma MatchWildcard_loop_candidates w labels idx :
  Forall (λ l, l ≠ "") labels →
  MatchWildcard_loop w labels idx = true ↔ w ∈ wildcard_loop labels idx.
Proof.
  revert labels. induction idx as [|i idx IH]; intros labels HF; simpl.
  - split; [done|]. by intros ?%elem_of_nil.
  - rewrite bool_decide_false.
    2:{ intros Hi. rewrite Forall_forall in HF. apply (HF ""); [|done].
        by eapply list_elem_of_lookup_2. }
    assert (Forall (λ l, l ≠ "") (<[i:="*"]> labels)) as HF'.
    { by apply Forall_insert. }
    destruct (String.eqb_spec (Join (<[i:="*"]> labels) ".") w) as [->|Hne].
    + split; [intros _; by left|done].
    + rewrite IH by done. rewrite elem_of_cons. split; [by right|].
      intros [->|]; [done|done].
Qed.

Lemma lower_ascii_byte c d :
  is_upper d = false → is_lower d = false →
  Ascii.eqb (lower_ascii c) d = Ascii.eqb c d.
Proof.
  intros Hu Hl. unfold lower_ascii. destruct (is_upper c) eqn:E; [|done].
  destruct (Ascii.eqb_spec c d) as [->|]; [congruence|].
  apply Ascii.eqb_neq. intros <-. clear Hu.
  revert E Hl. by destruct c as [[] [] [] [] [] [] [] []].
Qed.

Lemma no_byte_lower d s :
  is_upper d = false → is_lower d = false → no_byte d (ToLower s) = no_byte d s.
Proof.
  intros Hu Hl. induction s as [|c s IH]; [done|].
  unfold no_byte, ToLower in *. simpl. by rewrite lower_ascii_byte, IH.
Qed.

Lemma Contains_byte s c : Contains s (String c "") = has_byte s c.
Proof.
  induction s as [|d s IH]; [done|]. unfold has_byte, no_byte in *. simpl.
  rewrite IH, negb_andb, negb_involutive. f_equal.
  destruct (Ascii.eqb_spec d c) as [->|Hne].
  - apply HasPrefix_spec. by exists s.
  - apply not_true_iff_false. intros [t Ht]%HasPrefix_spec. simpl in Ht. congruence.
Qed.

Lemma candidate_has_star k (labels : list string) :
  Contains (Join (replicate (S k) "*" ++ drop (S k) labels)%list ".") "*" = true.
Proof.
  rewrite Contains_byte. unfold has_byte. apply negb_true_iff. simpl.
  by destruct (replicate k "*" ++ _)%list.
Qed.

(** A match relates the names label by label: the pattern has the subject's
    label or a star in each place, so a star never spans a dot. *)
Definition label_match (l p : string) : Prop := p = l ∨ p = "*".

Lemma MatchWildcard_loop_labels w labels0 labels idx :
  Forall (λ x, no_byte "." x = true) labels → labels ≠ [] →
  Forall2 label_match labels0 labels →
  MatchWildcard_loop w labels idx = true →
  Forall2 label_match labels0 (Split w ".").
Proof.
  revert labels. induction idx as [|i idx IH]; intros labels HF Hne H2; simpl; [done|].
  case_bool_decide; [by apply IH|].
  assert (Forall2 label_match labels0 (<[i:="*"]> labels)) as H2'.
  { destruct (decide (i < length labels)%nat) as [Hi|Hi].
    - apply Forall2_same_length_lookup. rewrite length_insert.
      split; [by eapply Forall2_length|]. intros j x y Hx.
      destruct (decide (i = j)) as [->|Hij].
      + rewrite list_lookup_insert_eq by done. intros [= <-]. by right.
      + rewrite list_lookup_insert_ne by done. intros Hy.
        eapply Forall2_lookup_lr; [exact H2|done|done].
    - by rewrite list_insert_ge by lia. }
  assert (Forall (λ x, no_byte "." x = true) (<[i:="*"]> labels)) as HF'.
  { by apply Forall_insert. }
  assert (<[i:="*"]> labels ≠ []) as Hne'.
  { intros E. apply (f_equal length) in E. rewrite length_insert in E. by destruct labels. }
  destruct (String.eqb_spec (Join (<[i:="*"]> labels) ".") w) as [<-|_].
  - intros _. by rewrite Split_Join.
  - by apply IH.
Qed.

(** A wildcard matches label by label: when [MatchWildcard] accepts, the
    two names have the same number of labels and each label of the wildcard
    is the subject's own label or a star. *)
Theorem MatchWildcard_labels (subject wildcard : string) :
  MatchWildcard subject wildcard = true →
  Forall2 label_match (Split (ToLower subject) ".") (Split (ToLower wildcard) ".").
Proof.
  unfold MatchWildcard. intros H.
  assert (Forall2 label_match (Split (ToLower subject) ".") (Split (ToLower subject) "."))
    as Hrefl.
  { apply Forall_Forall2_diag, Forall_forall. intros; by left. }
  destruct (String.eqb_spec (ToLower subject) (ToLower wildcard)) as [<-|_]; [done|].
  destruct (negb _); [done|].
  eapply MatchWildcard_loop_labels; [apply Split_no_byte|apply Split_nonempty|done|exact H].
Qed.

Lemma MatchWildcard_candidates_lower (subject wildcard : string) :
  ToLower subject = subject →
  Forall (λ l, l ≠ "") (Split subject ".") →
  MatchWildcard subject wildcard = true ↔
  ToLower wildcard = subject ∨ ToLower wildcard ∈ wildcard_candidates subject.
Proof.
  intros Hlow HF. unfold MatchWildcard. rewrite Hlow.
  destruct (String.eqb_spec subject (ToLower wildcard)) as [<-|Hne].
  { split; [by left|done]. }
  destruct (Contains (ToLower wildcard) "*") eqn:Hc; simpl.
  - rewrite MatchWildcard_loop_candidates by done.
    split; [by right|]. intros [|]; [congruence|done].
  - split; [done|]. intros [|Hin]; [congruence|].
    apply elem_of_wildcard_candidates in Hin as (k & _ & Hk).
    rewrite Hk, candidate_has_star in Hc. done.
Qed.

(** On a subject without empty labels, [MatchWildcard] accepts a name
    exactly when, ignoring case, it is the subject or one of the candidates
    that the handshake and [AllMatchingCertificates] look up. *)
Theorem MatchWildcard_candidates (subject wildcard : string) :
  Forall (λ l, l ≠ "") (Split (ToLower subject) ".") →
  MatchWildcard subject wildcard = true ↔
  ToLower wildcard = ToLower subject ∨
  ToLower wildcard ∈ wildcard_candidates (ToLower subject).
Proof.
  intros HF. rewrite <-MatchWildcard_candidates_lower by (rewrite ?ToLower_idemp; done).
  unfold MatchWildcard. by rewrite ToLower_idemp.
Qed.

Lemma MatchWildcard_labels_witness :
  Forall2 label_match ["a"; "b"; "com"] ["*"; "b"; "com"].
Proof. apply (MatchWildcard_labels "A.b.com" "*.B.com"). vm_compute. reflexivity. Defined.

Lemma MatchWildcard_candidates_witness :
  MatchWildcard "A.b.com" "*.*.Com" = true ↔
  "*.*.com" = "a.b.com" ∨ "*.*.com" ∈ wildcard_candidates "a.b.com".
Proof.
  apply (MatchWildcard_candidates "A.b.com" "*.*.Com").
  vm_compute. repeat constructor; discriminate.
Defined.

(** ** Expiry and renewal *)

(** The expiration time is the first whole second after [NotAfter]. *)
Lemma expiresAt_bounds (l : X509) :
  (NotAfter l < expiresAt (Some l) ≤ NotAfter l + Second)%Z.
Proof.
  unfold expiresAt, time_Add, time_Truncate, Second. simpl.
  pose proof (Z.mod_pos_bound (NotAfter l) (10 ^ 9)). lia.
Qed.

Lemma time_Until_lt now t d :
  (int64_min < d)%Z → (now - t > - d)%Z → (time_Until now t < d)%Z.
Proof. unfold time_Until, time_Sub, int64_min, int64_max. lia. Qed.

Lemma time_Until_ge now t d :
  (int64_min < d)%Z → (d ≤ time_Until now t)%Z → (now + d ≤ t)%Z.
Proof. unfold time_Until, time_Sub, int64_min, int64_max. lia. Qed.

Lemma currentlyInRenewalWindow_mono now now' nb na r :
  (now ≤ now')%Z → currentlyInRenewalWindow now nb na r = true →
  currentlyInRenewalWindow now' nb na r = true.
Proof.
  unfold currentlyInRenewalWindow, time_After. intros Hle.
  destruct (time_IsZero na); [done|]. rewrite !Z.ltb_lt. lia.
Qed.

Lemma expirationNeedsRenewal_mono cfg now now' l :
  (now ≤ now')%Z → expirationNeedsRenewal cfg now l = true →
  expirationNeedsRenewal cfg now' l = true.
Proof.
  intros Hle. unfold expirationNeedsRenewal.
  destruct (currentlyInRenewalWindow now _ _ (RenewalWindowRatio cfg)) eqn:E.
  - by rewrite (currentlyInRenewalWindow_mono _ _ _ _ _ Hle E).
  - destruct (currentlyInRenewalWindow now' _ _ (RenewalWindowRatio cfg)); [done|].
    rewrite !orb_true_iff, !Z.ltb_lt. intros [H|H].
    + left. by eapply currentlyInRenewalWindow_mono.
    + right. pose proof (time_Sub_mono (expiresAt (Some l)) (expiresAt (Some l)) now' now).
      unfold time_Until in *. lia.
Qed.

(** A check interval for which the products of the code do not overflow. *)
Definition interval_ok (cfg : RenewalConfig) : Prop :=
  (0 ≤ RenewCheckInterval cfg ∧ RenewCheckInterval cfg * 5 ≤ int64_max)%Z.

Lemma interval_wrap cfg :
  interval_ok cfg →
  wrap64 (RenewCheckInterval cfg * 5) = (RenewCheckInterval cfg * 5)%Z ∧
  wrap64 (- RenewCheckInterval cfg) = (- RenewCheckInterval cfg)%Z.
Proof.
  intros [H1 H2]. split; apply wrap64_id; unfold in_int64, int64_min, int64_max in *; lia.
Qed.

Lemma expirationNeedsRenewal_expired cfg now l :
  interval_ok cfg → (expiresAt (Some l) < now)%Z →
  expirationNeedsRenewal cfg now l = true.
Proof.
  intros Hi Hexp. unfold expirationNeedsRenewal.
  destruct (currentlyInRenewalWindow _ _ _ (RenewalWindowRatio cfg)); [done|].
  apply orb_true_iff. right. destruct (interval_wrap cfg Hi) as [-> _].
  destruct Hi as [H1 H2]. apply Z.ltb_lt, time_Until_lt; unfold int64_min in *; lia.
Qed.

(** Cases of the renewal decision on a non-nil leaf. *)
Lemma certNeedsRenewal_cases cfg rnd now l a b :
  certNeedsRenewal cfg rnd now (Some l) a = Some b →
  (b = true ∧ DisableARI cfg = false) ∨ b = expirationNeedsRenewal cfg now l.
Proof.
  unfold certNeedsRenewal. intros H. break_match_hyp H; simplify_eq; auto.
Qed.

(** A certificate past its expiration always needs renewal, whatever the
    renewal information and the configured window say; the only other outcome
    is the panic of [rand.Int63n] on an inverted suggested window. *)
Theorem certNeedsRenewal_expired cfg rnd now l a :
  interval_ok cfg →
  (expiresAt (Some l) < now)%Z →
  certNeedsRenewal cfg rnd now (Some l) a = Some true ∨
  (DisableARI cfg = false ∧ ari_selectedTime rnd a = None ∧
   certNeedsRenewal cfg rnd now (Some l) a = None).
Proof.
  intros Hi Hexp.
  pose proof (expirationNeedsRenewal_expired cfg now l Hi Hexp) as He.
  destruct (certNeedsRenewal cfg rnd now (Some l) a) as [b|] eqn:E.
  - left. destruct (certNeedsRenewal_cases _ _ _ _ _ _ E) as [[-> _]| ->]; by rewrite ?He.
  - right. unfold certNeedsRenewal in E. break_match_hyp E; done.
Qed.

(** The renewal decision is stable: once a certificate needs renewal it
    needs renewal at every later time. *)
Theorem certNeedsRenewal_mono cfg rnd now now' l a :
  (now ≤ now')%Z →
  certNeedsRenewal cfg rnd now (Some l) a = Some true →
  certNeedsRenewal cfg rnd now' (Some l) a = Some true.
Proof.
  intros Hle. unfold certNeedsRenewal.
  pose proof (expirationNeedsRenewal_mono cfg now now' l Hle) as He.
  assert (∀ x, Some (expirationNeedsRenewal cfg now l) = Some true →
               x = Some (expirationNeedsRenewal cfg now' l) → x = Some true) as Hx.
  { intros x [= H] ->. f_equal. auto. }
  destruct (DisableARI cfg); [by eauto|].
  destruct (ari_selectedTime rnd a) as [sel|]; [|done].
  destruct (negb (time_IsZero sel)); [|by eauto].
  unfold time_After.
  destruct (Z.ltb_spec (time_Add (SelectedTime a) (wrap64 (- RenewCheckInterval cfg))) now),
    (Z.ltb_spec (time_Add (SelectedTime a) (wrap64 (- RenewCheckInterval cfg))) now');
    try done; [lia|].
  destruct (currentlyInRenewalWindow now _ _ ratio_1_20) eqn:E.
  - by rewrite (currentlyInRenewalWindow_mono _ _ _ _ _ Hle E).
  - destruct (currentlyInRenewalWindow now' _ _ ratio_1_20); by eauto.
Qed.

(** (C34) When a certificate does not need renewal, it stays valid for at least
    the next five runs of the maintenance check, so no certificate expires
    unnoticed between two checks. *)
Theorem certNeedsRenewal_false_margin cfg rnd now l a :
  interval_ok cfg →
  certNeedsRenewal cfg rnd now (Some l) a = Some false →
  (now + 5 * RenewCheckInterval cfg ≤ expiresAt (Some l))%Z.
Proof.
  intros Hi H. apply certNeedsRenewal_cases in H as [[? _]|H]; [done|].
  symmetry in H. unfold expirationNeedsRenewal in H.
  destruct (currentlyInRenewalWindow _ _ _ (RenewalWindowRatio cfg)); [done|].
  apply orb_false_iff in H as [_ H]. apply Z.ltb_ge in H.
  destruct (interval_wrap cfg Hi) as [E _]. rewrite E in H. destruct Hi as [H1 H2].
  apply time_Until_ge in H; unfold int64_min in *; lia.
Qed.

(** When the renewal information has a suggested window but no selected
    time, the certificate is reported as due at once, even long before the
    window: the cutoff is computed from the (zero) selected time of the
    renewal information and not from the time just drawn in the window. *)
Theorem certNeedsRenewal_unselected_window cfg rnd now l a :
  interval_ok cfg → DisableARI cfg = false →
  SelectedTime a = 0%Z → WindowStart a ≠ 0%Z → WindowEnd a ≠ 0%Z →
  (∀ n, 0 < n → 0 ≤ rnd n < n)%Z →
  (0 ≤ time_Unix (WindowStart a))%Z →
  (time_Unix (WindowStart a) + 1 < time_Unix (WindowEnd a) < 2 ^ 62)%Z →
  (0 < now)%Z →
  certNeedsRenewal cfg rnd now (Some l) a = Some true.
Proof.
  intros Hi Hd Hsel Hws Hwe Hrnd Hs0 Hse Hnow.
  unfold certNeedsRenewal, ari_selectedTime. rewrite Hd, Hsel.
  unfold time_IsZero at 1. simpl.
  unfold time_IsZero at 1 2.
  rewrite !(proj2 (Z.eqb_neq _ _)) by done. simpl.
  rewrite (wrap64_id (time_Unix (WindowStart a) + 1))
    by (unfold in_int64, int64_min, int64_max; lia).
  set (n := (time_Unix (WindowEnd a) - (time_Unix (WindowStart a) + 1))%Z).
  rewrite (wrap64_id n) by (unfold in_int64, int64_min, int64_max, n; lia).
  destruct (Z.leb_spec n 0) as [|Hn]; [unfold n in *; lia|].
  specialize (Hrnd n Hn).
  rewrite wrap64_id by (unfold in_int64, int64_min, int64_max, n in *; lia).
  unfold time_IsZero, Unix_time, unixToInternal, Second.
  rewrite (proj2 (Z.eqb_neq _ _)) by lia. simpl.
  destruct (interval_wrap cfg Hi) as [_ ->]. destruct Hi as [H1 _].
  unfold time_After, time_Add. by rewrite (proj2 (Z.ltb_lt _ _)) by lia.
Qed.

(** *** A ninety-day certificate checked every ten minutes *)

Definition ex_leaf : X509 :=
  MkX509 (Unix_time 1700000000) (Unix_time 1707776000) "" ["example.com"] [] [] [] [] [].
Definition ex_renewal_cfg : RenewalConfig :=
  MkRenewalConfig false DefaultRenewalWindowRatio (10 * Minute)%Z.
Definition ex_window : RenewalInfo :=
  MkRenewalInfo (Unix_time 1705000000) (Unix_time 1705100000) 0 None "id".

Lemma ex_interval_ok : interval_ok ex_renewal_cfg.
Proof.
  unfold interval_ok, ex_renewal_cfg, Minute, Second, int64_max. simpl. lia.
Qed.

Example ex_not_due :
  certNeedsRenewal ex_renewal_cfg (λ _, 0%Z) (Unix_time 1700100000) (Some ex_leaf)
    zeroRenewalInfo = Some false.
Proof. vm_compute. reflexivity. Qed.

Example ex_due_in_last_third :
  certNeedsRenewal ex_renewal_cfg (λ _, 0%Z) (Unix_time 1705300000) (Some ex_leaf)
    zeroRenewalInfo = Some true.
Proof. vm_compute. reflexivity. Qed.

Lemma certNeedsRenewal_expired_witness :
  certNeedsRenewal ex_renewal_cfg (λ _, 0%Z) (Unix_time 1707776002) (Some ex_leaf)
    zeroRenewalInfo = Some true ∨
  (false = false ∧ ari_selectedTime (λ _, 0%Z) zeroRenewalInfo = None ∧
   certNeedsRenewal ex_renewal_cfg (λ _, 0%Z) (Unix_time 1707776002) (Some ex_leaf)
     zeroRenewalInfo = None).
Proof.
  apply (certNeedsRenewal_expired ex_renewal_cfg (λ _, 0%Z) (Unix_time 1707776002)
           ex_leaf zeroRenewalInfo).
  - exact ex_interval_ok.
  - vm_compute. reflexivity.
Defined.

Lemma certNeedsRenewal_mono_witness :
  certNeedsRenewal ex_renewal_cfg (λ _, 0%Z) (Unix_time 1800000000) (Some ex_leaf)
    zeroRenewalInfo = Some true.
Proof.
  apply (certNeedsRenewal_mono ex_renewal_cfg (λ _, 0%Z) (Unix_time 1705300000)).
  - vm_compute. discriminate.
  - vm_compute. reflexivity.
Defined.

Lemma certNeedsRenewal_false_margin_witness :
  (Unix_time 1700100000 + 5 * (10 * Minute) ≤ expiresAt (Some ex_leaf))%Z.
Proof.
  apply (certNeedsRenewal_false_margin ex_renewal_cfg (λ _, 0%Z) (Unix_time 1700100000)
           ex_leaf zeroRenewalInfo).
  - exact ex_interval_ok.
  - vm_compute. reflexivity.
Defined.

(** On the first day of the certificate, with a window two months away. *)
Lemma certNeedsRenewal_unselected_window_witness :
  certNeedsRenewal ex_renewal_cfg (λ n, (n - 1)%Z) (Unix_time 1700000001) (Some ex_leaf)
    ex_window = Some true.
Proof.
  apply certNeedsRenewal_unselected_window.
  - exact ex_interval_ok.
  - reflexivity.
  - reflexivity.
  - vm_compute. discriminate.
  - vm_compute. discriminate.
  - intros n Hn. lia.
  - vm_compute. discriminate.
  - vm_compute. split; reflexivity.
  - vm_compute. reflexivity.
Defined.

(** ** Subjects *)

Lemma CountByte_0 s c : CountByte s c = 0%nat → no_byte c s = true.
Proof.
  induction s as [|d s IH]; [done|]. unfold no_byte in *. simpl.
  destruct (Ascii.eqb d c); simpl; [lia|auto].
Qed.

Section SubjectProperties.
Context (ParseIP : string → option IP).

(** A public wildcard subject has the form the CA/Browser Forum allows:
    one star, alone in the left-most label, above at least two labels. *)
Theorem SubjectQualifiesForPublicCert_wildcard (subj : string) :
  SubjectQualifiesForPublicCert ParseIP subj = true →
  Contains subj "*" = true →
  ∃ rest, subj = "*." +:+ rest ∧ no_byte "*" rest = true ∧
          (1 ≤ CountByte rest ".")%nat ∧ HasSuffix rest "." = false ∧
          ContainsAny subj special_chars = false.
Proof.
  unfold SubjectQualifiesForPublicCert, SubjectQualifiesForCert.
  intros H Hstar. rewrite Hstar in H. simpl in H.
  destruct (ContainsAny subj special_chars) eqn:Hany;
    [by rewrite !andb_false_r in H|].
  destruct (HasSuffix subj ".") eqn:Hsuf;
    [by rewrite !andb_false_r in H|].
  reflect_bools.
  match goal with H : HasPrefix subj "*." = true |- _ =>
    apply HasPrefix_spec in H as [rest ->] end.
  exists rest. split; [done|].
  match goal with H : (CountByte _ "*" =? 1)%nat = true |- _ =>
    apply Nat.eqb_eq in H; rewrite CountByte_append in H; simpl in H; rename H into Hc end.
  match goal with H : (1 <? CountByte _ ".")%nat = true |- _ =>
    apply Nat.ltb_lt in H; rewrite CountByte_append in H; simpl in H; rename H into Hd end.
  split; [apply CountByte_0; lia|]. split; [lia|]. split; [|done].
  apply not_true_iff_false. intros [t ->]%HasSuffix_spec.
  apply not_true_iff_false in Hsuf. apply Hsuf, HasSuffix_spec.
  exists ("*." +:+ t). by rewrite append_assoc.
Qed.
End SubjectProperties.

Lemma SubjectQualifiesForPublicCert_wildcard_witness :
  ∃ rest, "*.example.com" = "*." +:+ rest ∧ no_byte "*" rest = true ∧
          (1 ≤ CountByte rest ".")%nat ∧ HasSuffix rest "." = false ∧
          ContainsAny "*.example.com" special_chars = false.
Proof.
  apply (SubjectQualifiesForPublicCert_wildcard (λ _, None)); vm_compute; reflexivity.
Defined.

(** A subject that qualifies has no leading or trailing dot and is not blank. *)
Lemma SubjectQualifiesForCert_dots subj :
  SubjectQualifiesForCert subj = true →
  HasPrefix subj "." = false ∧ HasSuffix subj "." = false ∧ subj ≠ "".
Proof.
  unfold SubjectQualifiesForCert. intros H. reflect_bools. repeat split; try done.
  by intros ->.
Qed.

(** ** Filling a certificate *)

Section FillProperties.
Context (ParseCertificate : bytes → result X509) (blake3_hex : bytes → string).

Lemma append_names_mono norm cn acc subjects x :
  x ∈ acc → x ∈ append_names norm cn acc subjects.
Proof.
  revert acc. induction subjects as [|s ss IH]; intros acc Hx; [done|].
  simpl. apply IH. destruct (negb _); [|done]. apply elem_of_app. by left.
Qed.

Lemma append_names_elem norm cn acc subjects s :
  s ∈ subjects → s ≠ cn → norm s ∈ append_names norm cn acc subjects.
Proof.
  revert acc. induction subjects as [|s' ss IH]; intros acc Hs Hne.
  - by apply elem_of_nil in Hs.
  - apply elem_of_cons in Hs as [<-|Hs]; simpl; [|by apply IH].
    apply append_names_mono. rewrite (proj2 (String.eqb_neq _ _)) by done. simpl.
    apply elem_of_app. right. by left.
Qed.

Lemma names_of_leaf_cn leaf :
  CommonName leaf ≠ "" → ToLower (CommonName leaf) ∈ names_of_leaf leaf.
Proof.
  intros H. unfold names_of_leaf. do 4 apply append_names_mono.
  rewrite (proj2 (String.eqb_neq _ _)) by done. by left.
Qed.

(** A certificate filled from a TLS certificate has a parsed leaf and
    at least one name, its hash is the hash of the chain, and every DNS name
    of the leaf is among its names in lower case, so the cache will index
    the certificate under each of them. *)
Theorem fillCertFromLeaf_names cert tlsCert cert' :
  fillCertFromLeaf ParseCertificate blake3_hex cert tlsCert = Ok cert' →
  hash cert' = hashCertificateChain blake3_hex (tls_Certificate tlsCert) ∧
  Names cert' ≠ [] ∧ Tags cert' = Tags cert ∧
  ∃ leaf, Leaf cert' = Some leaf ∧
    (∀ name, name ∈ DNSNames leaf → name ≠ "" → ToLower name ∈ Names cert').
Proof.
  unfold fillCertFromLeaf. intros H. break_match_hyp H; simplify_eq; simpl.
  all: (split; [done|]); (split; [congruence|]); (split; [done|]).
  all: match goal with |- ∃ leaf, Leaf (MkCertificate (MkTLSCertificate _ _ (Some ?l)) _ _ _ _ _ _ _) = _ ∧ _ =>
         exists l; split; [done|]; intros name Hin Hne end.
  all: match goal with E : _ = ?names |- _ ∈ ?names => rewrite <-E end.
  all: try (apply elem_of_app; right).
  all: match goal with |- ToLower ?n ∈ names_of_leaf ?l =>
         destruct (decide (n = CommonName l)) as [->|Hcn];
         [by apply names_of_leaf_cn|
          unfold names_of_leaf; do 3 apply append_names_mono; by apply append_names_elem]
       end.
Qed.
End FillProperties.

Lemma fillCertFromLeaf_names_witness :
  let cert' := MkCertificate
    (MkTLSCertificate ["der"] "" (Some ex_leaf)) ["example.com"] [] None "der" false ""
    zeroRenewalInfo in
  hash cert' = "der" ∧ Names cert' ≠ [] ∧ Tags cert' = [] ∧
  ∃ leaf, Leaf cert' = Some leaf ∧
    (∀ name, name ∈ DNSNames leaf → name ≠ "" → ToLower name ∈ Names cert').
Proof.
  apply (fillCertFromLeaf_names (λ _, Ok ex_leaf) (λ b, b) zeroCertificate
           (MkTLSCertificate ["der"] "" None)).
  vm_compute. reflexivity.
Defined.
