(* ===== verification/Cache.v ===== *)
(** * The in-memory certificate cache (cache.go)

    [Cache] holds the certificates by hash and an index from subject name to
    hashes. The definitions follow the methods of [*Cache]; each runs under
    the cache's lock in the code and is one atomic step here. The invariant
    says that the index and the certificates agree, up to the certificates that
    a handshake has written back after they had left the cache; the theorems say
    what every lookup returns and how the capacity is respected. *)

From S2P Require Import Prelude GoStrings Certificates.
From Stdlib Require Import Ascii.
Open Scope string_scope.

(** ** State *)

Record CacheOptions := MkCacheOptions {
  HasGetConfigForCert : bool;   (* opts.GetConfigForCert != nil *)
  OCSPCheckInterval : Duration;
  opt_RenewCheckInterval : Duration;
  Capacity : Z;
}.

Definition DefaultOCSPCheckInterval : Duration := (1 * Hour)%Z.
Definition DefaultRenewCheckInterval : Duration := (10 * Minute)%Z.

Record Cache := MkCache {
  options : CacheOptions;
  cache : gmap string Certificate;
  cacheIndex : gmap string (list string);
}.

(** A missing key of a Go map reads as the zero value. *)
Definition index_of (c : Cache) (name : string) : list string :=
  default [] (cacheIndex c !! name).

(** ** Operations *)

(** [None] is the panic on a missing [GetConfigForCert]. *)
Definition NewCache (opts : CacheOptions) : option Cache :=
  let opts := MkCacheOptions (HasGetConfigForCert opts)
    (if (OCSPCheckInterval opts <=? 0)%Z then DefaultOCSPCheckInterval
     else OCSPCheckInterval opts)
    (if (opt_RenewCheckInterval opts <=? 0)%Z then DefaultRenewCheckInterval
     else opt_RenewCheckInterval opts)
    (if (Capacity opts <? 0)%Z then 0%Z else Capacity opts) in
  if HasGetConfigForCert opts then Some (MkCache opts ∅ ∅) else None.

Definition SetOptions (opts : CacheOptions) (c : Cache) : Cache :=
  MkCache opts (cache c) (cacheIndex c).

(** The loop over [keyList] in [removeCertificate]: on a match the element is
    cut out and [i--] makes the next iteration look at the same place. *)
Fixpoint remove_key_loop (fuel i : nat) (h : string) (keyList : list string) : list string :=
  match fuel with
  | O => keyList
  | S fuel' =>
      if (i <? length keyList)%nat then
        if bool_decide (keyList !! i = Some h)
        then remove_key_loop fuel' i h (take i keyList ++ drop (S i) keyList)%list
        else remove_key_loop fuel' (S i) h keyList
      else keyList
  end.

(** One iteration of the loop over the names of the removed certificate. *)
Definition remove_name (h : string) (idx : gmap string (list string)) (name : string)
    : gmap string (list string) :=
  let keyList := default [] (idx !! name) in
  let keyList := remove_key_loop (length keyList) 0 h keyList in
  match keyList with
  | [] => delete name idx
  | _ => <[name := keyList]> idx
  end.

Definition removeCertificate (cert : Certificate) (c : Cache) : Cache :=
  MkCache (options c)
    (delete (hash cert) (cache c))
    (foldl (remove_name (hash cert)) (cacheIndex c) (Names cert)).

(** The loop that adds the missing tags to a certificate already cached. *)
Definition add_missing_tags (existing : Certificate) (tags : list string) : Certificate :=
  foldl (λ ex tag, if HasTag ex tag then ex else with_Tags (Tags ex ++ [tag])%list ex)
        existing tags.

(** The eviction loop: [order] is the order in which this range over the map
    visits the certificates. *)
Fixpoint evict_loop (i rnd : nat) (order : list Certificate) (c : Cache) : Cache :=
  match order with
  | [] => c
  | randomCert :: rest =>
      if (i =? rnd)%nat then removeCertificate randomCert c
      else evict_loop (S i) rnd rest c
  end.

Definition add_name (h : string) (idx : gmap string (list string)) (name : string)
    : gmap string (list string) :=
  <[name := (default [] (idx !! name) ++ [h])%list]> idx.

Definition atCapacity (c : Cache) : bool :=
  ((0 <? Capacity (options c)) && (Capacity (options c) <=? Z.of_nat (size (cache c))))%Z.

(** [order] is the iteration order of the map and [rnd] the value of
    [weakrand.Intn(cacheSize)]; both matter only when a certificate is
    evicted. *)
Definition unsyncedCacheCertificate (order : list Certificate) (rnd : nat)
    (cert : Certificate) (c : Cache) : Cache :=
  match cache c !! hash cert with
  | Some existingCert =>
      match Tags cert with
      | [] => c
      | _ => MkCache (options c)
               (<[hash cert := add_missing_tags existingCert (Tags cert)]> (cache c))
               (cacheIndex c)
      end
  | None =>
      let c := if atCapacity c then evict_loop 0 rnd order c else c in
      MkCache (options c)
        (<[hash cert := cert]> (cache c))
        (foldl (add_name (hash cert)) (cacheIndex c) (Names cert))
  end.

Definition cacheCertificate := unsyncedCacheCertificate.

Definition replaceCertificate (order : list Certificate) (rnd : nat)
    (oldCert newCert : Certificate) (c : Cache) : Cache :=
  unsyncedCacheCertificate order rnd newCert (removeCertificate oldCert c).

Definition getAllMatchingCerts (c : Cache) (subject : string) : list Certificate :=
  map (λ key, default zeroCertificate (cache c !! key)) (index_of c subject).

(** The certificates in some iteration order; the model uses the order of the
    finite map. *)
Definition getAllCerts (c : Cache) : list Certificate := (map_to_list (cache c)).*2.

Definition AllMatchingCertificates (c : Cache) (name : string) : list Certificate :=
  foldl (λ certs candidate, (certs ++ getAllMatchingCerts c candidate)%list)
        (getAllMatchingCerts c name) (wildcard_candidates name).

Record SubjectIssuer := MkSubjectIssuer { Subject : string; IssuerKey : string }.

Definition Remove (hashes : list string) (c : Cache) : Cache :=
  foldl (λ c h, removeCertificate (default zeroCertificate (cache c !! h)) c) c hashes.

Definition removal_selected (subj : SubjectIssuer) (cert : Certificate) : bool :=
  managed cert && ((IssuerKey subj =? "") || (issuerKey cert =? IssuerKey subj)).

Definition RemoveManaged (subjects : list SubjectIssuer) (c : Cache) : Cache :=
  let deleteQueue :=
    foldl (λ q subj,
             foldl (λ q cert, if negb (managed cert) then q
                              else if (IssuerKey subj =? "") || (issuerKey cert =? IssuerKey subj)
                              then (q ++ [hash cert])%list else q)
                   q (getAllMatchingCerts c (Subject subj)))
          [] subjects in
  Remove deleteQueue c.

(** Writing back a certificate that is still in the cache, as
    [updateOCSPStaples] and [updateARI] do under the lock. *)
Definition updateCached (h : string) (f : Certificate → Certificate) (c : Cache) : Cache :=
  match cache c !! h with
  | Some cert => MkCache (options c) (<[h := f cert]> (cache c)) (cacheIndex c)
  | None => c
  end.

(** Writing back a copy of a certificate, as [handshakeMaintenance] does after
    it has refreshed the staple, whether it is still in the cache or not. *)
Definition writeBack (cert : Certificate) (c : Cache) : Cache :=
  MkCache (options c) (<[hash cert := cert]> (cache c)) (cacheIndex c).

(** [getConfig]: the configuration the callback returns must point to this
    cache; caches are compared by identity. *)
Definition getConfig {Cfg} (GetConfigForCert : Certificate → result Cfg)
    (cfg_certCache : Cfg → option nat) (self : nat) (cert : Certificate) : result Cfg :=
  match GetConfigForCert cert with
  | Err e => Err e
  | Ok cfg =>
      match cfg_certCache cfg with
      | None => Err (Errorf "config returned for certificate has nil cache")
      | Some other =>
          if (other =? self)%nat then Ok cfg
          else Err (Errorf "config returned for certificate points to different cache")
      end
  end.

(** ** Lemmas on the index *)

(** The in-place removal loop keeps exactly the other keys, in order. *)
Lemma remove_key_loop_filter fuel i h l :
  (length l - i ≤ fuel)%nat → Forall (λ k, k ≠ h) (take i l) →
  remove_key_loop fuel i h l = filter (λ k, k ≠ h) l.
Proof.
  revert i l. induction fuel as [|fuel IH]; intros i l Hf HF; simpl.
  - rewrite <-(take_drop i l) at 2. rewrite (drop_ge l i) by lia.
    rewrite app_nil_r, take_ge by lia. rewrite take_ge in HF by lia.
    symmetry. apply filter_all. by apply Forall_forall.
  - destruct (Nat.ltb_spec i (length l)) as [Hi|Hi].
    + destruct (lookup_lt_is_Some_2 l i Hi) as [x Hx]. rewrite Hx.
      case_bool_decide as E.
      * injection E as ->. rewrite IH.
        -- rewrite <-(take_drop_middle l i h Hx) at 3.
           by rewrite !filter_app, filter_cons_False by (intros ?; done).
        -- rewrite length_app, length_take, length_drop. lia.
        -- rewrite take_app_le by (rewrite length_take; lia). by rewrite take_take, Nat.min_id.
      * apply IH; [lia|]. rewrite (take_S_r _ _ x) by done.
        apply Forall_app. split; [done|]. repeat constructor. congruence.
    + rewrite take_ge in HF by lia. symmetry. apply filter_all. by apply Forall_forall.
Qed.

(** The list stored for a name, in the form the code leaves it: absent when
    empty. *)
Definition stored (l : list string) : option (list string) :=
  match l with [] => None | _ => Some l end.

Lemma default_stored l : default [] (stored l) = l.
Proof. by destruct l. Qed.

Lemma remove_name_lookup h idx name n :
  remove_name h idx name !! n =
  if decide (n = name) then stored (filter (λ k, k ≠ h) (default [] (idx !! name)))
  else idx !! n.
Proof.
  unfold remove_name. rewrite remove_key_loop_filter; [|lia|by constructor].
  destruct (filter _ _) as [|x l] eqn:E; simpl.
  - rewrite lookup_delete. repeat case_decide; congruence.
  - rewrite lookup_insert. repeat case_decide; congruence.
Qed.

Lemma foldl_remove_name_lookup h names idx n :
  foldl (remove_name h) idx names !! n =
  if decide (n ∈ names) then stored (filter (λ k, k ≠ h) (default [] (idx !! n)))
  else idx !! n.
Proof.
  revert idx. induction names as [|name names IH]; intros idx; cbn [foldl].
  - case_decide as H; [by apply elem_of_nil in H|done].
  - rewrite IH, remove_name_lookup.
    destruct (decide (n = name)) as [->|Hne].
    + destruct (decide (name ∈ name :: names)) as [_|H]; [|by destruct H; left].
      case_decide; [|done]. rewrite default_stored. f_equal.
      rewrite list_filter_filter. apply list_filter_iff. intros; tauto.
    + assert (n ∈ name :: names ↔ n ∈ names) as Hiff by (rewrite elem_of_cons; naive_solver).
      repeat case_decide; tauto.
Qed.

Lemma foldl_add_name_lookup h names idx n :
  ∃ m, default [] (foldl (add_name h) idx names !! n) =
         (default [] (idx !! n) ++ replicate m h)%list ∧
       (m = 0%nat ↔ n ∉ names) ∧
       (n ∉ names → foldl (add_name h) idx names !! n = idx !! n).
Proof.
  revert idx. induction names as [|name names IH]; intros idx; simpl.
  - exists 0%nat. rewrite app_nil_r. split; [done|]. split; [|done].
    split; [intros _; apply not_elem_of_nil|done].
  - destruct (IH (add_name h idx name)) as (m & Hm & Hm0 & Hsame).
    unfold add_name in *. destruct (decide (n = name)) as [->|Hne].
    + exists (S m). rewrite Hm, lookup_insert_eq. simpl. rewrite <-app_assoc. simpl.
      split; [done|]. rewrite not_elem_of_cons. split; [|tauto]. split; [done|tauto].
    + exists m. rewrite lookup_insert_ne in Hm, Hsame by done. split; [done|].
      rewrite not_elem_of_cons. tauto.
Qed.

(** ** The invariant *)

Section CacheInvariant.
(** The names a certificate carries are a function of its hash: the hash is
    a collision-resistant digest of the chain the names are read from. *)
Context (names_of : string → list string).

Definition consistent (cert : Certificate) : Prop :=
  hash cert ≠ "" ∧ Names cert = names_of (hash cert).

Record cache_inv (c : Cache) : Prop := {
  inv_hash : ∀ h cert, cache c !! h = Some cert → hash cert = h;
  inv_consistent : ∀ h cert, cache c !! h = Some cert → consistent cert;
  inv_index : ∀ n h, h ∈ index_of c n ↔ ∃ cert, cache c !! h = Some cert ∧ n ∈ Names cert;
  inv_nonempty : ∀ n, cacheIndex c !! n ≠ Some [];
}.

(** The same but for the hashes [O], whose certificates are in the cache and
    not in the index. *)
Record index_inv (O : gset string) (c : Cache) : Prop := {
  ix_hash : ∀ h cert, cache c !! h = Some cert → hash cert = h;
  ix_consistent : ∀ h cert, cache c !! h = Some cert → consistent cert;
  ix_index : ∀ n h, h ∈ index_of c n ↔ (h ∉ O) ∧ (∃ cert, cache c !! h = Some cert ∧ n ∈ Names cert);
  ix_orphans : O ⊆ dom (cache c);
  ix_nonempty : ∀ n, cacheIndex c !! n ≠ Some [];
}.

Lemma index_inv_empty c : index_inv ∅ c ↔ cache_inv c.
Proof.
  split; intros [H1 H2 H3 H4]; split; try done.
  - intros n h. rewrite H3. set_solver.
  - intros n h. rewrite H3. set_solver.
Qed.

(** With a capacity, the cache holds at most that many certificates. *)
Definition bounded (c : Cache) : Prop :=
  (0 < Capacity (options c) → Z.of_nat (size (cache c)) ≤ Capacity (options c))%Z.
(** At most [L], which is not below the capacity. *)
Definition bounded_by (L : Z) (c : Cache) : Prop :=
  (0 < Capacity (options c) → Z.of_nat (size (cache c)) ≤ L ∧ Capacity (options c) ≤ L)%Z.

Lemma NewCache_index opts c :
  NewCache opts = Some c → index_inv ∅ c ∧ bounded_by (Capacity (options c)) c.
Proof.
  unfold NewCache. simpl. destruct (HasGetConfigForCert opts); [|done].
  intros [= <-]. split.
  - apply index_inv_empty. split; simpl; intros *; rewrite ?lookup_empty; try done.
    unfold index_of. simpl. rewrite lookup_empty. simpl. split.
    + intros H. by apply elem_of_nil in H.
    + intros (? & H & _). done.
  - unfold bounded_by. simpl. rewrite map_size_empty. lia.
Qed.

Lemma NewCache_inv opts c : NewCache opts = Some c → cache_inv c.
Proof. intros [H _]%NewCache_index. by apply index_inv_empty. Qed.

Lemma index_of_remove cert c n :
  index_of (removeCertificate cert c) n =
  if decide (n ∈ Names cert) then filter (λ k, k ≠ hash cert) (index_of c n)
  else index_of c n.
Proof.
  unfold index_of, removeCertificate. simpl. rewrite foldl_remove_name_lookup.
  case_decide; [apply default_stored|done].
Qed.

Lemma removeCertificate_index O cert c :
  consistent cert → index_inv O c → index_inv (O ∖ {[hash cert]}) (removeCertificate cert c).
Proof.
  intros [Hh Hn] Hinv. split.
  - intros h cert'. simpl. rewrite lookup_delete_Some. intros [_ ?]. by eapply ix_hash.
  - intros h cert'. simpl. rewrite lookup_delete_Some. intros [_ ?]. by eapply ix_consistent.
  - intros n h. rewrite index_of_remove. simpl.
    setoid_rewrite lookup_delete_Some.
    assert (hash cert ∈ index_of c n → n ∈ Names cert) as Hsub.
    { rewrite (ix_index _ _ Hinv). intros (_ & cert' & Hc & Hin).
      pose proof (ix_hash _ _ Hinv _ _ Hc) as E.
      destruct (ix_consistent _ _ Hinv _ _ Hc) as [_ E']. congruence. }
    case_decide as Hd.
    + rewrite list_elem_of_filter, (ix_index _ _ Hinv). set_solver.
    + destruct (decide (h = hash cert)) as [->|Hne].
      * split; [by intros ?%Hsub|]. by intros (_ & ? & [? _] & _).
      * rewrite (ix_index _ _ Hinv). set_solver.
  - intros h. rewrite elem_of_difference, elem_of_singleton. intros [Ho Hne]. simpl.
    rewrite dom_delete. pose proof (ix_orphans _ _ Hinv). set_solver.
  - intros n. simpl. rewrite foldl_remove_name_lookup.
    case_decide; [by destruct (filter _ _)|]. apply (ix_nonempty _ _ Hinv).
Qed.

Lemma removeCertificate_inv cert c :
  consistent cert → cache_inv c → cache_inv (removeCertificate cert c).
Proof.
  intros Hc Hinv%index_inv_empty. apply index_inv_empty.
  rewrite <-(difference_empty_L ∅). replace (∅ ∖ ∅ : gset string) with (∅ ∖ {[hash cert]} : gset string) by set_solver.
  by apply removeCertificate_index.
Qed.

(** Adding a certificate whose hash is new. *)
Definition insert_new (cert : Certificate) (c : Cache) : Cache :=
  MkCache (options c) (<[hash cert := cert]> (cache c))
    (foldl (add_name (hash cert)) (cacheIndex c) (Names cert)).

Lemma elem_of_index_insert cert c n h :
  h ∈ index_of (insert_new cert c) n ↔
  h ∈ index_of c n ∨ (h = hash cert ∧ n ∈ Names cert).
Proof.
  unfold index_of, insert_new. simpl.
  destruct (foldl_add_name_lookup (hash cert) (Names cert) (cacheIndex c) n)
    as (m & -> & Hm & _).
  rewrite elem_of_app, elem_of_replicate.
  destruct (decide (n ∈ Names cert)); [|tauto].
  assert (m ≠ 0%nat) by tauto. tauto.
Qed.

Lemma insert_new_index O cert c :
  consistent cert → cache c !! hash cert = None → index_inv O c → index_inv O (insert_new cert c).
Proof.
  intros Hcons Hnone Hinv.
  assert (hash cert ∉ O) as Ho.
  { intros H%(ix_orphans _ _ Hinv). by apply elem_of_dom in H as [? ?]; congruence. }
  split.
  - intros h cert'. simpl. rewrite lookup_insert_Some.
    intros [[<- <-]|[_ ?]]; [done|by eapply ix_hash].
  - intros h cert'. simpl. rewrite lookup_insert_Some.
    intros [[<- <-]|[_ ?]]; [done|by eapply ix_consistent].
  - intros n h. rewrite elem_of_index_insert, (ix_index _ _ Hinv). simpl.
    setoid_rewrite lookup_insert_Some. split.
    + intros [(Hh & cert' & Hc & Hin)|[-> Hin]]; [|split; [done|]; by exists cert; auto].
      split; [done|]. exists cert'. split; [|done]. right. split; [congruence|done].
    + intros (Hh & cert' & [[<- <-]|[Hne Hc]] & Hin); eauto.
  - simpl. rewrite dom_insert. pose proof (ix_orphans _ _ Hinv). set_solver.
  - intros n. simpl.
    destruct (foldl_add_name_lookup (hash cert) (Names cert) (cacheIndex c) n)
      as (m & Hm & Hm0 & Hsame).
    destruct (decide (n ∈ Names cert)) as [Hin|Hin].
    + intros E. rewrite E in Hm. simpl in Hm. symmetry in Hm.
      apply app_eq_nil in Hm as [_ Hm]. destruct m; [|done]. tauto.
    + rewrite Hsame by done. apply (ix_nonempty _ _ Hinv).
Qed.

Lemma insert_new_inv cert c :
  consistent cert → cache c !! hash cert = None → cache_inv c → cache_inv (insert_new cert c).
Proof. intros ?? H%index_inv_empty. by apply index_inv_empty, insert_new_index. Qed.

Lemma evict_loop_lookup i rnd order c :
  (i ≤ rnd)%nat → (rnd < i + length order)%nat →
  ∃ victim, order !! (rnd - i)%nat = Some victim ∧
            evict_loop i rnd order c = removeCertificate victim c.
Proof.
  revert i. induction order as [|x order IH]; intros i Hi Hr; simpl in *; [lia|].
  destruct (Nat.eqb_spec i rnd) as [->|Hne].
  - exists x. by rewrite Nat.sub_diag.
  - destruct (IH (S i)) as (v & Hv & ->); [lia..|]. exists v. split; [|done].
    replace (rnd - i)%nat with (S (rnd - S i)) by lia. done.
Qed.

(** The choices of one call: [order] enumerates the map and [rnd] is below
    its size. *)
Definition valid_choice (order : list Certificate) (rnd : nat) (c : Cache) : Prop :=
  order ≡ₚ getAllCerts c ∧ (rnd < size (cache c))%nat.

Lemma evict_cached O order rnd c :
  valid_choice order rnd c → index_inv O c →
  ∃ victim, cache c !! hash victim = Some victim ∧ consistent victim ∧
            evict_loop 0 rnd order c = removeCertificate victim c.
Proof.
  intros [Hperm Hrnd] Hinv.
  assert (length order = size (cache c)) as Hlen.
  { rewrite Hperm. unfold getAllCerts.
    by rewrite length_fmap, length_map_to_list. }
  destruct (evict_loop_lookup 0 rnd order c) as (v & Hv & E); [lia..|].
  exists v. rewrite E. apply list_elem_of_lookup_2 in Hv. rewrite Hperm in Hv.
  unfold getAllCerts in Hv. apply list_elem_of_fmap in Hv as ([h cert] & -> & Hin).
  apply elem_of_map_to_list in Hin. simpl.
  rewrite (ix_hash _ _ Hinv _ _ Hin). split; [done|]. split; [|done].
  by eapply ix_consistent.
Qed.

(** The case split of [unsyncedCacheCertificate] in terms of the operations
    above. *)
Inductive cached_by (cert : Certificate) (c c' : Cache) : Prop :=
| cached_existing existing :
    cache c !! hash cert = Some existing →
    c' = (match Tags cert with
          | [] => c
          | _ => updateCached (hash cert) (λ ex, add_missing_tags ex (Tags cert)) c
          end) →
    cached_by cert c c'
| cached_room :
    cache c !! hash cert = None → atCapacity c = false →
    c' = insert_new cert c → cached_by cert c c'
| cached_evict victim :
    cache c !! hash cert = None → atCapacity c = true →
    cache c !! hash victim = Some victim → consistent victim →
    c' = insert_new cert (removeCertificate victim c) → cached_by cert c c'.

Lemma unsyncedCacheCertificate_index_cases O order rnd cert c :
  (atCapacity c = true → valid_choice order rnd c) → index_inv O c →
  cached_by cert c (unsyncedCacheCertificate order rnd cert c).
Proof.
  intros Hch Hinv. unfold unsyncedCacheCertificate.
  destruct (cache c !! hash cert) as [ex|] eqn:E.
  - eapply cached_existing; [done|]. unfold updateCached. by rewrite E.
  - destruct (atCapacity c) eqn:Ec; [|by apply cached_room].
    destruct (evict_cached O order rnd c (Hch eq_refl) Hinv) as (v & Hv & Hc & Hev).
    eapply cached_evict; [done..|]. by rewrite Hev.
Qed.

Lemma unsyncedCacheCertificate_cases order rnd cert c :
  (atCapacity c = true → valid_choice order rnd c) → cache_inv c →
  cached_by cert c (unsyncedCacheCertificate order rnd cert c).
Proof. intros ? H%index_inv_empty. by apply unsyncedCacheCertificate_index_cases with ∅. Qed.

Lemma add_missing_tags_fields ex tags :
  hash (add_missing_tags ex tags) = hash ex ∧ Names (add_missing_tags ex tags) = Names ex.
Proof.
  revert ex. induction tags as [|t ts IH]; intros ex; [done|]. simpl.
  destruct (HasTag ex t); [apply IH|]. by destruct (IH (with_Tags (Tags ex ++ [t])%list ex)).
Qed.

(** Writing back under its hash a certificate with the names of that hash. *)
Lemma writeBack_index O cert c :
  consistent cert → index_inv O c →
  index_inv (if decide (is_Some (cache c !! hash cert)) then O else {[hash cert]} ∪ O) (writeBack cert c).
Proof.
  intros Hcons Hinv. split.
  - intros h cert'. simpl. rewrite lookup_insert_Some. intros [[<- <-]|[_ ?]]; [done|by eapply ix_hash].
  - intros h cert'. simpl. rewrite lookup_insert_Some. intros [[<- <-]|[_ ?]]; [done|by eapply ix_consistent].
  - intros n h. change (index_of (writeBack cert c) n) with (index_of c n).
    rewrite (ix_index _ _ Hinv). simpl. setoid_rewrite lookup_insert_Some.
    destruct (decide (h = hash cert)) as [->|Hne].
    + case_decide as Hs.
      * destruct Hs as [old Hold]. split; intros (Ho & cert' & Hc & Hin); (split; [done|]).
        -- exists cert. split; [by left|]. destruct Hcons as [_ ->].
           destruct (ix_consistent _ _ Hinv _ _ Hc) as [_ E]. rewrite E in Hin. by rewrite (ix_hash _ _ Hinv _ _ Hc) in Hin.
        -- exists old. split; [done|]. destruct Hc as [[_ <-]|[? _]]; [|done].
           destruct Hcons as [_ E]. destruct (ix_consistent _ _ Hinv _ _ Hold) as [_ ->].
           rewrite (ix_hash _ _ Hinv _ _ Hold). by rewrite <-E.
      * split; [|set_solver]. intros (_ & cert' & Hc & _). destruct Hs. eauto.
    + assert (h ∉ (if decide (is_Some (cache c !! hash cert)) then O else {[hash cert]} ∪ O) ↔ h ∉ O) as ->.
      { case_decide; set_solver. }
      split; intros (Ho & cert' & Hc & Hin); (split; [done|]); exists cert'; (split; [|done]).
      * right. split; congruence.
      * destruct Hc as [[? _]|[_ ?]]; congruence.
  - simpl. rewrite dom_insert. pose proof (ix_orphans _ _ Hinv). case_decide; set_solver.
  - apply (ix_nonempty _ _ Hinv).
Qed.

(** An update that keeps the hash and the names keeps the invariant. *)
Lemma updateCached_index O h f c :
  (∀ cert, hash (f cert) = hash cert ∧ Names (f cert) = Names cert) →
  index_inv O c → index_inv O (updateCached h f c).
Proof.
  intros Hf Hinv. unfold updateCached. destruct (cache c !! h) as [cert|] eqn:E; [|done].
  destruct (Hf cert) as [Hh Hn]. pose proof (ix_hash _ _ Hinv _ _ E) as Hc.
  assert (consistent (f cert)) as Hcons.
  { unfold consistent. rewrite Hh, Hn. by eapply ix_consistent. }
  pose proof (writeBack_index O (f cert) c Hcons Hinv) as H. unfold writeBack in H.
  rewrite Hh, Hc in H. rewrite decide_True in H by (rewrite E; eauto). done.
Qed.

Lemma updateCached_inv h f c :
  (∀ cert, hash (f cert) = hash cert ∧ Names (f cert) = Names cert) →
  cache_inv c → cache_inv (updateCached h f c).
Proof. intros ? H%index_inv_empty. by apply index_inv_empty, updateCached_index. Qed.

Lemma index_inv_shrink O O' c : index_inv O c → O = O' → index_inv O' c.
Proof. by intros ? <-. Qed.

Lemma unsyncedCacheCertificate_index O order rnd cert c :
  let c' := unsyncedCacheCertificate order rnd cert c in
  consistent cert → (atCapacity c = true → valid_choice order rnd c) → index_inv O c →
  index_inv (O ∩ dom (cache c')) c'.
Proof.
  intros c' Hcons Hch Hinv. pose proof (ix_orphans _ _ Hinv) as Ho.
  assert (hash cert ∉ dom (cache c) → hash cert ∉ O) as Hh by set_solver.
  subst c'. destruct (unsyncedCacheCertificate_index_cases O order rnd cert c Hch Hinv)
    as [ex E ->|E _ ->|v E _ Hv Hvc ->].
  - eapply index_inv_shrink; [destruct (Tags cert) as [|t ts] eqn:Ht; [done|]|].
    + apply updateCached_index; [|done]. intros; apply add_missing_tags_fields.
    + destruct (Tags cert); [set_solver|]. unfold updateCached. rewrite E. simpl. rewrite dom_insert_L. set_solver.
  - eapply index_inv_shrink; [by apply insert_new_index|]. simpl. rewrite dom_insert_L. clear -Ho. set_solver.
  - eapply index_inv_shrink; [apply insert_new_index; [done| |by apply removeCertificate_index]|].
    + simpl. rewrite lookup_delete. by case_decide.
    + simpl. rewrite dom_insert_L, dom_delete_L. apply not_elem_of_dom in E. apply Hh in E. clear -Ho E. apply set_eq. intros x. specialize (Ho x).
      rewrite elem_of_intersection, elem_of_union, !elem_of_difference, !elem_of_singleton. split; [tauto|].
      intros [Hx [->|?]]; tauto.
Qed.

Lemma unsyncedCacheCertificate_inv order rnd cert c :
  consistent cert → (atCapacity c = true → valid_choice order rnd c) → cache_inv c →
  cache_inv (unsyncedCacheCertificate order rnd cert c).
Proof.
  intros Hc Hch H%index_inv_empty. apply index_inv_empty.
  eapply index_inv_shrink; [by apply unsyncedCacheCertificate_index|]. set_solver.
Qed.

Lemma size_insert_new cert c :
  cache c !! hash cert = None →
  size (cache (insert_new cert c)) = S (size (cache c)).
Proof. intros H. simpl. by apply map_size_insert_None. Qed.

Lemma unsyncedCacheCertificate_bounded O L order rnd cert c :
  (atCapacity c = true → valid_choice order rnd c) → index_inv O c → bounded_by L c →
  bounded_by L (unsyncedCacheCertificate order rnd cert c).
Proof.
  intros Hch Hinv Hb.
  destruct (unsyncedCacheCertificate_index_cases O order rnd cert c Hch Hinv)
    as [ex E ->|E Hc ->|v E Hc Hv Hvc ->].
  - destruct (Tags cert); [done|]. unfold updateCached. rewrite E.
    unfold bounded_by in *. simpl. rewrite map_size_insert_Some by eauto. done.
  - unfold bounded_by, atCapacity in *. simpl (options _). rewrite size_insert_new by done.
    intros Hpos. apply andb_false_iff in Hc as [Hc|Hc]; reflect_bools; lia.
  - assert (cache (removeCertificate v c) !! hash cert = None) as Hn.
    { simpl. rewrite lookup_delete. by case_decide. }
    unfold bounded_by in *. rewrite size_insert_new by done. simpl (options _).
    simpl (cache _). rewrite map_size_delete_Some by eauto.
    assert (size (cache c) ≠ 0%nat).
    { intros E0. apply map_size_empty_inv in E0. rewrite E0 in Hv. done. }
    lia.
Qed.

(** ** Removal by hash and by subject *)

Lemma removeCertificate_zero O c : index_inv O c → removeCertificate zeroCertificate c = c.
Proof.
  intros Hinv. unfold removeCertificate. simpl. rewrite delete_id; [by destruct c|].
  destruct (cache c !! "") as [cert|] eqn:E; [|done].
  destruct (ix_consistent _ _ Hinv _ _ E) as [Hne _].
  by rewrite (ix_hash _ _ Hinv _ _ E) in Hne.
Qed.

Lemma Remove_index_spec O hashes c :
  index_inv O c →
  index_inv (O ∩ dom (cache (Remove hashes c))) (Remove hashes c) ∧ options (Remove hashes c) = options c ∧
  ∀ h, cache (Remove hashes c) !! h = if decide (h ∈ hashes) then None else cache c !! h.
Proof.
  revert O c. induction hashes as [|x hashes IH]; intros O c Hinv; unfold Remove; cbn [foldl].
  { split; [|split; [done|]].
    - eapply index_inv_shrink; [done|]. pose proof (ix_orphans _ _ Hinv) as Ho. clear -Ho. set_solver.
    - intros h. case_decide as H; [by apply elem_of_nil in H|done]. }
  destruct (cache c !! x) as [cert|] eqn:E; simpl.
  - pose proof (ix_consistent _ _ Hinv _ _ E) as Hcons.
    pose proof (ix_hash _ _ Hinv _ _ E) as Hh.
    destruct (IH (O ∖ {[hash cert]}) (removeCertificate cert c)) as (H1 & H2 & H3);
      [by apply removeCertificate_index|].
    split; [|split; [done|]].
    + eapply index_inv_shrink; [exact H1|].
      assert (hash cert ∉ dom (cache (Remove hashes (removeCertificate cert c)))) as Hnd.
      { apply not_elem_of_dom. rewrite H3. case_decide; [done|]. simpl. by rewrite lookup_delete_eq. }
      clear -Hnd. unfold Remove in *. set_solver.
    + intros h. unfold Remove in H3. rewrite H3. simpl.
      rewrite Hh, lookup_delete.
      assert (h ∈ x :: hashes ↔ h = x ∨ h ∈ hashes) by apply elem_of_cons.
      destruct (decide (h ∈ hashes)), (decide (h ∈ x :: hashes)), (decide (x = h));
        subst; first [done|exfalso; naive_solver].
  - rewrite (removeCertificate_zero O) by done.
    destruct (IH O c Hinv) as (H1 & H2 & H3). split; [done|]. split; [done|].
    intros h. unfold Remove in H3. rewrite H3.
    assert (h ∈ x :: hashes ↔ h = x ∨ h ∈ hashes) by apply elem_of_cons.
    destruct (decide (h ∈ hashes)), (decide (h ∈ x :: hashes)); try done; [exfalso; tauto|].
    assert (h = x) as -> by tauto. done.
Qed.

Lemma Remove_spec hashes c :
  cache_inv c →
  cache_inv (Remove hashes c) ∧ options (Remove hashes c) = options c ∧
  ∀ h, cache (Remove hashes c) !! h = if decide (h ∈ hashes) then None else cache c !! h.
Proof.
  intros (H1 & H2 & H3)%index_inv_empty%(Remove_index_spec _ hashes). split; [|done].
  apply index_inv_empty. eapply index_inv_shrink; [done|]. set_solver.
Qed.

Lemma getAllMatchingCerts_elem c n cert :
  cache_inv c →
  cert ∈ getAllMatchingCerts c n ↔ cache c !! hash cert = Some cert ∧ n ∈ Names cert.
Proof.
  intros Hinv. unfold getAllMatchingCerts. rewrite list_elem_of_In, in_map_iff. split.
  - intros (h & Hh & Hin%list_elem_of_In).
    apply (inv_index _ Hinv) in Hin as (cert' & Hc & Hn).
    rewrite Hc in Hh. simpl in Hh. subst cert'.
    by rewrite (inv_hash _ Hinv _ _ Hc).
  - intros [Hc Hn]. exists (hash cert). rewrite Hc. split; [done|].
    apply list_elem_of_In, (inv_index _ Hinv). eauto.
Qed.

Lemma deleteQueue_inner subj certs q h :
  h ∈ foldl (λ q cert, if negb (managed cert) then q
                       else if (IssuerKey subj =? "") || (issuerKey cert =? IssuerKey subj)
                       then (q ++ [hash cert])%list else q) q certs ↔
  h ∈ q ∨ ∃ cert, cert ∈ certs ∧ removal_selected subj cert = true ∧ hash cert = h.
Proof.
  revert q. induction certs as [|cert certs IH]; intros q; cbn [foldl].
  - split; [by left|]. intros [|(cert & H%elem_of_nil & _)]; done.
  - rewrite IH. setoid_rewrite elem_of_cons.
    assert (h ∈ (if negb (managed cert) then q
                 else if (IssuerKey subj =? "") || (issuerKey cert =? IssuerKey subj)
                 then (q ++ [hash cert])%list else q) ↔
            h ∈ q ∨ (removal_selected subj cert = true ∧ hash cert = h)) as ->.
    { unfold removal_selected.
      destruct (managed cert), ((IssuerKey subj =? "") || (issuerKey cert =? IssuerKey subj));
        simpl; rewrite ?elem_of_app, ?list_elem_of_singleton; naive_solver. }
    naive_solver.
Qed.

Lemma deleteQueue_outer subjects c q h :
  h ∈ foldl (λ q subj,
           foldl (λ q cert, if negb (managed cert) then q
                            else if (IssuerKey subj =? "") || (issuerKey cert =? IssuerKey subj)
                            then (q ++ [hash cert])%list else q)
                 q (getAllMatchingCerts c (Subject subj))) q subjects ↔
  h ∈ q ∨ ∃ subj cert, subj ∈ subjects ∧ cert ∈ getAllMatchingCerts c (Subject subj) ∧
                       removal_selected subj cert = true ∧ hash cert = h.
Proof.
  revert q. induction subjects as [|subj subjects IH]; intros q; cbn [foldl].
  - split; [by left|]. intros [|(s & ? & H%elem_of_nil & _)]; done.
  - rewrite IH, deleteQueue_inner. setoid_rewrite elem_of_cons. naive_solver.
Qed.

(** ** Executions *)

(** One call of a method, under the lock; [replaceCertificate] is a removal and
    an insertion. *)
Inductive method_step (c : Cache) : Cache → Prop :=
| step_cacheCertificate order rnd cert :
    consistent cert → (atCapacity c = true → valid_choice order rnd c) →
    method_step c (cacheCertificate order rnd cert c)
| step_removeCertificate cert :
    consistent cert → method_step c (removeCertificate cert c)
| step_Remove hashes : method_step c (Remove hashes c)
| step_RemoveManaged subjects : method_step c (RemoveManaged subjects c)
| step_updateCached h f :
    (∀ cert, hash (f cert) = hash cert ∧ Names (f cert) = Names cert) →
    method_step c (updateCached h f c).

Lemma replaceCertificate_steps order rnd oldCert newCert c :
  consistent oldCert → consistent newCert →
  (atCapacity (removeCertificate oldCert c) = true →
   valid_choice order rnd (removeCertificate oldCert c)) →
  rtc method_step c (replaceCertificate order rnd oldCert newCert c).
Proof.
  intros Ho Hn Hch. eapply rtc_l; [exact (step_removeCertificate _ oldCert Ho)|]. apply rtc_once.
  exact (step_cacheCertificate _ order rnd newCert Hn Hch).
Qed.

(** A cache with what its past explains: the certificates that were written
    back after they had left it, as long as they stay, and the size that it had
    when its options were last set or such a certificate came back. *)
Record history := MkHistory { now_cache : Cache; orphans : gset string; limit : Z }.

Inductive cache_step (s : history) : history → Prop :=
| by_method c' :
    method_step (now_cache s) c' →
    cache_step s (MkHistory c' (orphans s ∩ dom (cache c')) (limit s))
| by_SetOptions opts :
    cache_step s (MkHistory (SetOptions opts (now_cache s)) (orphans s)
      (Z.max (Capacity opts) (Z.of_nat (size (cache (now_cache s))))))
| by_writeBack cert :
    consistent cert →
    cache_step s
      (if decide (is_Some (cache (now_cache s) !! hash cert))
       then MkHistory (writeBack cert (now_cache s)) (orphans s) (limit s)
       else MkHistory (writeBack cert (now_cache s)) ({[hash cert]} ∪ orphans s)
              (Z.max (limit s) (Z.of_nat (S (size (cache (now_cache s))))))).

Definition new_history (c : Cache) : history := MkHistory c ∅ (Capacity (options c)).

(** The states in which a cache created by [NewCache] has no certificate that
    was written back after it had left. *)
Definition reachable (c : Cache) : Prop :=
  ∃ opts c0 s, NewCache opts = Some c0 ∧ rtc cache_step (new_history c0) s ∧ now_cache s = c ∧ orphans s = ∅.

Lemma bounded_by_size L c c' :
  options c' = options c → (size (cache c') ≤ size (cache c))%nat → bounded_by L c → bounded_by L c'.
Proof. unfold bounded_by. intros -> Hs H Hpos. specialize (H Hpos). lia. Qed.

Lemma removeCertificate_size cert c : (size (cache (removeCertificate cert c)) ≤ size (cache c))%nat.
Proof.
  simpl. destruct (cache c !! hash cert) eqn:E; [rewrite map_size_delete_Some by eauto; lia|]. by rewrite delete_id.
Qed.

Lemma Remove_size hashes c :
  (size (cache (Remove hashes c)) ≤ size (cache c))%nat ∧ options (Remove hashes c) = options c.
Proof.
  revert c. induction hashes as [|h hashes IH]; intros c; [done|].
  unfold Remove. cbn [foldl]. set (cert := default _ _).
  destruct (IH (removeCertificate cert c)) as [H1 H2]. unfold Remove in *.
  pose proof (removeCertificate_size cert c). split; [lia|done].
Qed.

Lemma updateCached_size h f c :
  size (cache (updateCached h f c)) = size (cache c) ∧ options (updateCached h f c) = options c.
Proof. unfold updateCached. destruct (cache c !! h) eqn:E; [|done]. simpl. by rewrite map_size_insert_Some by eauto. Qed.

Lemma method_step_index O L c c' :
  method_step c c' → index_inv O c → bounded_by L c →
  index_inv (O ∩ dom (cache c')) c' ∧ bounded_by L c'.
Proof.
  intros Hs Hinv Hb. destruct Hs as [order rnd cert Hc Hch|cert Hc|hashes|subjects|h f Hf].
  - split; [by apply unsyncedCacheCertificate_index|by eapply unsyncedCacheCertificate_bounded].
  - split; [|eapply bounded_by_size, Hb; [done|apply removeCertificate_size]].
    eapply index_inv_shrink; [by apply removeCertificate_index|]. simpl. rewrite dom_delete_L.
    pose proof (ix_orphans _ _ Hinv) as Ho. clear -Ho. set_solver.
  - split; [by apply Remove_index_spec|eapply bounded_by_size, Hb; apply Remove_size].
  - split; [by apply Remove_index_spec|eapply bounded_by_size, Hb; apply Remove_size].
  - destruct (updateCached_size h f c) as [H1 H2].
    split; [|eapply bounded_by_size, Hb; [done|lia]]. eapply index_inv_shrink; [by apply updateCached_index|].
    pose proof (ix_orphans _ _ (updateCached_index O h f c Hf Hinv)) as Ho. clear -Ho. set_solver.
Qed.

Lemma method_step_inv c c' : method_step c c' → cache_inv c → cache_inv c'.
Proof.
  intros Hs Hinv%index_inv_empty. apply index_inv_empty.
  apply (method_step_index ∅ (Z.max (Capacity (options c)) (Z.of_nat (size (cache c))))) in Hs as [H _];
    [|done|unfold bounded_by; lia]. eapply index_inv_shrink; [done|]. set_solver.
Qed.

Lemma method_steps_inv c c' : rtc method_step c c' → cache_inv c → cache_inv c'.
Proof. induction 1; eauto using method_step_inv. Qed.

Definition history_ok (s : history) : Prop :=
  index_inv (orphans s) (now_cache s) ∧ bounded_by (limit s) (now_cache s).

Lemma cache_step_ok s s' : cache_step s s' → history_ok s → history_ok s'.
Proof.
  intros Hs [Hinv Hb]. destruct Hs as [c' Hm|opts|cert Hc].
  - by apply (method_step_index (orphans s) (limit s)) in Hm.
  - split; [|unfold bounded_by; simpl; lia]. by destruct Hinv; split.
  - pose proof (writeBack_index _ _ _ Hc Hinv) as H. unfold history_ok.
    case_decide as Hd; simpl; (split; [done|]).
    + eapply bounded_by_size, Hb; [done|]. simpl. rewrite map_size_insert_Some; [done|].
      destruct Hd as [x Hx]. by rewrite Hx.
    + unfold bounded_by in *. simpl. rewrite map_size_insert_None by (by apply eq_None_not_Some). lia.
Qed.

Lemma history_reachable_ok opts c0 s :
  NewCache opts = Some c0 → rtc cache_step (new_history c0) s → history_ok s.
Proof.
  intros H0%NewCache_index Hs. assert (history_ok (new_history c0)) as H by done. clear H0.
  induction Hs; eauto using cache_step_ok.
Qed.

Lemma reachable_cache_inv c : reachable c → cache_inv c.
Proof.
  intros (opts & c0 & s & H0 & Hs & <- & Ho). destruct (history_reachable_ok _ _ _ H0 Hs) as [Hi _].
  rewrite Ho in Hi. by apply index_inv_empty.
Qed.

Lemma reachable_method c c' : reachable c → method_step c c' → reachable c'.
Proof.
  intros (opts & c0 & s & H0 & Hs & <- & Ho) Hm. eexists opts, c0, _.
  split; [done|]. split; [eapply rtc_r; [done|by apply by_method]|]. split; [done|]. simpl. rewrite Ho. set_solver.
Qed.

Lemma reachable_methods c c' : reachable c → rtc method_step c c' → reachable c'.
Proof. intros Hr. induction 1; eauto using reachable_method. Qed.

(** A cache whose index is right but for the certificates written back. *)
Definition indexed (c : Cache) : Prop := ∃ O, index_inv O c.

(** What a goroutine does to the cache: a sequence of the steps above, whatever
    the past of the cache. *)
Definition evolves (c c' : Cache) : Prop :=
  ∀ s, now_cache s = c → ∃ s', rtc cache_step s s' ∧ now_cache s' = c'.

Lemma evolves_refl c : evolves c c.
Proof. intros s Hs. exists s. split; [apply rtc_refl|done]. Qed.
Lemma evolves_trans c1 c2 c3 : evolves c1 c2 → evolves c2 c3 → evolves c1 c3.
Proof.
  intros H1 H2 s Hs. destruct (H1 s Hs) as (s1 & Hr1 & Hc1), (H2 s1 Hc1) as (s2 & Hr2 & Hc2).
  exists s2. split; [by etrans|done].
Qed.
Lemma evolves_method c c' : method_step c c' → evolves c c'.
Proof. intros Hm s <-. eexists. split; [by apply rtc_once, by_method|done]. Qed.
Lemma evolves_methods c c' : rtc method_step c c' → evolves c c'.
Proof. induction 1; eauto using evolves_refl, evolves_trans, evolves_method. Qed.
Lemma evolves_SetOptions opts c : evolves c (SetOptions opts c).
Proof. intros s <-. eexists. split; [by apply rtc_once, by_SetOptions|done]. Qed.
Lemma evolves_writeBack cert c : consistent cert → evolves c (writeBack cert c).
Proof.
  intros Hc s <-. eexists. split; [by apply rtc_once, (by_writeBack s cert)|]. by case_decide.
Qed.

Lemma history_runs_ok s s' : rtc cache_step s s' → history_ok s → history_ok s'.
Proof. induction 1; eauto using cache_step_ok. Qed.

Lemma indexed_evolves c c' : indexed c → evolves c c' → indexed c'.
Proof.
  intros [O HO] He.
  destruct (He (MkHistory c O (Z.max (Capacity (options c)) (Z.of_nat (size (cache c))))) eq_refl)
    as (s' & Hr & <-).
  destruct (history_runs_ok _ _ Hr) as [Hi _]; [|by exists (orphans s')].
  split; [done|]. unfold bounded_by. simpl. lia.
Qed.

Lemma cache_inv_indexed c : cache_inv c → indexed c.
Proof. intros H. exists ∅. by apply index_inv_empty. Qed.
Lemma indexed_consistent c h cert : indexed c → cache c !! h = Some cert → consistent cert ∧ hash cert = h.
Proof. intros [O HO] Hc. split; [by eapply ix_consistent|by eapply ix_hash]. Qed.

Lemma getAllMatchingCerts_consistent c n cert :
  indexed c → cert ∈ getAllMatchingCerts c n → consistent cert.
Proof.
  intros [O HO]. unfold getAllMatchingCerts. rewrite list_elem_of_In, in_map_iff.
  intros (h & Hh & Hin%list_elem_of_In). apply (ix_index _ _ HO) in Hin as (_ & cert' & Hc & _).
  rewrite Hc in Hh. simpl in Hh. subst cert'. by eapply ix_consistent.
Qed.

(** ** Theorems *)

(** (C7) Whatever sequence of insertions, evictions, replacements, removals,
    updates, changes of the options and certificates written back by handshakes
    a cache goes through, the name index and the certificate map agree: a hash
    is listed under a name exactly when the certificate it keys is cached and
    has that name, and no name has an empty list. The exceptions are the
    certificates that a handshake wrote back after they had left the cache:
    until they leave again they are in the cache and in no list of the index.
    With a capacity, the cache has no more certificates than that, or than it
    had when the options were set or such a certificate came back. *)
Theorem cache_index_consistent opts c0 s :
  NewCache opts = Some c0 → rtc cache_step (new_history c0) s →
  index_inv (orphans s) (now_cache s) ∧ bounded_by (limit s) (now_cache s).
Proof. apply history_reachable_ok. Qed.

(** A lookup by exact name returns exactly the cached certificates that
    carry the name; in particular it never returns the empty certificate
    that a dangling hash would read as. *)
Theorem getAllMatchingCerts_exact c n cert :
  reachable c →
  cert ∈ getAllMatchingCerts c n ↔ cache c !! hash cert = Some cert ∧ n ∈ Names cert.
Proof. intros Hr. by apply getAllMatchingCerts_elem, reachable_cache_inv. Qed.

Lemma AllMatchingCertificates_foldl c cands acc cert :
  cert ∈ foldl (λ certs candidate, (certs ++ getAllMatchingCerts c candidate)%list) acc cands ↔
  cert ∈ acc ∨ ∃ cand, cand ∈ cands ∧ cert ∈ getAllMatchingCerts c cand.
Proof.
  revert acc. induction cands as [|x cands IH]; intros acc; cbn [foldl].
  - split; [by left|]. intros [|(? & H%elem_of_nil & _)]; done.
  - rewrite IH, elem_of_app. setoid_rewrite elem_of_cons. naive_solver.
Qed.

(** [AllMatchingCertificates] returns the cached certificates that can
    serve a name: for a normalized name it returns exactly those that carry
    some name the wildcard rules ([MatchWildcard]) accept for it. *)
Theorem AllMatchingCertificates_wildcard c name cert :
  reachable c →
  ToLower name = name → Forall (λ l, l ≠ "") (Split name ".") →
  Forall (λ n, ToLower n = n) (Names cert) →
  cert ∈ AllMatchingCertificates c name ↔
  cache c !! hash cert = Some cert ∧
  ∃ n, n ∈ Names cert ∧ MatchWildcard name n = true.
Proof.
  intros Hr%reachable_cache_inv Hlow HF Hnames. unfold AllMatchingCertificates.
  rewrite AllMatchingCertificates_foldl.
  setoid_rewrite (getAllMatchingCerts_elem c _ cert Hr).
  assert (∀ n, n ∈ Names cert →
    MatchWildcard name n = true ↔ n = name ∨ n ∈ wildcard_candidates name) as Hm.
  { intros n Hn. rewrite MatchWildcard_candidates_lower by done.
    rewrite Forall_forall in Hnames. by rewrite (Hnames n Hn). }
  split.
  - intros [[Hc Hin]|(n & Hcand & Hc & Hin)]; (split; [done|]).
    + exists name. split; [done|]. apply Hm; auto.
    + exists n. split; [done|]. apply Hm; auto.
  - intros (Hc & n & Hin & HM). apply Hm in HM as [->|Hcand]; [by left|by right; eauto|done].
Qed.

(** Caching a certificate that was not cached makes it available under
    each of its names; at most one other certificate leaves the cache, and
    only when the cache was full. *)
Theorem cacheCertificate_new order rnd cert c :
  reachable c → consistent cert → cache c !! hash cert = None →
  (atCapacity c = true → valid_choice order rnd c) →
  let c' := cacheCertificate order rnd cert c in
  (∀ n, n ∈ Names cert → cert ∈ getAllMatchingCerts c' n) ∧
  ∃ victims, (∀ h, h ≠ hash cert → h ∉ victims → cache c' !! h = cache c !! h) ∧
             (length victims ≤ if atCapacity c then 1 else 0)%nat.
Proof.
  intros Hr%reachable_cache_inv Hcons Hnone Hch c'.
  pose proof (unsyncedCacheCertificate_inv order rnd cert c Hcons Hch Hr) as Hinv'.
  destruct (unsyncedCacheCertificate_cases order rnd cert c Hch Hr)
    as [ex E _|_ Hcap Hc'|v _ Hcap Hv _ Hc']; [congruence|..].
  all: unfold c', cacheCertificate in *; rewrite Hc' in *; split;
    [intros n Hn; apply getAllMatchingCerts_elem; [done|]; simpl;
     by rewrite lookup_insert_eq|].
  - exists []. simpl. split; [|lia]. intros h Hne _. by rewrite lookup_insert_ne.
  - exists [hash v]. rewrite Hcap. simpl. split; [|lia]. intros h Hne Hv'.
    rewrite lookup_insert_ne by done. apply lookup_delete_ne. intros E. apply Hv'. rewrite <-E. by left.
Qed.

(** [RemoveManaged] removes exactly the managed certificates that have
    one of the subjects, and where an issuer is given with the subject, come
    from that issuer; every other certificate stays cached unchanged. *)
Theorem RemoveManaged_exact subjects c cert :
  reachable c →
  cache (RemoveManaged subjects c) !! hash cert = Some cert ↔
  cache c !! hash cert = Some cert ∧
  ∀ subj, subj ∈ subjects → Subject subj ∈ Names cert →
          removal_selected subj cert = false.
Proof.
  intros Hr%reachable_cache_inv. unfold RemoveManaged.
  destruct (Remove_spec
    (foldl (λ q subj,
           foldl (λ q cert, if negb (managed cert) then q
                            else if (IssuerKey subj =? "") || (issuerKey cert =? IssuerKey subj)
                            then (q ++ [hash cert])%list else q)
                 q (getAllMatchingCerts c (Subject subj))) [] subjects) c Hr)
    as (_ & _ & ->).
  case_decide as Hd; rewrite deleteQueue_outer in Hd.
  - split; [done|]. intros [Hc Hno]. destruct Hd as [H%elem_of_nil|Hd]; [done|].
    destruct Hd as (subj & cert' & Hs & Hin & Hsel & Hh).
    apply getAllMatchingCerts_elem in Hin as [Hc' Hn]; [|done].
    assert (cert' = cert) as -> by congruence.
    by rewrite (Hno subj Hs Hn) in Hsel.
  - split; [|tauto]. intros Hc. split; [done|]. intros subj Hs Hn.
    apply not_true_iff_false. intros Hsel. apply Hd. right.
    exists subj, cert. rewrite getAllMatchingCerts_elem by done. done.
Qed.

(** Replacing a certificate is atomic for lookups: afterwards the new
    certificate is found under each of its names, and the old one, if its
    hash differs, under none. *)
Theorem replaceCertificate_spec order rnd oldCert newCert c :
  reachable c → consistent oldCert → consistent newCert →
  hash newCert ≠ hash oldCert → cache c !! hash newCert = None →
  (atCapacity (removeCertificate oldCert c) = true →
   valid_choice order rnd (removeCertificate oldCert c)) →
  let c' := replaceCertificate order rnd oldCert newCert c in
  (∀ n, n ∈ Names newCert → newCert ∈ getAllMatchingCerts c' n) ∧
  (∀ n cert, hash cert = hash oldCert → cert ∉ getAllMatchingCerts c' n).
Proof.
  intros Hr%reachable_cache_inv Ho Hn Hne Hnone Hch c'.
  assert (cache_inv (removeCertificate oldCert c)) as Hinv
    by (by apply removeCertificate_inv).
  pose proof (unsyncedCacheCertificate_inv order rnd newCert _ Hn Hch Hinv) as Hinv'.
  assert (cache (removeCertificate oldCert c) !! hash newCert = None) as Hnone'.
  { simpl. by rewrite lookup_delete_ne by congruence. }
  unfold c', replaceCertificate.
  destruct (unsyncedCacheCertificate_cases order rnd newCert _ Hch Hinv)
    as [ex E _|_ Hcap Hc'|v _ Hcap Hv _ Hc']; [congruence|..].
  all: rewrite Hc' in *; split; intros *;
    rewrite getAllMatchingCerts_elem by done; simpl.
  all: try (intros Hin; by rewrite lookup_insert_eq).
  all: intros ->; rewrite lookup_insert_ne by done; intros [H _].
  - by rewrite lookup_delete_eq in H.
  - apply lookup_delete_Some in H as [_ H]. by rewrite lookup_delete_eq in H.
Qed.
End CacheInvariant.

(** ** Tags *)

Lemma HasTag_spec cert tag : HasTag cert tag = true ↔ tag ∈ Tags cert.
Proof.
  unfold HasTag. induction (Tags cert) as [|t ts IH]; simpl.
  - split; [done|]. by intros ?%elem_of_nil.
  - rewrite elem_of_cons. destruct (String.eqb_spec t tag) as [->|]; naive_solver.
Qed.

Lemma add_missing_tags_elem ex tags t :
  t ∈ Tags (add_missing_tags ex tags) ↔ t ∈ Tags ex ∨ t ∈ tags.
Proof.
  revert ex. induction tags as [|x tags IH]; intros ex; unfold add_missing_tags; cbn [foldl].
  - split; [by left|]. intros [|?%elem_of_nil]; done.
  - unfold add_missing_tags in IH. rewrite IH, elem_of_cons.
    destruct (HasTag ex x) eqn:E; simpl.
    + apply HasTag_spec in E. naive_solver.
    + rewrite elem_of_app, list_elem_of_singleton. naive_solver.
Qed.

Lemma add_missing_tags_NoDup ex tags :
  NoDup (Tags ex) → NoDup (Tags (add_missing_tags ex tags)).
Proof.
  revert ex. induction tags as [|x tags IH]; intros ex Hnd; [done|].
  unfold add_missing_tags. cbn [foldl]. apply IH. destruct (HasTag ex x) eqn:E; [done|].
  simpl. apply NoDup_app. split; [done|]. split; [|apply NoDup_singleton].
  intros y Hy ->%list_elem_of_singleton. apply HasTag_spec in Hy. congruence.
Qed.

(** Caching a certificate whose hash is already cached keeps the cached
    one and only adds the tags it was missing, without duplicates: the index,
    the other certificates and every other field stay as they were. *)
Theorem cacheCertificate_existing order rnd cert existing c :
  cache c !! hash cert = Some existing →
  let c' := cacheCertificate order rnd cert c in
  ∃ merged,
    cache c' = <[hash cert := merged]> (cache c) ∧ cacheIndex c' = cacheIndex c ∧
    (∀ t, t ∈ Tags merged ↔ t ∈ Tags existing ∨ t ∈ Tags cert) ∧
    (NoDup (Tags existing) → NoDup (Tags merged)) ∧
    with_Tags (Tags existing) merged = existing.
Proof.
  intros E c'. exists (add_missing_tags existing (Tags cert)).
  assert (∀ ts ex, with_Tags (Tags ex) (add_missing_tags ex ts) = ex) as Hfields.
  { intros ts. assert (∀ ex x, with_Tags x (add_missing_tags ex ts) = with_Tags x ex) as H.
    { induction ts as [|t ts IH]; intros ex x; [done|]. unfold add_missing_tags. cbn [foldl].
      unfold add_missing_tags in IH. rewrite IH. by destruct (HasTag ex t). }
    intros ex. rewrite H. by destruct ex. }
  unfold c', cacheCertificate, unsyncedCacheCertificate. rewrite E.
  split; [|split; [by destruct (Tags cert)|]].
  - destruct (Tags cert); simpl; [|done]. symmetry. by apply insert_id.
  - split; [intros; apply add_missing_tags_elem|].
    split; [apply add_missing_tags_NoDup|apply Hfields].
Qed.

(** ** A cache of capacity one *)

Definition ex_names (h : string) : list string :=
  if h =? "h1" then ["a.com"] else if h =? "h2" then ["*.b.com"] else [].
Definition ex_cert (h : string) : Certificate :=
  MkCertificate (MkTLSCertificate [h] "" (Some ex_leaf)) (ex_names h) [] None h true "acme"
    zeroRenewalInfo.
Definition ex_options : CacheOptions := MkCacheOptions true (1 * Hour) (10 * Minute) 1.
Definition ex_empty : Cache := MkCache ex_options ∅ ∅.
Definition ex_cache : Cache := cacheCertificate [] 0 (ex_cert "h1") ex_empty.

Lemma ex_consistent h : h ≠ "" → consistent ex_names (ex_cert h).
Proof. by split. Qed.

Lemma ex_step : method_step ex_names ex_empty ex_cache.
Proof. apply step_cacheCertificate; [by apply ex_consistent|]. vm_compute. discriminate. Qed.

Lemma ex_reachable : reachable ex_names ex_cache.
Proof.
  eexists ex_options, ex_empty, _. split; [reflexivity|]. split; [apply rtc_once, by_method, ex_step|].
  split; [done|]. set_solver.
Qed.

Example ex_evicts :
  getAllMatchingCerts (cacheCertificate [ex_cert "h1"] 0 (ex_cert "h2") ex_cache) "a.com" = [] ∧
  AllMatchingCertificates (cacheCertificate [ex_cert "h1"] 0 (ex_cert "h2") ex_cache) "x.b.com"
  = [ex_cert "h2"].
Proof. vm_compute. auto. Qed.

Lemma ex_valid_choice : valid_choice [ex_cert "h1"] 0 ex_cache.
Proof. split; vm_compute; [reflexivity|lia]. Qed.

(** The certificate leaves the full cache for another one, and a handshake
    writes it back. *)
Definition ex_before : history := MkHistory ex_cache (∅ ∩ dom (cache ex_cache)) 1.
Definition ex_evicted : Cache := cacheCertificate [ex_cert "h1"] 0 (ex_cert "h2") ex_cache.
Definition ex_after : history := MkHistory ex_evicted (orphans ex_before ∩ dom (cache ex_evicted)) 1.
Definition ex_orphaned : history := MkHistory (writeBack (ex_cert "h1") ex_evicted) ({["h1"]} ∪ orphans ex_after) 2.

Lemma cache_index_consistent_witness :
  index_inv ex_names (orphans ex_orphaned) (now_cache ex_orphaned) ∧ bounded_by 2 (now_cache ex_orphaned) ∧
  size (cache (now_cache ex_orphaned)) = 2%nat ∧ "h1" ∈ orphans ex_orphaned.
Proof.
  destruct (cache_index_consistent ex_names ex_options ex_empty ex_orphaned eq_refl) as [H1 H2].
  - eapply rtc_l; [exact (by_method _ (new_history ex_empty) _ ex_step)|].
    eapply rtc_l; [refine (by_method _ ex_before ex_evicted _);
      apply step_cacheCertificate; [by apply ex_consistent|intros _; exact ex_valid_choice]|].
    apply rtc_once. refine (by_writeBack _ ex_after (ex_cert "h1") _). by apply ex_consistent.
  - split; [exact H1|]. split; [exact H2|]. split; [vm_compute; reflexivity|set_solver].
Defined.

Lemma getAllMatchingCerts_exact_witness :
  ex_cert "h1" ∈ getAllMatchingCerts ex_cache "a.com" ↔
  cache ex_cache !! "h1" = Some (ex_cert "h1") ∧ "a.com" ∈ ["a.com"].
Proof.
  apply (getAllMatchingCerts_exact ex_names ex_cache "a.com" (ex_cert "h1")).
  exact ex_reachable.
Defined.

Lemma AllMatchingCertificates_wildcard_witness :
  ex_cert "h1" ∈ AllMatchingCertificates ex_cache "a.com" ↔
  cache ex_cache !! "h1" = Some (ex_cert "h1") ∧
  ∃ n, n ∈ ["a.com"] ∧ MatchWildcard "a.com" n = true.
Proof.
  apply (AllMatchingCertificates_wildcard ex_names ex_cache "a.com" (ex_cert "h1")).
  - exact ex_reachable.
  - reflexivity.
  - vm_compute. repeat constructor; discriminate.
  - vm_compute. repeat constructor.
Defined.

Lemma cacheCertificate_new_witness :
  let c' := cacheCertificate [ex_cert "h1"] 0 (ex_cert "h2") ex_cache in
  (∀ n, n ∈ ["*.b.com"] → ex_cert "h2" ∈ getAllMatchingCerts c' n) ∧
  ∃ victims, (∀ h, h ≠ "h2" → h ∉ victims → cache c' !! h = cache ex_cache !! h) ∧
             (length victims ≤ if atCapacity ex_cache then 1 else 0)%nat.
Proof.
  apply (cacheCertificate_new ex_names [ex_cert "h1"] 0 (ex_cert "h2") ex_cache).
  - exact ex_reachable.
  - by apply ex_consistent.
  - vm_compute. reflexivity.
  - intros _. exact ex_valid_choice.
Defined.

Lemma RemoveManaged_exact_witness :
  cache (RemoveManaged [MkSubjectIssuer "b.com" ""] ex_cache) !! "h1" = Some (ex_cert "h1") ↔
  cache ex_cache !! "h1" = Some (ex_cert "h1") ∧
  ∀ subj, subj ∈ [MkSubjectIssuer "b.com" ""] → Subject subj ∈ ["a.com"] →
          removal_selected subj (ex_cert "h1") = false.
Proof.
  apply (RemoveManaged_exact ex_names [MkSubjectIssuer "b.com" ""] ex_cache (ex_cert "h1")).
  exact ex_reachable.
Defined.

Lemma replaceCertificate_spec_witness :
  let c' := replaceCertificate [] 0 (ex_cert "h1") (ex_cert "h2") ex_cache in
  (∀ n, n ∈ ["*.b.com"] → ex_cert "h2" ∈ getAllMatchingCerts c' n) ∧
  (∀ n cert, hash cert = "h1" → cert ∉ getAllMatchingCerts c' n).
Proof.
  apply (replaceCertificate_spec ex_names [] 0 (ex_cert "h1") (ex_cert "h2") ex_cache).
  - exact ex_reachable.
  - by apply ex_consistent.
  - by apply ex_consistent.
  - discriminate.
  - vm_compute. reflexivity.
  - vm_compute. discriminate.
Defined.

Lemma cacheCertificate_existing_witness :
  let c' := cacheCertificate [] 0 (with_Tags ["t"] (ex_cert "h1")) ex_cache in
  ∃ merged,
    cache c' = <["h1" := merged]> (cache ex_cache) ∧ cacheIndex c' = cacheIndex ex_cache ∧
    (∀ t, t ∈ Tags merged ↔ t ∈ Tags (ex_cert "h1") ∨ t ∈ ["t"]) ∧
    (NoDup (Tags (ex_cert "h1")) → NoDup (Tags merged)) ∧
    with_Tags (Tags (ex_cert "h1")) merged = ex_cert "h1".
Proof.
  apply (cacheCertificate_existing [] 0 (with_Tags ["t"] (ex_cert "h1")) (ex_cert "h1") ex_cache).
  vm_compute. reflexivity.
Defined.
