(* ===== verification/RateLimiter.v ===== *)
(** * The ring buffer rate limiter (ratelimiter.go)

    The limiter keeps the times of the last [maxEvents] tickets in a ring. Its
    goroutine waits until the oldest of them is one window old before it hands
    out the next ticket. The methods are functions on the limiter's state; the
    goroutine [loop] with the calls of [permit] is a step relation with a
    clock. *)

From S2P Require Import Prelude.

(** ** State and methods *)

Record RingBufferRateLimiter := MkLimiter {
  window : Duration;
  ring : list Time;
  cursor : nat;
}.

(** [None] is a panic. *)
Definition NewRateLimiter (maxEvents : Z) (window : Duration) : option RingBufferRateLimiter :=
  if (maxEvents <? 0)%Z then None
  else if ((maxEvents =? 0) && negb (window =? 0))%Z then None
  else Some (MkLimiter window (replicate (Z.to_nat maxEvents) 0%Z) 0).

Definition MaxEvents (r : RingBufferRateLimiter) : nat := length (ring r).
Definition Window (r : RingBufferRateLimiter) : Duration := window r.

Definition advance (r : RingBufferRateLimiter) : RingBufferRateLimiter :=
  let cursor' := S (cursor r) in
  MkLimiter (window r) (ring r) (if (length (ring r) <=? cursor')%nat then 0%nat else cursor').

(** The state change of [permit] once a ticket was received at time [now]. *)
Definition permit_record (now : Time) (r : RingBufferRateLimiter) : RingBufferRateLimiter :=
  if (0 <? length (ring r))%nat
  then advance (MkLimiter (window r) (<[cursor r := now]> (ring r)) (cursor r))
  else r.

(** The loop that copies timestamps into the new ring, from index [i] on. *)
Fixpoint copy_loop (fuel i startCursor : nat) (r : RingBufferRateLimiter)
    (newRing : list Time) : list Time :=
  match fuel with
  | O => newRing
  | S fuel' =>
      let newRing := <[i := default 0%Z (ring r !! cursor r)]> newRing in
      let r := advance r in
      if (cursor r =? startCursor)%nat then newRing
      else copy_loop fuel' (S i) startCursor r newRing
  end.

Definition SetMaxEvents (maxEvents : Z) (r : RingBufferRateLimiter)
    : option RingBufferRateLimiter :=
  if (maxEvents <? 0)%Z then None (* make panics *)
  else
    let newRing := replicate (Z.to_nat maxEvents) 0%Z in
    if (negb (window r =? 0) && (maxEvents =? 0))%Z then None
    else if (maxEvents =? Z.of_nat (length (ring r)))%Z then Some r
    else
      let sizeDiff := (length (ring r) - Z.to_nat maxEvents)%nat in
      let r := Nat.iter sizeDiff advance r in
      let newRing :=
        if (0 <? length (ring r))%nat
        then copy_loop (length newRing) 0 (cursor r) r newRing
        else newRing in
      Some (MkLimiter (window r) newRing 0).

Definition SetWindow (w : Duration) (r : RingBufferRateLimiter) : option RingBufferRateLimiter :=
  if (negb (w =? 0)%Z && (length (ring r) =? 0)%nat) then None
  else Some (MkLimiter w (ring r) (cursor r)).

(** ** The goroutine *)

(** Where [loop] is: at the top, waiting for the timer to reach a time, in
    [permit] offering a ticket, or returned. *)
Inductive loop_pc := AtTop | Waiting (until : Time) | Permitting | Stopped.

(** [tickets] lists, oldest first, the time each ticket was received with the
    time [permit] then recorded. *)
Record loop_state := MkLoop {
  limiter : RingBufferRateLimiter;
  pc : loop_pc;
  clock : Time;
  tickets : list (Time * Time);
}.

Inductive loop_step : loop_state → loop_state → Prop :=
| step_tick r p t t' ts :
    (t ≤ t')%Z → loop_step (MkLoop r p t ts) (MkLoop r p t' ts)
| step_disabled r t ts :
    ring r = [] → window r = 0%Z →
    loop_step (MkLoop r AtTop t ts) (MkLoop r Permitting t ts)
| step_wait r t ts oldest :
    ring r !! cursor r = Some oldest →
    loop_step (MkLoop r AtTop t ts)
              (MkLoop r (Waiting (time_Add oldest (window r))) t ts)
| step_timer r until t ts :
    (until ≤ t)%Z →
    loop_step (MkLoop r (Waiting until) t ts) (MkLoop r Permitting t ts)
| step_ticket r t t' ts :
    (t ≤ t')%Z →
    loop_step (MkLoop r Permitting t ts)
              (MkLoop (permit_record t' r) AtTop t' (ts ++ [(t, t')]))
| step_stop r p t ts : loop_step (MkLoop r p t ts) (MkLoop r Stopped t ts).

(** ** Lemmas *)

Definition wf (r : RingBufferRateLimiter) : Prop :=
  (cursor r < length (ring r))%nat ∨ (ring r = [] ∧ cursor r = 0%nat).

(** The recorded times in the order the cursor visits them. *)
Definition contents (r : RingBufferRateLimiter) : list Time :=
  drop (cursor r) (ring r) ++ take (cursor r) (ring r).

#[global] Arguments contents : simpl never.

Lemma length_contents r : length (contents r) = length (ring r).
Proof. unfold contents. rewrite length_app, length_drop, length_take. lia. Qed.

Lemma contents_start w l : contents (MkLimiter w l 0) = l.
Proof. unfold contents. simpl. by rewrite drop_0, take_0, app_nil_r. Qed.

Lemma advance_wf r : wf r → wf (advance r).
Proof.
  unfold wf, advance. simpl. intros [H|[H H']].
  - left. destruct (Nat.leb_spec (length (ring r)) (S (cursor r))); lia.
  - right. rewrite H. auto.
Qed.

Lemma contents_lookup_0 r : wf r → contents r !! 0%nat = ring r !! cursor r.
Proof.
  unfold contents. intros [H|[-> _]]; [|by rewrite drop_nil, take_nil].
  rewrite lookup_app_l by (rewrite length_drop; lia).
  by rewrite lookup_drop, Nat.add_0_r.
Qed.

(** Advancing the cursor moves the first of the contents to the end. *)
Lemma contents_advance r x l :
  wf r → contents r = x :: l → contents (advance r) = l ++ [x].
Proof.
  intros Hwf E. pose proof (contents_lookup_0 r Hwf) as Hx. rewrite E in Hx.
  simpl in Hx. symmetry in Hx. pose proof (lookup_lt_Some _ _ _ Hx) as Hlt.
  unfold contents in *. rewrite (drop_S _ _ _ Hx) in E. simpl in E.
  injection E as <-. unfold advance. simpl.
  destruct (Nat.leb_spec (length (ring r)) (S (cursor r))) as [Hge|Hge].
  - rewrite drop_0, take_0, app_nil_r. rewrite (drop_ge (ring r) (S (cursor r))) by lia.
    simpl. by rewrite <-(take_S_r _ _ _ Hx), take_ge by lia.
  - by rewrite (take_S_r _ _ _ Hx), app_assoc.
Qed.

Lemma contents_cons r : wf r → ring r ≠ [] → ∃ x l, contents r = x :: l.
Proof.
  intros _ H. pose proof (length_contents r) as Hl.
  destruct (contents r) as [|x l]; [|eauto]. by destruct (ring r).
Qed.

Lemma iter_advance_contents n r :
  wf r → ring r ≠ [] → (n ≤ length (ring r))%nat →
  wf (Nat.iter n advance r) ∧ ring (Nat.iter n advance r) = ring r ∧
  window (Nat.iter n advance r) = window r ∧
  contents (Nat.iter n advance r) = drop n (contents r) ++ take n (contents r).
Proof.
  intros Hwf Hne. induction n as [|n IH]; intros Hn; simpl.
  - rewrite app_nil_r. auto.
  - destruct IH as (H1 & H2 & H3 & H4); [lia|].
    destruct (lookup_lt_is_Some_2 (contents r) n) as [x Hx]; [rewrite length_contents; lia|].
    rewrite (drop_S _ _ _ Hx) in H4. simpl in H4.
    split; [by apply advance_wf|]. split; [done|]. split; [done|].
    rewrite (contents_advance _ _ _ H1 H4), (take_S_r _ _ _ Hx). by rewrite app_assoc.
Qed.

(** Recording a ticket replaces the oldest time by the newest. *)
Lemma contents_permit now r x l :
  wf r → contents r = x :: l →
  wf (permit_record now r) ∧ contents (permit_record now r) = l ++ [now].
Proof.
  intros Hwf E. unfold permit_record.
  assert (length (ring r) ≠ 0)%nat as Hne.
  { rewrite <-length_contents, E. done. }
  destruct (Nat.ltb_spec 0 (length (ring r))); [|lia].
  destruct Hwf as [Hlt|[E0 _]]; [|by rewrite E0 in Hne].
  set (r' := MkLimiter _ _ _).
  assert (wf r') as Hwf' by (left; simpl; rewrite length_insert; done).
  assert (contents r' = now :: l) as E'.
  { unfold contents in *. simpl. rewrite take_insert_ge by lia.
    rewrite drop_insert_ge by lia. rewrite Nat.sub_diag.
    destruct (lookup_lt_is_Some_2 _ _ Hlt) as [y Hy].
    rewrite (drop_S _ _ _ Hy) in *. simpl in *. by injection E as _ <-. }
  split; [by apply advance_wf|by apply (contents_advance _ now l)].
Qed.

Lemma mod_succ a n :
  (0 < n)%nat →
  (S a mod n = if n <=? S (a mod n) then 0 else S (a mod n))%nat.
Proof.
  intros Hn. pose proof (Nat.mod_upper_bound a n ltac:(lia)).
  pose proof (Nat.div_mod_eq a n).
  destruct (Nat.leb_spec n (S (a mod n))); symmetry.
  - apply (Nat.mod_unique _ _ (S (a / n))); lia.
  - apply (Nat.mod_unique _ _ (a / n)); lia.
Qed.

Lemma iter_advance_cursor k r :
  (cursor r < length (ring r))%nat →
  cursor (Nat.iter k advance r) = ((cursor r + k) mod length (ring r))%nat ∧
  ring (Nat.iter k advance r) = ring r.
Proof.
  intros Hlt. induction k as [|k [IH1 IH2]]; simpl.
  - rewrite Nat.add_0_r, Nat.mod_small by done. done.
  - split; [|done]. rewrite IH1, IH2, Nat.add_succ_r, mod_succ by lia. done.
Qed.

(** The loop comes back to where it started after exactly one turn. *)
Lemma iter_advance_full_circle i r :
  (cursor r < length (ring r))%nat → (i < length (ring r))%nat →
  cursor (Nat.iter (S i) advance r) = cursor r ↔ S i = length (ring r).
Proof.
  intros Hc Hi. destruct (iter_advance_cursor (S i) r Hc) as [-> _].
  set (n := length (ring r)) in *. split.
  - destruct (decide (cursor r + S i < n)%nat).
    + rewrite Nat.mod_small by done. lia.
    + intros E. replace (cursor r + S i)%nat with ((cursor r + S i - n) + 1 * n)%nat in E by lia.
      rewrite Nat.Div0.mod_add, Nat.mod_small in E by lia. lia.
  - intros ->. replace (cursor r + n)%nat with (cursor r + 1 * n)%nat by lia.
    rewrite Nat.Div0.mod_add, Nat.mod_small; lia.
Qed.

Lemma iter_advance_slot i r :
  (cursor r < length (ring r))%nat → (i < length (ring r))%nat →
  ring r !! cursor (Nat.iter i advance r) = contents r !! i.
Proof.
  intros Hc Hi.
  destruct (iter_advance_contents i r) as (Hwf & Hr & _ & E); [by left| |lia|].
  { intros E. rewrite E in Hi. simpl in Hi. lia. }
  rewrite <-Hr, <-contents_lookup_0, E by done.
  rewrite lookup_app_l by (rewrite length_drop, length_contents; lia).
  by rewrite lookup_drop, Nat.add_0_r.
Qed.

(** The copy loop fills the new ring with the contents, as far as either
    goes. *)
Lemma copy_loop_spec fuel i r newRing :
  (cursor r < length (ring r))%nat → (i < length (ring r))%nat →
  (i + fuel = length newRing)%nat →
  copy_loop fuel i (cursor r) (Nat.iter i advance r) newRing =
  take i newRing ++ take fuel (drop i (contents r)) ++ drop (length (ring r)) newRing.
Proof.
  intros Hc. revert i newRing. induction fuel as [|fuel IH]; intros i newRing Hi Hl.
  - simpl. rewrite take_ge, drop_ge, app_nil_r by lia. done.
  - destruct (lookup_lt_is_Some_2 (contents r) i) as [x Hx]; [rewrite length_contents; lia|].
    cbn [copy_loop]. destruct (iter_advance_cursor i r Hc) as [_ Hring].
    rewrite Hring, iter_advance_slot, Hx by done.
    change (default 0%Z (Some x)) with x.
    change (advance (Nat.iter i advance r)) with (Nat.iter (S i) advance r).
    set (newRing' := <[i:=x]> newRing).
    assert (take (S i) newRing' = take i newRing ++ [x]) as Ht.
    { rewrite (take_S_r _ _ x) by (apply list_lookup_insert_eq; lia).
      unfold newRing'. by rewrite take_insert_ge by lia. }
    rewrite (drop_S _ _ _ Hx). cbn [take].
    destruct (Nat.eqb_spec (cursor (Nat.iter (S i) advance r)) (cursor r)) as [E|E].
    + apply iter_advance_full_circle in E; [|done..].
      rewrite (drop_ge (contents r)) by (rewrite length_contents; lia).
      rewrite take_nil. simpl app. rewrite <-E.
      rewrite <-(take_drop (S i) newRing'), Ht, <-app_assoc. unfold newRing'.
      by rewrite drop_insert_lt by lia.
    + rewrite iter_advance_full_circle in E by done.
      rewrite IH; [|lia|unfold newRing'; rewrite length_insert; lia].
      rewrite Ht, <-app_assoc. unfold newRing'. by rewrite drop_insert_lt by lia.
Qed.

(** ** Theorems on the settings *)

Lemma SetMaxEvents_contents_aux (m : Z) (r r' : RingBufferRateLimiter) :
  wf r → SetMaxEvents m r = Some r' →
  wf r' ∧ window r' = window r ∧ MaxEvents r' = Z.to_nat m ∧
  contents r' = drop (length (ring r) - Z.to_nat m) (contents r) ++
                replicate (Z.to_nat m - length (ring r)) 0%Z.
Proof.
  intros Hwf. unfold SetMaxEvents, MaxEvents.
  destruct (Z.ltb_spec m 0) as [|Hm]; [done|].
  destruct (negb (window r =? 0)%Z && (m =? 0)%Z); [done|].
  destruct (Z.eqb_spec m (Z.of_nat (length (ring r)))) as [->|Hne].
  { intros [= <-]. rewrite Nat2Z.id, Nat.sub_diag, drop_0, app_nil_r. auto. }
  set (k := Z.to_nat m). assert (k ≠ length (ring r)) as Hk by (unfold k; lia).
  intros [= <-]. simpl. rewrite length_replicate.
  destruct (decide (ring r = [])) as [E|E].
  { assert (ring (Nat.iter (length (ring r) - k) advance r) = []) as ->.
    { by rewrite E. }
    assert (contents r = []) as -> by (unfold contents; by rewrite E, drop_nil, take_nil).
    rewrite E. simpl. rewrite ?length_replicate, ?Nat.sub_0_r.
    rewrite contents_start. unfold wf. simpl. rewrite length_replicate.
    split; [|by auto]. rewrite E in Hk. simpl in Hk. left. lia. }
  destruct Hwf as [Hc|[? _]]; [|done].
  destruct (iter_advance_contents (length (ring r) - k) r) as (H1 & H2 & H3 & H4);
    [by left|done|lia|].
  rewrite H2, H3. destruct (Nat.ltb_spec 0 (length (ring r))); [|lia].
  set (r1 := Nat.iter (length (ring r) - k) advance r) in *.
  destruct H1 as [Hc1|[H1 _]]; [|by rewrite H2 in H1].
  pose proof (copy_loop_spec k 0 r1 (replicate k 0%Z) Hc1) as Hcopy.
  rewrite H2 in Hcopy. specialize (Hcopy ltac:(lia) ltac:(by rewrite length_replicate)).
  simpl Nat.iter in Hcopy. rewrite Hcopy, take_0, drop_0, drop_replicate. simpl app.
  assert (take k (contents r1) = drop (length (ring r) - k) (contents r)) as ->.
  { rewrite H4. destruct (decide (k ≤ length (ring r))%nat).
    - apply take_app_length'. rewrite length_drop, length_contents. lia.
    - replace (length (ring r) - k)%nat with 0%nat by lia.
      rewrite drop_0, take_0, app_nil_r. apply take_ge. rewrite length_contents. lia. }
  assert (length (drop (length (ring r) - k) (contents r) ++
                  replicate (k - length (ring r)) 0%Z) = k) as Hlen.
  { rewrite length_app, length_drop, length_replicate, length_contents. lia. }
  rewrite contents_start.
  split; [|done]. unfold wf. cbn [ring cursor]. rewrite Hlen.
  destruct (decide (k = 0%nat)) as [Hk0|]; [right|left; lia].
  split; [|done]. apply length_zero_iff_nil. by rewrite Hlen.
Qed.

(** Lowering the event limit forgets the oldest times and keeps the newest
    ones in order; raising it keeps every recorded time. In both cases the
    window is kept, the cursor is in range and the first of the kept times is
    the next to expire. *)
Theorem SetMaxEvents_contents (m : Z) (r r' : RingBufferRateLimiter) :
  wf r → SetMaxEvents m r = Some r' →
  wf r' ∧ window r' = window r ∧ MaxEvents r' = Z.to_nat m ∧
  contents r' = drop (length (ring r) - Z.to_nat m) (contents r) ++
                replicate (Z.to_nat m - length (ring r)) 0%Z.
Proof. apply SetMaxEvents_contents_aux. Qed.

(** Raising the event limit gives no immediate capacity: the slot the
    limiter waits for next is the same as before the change, so the next
    ticket is not handed out any earlier. (The unused slots come after all
    the recorded times.) *)
Theorem SetMaxEvents_grow_next_slot (m : Z) (r r' : RingBufferRateLimiter) :
  wf r → ring r ≠ [] → (Z.of_nat (length (ring r)) < m)%Z →
  SetMaxEvents m r = Some r' →
  ring r' !! cursor r' = ring r !! cursor r.
Proof.
  intros Hwf Hne Hm Hs.
  destruct (SetMaxEvents_contents_aux m r r' Hwf Hs) as (Hwf' & _ & _ & E).
  rewrite <-!contents_lookup_0, E by done.
  replace (length (ring r) - Z.to_nat m)%nat with 0%nat by lia.
  rewrite drop_0, lookup_app_l; [done|].
  rewrite length_contents. destruct (ring r); [done|]. simpl. lia.
Qed.

(** ** The sliding window *)

(** Times in order of which any two that are [n] places apart differ by at
    least [w] leave at most [n] of them in any half-open interval of length
    [w]. *)
Lemma spaced_window (n : nat) (w a : Z) (l : list Z) :
  (∀ i j x y, (i ≤ j)%nat → l !! i = Some x → l !! j = Some y → (x ≤ y)%Z) →
  (∀ i x y, l !! i = Some x → l !! (i + n)%nat = Some y → (x + w ≤ y)%Z) →
  (length (filter (λ x, a ≤ x < a + w)%Z l) ≤ n)%nat.
Proof.
  induction l as [|x l IH]; intros Hord Hsp; [simpl; lia|].
  destruct (decide (a ≤ x < a + w)%Z) as [Hin|Hout].
  - assert (filter (λ x, a ≤ x < a + w)%Z (drop n (x :: l)) = []) as Hdrop.
    { apply filter_none. intros y Hy Hyin.
      apply list_elem_of_lookup_1 in Hy as [i Hi]. rewrite lookup_drop in Hi.
      destruct (lookup_lt_is_Some_2 (x :: l) n) as [z Hz].
      { apply lookup_lt_Some in Hi. lia. }
      pose proof (Hsp 0%nat x z eq_refl Hz). pose proof (Hord n (n + i)%nat z y ltac:(lia) Hz Hi). lia. }
    rewrite <-(take_drop n (x :: l)), filter_app, Hdrop, app_nil_r.
    etrans; [apply length_filter|]. rewrite length_take. lia.
  - rewrite filter_cons_False by done. apply IH.
    + intros i j y z Hij Hy Hz. apply (Hord (S i) (S j)); [lia|done..].
    + intros i y z Hy Hz. by apply (Hsp (S i)).
Qed.

Section SlidingWindow.
Context (maxEvents : Z) (w : Duration) (r0 : RingBufferRateLimiter).
Context (Hnew : NewRateLimiter maxEvents w = Some r0) (Hpos : (0 < maxEvents)%Z).

Let n : nat := Z.to_nat maxEvents.

Definition waiting_ok (s : loop_state) : Prop :=
  match pc s with
  | Waiting until =>
      ∃ oldest, contents (limiter s) !! 0%nat = Some oldest ∧ until = (oldest + w)%Z
  | Permitting =>
      ∃ oldest, contents (limiter s) !! 0%nat = Some oldest ∧ (oldest + w ≤ clock s)%Z
  | _ => True
  end.

Record loop_inv (s : loop_state) : Prop := {
  li_wf : wf (limiter s);
  li_window : window (limiter s) = w;
  li_contents : contents (limiter s) =
                drop (length (tickets s)) (replicate n 0%Z ++ (tickets s).*2);
  li_clock : ∀ e p, (e, p) ∈ tickets s → (e ≤ p ≤ clock s)%Z;
  li_order : ∀ i j x y, (i ≤ j)%nat → (tickets s).*1 !! i = Some x →
                        (tickets s).*1 !! j = Some y → (x ≤ y)%Z;
  li_spaced : ∀ i e p y, tickets s !! i = Some (e, p) →
                         (tickets s).*1 !! (i + n)%nat = Some y → (p + w ≤ y)%Z;
  li_waiting : waiting_ok s;
}.

Lemma loop_inv_init t : loop_inv (MkLoop r0 AtTop t []).
Proof.
  unfold NewRateLimiter in Hnew.
  destruct (maxEvents <? 0)%Z eqn:?; [done|].
  destruct ((maxEvents =? 0)%Z && negb (w =? 0)%Z); [done|]. injection Hnew as <-.
  split; simpl; rewrite ?contents_start, ?app_nil_r; try done.
  - left. simpl. rewrite length_replicate. lia.
  - intros e p H. by apply elem_of_nil in H.
Qed.

Lemma loop_inv_contents_cons s : loop_inv s → ∃ x l, contents (limiter s) = x :: l.
Proof.
  intros H. assert (length (contents (limiter s)) = n) as Hl.
  { rewrite (li_contents _ H), length_drop, length_app, length_replicate, length_fmap. lia. }
  destruct (contents (limiter s)) as [|x l]; [|eauto]. simpl in Hl. unfold n in Hl. lia.
Qed.

(** The time at the cursor is that of the ticket [n] places before the next
    one. *)
Lemma oldest_is_nth s i e p oldest :
  loop_inv s → tickets s !! i = Some (e, p) → (i + n = length (tickets s))%nat →
  contents (limiter s) !! 0%nat = Some oldest → oldest = p.
Proof.
  intros H Hi Hn Ho. rewrite (li_contents _ H), lookup_drop, Nat.add_0_r in Ho.
  rewrite lookup_app_r in Ho by (rewrite length_replicate; lia).
  rewrite length_replicate, list_lookup_fmap in Ho.
  replace (length (tickets s) - n)%nat with i in Ho by lia.
  rewrite Hi in Ho. by injection Ho as <-.
Qed.

Lemma loop_inv_ticket r t t' ts :
  (t ≤ t')%Z → loop_inv (MkLoop r Permitting t ts) →
  loop_inv (MkLoop (permit_record t' r) AtTop t' (ts ++ [(t, t')])).
Proof.
  intros Hle H. destruct (loop_inv_contents_cons _ H) as (x & l & E). simpl in E.
  destruct (contents_permit t' r x l (li_wf _ H) E) as [Hwf' E'].
  destruct (li_waiting _ H) as (o & Ho & Hot). simpl in Ho, Hot.
  pose proof (li_contents _ H) as Hc. simpl in Hc. rewrite E in Hc.
  split; simpl; try done.
  - pose proof (li_window _ H) as Hw. simpl in Hw. unfold permit_record.
    by destruct (0 <? length (ring r))%nat.
  - rewrite E', fmap_app, app_assoc. simpl. rewrite length_app. simpl.
    rewrite drop_app_le by (rewrite length_app, length_replicate, length_fmap; lia).
    f_equal. replace (length ts + 1)%nat with (1 + length ts)%nat by lia.
    rewrite Nat.add_comm, <-drop_drop, <-Hc. by rewrite ?drop_0.
  - intros e p. rewrite elem_of_app, list_elem_of_singleton. intros [Hin|[= -> ->]]; [|lia].
    pose proof (li_clock _ H e p Hin). simpl in *. lia.
  - intros i j y z Hij. rewrite fmap_app. simpl. intros Hy Hz.
    apply lookup_snoc_Some in Hz as [[Hj Hz]|[Hj <-]].
    + rewrite lookup_app_l in Hy by lia. by apply (li_order _ H i j).
    + apply lookup_snoc_Some in Hy as [[_ Hy]|[_ <-]]; [|lia].
      rewrite list_lookup_fmap in Hy. apply fmap_Some in Hy as ([e p] & Hy & ->).
      apply list_elem_of_lookup_2 in Hy. pose proof (li_clock _ H e p Hy). simpl in *. lia.
  - intros i e p y. rewrite fmap_app. simpl. intros Hi Hy.
    apply lookup_snoc_Some in Hy as [[Hj Hy]|[Hj <-]].
    + rewrite length_fmap in Hj. rewrite lookup_app_l in Hi by lia.
      by apply (li_spaced _ H i e p y).
    + rewrite length_fmap in Hj. assert (ts !! i = Some (e, p)) as Hi'.
      { rewrite lookup_app_l in Hi; [done|]. unfold n in Hj. lia. }
      pose proof (oldest_is_nth _ i e p o H Hi' Hj Ho). subst o. lia.
Qed.

Lemma loop_step_inv s s' : loop_step s s' → loop_inv s → loop_inv s'.
Proof.
  intros Hs H. destruct Hs.
  - destruct H. split; simpl in *; try done.
    + intros e p0 Hin. specialize (li_clock0 e p0 Hin). lia.
    + unfold waiting_ok in *. simpl in *. destruct p; [done|done| |done].
      destruct li_waiting0 as (o & Ho & ?). exists o. split; [done|lia].
  - destruct (loop_inv_contents_cons _ H) as (x & l & E). simpl in E.
    pose proof (length_contents r) as Hl. rewrite E in Hl. by destruct (ring r).
  - destruct H. split; simpl in *; try done. exists oldest. simpl.
    rewrite contents_lookup_0 by done. by rewrite <-li_window0.
  - destruct H. split; simpl in *; try done.
    destruct li_waiting0 as (o & Ho & ->). exists o. split; done.
  - by apply loop_inv_ticket.
  - destruct H. by split.
Qed.

Lemma reachable_loop_inv t s : rtc loop_step (MkLoop r0 AtTop t []) s → loop_inv s.
Proof.
  intros Hs. pose proof (loop_inv_init t) as H. revert H.
  induction Hs; [done|]. intros. eauto using loop_step_inv.
Qed.

Lemma tickets_spaced t s a :
  rtc loop_step (MkLoop r0 AtTop t []) s →
  (length (filter (λ e, a ≤ e < a + w)%Z (tickets s).*1) ≤ Z.to_nat maxEvents)%nat.
Proof.
  intros H%reachable_loop_inv. apply spaced_window; [apply (li_order _ H)|].
  intros i x y Hx Hy. rewrite list_lookup_fmap in Hx.
  apply fmap_Some in Hx as ([e p] & Hx & ->). simpl.
  pose proof (li_spaced _ H i e p y Hx Hy).
  apply list_elem_of_lookup_2, (li_clock _ H) in Hx. lia.
Qed.

(** The limiter keeps its promise: in every run with fixed settings, any
    time interval of one window length contains at most [maxEvents]
    tickets. *)
Theorem rate_limit_sliding_window t s a :
  rtc loop_step (MkLoop r0 AtTop t []) s →
  (length (filter (λ e, a ≤ e < a + w)%Z (tickets s).*1) ≤ Z.to_nat maxEvents)%nat.
Proof. apply tickets_spaced. Qed.

(** The ring is never indexed out of range and its cursor always points
    to the oldest of the recorded times: the contents read from the cursor
    are the times of the last [maxEvents] tickets, oldest first. *)
Theorem ring_holds_last_tickets t s :
  rtc loop_step (MkLoop r0 AtTop t []) s →
  (cursor (limiter s) < length (ring (limiter s)))%nat ∧
  contents (limiter s) =
    drop (length (tickets s)) (replicate (Z.to_nat maxEvents) 0%Z ++ (tickets s).*2).
Proof.
  intros H%reachable_loop_inv. split; [|apply (li_contents _ H)].
  destruct (li_wf _ H) as [|[E _]]; [done|].
  destruct (loop_inv_contents_cons _ H) as (x & l & E').
  unfold contents in E'. rewrite E, drop_nil, take_nil in E'. done.
Qed.
End SlidingWindow.

(** ** Examples *)

Definition ex_limiter : RingBufferRateLimiter := MkLimiter 10 [7; 9; 5]%Z 2.

Lemma ex_limiter_wf : wf ex_limiter.
Proof. left. simpl. lia. Qed.

Lemma SetMaxEvents_contents_witness :
  let r' := MkLimiter 10 [7; 9]%Z 0 in
  wf r' ∧ window r' = 10%Z ∧ MaxEvents r' = 2%nat ∧ contents r' = [7; 9]%Z.
Proof. apply (SetMaxEvents_contents 2 ex_limiter); [exact ex_limiter_wf|reflexivity]. Defined.

Lemma SetMaxEvents_grow_next_slot_witness :
  [5; 7; 9; 0; 0]%Z !! 0%nat = [7; 9; 5]%Z !! 2%nat.
Proof.
  apply (SetMaxEvents_grow_next_slot 5 ex_limiter (MkLimiter 10 [5; 7; 9; 0; 0]%Z 0));
    [exact ex_limiter_wf|discriminate|reflexivity|reflexivity].
Defined.

Definition ex_new : RingBufferRateLimiter := MkLimiter 10 [0]%Z 0.
Definition ex_after_ticket : loop_state :=
  MkLoop (MkLimiter 10 [20]%Z 0) AtTop 20 [(20, 20)%Z].

Lemma ex_run : rtc loop_step (MkLoop ex_new AtTop 20 []) ex_after_ticket.
Proof.
  eapply rtc_l; [by apply (step_wait _ _ _ 0%Z)|].
  eapply rtc_l; [apply step_timer; vm_compute; discriminate|].
  apply rtc_once. apply (step_ticket ex_new 20 20 []). lia.
Qed.

Lemma rate_limit_sliding_window_witness :
  (length (filter (λ e, 15 ≤ e < 25)%Z [20]%Z) ≤ 1)%nat.
Proof.
  apply (rate_limit_sliding_window 1 10 ex_new eq_refl eq_refl 20 ex_after_ticket 15).
  exact ex_run.
Defined.

Lemma ring_holds_last_tickets_witness :
  (0 < 1)%nat ∧ contents (limiter ex_after_ticket) = drop 1 ([0] ++ [20])%Z.
Proof.
  apply (ring_holds_last_tickets 1 10 ex_new eq_refl eq_refl 20 ex_after_ticket).
  exact ex_run.
Defined.
