(* ===== verification/Async.v ===== *)
(** * Background jobs and retries (async.go)

    [JobManager]: the queue of named jobs with its bounded set of workers. The
    critical sections of [Submit] and [worker] are functions; their
    interleavings are the steps of a system of worker goroutines.

    [Retry]: [doWithRetry], with the clock, the cancellation of the context and
    the results of the attempts chosen by the environment. *)

From S2P Require Import Prelude.
Open Scope string_scope.

Module JobManager.

(** ** State *)

(** The closure of a job is only run, so a job is its name and an identity. *)
Record namedJob := MkJob { name : string; job : nat }.

#[export] Instance namedJob_eq_dec : EqDecision namedJob.
Proof. solve_decision. Defined.

Record jobManager := MkManager {
  maxConcurrentJobs : nat;
  activeWorkers : nat;
  queue : list namedJob;
  names : gset string;
}.

(** ** Critical sections *)

(** [Submit]: a job whose name is taken is dropped; the boolean tells whether
    a worker goroutine is started. *)
Definition duplicate (j : namedJob) (jm : jobManager) : bool :=
  negb (name j =? "") && bool_decide (name j ∈ names jm).

Definition Submit (j : namedJob) (jm : jobManager) : jobManager * bool :=
  if duplicate j jm then (jm, false)
  else
    let names' := if negb (name j =? "") then {[name j]} ∪ names jm else names jm in
    let queue' := (queue jm ++ [j])%list in
    if (activeWorkers jm <? maxConcurrentJobs jm)%nat
    then (MkManager (maxConcurrentJobs jm) (S (activeWorkers jm)) queue' names', true)
    else (MkManager (maxConcurrentJobs jm) (activeWorkers jm) queue' names', false).

(** The first critical section of the loop of [worker]: no job, and the worker
    returns, or the next job. *)
Definition worker_next (jm : jobManager) : option namedJob * jobManager :=
  match queue jm with
  | [] => (None, MkManager (maxConcurrentJobs jm) (activeWorkers jm - 1) [] (names jm))
  | next :: rest =>
      (Some next, MkManager (maxConcurrentJobs jm) (activeWorkers jm) rest (names jm))
  end.

(** The second critical section: the name of the finished job is free again. *)
Definition worker_unname (j : namedJob) (jm : jobManager) : jobManager :=
  MkManager (maxConcurrentJobs jm) (activeWorkers jm) (queue jm) (names jm ∖ {[name j]}).

(** ** The system of workers *)

(** Where a worker goroutine is: before its first critical section, running a
    job, or past it with the name still to delete. *)
Inductive wstate := AtLoop | Running (j : namedJob) | Finished (j : namedJob).

(** [accepted] and [started] list the jobs that were enqueued and taken so
    far; [panicked] the jobs whose worker was ended by a panic (the deferred
    [recover] only logs it). *)
Record system := MkSystem {
  jm : jobManager;
  workers : list wstate;
  accepted : list namedJob;
  started : list namedJob;
  panicked : list namedJob;
}.

Definition init (max : nat) : system := MkSystem (MkManager max 0 [] ∅) [] [] [] [].

Inductive step (s : system) : system → Prop :=
| step_submit j jm' spawned :
    Submit j (jm s) = (jm', spawned) →
    step s (MkSystem jm'
              (if spawned then workers s ++ [AtLoop] else workers s)%list
              (if duplicate j (jm s) then accepted s else accepted s ++ [j])%list
              (started s) (panicked s))
| step_exit i jm' :
    workers s !! i = Some AtLoop → worker_next (jm s) = (None, jm') →
    step s (MkSystem jm' (delete i (workers s)) (accepted s) (started s) (panicked s))
| step_take i j jm' :
    workers s !! i = Some AtLoop → worker_next (jm s) = (Some j, jm') →
    step s (MkSystem jm' (<[i := Running j]> (workers s)) (accepted s)
              (started s ++ [j])%list (panicked s))
| step_return i j :
    workers s !! i = Some (Running j) →
    step s (MkSystem (jm s)
              (<[i := if name j =? "" then AtLoop else Finished j]> (workers s))
              (accepted s) (started s) (panicked s))
| step_unname i j :
    workers s !! i = Some (Finished j) →
    step s (MkSystem (worker_unname j (jm s)) (<[i := AtLoop]> (workers s))
              (accepted s) (started s) (panicked s))
| step_panic i j :
    workers s !! i = Some (Running j) →
    step s (MkSystem (jm s) (delete i (workers s)) (accepted s) (started s)
              (j :: panicked s)).

(** ** The invariant *)

Definition worker_job (w : wstate) : option namedJob :=
  match w with AtLoop => None | Running j | Finished j => Some j end.

(** The jobs that are queued, held by a worker, or lost to a panic. *)
Definition held (s : system) : list namedJob :=
  (queue (jm s) ++ omap worker_job (workers s) ++ panicked s)%list.

Definition named (js : list namedJob) : list string :=
  filter (λ n, n ≠ "") (map name js).

Record inv (s : system) : Prop := {
  i_active : activeWorkers (jm s) = (length (workers s) + length (panicked s))%nat;
  i_max : (activeWorkers (jm s) ≤ maxConcurrentJobs (jm s))%nat;
  i_nodup : NoDup (named (held s));
  i_names : ∀ n, n ∈ names (jm s) ↔ n ∈ named (held s);
  i_fifo : accepted s = (started s ++ queue (jm s))%list;
  i_served : queue (jm s) ≠ [] →
             workers s ≠ [] ∨ panicked s ≠ [] ∨ maxConcurrentJobs (jm s) = 0%nat;
}.

Lemma named_app js js' : named (js ++ js')%list = (named js ++ named js')%list.
Proof. unfold named. by rewrite map_app, filter_app. Qed.

Lemma named_cons j js :
  named (j :: js) = if decide (name j = "") then named js else name j :: named js.
Proof.
  unfold named. simpl. case_decide.
  - by rewrite filter_cons_False by naive_solver.
  - by rewrite filter_cons_True.
Qed.

Lemma named_perm js js' : js ≡ₚ js' → named js ≡ₚ named js'.
Proof. intros H. unfold named. apply filter_Permutation. by apply Permutation_map. Qed.

(** A worker's job can be moved to the front of the jobs held by workers, also
    after its state changed. *)
Lemma omap_insert_perm (ws : list wstate) i w w' :
  ws !! i = Some w →
  omap worker_job (<[i := w']> ws) ≡ₚ
  (option_list (worker_job w') ++ omap worker_job (delete i ws))%list.
Proof.
  revert i. induction ws as [|w0 ws IH]; intros [|i] Hi; simpl in *; [done|done|..].
  - by destruct (worker_job w').
  - specialize (IH i Hi). destruct (worker_job w0) as [j|]; [|done].
    rewrite IH. destruct (worker_job w'); simpl; [apply Permutation_swap|done].
Qed.

Lemma omap_delete_perm (ws : list wstate) i w :
  ws !! i = Some w →
  omap worker_job ws ≡ₚ (option_list (worker_job w) ++ omap worker_job (delete i ws))%list.
Proof.
  intros Hi. rewrite <-(omap_insert_perm ws i w w Hi). by rewrite list_insert_id.
Qed.

(** The two facts on names only depend on the held jobs up to order. *)
Lemma names_inv_perm js js' (ns : gset string) :
  named js ≡ₚ named js' →
  (NoDup (named js) ∧ ∀ n, n ∈ ns ↔ n ∈ named js) →
  NoDup (named js') ∧ ∀ n, n ∈ ns ↔ n ∈ named js'.
Proof. intros E [H1 H2]. split; [by rewrite <-E|]. intros n. by rewrite <-E. Qed.

Lemma named_elem js n : n ∈ named js ↔ n ≠ "" ∧ ∃ j, j ∈ js ∧ name j = n.
Proof.
  unfold named. rewrite list_elem_of_filter, list_elem_of_In, in_map_iff.
  setoid_rewrite list_elem_of_In. naive_solver.
Qed.

Lemma names_inv s : inv s → NoDup (named (held s)) ∧ ∀ n, n ∈ names (jm s) ↔ n ∈ named (held s).
Proof. intros H. split; apply H. Qed.

Lemma worker_next_Some m j m' :
  worker_next m = (Some j, m') →
  queue m = j :: queue m' ∧ names m' = names m ∧
  activeWorkers m' = activeWorkers m ∧ maxConcurrentJobs m' = maxConcurrentJobs m.
Proof. unfold worker_next. destruct (queue m); [done|]. intros [= -> <-]. done. Qed.

Lemma worker_next_None m m' :
  worker_next m = (None, m') →
  queue m = [] ∧ queue m' = [] ∧ names m' = names m ∧
  activeWorkers m' = (activeWorkers m - 1)%nat ∧ maxConcurrentJobs m' = maxConcurrentJobs m.
Proof. unfold worker_next. destruct (queue m) eqn:E; [|done]. intros [= <-]. done. Qed.

Lemma Submit_spec j m m' spawned :
  Submit j m = (m', spawned) → duplicate j m = false →
  queue m' = (queue m ++ [j])%list ∧
  (∀ n, n ∈ names m' ↔ n ∈ names m ∨ (n = name j ∧ n ≠ "")) ∧
  maxConcurrentJobs m' = maxConcurrentJobs m ∧
  spawned = (activeWorkers m <? maxConcurrentJobs m)%nat ∧
  activeWorkers m' = (if spawned then S (activeWorkers m) else activeWorkers m).
Proof.
  unfold Submit. intros H Hd. rewrite Hd in H.
  destruct (activeWorkers m <? maxConcurrentJobs m)%nat; injection H as <- <-; simpl.
  all: split; [done|]; split; [|done]; intros n.
  all: destruct (String.eqb_spec (name j) ""); simpl; set_solver.
Qed.

Lemma inv_submit s j m' spawned :
  Submit j (jm s) = (m', spawned) → inv s →
  inv (MkSystem m' (if spawned then workers s ++ [AtLoop] else workers s)%list
         (if duplicate j (jm s) then accepted s else accepted s ++ [j])%list
         (started s) (panicked s)).
Proof.
  intros Hs H. destruct (duplicate j (jm s)) eqn:Hd.
  { unfold Submit in Hs. rewrite Hd in Hs. injection Hs as <- <-. by destruct H. }
  destruct (Submit_spec j _ _ _ Hs Hd) as (Hq & Hn & Hm & Hsp & Ha).
  set (ws := (if spawned then _ else _)).
  assert (omap worker_job ws = omap worker_job (workers s)) as Hws.
  { unfold ws. destruct spawned; [|done]. rewrite omap_app. simpl. by rewrite app_nil_r. }
  assert (length ws = if spawned then S (length (workers s)) else length (workers s)) as Hlen.
  { unfold ws. destruct spawned; [|done]. rewrite length_app. simpl. lia. }
  destruct (names_inv_perm (j :: held s) (held (MkSystem m' ws (accepted s) (started s) (panicked s)))
              (names m')) as [Hnd Hnm].
  { apply named_perm. unfold held. simpl. rewrite Hq, Hws.
    rewrite <-app_assoc. apply Permutation_middle. }
  { destruct (names_inv s H) as [H1 H2]. rewrite !named_cons. setoid_rewrite Hn.
    unfold duplicate in Hd. destruct (decide (name j = "")) as [He|He].
    - split; [done|]. intros n. rewrite <-H2. rewrite He. naive_solver.
    - split.
      + apply NoDup_cons. split; [|done]. rewrite <-H2.
        rewrite (proj2 (String.eqb_neq _ _)) in Hd by done. simpl in Hd.
        by apply bool_decide_eq_false in Hd.
      + intros n. rewrite elem_of_cons, <-H2. naive_solver. }
  destruct H. split; simpl.
  - rewrite Ha, Hlen, i_active0. by destruct spawned.
  - rewrite Ha, Hm. destruct spawned; [|done]. symmetry in Hsp. apply Nat.ltb_lt in Hsp. lia.
  - exact Hnd.
  - exact Hnm.
  - by rewrite i_fifo0, Hq, app_assoc.
  - intros _. rewrite Hm. unfold ws. destruct spawned; [left; by destruct (workers s)|].
    symmetry in Hsp. apply Nat.ltb_ge in Hsp. rewrite i_active0 in Hsp.
    destruct (workers s), (panicked s); simpl in *; auto. right. right. lia.
Qed.

(** A worker's step keeps some worker alive. *)
Lemma insert_not_nil (ws : list wstate) i w : ws ≠ [] → <[i := w]> ws ≠ [].
Proof.
  intros Hne E. apply (f_equal length) in E. rewrite length_insert in E. by destruct ws.
Qed.

Lemma inv_exit s i m' :
  workers s !! i = Some AtLoop → worker_next (jm s) = (None, m') → inv s →
  inv (MkSystem m' (delete i (workers s)) (accepted s) (started s) (panicked s)).
Proof.
  intros Hi Hw H. destruct (worker_next_None _ _ Hw) as (Hq & Hq' & Hnm & Ha & Hm).
  destruct (names_inv_perm (held s) (held (MkSystem m' (delete i (workers s)) (accepted s) (started s)
             (panicked s))) (names (jm s))) as [Hnd Hnn]; [|exact (names_inv s H)|].
  { apply named_perm. unfold held. simpl. rewrite Hq, Hq'.
    by rewrite (omap_delete_perm _ _ _ Hi). }
  destruct H. split; simpl; rewrite ?Hnm, ?Ha, ?Hm; try done.
  - rewrite length_delete by eauto. apply lookup_lt_Some in Hi. lia.
  - lia.
  - by rewrite Hq', i_fifo0, Hq.
Qed.

Lemma inv_take s i j m' :
  workers s !! i = Some AtLoop → worker_next (jm s) = (Some j, m') → inv s →
  inv (MkSystem m' (<[i := Running j]> (workers s)) (accepted s) (started s ++ [j])%list
         (panicked s)).
Proof.
  intros Hi Hw H. destruct (worker_next_Some _ _ _ Hw) as (Hq & Hnm & Ha & Hm).
  destruct (names_inv_perm (held s) (held (MkSystem m' (<[i:=Running j]> (workers s)) (accepted s)
             (started s) (panicked s))) (names (jm s))) as [Hnd Hnn]; [|exact (names_inv s H)|].
  { apply named_perm. unfold held. simpl. rewrite Hq.
    rewrite (omap_delete_perm _ _ _ Hi), (omap_insert_perm _ _ _ (Running j) Hi).
    simpl. apply Permutation_middle. }
  destruct H. split; simpl; rewrite ?Hnm, ?Ha, ?Hm; try done.
  - by rewrite length_insert.
  - by rewrite i_fifo0, Hq, <-app_assoc.
  - intros _. left. apply insert_not_nil. by intros E; rewrite E in Hi.
Qed.

Lemma inv_return s i j :
  workers s !! i = Some (Running j) → inv s →
  inv (MkSystem (jm s) (<[i := if name j =? "" then AtLoop else Finished j]> (workers s))
         (accepted s) (started s) (panicked s)).
Proof.
  intros Hi H.
  destruct (names_inv_perm (held s) (held (MkSystem (jm s)
             (<[i:=if name j =? "" then AtLoop else Finished j]> (workers s)) (accepted s)
             (started s) (panicked s))) (names (jm s))) as [Hnd Hnn]; [|exact (names_inv s H)|].
  { unfold held. simpl. rewrite !named_app.
    rewrite (named_perm _ _ (omap_delete_perm _ _ _ Hi)),
      (named_perm _ _ (omap_insert_perm _ _ _ (if name j =? "" then AtLoop else Finished j) Hi)).
    apply Permutation_app; [done|]. apply Permutation_app; [|done].
    destruct (String.eqb_spec (name j) "") as [E|]; [|done].
    transitivity (named (j :: omap worker_job (delete i (workers s)))); [done|].
    rewrite named_cons. by rewrite decide_True. }
  destruct H. split; simpl; rewrite ?length_insert; try done.
  intros Hq. destruct (i_served0 Hq) as [Hne|?]; [|by right]. left. by apply insert_not_nil.
Qed.

Lemma inv_unname s i j :
  workers s !! i = Some (Finished j) → inv s →
  inv (MkSystem (worker_unname j (jm s)) (<[i := AtLoop]> (workers s))
         (accepted s) (started s) (panicked s)).
Proof.
  intros Hi H.
  assert (named (held s) ≡ₚ named (j :: held (MkSystem (worker_unname j (jm s))
            (<[i:=AtLoop]> (workers s)) (accepted s) (started s) (panicked s)))) as Hp.
  { apply named_perm. unfold held. simpl.
    rewrite (omap_delete_perm _ _ _ Hi), (omap_insert_perm _ _ _ AtLoop Hi). simpl.
    symmetry. apply Permutation_middle. }
  destruct (names_inv s H) as [Hnd Hnn]. rewrite Hp in Hnd. setoid_rewrite Hp in Hnn.
  rewrite named_cons in Hnd, Hnn.
  destruct H. split; simpl; rewrite ?length_insert; try done.
  - case_decide; [done|]. by apply NoDup_cons in Hnd as [_ ?].
  - intros n. rewrite elem_of_difference, not_elem_of_singleton, Hnn.
    case_decide as He.
    + rewrite He. split; [tauto|]. intros Hin. split; [done|].
      by apply named_elem in Hin as [? _].
    + apply NoDup_cons in Hnd as [Hnot _]. rewrite elem_of_cons.
      split; [tauto|]. intros Hin. split; [by right|]. congruence.
  - intros Hq. destruct (i_served0 Hq) as [Hne|?]; [|by right]. left. by apply insert_not_nil.
Qed.

Lemma inv_panic s i j :
  workers s !! i = Some (Running j) → inv s →
  inv (MkSystem (jm s) (delete i (workers s)) (accepted s) (started s) (j :: panicked s)).
Proof.
  intros Hi H.
  destruct (names_inv_perm (held s) (held (MkSystem (jm s) (delete i (workers s)) (accepted s) (started s)
             (j :: panicked s))) (names (jm s))) as [Hnd Hnn]; [|exact (names_inv s H)|].
  { apply named_perm. unfold held. simpl. f_equiv.
    rewrite (omap_delete_perm _ _ _ Hi). simpl. apply Permutation_middle. }
  destruct H. split; simpl; try done.
  - rewrite length_delete by eauto. apply lookup_lt_Some in Hi. lia.
  - intros _. by right; left.
Qed.

Lemma inv_step s s' : step s s' → inv s → inv s'.
Proof.
  intros [] ?; [by apply inv_submit|by apply inv_exit|by apply inv_take|by apply inv_return|
                by apply inv_unname|by apply inv_panic].
Qed.

Lemma inv_init max : inv (init max).
Proof.
  split; simpl; try done; try lia.
  - apply NoDup_nil_2.
  - intros n. unfold held, named. simpl. rewrite elem_of_nil. set_solver.
Qed.

Lemma reachable_inv max s : rtc step (init max) s → inv s.
Proof.
  intros Hs. pose proof (inv_init max) as H. revert H.
  induction Hs; [done|]. intros. eauto using inv_step.
Qed.

Lemma step_max s s' : step s s' → maxConcurrentJobs (jm s') = maxConcurrentJobs (jm s).
Proof.
  intros []; simpl; try done.
  - unfold Submit in *. break_match_hyp H; by simplify_eq.
  - by apply worker_next_None in H0 as (_ & _ & _ & _ & ?).
  - by apply worker_next_Some in H0 as (_ & _ & _ & ?).
Qed.

Lemma reachable_max max s : rtc step (init max) s → maxConcurrentJobs (jm s) = max.
Proof.
  intros Hs. change max with (maxConcurrentJobs (jm (init max))).
  induction Hs; [done|]. rewrite IHHs. by apply step_max.
Qed.

(** ** Theorems *)

Definition is_Running (w : wstate) : Prop := match w with Running _ => True | _ => False end.

#[export] Instance is_Running_dec w : Decision (is_Running w).
Proof. destruct w; apply _. Defined.

(** (C9) At no time do more than [maxConcurrentJobs] jobs run, and at no time
    are two jobs with the same non-empty name queued or running. *)
Theorem jobs_bounded_unique max s :
  rtc step (init max) s →
  (length (filter is_Running (workers s)) ≤ max)%nat ∧
  NoDup (named (queue (jm s) ++ omap worker_job (workers s)))%list.
Proof.
  intros Hr. pose proof (reachable_inv max s Hr) as H. split.
  - etrans; [apply length_filter|]. rewrite <-(reachable_max max s Hr).
    pose proof (i_max _ H). rewrite (i_active _ H) in *. lia.
  - pose proof (i_nodup _ H) as Hnd. unfold held in Hnd.
    rewrite app_assoc, named_app in Hnd. by apply NoDup_app in Hnd as [? _].
Qed.

(** No accepted job is lost and jobs start in the order in which they were
    submitted: the accepted jobs are the started ones followed by the queue.
    As long as no job panicked, a non-empty queue is being served by at least
    one worker. *)
Theorem jobs_fifo_served max s :
  (0 < max)%nat → rtc step (init max) s →
  accepted s = (started s ++ queue (jm s))%list ∧
  (queue (jm s) ≠ [] → panicked s = [] → workers s ≠ []).
Proof.
  intros Hmax Hr. pose proof (reachable_inv max s Hr) as H.
  split; [apply (i_fifo _ H)|]. intros Hq Hp.
  destruct (i_served _ H Hq) as [?|[?|Hm]]; [done|done|].
  rewrite (reachable_max max s Hr) in Hm. lia.
Qed.

(** A panic leaks the job's name and its worker slot: the name stays taken
    in every later state, so each further submission under that name is
    dropped, and the slot still counts as active. *)
Theorem panic_leaks_name max s j j' :
  rtc step (init max) s → j ∈ panicked s → name j ≠ "" → name j' = name j →
  Submit j' (jm s) = (jm s, false) ∧
  (length (workers s) + length (panicked s) = activeWorkers (jm s))%nat.
Proof.
  intros Hr Hj Hne Hn. pose proof (reachable_inv max s Hr) as H.
  split; [|symmetry; apply (i_active _ H)].
  unfold Submit, duplicate. rewrite Hn, (proj2 (String.eqb_neq _ _)) by done. simpl.
  rewrite bool_decide_true; [done|].
  apply (i_names _ H), named_elem. split; [done|]. exists j. split; [|done].
  unfold held. rewrite !elem_of_app. auto.
Qed.

(** *** One worker and a job that panics *)

Definition ex_s1 : system :=
  MkSystem (MkManager 1 1 [MkJob "renew_a" 1] {["renew_a"]}) [AtLoop] [MkJob "renew_a" 1] [] [].
Definition ex_s2 : system :=
  MkSystem (MkManager 1 1 [] {["renew_a"]}) [Running (MkJob "renew_a" 1)]
    [MkJob "renew_a" 1] [MkJob "renew_a" 1] [].
Definition ex_s3 : system :=
  MkSystem (MkManager 1 1 [] {["renew_a"]}) []
    [MkJob "renew_a" 1] [MkJob "renew_a" 1] [MkJob "renew_a" 1].

Lemma ex_run2 : rtc step (init 1) ex_s2.
Proof.
  eapply (rtc_l _ _ ex_s1).
  - apply (step_submit (init 1) (MkJob "renew_a" 1) (jm ex_s1) true). vm_compute. reflexivity.
  - apply rtc_once. by apply (step_take ex_s1 0 (MkJob "renew_a" 1) (jm ex_s2)).
Qed.

Lemma ex_run3 : rtc step (init 1) ex_s3.
Proof.
  eapply rtc_r; [exact ex_run2|]. by apply (step_panic ex_s2 0 (MkJob "renew_a" 1)).
Qed.

Lemma jobs_bounded_unique_witness :
  (length (filter is_Running (workers ex_s2)) ≤ 1)%nat ∧
  NoDup (named (queue (jm ex_s2) ++ omap worker_job (workers ex_s2)))%list.
Proof. apply jobs_bounded_unique. exact ex_run2. Defined.

Lemma jobs_fifo_served_witness :
  accepted ex_s2 = (started ex_s2 ++ queue (jm ex_s2))%list ∧
  (queue (jm ex_s2) ≠ [] → panicked ex_s2 = [] → workers ex_s2 ≠ []).
Proof. apply (jobs_fifo_served 1); [lia|exact ex_run2]. Defined.

Lemma panic_leaks_name_witness :
  Submit (MkJob "renew_a" 7) (jm ex_s3) = (jm ex_s3, false) ∧ (0 + 1 = 1)%nat.
Proof.
  apply (panic_leaks_name 1 ex_s3 (MkJob "renew_a" 1) (MkJob "renew_a" 7)).
  - exact ex_run3.
  - by left.
  - discriminate.
  - reflexivity.
Defined.

End JobManager.

Module Retry.

Definition retryIntervals : list Duration :=
  [ 1 * Minute; 2 * Minute; 2 * Minute; 5 * Minute; 10 * Minute; 10 * Minute; 10 * Minute;
    20 * Minute; 20 * Minute; 20 * Minute; 20 * Minute; 30 * Minute; 30 * Minute;
    30 * Minute; 30 * Minute; 30 * Minute; 30 * Minute; 1 * Hour; 1 * Hour; 1 * Hour;
    2 * Hour; 2 * Hour; 3 * Hour; 3 * Hour; 6 * Hour ]%Z.

Definition maxRetryDuration : Duration := (24 * Hour * 30)%Z.

(** What happens in one iteration of the loop: the context is done before the
    timer fires, or the timer fires [late] after its time, the attempt takes
    [took] and returns [res] ([None] is a nil error), and [gap] passes before
    the condition of the loop is evaluated again. *)
Inductive iteration :=
| CtxDone
| Attempt (late took gap : Duration) (res : option error).

(** The environment: the iteration with [attempts] attempts made before it. *)
Definition environment := nat → iteration.

(** How [doWithRetry] ends, with the number of attempts that were made;
    [IndexPanic] is an index out of range of [retryIntervals]. *)
Inductive outcome := Returned (attempts : nat) (err : option error) | IndexPanic.

(** The loop of [doWithRetry]; [intervalIndex] starts at -1. A panic of an
    attempt unwinds. *)
Fixpoint retry_loop (fuel : nat) (env : environment) (start now : Time)
    (intervalIndex : Z) (attempts : nat) (err : option error) : option outcome :=
  match fuel with
  | O => None
  | S fuel' =>
      if negb (time_Since now start <? maxRetryDuration)%Z then Some (Returned attempts err)
      else
        match (if (0 <=? intervalIndex)%Z
               then retryIntervals !! Z.to_nat intervalIndex else Some 0%Z) with
        | None => Some IndexPanic
        | Some wait =>
            match env attempts with
            | CtxDone => Some (Returned attempts (Some Canceled))
            | Attempt late took gap res =>
                let now := (now + wait + late + took)%Z in
                let attempts := S attempts in
                match res with
                | None => Some (Returned attempts None)
                | Some e =>
                    if errors_Is e Canceled then Some (Returned attempts (Some e))
                    else if errors_As_ErrNoRetry e then Some (Returned attempts (Some e))
                    else if is_panic e then Some (Returned attempts (Some e))
                    else
                      let intervalIndex :=
                        if (intervalIndex <? Z.of_nat (length retryIntervals) - 1)%Z
                        then (intervalIndex + 1)%Z else intervalIndex in
                      if (time_Since now start <? maxRetryDuration)%Z
                      then retry_loop fuel' env start (now + gap)%Z intervalIndex attempts (Some e)
                      else Some (Returned attempts None)
                end
            end
        end
  end.

Definition doWithRetry (fuel : nat) (env : environment) (start : Time) : option outcome :=
  retry_loop fuel env start start (-1) 0 None.

(** ** The schedule *)

(** The index after [k] attempts, and the wait before attempt [k]. *)
Definition index_after (k : nat) : Z := Z.min (Z.of_nat k - 1) 24.

Definition wait_before (k : nat) : Duration :=
  match k with
  | O => 0%Z
  | S k' => default 0%Z (retryIntervals !! Nat.min k' 24)
  end.

(** The least time that passes before attempt [k] is over. *)
Fixpoint waited (k : nat) : Duration :=
  match k with O => 0%Z | S k' => (waited k' + wait_before k')%Z end.

(** Attempts that can be made before the limit of thirty days. *)
Definition max_attempts : nat := 142.

Lemma wait_before_lookup k :
  (if (0 <=? index_after k)%Z then retryIntervals !! Z.to_nat (index_after k) else Some 0%Z)
  = Some (wait_before k).
Proof.
  unfold index_after, wait_before. destruct k as [|k]; [done|].
  destruct (Z.leb_spec 0 (Z.min (Z.of_nat (S k) - 1) 24)); [|lia].
  replace (Z.to_nat (Z.min (Z.of_nat (S k) - 1) 24)) with (Nat.min k 24) by lia.
  destruct (lookup_lt_is_Some_2 retryIntervals (Nat.min k 24)) as [x Hx].
  { simpl. lia. }
  by rewrite Hx.
Qed.

Lemma index_after_S k :
  (if (index_after k <? Z.of_nat (length retryIntervals) - 1)%Z
   then (index_after k + 1)%Z else index_after k) = index_after (S k).
Proof.
  unfold index_after. change (Z.of_nat (length retryIntervals) - 1)%Z with 24%Z.
  destruct (Z.ltb_spec (Z.min (Z.of_nat k - 1) 24) 24); lia.
Qed.

Lemma wait_before_nonneg k : (0 ≤ wait_before k)%Z.
Proof.
  destruct k as [|k]; simpl; [done|].
  assert (Forall (λ d, 0 ≤ d)%Z retryIntervals) as HF
    by (repeat constructor; vm_compute; discriminate).
  destruct (retryIntervals !! Nat.min k 24) as [d|] eqn:E; simpl; [|done].
  eapply Forall_lookup_1; [exact HF|exact E].
Qed.

Lemma waited_mono k k' : (k ≤ k')%nat → (waited k ≤ waited k')%Z.
Proof.
  induction 1 as [|k' _ IH]; [done|]. simpl. pose proof (wait_before_nonneg k'). lia.
Qed.

Lemma waited_max : (maxRetryDuration ≤ waited max_attempts)%Z.
Proof. vm_compute. discriminate. Qed.

(** Attempts and timers take time forwards. *)
Definition env_ok (env : environment) : Prop :=
  ∀ k, match env k with
       | CtxDone => True
       | Attempt late took gap _ => (0 ≤ late ∧ 0 ≤ took ∧ 0 ≤ gap)%Z
       end.

Lemma Since_lt now start d :
  (d ≤ int64_max)%Z → (time_Since now start < d)%Z → (now - start < d)%Z.
Proof. unfold time_Since, time_Sub, int64_max, int64_min. lia. Qed.

(** The errors after which another attempt is made. *)
Definition retryable (e : error) : bool :=
  negb (errors_Is e Canceled) && negb (errors_As_ErrNoRetry e) && negb (is_panic e).

(** One iteration that leads to another, in terms of the schedule. *)
Lemma retry_loop_unfold fuel env start now k err :
  retry_loop (S fuel) env start now (index_after k) k err =
  if negb (time_Since now start <? maxRetryDuration)%Z then Some (Returned k err)
  else match env k with
       | CtxDone => Some (Returned k (Some Canceled))
       | Attempt late took gap res =>
           let now' := (now + wait_before k + late + took)%Z in
           match res with
           | None => Some (Returned (S k) None)
           | Some e =>
               if negb (retryable e) then Some (Returned (S k) (Some e))
               else if (time_Since now' start <? maxRetryDuration)%Z
               then retry_loop fuel env start (now' + gap) (index_after (S k)) (S k) (Some e)
               else Some (Returned (S k) None)
           end
       end.
Proof.
  cbn [retry_loop]. rewrite wait_before_lookup, index_after_S.
  destruct (negb _); [done|]. destruct (env k); [done|]. destruct res as [e|]; [|done].
  unfold retryable. by destruct (errors_Is e Canceled), (errors_As_ErrNoRetry e), (is_panic e).
Qed.

(** While the limit is not reached, fewer than [max_attempts] attempts have
    been made. *)
Lemma attempts_bound k now start :
  (waited k ≤ now - start)%Z → (time_Since now start < maxRetryDuration)%Z →
  (k < max_attempts)%nat.
Proof.
  intros Hw Hs. apply Since_lt in Hs; [|vm_compute; discriminate].
  destruct (decide (k < max_attempts)%nat) as [|Hge]; [done|].
  pose proof (waited_mono max_attempts k ltac:(lia)). pose proof waited_max. lia.
Qed.

(** When iteration [k] begins. *)
Fixpoint clock (env : environment) (start : Time) (k : nat) : Time :=
  match k with
  | O => start
  | S k' =>
      match env k' with
      | CtxDone => clock env start k'
      | Attempt late took gap _ => (clock env start k' + wait_before k' + late + took + gap)%Z
      end
  end.

Lemma clock_waited env start k :
  env_ok env → (∀ j, (j < k)%nat → env j ≠ CtxDone) → (waited k ≤ clock env start k - start)%Z.
Proof.
  intros Henv. induction k as [|k IH]; intros Hd; simpl; [lia|]. pose proof (Henv k) as He.
  pose proof (Hd k ltac:(lia)). specialize (IH ltac:(intros; apply Hd; lia)).
  destruct (env k) as [|late took gap res]; [done|]. lia.
Qed.

(** Why the loop ends after [n] attempts with [err]: the context is done; the
    last attempt has not failed, or not so that another one is worth it; or the
    last attempt has failed and the time is over. All the attempts before have
    failed and were worth repeating. *)
Definition ends_for (env : environment) (start : Time) (n : nat) (err : option error) : Prop :=
  (∀ k, (S k < n)%nat → ∃ late took gap e, env k = Attempt late took gap (Some e) ∧ retryable e = true) ∧
  (env n = CtxDone ∧ err = Some Canceled ∨
   ∃ k late took gap res, n = S k ∧ env k = Attempt late took gap res ∧
     match res with
     | None => err = None
     | Some e =>
         if retryable e then (maxRetryDuration ≤ clock env start n - start)%Z ∧ (err = None ∨ err = Some e)
         else err = Some e
     end).

Lemma Since_ge now start d : (d ≤ time_Since now start)%Z → (int64_min < d)%Z → (d ≤ now - start)%Z.
Proof. unfold time_Since, time_Sub, int64_max, int64_min. lia. Qed.

Lemma retry_loop_returns fuel env start k err :
  env_ok env → (max_attempts < fuel + k)%nat → (k ≤ max_attempts)%nat →
  (∀ j, (j < k)%nat → ∃ late took gap e, env j = Attempt late took gap (Some e) ∧ retryable e = true) →
  match k with
  | O => err = None
  | S k' => ∃ late took gap e, env k' = Attempt late took gap (Some e) ∧ err = Some e
  end →
  ∃ n e, retry_loop fuel env start (clock env start k) (index_after k) k err = Some (Returned n e) ∧
    (n ≤ max_attempts)%nat ∧ ends_for env start n e.
Proof.
  intros Henv. revert k err. induction fuel as [|fuel IH]; intros k err Hf Hk Hpast Herr; [lia|].
  assert (waited k ≤ clock env start k - start)%Z as Hw.
  { apply clock_waited; [done|]. intros j Hj. destruct (Hpast j Hj) as (? & ? & ? & ? & -> & _). done. }
  rewrite retry_loop_unfold.
  destruct (Z.ltb_spec (time_Since (clock env start k) start) maxRetryDuration) as [Hs|Hs]; simpl.
  2: { exists k, err. split; [done|]. split; [done|]. split; [intros j Hj; apply Hpast; lia|]. right.
       apply Since_ge in Hs; [|by vm_compute].
       destruct k as [|k]; [simpl in Hs; exfalso; revert Hs; rewrite Z.sub_diag; by vm_compute|].
       destruct Herr as (late & took & gap & e & He & ->). exists k, late, took, gap, (Some e).
       split; [done|]. split; [done|]. destruct (Hpast k ltac:(lia)) as (? & ? & ? & e' & He' & Hr).
       rewrite He' in He. injection He as _ _ _ ->. rewrite Hr. auto. }
  pose proof (attempts_bound k _ start Hw Hs) as Hlt.
  pose proof (Henv k) as He. destruct (env k) as [|late took gap res] eqn:Ek.
  { eexists k, _. split; [done|]. split; [lia|]. split; [intros j Hj; apply Hpast; lia|by left]. }
  assert (∀ e, match res with None => e = None | Some e0 => if retryable e0
      then (maxRetryDuration ≤ clock env start (S k) - start)%Z ∧ (e = None ∨ e = Some e0) else e = Some e0 end →
    ends_for env start (S k) e) as Hend.
  { intros e Hres. split; [intros j Hj; apply Hpast; lia|]. right. by exists k, late, took, gap, res. }
  destruct res as [e|].
  2: { eexists _, _. split; [done|]. split; [lia|]. by apply Hend. }
  destruct (retryable e) eqn:Er; simpl.
  2: { eexists _, _. split; [done|]. split; [lia|]. by apply Hend. }
  assert (clock env start (S k) = clock env start k + wait_before k + late + took + gap)%Z as Ec.
  { simpl. by rewrite Ek. }
  destruct (Z.ltb_spec (time_Since (clock env start k + wait_before k + late + took) start) maxRetryDuration) as [Hg|Hg].
  - rewrite <-Ec. apply IH; [lia|lia| |by exists late, took, gap, e].
    intros j Hj. destruct (decide (j = k)) as [->|]; [|apply Hpast; lia]. by exists late, took, gap, e.
  - eexists _, _. split; [done|]. split; [lia|]. apply Hend. apply Since_ge in Hg; [|by vm_compute].
    rewrite Ec. split; [lia|by left].
Qed.

(** ** Theorems *)

(** (C36) [doWithRetry] terminates, whatever the attempts return and however long
    they take: it returns after at most [max_attempts], 142, attempts, and never
    reads past the end of [retryIntervals]; and it does not end early: it ends
    because the context is done, or the last attempt has succeeded or has failed
    for good, or it has failed and thirty days are over, in which case nil or
    the error is returned. *)
Theorem doWithRetry_terminates env start fuel :
  env_ok env → (max_attempts < fuel)%nat →
  ∃ n err, doWithRetry fuel env start = Some (Returned n err) ∧ (n ≤ max_attempts)%nat ∧ ends_for env start n err.
Proof.
  intros Henv Hf. unfold doWithRetry. change (-1)%Z with (index_after 0).
  apply (retry_loop_returns fuel env start 0 None); [done|lia|lia|lia|done].
Qed.

Lemma retry_loop_all_fail fuel env start now k err :
  env_ok env →
  (∀ k, ∃ late took e, env k = Attempt late took 0 (Some e) ∧ retryable e = true) →
  (max_attempts < fuel + k)%nat → (waited k ≤ now - start)%Z →
  (time_Since now start < maxRetryDuration)%Z →
  ∃ n, retry_loop fuel env start now (index_after k) k err = Some (Returned n None).
Proof.
  intros Henv Hfail. revert k now err.
  induction fuel as [|fuel IH]; intros k now err Hf Hw Hs;
    pose proof (attempts_bound k now start Hw Hs) as Hlt; [lia|].
  rewrite retry_loop_unfold. rewrite (proj2 (Z.ltb_lt _ _)) by done. simpl.
  pose proof (Henv k) as He. destruct (Hfail k) as (late & took & e & Hk & Hr).
  rewrite Hk in *. rewrite Hr. simpl.
  destruct (Z.ltb_spec (time_Since (now + wait_before k + late + took) start) maxRetryDuration);
    [|eauto].
  apply IH; rewrite ?Z.add_0_r; [lia|simpl; lia|done].
Qed.

Lemma Since_start start : (time_Since start start < maxRetryDuration)%Z.
Proof.
  unfold time_Since, time_Sub, maxRetryDuration, Hour, Minute, Second, int64_max, int64_min. lia.
Qed.

(** When every attempt fails with an error worth retrying until the time
    limit, [doWithRetry] returns nil: its caller cannot tell giving up from
    success. *)
Theorem doWithRetry_gives_up_nil env start :
  env_ok env →
  (∀ k, ∃ late took e, env k = Attempt late took 0 (Some e) ∧ retryable e = true) →
  ∃ n, doWithRetry (S max_attempts) env start = Some (Returned n None).
Proof.
  intros Henv Hfail. unfold doWithRetry. change (-1)%Z with (index_after 0).
  apply retry_loop_all_fail; [done|done|lia|simpl; lia|apply Since_start].
Qed.

(** A first attempt that succeeds, is cancelled or is marked as not to be
    retried ends the retries at once with its own result. *)
Theorem doWithRetry_first_attempt env start late took gap res fuel :
  env 0%nat = Attempt late took gap res →
  match res with None => True | Some e => retryable e = false end →
  doWithRetry (S fuel) env start = Some (Returned 1 res).
Proof.
  intros H0 Hres. unfold doWithRetry. change (-1)%Z with (index_after 0).
  rewrite retry_loop_unfold, H0.
  rewrite (proj2 (Z.ltb_lt _ _)) by apply Since_start.
  simpl. destruct res as [e|]; [|done]. by rewrite Hres.
Qed.

(** *** Environments *)

Definition ex_failing : environment := λ _, Attempt 0 0 0 (Some (Errorf "timeout")).

Lemma ex_failing_ok : env_ok ex_failing.
Proof. intros k. simpl. lia. Qed.

(** All the attempts that fit into the thirty days are made. *)
Lemma doWithRetry_terminates_witness :
  doWithRetry (S max_attempts) ex_failing 5 = Some (Returned max_attempts None) ∧
  ∃ n err, doWithRetry (S max_attempts) ex_failing 5 = Some (Returned n err) ∧ (n ≤ max_attempts)%nat ∧
    ends_for ex_failing 5 n err.
Proof.
  split; [vm_compute; reflexivity|].
  apply (doWithRetry_terminates ex_failing 5 (S max_attempts)); [exact ex_failing_ok|lia].
Defined.

Lemma doWithRetry_gives_up_nil_witness :
  ∃ n, doWithRetry (S max_attempts) ex_failing 5 = Some (Returned n None).
Proof.
  apply doWithRetry_gives_up_nil; [exact ex_failing_ok|].
  intros k. exists 0%Z, 0%Z, (Errorf "timeout"). vm_compute. auto.
Defined.

Lemma doWithRetry_first_attempt_witness :
  let e := Wrapf "renew" (ErrNoRetry (Errorf "bad request")) in
  doWithRetry 1 (λ _, Attempt 0 3 0 (Some e)) 5 = Some (Returned 1 (Some e)).
Proof.
  intros e. apply (doWithRetry_first_attempt _ 5 0 3 0 (Some e) 0); vm_compute; reflexivity.
Defined.

End Retry.
