(* ===== verification/Storage.v ===== *)
(** * Storage (storage.go)

    [KeyBuilder]: the keys under which assets are stored, built from sanitized
    components. [Storage]: the interface of a storage back end as a class of
    operations on a state, with the documented behaviour its clients rely on
    as laws; [MemStorage] is the simplest implementation. [storeTx] and the
    process's own lock table are proved against the interface. *)

From S2P Require Import Prelude GoStrings.
From Stdlib Require Import Ascii.
Open Scope string_scope.

(** ** Keys *)

Module KeyBuilder.

Definition prefixCerts : string := "certificates".
Definition prefixOCSP : string := "ocsp".

(** The characters [safeKeyRE] keeps: [[\w@.-]]. *)
Definition safe_char (c : ascii) : bool :=
  is_upper c || is_lower c || is_digit c || Ascii.eqb c "_" ||
  Ascii.eqb c "@" || Ascii.eqb c "." || Ascii.eqb c "-".

(** [strings.NewReplacer(...).Replace]: one pass from left to right; at each
    position the first pattern that matches is replaced. *)
Fixpoint safe_replace (s : string) : string :=
  match s with
  | "" => ""
  | String c s' =>
      if Ascii.eqb c " " then "_" +:+ safe_replace s'
      else if Ascii.eqb c "+" then "_plus_" +:+ safe_replace s'
      else if Ascii.eqb c "*" then "wildcard_" +:+ safe_replace s'
      else if Ascii.eqb c ":" then "-" +:+ safe_replace s'
      else
        match s' with
        | String d s'' =>
            if Ascii.eqb c "." && Ascii.eqb d "." then safe_replace s''
            else String c (safe_replace s')
        | "" => String c ""
        end
  end.

Definition Safe (str : string) : string :=
  string_filter safe_char (safe_replace (TrimSpace (ToLower str))).

Definition CertsPrefix (issuerKey : string) : string :=
  path_Join [prefixCerts; Safe issuerKey].
Definition CertsSitePrefix (issuerKey domain : string) : string :=
  path_Join [CertsPrefix issuerKey; Safe domain].
Definition SiteCert (issuerKey domain : string) : string :=
  path_Join [CertsSitePrefix issuerKey domain; Safe domain +:+ ".crt"].
Definition SitePrivateKey (issuerKey domain : string) : string :=
  path_Join [CertsSitePrefix issuerKey domain; Safe domain +:+ ".key"].
Definition SiteMeta (issuerKey domain : string) : string :=
  path_Join [CertsSitePrefix issuerKey domain; Safe domain +:+ ".json"].

(** [fastHash] (crypto.go) is the hex form of a 32-bit FNV-1a hash. *)
Definition fnv1a_step (h : Z) (c : ascii) : Z :=
  (Z.lxor h (Z.of_nat (nat_of_ascii c)) * 16777619 mod 2 ^ 32)%Z.
Fixpoint fnv1a (h : Z) (s : string) : Z :=
  match s with "" => h | String c s' => fnv1a (fnv1a_step h c) s' end.

Definition hex_digit (d : Z) : ascii :=
  ascii_of_nat (Z.to_nat (if (d <? 10)%Z then d + 48 else d + 87)).
(** [%x] without leading zeros. *)
Fixpoint hex_loop (fuel : nat) (n : Z) (acc : string) : string :=
  match fuel with
  | O => acc
  | S fuel' =>
      let acc := String (hex_digit (n mod 16)) acc in
      if (n / 16 =? 0)%Z then acc else hex_loop fuel' (n / 16) acc
  end.
Definition fastHash (input : bytes) : string := hex_loop 8 (fnv1a 2166136261 input) "".

Definition OCSPStaple (certNames : list string) (pemBundle : bytes) : string :=
  let ocspFileName := match certNames with n :: _ => Safe n +:+ "-" | [] => "" end in
  path_Join [prefixOCSP; ocspFileName +:+ fastHash pemBundle].

(** *** Lemmas on [Safe] *)

(** The characters of a sanitized component: no upper case either. *)
Definition lower_safe (c : ascii) : bool := safe_char c && negb (is_upper c).

Definition not_upper (c : ascii) : bool := negb (is_upper c).

Lemma not_upper_lower s : string_forall not_upper (ToLower s) = true.
Proof.
  induction s as [|c s IH]; [done|]. unfold ToLower in *. simpl. rewrite IH, andb_true_r.
  by destruct c as [[] [] [] [] [] [] [] []].
Qed.

Lemma string_forall_TrimLeft p s :
  string_forall p s = true → string_forall p (TrimLeft s) = true.
Proof.
  induction s as [|c s IH]; simpl; [done|]. intros H.
  destruct (is_space c); [|done]. apply andb_true_iff in H as [_ ?]. auto.
Qed.

Lemma string_forall_TrimRight p s :
  string_forall p s = true → string_forall p (TrimRight s) = true.
Proof.
  induction s as [|c s IH]; simpl; [done|]. intros [Hc Hs]%andb_true_iff. specialize (IH Hs).
  destruct (TrimRight s); simpl in *; [destruct (is_space c); simpl; by rewrite ?Hc|].
  by rewrite Hc.
Qed.

(** [safe_replace] only adds lower-case letters and punctuation. *)
Lemma safe_replace_not_upper s :
  string_forall not_upper s = true → string_forall not_upper (safe_replace s) = true.
Proof.
  remember (String.length s) as n eqn:Hn. revert s Hn.
  induction n as [n IH] using lt_wf_ind. intros [|c s] -> H; [done|].
  simpl in H. apply andb_true_iff in H as [Hc Hs]. simpl in IH.
  assert (string_forall not_upper (safe_replace s) = true) as Hr.
  { apply (IH (String.length s)); [lia|done|done]. }
  cbn [safe_replace]. repeat (destruct (Ascii.eqb c _); [done|]).
  destruct s as [|d s]; [by simpl; rewrite Hc|].
  destruct (Ascii.eqb c "." && Ascii.eqb d ".").
  - apply (IH (String.length s)); [simpl; lia|done|]. simpl in Hs.
    by apply andb_true_iff in Hs as [_ ?].
  - cbn [string_forall]. by rewrite Hc, Hr.
Qed.

Lemma string_forall_filter_other p q s :
  string_forall p s = true → string_forall p (string_filter q s) = true.
Proof.
  induction s as [|c s IH]; simpl; [done|]. intros [Hc Hs]%andb_true_iff.
  destruct (q c); simpl; [rewrite Hc|]; auto.
Qed.

Lemma string_forall_and p q s :
  string_forall p s = true → string_forall q s = true →
  string_forall (λ c, p c && q c) s = true.
Proof.
  induction s as [|c s IH]; simpl; [done|].
  intros [-> ?]%andb_true_iff [-> ?]%andb_true_iff. simpl. auto.
Qed.

Lemma Safe_lower_safe s : string_forall lower_safe (Safe s) = true.
Proof.
  apply string_forall_and; [apply string_forall_filter|].
  apply string_forall_filter_other, safe_replace_not_upper.
  apply string_forall_TrimRight, string_forall_TrimLeft, not_upper_lower.
Qed.

Lemma lower_safe_facts c :
  lower_safe c = true →
  lower_ascii c = c ∧ is_space c = false ∧ safe_char c = true ∧
  Ascii.eqb c " " = false ∧ Ascii.eqb c "+" = false ∧ Ascii.eqb c "*" = false ∧
  Ascii.eqb c ":" = false ∧ Ascii.eqb c "/" = false.
Proof. by destruct c as [[] [] [] [] [] [] [] []]. Qed.

Lemma lower_safe_ToLower s : string_forall lower_safe s = true → ToLower s = s.
Proof.
  induction s as [|c s IH]; simpl; [done|]. intros [Hc Hs]%andb_true_iff.
  unfold ToLower in *. simpl. rewrite IH by done.
  by destruct (lower_safe_facts c Hc) as (-> & _).
Qed.

Lemma lower_safe_TrimSpace s : string_forall lower_safe s = true → TrimSpace s = s.
Proof.
  intros H. unfold TrimSpace.
  assert (TrimLeft s = s) as ->.
  { destruct s as [|c s]; [done|]. simpl in *. apply andb_true_iff in H as [Hc _].
    by destruct (lower_safe_facts c Hc) as (_ & -> & _). }
  induction s as [|c s IH]; [done|]. simpl in *. apply andb_true_iff in H as [Hc Hs].
  rewrite IH by done. destruct s; [|done].
  by destruct (lower_safe_facts c Hc) as (_ & -> & _).
Qed.

Lemma Contains_dots c s :
  Contains (String c s) ".." =
  (Ascii.eqb c "." && HasPrefix s ".") || Contains s "..".
Proof.
  cbn [Contains]. f_equal. apply eq_true_iff_eq.
  rewrite andb_true_iff, !HasPrefix_spec, Ascii.eqb_eq. split.
  - intros [t Ht]. simpl in Ht. injection Ht as -> ->. split; [done|]. by exists t.
  - intros [-> [t ->]]. by exists t.
Qed.

(** On sanitized input the replacer only removes pairs of dots. *)
Lemma safe_replace_lower_safe c d s :
  lower_safe c = true →
  safe_replace (String c (String d s)) =
  if Ascii.eqb c "." && Ascii.eqb d "." then safe_replace s
  else String c (safe_replace (String d s)).
Proof.
  intros Hc. destruct (lower_safe_facts c Hc) as (_ & _ & _ & H1 & H2 & H3 & H4 & _).
  cbn [safe_replace]. by rewrite H1, H2, H3, H4.
Qed.

Lemma safe_replace_single c : lower_safe c = true → safe_replace (String c "") = String c "".
Proof.
  intros Hc. destruct (lower_safe_facts c Hc) as (_ & _ & _ & H1 & H2 & H3 & H4 & _).
  simpl. by rewrite H1, H2, H3, H4.
Qed.

Lemma HasPrefix_dot d s : HasPrefix (String d s) "." = Ascii.eqb d ".".
Proof.
  apply eq_true_iff_eq. rewrite HasPrefix_spec, Ascii.eqb_eq. split.
  - intros [t Ht]. by injection Ht.
  - intros ->. by exists s.
Qed.

Lemma safe_replace_id s :
  string_forall lower_safe s = true → Contains s ".." = false → safe_replace s = s.
Proof.
  induction s as [|c s IH]; [done|]. intros [Hc Hs]%andb_true_iff.
  rewrite Contains_dots, orb_false_iff. intros [Hd Hrest].
  destruct s as [|d s]; [by apply safe_replace_single|].
  rewrite safe_replace_lower_safe by done. rewrite HasPrefix_dot in Hd.
  rewrite Hd. f_equal. auto.
Qed.

Lemma safe_replace_shorter s :
  string_forall lower_safe s = true →
  (String.length (safe_replace s) ≤ String.length s)%nat ∧
  (Contains s ".." = true → String.length (safe_replace s) < String.length s)%nat.
Proof.
  remember (String.length s) as n eqn:Hn. revert s Hn.
  induction n as [n IH] using lt_wf_ind. intros [|c s] -> H; [done|].
  cbn [string_forall] in H. apply andb_true_iff in H as [Hc Hs].
  destruct s as [|d s].
  { rewrite safe_replace_single, Contains_dots by done. split; [done|].
    rewrite andb_false_r. done. }
  rewrite safe_replace_lower_safe by done. rewrite Contains_dots, HasPrefix_dot.
  destruct (Ascii.eqb c "." && Ascii.eqb d ".") eqn:E.
  - cbn [string_forall] in Hs. apply andb_true_iff in Hs as [_ Hs].
    destruct (IH (String.length s)) with (s := s) as [Hle _]; [simpl; lia|done|done|].
    simpl. lia.
  - destruct (IH (String.length (String d s))) with (s := String d s) as [Hle Hlt];
      [simpl; lia|done|done|].
    cbn [String.length] in *. simpl orb. split; [lia|]. intros Hdots. specialize (Hlt Hdots). lia.
Qed.

Lemma length_string_filter p s : (String.length (string_filter p s) ≤ String.length s)%nat.
Proof. induction s as [|c s IH]; simpl; [lia|]. destruct (p c); simpl; lia. Qed.

Lemma lower_safe_filter s : string_forall lower_safe s = true → string_filter safe_char s = s.
Proof.
  intros H. apply string_filter_id. eapply string_forall_impl; [|exact H].
  intros c Hc. by destruct (lower_safe_facts c Hc) as (_ & _ & -> & _).
Qed.

Lemma Safe_of_lower_safe s :
  string_forall lower_safe s = true → Safe s = string_filter safe_char (safe_replace s).
Proof. intros H. unfold Safe. by rewrite lower_safe_ToLower, lower_safe_TrimSpace. Qed.

(** *** Theorems *)

(** A sanitized component has only lower-case letters, digits and the
    characters ["_@.-"]: no slash, space or other separator survives. *)
Theorem Safe_charset s : string_forall lower_safe (Safe s) = true ∧ no_byte "/" (Safe s) = true.
Proof.
  pose proof (Safe_lower_safe s) as H. split; [done|].
  unfold no_byte. eapply string_forall_impl; [|exact H].
  intros c Hc. by destruct (lower_safe_facts c Hc) as (_ & _ & _ & _ & _ & _ & _ & ->).
Qed.

(** Sanitizing is idempotent exactly on the inputs whose sanitized form has
    no [".."]: the pairs of dots are removed before the other characters, so
    removing those can bring two dots together. *)
Theorem Safe_idempotent_iff s : Safe (Safe s) = Safe s ↔ Contains (Safe s) ".." = false.
Proof.
  pose proof (Safe_lower_safe s) as H. rewrite (Safe_of_lower_safe (Safe s)) by done. split.
  - intros E. apply not_true_iff_false. intros Hd.
    destruct (safe_replace_shorter (Safe s) H) as [_ Hlt]. specialize (Hlt Hd).
    pose proof (length_string_filter safe_char (safe_replace (Safe s))) as Hle.
    rewrite E in Hle. lia.
  - intros Hd. rewrite safe_replace_id by done. by apply lower_safe_filter.
Qed.

(** The sanitizer does not prevent directory traversal: there is a name
    whose sanitized form is [".."], so [Safe] is not idempotent and the
    name's site folder is the folder of all certificates. *)
Theorem Safe_allows_traversal :
  ∃ name, Safe name = ".." ∧ Safe (Safe name) ≠ Safe name ∧
          CertsSitePrefix "acme" name = prefixCerts.
Proof. exists "./.". vm_compute. repeat split. discriminate. Qed.

(** *** The site keys *)

(** The sanitized components are names of their own, not [""], ["."] or
    [".."]. *)
Definition plain_site (issuerKey domain : string) : Prop :=
  plain_elem (Safe issuerKey) = true ∧ plain_elem (Safe domain) = true.

Lemma plain_prefixCerts : plain_elem prefixCerts = true.
Proof. reflexivity. Qed.

Lemma plain_file base ext :
  no_byte "/" base = true → no_byte "/" ext = true → (2 < String.length ext)%nat →
  plain_elem (base +:+ ext) = true.
Proof.
  intros Hs He Hl.
  assert (2 < String.length (base +:+ ext))%nat as Hlen by (rewrite length_append; lia).
  unfold plain_elem. rewrite no_byte_append, Hs, He.
  rewrite !andb_true_iff, !negb_true_iff, !String.eqb_neq.
  repeat split; intros E; rewrite E in Hlen; simpl in Hlen; lia.
Qed.

Lemma plain_elem_file base ext :
  plain_elem base = true → no_byte "/" ext = true → (2 < String.length ext)%nat →
  plain_elem (base +:+ ext) = true.
Proof. intros H%plain_no_slash. by apply plain_file. Qed.

Lemma CertsSitePrefix_plain ik dom :
  plain_site ik dom →
  CertsSitePrefix ik dom = Join [prefixCerts; Safe ik; Safe dom] "/".
Proof.
  intros [H1 H2]. unfold CertsSitePrefix, CertsPrefix.
  change (path_Join [path_Join [Join [prefixCerts] "/"; Join [Safe ik] "/"]; Join [Safe dom] "/"]
          = Join [prefixCerts; Safe ik; Safe dom] "/").
  rewrite !path_Join_plain by (first [done | by repeat constructor]).
  done.
Qed.

Lemma site_file_plain ik dom ext :
  plain_site ik dom → no_byte "/" ext = true → (2 < String.length ext)%nat →
  path_Join [CertsSitePrefix ik dom; Safe dom +:+ ext] =
  Join [prefixCerts; Safe ik; Safe dom; Safe dom +:+ ext] "/".
Proof.
  intros Hp He Hl. pose proof Hp as [H1 H2]. rewrite CertsSitePrefix_plain by done.
  change (Safe dom +:+ ext) with (Join [Safe dom +:+ ext] "/") at 1.
  rewrite path_Join_plain; [done|done|done|].
  repeat constructor; [done|done|]. by apply plain_elem_file.
Qed.

Lemma site_file_inj ik dom ext ik' dom' ext' :
  plain_site ik dom → plain_site ik' dom' →
  no_byte "/" ext = true → no_byte "/" ext' = true →
  Join [prefixCerts; Safe ik; Safe dom; Safe dom +:+ ext] "/" =
  Join [prefixCerts; Safe ik'; Safe dom'; Safe dom' +:+ ext'] "/" →
  Safe ik = Safe ik' ∧ Safe dom = Safe dom' ∧ ext = ext'.
Proof.
  intros [H1 H2] [H1' H2'] He He' E. apply Join_inj in E; [|done|done|..].
  - injection E as Hi Hd Hf. split; [done|]. split; [done|].
    rewrite Hd in Hf. by apply append_inj_l in Hf.
  - repeat constructor; try by apply plain_no_slash.
    rewrite no_byte_append, He. by rewrite plain_no_slash.
  - repeat constructor; try by apply plain_no_slash.
    rewrite no_byte_append, He'. by rewrite plain_no_slash.
Qed.

(** The extensions of the three assets of a site. *)
Inductive asset := AssetCert | AssetKey | AssetMeta.
Definition asset_ext (a : asset) : string :=
  match a with AssetCert => ".crt" | AssetKey => ".key" | AssetMeta => ".json" end.
Definition asset_key (a : asset) (issuerKey domain : string) : string :=
  match a with
  | AssetCert => SiteCert issuerKey domain
  | AssetKey => SitePrivateKey issuerKey domain
  | AssetMeta => SiteMeta issuerKey domain
  end.

Lemma asset_key_plain a ik dom :
  plain_site ik dom →
  asset_key a ik dom = Join [prefixCerts; Safe ik; Safe dom; Safe dom +:+ asset_ext a] "/".
Proof. intros H. destruct a; apply site_file_plain; try done; simpl; lia. Qed.

Lemma asset_key_inj a a' ik dom ik' dom' :
  plain_site ik dom → plain_site ik' dom' →
  asset_key a ik dom = asset_key a' ik' dom' →
  a = a' ∧ Safe ik = Safe ik' ∧ Safe dom = Safe dom'.
Proof.
  intros Hp Hp'. rewrite !asset_key_plain by done. intros E.
  apply site_file_inj in E as (? & ? & E); [|done|done|by destruct a|by destruct a'].
  split; [|done]. by destruct a, a'.
Qed.

(** The storage keys of certificates, private keys and metadata never
    collide: two keys are equal only for the same kind of asset of the same
    sanitized issuer and domain, and each lies in the folder of its issuer and
    domain. *)
Theorem site_keys_distinct a a' ik dom ik' dom' :
  plain_site ik dom → plain_site ik' dom' →
  (asset_key a ik dom = asset_key a' ik' dom' →
   a = a' ∧ Safe ik = Safe ik' ∧ Safe dom = Safe dom') ∧
  HasPrefix (asset_key a ik dom) (CertsSitePrefix ik dom +:+ "/") = true.
Proof.
  intros Hp Hp'. split; [by apply asset_key_inj|].
  rewrite asset_key_plain, CertsSitePrefix_plain by done.
  apply HasPrefix_spec. exists (Safe dom +:+ asset_ext a). simpl. by rewrite !append_assoc.
Qed.

Lemma site_keys_distinct_witness :
  (asset_key AssetCert "acme" "*.a.com" = asset_key AssetKey "acme" "b.com" →
   AssetCert = AssetKey ∧ Safe "acme" = Safe "acme" ∧ Safe "*.a.com" = Safe "b.com") ∧
  HasPrefix (asset_key AssetCert "acme" "*.a.com") (CertsSitePrefix "acme" "*.a.com" +:+ "/")
  = true.
Proof. apply site_keys_distinct; vm_compute; auto. Defined.

Example SiteCert_example :
  SiteCert "acme-v02.api.letsencrypt.org-directory" "*.Example.com" =
  "certificates/acme-v02.api.letsencrypt.org-directory/wildcard_.example.com/wildcard_.example.com.crt".
Proof. vm_compute. reflexivity. Qed.
End KeyBuilder.

(** ** The storage interface *)

Record KeyInfo := MkKeyInfo {
  ki_Key : string;
  ki_Modified : Time;
  ki_Size : Z;
  ki_IsTerminal : bool
}.

Record keyValue := MkKV { kv_key : string; kv_value : bytes }.

(** [Storage] with [Locker]: the state of the back end is [St]. The methods
    that only read are functions of the state. *)
Class Storage (St : Type) := {
  Store : string → bytes → ST St (result unit);
  Load : St → string → result bytes;
  Delete : string → ST St (result unit);
  Exists : St → string → bool;
  List : St → string → bool → result (list string);
  Stat : St → string → result KeyInfo;
  Lock : string → ST St (result unit);
  Unlock : string → ST St (result unit)
}.

(** [k'] is the key [k] or lies below it when [k] is a directory. *)
Definition under (k k' : string) : bool :=
  String.eqb k k' || HasPrefix k' (k +:+ "/").

(** The entry of the directory [p] on the way to [k], which lies below it. *)
Definition child_of (p k : string) : string :=
  let rest := string_drop (S (String.length p)) k in
  p +:+ "/" +:+ match IndexByte rest "/" with Some i => string_take i rest | None => rest end.

(** What the methods' comments promise, against the abstract contents of the
    back end and the set of names it holds locked. A failed [Store] or
    [Delete] may leave its own key in any state, and no other. Nothing is
    promised about the contents after [Lock], which may wait for others. *)
Class StorageLaws (St : Type) `{!Storage St} := {
  contents : St → gmap string bytes;
  held : St → gset string;
  Load_spec s k :
    match contents s !! k with
    | Some v => Load s k = Ok v
    | None => ∃ e, Load s k = Err e ∧ errors_Is e ErrNotExist = true
    end;
  Exists_spec s k :
    Exists s k = true ↔ ∃ k', is_Some (contents s !! k') ∧ under k k' = true;
  Store_Ok k v s s' : Store k v s = (Ok tt, s') → contents s' = <[k := v]> (contents s);
  Store_Err k v s e s' : Store k v s = (Err e, s') →
    ∀ k', k' ≠ k → contents s' !! k' = contents s !! k';
  Delete_Ok k s s' : Delete k s = (Ok tt, s') →
    contents s' = filter (λ kv, under k kv.1 = false) (contents s);
  Delete_other k s r s' : Delete k s = (r, s') →
    ∀ k', under k k' = false → contents s' !! k' = contents s !! k';
  Lock_Ok k s s' : Lock k s = (Ok tt, s') → held s' = {[k]} ∪ held s;
  Lock_Err k s e s' : Lock k s = (Err e, s') → held s' = held s;
  Unlock_Ok k s s' : Unlock k s = (Ok tt, s') → held s' = held s ∖ {[k]};
  Unlock_Err k s e s' : Unlock k s = (Err e, s') → held s' = held s;
  Unlock_contents k s r s' : Unlock k s = (r, s') → contents s' = contents s;
  Store_held k v s r s' : Store k v s = (r, s') → held s' = held s;
  Delete_held k s r s' : Delete k s = (r, s') → held s' = held s
}.

(** *** [storeTx] *)

(** The inner loop of the rollback: delete what was stored, last first. *)
Fixpoint rollback `{!Storage St} (stored_rev : list keyValue) : ST St unit :=
  match stored_rev with
  | [] => mret tt
  | kv :: rest => λ s, rollback rest (snd (Delete (kv_key kv) s))
  end.

Fixpoint storeTx_loop `{!Storage St} (stored_rev todo : list keyValue) :
    ST St (result unit) :=
  match todo with
  | [] => mret (Ok tt)
  | kv :: rest => λ s,
      match Store (kv_key kv) (kv_value kv) s with
      | (Ok _, s1) => storeTx_loop (kv :: stored_rev) rest s1
      | (Err e, s1) => (Err e, snd (rollback stored_rev s1))
      end
  end.

Definition storeTx `{!Storage St} (all : list keyValue) : ST St (result unit) :=
  storeTx_loop [] all.

(** The contents after storing all the values in order. *)
Definition store_all (all : list keyValue) (m : gmap string bytes) : gmap string bytes :=
  fold_left (λ m kv, <[kv_key kv := kv_value kv]> m) all m.

(** *** The lock table of the process *)

(** The storage back ends of the process and the package's [locks] map, whose
    values refer to a back end. *)
Record LockState (St : Type) := MkLockState {
  ls_storages : list St;
  ls_locks : gmap string nat
}.
Arguments MkLockState {St}.
Arguments ls_storages {St}.
Arguments ls_locks {St}.

Definition acquireLock `{!Storage St} (i : nat) (lockKey : string) :
    ST (LockState St) (result unit) := λ w,
  match ls_storages w !! i with
  | None => (Err (Errorf "no such storage"), w)
  | Some st =>
      let '(err, st') := Lock lockKey st in
      let sts := <[i := st']> (ls_storages w) in
      (err, MkLockState sts
              (if is_Ok err then <[lockKey := i]> (ls_locks w) else ls_locks w))
  end.

Definition releaseLock `{!Storage St} (i : nat) (lockKey : string) :
    ST (LockState St) (result unit) := λ w,
  match ls_storages w !! i with
  | None => (Err (Errorf "no such storage"), w)
  | Some st =>
      let '(err, st') := Unlock lockKey st in
      let sts := <[i := st']> (ls_storages w) in
      (err, MkLockState sts
              (if is_Ok err then delete lockKey (ls_locks w) else ls_locks w))
  end.

(** The loop over [locks]; Go's iteration order is any order of its entries. *)
Fixpoint CleanUpOwnLocks `{!Storage St} (order : list (string * nat)) :
    ST (LockState St) unit :=
  match order with
  | [] => mret tt
  | (lockKey, i) :: rest => λ w,
      CleanUpOwnLocks rest (snd (releaseLock i lockKey w))
  end.

(** ** An in-memory back end

    The reference implementation of the interface, used to show that the laws
    can hold and to run the clients on concrete inputs. Writes to the keys in
    [ms_failing] fail. *)
Module MemStorage.
Record t := Mk {
  ms_map : gmap string bytes;
  ms_locked : gset string;
  ms_failing : gset string
}.

#[export] Instance mem_Storage : Storage t := {
  Store k v := λ s,
    if decide (k ∈ ms_failing s) then (Err (Errorf "write failed"), s)
    else (Ok tt, Mk (<[k := v]> (ms_map s)) (ms_locked s) (ms_failing s));
  Load s k := match ms_map s !! k with Some v => Ok v | None => Err ErrNotExist end;
  Delete k := λ s,
    (Ok tt, Mk (filter (λ kv, under k kv.1 = false) (ms_map s)) (ms_locked s) (ms_failing s));
  Exists s k := existsb (λ kv, under k kv.1) (map_to_list (ms_map s));
  List s p rec :=
    match filter (λ k, HasPrefix k (p +:+ "/") = true) (map_to_list (ms_map s)).*1 with
    | [] => Err ErrNotExist
    | ks => Ok (if rec then ks else remove_dups (child_of p <$> ks))
    end;
  Stat s k :=
    match ms_map s !! k with
    | Some v => Ok (MkKeyInfo k 0 (Z.of_nat (String.length v)) true)
    | None => if existsb (λ kv, under k kv.1) (map_to_list (ms_map s))
              then Ok (MkKeyInfo k 0 0 false) else Err ErrNotExist
    end;
  Lock k := λ s,
    if decide (k ∈ ms_locked s) then (Err DeadlineExceeded, s)
    else (Ok tt, Mk (ms_map s) ({[k]} ∪ ms_locked s) (ms_failing s));
  Unlock k := λ s,
    if decide (k ∈ ms_locked s)
    then (Ok tt, Mk (ms_map s) (ms_locked s ∖ {[k]}) (ms_failing s))
    else (Err ErrNotExist, s)
}.

Ltac mem_law :=
  intros; simpl in *; repeat case_decide; simplify_eq/=;
  repeat match goal with H : (_, _) = (_, _) |- _ => injection H as ?; subst end;
  simpl; try done; try set_solver.

#[export] Program Instance mem_StorageLaws : StorageLaws t := {
  contents := ms_map;
  held := ms_locked
}.
Next Obligation.
  intros s k. simpl. destruct (ms_map s !! k); [done|]. by exists ErrNotExist.
Qed.
Next Obligation.
  intros s k. simpl. rewrite existsb_exists. split.
  - intros ([k' v] & Hin & Hu). apply list_elem_of_In, elem_of_map_to_list in Hin.
    exists k'. by rewrite Hin.
  - intros (k' & [v Hv] & Hu). exists (k', v). split; [|done].
    by apply list_elem_of_In, elem_of_map_to_list.
Qed.
Solve Obligations with mem_law.
Next Obligation.
  intros k s r s' H k' Hu. simpl in H. injection H as <- <-. simpl.
  rewrite map_lookup_filter. destruct (ms_map s !! k'); [|done]. simpl.
  by rewrite option_guard_True.
Qed.

Definition empty : t := Mk ∅ ∅ ∅.
End MemStorage.
Export (hints) MemStorage.

(** ** Theorems about clients of the interface *)

Section clients.
Context `{!Storage St} `{!StorageLaws St}.
Implicit Types s : St.

Lemma Load_contents s k v : contents s !! k = Some v → Load s k = Ok v.
Proof. intros H. pose proof (Load_spec s k) as L. by rewrite H in L. Qed.

Lemma Load_Ok s k v : Load s k = Ok v → contents s !! k = Some v.
Proof.
  intros H. pose proof (Load_spec s k) as L. destruct (contents s !! k) as [w|].
  - rewrite H in L. by injection L as ->.
  - destruct L as (e & L & _). congruence.
Qed.

Lemma storeTx_loop_Ok stored todo s s' :
  storeTx_loop stored todo s = (Ok tt, s') → contents s' = store_all todo (contents s).
Proof.
  revert stored s. induction todo as [|kv todo IH]; intros stored s H; simpl in *.
  - by injection H as ->.
  - destruct (Store (kv_key kv) (kv_value kv) s) as [[[]|e] s1] eqn:E; [|done].
    apply Store_Ok in E. apply IH in H. by rewrite H, E.
Qed.

Lemma store_all_lookup_ne all m k :
  k ∉ kv_key <$> all → store_all all m !! k = m !! k.
Proof.
  revert m. induction all as [|kv all IH]; intros m Hk; [done|]. simpl.
  apply not_elem_of_cons in Hk as [Hne Hk]. unfold store_all in *. simpl.
  rewrite IH by done. by rewrite lookup_insert_ne.
Qed.

Lemma store_all_lookup all m kv :
  NoDup (kv_key <$> all) → kv ∈ all → store_all all m !! kv_key kv = Some (kv_value kv).
Proof.
  revert m. induction all as [|kv' all IH]; intros m Hnd Hin; [by apply elem_of_nil in Hin|].
  simpl in Hnd. apply NoDup_cons in Hnd as [Hni Hnd].
  change (store_all (kv' :: all) m) with (store_all all (<[kv_key kv' := kv_value kv']> m)).
  apply elem_of_cons in Hin as [->|Hin]; [|by apply IH].
  rewrite store_all_lookup_ne by done. by rewrite lookup_insert_eq.
Qed.

(** When [storeTx] reports success every value is stored: each key loads
    its value afterwards, and the keys it was not given are as they were. *)
Theorem storeTx_stores_all all s s' :
  NoDup (kv_key <$> all) →
  storeTx all s = (Ok tt, s') →
  (∀ kv, kv ∈ all → Load s' (kv_key kv) = Ok (kv_value kv)) ∧
  (∀ k, k ∉ kv_key <$> all → contents s' !! k = contents s !! k).
Proof.
  intros Hnd H. apply storeTx_loop_Ok in H. split.
  - intros kv Hin. apply Load_contents. rewrite H. by apply store_all_lookup.
  - intros k Hk. rewrite H. by apply store_all_lookup_ne.
Qed.

Definition deletes_succeed : Prop := ∀ k s, ∃ s', Delete k s = (Ok tt, s').

Lemma rollback_contents stored s s' :
  deletes_succeed →
  rollback stored s = (tt, s') →
  contents s' = filter (λ kv, existsb (λ x, under (kv_key x) kv.1) stored = false) (contents s).
Proof.
  intros Hd. revert s. induction stored as [|kv stored IH]; intros s H; simpl in *.
  - injection H as ->. symmetry. by apply map_filter_id.
  - destruct (Hd (kv_key kv) s) as [s1 E]. rewrite E in H. simpl in H.
    apply IH in H. rewrite H, (Delete_Ok _ _ _ E), map_filter_filter.
    apply map_filter_ext. intros k v _. simpl. rewrite orb_false_iff. tauto.
Qed.

Lemma under_refl k : under k k = true.
Proof. unfold under. by rewrite String.eqb_refl. Qed.

Lemma storeTx_loop_Err stored todo s0 s e s' :
  deletes_succeed →
  (∀ k, is_Some (contents s0 !! k) → ∀ kv, kv ∈ stored ++ todo → under (kv_key kv) k = false)%list →
  contents s = store_all (reverse stored) (contents s0) →
  storeTx_loop stored todo s = (Err e, s') →
  ∃ kv, kv ∈ todo ∧ ∀ k, k ≠ kv_key kv → contents s' !! k = contents s0 !! k.
Proof.
  intros Hd. revert stored s. induction todo as [|kv todo IH]; intros stored s Hf Hs H; [done|].
  simpl in H. destruct (Store (kv_key kv) (kv_value kv) s) as [[[]|e1] s1] eqn:E.
  - apply IH in H as (kv' & Hin & H).
    + exists kv'. split; [by right|done].
    + intros k Hk kv' Hin. apply (Hf k Hk). set_solver.
    + rewrite (Store_Ok _ _ _ _ E), Hs, reverse_cons. unfold store_all.
      by rewrite fold_left_app.
  - injection H as -> <-. exists kv. split; [by left|]. intros k Hne.
    destruct (rollback stored s1) as [[] s2] eqn:R. simpl.
    rewrite (rollback_contents _ _ _ Hd R), map_lookup_filter.
    rewrite (Store_Err _ _ _ _ _ E k Hne), Hs.
    destruct (contents s0 !! k) as [v|] eqn:E0.
    + assert (k ∉ kv_key <$> reverse stored) as Hni.
      { intros (x & -> & Hx)%list_elem_of_fmap.
        assert (under (kv_key x) (kv_key x) = false) as Hu by (apply Hf; set_solver).
        by rewrite under_refl in Hu. }
      rewrite store_all_lookup_ne, E0 by done. simpl. rewrite option_guard_True; [done|].
      apply not_true_iff_false. intros (x & Hx & Hu)%existsb_exists.
      apply list_elem_of_In in Hx. rewrite (Hf k) in Hu; [done|by eexists|set_solver].
    + destruct (decide (k ∈ kv_key <$> reverse stored)) as [Hi|Hi].
      * destruct (store_all _ _ !! k); [|done]. simpl. rewrite option_guard_False; [done|].
        rewrite not_false_iff_true. apply existsb_exists.
        apply list_elem_of_fmap in Hi as (x & -> & Hx). exists x.
        rewrite under_refl. split; [|done]. apply list_elem_of_In. set_solver.
      * by rewrite store_all_lookup_ne, E0.
Qed.

(** When [storeTx] fails and none of its keys was in use (as a file or a
    directory), the rollback leaves the contents as they were at every key but
    the one whose [Store] failed. *)
Theorem storeTx_rolls_back all s e s' :
  deletes_succeed →
  (∀ k, is_Some (contents s !! k) → ∀ kv, kv ∈ all → under (kv_key kv) k = false) →
  storeTx all s = (Err e, s') →
  ∃ kv, kv ∈ all ∧ ∀ k, k ≠ kv_key kv → contents s' !! k = contents s !! k.
Proof. intros Hd Hf H. by eapply storeTx_loop_Err in H. Qed.

(** The rollback does not restore: a value that the transaction had
    already overwritten when a later [Store] fails is gone afterwards, the old
    one and the new one. *)
Theorem storeTx_rollback_loses kv1 kv2 s s1 e s2 s3 :
  Store (kv_key kv1) (kv_value kv1) s = (Ok tt, s1) →
  Store (kv_key kv2) (kv_value kv2) s1 = (Err e, s2) →
  Delete (kv_key kv1) s2 = (Ok tt, s3) →
  storeTx [kv1; kv2] s = (Err e, s3) ∧ contents s3 !! kv_key kv1 = None.
Proof.
  intros H1 H2 H3. unfold storeTx. simpl. rewrite H1, H2. simpl. rewrite H3. split; [done|].
  rewrite (Delete_Ok _ _ _ H3). apply map_lookup_filter_None. right.
  intros v _. simpl. by rewrite under_refl.
Qed.
End clients.

Lemma mem_deletes_succeed : @deletes_succeed MemStorage.t _.
Proof. intros k s. by eexists. Qed.

Definition ex_kvs : list keyValue := [MkKV "a.key" "K"; MkKV "a.crt" "C"].
Definition ex_storage : MemStorage.t :=
  MemStorage.Mk {["a.key" := "old"; "b.crt" := "B"]} ∅ {["x.crt"]}.

Lemma storeTx_stores_all_witness :
  let s' := snd (storeTx ex_kvs ex_storage) in
  (∀ kv, kv ∈ ex_kvs → Load s' (kv_key kv) = Ok (kv_value kv)) ∧
  (∀ k, k ∉ kv_key <$> ex_kvs → contents s' !! k = contents ex_storage !! k).
Proof.
  intros s'. apply storeTx_stores_all.
  - apply (bool_decide_unpack _). by vm_compute.
  - by vm_compute.
Defined.

Definition ex_kvs_failing : list keyValue := [MkKV "x.key" "K"; MkKV "x.crt" "C"].

Lemma storeTx_rolls_back_witness :
  let s' := snd (storeTx ex_kvs_failing ex_storage) in
  ∃ kv, kv ∈ ex_kvs_failing ∧
        ∀ k, k ≠ kv_key kv → contents s' !! k = contents ex_storage !! k.
Proof.
  intros s'. apply (storeTx_rolls_back _ _ (Errorf "write failed")).
  - apply mem_deletes_succeed.
  - intros k [v Hk] kv Hin.
    assert (k = "a.key" ∨ k = "b.crt") as Hk'.
    { simpl in Hk. apply lookup_insert_Some in Hk as [[? _]|[_ Hk]]; [by left|right].
      by apply lookup_singleton_Some in Hk as [? _]. }
    repeat (apply elem_of_cons in Hin as [->|Hin]; [by destruct Hk' as [-> | ->]|]).
    by apply elem_of_nil in Hin.
  - by vm_compute.
Defined.

Lemma storeTx_rollback_loses_witness :
  let s := ex_storage in
  let kvs := [MkKV "a.key" "new"; MkKV "x.crt" "C"] in
  ∃ s3, contents s !! "a.key" = Some "old" ∧
        storeTx kvs s = (Err (Errorf "write failed"), s3) ∧
        contents s3 !! "a.key" = None.
Proof.
  intros s kvs. eexists. split; [done|].
  apply (storeTx_rollback_loses (MkKV "a.key" "new") (MkKV "x.crt" "C") s
           (snd (Store "a.key" "new" s)) (Errorf "write failed")
           (snd (Store "a.key" "new" s))); by vm_compute.
Defined.

(** *** The lock table *)
Section locks.
Context `{!Storage St} `{!StorageLaws St}.
Implicit Types w : LockState St.

(** The names the back end [i] holds locked. *)
Definition heldAt w (i : nat) : gset string :=
  default ∅ (held <$> ls_storages w !! i).

(** Every entry of the table is a lock that its back end holds. *)
Definition lock_inv w : Prop :=
  ∀ k i, ls_locks w !! k = Some i → k ∈ heldAt w i.

Inductive lock_op := OpAcquire (i : nat) (k : string) | OpRelease (i : nat) (k : string).
Definition run_lock_op (o : lock_op) : ST (LockState St) (result unit) :=
  match o with OpAcquire i k => acquireLock i k | OpRelease i k => releaseLock i k end.

Lemma heldAt_insert sts i st st' m m' j :
  sts !! i = Some st →
  heldAt (MkLockState (<[i := st']> sts) m) j =
  if decide (j = i) then held st' else heldAt (MkLockState sts m') j.
Proof.
  intros Hi. unfold heldAt. simpl. case_decide as Hj.
  - subst. by rewrite list_lookup_insert_eq by (by eapply lookup_lt_Some).
  - by rewrite list_lookup_insert_ne by done.
Qed.

Lemma acquireLock_inv i k w r w' : acquireLock i k w = (r, w') → lock_inv w → lock_inv w'.
Proof.
  intros H Hinv. unfold acquireLock in H. destruct (ls_storages w !! i) as [st|] eqn:E.
  2: { by injection H as <- <-. }
  destruct (Lock k st) as [err st'] eqn:EL. injection H as <- <-.
  intros k' j Hk. simpl in Hk. rewrite (heldAt_insert _ _ st _ _ (ls_locks w)) by done.
  destruct w as [sts m]. simpl in *. destruct err as [[]|e]; simpl in Hk.
  - rewrite (Lock_Ok _ _ _ EL). apply lookup_insert_Some in Hk as [[-> ->]|[Hne Hk]].
    + rewrite decide_True by done. set_solver.
    + apply Hinv in Hk. unfold heldAt in *. simpl in *. case_decide; [|done].
      subst. rewrite E in Hk. set_solver.
  - rewrite (Lock_Err _ _ _ _ EL). apply Hinv in Hk. unfold heldAt in *. simpl in *.
    case_decide; [|done]. subst. by rewrite E in Hk.
Qed.

Lemma releaseLock_inv i k w r w' : releaseLock i k w = (r, w') → lock_inv w → lock_inv w'.
Proof.
  intros H Hinv. unfold releaseLock in H. destruct (ls_storages w !! i) as [st|] eqn:E.
  2: { by injection H as <- <-. }
  destruct (Unlock k st) as [err st'] eqn:EL. injection H as <- <-.
  intros k' j Hk. simpl in Hk. rewrite (heldAt_insert _ _ st _ _ (ls_locks w)) by done.
  destruct w as [sts m]. simpl in *. destruct err as [[]|e]; simpl in Hk.
  - rewrite (Unlock_Ok _ _ _ EL). apply lookup_delete_Some in Hk as [Hne Hk].
    apply Hinv in Hk. unfold heldAt in *. simpl in *. case_decide; [|done].
    subst. rewrite E in Hk. set_solver.
  - rewrite (Unlock_Err _ _ _ _ EL). apply Hinv in Hk. unfold heldAt in *. simpl in *.
    case_decide; [|done]. subst. by rewrite E in Hk.
Qed.

Lemma run_lock_ops_inv ops w :
  lock_inv w → lock_inv (fold_left (λ w o, snd (run_lock_op o w)) ops w).
Proof.
  revert w. induction ops as [|o ops IH]; intros w Hw; [done|]. apply IH.
  destruct (run_lock_op o w) as [r w'] eqn:E. simpl. destruct o; simpl in E.
  - by eapply acquireLock_inv.
  - by eapply releaseLock_inv.
Qed.

(** One step of the clean-up: the entry is kept exactly when its [Unlock]
    failed, and the other entries and locks are as before. *)
Lemma releaseLock_spec i k w r w' :
  releaseLock i k w = (r, w') →
  (∀ j, heldAt w' j ⊆ heldAt w j) ∧
  (∀ k', k' ≠ k → ls_locks w' !! k' = ls_locks w !! k') ∧
  (ls_locks w' !! k = ls_locks w !! k ∨ ls_locks w' !! k = None ∧ k ∉ heldAt w' i).
Proof.
  unfold releaseLock. destruct (ls_storages w !! i) as [st|] eqn:E.
  2: { intros H. injection H as <- <-. auto. }
  destruct (Unlock k st) as [err st'] eqn:EL. intros H. injection H as <- <-.
  assert (∀ m j, heldAt (MkLockState (<[i := st']> (ls_storages w)) m) j =
             if decide (j = i) then held st' else heldAt w j) as Hh.
  { intros m j. rewrite (heldAt_insert _ _ st _ _ (ls_locks w)) by done. by destruct w. }
  assert (heldAt w i = held st) as Hi by (unfold heldAt; by rewrite E).
  destruct err as [[]|e]; simpl; split; try split.
  - intros j. rewrite Hh, (Unlock_Ok _ _ _ EL). case_decide; set_solver.
  - intros k' Hne. by rewrite lookup_delete_ne.
  - right. rewrite lookup_delete_eq, Hh, (Unlock_Ok _ _ _ EL), decide_True by done. set_solver.
  - intros j. rewrite Hh, (Unlock_Err _ _ _ _ EL). case_decide; set_solver.
  - done.
  - by left.
Qed.

Lemma CleanUpOwnLocks_spec order w w' :
  NoDup order.*1 → CleanUpOwnLocks order w = (tt, w') →
  (∀ j, heldAt w' j ⊆ heldAt w j) ∧
  (∀ k, k ∉ order.*1 → ls_locks w' !! k = ls_locks w !! k) ∧
  (∀ k i, (k, i) ∈ order →
     ls_locks w' !! k = ls_locks w !! k ∨ ls_locks w' !! k = None ∧ k ∉ heldAt w' i).
Proof.
  revert w. induction order as [|[k i] order IH]; intros w Hnd H; simpl in *.
  - injection H as ->. split; [done|]. split; [done|]. by intros ? ? ?%elem_of_nil.
  - apply NoDup_cons in Hnd as [Hni Hnd].
    destruct (releaseLock i k w) as [r w1] eqn:E. simpl in H.
    apply releaseLock_spec in E as (Hh & Ho & Hk). apply IH in H as (Hh' & Ho' & Hk'); [|done].
    split; [set_solver|]. split.
    + intros k' [Hne Hn]%not_elem_of_cons. by rewrite Ho', Ho by done.
    + intros k' i' [[= -> ->]|Hin]%elem_of_cons.
      * rewrite Ho' by done. destruct Hk as [Hk|[Hk Hk2]]; [by left|right]. set_solver.
      * assert (k' ≠ k). { intros ->. by apply Hni, list_elem_of_fmap; exists (k, i'). }
        rewrite <-(Ho k') by done. by apply Hk'.
Qed.

(** [CleanUpOwnLocks] releases the process's locks: starting from a process
    with no locks, after any sequence of acquired and released locks the table
    only names locks its back ends hold; the clean-up then visits every entry,
    in any order, and each one is either gone from the table and no longer held
    by its back end, or still in the table. Nothing is locked by it. *)
Theorem CleanUpOwnLocks_releases sts ops order w w' :
  w = fold_left (λ w o, snd (run_lock_op o w)) ops (MkLockState sts ∅) →
  order ≡ₚ map_to_list (ls_locks w) →
  CleanUpOwnLocks order w = (tt, w') →
  lock_inv w ∧
  ∀ k i, ls_locks w !! k = Some i →
    k ∈ heldAt w i ∧
    (ls_locks w' !! k = Some i ∨ ls_locks w' !! k = None ∧ k ∉ heldAt w' i).
Proof.
  intros -> Hperm H. set (w0 := fold_left _ _ _) in *.
  assert (lock_inv w0) as Hinv by (by apply run_lock_ops_inv).
  split; [done|]. intros k i Hk. split; [by apply Hinv|].
  apply CleanUpOwnLocks_spec in H as (_ & _ & H).
  - rewrite <-Hk. apply H. rewrite Hperm. by apply elem_of_map_to_list.
  - rewrite Hperm. apply NoDup_fst_map_to_list.
Qed.
End locks.

Lemma CleanUpOwnLocks_releases_witness :
  let w := MkLockState [MemStorage.Mk ∅ {["l"]} ∅] {["l" := 0%nat]} in
  let w' := snd (CleanUpOwnLocks [("l", 0%nat)] w) in
  lock_inv w ∧
  ∀ k i, ls_locks w !! k = Some i →
    k ∈ heldAt w i ∧
    (ls_locks w' !! k = Some i ∨ ls_locks w' !! k = None ∧ k ∉ heldAt w' i).
Proof.
  intros w w'.
  apply (CleanUpOwnLocks_releases [MemStorage.empty] [OpAcquire 0 "l"] [("l", 0%nat)]).
  - by vm_compute.
  - subst w. simpl. by rewrite map_to_list_singleton.
  - by vm_compute.
Defined.
