(* ===== verification/Crypto.v ===== *)
(** * Certificate resources (crypto.go, certmagic.go)

    The resource that is stored for a certificate (its PEM bundle, its private
    key and the issuer's metadata), the key under which it is stored, and the
    functions that save it, load it and choose between the resources of several
    issuers; the PEM forms of private keys and certificate bundles.

    The encoders of the Go library (JSON, PEM, DER, IDNA) are the operations
    of the class [Codec]; [CodecLaws] states the documented behaviour that
    theorems use, and [PlainCodec] is a concrete codec for which it holds. *)

From S2P Require Import Prelude GoStrings Certificates Storage.
From Stdlib Require Import Ascii.
Import KeyBuilder.
Open Scope string_scope.

(** ** Library encoders *)

(** [crypto.PrivateKey]: the supported kinds of keys with their material, and
    any other type. *)
Inductive PrivateKey :=
| EcdsaKey (k : bytes)
| RsaKey (k : bytes)
| Ed25519Key (k : bytes)
| OtherKey.

#[export] Instance PrivateKey_eq_dec : EqDecision PrivateKey.
Proof. solve_decision. Defined.

(** [pem.Block], without headers. *)
Record PEMBlock := MkPEMBlock { pem_Type : string; pem_Bytes : bytes }.

(** What is read of an [acme.Certificate] in the issuer data. *)
Record ACMEData := MkACMEData { acme_CA : string; acme_RenewalInfo : option RenewalInfo }.

Class Codec := {
  (** [json.MarshalIndent] and [json.Unmarshal] of the exported fields of a
      [CertificateResource]: its SANs and the raw issuer data. *)
  json_MarshalMeta : list string → bytes → result bytes;
  json_UnmarshalMeta : bytes → result (list string * bytes);
  json_UnmarshalACME : bytes → result ACMEData;
  idna_ToASCII : string → result string;
  idna_LookupToASCII : string → result string;
  pem_Decode : bytes → option PEMBlock * bytes;
  pem_EncodeToMemory : PEMBlock → bytes;
  x509_ParseCertificate : bytes → result X509;
  x509_MarshalECPrivateKey : bytes → result bytes;
  x509_MarshalPKCS1PrivateKey : bytes → bytes;
  x509_MarshalPKCS8PrivateKey : bytes → result bytes;
  x509_ParsePKCS1PrivateKey : bytes → result PrivateKey;
  x509_ParsePKCS8PrivateKey : bytes → result PrivateKey;
  x509_ParseECPrivateKey : bytes → result PrivateKey
}.

(** [json_canon] is the form in which encoded issuer data is read back
    ([MarshalIndent] reformats it). *)
Class CodecLaws `{!Codec} := {
  json_canon : bytes → bytes;
  json_Meta_roundtrip sans data b :
    json_MarshalMeta sans data = Ok b → json_UnmarshalMeta b = Ok (sans, json_canon data);
  pem_roundtrip blk : pem_Decode (pem_EncodeToMemory blk) = (Some blk, "");
  pem_Decode_shorter b blk rest :
    pem_Decode b = (Some blk, rest) → (String.length rest < String.length b)%nat;
  (** each DER form is read back by its parser and rejected by the others *)
  PKCS1_roundtrip k :
    x509_ParsePKCS1PrivateKey (x509_MarshalPKCS1PrivateKey k) = Ok (RsaKey k);
  EC_roundtrip k der : x509_MarshalECPrivateKey k = Ok der →
    is_Ok (x509_ParsePKCS1PrivateKey der) = false ∧
    is_Ok (x509_ParsePKCS8PrivateKey der) = false ∧
    x509_ParseECPrivateKey der = Ok (EcdsaKey k);
  PKCS8_roundtrip k der : x509_MarshalPKCS8PrivateKey k = Ok der →
    is_Ok (x509_ParsePKCS1PrivateKey der) = false ∧
    x509_ParsePKCS8PrivateKey der = Ok (Ed25519Key k)
}.

(** ** Private keys and certificate bundles *)

Definition PEMEncodePrivateKey `{!Codec} (key : PrivateKey) : result bytes :=
  let block ty der := Ok (pem_EncodeToMemory (MkPEMBlock (ty +:+ " PRIVATE KEY") der)) in
  match key with
  | EcdsaKey k =>
      match x509_MarshalECPrivateKey k with Err e => Err e | Ok der => block "EC" der end
  | RsaKey k => block "RSA" (x509_MarshalPKCS1PrivateKey k)
  | Ed25519Key k =>
      match x509_MarshalPKCS8PrivateKey k with Err e => Err e | Ok der => block "ED25519" der end
  | OtherKey => Err (Errorf "unsupported key type")
  end.

Definition PEMDecodePrivateKey `{!Codec} (keyPEMBytes : bytes) : result PrivateKey :=
  match pem_Decode keyPEMBytes with
  | (None, _) => Err (Errorf "failed to decode PEM block containing private key")
  | (Some blk, _) =>
      if negb (pem_Type blk =? "PRIVATE KEY") && negb (HasSuffix (pem_Type blk) " PRIVATE KEY")
      then Err (Errorf "unknown PEM header")
      else
        match x509_ParsePKCS1PrivateKey (pem_Bytes blk) with
        | Ok key => Ok key
        | Err _ =>
            match x509_ParsePKCS8PrivateKey (pem_Bytes blk) with
            | Ok OtherKey =>
                Err (Errorf "found unknown private key type in PKCS#8 wrapping")
            | Ok key => Ok key
            | Err _ =>
                match x509_ParseECPrivateKey (pem_Bytes blk) with
                | Ok key => Ok key
                | Err _ => Err (Errorf "unknown private key type")
                end
            end
        end
  end.

(** The loop of [parseCertsFromPEMBundle]: every decoded block makes the rest
    shorter, so the length of the bundle bounds the iterations. *)
Fixpoint parse_certs_loop `{!Codec} (fuel : nat) (certificates : list X509) (bundle : bytes) :
    result (list X509) :=
  match fuel with
  | O => Err (Errorf "out of fuel")
  | S fuel' =>
      match pem_Decode bundle with
      | (None, _) => Ok certificates
      | (Some blk, rest) =>
          if pem_Type blk =? "CERTIFICATE" then
            match x509_ParseCertificate (pem_Bytes blk) with
            | Err e => Err e
            | Ok cert => parse_certs_loop fuel' (certificates ++ [cert])%list rest
            end
          else parse_certs_loop fuel' certificates rest
      end
  end.

Definition parseCertsFromPEMBundle `{!Codec} (bundle : bytes) : result (list X509) :=
  match parse_certs_loop (S (String.length bundle)) [] bundle with
  | Err e => Err e
  | Ok [] => Err (Errorf "no certificates found in bundle")
  | Ok certificates => Ok certificates
  end.

(** ** Key generation *)

Inductive KeyType := KeyTypeUnset | ED25519 | P256 | P384 | RSA2048 | RSA4096 | RSA8192
                   | KeyTypeOther (s : string).
Inductive KeySpec := SpecEd25519 | SpecP256 | SpecP384 | SpecRSA (bits : Z).

(** What [StandardKeyGenerator.GenerateKey] asks the library to generate. *)
Definition GenerateKey_spec (kt : KeyType) : result KeySpec :=
  match kt with
  | ED25519 => Ok SpecEd25519
  | KeyTypeUnset | P256 => Ok SpecP256
  | P384 => Ok SpecP384
  | RSA2048 => Ok (SpecRSA 2048)
  | RSA4096 => Ok (SpecRSA 4096)
  | RSA8192 => Ok (SpecRSA 8192)
  | KeyTypeOther _ => Err (Errorf "unrecognized or unsupported key type")
  end.

(** ** Certificate resources *)

Record CertificateResource := MkCertificateResource {
  SANs : list string;
  CertificatePEM : bytes;
  PrivateKeyPEM : bytes;
  IssuerData : bytes;
  res_issuerKey : string
}.

#[export] Instance CertificateResource_eq_dec : EqDecision CertificateResource.
Proof. solve_decision. Defined.

Definition string_le (a b : string) : Prop := String.leb a b = true.
#[export] Instance string_le_dec a b : Decision (string_le a b).
Proof. unfold string_le. apply _. Defined.

(** [sort.Strings]. *)
Definition sort_Strings (l : list string) : list string := merge_sort string_le l.

Definition trunc : string := "_trunc".

(** The key; the code also leaves the resource's SANs sorted, which is
    [sort_Strings (SANs cr)]. *)
Definition NamesKey (sans : list string) : string :=
  let result := Join (sort_Strings sans) "," in
  if (1024 <? String.length result)%nat
  then string_take (1024 - String.length trunc) result +:+ trunc
  else result.

(** [x509.CertificateRequest]: the subjects it names. *)
Record CertificateRequest := MkCSR {
  csr_CommonName : string;
  csr_DNSNames : list string;
  csr_EmailAddresses : list string;
  csr_IPAddresses : list string;
  csr_URIs : list string
}.

Definition namesFromCSR (csr : CertificateRequest) : list string :=
  ((if negb (csr_CommonName csr =? "") then [csr_CommonName csr] else []) ++
   csr_DNSNames csr ++ csr_EmailAddresses csr ++ csr_IPAddresses csr ++ csr_URIs csr)%list.

Definition getACMEData `{!Codec} (certRes : CertificateResource) : result ACMEData :=
  if (String.length (IssuerData certRes) =? 0)%nat then Ok (MkACMEData "" None)
  else json_UnmarshalACME (IssuerData certRes).

Definition getARI `{!Codec} (certRes : CertificateResource) : result (option RenewalInfo) :=
  match getACMEData certRes with
  | Err e => Err e
  | Ok acmeData => Ok (acme_RenewalInfo acmeData)
  end.

Section resources.
Context `{!Codec} `{!Storage St}.

(** The three items of a resource, in the order they are stored. *)
Definition resource_kvs (issuerKey : string) (cert : CertificateResource) (metaBytes : bytes) :
    list keyValue :=
  let certKey := NamesKey (SANs cert) in
  [ MkKV (SitePrivateKey issuerKey certKey) (PrivateKeyPEM cert);
    MkKV (SiteCert issuerKey certKey) (CertificatePEM cert);
    MkKV (SiteMeta issuerKey certKey) metaBytes ].

Definition saveCertResource (issuerKey : string) (cert : CertificateResource) :
    ST St (result unit) :=
  match json_MarshalMeta (SANs cert) (IssuerData cert) with
  | Err _ => mret (Err (Errorf "encoding certificate metadata"))
  | Ok metaBytes => storeTx (resource_kvs issuerKey cert metaBytes)
  end.

Definition loadCertResource (s : St) (issuerKey certNamesKey : string) :
    result CertificateResource :=
  match idna_ToASCII certNamesKey with
  | Err _ => Err (Errorf "converting to ASCII")
  | Ok normalizedName =>
      match Load s (SitePrivateKey issuerKey normalizedName) with
      | Err e => Err e
      | Ok keyBytes =>
          match Load s (SiteCert issuerKey normalizedName) with
          | Err e => Err e
          | Ok certBytes =>
              match Load s (SiteMeta issuerKey normalizedName) with
              | Err e => Err e
              | Ok metaBytes =>
                  match json_UnmarshalMeta metaBytes with
                  | Err _ => Err (Errorf "decoding certificate metadata")
                  | Ok (sans, data) =>
                      Ok (MkCertificateResource sans certBytes keyBytes data issuerKey)
                  end
              end
          end
      end
  end.

(** The loop over the issuers: the resources found, with their decoded leaf,
    and the last "not found" error. *)
Fixpoint load_each (s : St) (issuers : list string) (certNamesKey : string)
    (acc : list (CertificateResource * X509)) (lastErr : option error) :
    result (list (CertificateResource * X509) * option error) :=
  match issuers with
  | [] => Ok (acc, lastErr)
  | issuer :: rest =>
      match loadCertResource s issuer certNamesKey with
      | Err err =>
          if errors_Is err ErrNotExist then load_each s rest certNamesKey acc (Some err)
          else Err err
      | Ok certRes =>
          match parseCertsFromPEMBundle (CertificatePEM certRes) with
          | Err err => Err err
          | Ok [] => Err (Panic "index out of range")
          | Ok (decoded :: _) =>
              load_each s rest certNamesKey (acc ++ [(certRes, decoded)])%list lastErr
          end
      end
  end.

(** The order of the sort: the most recently issued comes first. *)
Definition newer_first (a b : CertificateResource * X509) : Prop :=
  (NotBefore b.2 ≤ NotBefore a.2)%Z.
#[export] Instance newer_first_dec a b : Decision (newer_first a b).
Proof. unfold newer_first. apply _. Defined.

(** [issuers] are the issuer keys of [cfg.Issuers]. *)
Definition loadCertResourceAnyIssuer (s : St) (issuers : list string) (certNamesKey : string) :
    result CertificateResource :=
  match issuers with
  | [issuer] => loadCertResource s issuer certNamesKey
  | _ =>
      match load_each s issuers certNamesKey [] None with
      | Err e => Err e
      | Ok (certResources, lastErr) =>
          match merge_sort newer_first certResources with
          | [] => Err (default (Errorf "no certificate resources found") lastErr)
          | (certRes, _) :: _ => Ok certRes
          end
      end
  end.
End resources.

(** ** A concrete codec

    Strings are escaped character by character and terminated, so that
    decoding is exact; it shows that [CodecLaws] can hold and lets the
    functions run on concrete inputs. *)
Module PlainCodec.
Fixpoint enc_str (s rest : string) : string :=
  match s with
  | "" => String "e" rest
  | String c s' => String "c" (String c (enc_str s' rest))
  end.
Fixpoint dec_str (s : string) : option (string * string) :=
  match s with
  | String "e" rest => Some ("", rest)
  | String "c" (String c s') =>
      match dec_str s' with Some (w, rest) => Some (String c w, rest) | None => None end
  | _ => None
  end.

Lemma dec_enc_str s rest : dec_str (enc_str s rest) = Some (s, rest).
Proof. induction s as [|c s IH]; simpl; [done|]. by rewrite IH. Qed.

Lemma dec_str_shorter n s w rest :
  (String.length s ≤ n)%nat →
  dec_str s = Some (w, rest) → (String.length rest < String.length s)%nat.
Proof.
  revert s w rest. induction n as [|n IH]; intros s w rest Hn H;
    (destruct s as [|c s]; [done|]); simpl in Hn; [lia|].
  destruct (ascii_dec c "e") as [->|He]; [simpl in H; injection H as _ <-; simpl; lia|].
  destruct (ascii_dec c "c") as [->|Hc].
  - destruct s as [|d s]; [done|]. simpl in *.
    destruct (dec_str s) as [[w' r]|] eqn:E; [|done]. injection H as _ <-.
    apply IH in E; lia.
  - exfalso. destruct c as [[] [] [] [] [] [] [] []]; done.
Qed.

Definition enc_strs (l : list string) : string := foldr (λ s r, enc_str s r) "" l.
Fixpoint dec_strs (fuel : nat) (s : string) : option (list string) :=
  match fuel, s with
  | _, "" => Some []
  | O, _ => None
  | S fuel', _ =>
      match dec_str s with
      | Some (w, rest) =>
          match dec_strs fuel' rest with Some l => Some (w :: l) | None => None end
      | None => None
      end
  end.

Lemma dec_enc_strs l fuel :
  (String.length (enc_strs l) ≤ fuel)%nat → dec_strs fuel (enc_strs l) = Some l.
Proof.
  revert fuel. induction l as [|s l IH]; intros fuel Hf; [by destruct fuel|]. simpl in *.
  pose proof (dec_enc_str s (enc_strs l)) as E.
  pose proof (dec_str_shorter _ _ _ _ (le_n _) E) as Hlt.
  destruct fuel as [|fuel]; [lia|]. simpl.
  destruct (enc_str s (enc_strs l)) as [|c x] eqn:Es; [simpl in *; lia|].
  rewrite E, IH by lia. done.
Qed.

(** An internationalized name in UTF-8. *)
Definition idn_name : string := "m" +:+ String "195" (String "188" "nchen.de").

Definition ex_x509 (notBefore : Time) : X509 :=
  MkX509 notBefore (notBefore + 90 * 24 * Hour) "" ["a.com"] [] [] []
    ["http://ocsp"] ["http://issuer"].

Definition ex_ari : RenewalInfo :=
  MkRenewalInfo (10 * 24 * Hour) (12 * 24 * Hour) (11 * 24 * Hour) (Some (6 * Hour)%Z) "id".

#[export] Instance plain_Codec : Codec := {
  json_MarshalMeta sans data := Ok (enc_str data (enc_strs sans));
  json_UnmarshalMeta b :=
    match dec_str b with
    | Some (data, rest) =>
        match dec_strs (String.length rest) rest with
        | Some sans => Ok (sans, data)
        | None => Err (Errorf "json")
        end
    | None => Err (Errorf "json")
    end;
  json_UnmarshalACME b :=
    Ok (if HasPrefix b "ARI=" then MkACMEData "" (Some ex_ari)
        else MkACMEData (if HasPrefix b "CA=" then string_drop 3 b else "") None);
  idna_ToASCII s := Ok (if s =? idn_name then "xn--mnchen-3ya.de" else s);
  idna_LookupToASCII s := Ok (ToLower s);
  pem_Decode b :=
    match dec_str b with
    | Some (ty, rest) =>
        match dec_str rest with
        | Some (der, rest') => (Some (MkPEMBlock ty der), rest')
        | None => (None, b)
        end
    | None => (None, b)
    end;
  pem_EncodeToMemory blk := enc_str (pem_Type blk) (enc_str (pem_Bytes blk) "");
  x509_ParseCertificate der := Ok (ex_x509 (Z.of_nat (String.length der)));
  x509_MarshalECPrivateKey k := Ok (String "c" k);
  x509_MarshalPKCS1PrivateKey k := String "r" k;
  x509_MarshalPKCS8PrivateKey k := Ok (String "p" k);
  x509_ParsePKCS1PrivateKey der :=
    match der with String "r" k => Ok (RsaKey k) | _ => Err (Errorf "pkcs1") end;
  x509_ParsePKCS8PrivateKey der :=
    match der with String "p" k => Ok (Ed25519Key k) | _ => Err (Errorf "pkcs8") end;
  x509_ParseECPrivateKey der :=
    match der with String "c" k => Ok (EcdsaKey k) | _ => Err (Errorf "ec") end
}.

#[export] Program Instance plain_CodecLaws : CodecLaws := { json_canon data := data }.
Next Obligation.
  intros sans data b H. simpl in *. injection H as <-.
  by rewrite dec_enc_str, dec_enc_strs.
Qed.
Next Obligation. intros [ty der]. simpl. by rewrite !dec_enc_str. Qed.
Next Obligation.
  intros b blk rest H. simpl in H.
  destruct (dec_str b) as [[ty r]|] eqn:E1; [|done].
  destruct (dec_str r) as [[der r']|] eqn:E2; [|done]. injection H as _ <-.
  apply (dec_str_shorter _ _ _ _ (le_n _)) in E1, E2. lia.
Qed.
Next Obligation. done. Qed.
Next Obligation. intros k der [= <-]. done. Qed.
Next Obligation. intros k der [= <-]. done. Qed.
End PlainCodec.
Export (hints) PlainCodec.

(** ** Theorems *)

Lemma string_leb_total a b : String.leb a b = true ∨ String.leb b a = true.
Proof. destruct (String.leb_total a b); auto. Qed.

#[export] Instance string_le_total : Total string_le.
Proof. intros a b. apply string_leb_total. Qed.
#[export] Instance string_le_antisym : AntiSymm (=) string_le.
Proof. intros a b Ha Hb. by apply String.leb_antisym. Qed.

Lemma ascii_compare_nat a b :
  Ascii.compare a b = (nat_of_ascii a ?= nat_of_ascii b)%nat.
Proof. unfold Ascii.compare, nat_of_ascii. by rewrite N2Nat.inj_compare. Qed.

Lemma string_le_spec a b :
  string_le a b ↔ match a, b with
  | "", _ => True
  | String _ _, "" => False
  | String c a', String d b' =>
      (nat_of_ascii c < nat_of_ascii d)%nat ∨ (c = d ∧ string_le a' b')
  end.
Proof.
  unfold string_le, String.leb. destruct a as [|c a], b as [|d b]; simpl; try done.
  rewrite ascii_compare_nat.
  destruct (Nat.compare_spec (nat_of_ascii c) (nat_of_ascii d)) as [E|E|E].
  - apply (f_equal ascii_of_nat) in E. rewrite !ascii_nat_embedding in E. subst.
    split; [by right|]. intros [?|[_ ?]]; [lia|done].
  - split; [by left|done].
  - split; [done|]. intros [?|[-> _]]; lia.
Qed.

#[export] Instance string_le_trans : Transitive string_le.
Proof.
  intros a. induction a as [|c a IH]; intros b d Hab Hbd; [by apply string_le_spec|].
  destruct b as [|e b]; [by apply string_le_spec in Hab|].
  destruct d as [|f d]; [by apply string_le_spec in Hbd|].
  apply string_le_spec in Hab, Hbd. apply string_le_spec.
  destruct Hab as [?|[-> ?]], Hbd as [?|[-> ?]]; [left; lia|left; lia|left; lia|right].
  split; [done|]. by eapply IH.
Qed.

Lemma sort_Strings_perm l l' : l ≡ₚ l' → sort_Strings l = sort_Strings l'.
Proof.
  intros H. apply (StronglySorted_unique string_le).
  - apply StronglySorted_merge_sort; apply _.
  - apply StronglySorted_merge_sort; apply _.
  - unfold sort_Strings. by rewrite !merge_sort_Permutation.
Qed.

Lemma length_string_take n s : String.length (string_take n s) = Nat.min n (String.length s).
Proof. revert s. induction n as [|n IH]; intros [|c s]; simpl; auto. Qed.

(** [NamesKey] is a key of the set of names: it does not depend on the
    order of the SANs, it is the name itself for a single short name, and it
    never exceeds 1024 bytes. *)
Theorem NamesKey_key sans sans' name :
  sans ≡ₚ sans' →
  NamesKey sans = NamesKey sans' ∧
  (String.length (NamesKey sans) ≤ 1024)%nat ∧
  ((String.length name ≤ 1024)%nat → NamesKey [name] = name).
Proof.
  intros H. split; [|split].
  - unfold NamesKey. by rewrite (sort_Strings_perm _ _ H).
  - unfold NamesKey. destruct (Nat.ltb_spec 1024 (String.length (Join (sort_Strings sans) ",")));
      [|done].
    rewrite length_append, length_string_take.
    change (String.length trunc) with 6%nat. lia.
  - intros Hn. unfold NamesKey, sort_Strings. simpl.
    destruct (Nat.ltb_spec 1024 (String.length name)); [lia|done].
Qed.

Lemma NamesKey_key_witness :
  NamesKey ["b.com"; "a.com"] = NamesKey ["a.com"; "b.com"] ∧
  (String.length (NamesKey ["b.com"; "a.com"]) ≤ 1024)%nat ∧
  ((String.length "c.com" ≤ 1024)%nat → NamesKey ["c.com"] = "c.com").
Proof. apply NamesKey_key. apply perm_swap. Defined.

(** Two different sets of names can share their storage keys: the comma
    between the names is not kept by [Safe]. *)
Theorem NamesKey_collision ik :
  NamesKey ["a.com"; "b.com"] ≠ NamesKey ["a.comb.com"] ∧
  SiteCert ik (NamesKey ["a.com"; "b.com"]) = SiteCert ik (NamesKey ["a.comb.com"]) ∧
  SitePrivateKey ik (NamesKey ["a.com"; "b.com"]) = SitePrivateKey ik (NamesKey ["a.comb.com"]).
Proof.
  split; [vm_compute; discriminate|].
  unfold SiteCert, SitePrivateKey, CertsSitePrefix.
  assert (Safe (NamesKey ["a.com"; "b.com"]) = Safe (NamesKey ["a.comb.com"])) as ->
    by (vm_compute; reflexivity). done.
Qed.

(** A private key of a supported type that can be encoded to PEM is
    decoded to the same key, and only the unsupported types are refused by the
    encoder when the DER encoders succeed. *)
Theorem PEMPrivateKey_roundtrip `{C : !Codec} `{CL : !CodecLaws} key pem :
  PEMEncodePrivateKey key = Ok pem → key ≠ OtherKey ∧ PEMDecodePrivateKey pem = Ok key.
Proof.
  intros H. unfold PEMDecodePrivateKey. destruct key as [k|k|k|]; simpl in H; [..|done].
  - destruct (x509_MarshalECPrivateKey k) as [der|] eqn:E; [|done]. injection H as <-.
    rewrite pem_roundtrip. simpl.
    apply EC_roundtrip in E as (E1 & E2 & ->).
    destruct (x509_ParsePKCS1PrivateKey der); [done|].
    by destruct (x509_ParsePKCS8PrivateKey der).
  - injection H as <-. rewrite pem_roundtrip. simpl. by rewrite PKCS1_roundtrip.
  - destruct (x509_MarshalPKCS8PrivateKey k) as [der|] eqn:E; [|done]. injection H as <-.
    rewrite pem_roundtrip. simpl. apply PKCS8_roundtrip in E as [E1 ->].
    by destruct (x509_ParsePKCS1PrivateKey der).
Qed.

Lemma PEMPrivateKey_roundtrip_witness :
  EcdsaKey "k" ≠ OtherKey ∧
  match PEMEncodePrivateKey (EcdsaKey "k") with
  | Ok pem => PEMDecodePrivateKey pem = Ok (EcdsaKey "k")
  | Err _ => False
  end.
Proof. apply (PEMPrivateKey_roundtrip (EcdsaKey "k")). reflexivity. Defined.

Lemma parse_certs_loop_fuel `{C : !Codec} `{CL : !CodecLaws} n m acc bundle :
  (String.length bundle < n)%nat → (n ≤ m)%nat →
  parse_certs_loop n acc bundle = parse_certs_loop m acc bundle.
Proof.
  revert m acc bundle. induction n as [|n IH]; intros m acc bundle Hn Hm; [lia|].
  destruct m as [|m]; [lia|]. simpl.
  destruct (pem_Decode bundle) as [[blk|] rest] eqn:E; [|done].
  apply pem_Decode_shorter in E. destruct (pem_Type blk =? "CERTIFICATE").
  - destruct (x509_ParseCertificate (pem_Bytes blk)); [|done]. apply IH; lia.
  - apply IH; lia.
Qed.

Section resource_theorems.
#[local] Opaque NamesKey Safe path_Join.
Context `{C : !Codec} `{CL : !CodecLaws} `{!Storage St} `{!StorageLaws St}.
Implicit Types s : St.

Lemma resource_kvs_asset ik cert meta :
  kv_key <$> resource_kvs ik cert meta =
  (λ a, asset_key a ik (NamesKey (SANs cert))) <$> [AssetKey; AssetCert; AssetMeta].
Proof. unfold resource_kvs. cbn [fmap list_fmap kv_key asset_key]. reflexivity. Qed.

Lemma asset_keys_NoDup ik key :
  plain_site ik key →
  NoDup ((λ a, asset_key a ik key) <$> [AssetKey; AssetCert; AssetMeta]).
Proof.
  intros Hp. apply NoDup_fmap_2_strong.
  - intros a a' _ _ E. by apply asset_key_inj in E as [? _].
  - repeat constructor; set_solver.
Qed.

(** The three items are found under their keys after they are stored. *)
Lemma resource_kvs_lookup ik cert meta m :
  let key := NamesKey (SANs cert) in
  plain_site ik key →
  let m' := store_all (resource_kvs ik cert meta) m in
  m' !! SiteCert ik key = Some (CertificatePEM cert) ∧
  m' !! SitePrivateKey ik key = Some (PrivateKeyPEM cert) ∧
  m' !! SiteMeta ik key = Some meta.
Proof.
  intros key Hp m'.
  assert (∀ kv, kv ∈ resource_kvs ik cert meta → m' !! kv_key kv = Some (kv_value kv)) as HL.
  { intros kv Hin. apply store_all_lookup; [|done].
    rewrite resource_kvs_asset. by apply asset_keys_NoDup. }
  split; [|split].
  - apply (HL (MkKV (SiteCert ik key) (CertificatePEM cert))). right. by left.
  - apply (HL (MkKV (SitePrivateKey ik key) (PrivateKeyPEM cert))). by left.
  - apply (HL (MkKV (SiteMeta ik key) meta)). right. right. by left.
Qed.

Lemma saveCertResource_Ok ik cert s s' :
  saveCertResource ik cert s = (Ok tt, s') →
  ∃ meta, json_MarshalMeta (SANs cert) (IssuerData cert) = Ok meta ∧
          contents s' = store_all (resource_kvs ik cert meta) (contents s).
Proof.
  unfold saveCertResource. destruct (json_MarshalMeta _ _) as [meta|] eqn:E; [|done].
  intros H. exists meta. split; [done|]. by apply storeTx_loop_Ok in H.
Qed.

(** (C11) A saved resource is loaded back: after [saveCertResource] succeeds,
    [loadCertResource] for the same issuer and names returns the same
    certificate, private key and SANs, and the resources of every other issuer
    or set of names load as before. *)
Theorem saveCertResource_load ik cert s s' :
  let key := NamesKey (SANs cert) in
  plain_site ik key →
  idna_ToASCII key = Ok key →
  saveCertResource ik cert s = (Ok tt, s') →
  loadCertResource s' ik key =
    Ok (MkCertificateResource (SANs cert) (CertificatePEM cert) (PrivateKeyPEM cert)
          (json_canon (IssuerData cert)) ik) ∧
  (∀ ik' key' n' r, idna_ToASCII key' = Ok n' → plain_site ik' n' →
     (Safe ik', Safe n') ≠ (Safe ik, Safe key) →
     loadCertResource s ik' key' = Ok r → loadCertResource s' ik' key' = Ok r).
Proof.
  intros key Hp Hidna H. apply saveCertResource_Ok in H as (meta & Hm & Hc).
  destruct (resource_kvs_lookup ik cert meta (contents s) Hp) as (L1 & L2 & L3).
  rewrite <-Hc in L1, L2, L3. fold key in L1, L2, L3.
  split.
  - unfold loadCertResource. rewrite Hidna.
    rewrite (Load_contents _ _ _ L1), (Load_contents _ _ _ L2), (Load_contents _ _ _ L3).
    by rewrite (json_Meta_roundtrip _ _ _ Hm).
  - intros ik' key' n' r Hn Hp' Hne Hr.
    assert (∀ a v, Load s (asset_key a ik' n') = Ok v → Load s' (asset_key a ik' n') = Ok v)
      as Hframe.
    { intros a v Hv%Load_Ok. apply Load_contents. rewrite Hc, store_all_lookup_ne; [done|].
      rewrite resource_kvs_asset. intros (a' & E & _)%list_elem_of_fmap.
      apply asset_key_inj in E as (_ & Ei & En); [|done|done]. apply Hne. by rewrite Ei, En. }
    unfold loadCertResource in *. rewrite Hn in *.
    destruct (Load s (SitePrivateKey ik' n')) as [v1|] eqn:E1; [|done].
    destruct (Load s (SiteCert ik' n')) as [v2|] eqn:E2; [|done].
    destruct (Load s (SiteMeta ik' n')) as [v3|] eqn:E3; [|done].
    pose proof (Hframe AssetKey _ E1) as F1. pose proof (Hframe AssetCert _ E2) as F2.
    pose proof (Hframe AssetMeta _ E3) as F3. cbn [asset_key] in F1, F2, F3.
    by rewrite F1, F2, F3.
Qed.

(** The resource an issuer contributes, with its leaf. *)
Definition found_resource s (key ik : string) : option (CertificateResource * X509) :=
  match loadCertResource s ik key with
  | Err _ => None
  | Ok r => match parseCertsFromPEMBundle (CertificatePEM r) with
            | Ok (leaf :: _) => Some (r, leaf)
            | _ => None
            end
  end.

Lemma load_each_found s issuers key acc le res le' :
  load_each s issuers key acc le = Ok (res, le') →
  res = (acc ++ omap (found_resource s key) issuers)%list.
Proof.
  revert acc le. induction issuers as [|ik issuers IH]; intros acc le H; simpl in H.
  - injection H as <- _. by rewrite app_nil_r.
  - cbn [omap list_omap]. unfold found_resource at 1.
    destruct (loadCertResource s ik key) as [r|err].
    + destruct (parseCertsFromPEMBundle _) as [[|leaf chain]|]; [done| |done].
      apply IH in H. by rewrite H, <-app_assoc.
    + destruct (errors_Is err ErrNotExist); [|done]. by apply IH in H.
Qed.

Lemma load_each_succeeds s issuers key acc le :
  (∀ ik, ik ∈ issuers → is_Some (found_resource s key ik) ∨
     ∃ e, loadCertResource s ik key = Err e ∧ errors_Is e ErrNotExist = true) →
  ∃ le', load_each s issuers key acc le =
         Ok ((acc ++ omap (found_resource s key) issuers)%list, le').
Proof.
  revert acc le. induction issuers as [|ik issuers IH]; intros acc le H; simpl.
  - exists le. by rewrite app_nil_r.
  - destruct (H ik) as [[rl Hr]|(e & He & Hn)]; [by left|..].
    + cbn [omap list_omap]. rewrite Hr. unfold found_resource in Hr.
      destruct (loadCertResource s ik key) as [r|]; [|done].
      destruct (parseCertsFromPEMBundle _) as [[|leaf chain]|]; [done| |done].
      injection Hr as <-.
      destruct (IH (acc ++ [(r, leaf)])%list le) as [le' ->]; [intros; apply H; by right|].
      exists le'. by rewrite <-app_assoc.
    + cbn [omap list_omap]. unfold found_resource at 1. rewrite He, Hn.
      destruct (IH acc (Some e)) as [le' ->]; [intros; apply H; by right|]. by exists le'.
Qed.

#[local] Instance newer_first_total : Total newer_first.
Proof. intros a b. unfold newer_first. lia. Qed.
#[local] Instance newer_first_trans : Transitive newer_first.
Proof. intros a b c. unfold newer_first. lia. Qed.

Lemma merge_sort_head_max l x l' y :
  merge_sort newer_first l = x :: l' → y ∈ l → newer_first x y.
Proof.
  intros E Hy. pose proof (StronglySorted_merge_sort newer_first l) as Hs.
  rewrite E in Hs. apply StronglySorted_inv in Hs as [_ Hs]. rewrite Forall_forall in Hs.
  assert (y ∈ x :: l') as Hin by (rewrite <-E, (merge_sort_Permutation newer_first); done).
  apply elem_of_cons in Hin as [->|Hin]; [unfold newer_first; lia|by apply Hs].
Qed.

(** With several issuers the newest resource is chosen: the result of
    [loadCertResourceAnyIssuer] is the resource of one of the issuers, and no
    issuer has one whose leaf starts to be valid later. When each issuer either
    has a readable resource or none, and at least one has one, there is a
    result. *)
Theorem loadCertResourceAnyIssuer_newest s issuers key :
  length issuers ≠ 1%nat →
  (∀ r, loadCertResourceAnyIssuer s issuers key = Ok r →
     ∃ ik leaf, ik ∈ issuers ∧ found_resource s key ik = Some (r, leaf) ∧
       ∀ ik' r' leaf', ik' ∈ issuers → found_resource s key ik' = Some (r', leaf') →
         (NotBefore leaf' ≤ NotBefore leaf)%Z) ∧
  ((∀ ik, ik ∈ issuers → is_Some (found_resource s key ik) ∨
      ∃ e, loadCertResource s ik key = Err e ∧ errors_Is e ErrNotExist = true) →
   (∃ ik, ik ∈ issuers ∧ is_Some (found_resource s key ik)) →
   ∃ r, loadCertResourceAnyIssuer s issuers key = Ok r).
Proof.
  intros Hlen.
  assert (loadCertResourceAnyIssuer s issuers key =
          match load_each s issuers key [] None with
          | Err e => Err e
          | Ok (res, lastErr) =>
              match merge_sort newer_first res with
              | [] => Err (default (Errorf "no certificate resources found") lastErr)
              | (certRes, _) :: _ => Ok certRes
              end
          end) as -> by (destruct issuers as [|? [|? ?]]; done).
  split.
  - intros r. destruct (load_each s issuers key [] None) as [[res le]|] eqn:E; [|done].
    apply load_each_found in E. rewrite app_nil_l in E.
    destruct (merge_sort newer_first res) as [|[r0 leaf] l'] eqn:Es; [done|].
    intros [= ->].
    assert ((r, leaf) ∈ res) as Hin
      by (rewrite <-(merge_sort_Permutation newer_first res), Es; by left).
    rewrite E in Hin. apply list_elem_of_omap in Hin as (ik & Hik & Hf).
    exists ik, leaf. split; [done|]. split; [done|]. intros ik' r' leaf' Hik' Hf'.
    apply (merge_sort_head_max _ _ _ (r', leaf')) in Es; [done|].
    rewrite E. apply list_elem_of_omap. by exists ik'.
  - intros Hall (ik & Hik & [rl Hf]).
    destruct (load_each_succeeds s issuers key [] None Hall) as [le ->]. rewrite app_nil_l.
    destruct (merge_sort newer_first _) as [|[r leaf] l'] eqn:Es; [|by eexists].
    assert (rl ∈ omap (found_resource s key) issuers) as Hin
      by (apply list_elem_of_omap; by exists ik).
    rewrite <-(merge_sort_Permutation newer_first), Es in Hin. by apply elem_of_nil in Hin.
Qed.
End resource_theorems.

Definition ex_pem (n : nat) : bytes :=
  pem_EncodeToMemory (MkPEMBlock "CERTIFICATE" (String.concat "" (replicate n "x"))).
Definition ex_resource (n : nat) : CertificateResource :=
  MkCertificateResource ["a.com"] (ex_pem n) "KEY" "{}" "".
Definition ex_saved : MemStorage.t :=
  snd (saveCertResource "ca2" (ex_resource 7)
    (snd (saveCertResource "ca1" (ex_resource 3) MemStorage.empty))).

Lemma saveCertResource_load_witness :
  loadCertResource ex_saved "ca2" "a.com" =
    Ok (MkCertificateResource ["a.com"] (ex_pem 7) "KEY" "{}" "ca2") ∧
  loadCertResource ex_saved "ca1" "a.com" =
    Ok (MkCertificateResource ["a.com"] (ex_pem 3) "KEY" "{}" "ca1").
Proof.
  destruct (saveCertResource_load "ca2" (ex_resource 7)
    (snd (saveCertResource "ca1" (ex_resource 3) MemStorage.empty)) ex_saved) as [H1 H2].
  - vm_compute. auto.
  - reflexivity.
  - vm_compute. reflexivity.
  - split; [exact H1|]. apply (H2 _ _ "a.com").
    + reflexivity.
    + vm_compute. auto.
    + vm_compute. discriminate.
    + vm_compute. reflexivity.
Defined.

Lemma loadCertResourceAnyIssuer_newest_witness :
  loadCertResourceAnyIssuer ex_saved ["ca1"; "ca2"] "a.com" =
    Ok (MkCertificateResource ["a.com"] (ex_pem 7) "KEY" "{}" "ca2") ∧
  ∃ ik leaf, ik ∈ ["ca1"; "ca2"] ∧
    found_resource ex_saved "a.com" ik =
      Some (MkCertificateResource ["a.com"] (ex_pem 7) "KEY" "{}" "ca2", leaf) ∧
    ∀ ik' r' leaf', ik' ∈ ["ca1"; "ca2"] → found_resource ex_saved "a.com" ik' = Some (r', leaf') →
      (NotBefore leaf' ≤ NotBefore leaf)%Z.
Proof.
  split; [vm_compute; reflexivity|].
  apply (proj1 (loadCertResourceAnyIssuer_newest ex_saved ["ca1"; "ca2"] "a.com"
                  ltac:(done))).
  vm_compute. reflexivity.
Defined.
