(* ===== verification/OCSP.v ===== *)
(** * OCSP stapling (ocsp.go)

    [stapleOCSP] with the cached staple in storage, [getOCSPForCert] which asks
    the responder, and [freshOCSP]. The network and the parser of OCSP messages
    are the operations of the class [OCSPNet]. *)

From S2P Require Import Prelude GoStrings Certificates Storage Crypto.
Import KeyBuilder.
Open Scope string_scope.

Record OCSPConfig := MkOCSPConfig {
  DisableStapling : bool;
  ResponderOverrides : gmap string string
}.

(** [http.Client.Get] and [Post] with the body read, and the OCSP messages.
    [ocsp_ParseResponse b None] does not check the signature. *)
Class OCSPNet (N : Type) := {
  http_Get : string → ST N (result bytes);
  http_Post : string → bytes → ST N (result bytes);
  ocsp_CreateRequest : X509 → X509 → result bytes;
  ocsp_ParseResponse : bytes → option X509 → result OCSPResponse
}.

(** The end of the validity of a response: its next update, or the expiration
    of the responder's certificate when that is earlier. *)
Definition ocsp_validUntil (resp : OCSPResponse) : Time :=
  match RespCertNotAfter resp with
  | Some notAfter => if time_Before notAfter (NextUpdate resp) then notAfter else NextUpdate resp
  | None => NextUpdate resp
  end.

Definition freshOCSP (now : Time) (resp : OCSPResponse) : bool :=
  let nextUpdate := ocsp_validUntil resp in
  let refreshTime :=
    time_Add (ThisUpdate resp) (Z.quot (time_Sub nextUpdate (ThisUpdate resp)) 2) in
  time_Before now refreshTime.

Definition ErrNoOCSPServerSpecified : error := Errorf "no OCSP server specified in certificate".

Section ocsp.
Context {St N : Type} `{C : !Codec} `{!Storage St} `{!OCSPNet N}.

(** The responder to ask: the one of the certificate unless it is overridden. *)
Definition responder_url (cfg : OCSPConfig) (server : string) : string :=
  default server (ResponderOverrides cfg !! server).

(** The issuer's certificate, second in the bundle or fetched. *)
Definition issuer_cert (issuedCert : X509) (rest : list X509) : ST N (result X509) := λ n,
  match rest with
  | issuer :: _ => (Ok issuer, n)
  | [] =>
      match IssuingCertificateURL issuedCert with
      | [] => (Err (Errorf "no URL to issuing certificate"), n)
      | url :: _ =>
          match http_Get url n with
          | (Err _, n) => (Err (Errorf "getting issuer certificate"), n)
          | (Ok issuerBytes, n) =>
              match x509_ParseCertificate issuerBytes with
              | Err _ => (Err (Errorf "parsing issuer certificate"), n)
              | Ok issuer => (Ok issuer, n)
              end
          end
      end
  end.

Definition getOCSPForCert (cfg : OCSPConfig) (bundle : bytes) :
    ST N (result (bytes * OCSPResponse)) := λ n,
  match parseCertsFromPEMBundle bundle with
  | Err e => (Err e, n)
  | Ok [] => (Err (Panic "index out of range"), n)
  | Ok (issuedCert :: rest) =>
      match OCSPServer issuedCert with
      | [] => (Err ErrNoOCSPServerSpecified, n)
      | server :: _ =>
          let respURL := responder_url cfg server in
          if respURL =? "" then (Err (Errorf "override disables querying OCSP responder"), n)
          else
            match issuer_cert issuedCert rest n with
            | (Err e, n) => (Err e, n)
            | (Ok issuerCert, n) =>
                match ocsp_CreateRequest issuedCert issuerCert with
                | Err _ => (Err (Errorf "creating OCSP request"), n)
                | Ok ocspReq =>
                    match http_Post respURL ocspReq n with
                    | (Err _, n) => (Err (Errorf "making OCSP request"), n)
                    | (Ok ocspResBytes, n) =>
                        match ocsp_ParseResponse ocspResBytes (Some issuerCert) with
                        | Err _ => (Err (Errorf "parsing OCSP response"), n)
                        | Ok ocspRes => (Ok (ocspResBytes, ocspRes), n)
                        end
                    end
                end
            end
      end
  end.

(** The bundle to use when the caller has none. *)
Definition pem_of_chain (chain : list bytes) : bytes :=
  foldl (λ b der, b +:+ pem_EncodeToMemory (MkPEMBlock "CERTIFICATE" der)) "" chain.

(** The staple in storage: the bytes and the response when it is fresh. A
    corrupt one is deleted. *)
Definition cached_staple (now : Time) (key : string) :
    ST St (option (bytes * OCSPResponse)) := λ s,
  match Load s key with
  | Err _ => (None, s)
  | Ok cachedOCSP =>
      match ocsp_ParseResponse cachedOCSP None with
      | Ok resp => (if freshOCSP now resp then Some (cachedOCSP, resp) else None, s)
      | Err _ => (None, snd (Delete key s))
      end
  end.

(** What is done with a response: attach it, staple it when it is good, and
    store a new one. *)
Definition attach_staple (key : string) (cert : Certificate) (ocspBytes : bytes)
    (ocspResp : OCSPResponse) (gotNewOCSP : bool) : ST St (result unit * Certificate) := λ s,
  if time_After (NextUpdate ocspResp) (expiresAt (Leaf cert)) then
    ((Err (Errorf "invalid: OCSP response valid after certificate expiration"), cert), s)
  else
    let cert := with_ocsp (Some ocspResp) cert in
    if decide (Status ocspResp = OCSPGood) then
      let cert := with_staple ocspBytes cert in
      if gotNewOCSP then
        match Store key ocspBytes s with
        | (Err _, s) => ((Err (Errorf "unable to write OCSP staple file"), cert), s)
        | (Ok _, s) => ((Ok tt, cert), s)
        end
      else ((Ok tt, cert), s)
    else ((Ok tt, cert), s).

(** The error and the certificate as [stapleOCSP] leaves it. *)
Definition stapleOCSP (now : Time) (cfg : OCSPConfig) (cert : Certificate)
    (pemBundle : option bytes) : ST (St * N) (result unit * Certificate) := λ '(s, n),
  if DisableStapling cfg then ((Ok tt, cert), (s, n))
  else
    let bundle := default (pem_of_chain (tls_Certificate (tls cert))) pemBundle in
    let key := OCSPStaple (Names cert) bundle in
    let '(cached, s) := cached_staple now key s in
    let usable := match cached with
                  | Some (b, resp) => if (String.length b =? 0)%nat then None else Some (b, resp)
                  | None => None
                  end in
    match usable with
    | Some (ocspBytes, ocspResp) =>
        let '(r, s) := attach_staple key cert ocspBytes ocspResp false s in (r, (s, n))
    | None =>
        match getOCSPForCert cfg bundle n with
        | (Err ocspErr, n) =>
            if (Lifetime cert <? 7 * 24 * Hour)%Z then ((Ok tt, cert), (s, n))
            else ((Err (Wrapf "no OCSP stapling" ocspErr), cert), (s, n))
        | (Ok (ocspBytes, ocspResp), n) =>
            let '(r, s) := attach_staple key cert ocspBytes ocspResp true s in (r, (s, n))
        end
    end.
End ocsp.

(** ** Theorems *)

Lemma freshOCSP_spec now resp :
  freshOCSP now resp = true ↔
  (now < ThisUpdate resp + Z.quot (time_Sub (ocsp_validUntil resp) (ThisUpdate resp)) 2)%Z.
Proof. unfold freshOCSP, time_Before, time_Add. apply Z.ltb_lt. Qed.

(** A fresh response is within its validity: the current time is before
    the next update and before the expiration of the responder's certificate,
    with at least as much time left as has passed since the response was made;
    and a response that is fresh was fresh at every earlier time. *)
Theorem freshOCSP_valid now resp :
  (ThisUpdate resp ≤ now)%Z → in_int64 (ocsp_validUntil resp - ThisUpdate resp) →
  freshOCSP now resp = true →
  (now < NextUpdate resp)%Z ∧
  (∀ t, RespCertNotAfter resp = Some t → (now < t)%Z) ∧
  (now - ThisUpdate resp ≤ ocsp_validUntil resp - now)%Z ∧
  ∀ now', (now' ≤ now)%Z → freshOCSP now' resp = true.
Proof.
  intros Hge Hin Hf. pose proof Hf as Hlt%freshOCSP_spec.
  rewrite time_Sub_exact in Hlt by done.
  set (d := (ocsp_validUntil resp - ThisUpdate resp)%Z) in *.
  assert (now - ThisUpdate resp < Z.quot d 2)%Z as Hq by lia.
  assert (2 * Z.quot d 2 ≤ d)%Z as Hd.
  { assert (0 ≤ d)%Z.
    { destruct (Z.le_gt_cases 0 d) as [|Hneg]; [done|].
      pose proof (Z.quot_le_mono d 0 2 ltac:(lia) ltac:(lia)) as Q.
      change (Z.quot 0 2) with 0%Z in Q. lia. }
    rewrite Z.quot_div_nonneg by lia. apply Z.mul_div_le. lia. }
  assert (now < ocsp_validUntil resp)%Z as Hv by lia.
  unfold ocsp_validUntil, time_Before in Hv.
  repeat split.
  - destruct (RespCertNotAfter resp) as [t|]; [|lia].
    destruct (Z.ltb_spec t (NextUpdate resp)); lia.
  - intros t Ht. rewrite Ht in Hv. destruct (Z.ltb_spec t (NextUpdate resp)); lia.
  - lia.
  - intros now' Hle. apply freshOCSP_spec in Hf. apply freshOCSP_spec. lia.
Qed.

Lemma freshOCSP_valid_witness :
  let resp := MkOCSPResponse OCSPGood 10 110 0 (Some 90%Z) in
  (30 < NextUpdate resp)%Z ∧
  (∀ t, RespCertNotAfter resp = Some t → (30 < t)%Z) ∧
  (30 - ThisUpdate resp ≤ ocsp_validUntil resp - 30)%Z ∧
  ∀ now', (now' ≤ 30)%Z → freshOCSP now' resp = true.
Proof.
  intros resp. apply freshOCSP_valid; [simpl; lia| |reflexivity].
  split; vm_compute; discriminate.
Defined.

(** Responses that parse with their issuer parse without one, and no response
    is empty. *)
Class OCSPLaws (N : Type) `{!OCSPNet N} := {
  parse_without_issuer b i resp :
    ocsp_ParseResponse b (Some i) = Ok resp → ocsp_ParseResponse b None = Ok resp;
  parse_empty i : is_Ok (ocsp_ParseResponse "" i) = false
}.

Section ocsp_theorems.
Context {St N : Type} `{C : !Codec} `{!Storage St} `{!OCSPNet N}.
Implicit Types (s : St) (n : N).

(** The certificate with a response attached, and stapled when it is good. *)
Definition stapled (cert : Certificate) (b : bytes) (resp : OCSPResponse) : Certificate :=
  if decide (Status resp = OCSPGood) then with_staple b (with_ocsp (Some resp) cert)
  else with_ocsp (Some resp) cert.

Lemma stapled_ocsp cert b resp : ocsp (stapled cert b resp) = Some resp.
Proof. unfold stapled. by destruct (decide _). Qed.

Lemma stapled_inj cert b resp b' resp' :
  Status resp = OCSPGood → stapled cert b resp = stapled cert b' resp' → b = b' ∧ resp = resp'.
Proof.
  intros Hg E. pose proof (f_equal ocsp E) as Er. rewrite !stapled_ocsp in Er.
  injection Er as <-. split; [|done]. unfold stapled in E. rewrite !decide_True in E by done.
  by apply (f_equal (λ c, tls_OCSPStaple (tls c))) in E.
Qed.

Definition staple_bundle (cert : Certificate) (pemBundle : option bytes) : bytes :=
  default (pem_of_chain (tls_Certificate (tls cert))) pemBundle.
Definition staple_key (cert : Certificate) (pemBundle : option bytes) : string :=
  OCSPStaple (Names cert) (staple_bundle cert pemBundle).

Lemma attach_staple_spec key cert b resp new s r cert' s' :
  attach_staple key cert b resp new s = ((r, cert'), s') →
  (NextUpdate resp > expiresAt (Leaf cert))%Z ∧ is_Ok r = false ∧ cert' = cert ∧ s' = s ∨
  (NextUpdate resp ≤ expiresAt (Leaf cert))%Z ∧ cert' = stapled cert b resp ∧
  (if new && bool_decide (Status resp = OCSPGood) then
     ∃ rs, Store key b s = (rs, s') ∧ is_Ok rs = is_Ok r
   else r = Ok tt ∧ s' = s).
Proof.
  unfold attach_staple, time_After, stapled.
  destruct (Z.ltb_spec (expiresAt (Leaf cert)) (NextUpdate resp)).
  { intros [= <- <- <-]. left. split; [lia|done]. }
  intros Ha. right. split; [lia|]. destruct (decide (Status resp = OCSPGood)) as [Hg|Hg].
  - rewrite bool_decide_true by done. destruct new; simpl; [|by injection Ha as <- <- <-].
    destruct (Store key b s) as [[[]|e] s1]; injection Ha as <- <- <-; (split; [done|]); eauto.
  - rewrite bool_decide_false by done. rewrite andb_false_r. by injection Ha as <- <- <-.
Qed.

Lemma cached_staple_Some now key s b resp s' :
  cached_staple now key s = (Some (b, resp), s') →
  Load s key = Ok b ∧ ocsp_ParseResponse b None = Ok resp ∧ freshOCSP now resp = true ∧ s' = s.
Proof.
  unfold cached_staple. destruct (Load s key) as [b'|]; [|done].
  destruct (ocsp_ParseResponse b' None) as [resp'|] eqn:E; [|done].
  destruct (freshOCSP now resp') eqn:Ef; [|done]. by intros [= -> -> <-].
Qed.

Lemma usable_cached (cached : option (bytes * OCSPResponse)) b resp :
  match cached with
  | Some (b, resp) => if (String.length b =? 0)%nat then None else Some (b, resp)
  | None => None
  end = Some (b, resp) → cached = Some (b, resp).
Proof. destruct cached as [[b' r']|]; [|done]. destruct (_ =? 0)%nat; [done|]. congruence. Qed.

(** The source of a response: the staple in storage, still fresh, or the
    responder. *)
Definition response_source (now : Time) (cfg : OCSPConfig) (cert : Certificate)
    (pemBundle : option bytes) s n n' (b : bytes) (resp : OCSPResponse) : Prop :=
  (Load s (staple_key cert pemBundle) = Ok b ∧ ocsp_ParseResponse b None = Ok resp ∧
   freshOCSP now resp = true ∧ n' = n) ∨
  getOCSPForCert cfg (staple_bundle cert pemBundle) n = (Ok (b, resp), n').

Lemma stapleOCSP_cases now cfg cert pemBundle s n r cert' s' n' :
  stapleOCSP now cfg cert pemBundle (s, n) = ((r, cert'), (s', n')) →
  cert' = cert ∨
  ∃ b resp, cert' = stapled cert b resp ∧
    (NextUpdate resp ≤ expiresAt (Leaf cert))%Z ∧
    response_source now cfg cert pemBundle s n n' b resp.
Proof.
  unfold stapleOCSP, response_source, staple_key, staple_bundle.
  destruct (DisableStapling cfg); [intros [= _ <- _ _]; by left|].
  set (bundle := default _ pemBundle). set (key := OCSPStaple _ _).
  destruct (cached_staple now key s) as [cached s1] eqn:Ec.
  destruct (match cached with Some _ => _ | None => None end) as [[b resp]|] eqn:Eu.
  - apply usable_cached in Eu as ->. apply cached_staple_Some in Ec as (L1 & L2 & L3 & ->).
    destruct (attach_staple _ _ _ _ _ _) as [[r1 c1] s2] eqn:Ea. intros [= <- <- <- <-].
    apply attach_staple_spec in Ea as [(_ & _ & -> & _)|(Hle & -> & _)]; [by left|].
    right. exists b, resp. split; [done|]. split; [done|]. by left.
  - destruct (getOCSPForCert cfg bundle n) as [[[b' resp']|e] n1] eqn:Eg.
    2: { destruct (_ <? _)%Z; intros [= _ <- _ _]; by left. }
    destruct (attach_staple _ _ _ _ _ _) as [[r1 c1] s2] eqn:Ea. intros [= <- <- <- <-].
    apply attach_staple_spec in Ea as [(_ & _ & -> & _)|(Hle & -> & _)]; [by left|].
    right. exists b', resp'. split; [done|]. split; [done|]. by right.
Qed.

(** Only sound responses are attached: [stapleOCSP] leaves the certificate
    as it was, or attaches a response that comes from storage and is fresh or
    from the responder just now, and that does not outlive the certificate; the
    bytes are stapled only if the status is good, else the staple stays; the
    rest of the certificate is unchanged. *)
Theorem stapleOCSP_sound now cfg cert pemBundle s n r cert' s' n' :
  stapleOCSP now cfg cert pemBundle (s, n) = ((r, cert'), (s', n')) →
  cert' = cert ∨
  ∃ b resp, ocsp cert' = Some resp ∧
    tls_OCSPStaple (tls cert') =
      (if bool_decide (Status resp = OCSPGood) then b else tls_OCSPStaple (tls cert)) ∧
    with_staple (tls_OCSPStaple (tls cert)) (with_ocsp (ocsp cert) cert') = cert ∧
    (NextUpdate resp ≤ expiresAt (Leaf cert))%Z ∧
    response_source now cfg cert pemBundle s n n' b resp.
Proof.
  intros [->|(b & resp & -> & Hle & Hsrc)]%stapleOCSP_cases; [by left|right].
  exists b, resp. rewrite stapled_ocsp. unfold stapled.
  destruct (decide _); rewrite ?bool_decide_true, ?bool_decide_false by done;
    destruct cert as [[] ? ? ? ? ? ? ?]; auto.
Qed.

Context `{!StorageLaws St} `{!OCSPLaws N}.

Lemma getOCSPForCert_parse cfg bundle n b resp n' :
  getOCSPForCert cfg bundle n = (Ok (b, resp), n') → ocsp_ParseResponse b None = Ok resp.
Proof.
  unfold getOCSPForCert. destruct (parseCertsFromPEMBundle bundle) as [[|leaf rest]|]; try done.
  destruct (OCSPServer leaf) as [|server ?]; [done|]. destruct (_ =? ""); [done|].
  destruct (issuer_cert leaf rest n) as [[issuer|] n1]; [|done].
  destruct (ocsp_CreateRequest leaf issuer); [|done].
  destruct (http_Post _ _ _) as [[res|] n2]; [|done].
  destruct (ocsp_ParseResponse res (Some issuer)) as [resp'|] eqn:E; [|done].
  intros [= -> -> _]. by eapply parse_without_issuer.
Qed.

Lemma parse_nonempty b i resp : ocsp_ParseResponse b i = Ok resp → (String.length b =? 0)%nat = false.
Proof.
  intros H. destruct b as [|c b]; [|done]. pose proof (parse_empty i) as E. by rewrite H in E.
Qed.

Lemma stapleOCSP_uses_stored now cfg cert pemBundle s n b resp :
  DisableStapling cfg = false → Load s (staple_key cert pemBundle) = Ok b →
  ocsp_ParseResponse b None = Ok resp → freshOCSP now resp = true →
  (NextUpdate resp ≤ expiresAt (Leaf cert))%Z →
  stapleOCSP now cfg cert pemBundle (s, n) = ((Ok tt, stapled cert b resp), (s, n)).
Proof.
  intros Hd HL Hp Hf Hle. unfold stapleOCSP. rewrite Hd.
  fold (staple_bundle cert pemBundle). fold (staple_key cert pemBundle).
  unfold cached_staple. rewrite HL, Hp, Hf, (parse_nonempty _ _ _ Hp).
  destruct (attach_staple _ _ _ _ _ _) as [[r c] s1] eqn:Ea.
  apply attach_staple_spec in Ea as [(? & _)|(_ & -> & -> & ->)]; [lia|done].
Qed.

(** A stapled response is reused: when [stapleOCSP] has succeeded with a good
    response, a later call for the same certificate that finds the response
    still fresh gives the same certificate without asking the network, and
    leaves the storage as it is. *)
Theorem stapleOCSP_reuses now now' cfg cert pemBundle s n cert' s' n' resp n'' :
  DisableStapling cfg = false → ocsp cert = None →
  stapleOCSP now cfg cert pemBundle (s, n) = ((Ok tt, cert'), (s', n')) →
  ocsp cert' = Some resp → Status resp = OCSPGood → freshOCSP now' resp = true →
  stapleOCSP now' cfg cert pemBundle (s', n'') = ((Ok tt, cert'), (s', n'')).
Proof.
  intros Hd Hnone H Hresp Hgood Hf. pose proof H as H0.
  apply stapleOCSP_cases in H0 as [->|(b & resp' & -> & Hle & Hsrc)]; [congruence|].
  rewrite stapled_ocsp in Hresp. injection Hresp as ->.
  assert (Load s' (staple_key cert pemBundle) = Ok b ∧ ocsp_ParseResponse b None = Ok resp)
    as [HL Hp]; [|by apply stapleOCSP_uses_stored].
  unfold stapleOCSP in H. rewrite Hd in H.
  fold (staple_bundle cert pemBundle) in H. fold (staple_key cert pemBundle) in H.
  destruct (cached_staple now _ s) as [cached s1] eqn:Ec.
  destruct cached as [[b1 r1]|].
  - apply cached_staple_Some in Ec as (L1 & L2 & L3 & ->).
    rewrite (parse_nonempty _ _ _ L2) in H.
    destruct (attach_staple _ _ _ _ _ _) as [[r c] s2] eqn:Ea. injection H as -> -> -> ->.
    apply attach_staple_spec in Ea as [(_ & ? & _)|(_ & Heq & _ & ->)]; [done|].
    by apply stapled_inj in Heq as [<- <-].
  - destruct (getOCSPForCert _ _ _) as [[[b1 r1]|e] n1] eqn:Eg.
    + destruct (attach_staple _ _ _ _ _ _) as [[r c] s2] eqn:Ea. injection H as -> -> -> ->.
      apply attach_staple_spec in Ea as [(_ & ? & _)|(_ & Heq & Hst)]; [done|].
      apply stapled_inj in Heq as [<- <-]; [|done].
      rewrite bool_decide_true in Hst by done. destruct Hst as ([[]|] & Hstore & ?); [|done].
      split; [|by eapply getOCSPForCert_parse]. apply Load_contents.
      rewrite (Store_Ok _ _ _ _ Hstore). by rewrite lookup_insert_eq.
    + destruct (_ <? _)%Z; [|done]. injection H as Heq _ _.
      apply (f_equal ocsp) in Heq. rewrite stapled_ocsp in Heq. congruence.
Qed.
End ocsp_theorems.

(** ** A simulated responder

    It counts the requests; every answer is a good response, valid for a day
    from time 0. *)
Module SimNet.
Record t := Mk { sim_requests : nat }.

Definition good : OCSPResponse := MkOCSPResponse OCSPGood 0 (24 * Hour) 0 None.

#[export] Instance sim_OCSPNet : OCSPNet t := {
  http_Get _ := λ n, (Ok "issuer", Mk (S (sim_requests n)));
  http_Post _ _ := λ n, (Ok "response", Mk (S (sim_requests n)));
  ocsp_CreateRequest _ _ := Ok "request";
  ocsp_ParseResponse b _ := if b =? "" then Err (Errorf "empty") else Ok good
}.

#[export] Instance sim_OCSPLaws : OCSPLaws t.
Proof. by split. Qed.
End SimNet.
Export (hints) SimNet.

Section ocsp_runs.
Import SimNet.

Definition ex_ocsp_cert : Certificate :=
  MkCertificate (MkTLSCertificate ["der"] "" (Some (PlainCodec.ex_x509 3))) ["a.com"] [] None
    "h" true "ca" zeroRenewalInfo.
Definition ex_ocsp_cfg : OCSPConfig := MkOCSPConfig false ∅.
Definition ex_ocsp_run :=
  stapleOCSP (1 * Hour) ex_ocsp_cfg ex_ocsp_cert (Some (ex_pem 3)) (MemStorage.empty, Mk 0).

Lemma stapleOCSP_sound_witness :
  let '((r, cert'), (s', n')) := ex_ocsp_run in
  r = Ok tt ∧ sim_requests n' = 2%nat ∧
  (cert' = ex_ocsp_cert ∨
   ∃ b resp, ocsp cert' = Some resp ∧
     tls_OCSPStaple (tls cert') =
       (if bool_decide (Status resp = OCSPGood) then b else tls_OCSPStaple (tls ex_ocsp_cert)) ∧
     with_staple (tls_OCSPStaple (tls ex_ocsp_cert)) (with_ocsp (ocsp ex_ocsp_cert) cert')
       = ex_ocsp_cert ∧
     (NextUpdate resp ≤ expiresAt (Leaf ex_ocsp_cert))%Z ∧
     response_source (1 * Hour) ex_ocsp_cfg ex_ocsp_cert (Some (ex_pem 3)) MemStorage.empty
       (Mk 0) n' b resp).
Proof.
  destruct ex_ocsp_run as [[r cert'] [s' n']] eqn:E.
  split; [vm_compute in E; congruence|]. split; [vm_compute in E; injection E as _ _ _ <-; done|].
  by apply stapleOCSP_sound in E.
Defined.

Lemma stapleOCSP_reuses_witness :
  let '((r, cert'), (s', n')) := ex_ocsp_run in
  stapleOCSP (2 * Hour) ex_ocsp_cfg ex_ocsp_cert (Some (ex_pem 3)) (s', Mk 0) =
    ((Ok tt, cert'), (s', Mk 0)).
Proof.
  destruct ex_ocsp_run as [[r cert'] [s' n']] eqn:E. unfold ex_ocsp_run in E.
  assert (r = Ok tt ∧ ocsp cert' = Some good) as [Hr Ho]
    by (vm_compute in E; injection E as <- <- _ _; done).
  rewrite Hr in E.
  apply (stapleOCSP_reuses (1 * Hour) (2 * Hour) ex_ocsp_cfg ex_ocsp_cert (Some (ex_pem 3))
           MemStorage.empty (Mk 0) cert' s' n' good (Mk 0)); [done|done|exact E|exact Ho|done|].
  reflexivity.
Defined.
End ocsp_runs.
