(* ===== verification/Clean.v ===== *)
(** * Cleaning the storage (maintain.go)

    [CleanStorage] deletes OCSP staples that have expired or are corrupt and
    the assets of certificates that expired longer ago than the grace period,
    under a lock and not more often than an interval. The theorems say what it
    never deletes and what it always deletes. *)

From S2P Require Import Prelude GoStrings Certificates Storage Crypto OCSP.
From Stdlib Require Import Ascii.
Import KeyBuilder.
Open Scope string_scope.

Record CleanStorageOptions := MkCleanOptions {
  InstanceID : string;
  Interval : Duration;
  OCSPStaples : bool;
  ExpiredCerts : bool;
  ExpiredCertGracePeriod : Duration
}.

Record lastCleaned := MkLastCleaned { Timestamp : Time; lc_InstanceID : string }.

(** [json.Marshal] and [json.Unmarshal] of a [lastCleanPayload]: of the map,
    the entry ["tls"], which is the zero value when it is missing. *)
Class CleanCodec := {
  json_MarshalLastClean : lastCleaned → result bytes;
  json_UnmarshalLastClean : bytes → result lastCleaned
}.

(** A loop whose body may return from the function with an error. *)
Fixpoint each {S A} (f : A → ST S (result unit)) (l : list A) : ST S (result unit) :=
  match l with
  | [] => mret (Ok tt)
  | x :: rest => λ s,
      match f x s with
      | (Ok _, s) => each f rest s
      | (Err e, s) => (Err e, s)
      end
  end.

Section clean.
Context {St N : Type} `{!Codec} `{!Storage St} `{!OCSPNet N} `{!CleanCodec}.
(** The time during the cleaning, and whether the context is done when the
    loop comes to a key. *)
Context (now : Time) (ctxDone : string → bool).

(** ** Staples *)

Definition clean_staple (key : string) : ST St (result unit) := λ s,
  if ctxDone key then (Err Canceled, s)
  else
    match Load s key with
    | Err _ => (Ok tt, s)
    | Ok ocspBytes =>
        match ocsp_ParseResponse (N := N) ocspBytes None with
        | Err _ => (Ok tt, snd (Delete key s))
        | Ok resp =>
            if time_After now (NextUpdate resp) then (Ok tt, snd (Delete key s)) else (Ok tt, s)
        end
    end.

Definition deleteOldOCSPStaples : ST St (result unit) := λ s,
  match List s prefixOCSP false with
  | Err _ => (Ok tt, s)
  | Ok ocspKeys => each clean_staple ocspKeys s
  end.

(** ** Certificates *)

Definition read_cert (s : St) (assetKey : string) : result X509 :=
  match Load s assetKey with
  | Err _ => Err (Errorf "loading certificate file")
  | Ok certFile =>
      match pem_Decode certFile with
      | (Some block, _) =>
          if pem_Type block =? "CERTIFICATE" then
            match x509_ParseCertificate (pem_Bytes block) with
            | Err _ => Err (Errorf "certificate file is malformed")
            | Ok cert => Ok cert
            end
          else Err (Errorf "certificate file does not contain PEM-encoded certificate")
      | (None, _) => Err (Errorf "certificate file does not contain PEM-encoded certificate")
      end
  end.

Definition expired_beyond (gracePeriod : Duration) (cert : X509) : bool :=
  (gracePeriod <=? time_Since now (expiresAt (Some cert)))%Z.

Definition relatedAssets (assetKey : string) : list string :=
  let baseName := TrimSuffix assetKey ".crt" in
  [assetKey; baseName +:+ ".key"; baseName +:+ ".json"].

(** The errors are logged. *)
Fixpoint delete_all (keys : list string) (s : St) : St :=
  match keys with
  | [] => s
  | k :: rest => delete_all rest (snd (Delete k s))
  end.

Definition clean_asset (gracePeriod : Duration) (assetKey : string) : ST St (result unit) := λ s,
  if negb (path_Ext assetKey =? ".crt") then (Ok tt, s)
  else
    match read_cert s assetKey with
    | Err e => (Err e, s)
    | Ok cert =>
        if expired_beyond gracePeriod cert then (Ok tt, delete_all (relatedAssets assetKey) s)
        else (Ok tt, s)
    end.

(** The second half of the loop body for a site: an empty folder is deleted. *)
Definition delete_if_empty (siteKey : string) : ST St (result unit) := λ s,
  match List s siteKey false with
  | Ok [] =>
      match Delete siteKey s with
      | (Err _, s) => (Err (Errorf "deleting empty site folder"), s)
      | (Ok _, s) => (Ok tt, s)
      end
  | _ => (Ok tt, s)
  end.

Definition clean_site (gracePeriod : Duration) (siteKey : string) : ST St (result unit) := λ s,
  if ctxDone siteKey then (Err Canceled, s)
  else
    match List s siteKey false with
    | Err _ => (Ok tt, s)
    | Ok siteAssets =>
        match each (clean_asset gracePeriod) siteAssets s with
        | (Err e, s) => (Err e, s)
        | (Ok _, s) => delete_if_empty siteKey s
        end
    end.

Definition clean_issuer (gracePeriod : Duration) (issuerKey : string) : ST St (result unit) := λ s,
  match List s issuerKey false with
  | Err _ => (Ok tt, s)
  | Ok siteKeys => each (clean_site gracePeriod) siteKeys s
  end.

Definition deleteExpiredCerts (gracePeriod : Duration) : ST St (result unit) := λ s,
  match List s prefixCerts false with
  | Err _ => (Ok tt, s)
  | Ok issuerKeys => each (clean_issuer gracePeriod) issuerKeys s
  end.

(** ** [CleanStorage] *)

Definition clean_lockName : string := "storage_clean".
Definition clean_storageKey : string := "last_clean.json".

(** Whether to clean: the last cleaning is long enough ago. *)
Definition clean_due (opts : CleanStorageOptions) (s : St) : result bool :=
  if (0 <? Interval opts)%Z then
    match Load s clean_storageKey with
    | Err e => if errors_Is e ErrNotExist then Ok true
               else Err (Errorf "loading last clean timestamp")
    | Ok lastCleanBytes =>
        match json_UnmarshalLastClean lastCleanBytes with
        | Err _ => Err (Errorf "decoding last clean data")
        | Ok lastTLSClean =>
            Ok (negb (time_Since now (Timestamp lastTLSClean) <? Interval opts)%Z)
        end
    end
  else Ok true.

(** The errors of the two deletions are logged. *)
Definition clean_body (opts : CleanStorageOptions) : ST St (result unit) := λ s,
  match clean_due opts s with
  | Err e => (Err e, s)
  | Ok false => (Ok tt, s)
  | Ok true =>
      let s := if OCSPStaples opts then snd (deleteOldOCSPStaples s) else s in
      let s := if ExpiredCerts opts
               then snd (deleteExpiredCerts (ExpiredCertGracePeriod opts) s) else s in
      match json_MarshalLastClean (MkLastCleaned now (InstanceID opts)) with
      | Err _ => (Err (Errorf "encoding last cleaned info"), s)
      | Ok lastCleanBytes =>
          match Store clean_storageKey lastCleanBytes s with
          | (Err _, s) => (Err (Errorf "storing last clean info"), s)
          | (Ok _, s) => (Ok tt, s)
          end
      end
  end.

(** [i] is the back end to clean. *)
Definition CleanStorage (i : nat) (opts : CleanStorageOptions) :
    ST (LockState St) (result unit) := λ w,
  match acquireLock i clean_lockName w with
  | (Err _, w) => (Err (Errorf "unable to acquire lock"), w)
  | (Ok _, w) =>
      match ls_storages w !! i with
      | None => (Err (Errorf "no such storage"), w)
      | Some s =>
          let '(r, s) := clean_body opts s in
          let w := MkLockState (<[i := s]> (ls_storages w)) (ls_locks w) in
          let '(_, w) := releaseLock i clean_lockName w in
          (r, w)
      end
  end.
End clean.

(** ** Theorems *)

(** What cleaning relies on beyond [StorageLaws]: [Delete] only removes, and
    [List] lists the entries of a directory. *)
Class CleaningLaws (St : Type) `{!Storage St} `{!StorageLaws St} := {
  Delete_shrinks k s r s' : Delete k s = (r, s') → contents s' ⊆ contents s;
  List_covers s p ks k :
    List s p false = Ok ks → is_Some (contents s !! k) → HasPrefix k (p +:+ "/") = true →
    child_of p k ∈ ks;
  List_children s p ks k :
    List s p false = Ok ks → k ∈ ks → ∃ n, k = p +:+ "/" +:+ n ∧ no_byte "/" n = true
}.

(** The extension decides: names with different extensions differ. *)
Lemma ext_inj (s t e e' : string) :
  e ∈ [".crt"; ".key"; ".json"] → e' ∈ [".crt"; ".key"; ".json"] →
  s +:+ e = t +:+ e' → s = t ∧ e = e'.
Proof.
  intros He He' H.
  assert (e = e') as <-; [|split; [by eapply append_inj_r|done]].
  assert (∀ x, x ∈ [".crt"; ".key"; ".json"] →
    ∃ y c, x = y +:+ String c "" ∧
           ((c = "t"%char ∧ x = ".crt") ∨ (c = "y"%char ∧ x = ".key") ∨ (c = "n"%char ∧ x = ".json")))
    as Hl.
  { intros x Hx. rewrite !elem_of_cons, elem_of_nil in Hx. destruct Hx as [->|[->|[->|[]]]].
    - exists ".cr", "t"%char. auto.
    - exists ".ke", "y"%char. auto.
    - exists ".jso", "n"%char. auto 6. }
  destruct (Hl e He) as (y & c & -> & Hc). destruct (Hl e' He') as (y' & c' & -> & Hc').
  rewrite <-!append_assoc in H. apply append_last in H as ->.
  destruct Hc as [[-> ->]|[[-> ->]|[-> ->]]], Hc' as [[? ->]|[[? ->]|[? ->]]]; done.
Qed.

(** A key below another has more separators. *)
Lemma under_same_depth d k :
  CountByte d "/" = CountByte k "/" → under d k = true → k = d.
Proof.
  unfold under. intros Hn Hu. apply orb_true_iff in Hu as [Hu|Hu].
  { by apply String.eqb_eq in Hu. }
  apply HasPrefix_spec in Hu as [t ->].
  rewrite !CountByte_append in Hn. simpl in Hn. lia.
Qed.

Lemma child_count p n : no_byte "/" n = true →
  CountByte (p +:+ "/" +:+ n) "/" = S (CountByte p "/").
Proof. intros H. rewrite !CountByte_append, (CountByte_no_byte n) by done. simpl. lia. Qed.

Lemma child_of_file p n : no_byte "/" n = true → child_of p (p +:+ "/" +:+ n) = p +:+ "/" +:+ n.
Proof.
  intros Hn. unfold child_of. change ("/" +:+ n) with (String "/" n).
  by rewrite string_drop_S_append, IndexByte_no_byte.
Qed.

Lemma child_of_dir p n t : no_byte "/" n = true →
  child_of p (p +:+ "/" +:+ n +:+ "/" +:+ t) = p +:+ "/" +:+ n.
Proof.
  intros Hn. unfold child_of. change ("/" +:+ n +:+ "/" +:+ t) with (String "/" (n +:+ String "/" t)).
  by rewrite string_drop_S_append, IndexByte_append, string_take_append.
Qed.

Lemma each_inv {S A} (I : S → Prop) (f : A → ST S (result unit)) l s r s' :
  (∀ x s r s', x ∈ l → I s → f x s = (r, s') → I s') →
  I s → each f l s = (r, s') → I s'.
Proof.
  revert s. induction l as [|x l IH]; intros s Hf Hs; simpl.
  - by intros [= _ <-].
  - destruct (f x s) as [r1 s1] eqn:E.
    assert (I s1) as Hs1 by (eapply Hf; [by left|exact Hs|exact E]).
    destruct r1 as [[]|e].
    + apply IH; [|done]. intros y ? ? ? Hy. apply Hf. by right.
    + by intros [= _ <-].
Qed.

Lemma each_post {S A} (I Q : S → Prop) (f : A → ST S (result unit)) x0 l s s' :
  (∀ x s r s', x ∈ l → I s → f x s = (r, s') → I s') →
  (∀ x s r s', x ∈ l → Q s → f x s = (r, s') → Q s') →
  (∀ s s', I s → f x0 s = (Ok tt, s') → Q s') →
  I s → x0 ∈ l → each f l s = (Ok tt, s') → Q s'.
Proof.
  intros HI HQ H0. revert s. induction l as [|x l IH]; intros s Hs Hin; simpl.
  - by apply elem_of_nil in Hin.
  - destruct (f x s) as [[[]|e] s1] eqn:E; [|done]. intros Hrun.
    apply elem_of_cons in Hin as [->|Hin].
    + apply (each_inv Q f l s1 (Ok tt)); [|by eapply H0|done].
      intros y ? ? ? Hy. apply HQ. by right.
    + eapply (IH (λ y s r s' Hy, HI y s r s' (proj2 (elem_of_cons _ _ _) (or_intror Hy)))
                 (λ y s r s' Hy, HQ y s r s' (proj2 (elem_of_cons _ _ _) (or_intror Hy))));
        [|done|done]. eapply HI; [|done|done]. by left.
Qed.

Lemma related_spec crt d :
  path_Ext crt = ".crt" → d ∈ relatedAssets crt →
  ∃ base e, crt = base +:+ ".crt" ∧ e ∈ [".crt"; ".key"; ".json"] ∧ d = base +:+ e.
Proof.
  intros He. destruct (path_Ext_suffix crt) as [base Hb]. rewrite He in Hb.
  rewrite Hb. unfold relatedAssets. rewrite TrimSuffix_append, !elem_of_cons, elem_of_nil.
  intros [->|[->|[->|[]]]]; eexists base, _; (split; [done|split; [|done]]); set_solver.
Qed.

(** The walk over the certificates: a property of the storage that the two
    deleting steps preserve holds after it. [P n] describes the keys that are
    [n] levels down. *)
Section walk.
Context {St : Type} `{!Codec} `{!Storage St}.
Context (now : Time) (ctxDone : string → bool) (grace : Duration).
Context (I : St → Prop) (P : nat → string → Prop).
Hypothesis P_child : ∀ n s p ks k, P n p → List s p false = Ok ks → k ∈ ks → P (S n) k.
Hypothesis I_asset : ∀ crt s r s',
  P 3 crt → I s → clean_asset now grace crt s = (r, s') → I s'.
Hypothesis I_empty : ∀ siteKey s r s',
  P 2 siteKey → I s → delete_if_empty siteKey s = (r, s') → I s'.

Lemma clean_site_walk siteKey s r s' :
  P 2 siteKey → I s → clean_site now ctxDone grace siteKey s = (r, s') → I s'.
Proof.
  intros HP HI. unfold clean_site. destruct (ctxDone siteKey); [by intros [= _ <-]|].
  destruct (List s siteKey false) as [ks|] eqn:EL; [|by intros [= _ <-]].
  destruct (each _ ks s) as [[[]|e] s1] eqn:Ee;
    (apply (each_inv I) in Ee; [| |exact HI]; [|by eauto using P_child, I_asset]).
  - by apply I_empty.
  - by intros [= _ <-].
Qed.

Lemma clean_issuer_walk issuerKey s r s' :
  P 1 issuerKey → I s → clean_issuer now ctxDone grace issuerKey s = (r, s') → I s'.
Proof.
  intros HP HI. unfold clean_issuer.
  destruct (List s issuerKey false) as [ks|] eqn:EL; [|by intros [= _ <-]].
  apply each_inv; [|done]. intros k ? ? ? Hin. by apply clean_site_walk, (P_child 1 s issuerKey ks).
Qed.

Lemma deleteExpiredCerts_walk s r s' :
  P 0 prefixCerts → I s → deleteExpiredCerts now ctxDone grace s = (r, s') → I s'.
Proof.
  intros HP HI. unfold deleteExpiredCerts.
  destruct (List s prefixCerts false) as [ks|] eqn:EL; [|by intros [= _ <-]].
  apply each_inv; [|done]. intros k ? ? ? Hin. by apply clean_issuer_walk, (P_child 0 s prefixCerts ks).
Qed.
End walk.

Section site.
Context {St N : Type} `{!Codec} `{!Storage St} `{!OCSPNet N} `{!CleanCodec}
  `{!StorageLaws St} `{!CleaningLaws St}.
Context (now : Time) (ctxDone : string → bool) (grace : Duration).
Implicit Types s : St.

Lemma delete_all_other keys s k :
  Forall (λ d, under d k = false) keys → contents (delete_all keys s) !! k = contents s !! k.
Proof.
  intros Hk0. revert s. induction Hk0 as [|d keys Hd _ IH]; intros s; simpl; [done|].
  rewrite IH. destruct (Delete d s) as [r s1] eqn:E. by apply (Delete_other _ _ _ _ E).
Qed.

Lemma Delete_None d s k : contents s !! k = None → contents (snd (Delete d s)) !! k = None.
Proof.
  intros Hk0. destruct (Delete d s) as [r s1] eqn:E. apply Delete_shrinks in E. simpl.
  by eapply lookup_weaken_None.
Qed.

Lemma delete_all_None keys s k :
  contents s !! k = None → contents (delete_all keys s) !! k = None.
Proof. revert s. induction keys as [|d keys IH]; intros s Hk0; [done|]. by apply IH, Delete_None. Qed.

(** The assets of one site. *)
Context (ik dom : string) (Hsite : plain_site ik dom).

Definition same_assets s s' : Prop :=
  ∀ a, contents s' !! asset_key a ik dom = contents s !! asset_key a ik dom.
Definition assets_gone s : Prop := ∀ a, contents s !! asset_key a ik dom = None.

Lemma same_assets_refl s : same_assets s s.
Proof. done. Qed.
Lemma same_assets_gone s s' : same_assets s s' → assets_gone s → assets_gone s'.
Proof. intros Hk0 G a. by rewrite Hk0. Qed.

Definition site_base : string := Join [prefixCerts; Safe ik; Safe dom; Safe dom] "/".

Lemma asset_key_base a : asset_key a ik dom = site_base +:+ asset_ext a.
Proof. rewrite asset_key_plain by done. unfold site_base. cbn [Join]. by rewrite !append_assoc. Qed.

Lemma asset_key_cert : SiteCert ik dom = asset_key AssetCert ik dom.
Proof. cbn [asset_key]. reflexivity. Qed.

Lemma SiteCert_Ext : path_Ext (SiteCert ik dom) = ".crt".
Proof. rewrite asset_key_cert, asset_key_base. cbn [asset_ext]. by apply path_Ext_append. Qed.

Lemma asset_ext_elem a : asset_ext a ∈ [".crt"; ".key"; ".json"].
Proof. destruct a; set_solver. Qed.

Lemma asset_key_depth a : CountByte (asset_key a ik dom) "/" = 3%nat.
Proof.
  destruct Hsite as [Hi%plain_no_slash Hd%plain_no_slash].
  rewrite asset_key_base. unfold site_base. cbn [Join].
  rewrite !CountByte_append, (CountByte_no_byte (Safe ik)), (CountByte_no_byte (Safe dom)) by done.
  by destruct a.
Qed.

Lemma related_other crt a :
  path_Ext crt = ".crt" → CountByte crt "/" = 3%nat → crt ≠ SiteCert ik dom →
  Forall (λ d, under d (asset_key a ik dom) = false) (relatedAssets crt).
Proof.
  intros He Hc Hne. apply Forall_forall. intros d Hd.
  apply not_true_iff_false. intros Hu. apply Hne.
  destruct (related_spec crt d He Hd) as (base & e & -> & Hin & ->).
  apply under_same_depth in Hu.
  - rewrite asset_key_base in Hu. apply ext_inj in Hu as [<- _]; [|apply asset_ext_elem|done].
    by rewrite asset_key_cert, asset_key_base.
  - rewrite asset_key_depth. rewrite !CountByte_append in Hc |- *.
    rewrite (CountByte_no_byte e); [simpl in Hc; lia|].
    rewrite !elem_of_cons, elem_of_nil in Hin. by destruct Hin as [->|[->|[->|[]]]].
Qed.

Lemma related_self : relatedAssets (SiteCert ik dom) =
  [asset_key AssetCert ik dom; asset_key AssetKey ik dom; asset_key AssetMeta ik dom].
Proof.
  unfold relatedAssets. rewrite asset_key_cert.
  rewrite !asset_key_base. cbn [asset_ext]. by rewrite TrimSuffix_append.
Qed.

Lemma clean_asset_other crt s r s' :
  CountByte crt "/" = 3%nat → crt ≠ SiteCert ik dom →
  clean_asset now grace crt s = (r, s') → same_assets s s'.
Proof.
  intros Hc Hne. unfold clean_asset. destruct (path_Ext crt =? ".crt") eqn:He; cbn [negb].
  2: { by intros [= _ <-]. }
  apply String.eqb_eq in He.
  destruct (read_cert s crt) as [cert|]; [|by intros [= _ <-]].
  destruct (expired_beyond _ _ _); [|by intros [= _ <-]]. intros Hrun a.
  assert (s' = delete_all (relatedAssets crt) s) as -> by congruence.
  by apply delete_all_other, related_other.
Qed.

Lemma delete_if_empty_same siteKey s r s' :
  CountByte siteKey "/" = 2%nat → delete_if_empty siteKey s = (r, s') → same_assets s s'.
Proof.
  intros Hc. unfold delete_if_empty.
  destruct (List s siteKey false) as [[|]|] eqn:EL; try by intros [= _ <-].
  intros Hrun a. set (k := asset_key a ik dom).
  assert (snd (Delete siteKey s) = s') as <-.
  { revert Hrun. by destruct (Delete siteKey s) as [[]]; intros [= _ <-]. }
  destruct (under siteKey k) eqn:Hu.
  - assert (contents s !! k = None) as Hnone.
    { apply eq_None_not_Some. intros Hk. unfold under in Hu.
      apply orb_true_iff in Hu as [->%String.eqb_eq|Hu].
      - unfold k in Hc. by rewrite asset_key_depth in Hc.
      - pose proof (List_covers _ _ _ _ EL Hk Hu). set_solver. }
    rewrite Hnone. by apply Delete_None.
  - destruct (Delete siteKey s) as [r1 s1] eqn:E. by apply (Delete_other _ _ _ _ E).
Qed.
(** Anything that is true of the assets and survives the treatment of the
    site's own certificate is true after the whole walk. *)
Section site_walk.
Context (I : St → Prop).
Hypothesis I_same : ∀ s s', same_assets s s' → I s → I s'.
Hypothesis I_own : ∀ s r s',
  I s → clean_asset now grace (SiteCert ik dom) s = (r, s') → I s'.

Definition at_depth (n : nat) (k : string) : Prop := CountByte k "/" = n.

Lemma at_depth_child n s p ks k :
  at_depth n p → List s p false = Ok ks → k ∈ ks → at_depth (S n) k.
Proof.
  intros <- HL Hin. destruct (List_children _ _ _ _ HL Hin) as (m & -> & Hm). by apply child_count.
Qed.

Lemma clean_asset_I crt s r s' :
  at_depth 3 crt → I s → clean_asset now grace crt s = (r, s') → I s'.
Proof.
  intros Hc HI Hrun. destruct (decide (crt = SiteCert ik dom)) as [->|Hne]; [by eapply I_own|].
  eapply I_same; [|exact HI]. by eapply clean_asset_other.
Qed.

Lemma delete_if_empty_I siteKey s r s' :
  at_depth 2 siteKey → I s → delete_if_empty siteKey s = (r, s') → I s'.
Proof. intros Hc HI Hrun. eapply I_same; [|exact HI]. by eapply delete_if_empty_same. Qed.

Lemma clean_site_I siteKey s r s' :
  at_depth 2 siteKey → I s → clean_site now ctxDone grace siteKey s = (r, s') → I s'.
Proof.
  apply clean_site_walk with (P := at_depth);
    [apply at_depth_child|apply clean_asset_I|apply delete_if_empty_I].
Qed.

Lemma clean_issuer_I issuerKey s r s' :
  at_depth 1 issuerKey → I s → clean_issuer now ctxDone grace issuerKey s = (r, s') → I s'.
Proof.
  apply clean_issuer_walk with (P := at_depth);
    [apply at_depth_child|apply clean_asset_I|apply delete_if_empty_I].
Qed.

Lemma deleteExpiredCerts_I s r s' :
  I s → deleteExpiredCerts now ctxDone grace s = (r, s') → I s'.
Proof.
  intros HI. eapply deleteExpiredCerts_walk;
    [apply at_depth_child|apply clean_asset_I|apply delete_if_empty_I|done|done].
Qed.
End site_walk.

Lemma read_cert_same s s' k cert :
  contents s' !! k = contents s !! k → read_cert s k = Ok cert → read_cert s' k = Ok cert.
Proof.
  intros Heq. unfold read_cert. destruct (Load s k) as [v|] eqn:EL; [|done].
  apply Load_Ok in EL. rewrite EL in Heq. by rewrite (Load_contents _ _ _ Heq).
Qed.

Lemma clean_asset_keeps s cert r s' :
  read_cert s (SiteCert ik dom) = Ok cert → expired_beyond now grace cert = false →
  clean_asset now grace (SiteCert ik dom) s = (r, s') → s' = s.
Proof.
  intros Hr He. unfold clean_asset. destruct (negb _); [by intros [= _ <-]|].
  rewrite Hr, He. by intros [= _ <-].
Qed.

Lemma deleteExpiredCerts_same s cert r s' :
  read_cert s (SiteCert ik dom) = Ok cert → expired_beyond now grace cert = false →
  deleteExpiredCerts now ctxDone grace s = (r, s') → same_assets s s'.
Proof.
  intros Hr He. apply (deleteExpiredCerts_I (same_assets s)); [| |apply same_assets_refl].
  - intros s1 s2 H12 H01 a. by rewrite H12.
  - intros s1 r1 s2 H01 Hrun. apply clean_asset_keeps with (cert := cert) in Hrun as ->; [done| |done].
    eapply read_cert_same; [|exact Hr]. rewrite asset_key_cert. apply H01.
Qed.

(** Now the certificate of the site has expired, and the storage works. *)
Section removes.
Context (cert : X509) (v : bytes).
Hypothesis Hread : ∀ s, contents s !! SiteCert ik dom = Some v →
  read_cert s (SiteCert ik dom) = Ok cert.
Hypothesis Hexpired : expired_beyond now grace cert = true.
Hypothesis Hctx : ∀ k, ctxDone k = false.
Hypothesis Hdelete : ∀ k s, is_Ok (fst (Delete k s)) = true.
Hypothesis Hlist : ∀ s p k, is_Some (contents s !! k) → HasPrefix k (p +:+ "/") = true →
  is_Ok (List s p false) = true.

Definition stored_or_gone s : Prop := contents s !! SiteCert ik dom = Some v ∨ assets_gone s.

Lemma Delete_gone k s : contents (snd (Delete k s)) !! k = None.
Proof.
  pose proof (Hdelete k s) as Hd. destruct (Delete k s) as [[[]|] s1] eqn:E; [|done].
  simpl. rewrite (Delete_Ok _ _ _ E). apply map_lookup_filter_None. right. intros x _.
  simpl. by rewrite under_refl.
Qed.

Lemma delete_all_gone keys s k : k ∈ keys → contents (delete_all keys s) !! k = None.
Proof.
  revert s. induction keys as [|d keys IH]; intros s Hin; [by apply elem_of_nil in Hin|].
  simpl. apply elem_of_cons in Hin as [->|Hin]; [|by apply IH].
  apply delete_all_None, Delete_gone.
Qed.

Lemma clean_asset_own s s' :
  stored_or_gone s → clean_asset now grace (SiteCert ik dom) s = (Ok tt, s') → assets_gone s'.
Proof.
  unfold clean_asset. rewrite SiteCert_Ext, String.eqb_refl. intros [Hst|Hg]; cbn [negb].
  - rewrite (Hread s Hst), Hexpired. intros Hrun a.
    assert (s' = delete_all (relatedAssets (SiteCert ik dom)) s) as -> by congruence.
    apply delete_all_gone. rewrite related_self, !elem_of_cons.
    destruct a; [by left|right; by left|right; right; by left].
  - unfold read_cert. pose proof (Load_spec s (SiteCert ik dom)) as HL.
    rewrite asset_key_cert, (Hg AssetCert) in HL. destruct HL as (e & HL & _).
    rewrite asset_key_cert, HL. by intros [=].
Qed.

Lemma stored_or_gone_same s s' : same_assets s s' → stored_or_gone s → stored_or_gone s'.
Proof.
  intros Hs [Hst|Hg]; [left|right; by eapply same_assets_gone].
  revert Hst. by rewrite asset_key_cert, (Hs AssetCert).
Qed.

Lemma gone_own s r s' :
  assets_gone s → clean_asset now grace (SiteCert ik dom) s = (r, s') → assets_gone s'.
Proof.
  intros Hg. unfold clean_asset. destruct (negb _); [by intros [= _ <-]|].
  destruct (read_cert s _) as [c|]; [|by intros [= _ <-]].
  intros Hrun. destruct (expired_beyond now grace c).
  - assert (s' = delete_all (relatedAssets (SiteCert ik dom)) s) as -> by congruence.
    intros a. apply delete_all_None, Hg.
  - by assert (s' = s) as -> by congruence.
Qed.

Lemma stored_or_gone_own s r s' :
  stored_or_gone s → clean_asset now grace (SiteCert ik dom) s = (r, s') → stored_or_gone s'.
Proof.
  intros Hs Hrun. destruct r as [[]|e]; [right; by eapply clean_asset_own|].
  revert Hrun. unfold clean_asset. destruct (negb _); [done|].
  destruct (read_cert s _) as [c|]; [|by intros [= _ <-]].
  by destruct (expired_beyond now grace c).
Qed.

(** The way from the root of the certificates down to the file. *)
Lemma site_path :
  SiteCert ik dom = CertsSitePrefix ik dom +:+ "/" +:+ Safe dom +:+ ".crt" ∧
  CertsSitePrefix ik dom = (prefixCerts +:+ "/" +:+ Safe ik) +:+ "/" +:+ Safe dom.
Proof.
  rewrite asset_key_cert, asset_key_plain, CertsSitePrefix_plain by done.
  cbn [Join asset_ext]. by rewrite !append_assoc.
Qed.

Lemma SiteCert_below :
  HasPrefix (SiteCert ik dom) (CertsSitePrefix ik dom +:+ "/") = true ∧
  HasPrefix (SiteCert ik dom) ((prefixCerts +:+ "/" +:+ Safe ik) +:+ "/") = true ∧
  HasPrefix (SiteCert ik dom) (prefixCerts +:+ "/") = true.
Proof.
  destruct site_path as [Hp Hp']. rewrite !HasPrefix_spec, Hp.
  split; [|rewrite Hp'; split]; eexists; by rewrite !append_assoc.
Qed.

Lemma site_children :
  child_of (CertsSitePrefix ik dom) (SiteCert ik dom) = SiteCert ik dom ∧
  child_of (prefixCerts +:+ "/" +:+ Safe ik) (SiteCert ik dom) = CertsSitePrefix ik dom ∧
  child_of prefixCerts (SiteCert ik dom) = prefixCerts +:+ "/" +:+ Safe ik.
Proof.
  destruct site_path as [Hp Hp']. pose proof (λ x, proj2 (Safe_charset x)) as Hs. split; [|split].
  - rewrite Hp. apply child_of_file. by rewrite no_byte_append, Hs.
  - rewrite Hp, Hp', !(append_assoc (_ +:+ _)). cbn [String.append]. by apply child_of_dir.
  - rewrite Hp, Hp', !append_assoc. by apply child_of_dir.
Qed.

(** One level of the walk: the directory is listed and the entry on the way to
    the certificate is treated. *)
Lemma level_removes (f : string → ST St (result unit)) p s s' :
  HasPrefix (SiteCert ik dom) (p +:+ "/") = true →
  (∀ ks x s1 r s2, List s p false = Ok ks → x ∈ ks →
     stored_or_gone s1 → f x s1 = (r, s2) → stored_or_gone s2) →
  (∀ ks x s1 r s2, List s p false = Ok ks → x ∈ ks →
     assets_gone s1 → f x s1 = (r, s2) → assets_gone s2) →
  (∀ s1 s2, stored_or_gone s1 → f (child_of p (SiteCert ik dom)) s1 = (Ok tt, s2) →
     assets_gone s2) →
  contents s !! SiteCert ik dom = Some v →
  ∃ ks, List s p false = Ok ks ∧ (each f ks s = (Ok tt, s') → assets_gone s').
Proof.
  intros Hpre HI HQ Hown Hst.
  pose proof (Hlist s p _ (mk_is_Some _ _ Hst) Hpre) as HL.
  destruct (List s p false) as [ks|] eqn:EL; [|done]. exists ks. split; [done|].
  apply (each_post stored_or_gone assets_gone f (child_of p (SiteCert ik dom))).
  - intros x ? ? ? Hx. by apply (HI ks).
  - intros x ? ? ? Hx. by apply (HQ ks).
  - done.
  - by left.
  - exact (List_covers _ _ _ _ EL (mk_is_Some _ _ Hst) Hpre).
Qed.

Lemma site_depth : at_depth 2 (CertsSitePrefix ik dom).
Proof. unfold at_depth. rewrite (proj2 site_path). rewrite !child_count by apply Safe_charset. done. Qed.

Hint Resolve same_assets_gone gone_own stored_or_gone_same stored_or_gone_own : certmagic.

Lemma clean_site_removes s s' :
  stored_or_gone s → clean_site now ctxDone grace (CertsSitePrefix ik dom) s = (Ok tt, s') →
  assets_gone s'.
Proof.
  intros [Hst|Hg] Hrun.
  2: { eapply (clean_site_I assets_gone); [..|exact Hrun]; eauto using site_depth with certmagic. }
  revert Hrun. unfold clean_site. rewrite Hctx.
  destruct (each (clean_asset now grace) (match List s (CertsSitePrefix ik dom) false with
    Ok ks => ks | Err _ => [] end) s) as [r1 s1] eqn:Ee.
  destruct (level_removes (clean_asset now grace) (CertsSitePrefix ik dom) s s1)
    as (ks & EL & Hgone); [apply SiteCert_below|..|done|].
  - intros ks x s2 r2 s3 EL Hx. eapply (clean_asset_I stored_or_gone); eauto with certmagic.
    by eapply at_depth_child, Hx; [apply site_depth|exact EL].
  - intros ks x s2 r2 s3 EL Hx. eapply (clean_asset_I assets_gone); eauto with certmagic.
    by eapply at_depth_child, Hx; [apply site_depth|exact EL].
  - rewrite (proj1 site_children). apply clean_asset_own.
  - rewrite EL in Ee |- *. rewrite Ee. destruct r1 as [[]|]; [|done]. intros Hrun.
    eapply same_assets_gone; [by eapply delete_if_empty_same; [apply site_depth|]|auto].
Qed.

Lemma clean_issuer_removes s s' :
  stored_or_gone s →
  clean_issuer now ctxDone grace (prefixCerts +:+ "/" +:+ Safe ik) s = (Ok tt, s') →
  assets_gone s'.
Proof.
  assert (at_depth 1 (prefixCerts +:+ "/" +:+ Safe ik)) as Hd
    by (by unfold at_depth; rewrite child_count by apply Safe_charset).
  intros [Hst|Hg] Hrun.
  2: { eapply (clean_issuer_I assets_gone); [..|exact Hrun]; eauto with certmagic. }
  revert Hrun. unfold clean_issuer.
  destruct (level_removes (clean_site now ctxDone grace) (prefixCerts +:+ "/" +:+ Safe ik) s s')
    as (ks & EL & Hgone); [apply SiteCert_below|..|done|].
  - intros ks x s2 r2 s3 EL Hx. eapply (clean_site_I stored_or_gone); eauto with certmagic.
    by eapply at_depth_child, Hx; [exact Hd|exact EL].
  - intros ks x s2 r2 s3 EL Hx. eapply (clean_site_I assets_gone); eauto with certmagic.
    by eapply at_depth_child, Hx; [exact Hd|exact EL].
  - rewrite (proj1 (proj2 site_children)). apply clean_site_removes.
  - by rewrite EL.
Qed.

Lemma deleteExpiredCerts_gone s s' :
  contents s !! SiteCert ik dom = Some v →
  deleteExpiredCerts now ctxDone grace s = (Ok tt, s') → assets_gone s'.
Proof.
  intros Hst. unfold deleteExpiredCerts.
  destruct (level_removes (clean_issuer now ctxDone grace) prefixCerts s s')
    as (ks & EL & Hgone); [apply SiteCert_below|..|done|].
  - intros ks x s2 r2 s3 EL Hx. eapply (clean_issuer_I stored_or_gone); eauto with certmagic.
    by eapply at_depth_child, Hx; [|exact EL].
  - intros ks x s2 r2 s3 EL Hx. eapply (clean_issuer_I assets_gone); eauto with certmagic.
    by eapply at_depth_child, Hx; [|exact EL].
  - rewrite (proj2 (proj2 site_children)). apply clean_issuer_removes.
  - by rewrite EL.
Qed.
End removes.
End site.

(** ** What cleaning keeps and what it removes *)

Section clean_theorems.
Context {St N : Type} `{!Codec} `{!Storage St} `{!OCSPNet N} `{!CleanCodec}
  `{!StorageLaws St} `{!CleaningLaws St}.
Implicit Types s : St.

(** Keys that start with different letters are not below one another. *)
Lemma under_head c d k k' : c ≠ d → under (String c k) (String d k') = false.
Proof.
  intros Hne. apply not_true_iff_false. unfold under.
  intros [E|E]%orb_true_iff; [apply String.eqb_eq in E|apply HasPrefix_spec in E as [t E]];
    simpl in E; congruence.
Qed.

Definition starts (c : ascii) (k : string) : Prop := ∃ k', k = String c k'.

Lemma starts_append c k t : starts c k → starts c (k +:+ t).
Proof. intros [k' ->]. by exists (k' +:+ t). Qed.

Lemma List_starts c s p ks k : starts c p → List s p false = Ok ks → k ∈ ks → starts c k.
Proof. intros Hp HL Hin. destruct (List_children _ _ _ _ HL Hin) as (n & -> & _). by apply starts_append. Qed.

Lemma related_starts crt d :
  starts "c" crt → path_Ext crt = ".crt" → d ∈ relatedAssets crt → starts "c" d.
Proof.
  intros [k Hk] He Hd. destruct (related_spec crt d He Hd) as (base & e & Hb & _ & ->).
  apply starts_append. rewrite Hk in Hb. destruct base as [|c base]; simpl in Hb; simplify_eq. by exists base.
Qed.

(** Cleaning certificates leaves other directories alone. *)
Lemma deleteExpiredCerts_other now ctxDone grace s r s' c k :
  c ≠ "c"%char → deleteExpiredCerts now ctxDone grace s = (r, s') →
  contents s' !! String c k = contents s !! String c k.
Proof.
  intros Hc. apply (deleteExpiredCerts_walk now ctxDone grace
    (λ s', contents s' !! String c k = contents s !! String c k) (λ _, starts "c"));
    [by eauto using List_starts|..|by eexists|done].
  - intros crt s1 r1 s2 Hs <-. unfold clean_asset.
    destruct (path_Ext crt =? ".crt") eqn:He; cbn [negb]; [|by intros [= _ <-]].
    apply String.eqb_eq in He. destruct (read_cert s1 crt) as [x|]; [|by intros [= _ <-]].
    intros Hrun. destruct (expired_beyond now grace x); [|by assert (s2 = s1) as -> by congruence].
    assert (s2 = delete_all (relatedAssets crt) s1) as -> by congruence.
    apply delete_all_other, Forall_forall. intros d Hd.
    destruct (related_starts crt d Hs He Hd) as [d' ->]. by apply under_head.
  - intros site s1 r1 s2 [p ->] <-. unfold delete_if_empty.
    destruct (List s1 _ false) as [[|]|]; try by intros [= _ <-].
    destruct (Delete _ s1) as [[]] eqn:E; intros [= _ <-];
      apply (Delete_other _ _ _ _ E); by apply under_head.
Qed.

(** A staple that is still valid is kept, and other directories too. *)
Lemma clean_staple_other now ctxDone key s r s' k :
  clean_staple (N := N) now ctxDone key s = (r, s') → under key k = false →
  contents s' !! k = contents s !! k.
Proof.
  unfold clean_staple. destruct (ctxDone key); [by intros [= _ <-]|].
  destruct (Load s key) as [b|]; [|by intros [= _ <-]]. destruct (Delete key s) as [r1 s1] eqn:E.
  destruct (ocsp_ParseResponse b None) as [resp|];
    [destruct (time_After _ _)|]; intros [= _ <-]; eauto using Delete_other.
Qed.

Lemma deleteOldOCSPStaples_other now ctxDone s r s' c k :
  c ≠ "o"%char → deleteOldOCSPStaples (N := N) now ctxDone s = (r, s') →
  contents s' !! String c k = contents s !! String c k.
Proof.
  intros Hc. unfold deleteOldOCSPStaples.
  destruct (List s prefixOCSP false) as [ks|] eqn:EL; [|by intros [= _ <-]].
  apply (each_inv (λ s', contents s' !! String c k = contents s !! String c k)); [|done].
  intros x s1 r1 s2 Hx <- Hrun. eapply clean_staple_other; [exact Hrun|].
  destruct (List_starts "o" _ _ _ _ ltac:(by eexists) EL Hx) as [x' ->]. by apply under_head.
Qed.

Lemma deleteOldOCSPStaples_keeps now ctxDone s r s' n b resp :
  no_byte "/" n = true → contents s !! (prefixOCSP +:+ "/" +:+ n) = Some b →
  ocsp_ParseResponse (N := N) b None = Ok resp → (now ≤ NextUpdate resp)%Z →
  deleteOldOCSPStaples (N := N) now ctxDone s = (r, s') →
  contents s' !! (prefixOCSP +:+ "/" +:+ n) = Some b.
Proof.
  intros Hn Hb Hp Hle. unfold deleteOldOCSPStaples.
  destruct (List s prefixOCSP false) as [ks|] eqn:EL; [|by intros [= _ <-]].
  apply (each_inv (λ s', contents s' !! (prefixOCSP +:+ "/" +:+ n) = Some b)); [|done].
  intros x s1 r1 s2 Hx Hs1 Hrun. set (k := prefixOCSP +:+ "/" +:+ n) in *.
  destruct (under x k) eqn:Hu; [|by rewrite (clean_staple_other _ _ _ _ _ _ _ Hrun Hu)].
  destruct (List_children _ _ _ _ EL Hx) as (m & Hm & Hm').
  apply under_same_depth in Hu; [|unfold k; by rewrite Hm, !child_count].
  revert Hrun. unfold clean_staple. rewrite <-Hu, (Load_contents _ _ _ Hs1), Hp.
  destruct (ctxDone k); [by intros [= _ <-]|]. unfold time_After.
  destruct (Z.ltb_spec (NextUpdate resp) now); [lia|]. by intros [= _ <-].
Qed.

(** What must survive: the assets of a certificate within its grace period and
    a valid staple. *)
Definition in_use (now : Time) (grace : Duration) s (k : string) : Prop :=
  (∃ ik dom cert a, plain_site ik dom ∧ read_cert s (SiteCert ik dom) = Ok cert ∧
     expired_beyond now grace cert = false ∧ k = asset_key a ik dom) ∨
  (∃ n b resp, no_byte "/" n = true ∧ k = prefixOCSP +:+ "/" +:+ n ∧ contents s !! k = Some b ∧
     ocsp_ParseResponse (N := N) b None = Ok resp ∧ (now ≤ NextUpdate resp)%Z).

Lemma asset_starts a ik dom : plain_site ik dom → starts "c" (asset_key a ik dom).
Proof. intros Hp. rewrite asset_key_base by done. by apply starts_append; eexists. Qed.

Lemma clean_body_keeps now ctxDone opts s r s' k :
  in_use now (ExpiredCertGracePeriod opts) s k →
  clean_body (N := N) now ctxDone opts s = (r, s') → contents s' !! k = contents s !! k.
Proof.
  intros Hk. unfold clean_body. destruct (clean_due _ _ _) as [[]|]; try by intros [= _ <-].
  set (s1 := if OCSPStaples opts then _ else s).
  set (s2 := if ExpiredCerts opts then _ else s1). intros Hrun.
  assert (k ≠ clean_storageKey ∧ contents s2 !! k = contents s !! k) as [Hne Hs2].
  { destruct Hk as [(ik & dom & cert & a & Hp & Hr & He & ->)|(n & b & resp & Hn & -> & Hb & Ho & Hle)].
    - destruct (asset_starts a ik dom Hp) as [k' Ek].
      assert (∀ x, contents s1 !! asset_key x ik dom = contents s !! asset_key x ik dom) as Hs1.
      { intros x. destruct (asset_starts x ik dom Hp) as [kx Ex]. rewrite Ex. unfold s1.
        destruct (OCSPStaples opts), (deleteOldOCSPStaples now ctxDone s) as [r1 s3] eqn:E1; [|done..].
        by apply (deleteOldOCSPStaples_other _ _ _ _ _ "c" _ ltac:(discriminate) E1). }
      split; [by rewrite Ek|]. rewrite <-Hs1. unfold s2. destruct (ExpiredCerts opts); [|done].
      destruct (deleteExpiredCerts now ctxDone _ s1) as [r1 s3] eqn:E1.
      refine (deleteExpiredCerts_same _ _ _ ik dom Hp s1 cert r1 s3 _ He E1 a).
      eapply read_cert_same, Hr. rewrite asset_key_cert. apply Hs1.
    - split; [done|]. rewrite Hb. transitivity (contents s1 !! (prefixOCSP +:+ "/" +:+ n)).
      + unfold s2. destruct (ExpiredCerts opts); [|done].
        destruct (deleteExpiredCerts now ctxDone _ s1) as [r1 s3] eqn:E1.
        by apply (deleteExpiredCerts_other _ _ _ _ _ _ "o" _ ltac:(discriminate) E1).
      + unfold s1. destruct (OCSPStaples opts); [|done].
        destruct (deleteOldOCSPStaples now ctxDone s) as [r1 s3] eqn:E1.
        by apply (deleteOldOCSPStaples_keeps _ _ _ _ _ _ _ _ Hn Hb Ho Hle E1). }
  rewrite <-Hs2. destruct (json_MarshalLastClean _) as [bs|]; [|by injection Hrun as _ <-].
  destruct (Store clean_storageKey bs s2) as [[[]|e] s3] eqn:E3; injection Hrun as _ <-.
  - rewrite (Store_Ok _ _ _ _ E3). by rewrite lookup_insert_ne.
  - by apply (Store_Err _ _ _ _ _ E3).
Qed.

(** The storage of a run of [CleanStorage], once the lock is held, and after. *)
Lemma CleanStorage_run now ctxDone i opts w r w' w1 s1 :
  acquireLock i clean_lockName w = (Ok tt, w1) → ls_storages w1 !! i = Some s1 →
  CleanStorage (N := N) now ctxDone i opts w = (r, w') →
  ∃ s2 s', clean_body (N := N) now ctxDone opts s1 = (r, s2) ∧
    ls_storages w' !! i = Some s' ∧ contents s' = contents s2.
Proof.
  intros Hl Hs. unfold CleanStorage. rewrite Hl, Hs.
  destruct (clean_body now ctxDone opts s1) as [r2 s2] eqn:Eb. unfold releaseLock. simpl.
  assert (i < length (ls_storages w1))%nat as Hi by (by apply lookup_lt_is_Some; eauto).
  rewrite list_lookup_insert_eq by done. destruct (Unlock clean_lockName s2) as [r3 s3] eqn:Eu.
  intros [= <- <-]. exists s2, s3. split; [done|]. simpl. split.
  - apply list_lookup_insert_eq. by rewrite length_insert.
  - by apply Unlock_contents in Eu.
Qed.

(** (C31) Cleaning is safe: whatever else [CleanStorage] deletes and however it
    ends, the certificate, private key and metadata of every site whose
    certificate is within its grace period are as they were when the lock was
    obtained, and so is every OCSP staple that is still valid. *)
Theorem CleanStorage_keeps now ctxDone i opts w r w' w1 s1 :
  acquireLock i clean_lockName w = (Ok tt, w1) → ls_storages w1 !! i = Some s1 →
  CleanStorage (N := N) now ctxDone i opts w = (r, w') →
  ∃ s', ls_storages w' !! i = Some s' ∧
    ∀ k, in_use now (ExpiredCertGracePeriod opts) s1 k → contents s' !! k = contents s1 !! k.
Proof.
  intros Hl Hs Hrun. destruct (CleanStorage_run _ _ _ _ _ _ _ _ _ Hl Hs Hrun)
    as (s2 & s' & Hb & Hs' & Hc).
  exists s'. split; [done|]. intros k Hk. rewrite Hc. by eapply clean_body_keeps.
Qed.

(** Cleaning is effective: when [deleteExpiredCerts] ends without an error
    on a storage that can list and delete, a certificate that had expired for
    longer than the grace period is gone with its private key and metadata. *)
Theorem deleteExpiredCerts_removes now ctxDone grace ik dom v cert s s' :
  (∀ k, ctxDone k = false) → (∀ k s1, is_Ok (fst (Delete k s1)) = true) →
  (∀ s1 p k, is_Some (contents s1 !! k) → HasPrefix k (p +:+ "/") = true →
     is_Ok (List s1 p false) = true) →
  plain_site ik dom → contents s !! SiteCert ik dom = Some v →
  read_cert s (SiteCert ik dom) = Ok cert → expired_beyond now grace cert = true →
  deleteExpiredCerts now ctxDone grace s = (Ok tt, s') →
  ∀ a, contents s' !! asset_key a ik dom = None.
Proof.
  intros Hctx Hdel Hlist Hp Hv Hr He.
  apply (deleteExpiredCerts_gone now ctxDone grace ik dom Hp cert v); try done.
  intros s1 Hs1. eapply read_cert_same, Hr. by rewrite Hv.
Qed.

Context (lastclean_roundtrip : ∀ x b,
  json_MarshalLastClean x = Ok b → json_UnmarshalLastClean b = Ok x).

Lemma clean_body_records now ctxDone opts s s' :
  clean_due now opts s = Ok true → clean_body (N := N) now ctxDone opts s = (Ok tt, s') →
  ∃ b, contents s' !! clean_storageKey = Some b ∧
       json_UnmarshalLastClean b = Ok (MkLastCleaned now (InstanceID opts)).
Proof.
  intros Hdue. unfold clean_body. rewrite Hdue. set (s2 := if ExpiredCerts opts then _ else _).
  destruct (json_MarshalLastClean _) as [b|] eqn:Em; [|done].
  destruct (Store clean_storageKey b s2) as [[[]|] s3] eqn:Es; [|done]. intros [= <-].
  exists b. rewrite (Store_Ok _ _ _ _ Es), lookup_insert_eq. auto.
Qed.

(** Cleaning is not repeated: after a cleaning that was carried out, a
    further one that starts within its interval ends without an error and
    leaves the storage as it found it. *)
Theorem CleanStorage_interval now now' ctxDone ctxDone' i opts opts' w w' w1 s1 s' v v1 v' r' t1 :
  acquireLock i clean_lockName w = (Ok tt, w1) → ls_storages w1 !! i = Some s1 →
  clean_due now opts s1 = Ok true → CleanStorage (N := N) now ctxDone i opts w = (Ok tt, w') →
  ls_storages w' !! i = Some s' →
  acquireLock i clean_lockName v = (Ok tt, v1) → ls_storages v1 !! i = Some t1 →
  contents t1 !! clean_storageKey = contents s' !! clean_storageKey →
  (0 < Interval opts')%Z → (time_Since now' now < Interval opts')%Z →
  CleanStorage (N := N) now' ctxDone' i opts' v = (r', v') →
  r' = Ok tt ∧ ∃ t', ls_storages v' !! i = Some t' ∧ contents t' = contents t1.
Proof.
  intros Hl Hs Hdue Hrun Hs' Hl' Ht Hsame Hint Hlt Hrun'.
  destruct (CleanStorage_run _ _ _ _ _ _ _ _ _ Hl Hs Hrun) as (s2 & s3 & Hb & Hs3 & Hc).
  destruct (CleanStorage_run _ _ _ _ _ _ _ _ _ Hl' Ht Hrun') as (t2 & t3 & Hb' & Ht3 & Hc').
  rewrite Hs' in Hs3. injection Hs3 as <-.
  destruct (clean_body_records _ _ _ _ _ Hdue Hb) as (b & Hbk & Hun).
  rewrite Hc, Hbk in Hsame. revert Hb'. unfold clean_body, clean_due.
  rewrite (proj2 (Z.ltb_lt 0 (Interval opts')) Hint), (Load_contents _ _ _ Hsame), Hun. simpl.
  rewrite (proj2 (Z.ltb_lt _ _) Hlt). simpl. intros [= <- <-]. eauto.
Qed.
End clean_theorems.

(** ** Concrete runs *)

#[export] Instance mem_CleaningLaws : CleaningLaws MemStorage.t.
Proof.
  assert (∀ s p ks, List s p false = Ok ks →
    ks = remove_dups (child_of p <$> filter (λ k, HasPrefix k (p +:+ "/") = true)
                                      (map_to_list (MemStorage.ms_map s)).*1)) as HL.
  { intros s p ks. simpl. by destruct (filter _ _) as [|x l]; intros [= <-]. }
  split.
  - intros k s r s' [= _ <-]. simpl. apply map_filter_subseteq.
  - intros s p ks k ->%HL [v Hv] Hp. rewrite elem_of_remove_dups.
    apply list_elem_of_fmap_2, list_elem_of_filter. split; [done|].
    apply list_elem_of_fmap. exists (k, v). by rewrite elem_of_map_to_list.
  - intros s p ks k ->%HL Hin. rewrite elem_of_remove_dups in Hin.
    apply list_elem_of_fmap in Hin as (k' & -> & _). unfold child_of. eexists. split; [done|].
    apply IndexByte_take.
Qed.

Module SimClean.
(** The bits of the time, then the identifier. *)
Fixpoint enc_pos (p : positive) (rest : string) : string :=
  match p with
  | xH => String "." rest
  | xO p => String "0" (enc_pos p rest)
  | xI p => String "1" (enc_pos p rest)
  end.
Fixpoint dec_pos (s : string) : option (positive * string) :=
  match s with
  | String "." rest => Some (xH, rest)
  | String "0" s' => match dec_pos s' with Some (p, r) => Some (xO p, r) | None => None end
  | String "1" s' => match dec_pos s' with Some (p, r) => Some (xI p, r) | None => None end
  | _ => None
  end.

Lemma dec_enc_pos p rest : dec_pos (enc_pos p rest) = Some (p, rest).
Proof. induction p as [p IH|p IH|]; simpl; [by rewrite IH..|done]. Qed.

#[export] Instance sim_CleanCodec : CleanCodec := {
  json_MarshalLastClean x :=
    Ok match Timestamp x with
       | 0%Z => String "z" (lc_InstanceID x)
       | Zpos p => String "+" (enc_pos p (lc_InstanceID x))
       | Zneg p => String "-" (enc_pos p (lc_InstanceID x))
       end;
  json_UnmarshalLastClean b :=
    match b with
    | String "z" r => Ok (MkLastCleaned 0 r)
    | String "+" s =>
        match dec_pos s with Some (p, r) => Ok (MkLastCleaned (Zpos p) r) | None => Err (Errorf "json") end
    | String "-" s =>
        match dec_pos s with Some (p, r) => Ok (MkLastCleaned (Zneg p) r) | None => Err (Errorf "json") end
    | _ => Err (Errorf "json")
    end
}.

Lemma sim_lastclean_roundtrip x b :
  json_MarshalLastClean x = Ok b → json_UnmarshalLastClean b = Ok x.
Proof.
  destruct x as [[|p|p] id]; simpl; intros [= <-]; [done|..]; by rewrite dec_enc_pos.
Qed.

Definition store : MemStorage.t :=
  MemStorage.Mk (<[SiteCert "one" "a.com" := ex_pem 3]> (<[SitePrivateKey "one" "a.com" := "KEY"]>
    (<[SiteMeta "one" "a.com" := "{}"]> (<["ocsp/a.com-1" := "response"]> ∅)))) ∅ ∅.
Definition locks0 : LockState MemStorage.t := MkLockState [store] ∅.
Definition opts : CleanStorageOptions := MkCleanOptions "me" Hour true true (24 * Hour).
Definition never (_ : string) : bool := false.
Definition locked (w : LockState MemStorage.t) : LockState MemStorage.t :=
  snd (acquireLock 0 clean_lockName w).
Definition run (now : Time) (w : LockState MemStorage.t) : result unit * LockState MemStorage.t :=
  CleanStorage (N := SimNet.t) now never 0 opts w.
End SimClean.
Export (hints) SimClean.

Section clean_runs.
Import SimClean.

Lemma CleanStorage_keeps_witness :
  ∃ s', ls_storages (snd (run (20 * Hour) locks0)) !! 0%nat = Some s' ∧
    contents s' !! SitePrivateKey "one" "a.com" = Some "KEY" ∧
    contents s' !! "ocsp/a.com-1" = Some "response".
Proof.
  destruct (CleanStorage_keeps (N := SimNet.t) (20 * Hour) never 0 opts locks0
    (fst (run (20 * Hour) locks0)) (snd (run (20 * Hour) locks0)) (locked locks0)
    (default store (ls_storages (locked locks0) !! 0%nat))) as (s' & Hs' & Hk).
  - vm_compute. reflexivity.
  - vm_compute. reflexivity.
  - vm_compute. reflexivity.
  - exists s'. split; [exact Hs'|].
    split; rewrite Hk; [vm_compute; reflexivity| |vm_compute; reflexivity|].
    + left. exists "one", "a.com", (PlainCodec.ex_x509 3), AssetKey.
      split; [split; vm_compute; reflexivity|]. split; [vm_compute; reflexivity|].
      split; [vm_compute; reflexivity|cbn [asset_key]; reflexivity].
    + right. exists "a.com-1", "response", SimNet.good.
      split; [reflexivity|]. split; [reflexivity|]. split; [reflexivity|].
      split; [reflexivity|]. vm_compute. discriminate.
Defined.

Lemma deleteExpiredCerts_removes_witness :
  let s' := snd (deleteExpiredCerts (200 * 24 * Hour) never (24 * Hour) store) in
  contents s' !! SiteCert "one" "a.com" = None ∧
  contents s' !! SitePrivateKey "one" "a.com" = None ∧
  contents s' !! SiteMeta "one" "a.com" = None.
Proof.
  enough (∀ a, contents (snd (deleteExpiredCerts (200 * 24 * Hour) never (24 * Hour) store))
                 !! asset_key a "one" "a.com" = None) as H
    by exact (conj (H AssetCert) (conj (H AssetKey) (H AssetMeta))).
  apply (deleteExpiredCerts_removes (200 * 24 * Hour) never (24 * Hour) "one" "a.com" (ex_pem 3)
           (PlainCodec.ex_x509 3) store).
  - reflexivity.
  - reflexivity.
  - intros s p k [v Hv] Hp. simpl. destruct (filter _ _) as [|x l] eqn:E; [|reflexivity].
    assert (k ∈ ([] : list string)) as Hin; [|by apply elem_of_nil in Hin].
    rewrite <-E. apply list_elem_of_filter. split; [exact Hp|].
    apply list_elem_of_fmap. exists (k, v). by rewrite elem_of_map_to_list.
  - split; vm_compute; reflexivity.
  - reflexivity.
  - vm_compute. reflexivity.
  - vm_compute. reflexivity.
  - vm_compute. reflexivity.
Defined.

Lemma CleanStorage_interval_witness :
  let w' := snd (run (20 * Hour) locks0) in
  let '(r', v') := run (20 * Hour + Minute) w' in
  r' = Ok tt ∧ ∃ t', ls_storages v' !! 0%nat = Some t' ∧
    contents t' = contents (default store (ls_storages (locked w') !! 0%nat)).
Proof.
  intros w'. destruct (run (20 * Hour + Minute) w') as [r' v'] eqn:E.
  apply (CleanStorage_interval (N := SimNet.t) sim_lastclean_roundtrip
           (20 * Hour) (20 * Hour + Minute) never never 0 opts opts locks0 w' (locked locks0)
           (default store (ls_storages (locked locks0) !! 0%nat))
           (default store (ls_storages w' !! 0%nat)) w' (locked w') v' r').
  - reflexivity.
  - reflexivity.
  - vm_compute. reflexivity.
  - vm_compute. reflexivity.
  - vm_compute. reflexivity.
  - vm_compute. reflexivity.
  - vm_compute. reflexivity.
  - vm_compute. reflexivity.
  - vm_compute. reflexivity.
  - vm_compute. reflexivity.
  - exact E.
Defined.
End clean_runs.
