(* ===== verification/Config.v ===== *)
(** * Obtaining, renewing and revoking certificates (config.go)

    [Config] with the operations that talk to issuers under the lock of a
    name. The world of an operation is the storage back end, the lock table of
    the process and everything else outside the package, which is reached
    through the operations of the class [External]: issuers, the key source,
    the event handler, the clock, randomness. The world also records the calls
    made, so that theorems can speak about their order. *)

From S2P Require Import Prelude GoStrings Certificates Storage Crypto OCSP Async.
From Stdlib Require Import Ascii.
Import KeyBuilder.
Open Scope string_scope.

(** ** Data *)

(** An [Issuer] with the optional interfaces it implements; [iss_ACME_CA] is
    the CA field when the issuer is an ACME issuer. *)
Record Issuer := MkIssuer {
  iss_IssuerKey : string;
  iss_PreChecker : bool;
  iss_Revoker : bool;
  iss_ACME_CA : option string
}.

#[export] Instance Issuer_eq_dec : EqDecision Issuer.
Proof. solve_decision. Defined.

(** [ic_Metadata] is what [json.Marshal] makes of the metadata. *)
Record IssuedCertificate := MkIssued { ic_Certificate : bytes; ic_Metadata : result bytes }.

Inductive IssuerPolicy := UseFirstIssuer | UseFirstRandomIssuer.

(** What is read of a [tls.ClientHelloInfo]; [hello_LocalAddr] is the local
    address of the connection, if there is one. *)
Record ClientHelloInfo := MkHello {
  ServerName : string;
  hello_LocalAddr : option string;
  SupportedProtos : list string;
  SupportsCertificate : TLSCertificate → bool
}.

(** A [Manager] gives a certificate, none, or an error; a nil allowlist is the
    empty one. *)
Record OnDemandConfig := MkOnDemand {
  od_DecisionFunc : option (string → result unit);
  od_Managers : list (ClientHelloInfo → result (option TLSCertificate));
  od_hostAllowlist : gset string
}.

Record Config := MkConfig {
  cfg_renewal : RenewalConfig;
  cfg_OnEvent : bool;                    (* cfg.OnEvent != nil *)
  DefaultServerName : string;
  FallbackServerName : string;
  OnDemand : option OnDemandConfig;
  MustStaple : bool;
  Issuers : list Issuer;
  cfg_IssuerPolicy : IssuerPolicy;
  ReusePrivateKeys : bool;
  CertSelection : option (ClientHelloInfo → list Certificate → result Certificate);
  cfg_OCSP : OCSPConfig;
  DisableStorageCheck : bool;
  SubjectTransformer : option (string → string)
}.

Inductive event :=
| cert_obtaining (renewal : bool) (identifier : string)
| cert_failed (renewal : bool) (identifier : string) (issuers : list string) (err : error)
| cert_obtained (renewal : bool) (identifier issuer certKey : string)
| cached_cert (managed : bool) (sans : list string)
| cert_ocsp_revoked (subjects : list string) (reason : Z)
| tls_get_certificate (serverName : string).

(** The value of the context key [ctxKeyARIReplaces], if set. *)
Abbreviation ARIReplaces := (option (option X509)) (only parsing).

(** Calls that leave the package, as recorded by the world; a lock with whether
    it was acquired, a request to an issuer with its answer. *)
Inductive call :=
| CallLock (key : string) (acquired : bool)
| CallUnlock (key : string)
| CallEvent (e : event)
| CallPreCheck (issuer : string)
| CallIssue (issuer : string) (replaces : ARIReplaces) (csr : CertificateRequest)
    (answer : result IssuedCertificate)
| CallRevoke (issuer : string).

(** What is outside the package. The operations that run foreign code may
    change the storage too. An issuer learns from the context the number of
    failed attempts ([AttemptsCtxKey]) and the certificate that is replaced. *)
Class External (St E : Type) := {
  x_OnEvent : event → ST (St * E) (result unit);
  x_GenerateKey : ST (St * E) (result PrivateKey);
  (** [x509.CreateCertificateRequest] on a template, with the must-staple
      extension or not, parsed back *)
  x_CreateCSR : CertificateRequest → bool → PrivateKey → ST (St * E) (result CertificateRequest);
  x_PreCheck : Issuer → list string → bool → ST (St * E) (result unit);
  x_Issue : Issuer → nat → ARIReplaces → CertificateRequest → ST (St * E) (result IssuedCertificate);
  x_Revoke : Issuer → CertificateResource → Z → ST (St * E) (result unit);
  x_Shuffle : list Issuer → ST (St * E) (list Issuer);
  x_TestKey : ST (St * E) string;             (* rw_test_ and a random number *)
  x_RandRead : ST (St * E) (result bytes);
  x_Sleep : Duration → ST (St * E) bool;      (* false: the context is done first *)
  x_Now : E → Time;
  x_Int63n : E → Z → Z;
  x_ParseIP : string → option string;         (* the textual form of the parsed IP *)
  x_url_Parse : string → option string        (* the textual form of the parsed URL *)
}.

Record World (St E : Type) := MkWorld {
  w_storage : St;
  w_locks : gmap string nat;
  w_ext : E;
  w_trace : list call
}.
Arguments MkWorld {St E}.
Arguments w_storage {St E}.
Arguments w_locks {St E}.
Arguments w_ext {St E}.
Arguments w_trace {St E}.

Section config.
Context {St E : Type} `{C : !Codec} `{!Storage St} `{X : !External St E}.
Implicit Types w : World St E.

Definition on_storage {A} (m : ST St A) : ST (World St E) A := λ w,
  let '(r, s) := m (w_storage w) in
  (r, MkWorld s (w_locks w) (w_ext w) (w_trace w)).

Definition on_external {A} (m : ST (St * E) A) : ST (World St E) A := λ w,
  let '(r, (s, e)) := m (w_storage w, w_ext w) in
  (r, MkWorld s (w_locks w) e (w_trace w)).

Definition record (c : call) : ST (World St E) unit := λ w,
  (tt, MkWorld (w_storage w) (w_locks w) (w_ext w) (w_trace w ++ [c])%list).

(** The storage of the configuration is the back end 0 of the lock table. *)
Definition on_locks {A} (m : ST (LockState St) A) : ST (World St E) A := λ w,
  let '(r, ls) := m (MkLockState [w_storage w] (w_locks w)) in
  (r, MkWorld (default (w_storage w) (ls_storages ls !! 0%nat)) (ls_locks ls)
        (w_ext w) (w_trace w)).

(** ** Small methods *)

Definition certIssueLockOp : string := "issue_cert".
Definition lockKey (op domainName : string) : string := op +:+ "_" +:+ domainName.

Definition transformSubject (cfg : Config) (name : string) : string :=
  match SubjectTransformer cfg with None => name | Some f => f name end.

Definition emit (cfg : Config) (ev : event) : ST (World St E) (result unit) :=
  if negb (cfg_OnEvent cfg) then mret (Ok tt)
  else λ w, let '(_, w) := record (CallEvent ev) w in on_external (x_OnEvent ev) w.

Definition storageHasCertResources (s : St) (issuer : Issuer) (domain : string) : bool :=
  let issuerKey := iss_IssuerKey issuer in
  Exists s (SiteCert issuerKey domain) &&
  Exists s (SitePrivateKey issuerKey domain) &&
  Exists s (SiteMeta issuerKey domain).

Definition storageHasCertResourcesAnyIssuer (s : St) (cfg : Config) (name : string) : bool :=
  existsb (λ iss, storageHasCertResources s iss name) (Issuers cfg).

Definition deleteSiteAssets (issuerKey domain : string) : ST St (result unit) := λ s,
  match Delete (SiteCert issuerKey domain) s with
  | (Err _, s) => (Err (Errorf "deleting certificate file"), s)
  | (Ok _, s) =>
      match Delete (SitePrivateKey issuerKey domain) s with
      | (Err _, s) => (Err (Errorf "deleting private key"), s)
      | (Ok _, s) =>
          match Delete (SiteMeta issuerKey domain) s with
          | (Err _, s) => (Err (Errorf "deleting metadata file"), s)
          | (Ok _, s) =>
              match Delete (CertsSitePrefix issuerKey domain) s with
              | (Err _, s) => (Err (Errorf "deleting site asset folder"), s)
              | (Ok _, s) => (Ok tt, s)
              end
          end
      end
  end.

(** The deferred [Delete] runs after the value to return is fixed: [err] is
    not a named result. *)
Definition checkStorage (cfg : Config) : ST (World St E) (result unit) :=
  if DisableStorageCheck cfg then mret (Ok tt)
  else λ w,
    let '(key, w) := on_external x_TestKey w in
    let '(r, w) := on_external x_RandRead w in
    match r with
    | Err e => (Err e, w)
    | Ok contents =>
        let '(st, w) := on_storage (Store key contents) w in
        match st with
        | Err e => (Err e, w)
        | Ok _ =>
            let res :=
              match Load (w_storage w) key with
              | Err e => Err e
              | Ok loaded =>
                  if negb (contents =? loaded)
                  then Err (Errorf "load yielded different value than was stored")
                  else Ok tt
              end in
            let '(_, w) := on_storage (Delete key) w in
            (res, w)
        end
    end.

(** Time left, leaf, and whether to renew; [None] is the panic of
    [certNeedsRenewal]. *)
Definition managedCertNeedsRenewal (cfg : Config) (e : E) (certRes : CertificateResource) :
    option (Duration * option X509 * bool) :=
  match parseCertsFromPEMBundle (CertificatePEM certRes) with
  | Err _ | Ok [] => Some (0%Z, None, true)
  | Ok (leaf :: _) =>
      let ari :=
        if negb (DisableARI (cfg_renewal cfg)) then
          match getARI certRes with Ok (Some ari) => ari | _ => zeroRenewalInfo end
        else zeroRenewalInfo in
      let remaining := time_Until (x_Now e) (expiresAt (Some leaf)) in
      match certNeedsRenewal (cfg_renewal cfg) (x_Int63n e) (x_Now e) (Some leaf) ari with
      | None => None
      | Some needs => Some (remaining, Some leaf, needs)
      end
  end.

(** ** Certificate requests *)

Definition add_san (useCN : bool) (t : CertificateRequest) (name : string) :
    CertificateRequest :=
  if useCN && (csr_CommonName t =? "") && (String.length name <=? 64)%nat then
    MkCSR name (csr_DNSNames t) (csr_EmailAddresses t) (csr_IPAddresses t) (csr_URIs t)
  else
    match x_ParseIP name with
    | Some ip => MkCSR (csr_CommonName t) (csr_DNSNames t) (csr_EmailAddresses t)
                   (csr_IPAddresses t ++ [ip])%list (csr_URIs t)
    | None =>
        if Contains name "@" then
          MkCSR (csr_CommonName t) (csr_DNSNames t) (csr_EmailAddresses t ++ [name])%list
            (csr_IPAddresses t) (csr_URIs t)
        else
          match x_url_Parse name, Contains name "/" with
          | Some u, true =>
              MkCSR (csr_CommonName t) (csr_DNSNames t) (csr_EmailAddresses t)
                (csr_IPAddresses t) (csr_URIs t ++ [u])%list
          | _, _ =>
              MkCSR (csr_CommonName t) (csr_DNSNames t ++ [name])%list (csr_EmailAddresses t)
                (csr_IPAddresses t) (csr_URIs t)
          end
    end.

Fixpoint csr_template (useCN : bool) (sans : list string) (t : CertificateRequest) :
    result CertificateRequest :=
  match sans with
  | [] => Ok t
  | name :: rest =>
      match idna_ToASCII name with
      | Err _ => Err (Errorf "converting identifier to ASCII")
      | Ok normalizedName => csr_template useCN rest (add_san useCN t normalizedName)
      end
  end.

Definition generateCSR (cfg : Config) (privateKey : PrivateKey) (sans : list string)
    (useCN : bool) : ST (World St E) (result CertificateRequest) :=
  match csr_template useCN sans (MkCSR "" [] [] [] []) with
  | Err e => mret (Err e)
  | Ok t => on_external (x_CreateCSR t (MustStaple cfg) privateKey)
  end.

(** ** Retries *)

(** [doWithRetry] (async.go) over the world: [x_Sleep] is the timer or the
    cancelled context. The fuel bounds the number of attempts; when it is used
    up the loop ends as it does when its condition fails. A panic of an attempt
    unwinds. *)
Fixpoint retry_world (fuel : nat) (f : nat → ST (World St E) (result unit)) (start : Time)
    (attempts : nat) (intervalIndex : Z) (err : result unit) : ST (World St E) (result unit) :=
  match fuel with
  | O => mret err
  | S fuel' => λ w,
      if negb (time_Since (x_Now (w_ext w)) start <? Retry.maxRetryDuration)%Z then (err, w)
      else
        let wait := if (0 <=? intervalIndex)%Z
                    then default 0%Z (Retry.retryIntervals !! Z.to_nat intervalIndex)
                    else 0%Z in
        let '(fired, w) := on_external (x_Sleep wait) w in
        if negb fired then (Err Canceled, w)
        else
          let '(r, w) := f attempts w in
          match r with
          | Ok _ => (r, w)
          | Err e =>
              if errors_Is e Canceled || errors_As_ErrNoRetry e || is_panic e then (r, w)
              else
                let intervalIndex :=
                  if (intervalIndex <? Z.of_nat (length Retry.retryIntervals) - 1)%Z
                  then (intervalIndex + 1)%Z else intervalIndex in
                if (time_Since (x_Now (w_ext w)) start <? Retry.maxRetryDuration)%Z
                then retry_world fuel' f start (S attempts) intervalIndex r w
                else (Ok tt, w)
          end
  end.

Definition doWithRetry_world (f : nat → ST (World St E) (result unit)) : ST (World St E) (result unit) :=
  λ w, retry_world (S Retry.max_attempts) f (x_Now (w_ext w)) 0 (-1) (Ok tt) w.

(** Run [body] under the lock of [name]; the lock is released when it is done,
    and a failure to release it is only logged. *)
Definition with_name_lock (name : string) (body : ST (World St E) (result unit)) :
    ST (World St E) (result unit) := λ w,
  let key := lockKey certIssueLockOp name in
  let '(r, w) := on_locks (acquireLock 0 key) w in
  let '(_, w) := record (CallLock key (is_Ok r)) w in
  match r with
  | Err _ => (Err (Errorf "unable to acquire lock"), w)
  | Ok _ =>
      let '(res, w) := body w in
      let '(_, w) := record (CallUnlock key) w in
      let '(_, w) := on_locks (releaseLock 0 key) w in
      (res, w)
  end.

(** ** Obtaining *)

(** The loop of [reusePrivateKey] from position [i]: the decoded key with its
    PEM form, if one is found, and the issuers in the order to try them. *)
Fixpoint reuse_loop (s : St) (domain : string) (issuers : list Issuer) (i : nat)
    (todo : list Issuer) : result (option (PrivateKey * bytes) * list Issuer) :=
  match todo with
  | [] => Ok (None, issuers)
  | issuer :: rest =>
      match Load s (SitePrivateKey (iss_IssuerKey issuer) domain) with
      | Err err =>
          if errors_Is err ErrNotExist then reuse_loop s domain issuers (S i) rest
          else Err (Errorf "loading existing private key for reuse with issuer")
      | Ok privKeyPEM =>
          match PEMDecodePrivateKey privKeyPEM with
          | Err e => Err e
          | Ok privKey =>
              Ok (Some (privKey, privKeyPEM),
                  (issuer :: take i issuers ++ drop (S i) issuers)%list)
          end
      end
  end.

Definition reusePrivateKey (s : St) (cfg : Config) (domain : string) :
    result (option (PrivateKey * bytes) * list Issuer) :=
  reuse_loop s domain (Issuers cfg) 0 (Issuers cfg).

(** How the loop over the issuers ends: a certificate, the last error, or an
    error or a panic that ends the operation at once. *)
Inductive issue_outcome :=
| Issued (issuer : Issuer) (cert : IssuedCertificate)
| NotIssued (err : option error)
| IssueAborted (err : error).

Definition zerosslIssuerKey : string := "zerossl".

(** The request to send to [issuer]. *)
Definition csr_for (cfg : Config) (privKey : PrivateKey) (name : string)
    (csr : CertificateRequest) (issuer : Issuer) : ST (World St E) (result CertificateRequest) :=
  if iss_IssuerKey issuer =? zerosslIssuerKey then generateCSR cfg privKey [name] true
  else mret (Ok csr).

Definition preCheck (issuer : Issuer) (name : string) (interactive : bool) :
    ST (World St E) (result unit) :=
  if iss_PreChecker issuer then λ w,
    let '(_, w) := record (CallPreCheck (iss_IssuerKey issuer)) w in
    on_external (x_PreCheck issuer [name] interactive) w
  else mret (Ok tt).

Definition issue (issuer : Issuer) (attempts : nat) (replaces : ARIReplaces) (csr : CertificateRequest) :
    ST (World St E) (result IssuedCertificate) := λ w,
  let '(r, w) := on_external (x_Issue issuer attempts replaces csr) w in
  let '(_, w) := record (CallIssue (iss_IssuerKey issuer) replaces csr r) w in
  (r, w).

Fixpoint obtain_loop (cfg : Config) (privKey : PrivateKey) (name : string)
    (csr : CertificateRequest) (interactive : bool) (attempts : nat) (issuers : list Issuer)
    (err : option error) : ST (World St E) issue_outcome :=
  match issuers with
  | [] => mret (NotIssued err)
  | issuer :: rest => λ w,
      match preCheck issuer name interactive w with
      | (Err e, w) =>
          if is_panic e then (IssueAborted e, w)
          else obtain_loop cfg privKey name csr interactive attempts rest (Some e) w
      | (Ok _, w) =>
          match csr_for cfg privKey name csr issuer w with
          | (Err e, w) => (IssueAborted e, w)
          | (Ok useCSR, w) =>
              match issue issuer attempts None useCSR w with
              | (Ok cert, w) => (Issued issuer cert, w)
              | (Err e, w) =>
                  if is_panic e then (IssueAborted e, w)
                  else obtain_loop cfg privKey name csr interactive attempts rest (Some e) w
              end
          end
      end
  end.

(** What follows the loop, in both operations: report the failure, or save the
    resource under the issuer that was used and report success. *)
Definition finish (cfg : Config) (renewal : bool) (name : string) (csr : CertificateRequest)
    (privKeyPEM : bytes) (issuerKeys : list string) (out : issue_outcome) :
    ST (World St E) (result unit) :=
  match out with
  | IssueAborted e => mret (Err e)
  | NotIssued None => mret (Err (Panic "nil pointer dereference"))
  | NotIssued (Some e) => λ w,
      let '(_, w) := emit cfg (cert_failed renewal name issuerKeys e) w in
      (Err (Wrapf (if renewal then "Renew" else "Obtain") e), w)
  | Issued issuerUsed issuedCert => λ w,
      let metaJSON := match ic_Metadata issuedCert with Ok b => b | Err _ => "" end in
      let certRes := MkCertificateResource (namesFromCSR csr) (ic_Certificate issuedCert)
                       privKeyPEM metaJSON (iss_IssuerKey issuerUsed) in
      match on_storage (saveCertResource (iss_IssuerKey issuerUsed) certRes) w with
      | (Err _, w) => (Err (Errorf "saving assets"), w)
      | (Ok _, w) =>
          let '(_, w) := emit cfg (cert_obtained renewal name (iss_IssuerKey issuerUsed)
                                     (NamesKey (SANs certRes))) w in
          (Ok tt, w)
      end
  end.

(** The keys of the issuers tried, for the event of a failure: all of them
    when the loop ends without a certificate. *)
Definition tried (issuers : list Issuer) : list string := iss_IssuerKey <$> issuers.

(** The key for the request, the PEM form to store, and the issuers to try. *)
Definition obtain_key (cfg : Config) (name : string) :
    ST (World St E) (result (PrivateKey * bytes * list Issuer)) := λ w,
  match (if ReusePrivateKeys cfg then reusePrivateKey (w_storage w) cfg name
         else Ok (None, Issuers cfg)) with
  | Err e => (Err e, w)
  | Ok (found, issuers) =>
      let '(issuers, w) :=
        match cfg_IssuerPolicy cfg with
        | UseFirstRandomIssuer => on_external (x_Shuffle issuers) w
        | UseFirstIssuer => (issuers, w)
        end in
      match found with
      | Some (privKey, privKeyPEM) => (Ok (privKey, privKeyPEM, issuers), w)
      | None =>
          match on_external x_GenerateKey w with
          | (Err e, w) => (Err e, w)
          | (Ok privKey, w) =>
              match PEMEncodePrivateKey privKey with
              | Err e => (Err e, w)
              | Ok privKeyPEM => (Ok (privKey, privKeyPEM, issuers), w)
              end
          end
      end
  end.

(** The function [f] of [obtainCert]. *)
Definition obtain_new (cfg : Config) (name : string) (interactive : bool) (attempts : nat) :
    ST (World St E) (result unit) := λ w,
  match emit cfg (cert_obtaining false name) w with
  | (Err e, w) => (Err (Wrapf "obtaining certificate aborted by event handler" e), w)
  | (Ok _, w) =>
      match obtain_key cfg name w with
      | (Err e, w) => (Err e, w)
      | (Ok (privKey, privKeyPEM, issuers), w) =>
          match generateCSR cfg privKey [name] false w with
          | (Err e, w) => (Err e, w)
          | (Ok csr, w) =>
              let '(out, w) := obtain_loop cfg privKey name csr interactive attempts issuers None w in
              finish cfg false name csr privKeyPEM (tried issuers) out w
          end
      end
  end.

(** Under the lock the storage is checked again: another instance may have been
    faster. *)
Definition obtain_body (cfg : Config) (name : string) (interactive : bool) (attempts : nat) :
    ST (World St E) (result unit) := λ w,
  if storageHasCertResourcesAnyIssuer (w_storage w) cfg name then (Ok tt, w)
  else obtain_new cfg name interactive attempts w.

Definition obtainCert (cfg : Config) (name : string) (interactive : bool) :
    ST (World St E) (result unit) := λ w,
  match Issuers cfg with
  | [] => (Err (Errorf "no issuers configured"), w)
  | _ =>
      let name := transformSubject cfg name in
      if storageHasCertResourcesAnyIssuer (w_storage w) cfg name then (Ok tt, w)
      else
        match checkStorage cfg w with
        | (Err _, w) => (Err (Errorf "failed storage check"), w)
        | (Ok _, w) =>
            with_name_lock name
              (if interactive then obtain_body cfg name interactive 0
               else doWithRetry_world (obtain_body cfg name interactive)) w
        end
  end.

Definition ObtainCertSync (cfg : Config) (name : string) := obtainCert cfg name true.
Definition ObtainCertAsync (cfg : Config) (name : string) := obtainCert cfg name false.

(** ** Renewing *)

(** The context for an issuer: the certificate is announced as replaced when
    the issuer uses the CA it came from. The value stays set for the issuers
    that follow. *)
Definition renew_context (cfg : Config) (certRes : CertificateResource) (leaf : option X509)
    (issuer : Issuer) (ctx : ARIReplaces) : ARIReplaces :=
  if negb (DisableARI (cfg_renewal cfg)) then
    match getACMEData certRes with
    | Ok acmeData =>
        if negb (acme_CA acmeData =? "") then
          match iss_ACME_CA issuer with
          | Some ca => if ca =? acme_CA acmeData then Some leaf else ctx
          | None => ctx
          end
        else ctx
    | Err _ => ctx
    end
  else ctx.

Fixpoint renew_loop (cfg : Config) (certRes : CertificateResource) (leaf : option X509)
    (privKey : PrivateKey) (name : string) (csr : CertificateRequest) (interactive : bool) (attempts : nat)
    (issuers : list Issuer) (ctx : ARIReplaces) (err : option error) :
    ST (World St E) issue_outcome :=
  match issuers with
  | [] => mret (NotIssued err)
  | issuer :: rest => λ w,
      match csr_for cfg privKey name csr issuer w with
      | (Err e, w) => (IssueAborted e, w)
      | (Ok useCSR, w) =>
          match preCheck issuer name interactive w with
          | (Err e, w) =>
              if is_panic e then (IssueAborted e, w)
              else renew_loop cfg certRes leaf privKey name csr interactive attempts rest ctx (Some e) w
          | (Ok _, w) =>
              let ctx := renew_context cfg certRes leaf issuer ctx in
              match issue issuer attempts ctx useCSR w with
              | (Ok cert, w) => (Issued issuer cert, w)
              | (Err e, w) =>
                  if is_panic e then (IssueAborted e, w)
                  else renew_loop cfg certRes leaf privKey name csr interactive attempts rest ctx (Some e) w
              end
          end
      end
  end.

(** The key for the request and the PEM form to store with the new
    certificate. *)
Definition renew_key (cfg : Config) (certRes : CertificateResource) :
    ST (World St E) (result (PrivateKey * bytes)) := λ w,
  if ReusePrivateKeys cfg then
    match PEMDecodePrivateKey (PrivateKeyPEM certRes) with
    | Err e => (Err e, w)
    | Ok privateKey => (Ok (privateKey, PrivateKeyPEM certRes), w)
    end
  else
    match on_external x_GenerateKey w with
    | (Err e, w) => (Err e, w)
    | (Ok privateKey, w) =>
        match PEMEncodePrivateKey privateKey with
        | Err e => (Err e, w)
        | Ok pem => (Ok (privateKey, pem), w)
        end
    end.

(** The part of the function [f] of [renewCert] after the decision to renew. *)
Definition renew_new (cfg : Config) (name : string) (certRes : CertificateResource) (leaf : option X509)
    (interactive : bool) (attempts : nat) : ST (World St E) (result unit) := λ w,
  match emit cfg (cert_obtaining true name) w with
  | (Err e, w) => (Err (Wrapf "renewing certificate aborted by event handler" e), w)
  | (Ok _, w) =>
      match renew_key cfg certRes w with
      | (Err e, w) => (Err e, w)
      | (Ok (privateKey, privKeyPEM), w) =>
          match generateCSR cfg privateKey [name] false w with
          | (Err e, w) => (Err e, w)
          | (Ok csr, w) =>
              let '(out, w) := renew_loop cfg certRes leaf privateKey name csr
                                 interactive attempts (Issuers cfg) None None w in
              finish cfg true name csr privKeyPEM (tried (Issuers cfg)) out w
          end
      end
  end.

(** The function [f] of [renewCert]. *)
Definition renew_body (cfg : Config) (name : string) (force interactive : bool) (attempts : nat) :
    ST (World St E) (result unit) := λ w,
  match loadCertResourceAnyIssuer (w_storage w) (iss_IssuerKey <$> Issuers cfg) name with
  | Err e => (Err e, w)
  | Ok certRes =>
      match managedCertNeedsRenewal cfg (w_ext w) certRes with
      | None => (Err (Panic "invalid argument to Int63n"), w)
      | Some (timeLeft, leaf, needsRenew) =>
          if negb needsRenew && negb force then (Ok tt, w)
          else renew_new cfg name certRes leaf interactive attempts w
      end
  end.

Definition renewCert (cfg : Config) (name : string) (force interactive : bool) :
    ST (World St E) (result unit) := λ w,
  match Issuers cfg with
  | [] => (Err (Errorf "no issuers configured"), w)
  | _ =>
      let name := transformSubject cfg name in
      match checkStorage cfg w with
      | (Err _, w) => (Err (Errorf "failed storage check"), w)
      | (Ok _, w) =>
          with_name_lock name
            (if interactive then renew_body cfg name force interactive 0
             else doWithRetry_world (renew_body cfg name force interactive)) w
      end
  end.

Definition RenewCertSync (cfg : Config) (name : string) (force : bool) :=
  renewCert cfg name force true.
Definition RenewCertAsync (cfg : Config) (name : string) (force : bool) :=
  renewCert cfg name force false.

(** ** Revoking *)

Fixpoint revoke_loop (issuers : list Issuer) (domain : string) (reason : Z) :
    ST (World St E) (result unit) :=
  match issuers with
  | [] => mret (Ok tt)
  | issuer :: rest => λ w,
      let issuerKey := iss_IssuerKey issuer in
      if negb (iss_Revoker issuer) then (Err (Errorf "issuer is not a Revoker"), w)
      else
        match loadCertResource (w_storage w) issuerKey domain with
        | Err e => (Err e, w)
        | Ok certRes =>
            if negb (Exists (w_storage w) (SitePrivateKey issuerKey domain))
            then (Err (Errorf "private key not found"), w)
            else
              let '(_, w) := record (CallRevoke issuerKey) w in
              match on_external (x_Revoke issuer certRes reason) w with
              | (Err _, w) => (Err (Errorf "issuer"), w)
              | (Ok _, w) =>
                  match on_storage (deleteSiteAssets issuerKey domain) w with
                  | (Err _, w) =>
                      (Err (Errorf "certificate revoked, but unable to clean up assets"), w)
                  | (Ok _, w) => revoke_loop rest domain reason w
                  end
              end
        end
  end.

Definition RevokeCert (cfg : Config) (domain : string) (reason : Z) :
    ST (World St E) (result unit) := revoke_loop (Issuers cfg) domain reason.
End config.

(** ** A simulated outside

    Issuers listed in [sim_down] fail; the others sign with a certificate whose
    validity starts at the number of keys made so far. Contexts are done after 90 seconds
    of waiting. Used to run the operations on
    concrete inputs. *)
Module SimExternal.
Record t := Mk { sim_now : Time; sim_down : list string; sim_keys : nat }.

Definition serial (n : nat) : string := String.concat "" (replicate n "k").

#[export] Instance sim_External : External MemStorage.t t := {
  x_OnEvent _ := mret (Ok tt);
  x_GenerateKey := λ '(s, e),
    (Ok (EcdsaKey (serial (sim_keys e))), (s, Mk (sim_now e) (sim_down e) (S (sim_keys e))));
  x_CreateCSR csr _ _ := mret (Ok csr);
  x_PreCheck _ _ _ := mret (Ok tt);
  x_Issue issuer _ _ _ := λ '(s, e),
    if decide (iss_IssuerKey issuer ∈ sim_down e) then (Err (Errorf "issuer is down"), (s, e))
    else (Ok (MkIssued (ex_pem (4 + sim_keys e))
                (Ok ("CA=" +:+ default "" (iss_ACME_CA issuer)))), (s, e));
  x_Revoke _ _ _ := mret (Ok tt);
  x_Shuffle l := mret l;
  x_TestKey := mret "rw_test_7";
  x_RandRead := mret (Ok "random");
  x_Sleep d := λ '(s, e),
    ((d <? 90 * Second)%Z, (s, Mk (sim_now e + d) (sim_down e) (sim_keys e)));
  x_Now := sim_now;
  x_Int63n _ n := (n / 2)%Z;
  x_ParseIP _ := None;
  x_url_Parse _ := None
}.

Definition world (down : list string) : World MemStorage.t t :=
  MkWorld MemStorage.empty ∅ (Mk (5 * Second) down 0) [].

Definition ca (key url : string) : Issuer := MkIssuer key true true (Some url).
Definition config (issuers : list Issuer) : Config :=
  MkConfig ex_renewal_cfg true "" "" None false issuers UseFirstIssuer false None
    (MkOCSPConfig false ∅) false None.
End SimExternal.
Export (hints) SimExternal.

(** ** Theorems *)

(** What the theorems assume of the outside: event handlers leave the storage
    alone, a certificate request carries the names of its template, and a
    shuffle only reorders. *)
Class ExternalLaws (St E : Type) `{X : !External St E} := {
  x_OnEvent_storage ev s e : fst (snd (x_OnEvent ev (s, e))) = s;
  x_CreateCSR_names t ms key se csr se' :
    x_CreateCSR t ms key se = (Ok csr, se') → csr = t;
  x_Shuffle_perm l se : fst (x_Shuffle l se) ≡ₚ l
}.

#[export] Instance sim_ExternalLaws : ExternalLaws MemStorage.t SimExternal.t.
Proof.
  split; [done| |done].
  intros t ms key se csr se' H. simpl in H. by injection H as -> _.
Qed.

(** A revocation leaves the assets of sites alone; an issuer may still save an
    account on the way. *)
Class RevokeLaws (St E : Type) `{X : !External St E} `{!Storage St} `{!StorageLaws St} := {
  x_Revoke_sites iss res reason s e ik d k :
    under (CertsSitePrefix ik d) k = true →
    contents (fst (snd (x_Revoke iss res reason (s, e)))) !! k = contents s !! k
}.
#[export] Instance sim_RevokeLaws : RevokeLaws MemStorage.t SimExternal.t.
Proof. by split. Qed.

(** Calls other than those of the locker. *)
Definition inner (c : call) : bool :=
  match c with CallLock _ _ | CallUnlock _ => false | _ => true end.

(** The issuers that were asked for a certificate. *)
Definition issue_call (c : call) : option string :=
  match c with CallIssue k _ _ _ => Some k | _ => None end.
Definition asked (t : list call) : list string := omap issue_call t.

(** The certificates that issuers gave. *)
Definition issued_call (c : call) : option (string * IssuedCertificate) :=
  match c with CallIssue k _ _ (Ok cert) => Some (k, cert) | _ => None end.
Definition issued (t : list call) : list (string * IssuedCertificate) := omap issued_call t.

Section theorems.
Context {St E : Type} `{C : !Codec} `{!Storage St} `{X : !External St E}.
Implicit Types w : World St E.

(** From [w] to [w'] the lock table is unchanged and the trace is extended by
    calls that satisfy [P]. *)
Definition steps (P : list call → Prop) w w' : Prop :=
  w_locks w' = w_locks w ∧ ∃ t, w_trace w' = (w_trace w ++ t)%list ∧ P t.

Definition inner_only (t : list call) : Prop := Forall (λ c, inner c = true) t.
(** Inner calls that ask exactly the issuers [ks], in this order, and get the
    certificates [cs]. *)
Definition asks (ks : list string) (cs : list (string * IssuedCertificate)) (t : list call) : Prop :=
  inner_only t ∧ asked t = ks ∧ issued t = cs.
(** Inner calls, none of which asks an issuer. *)
Definition no_issue : list call → Prop := asks [] [].

Lemma asks_app ks ks' cs cs' t t' :
  asks ks cs t → asks ks' cs' t' → asks (ks ++ ks') (cs ++ cs') (t ++ t')%list.
Proof.
  intros (? & E1 & F1) (? & E2 & F2). split; [by apply Forall_app|].
  unfold asked, issued in *. by rewrite !omap_app, E1, E2, F1, F2.
Qed.

Lemma no_issue_nil : no_issue [].
Proof. split; [constructor|done]. Qed.
Lemma no_issue_app t t' : no_issue t → no_issue t' → no_issue (t ++ t')%list.
Proof. apply asks_app. Qed.

Lemma steps_refl P w : P [] → steps P w w.
Proof. intros HP. split; [done|]. exists []. by rewrite app_nil_r. Qed.

Lemma steps_weaken (P Q : list call → Prop) w w' :
  (∀ t, P t → Q t) → steps P w w' → steps Q w w'.
Proof. intros HPQ (? & t & ? & ?). split; [done|]. exists t. auto. Qed.

Lemma steps_quiet_r P w w1 w2 :
  (∀ t t', P t → no_issue t' → P (t ++ t')%list) →
  steps P w w1 → steps no_issue w1 w2 → steps P w w2.
Proof.
  intros Happ (L1 & t1 & T1 & P1) (L2 & t2 & T2 & P2). split; [congruence|].
  exists (t1 ++ t2)%list. rewrite T2, T1, app_assoc. auto.
Qed.

Lemma steps_quiet_l P w w1 w2 :
  (∀ t t', no_issue t → P t' → P (t ++ t')%list) →
  steps no_issue w w1 → steps P w1 w2 → steps P w w2.
Proof.
  intros Happ (L1 & t1 & T1 & P1) (L2 & t2 & T2 & P2). split; [congruence|].
  exists (t1 ++ t2)%list. rewrite T2, T1, app_assoc. auto.
Qed.

Lemma steps_trans w w1 w2 :
  steps no_issue w w1 → steps no_issue w1 w2 → steps no_issue w w2.
Proof. apply steps_quiet_l, no_issue_app. Qed.

Lemma on_storage_steps {A} (m : ST St A) w r w' :
  on_storage m w = (r, w') → steps no_issue w w'.
Proof.
  unfold on_storage. destruct (m (w_storage w)) as [a s]. intros [= <- <-].
  split; [done|]. exists []. rewrite app_nil_r. split; [done|apply no_issue_nil].
Qed.

Lemma on_external_steps {A} (m : ST (St * E) A) w r w' :
  on_external m w = (r, w') → steps no_issue w w'.
Proof.
  unfold on_external. destruct (m _) as [a [s e]]. intros [= <- <-].
  split; [done|]. exists []. rewrite app_nil_r. split; [done|apply no_issue_nil].
Qed.

Lemma record_steps P c w r w' : P [c] → record c w = (r, w') → steps P w w'.
Proof. intros HP [= <- <-]. split; [done|]. by exists [c]. Qed.

Lemma emit_steps cfg ev w r w' : emit cfg ev w = (r, w') → steps no_issue w w'.
Proof.
  unfold emit. destruct (negb _).
  - intros [= <- <-]. apply steps_refl, no_issue_nil.
  - destruct (record _ w) as [? w1] eqn:E1. intros E2%on_external_steps.
    apply (record_steps no_issue) in E1; [by eapply steps_trans|]. by repeat constructor.
Qed.

Lemma generateCSR_steps cfg key sans useCN w r w' :
  generateCSR cfg key sans useCN w = (r, w') → steps no_issue w w'.
Proof.
  unfold generateCSR. destruct (csr_template _ _ _).
  - apply on_external_steps.
  - intros [= <- <-]. apply steps_refl, no_issue_nil.
Qed.

Lemma csr_for_steps cfg key name csr issuer w r w' :
  csr_for cfg key name csr issuer w = (r, w') → steps no_issue w w'.
Proof.
  unfold csr_for. destruct (_ =? _); [apply generateCSR_steps|].
  intros [= <- <-]. apply steps_refl, no_issue_nil.
Qed.

Lemma preCheck_steps issuer name b w r w' :
  preCheck issuer name b w = (r, w') → steps no_issue w w'.
Proof.
  unfold preCheck. destruct (iss_PreChecker issuer).
  - destruct (record _ w) as [? w1] eqn:E1. intros E2%on_external_steps.
    apply (record_steps no_issue) in E1; [by eapply steps_trans|]. by repeat constructor.
  - intros [= <- <-]. apply steps_refl, no_issue_nil.
Qed.

Lemma asks_trans ks ks' cs cs' w w1 w2 :
  steps (asks ks cs) w w1 → steps (asks ks' cs') w1 w2 → steps (asks (ks ++ ks') (cs ++ cs')) w w2.
Proof.
  intros (L1 & t1 & T1 & P1) (L2 & t2 & T2 & P2). split; [congruence|].
  exists (t1 ++ t2)%list. rewrite T2, T1, app_assoc. split; [done|]. by apply asks_app.
Qed.
Lemma asks_quiet_l ks cs w w1 w2 : steps no_issue w w1 → steps (asks ks cs) w1 w2 → steps (asks ks cs) w w2.
Proof. apply (asks_trans [] ks [] cs). Qed.

(** The certificates of an answer. *)
Definition answered (k : string) (r : result IssuedCertificate) : list (string * IssuedCertificate) :=
  match r with Ok cert => [(k, cert)] | Err _ => [] end.

Lemma issue_steps issuer n replaces csr w r w' :
  issue issuer n replaces csr w = (r, w') →
  steps (asks [iss_IssuerKey issuer] (answered (iss_IssuerKey issuer) r)) w w'.
Proof.
  unfold issue. destruct (on_external _ w) as [r1 w1] eqn:E1. apply on_external_steps in E1. intros [= <- <-].
  eapply asks_quiet_l; [exact E1|]. eapply record_steps; [|done]. split; [by repeat constructor|]. by destruct r1.
Qed.

(** The issuers asked by a loop over [issuers]: in order, each at most once,
    and the one that issued is the last, with the only certificate. *)
Definition given (out : issue_outcome) : list (string * IssuedCertificate) :=
  match out with Issued iss cert => [(iss_IssuerKey iss, cert)] | _ => [] end.
Definition asked_in_order (issuers : list Issuer) (out : issue_outcome) w w' : Prop :=
  ∃ sel : list Issuer, sel `sublist_of` issuers ∧
    steps (asks (iss_IssuerKey <$> sel) (given out)) w w' ∧
    match out with
    | Issued iss _ => last sel = Some iss
    | _ => True
    end.

Lemma asked_in_order_skip iss issuers out w w1 w' :
  steps no_issue w w1 → asked_in_order issuers out w1 w' →
  asked_in_order (iss :: issuers) out w w'.
Proof.
  intros S1 (sel & Hsub & S2 & Hout). exists sel. split; [by constructor|]. split; [|done].
  by eapply asks_quiet_l.
Qed.

Lemma asked_in_order_ask iss issuers out w w1 w' :
  steps (asks [iss_IssuerKey iss] []) w w1 → asked_in_order issuers out w1 w' →
  asked_in_order (iss :: issuers) out w w'.
Proof.
  intros S1 (sel & Hsub & S2 & Hout). exists (iss :: sel).
  split; [by constructor|]. split; [by apply (asks_trans [_] _ [] _ _ _ _ S1)|].
  destruct out; [|done|done]. rewrite last_cons, Hout. done.
Qed.

Lemma asked_in_order_stop iss issuers out w w' :
  steps (asks [iss_IssuerKey iss] (given out)) w w' →
  match out with Issued i _ => i = iss | _ => True end → asked_in_order (iss :: issuers) out w w'.
Proof.
  intros S1 Ho. exists [iss]. split; [apply sublist_skip, sublist_nil_l|]. split; [done|]. by destruct out; subst.
Qed.

Lemma asked_in_order_none iss issuers out w w' :
  steps no_issue w w' → match out with Issued _ _ => False | _ => True end →
  asked_in_order (iss :: issuers) out w w'.
Proof.
  intros S1 Hout. exists []. split; [apply sublist_nil_l|]. split; [by destruct out|by destruct out].
Qed.

Lemma asked_in_order_quiet issuers out w w1 w' :
  steps no_issue w w1 → asked_in_order issuers out w1 w' → asked_in_order issuers out w w'.
Proof.
  intros S1 (sel & Hsub & S2 & Hout). exists sel. split; [done|]. split; [|done].
  by eapply asks_quiet_l.
Qed.

Lemma obtain_loop_order cfg key name csr b n issuers err w out w' :
  obtain_loop cfg key name csr b n issuers err w = (out, w') → asked_in_order issuers out w w'.
Proof.
  revert err w. induction issuers as [|iss issuers IH]; intros err w H; simpl in H.
  - injection H as <- <-. exists []. split; [done|]. split; [|done].
    apply steps_refl, no_issue_nil.
  - destruct (preCheck iss name b w) as [[[]|e] w1] eqn:E1; apply preCheck_steps in E1.
    2: { destruct (is_panic e); [injection H as <- <-; by apply asked_in_order_none|].
         by eapply asked_in_order_skip, IH. }
    destruct (csr_for cfg key name csr iss w1) as [[useCSR|e] w2] eqn:E2;
      apply csr_for_steps in E2; pose proof (steps_trans _ _ _ E1 E2) as E12.
    2: { injection H as <- <-. by apply asked_in_order_none. }
    eapply asked_in_order_quiet; [exact E12|].
    destruct (issue iss n None useCSR w2) as [[cert|e] w3] eqn:E3; apply issue_steps in E3.
    + injection H as <- <-. by apply asked_in_order_stop.
    + destruct (is_panic e); [injection H as <- <-; by apply asked_in_order_stop|].
      by eapply asked_in_order_ask, IH.
Qed.

Lemma renew_loop_order cfg res leaf key name csr b n issuers ctx err w out w' :
  renew_loop cfg res leaf key name csr b n issuers ctx err w = (out, w') →
  asked_in_order issuers out w w'.
Proof.
  revert ctx err w. induction issuers as [|iss issuers IH]; intros ctx err w H; simpl in H.
  - injection H as <- <-. exists []. split; [done|]. split; [|done].
    apply steps_refl, no_issue_nil.
  - destruct (csr_for cfg key name csr iss w) as [[useCSR|e] w1] eqn:E1;
      apply csr_for_steps in E1.
    2: { injection H as <- <-. by apply asked_in_order_none. }
    destruct (preCheck iss name b w1) as [[[]|e] w2] eqn:E2; apply preCheck_steps in E2;
      pose proof (steps_trans _ _ _ E1 E2) as E12.
    2: { destruct (is_panic e); [injection H as <- <-; by apply asked_in_order_none|].
         by eapply asked_in_order_skip, IH. }
    eapply asked_in_order_quiet; [exact E12|].
    destruct (issue _ _ _ _ _) as [[cert|e] w3] eqn:E3; apply issue_steps in E3.
    + injection H as <- <-. by apply asked_in_order_stop.
    + destruct (is_panic e); [injection H as <- <-; by apply asked_in_order_stop|].
      by eapply asked_in_order_ask, IH.
Qed.

Lemma checkStorage_trace cfg w r w' :
  checkStorage cfg w = (r, w') → w_trace w' = w_trace w ∧ w_locks w' = w_locks w.
Proof.
  unfold checkStorage, on_external, on_storage. destruct (DisableStorageCheck cfg).
  { by intros [= <- <-]. }
  destruct (x_TestKey _) as [k [s1 e1]]. simpl.
  destruct (x_RandRead _) as [[b|] [s2 e2]]; [|by intros [= <- <-]]. simpl.
  destruct (Store k b s2) as [[[]|] s3]; [|by intros [= <- <-]]. simpl.
  destruct (Delete k s3) as [? s4]. by intros [= <- <-].
Qed.

Lemma finish_steps cfg ren name csr pem keys out w r w' :
  finish cfg ren name csr pem keys out w = (r, w') → steps no_issue w w'.
Proof.
  unfold finish. destruct out as [iss cert|[e|]|e].
  - destruct (on_storage _ w) as [[[]|e] w1] eqn:E1; apply on_storage_steps in E1.
    + destruct (emit _ _ w1) as [r2 w2] eqn:E2. apply emit_steps in E2.
      intros [= <- <-]. by eapply steps_trans.
    + by intros [= <- <-].
  - destruct (emit _ _ w) as [r2 w2] eqn:E2. apply emit_steps in E2. by intros [= <- <-].
  - intros [= <- <-]. apply steps_refl, no_issue_nil.
  - intros [= <- <-]. apply steps_refl, no_issue_nil.
Qed.

Lemma obtain_key_steps cfg name w r w' :
  obtain_key cfg name w = (r, w') → steps no_issue w w'.
Proof.
  unfold obtain_key.
  destruct (if ReusePrivateKeys cfg then _ else _) as [[found issuers]|e].
  2: { intros [= <- <-]. apply steps_refl, no_issue_nil. }
  destruct (match cfg_IssuerPolicy cfg with UseFirstIssuer => _ | _ => _ end)
    as [issuers' w1] eqn:E1.
  assert (steps no_issue w w1) as S1.
  { destruct (cfg_IssuerPolicy cfg); [|by apply on_external_steps in E1].
    injection E1 as <- <-. apply steps_refl, no_issue_nil. }
  destruct found as [[key pem]|]; [by intros [= <- <-]|].
  destruct (on_external x_GenerateKey w1) as [[key|e] w2] eqn:E2; apply on_external_steps in E2.
  - intros H. apply (steps_trans _ _ _ S1). destruct (PEMEncodePrivateKey key);
      by injection H as <- <-.
  - intros [= <- <-]. by eapply steps_trans.
Qed.

Lemma renew_key_steps cfg res w r w' :
  renew_key cfg res w = (r, w') → steps no_issue w w'.
Proof.
  unfold renew_key. destruct (ReusePrivateKeys cfg).
  - destruct (PEMDecodePrivateKey _); intros [= <- <-]; apply steps_refl, no_issue_nil.
  - destruct (on_external x_GenerateKey w) as [[key|e] w2] eqn:E2; apply on_external_steps in E2.
    + destruct (PEMEncodePrivateKey key); by intros [= <- <-].
    + by intros [= <- <-].
Qed.

(** One attempt asks a sublist of some list of issuers, in order. *)
Definition attempt_asks (issuers : list Issuer) w w' : Prop :=
  ∃ (sel : list Issuer) cs, sel `sublist_of` issuers ∧ steps (asks (iss_IssuerKey <$> sel) cs) w w'.

Lemma attempt_asks_none issuers w w' : steps no_issue w w' → attempt_asks issuers w w'.
Proof. intros H. exists [], []. split; [apply sublist_nil_l|done]. Qed.

Lemma attempt_asks_finish issuers out w w1 w2 w3 :
  steps no_issue w w1 → asked_in_order issuers out w1 w2 → steps no_issue w2 w3 →
  attempt_asks issuers w w3.
Proof.
  intros S1 (sel & Hsub & S2 & _) S3. exists sel, (given out). split; [done|].
  pose proof (asks_trans _ [] _ [] _ _ _ S2 S3) as S23. rewrite !app_nil_r in S23.
  by eapply asks_quiet_l.
Qed.

Lemma renew_body_asks cfg name force b n w r w' :
  renew_body cfg name force b n w = (r, w') → attempt_asks (Issuers cfg) w w'.
Proof.
  intros H. unfold renew_body, renew_new in H.
  destruct (loadCertResourceAnyIssuer _ _ _) as [res|e].
  2: { injection H as <- <-. apply attempt_asks_none, steps_refl, no_issue_nil. }
  destruct (managedCertNeedsRenewal _ _ _) as [[[left leaf] needs]|].
  2: { injection H as <- <-. apply attempt_asks_none, steps_refl, no_issue_nil. }
  destruct (negb needs && negb force).
  { injection H as <- <-. apply attempt_asks_none, steps_refl, no_issue_nil. }
  destruct (emit _ _ w) as [[[]|e] w1] eqn:E1; apply emit_steps in E1.
  2: { injection H as <- <-. by apply attempt_asks_none. }
  destruct (renew_key _ _ w1) as [[[key pem]|e] w2] eqn:E2; apply renew_key_steps in E2;
    pose proof (steps_trans _ _ _ E1 E2) as E12.
  2: { injection H as <- <-. by apply attempt_asks_none. }
  destruct (generateCSR _ _ _ _ w2) as [[csr|e] w3] eqn:E3; apply generateCSR_steps in E3;
    pose proof (steps_trans _ _ _ E12 E3) as E123.
  2: { injection H as <- <-. by apply attempt_asks_none. }
  destruct (renew_loop _ _ _ _ _ _ _ _ _ _ _ w3) as [out w4] eqn:E4. apply renew_loop_order in E4.
  apply finish_steps in H. by eapply attempt_asks_finish.
Qed.

Lemma obtain_body_asks cfg name b n w r w' :
  obtain_body cfg name b n w = (r, w') → ∃ issuers, attempt_asks issuers w w' ∧
    (issuers = [] ∨ ∃ w1 w2 kp, obtain_key cfg name w1 = (Ok (kp, issuers), w2)).
Proof.
  intros H. unfold obtain_body, obtain_new in H.
  destruct (storageHasCertResourcesAnyIssuer _ _ _).
  { injection H as <- <-. exists []. split; [|by left].
    apply attempt_asks_none, steps_refl, no_issue_nil. }
  destruct (emit _ _ w) as [[[]|e] w1] eqn:E1; apply emit_steps in E1.
  2: { injection H as <- <-. exists []. split; [by apply attempt_asks_none|by left]. }
  destruct (obtain_key _ _ w1) as [[[kp issuers]|e] w2] eqn:E2; pose proof E2 as Hk;
    apply obtain_key_steps in E2; pose proof (steps_trans _ _ _ E1 E2) as E12.
  2: { injection H as <- <-. exists []. split; [by apply attempt_asks_none|by left]. }
  exists issuers. split; [|right; by exists w1, w2, kp]. destruct kp as [key pem].
  destruct (generateCSR _ _ _ _ w2) as [[csr|e] w3] eqn:E3; apply generateCSR_steps in E3;
    pose proof (steps_trans _ _ _ E12 E3) as E123.
  2: { injection H as <- <-. by apply attempt_asks_none. }
  destruct (obtain_loop _ _ _ _ _ _ _ _ w3) as [out w4] eqn:E4. apply obtain_loop_order in E4.
  apply finish_steps in H. by eapply attempt_asks_finish.
Qed.

Lemma asks_inner ks cs w w' : steps (asks ks cs) w w' → steps inner_only w w'.
Proof. apply steps_weaken. by intros t [? _]. Qed.

Lemma inner_trans w w1 w2 : steps inner_only w w1 → steps inner_only w1 w2 → steps inner_only w w2.
Proof.
  intros (L1 & t1 & T1 & P1) (L2 & t2 & T2 & P2). split; [congruence|].
  exists (t1 ++ t2)%list. rewrite T2, T1, app_assoc. split; [done|]. by apply Forall_app.
Qed.

Lemma retry_world_steps fuel f start n i err w r w' :
  (∀ n w r w', f n w = (r, w') → steps inner_only w w') →
  retry_world fuel f start n i err w = (r, w') → steps inner_only w w'.
Proof.
  intros Hf. revert n i err w. induction fuel as [|fuel IH]; intros n i err w H; simpl in H.
  { injection H as <- <-. apply steps_refl. constructor. }
  destruct (negb _). { injection H as <- <-. apply steps_refl. constructor. }
  destruct (on_external (x_Sleep _) w) as [fired w1] eqn:E1. apply on_external_steps in E1.
  assert (steps inner_only w w1) as S1 by (by eapply (asks_inner [] [])).
  destruct (negb fired); [by injection H as <- <-|].
  destruct (f n w1) as [res w2] eqn:E2. apply Hf in E2. pose proof (inner_trans _ _ _ S1 E2) as S2.
  destruct res as [[]|e]; [by injection H as <- <-|].
  destruct (_ || is_panic _); [by injection H as <- <-|].
  destruct (_ <? _)%Z in H; [|by injection H as <- <-].
  apply IH in H. by eapply inner_trans.
Qed.

Lemma on_locks_other (rel : bool) k w r w' :
  (if rel then on_locks (releaseLock 0 k) w else on_locks (acquireLock 0 k) w) = (r, w') →
  w_trace w' = w_trace w ∧ ∀ k', k' ≠ k → w_locks w' !! k' = w_locks w !! k'.
Proof.
  unfold on_locks, releaseLock, acquireLock. destruct rel; simpl.
  - destruct (Unlock k (w_storage w)) as [[[]|e] s]; intros [= <- <-]; simpl; split; try done.
    intros k' Hne. by rewrite lookup_delete_ne.
  - destruct (Lock k (w_storage w)) as [[[]|e] s]; intros [= <- <-]; simpl; split; try done.
    intros k' Hne. by rewrite lookup_insert_ne.
Qed.

(** The trace of an operation under the lock [k]: nothing at all, a lock that
    could not be had, or the calls of the operation between the lock it has
    acquired and its unlock. *)
Definition bracketed (k : string) (r : result unit) (t : list call) : Prop :=
  t = [] ∨ (t = [CallLock k false] ∧ is_Ok r = false) ∨
  ∃ body, t = (CallLock k true :: body ++ [CallUnlock k])%list ∧ inner_only body.

Lemma with_name_lock_bracketed name body w r w' :
  (∀ w r w', body w = (r, w') → steps inner_only w w') →
  with_name_lock name body w = (r, w') →
  let k := lockKey certIssueLockOp name in
  (∃ t, w_trace w' = (w_trace w ++ t)%list ∧ bracketed k r t) ∧
  ∀ k', k' ≠ k → w_locks w' !! k' = w_locks w !! k'.
Proof.
  intros Hb H k. unfold with_name_lock in H. fold k in H.
  destruct (on_locks (acquireLock 0 k) w) as [ra w1] eqn:E2.
  apply (on_locks_other false) in E2 as [T2 L2]. simpl in T2, L2.
  unfold record at 1 in H. destruct ra as [[]|e].
  2: { injection H as <- <-. split; [|done]. exists [CallLock k false]. simpl. rewrite T2. split; [done|].
       right. left. done. }
  set (w2 := MkWorld _ _ _ _) in *.
  destruct (body w2) as [res w3] eqn:E3. apply Hb in E3 as (L3 & t & T3 & Pt).
  destruct (record (CallUnlock k) w3) as [u4 w4] eqn:E4. injection E4 as <- <-.
  destruct (on_locks (releaseLock 0 k) _) as [ru w5] eqn:E5.
  apply (on_locks_other true) in E5 as [T5 L5]. simpl in T5, L5. injection H as <- <-. split.
  - exists (CallLock k true :: t ++ [CallUnlock k])%list. split.
    + rewrite T5, T3. simpl. rewrite T2. by rewrite <-!app_assoc.
    + right. right. by exists t.
  - intros k' Hne. by rewrite L5, L3, L2 by done.
Qed.

(** The trace and the lock table of an operation that stops or goes on to its
    locked part. *)
Definition lock_discipline (k : string) w (r : result unit) w' : Prop :=
  (∃ t, w_trace w' = (w_trace w ++ t)%list ∧ bracketed k r t) ∧
  ∀ k', k' ≠ k → w_locks w' !! k' = w_locks w !! k'.

Lemma lock_discipline_none k w r w' :
  w_trace w' = w_trace w → w_locks w' = w_locks w → lock_discipline k w r w'.
Proof.
  intros Ht Hl. split; [|by rewrite Hl]. exists []. rewrite app_nil_r. split; [done|by left].
Qed.

Lemma checked_lock_discipline cfg name body w r w' :
  (∀ w r w', body w = (r, w') → steps inner_only w w') →
  match checkStorage cfg w with
  | (Err _, w) => (Err (Errorf "failed storage check"), w)
  | (Ok _, w) => with_name_lock name body w
  end = (r, w') →
  lock_discipline (lockKey certIssueLockOp name) w r w'.
Proof.
  intros Hb H. destruct (checkStorage cfg w) as [[[]|e] wa] eqn:E1;
    apply checkStorage_trace in E1 as [Ht Hl].
  - unfold lock_discipline. rewrite <-Ht, <-Hl. by eapply with_name_lock_bracketed.
  - injection H as <- <-. by apply lock_discipline_none.
Qed.

Lemma renew_body_inner cfg name force b n w r w' :
  renew_body cfg name force b n w = (r, w') → steps inner_only w w'.
Proof. intros (sel & cs & _ & Hs)%renew_body_asks. by eapply asks_inner. Qed.

Lemma obtain_body_inner cfg name b n w r w' :
  obtain_body cfg name b n w = (r, w') → steps inner_only w w'.
Proof. intros (iss & (sel & cs & _ & Hs) & _)%obtain_body_asks. by eapply asks_inner. Qed.

Lemma retried_inner (interactive : bool) f :
  (∀ n w r w', f n w = (r, w') → steps inner_only w w') →
  ∀ w r w', (if interactive then f 0%nat else doWithRetry_world f) w = (r, w') → steps inner_only w w'.
Proof.
  intros Hf w r w' H. destruct interactive; [by eapply Hf|]. by eapply retry_world_steps.
Qed.

(** (C1) Certificates are only issued under the lock of their name: whatever the
    outcome, the calls that [obtainCert] and [renewCert] make (events, prechecks,
    requests to issuers, with any number of retries) lie between the lock of the
    name, which was acquired, and its unlock; when the lock is not acquired no
    call is made and an error is returned. The entries of other locks in the
    process's table are untouched. *)
Theorem issuance_under_lock cfg name force interactive (renew : bool) w r w' :
  (if renew then renewCert cfg name force interactive w
   else obtainCert cfg name interactive w) = (r, w') →
  lock_discipline (lockKey certIssueLockOp (transformSubject cfg name)) w r w'.
Proof.
  intros H. unfold renewCert, obtainCert in H.
  destruct renew, (Issuers cfg) as [|i0 iss] eqn:Ei.
  - injection H as <- <-. by apply lock_discipline_none.
  - eapply checked_lock_discipline, H. apply (retried_inner interactive (renew_body _ _ _ _)), renew_body_inner.
  - injection H as <- <-. by apply lock_discipline_none.
  - destruct (storageHasCertResourcesAnyIssuer _ _ _).
    + injection H as <- <-. by apply lock_discipline_none.
    + eapply checked_lock_discipline, H. apply (retried_inner interactive (obtain_body _ _ _)), obtain_body_inner.
Qed.

(** *** What a successful operation stores *)
Context `{!StorageLaws St} `{XL : !ExternalLaws St E}.

Lemma emit_storage cfg ev w r w' : emit cfg ev w = (r, w') → w_storage w' = w_storage w.
Proof.
  unfold emit. destruct (negb _); [by intros [= <- <-]|].
  destruct (record _ w) as [u w1] eqn:E1. injection E1 as <- <-. unfold on_external. simpl.
  pose proof (x_OnEvent_storage ev (w_storage w) (w_ext w)) as Hs.
  destruct (x_OnEvent _ _) as [r' [s e]]. intros [= <- <-]. done.
Qed.

(** The contents hold the certificate and key PEM of an issued certificate for
    the names of [csr] under the issuer. *)
Definition saved (iss : Issuer) (csr : CertificateRequest) (certPEM keyPEM : bytes)
    (m m' : gmap string bytes) : Prop :=
  ∃ data meta, m' = store_all (resource_kvs (iss_IssuerKey iss)
    (MkCertificateResource (namesFromCSR csr) certPEM keyPEM data (iss_IssuerKey iss)) meta) m.

Lemma finish_Ok cfg ren name csr pem keys out w w' :
  finish cfg ren name csr pem keys out w = (Ok tt, w') →
  ∃ iss cert, out = Issued iss cert ∧
    saved iss csr (ic_Certificate cert) pem (contents (w_storage w)) (contents (w_storage w')).
Proof.
  unfold finish. destruct out as [iss cert|[e|]|e].
  - destruct (on_storage _ w) as [[[]|e] w1] eqn:E1; [|done].
    destruct (emit _ _ w1) as [r2 w2] eqn:E2. apply emit_storage in E2. intros [= <-].
    exists iss, cert. split; [done|]. rewrite E2. unfold on_storage in E1.
    destruct (saveCertResource _ _ _) as [r s] eqn:E3. injection E1 as -> <-. simpl.
    apply saveCertResource_Ok in E3 as (meta & _ & Hc). by eexists _, meta.
  - by destruct (emit _ _ w).
  - done.
  - done.
Qed.

Lemma saved_resources iss csr certPEM keyPEM m m' :
  plain_site (iss_IssuerKey iss) (NamesKey (namesFromCSR csr)) →
  saved iss csr certPEM keyPEM m m' →
  m' !! SiteCert (iss_IssuerKey iss) (NamesKey (namesFromCSR csr)) = Some certPEM ∧
  m' !! SitePrivateKey (iss_IssuerKey iss) (NamesKey (namesFromCSR csr)) = Some keyPEM ∧
  is_Some (m' !! SiteMeta (iss_IssuerKey iss) (NamesKey (namesFromCSR csr))).
Proof.
  intros Hp (data & meta & ->).
  destruct (resource_kvs_lookup (iss_IssuerKey iss)
    (MkCertificateResource (namesFromCSR csr) certPEM keyPEM data (iss_IssuerKey iss)) meta m)
    as (H1 & H2 & H3); [done|]. split; [done|]. split; [done|]. by eexists.
Qed.

Lemma Exists_lookup (s : St) k : is_Some (contents s !! k) → Exists s k = true.
Proof. intros H. apply Exists_spec. exists k. by rewrite under_refl. Qed.

(** A name that goes into a request unchanged, as a DNS name. *)
Definition dns_name (name : string) : Prop :=
  idna_ToASCII name = Ok name ∧ x_ParseIP name = None ∧
  Contains name "@" = false ∧ Contains name "/" = false ∧ (String.length name ≤ 1024)%nat.

Lemma generateCSR_names cfg key name w csr w' :
  dns_name name → generateCSR cfg key [name] false w = (Ok csr, w') →
  csr = MkCSR "" [name] [] [] [] ∧ NamesKey (namesFromCSR csr) = name.
Proof.
  intros (Hi & Hip & Hat & Hsl & Hlen) H. unfold generateCSR in H. simpl in H.
  rewrite Hi in H. unfold add_san in H. simpl in H. rewrite Hip, Hat, Hsl in H.
  assert (csr = MkCSR "" [name] [] [] []) as ->.
  { unfold on_external in H. destruct (x_url_Parse name) as [u|];
      destruct (x_CreateCSR _ _ _ _) as [r [s e]] eqn:Ec; injection H as -> _;
      by apply x_CreateCSR_names in Ec. }
  split; [done|]. unfold NamesKey, namesFromCSR, sort_Strings. simpl.
  destruct (Nat.ltb_spec 1024 (String.length name)); [lia|done].
Qed.

Lemma reuse_loop_perm s domain issuers i todo r issuers' :
  todo = drop i issuers →
  reuse_loop s domain issuers i todo = Ok (r, issuers') → issuers' ≡ₚ issuers.
Proof.
  revert i. induction todo as [|iss todo IH]; intros i Hd H; simpl in H.
  { by injection H as _ <-. }
  destruct (Load s _) as [pem|e].
  - destruct (PEMDecodePrivateKey pem); [|done]. injection H as _ <-.
    rewrite <-(take_drop i issuers) at 3. rewrite <-Hd.
    rewrite (drop_cons_S issuers i iss todo) by done. apply Permutation_middle.
  - destruct (errors_Is e ErrNotExist); [|done]. apply IH in H; [done|].
    symmetry. by apply drop_cons_S with iss.
Qed.

Lemma obtain_key_perm cfg name w kp issuers w' :
  obtain_key cfg name w = (Ok (kp, issuers), w') → issuers ≡ₚ Issuers cfg.
Proof.
  unfold obtain_key.
  destruct (if ReusePrivateKeys cfg then _ else _) as [[found iss]|e] eqn:E0; [|done].
  assert (iss ≡ₚ Issuers cfg) as H0.
  { destruct (ReusePrivateKeys cfg); [by eapply reuse_loop_perm in E0|by injection E0 as _ <-]. }
  destruct (match cfg_IssuerPolicy cfg with UseFirstIssuer => _ | _ => _ end)
    as [iss' w1] eqn:E1.
  assert (iss' ≡ₚ iss) as H1.
  { destruct (cfg_IssuerPolicy cfg); [by injection E1 as <- <-|]. unfold on_external in E1.
    pose proof (x_Shuffle_perm iss (w_storage w, w_ext w)) as Hs.
    destruct (x_Shuffle _ _) as [l [s e]]. by injection E1 as <- _. }
  rewrite <-H0, <-H1. destruct found as [[key pem]|]; [by intros [= _ <- _]|].
  destruct (on_external x_GenerateKey w1) as [[key|e] w2]; [|done].
  destruct (PEMEncodePrivateKey key); [|done]. by intros [= _ <- _].
Qed.

(** *** Success of an attempt *)

Lemma obtain_loop_Issued cfg key name csr b n issuers err w iss cert w' :
  obtain_loop cfg key name csr b n issuers err w = (Issued iss cert, w') → iss ∈ issuers.
Proof.
  intros (sel & Hsub & _ & Hl)%obtain_loop_order.
  eapply elem_of_submseteq; [|by apply sublist_submseteq]. by apply last_Some_elem_of.
Qed.

Lemma renew_loop_Issued cfg res leaf key name csr b n issuers ctx err w iss cert w' :
  renew_loop cfg res leaf key name csr b n issuers ctx err w = (Issued iss cert, w') →
  iss ∈ issuers.
Proof.
  intros (sel & Hsub & _ & Hl)%renew_loop_order.
  eapply elem_of_submseteq; [|by apply sublist_submseteq]. by apply last_Some_elem_of.
Qed.

(** The storage holds a certificate resource of a configured issuer for the
    name. *)
Definition has_resource (cfg : Config) (name : string) (m : gmap string bytes) : Prop :=
  ∃ iss, iss ∈ Issuers cfg ∧
    is_Some (m !! SiteCert (iss_IssuerKey iss) name) ∧
    is_Some (m !! SitePrivateKey (iss_IssuerKey iss) name) ∧
    is_Some (m !! SiteMeta (iss_IssuerKey iss) name).

Definition plain_config (cfg : Config) (name : string) : Prop :=
  ∀ iss, iss ∈ Issuers cfg → plain_site (iss_IssuerKey iss) name.

Lemma has_resource_storage cfg name (s : St) :
  has_resource cfg name (contents s) → storageHasCertResourcesAnyIssuer s cfg name = true.
Proof.
  intros (iss & Hin & H1 & H2 & H3). unfold storageHasCertResourcesAnyIssuer.
  apply existsb_exists. exists iss. split; [by apply list_elem_of_In|].
  unfold storageHasCertResources. by rewrite !Exists_lookup.
Qed.

Lemma Exists_contents (s s' : St) k : contents s = contents s' → Exists s k = Exists s' k.
Proof.
  intros Hc. apply eq_bool_prop_intro. rewrite !Is_true_true, !Exists_spec. by rewrite Hc.
Qed.

Lemma storageHas_contents cfg name (s s' : St) :
  contents s = contents s' →
  storageHasCertResourcesAnyIssuer s cfg name = storageHasCertResourcesAnyIssuer s' cfg name.
Proof.
  intros Hc. unfold storageHasCertResourcesAnyIssuer, storageHasCertResources.
  induction (Issuers cfg) as [|iss l IH]; [done|]. simpl. by rewrite IH, !(Exists_contents s s').
Qed.

Lemma obtain_new_Ok cfg name b n w w' :
  dns_name name → plain_config cfg name → obtain_new cfg name b n w = (Ok tt, w') →
  has_resource cfg name (contents (w_storage w')).
Proof.
  intros Hn Hp H. unfold obtain_new in H.
  destruct (emit _ _ w) as [[[]|e] w1]; [|done].
  destruct (obtain_key _ _ w1) as [[[[key pem] issuers]|e] w2] eqn:E2; [|done].
  apply obtain_key_perm in E2.
  destruct (generateCSR _ _ _ _ w2) as [[csr|e] w3] eqn:E3; [|done].
  apply generateCSR_names in E3 as [_ E3]; [|done].
  destruct (obtain_loop _ _ _ _ _ _ _ _ w3) as [out w4] eqn:E4.
  apply finish_Ok in H as (iss & cert & -> & Hs).
  apply obtain_loop_Issued in E4. rewrite E2 in E4.
  apply saved_resources in Hs; rewrite ?E3 in *; [|by apply Hp].
  destruct Hs as (H1 & H2 & H3). exists iss. split; [done|]. by rewrite H1, H2.
Qed.

Lemma obtain_body_Ok cfg name b n w w' :
  dns_name name → plain_config cfg name → obtain_body cfg name b n w = (Ok tt, w') →
  storageHasCertResourcesAnyIssuer (w_storage w) cfg name = true ∧ w' = w ∨
  has_resource cfg name (contents (w_storage w')).
Proof.
  intros Hn Hp H. unfold obtain_body in H.
  destruct (storageHasCertResourcesAnyIssuer _ _ _) eqn:E0; [left; by injection H as <-|right].
  by eapply obtain_new_Ok.
Qed.

(** The world with the lock [k] acquired, its body about to run. *)
Definition locked (k : string) w : World St E := snd (record (CallLock k true) w).

Lemma with_name_lock_Ok name body w w' :
  with_name_lock name body w = (Ok tt, w') →
  let k := lockKey certIssueLockOp name in
  ∃ w1 w2, on_locks (acquireLock 0 k) w = (Ok tt, w1) ∧ body (locked k w1) = (Ok tt, w2) ∧
    contents (w_storage w') = contents (w_storage w2) ∧ w_ext w' = w_ext w2 ∧
    w_trace w' = (w_trace w2 ++ [CallUnlock k])%list.
Proof.
  intros H k. unfold with_name_lock in H. fold k in H.
  destruct (on_locks (acquireLock 0 k) w) as [[[]|e] w1]; [|done].
  unfold record at 1 in H. unfold locked. simpl in H |- *.
  destruct (body _) as [res w3] eqn:E3. unfold on_locks, releaseLock in H. simpl in H.
  destruct (Unlock k (w_storage w3)) as [ru s] eqn:E5. injection H as -> <-.
  exists w1, w3. split; [done|]. split; [exact E3|]. simpl. by apply Unlock_contents in E5.
Qed.

Lemma acquire_ext k w r w1 : on_locks (acquireLock 0 k) w = (r, w1) → w_ext w1 = w_ext w.
Proof. unfold on_locks. destruct (acquireLock 0 k _) as [r' ls]. by intros [= <- <-]. Qed.

(** (C2) When [ObtainCertSync] succeeds the storage has the certificate, its
    private key and its metadata under one of the configured issuers, so that
    the next call finds them; and when they were there already the call does
    nothing: no lock, no request, no change. *)
Theorem ObtainCertSync_stored cfg name w w' :
  let name' := transformSubject cfg name in
  dns_name name' → plain_config cfg name' → Issuers cfg ≠ [] →
  (storageHasCertResourcesAnyIssuer (w_storage w) cfg name' = true →
   ObtainCertSync cfg name w = (Ok tt, w)) ∧
  (ObtainCertSync cfg name w = (Ok tt, w') →
   storageHasCertResourcesAnyIssuer (w_storage w') cfg name' = true).
Proof.
  intros name' Hn Hp Hi. unfold ObtainCertSync, obtainCert. fold name'.
  destruct (Issuers cfg) as [|i0 iss] eqn:Ei; [done|]. split; [by intros ->|].
  destruct (storageHasCertResourcesAnyIssuer _ _ _) eqn:E0; [by intros [= <-]|].
  destruct (checkStorage cfg w) as [[[]|e] wa]; [|done].
  intros (w1 & w2 & _ & Hb & Hc & _)%with_name_lock_Ok.
  apply obtain_body_Ok in Hb as [[Hs ->]|Hs]; [..|done|done].
  - by rewrite (storageHas_contents _ _ _ _ Hc).
  - apply has_resource_storage. by rewrite Hc.
Qed.

(** The key that goes with the new certificate: the stored one when keys are
    reused, otherwise one that the key source has made. *)
Definition renewal_key (cfg : Config) (res : CertificateResource) (key : PrivateKey) (pem : bytes) : Prop :=
  if ReusePrivateKeys cfg then pem = PrivateKeyPEM res ∧ PEMDecodePrivateKey pem = Ok key
  else PEMEncodePrivateKey key = Ok pem ∧ ∃ se, fst (x_GenerateKey (St := St) (E := E) se) = Ok key.

Lemma renew_key_spec cfg res w key pem w' :
  renew_key cfg res w = (Ok (key, pem), w') → renewal_key cfg res key pem.
Proof.
  unfold renew_key, renewal_key. destruct (ReusePrivateKeys cfg).
  - destruct (PEMDecodePrivateKey _) eqn:E1; [|done]. by intros [= -> <- _].
  - unfold on_external. destruct (x_GenerateKey _) as [[key'|e] [s2 e2]] eqn:Eg; [|done].
    destruct (PEMEncodePrivateKey key') eqn:E1; [|done]. intros [= -> <- _]. split; [done|].
    eexists. by rewrite Eg.
Qed.

(** What a successful renewal of [name] leaves in storage: the certificate that
    an issuer gave, the only one of the calls made, under this issuer, with the
    private key of the request and the metadata. *)
Definition renewed (cfg : Config) (name : string) (res : CertificateResource)
    (given : list (string * IssuedCertificate)) (m' : gmap string bytes) : Prop :=
  ∃ iss cert keyPEM key, iss ∈ Issuers cfg ∧
    given = [(iss_IssuerKey iss, cert)] ∧
    m' !! SiteCert (iss_IssuerKey iss) name = Some (ic_Certificate cert) ∧
    m' !! SitePrivateKey (iss_IssuerKey iss) name = Some keyPEM ∧
    is_Some (m' !! SiteMeta (iss_IssuerKey iss) name) ∧
    renewal_key cfg res key keyPEM.

Lemma renew_new_Ok cfg name res leaf b n w w' :
  dns_name name → plain_config cfg name → renew_new cfg name res leaf b n w = (Ok tt, w') →
  ∃ t, w_trace w' = (w_trace w ++ t)%list ∧ renewed cfg name res (issued t) (contents (w_storage w')).
Proof.
  intros Hn Hp H. unfold renew_new in H.
  destruct (emit _ _ w) as [[[]|e] w1] eqn:E1; [|done]. apply emit_steps in E1.
  destruct (renew_key _ _ w1) as [[[key pem]|e] w2] eqn:E2; [|done].
  pose proof (steps_trans _ _ _ E1 (renew_key_steps _ _ _ _ _ E2)) as S2. apply renew_key_spec in E2.
  destruct (generateCSR _ _ _ _ w2) as [[csr|e] w3] eqn:E3; [|done].
  pose proof (steps_trans _ _ _ S2 (generateCSR_steps _ _ _ _ _ _ _ E3)) as S3.
  apply generateCSR_names in E3 as [_ E3]; [|done].
  destruct (renew_loop _ _ _ _ _ _ _ _ _ _ _ w3) as [out w4] eqn:E4.
  pose proof (finish_steps _ _ _ _ _ _ _ _ _ _ H) as S5.
  apply finish_Ok in H as (iss & cert & -> & Hs).
  pose proof (renew_loop_Issued _ _ _ _ _ _ _ _ _ _ _ _ _ _ _ E4) as Hin.
  apply renew_loop_order in E4 as (sel & _ & S4 & _).
  apply saved_resources in Hs; rewrite ?E3 in *; [|by apply Hp]. destruct Hs as (H1 & H2 & H3).
  destruct (asks_trans _ [] _ [] _ _ _ (asks_quiet_l _ _ _ _ _ S3 S4) S5) as (_ & t & Ht & _ & _ & Hg).
  exists t. split; [done|]. exists iss, cert, pem, key. by rewrite Hg.
Qed.

Lemma renew_body_Ok cfg name force b n w w' :
  dns_name name → plain_config cfg name → renew_body cfg name force b n w = (Ok tt, w') →
  ∃ res timeLeft leaf needs t,
    loadCertResourceAnyIssuer (w_storage w) (iss_IssuerKey <$> Issuers cfg) name = Ok res ∧
    managedCertNeedsRenewal cfg (w_ext w) res = Some (timeLeft, leaf, needs) ∧
    w_trace w' = (w_trace w ++ t)%list ∧
    if needs || force then renewed cfg name res (issued t) (contents (w_storage w'))
    else t = [] ∧ w' = w.
Proof.
  intros Hn Hp H. unfold renew_body in H.
  destruct (loadCertResourceAnyIssuer _ _ _) as [res|e]; [|done].
  destruct (managedCertNeedsRenewal _ _ _) as [[[left leaf] needs]|] eqn:E0; [|done].
  exists res, left, leaf, needs.
  destruct (needs || force) eqn:Enf; rewrite <-negb_orb, Enf in H; simpl in H.
  - apply renew_new_Ok in H as (t & Ht & Hr); [|done|done]. by exists t.
  - injection H as <-. exists []. by rewrite app_nil_r.
Qed.

(** The calls made under the lock are those recorded between it and its unlock. *)
Lemma issued_bracket k body t :
  t = (CallLock k true :: body ++ [CallUnlock k])%list →
  issued t = issued body ∧ asked t = asked body.
Proof. intros ->. unfold issued, asked. simpl. rewrite !omap_app. by rewrite !app_nil_r. Qed.

(** (C3) When [RenewCertSync] succeeds, the resource found in storage once the
    lock of the name is acquired decides, at the time of that moment: if the
    certificate needs renewal or the renewal is forced, exactly one certificate
    was given by the issuers asked, and the storage then holds this certificate
    under the issuer that gave it, with its private key (the stored key when
    keys are reused, otherwise one that the key source has made) and its
    metadata; if not, no issuer was asked and the storage is as it was under the
    lock. *)
Theorem RenewCertSync_renewed cfg name force w w' :
  let name' := transformSubject cfg name in
  dns_name name' → plain_config cfg name' →
  RenewCertSync cfg name force w = (Ok tt, w') →
  ∃ wa w1 res timeLeft leaf needs t,
    checkStorage cfg w = (Ok tt, wa) ∧
    on_locks (acquireLock 0 (lockKey certIssueLockOp name')) wa = (Ok tt, w1) ∧
    loadCertResourceAnyIssuer (w_storage w1) (iss_IssuerKey <$> Issuers cfg) name' = Ok res ∧
    managedCertNeedsRenewal cfg (w_ext w1) res = Some (timeLeft, leaf, needs) ∧
    w_trace w' = (w_trace w ++ t)%list ∧
    if needs || force then renewed cfg name' res (issued t) (contents (w_storage w'))
    else asked t = [] ∧ contents (w_storage w') = contents (w_storage w1).
Proof.
  intros name' Hn Hp. unfold RenewCertSync, renewCert. fold name'.
  destruct (Issuers cfg) as [|i0 iss] eqn:Ei; [done|]. rewrite <-Ei.
  destruct (checkStorage cfg w) as [[[]|e] wa] eqn:Ec; [|done].
  intros (w1 & w2 & Hl & Hb & Hc & _ & Ht)%with_name_lock_Ok.
  apply renew_body_Ok in Hb as (res & left & leaf & needs & t & Hr & Hm & Ht2 & Hd); [|done|done].
  set (k := lockKey certIssueLockOp name') in *.
  exists wa, w1, res, left, leaf, needs, (CallLock k true :: t ++ [CallUnlock k])%list.
  do 4 (split; [done|]). split.
  - rewrite Ht, Ht2. simpl. apply (on_locks_other false) in Hl as [-> _].
    apply checkStorage_trace in Ec as [-> _]. by rewrite <-!app_assoc.
  - destruct (issued_bracket k t _ eq_refl) as [-> ->]. rewrite Hc.
    destruct (needs || force); [done|]. by destruct Hd as [-> ->].
Qed.

Lemma csr_for_plain cfg key name csr issuer w :
  iss_IssuerKey issuer ≠ zerosslIssuerKey → csr_for cfg key name csr issuer w = (Ok csr, w).
Proof. intros H%String.eqb_neq. unfold csr_for. by rewrite H. Qed.

Lemma preCheck_none issuer name b w :
  iss_PreChecker issuer = false → preCheck issuer name b w = (Ok tt, w).
Proof. intros H. unfold preCheck. by rewrite H. Qed.

Lemma issue_trace issuer n replaces csr w r w' :
  issue issuer n replaces csr w = (r, w') →
  w_trace w' = (w_trace w ++ [CallIssue (iss_IssuerKey issuer) replaces csr r])%list.
Proof.
  unfold issue, on_external. simpl. destruct (x_Issue _ _ _ _ _) as [r' [s e]].
  by intros [= <- <-].
Qed.

Lemma renew_context_keeps cfg res leaf issuer :
  renew_context cfg res leaf issuer (Some leaf) = Some leaf.
Proof.
  unfold renew_context. destruct (negb _); [|done]. destruct (getACMEData res); [|done].
  destruct (negb _); [|done]. destruct (iss_ACME_CA issuer); [|done]. by destruct (_ =? _).
Qed.

(** The announcement that a certificate is being replaced leaks to other
    CAs: when the first issuer is the CA of the old certificate and fails, the
    next issuer is asked with the same announcement, although its CA differs. *)
Theorem renew_replaces_leaks cfg res data leaf key name csr b n i1 i2 w w1 e :
  DisableARI (cfg_renewal cfg) = false →
  getACMEData res = Ok data → acme_CA data ≠ "" →
  iss_ACME_CA i1 = Some (acme_CA data) → iss_ACME_CA i2 ≠ Some (acme_CA data) →
  iss_PreChecker i1 = false → iss_PreChecker i2 = false →
  iss_IssuerKey i1 ≠ zerosslIssuerKey → iss_IssuerKey i2 ≠ zerosslIssuerKey →
  issue i1 n (Some leaf) csr w = (Err e, w1) → is_panic e = false →
  w_trace (snd (renew_loop cfg res leaf key name csr b n [i1; i2] None None w)) =
    (w_trace w ++ [CallIssue (iss_IssuerKey i1) (Some leaf) csr (Err e);
                   CallIssue (iss_IssuerKey i2) (Some leaf) csr (fst (issue i2 n (Some leaf) csr w1))])%list.
Proof.
  intros Hd Hdata Hca Hc1 Hc2 Hp1 Hp2 Hz1 Hz2 Hissue Hpan.
  assert (renew_context cfg res leaf i1 None = Some leaf) as Hctx.
  { unfold renew_context. rewrite Hd, Hdata. simpl.
    apply String.eqb_neq in Hca. by rewrite Hca, Hc1, String.eqb_refl. }
  simpl. rewrite (csr_for_plain _ _ _ _ _ _ Hz1), (preCheck_none _ _ _ _ Hp1), Hctx, Hissue, Hpan.
  rewrite (csr_for_plain _ _ _ _ _ _ Hz2), (preCheck_none _ _ _ _ Hp2), renew_context_keeps.
  destruct (issue i2 _ _ _ _) as [[cert|e2] w2] eqn:E2; simpl;
    apply issue_trace in E2, Hissue; try destruct (is_panic e2); simpl; rewrite E2, Hissue; by rewrite <-app_assoc.
Qed.

(** *** Revocation *)

Lemma Delete_subseteq k (s : St) s' : Delete k s = (Ok tt, s') → contents s' ⊆ contents s.
Proof. intros H. rewrite (Delete_Ok _ _ _ H). apply map_filter_subseteq. Qed.

Lemma deleteSiteAssets_Ok ik domain (s s' : St) :
  deleteSiteAssets ik domain s = (Ok tt, s') →
  contents s' ⊆ contents s ∧
  ∀ k, under (CertsSitePrefix ik domain) k = true → contents s' !! k = None.
Proof.
  unfold deleteSiteAssets.
  destruct (Delete (SiteCert _ _) s) as [[[]|e] s1] eqn:E1; [|done].
  destruct (Delete (SitePrivateKey _ _) s1) as [[[]|e] s2] eqn:E2; [|done].
  destruct (Delete (SiteMeta _ _) s2) as [[[]|e] s3] eqn:E3; [|done].
  destruct (Delete (CertsSitePrefix _ _) s3) as [[[]|e] s4] eqn:E4; [|done].
  intros [= <-]. split.
  - apply Delete_subseteq in E1, E2, E3, E4. by do 3 (etrans; [eassumption|]).
  - intros k Hk. rewrite (Delete_Ok _ _ _ E4). apply map_lookup_filter_None. right.
    intros v _. simpl. by rewrite Hk.
Qed.

Lemma revoke_loop_Ok `{RL : !RevokeLaws St E} issuers domain reason w w' :
  revoke_loop issuers domain reason w = (Ok tt, w') →
  w_trace w' = (w_trace w ++ (CallRevoke ∘ iss_IssuerKey <$> issuers))%list ∧
  (∀ ik d k v, under (CertsSitePrefix ik d) k = true →
    contents (w_storage w') !! k = Some v → contents (w_storage w) !! k = Some v) ∧
  ∀ iss k, iss ∈ issuers → under (CertsSitePrefix (iss_IssuerKey iss) domain) k = true →
    contents (w_storage w') !! k = None.
Proof.
  revert w. induction issuers as [|iss issuers IH]; intros w H; simpl in H.
  { injection H as <-. rewrite app_nil_r. split; [done|]. split; [done|].
    by intros iss k ?%elem_of_nil. }
  destruct (negb (iss_Revoker iss)); [done|].
  destruct (loadCertResource _ _ _) as [res|]; [|done].
  destruct (negb _); [done|]. unfold on_external in H. simpl in H.
  pose proof (x_Revoke_sites iss res reason (w_storage w) (w_ext w)) as Hs.
  destruct (x_Revoke _ _ _ _) as [[[]|] [s0 e]]; [|done]. simpl in Hs.
  unfold on_storage in H. simpl in H.
  destruct (deleteSiteAssets _ _ _) as [[[]|] s] eqn:Ed; [|done].
  apply deleteSiteAssets_Ok in Ed as [Hsub Hgone]. apply IH in H as (Ht & Hc & Hn).
  simpl in Ht, Hc. split; [by rewrite Ht, <-app_assoc|]. split.
  - intros ik d k v Hu Hv. rewrite <-(Hs ik d k Hu). eapply lookup_weaken; [by eapply Hc|done].
  - intros i k [->|Hin]%elem_of_cons Hu; [|by eapply Hn].
    destruct (contents (w_storage w') !! k) as [v|] eqn:Hv; [|done].
    apply (Hc _ _ _ _ Hu) in Hv. by rewrite (Hgone k Hu) in Hv.
Qed.

(** After [RevokeCert] succeeds, every configured issuer has been asked once,
    in order, to revoke the certificate, and nothing is left in storage under
    the domain's folder of any of them, so that the revoked certificate cannot
    be loaded again; no asset of another site has changed or appeared. *)
Theorem RevokeCert_cleans `{RL : !RevokeLaws St E} cfg domain reason w w' :
  RevokeCert cfg domain reason w = (Ok tt, w') →
  w_trace w' = (w_trace w ++ (CallRevoke ∘ iss_IssuerKey <$> Issuers cfg))%list ∧
  (∀ iss k, iss ∈ Issuers cfg → under (CertsSitePrefix (iss_IssuerKey iss) domain) k = true →
     contents (w_storage w') !! k = None) ∧
  (∀ ik d k v, under (CertsSitePrefix ik d) k = true →
    contents (w_storage w') !! k = Some v → contents (w_storage w) !! k = Some v).
Proof. intros (Ht & Hc & Hn)%revoke_loop_Ok. auto. Qed.

(** [checkStorage] reports success although the test key could not be deleted:
    the error assigned in the deferred function is lost. *)
Theorem checkStorage_ignores_delete cfg w key w1 b w2 s3 e s4 :
  DisableStorageCheck cfg = false →
  on_external x_TestKey w = (key, w1) →
  on_external x_RandRead w1 = (Ok b, w2) →
  Store key b (w_storage w2) = (Ok tt, s3) →
  Delete key s3 = (Err e, s4) →
  checkStorage cfg w = (Ok tt, MkWorld s4 (w_locks w2) (w_ext w2) (w_trace w2)).
Proof.
  intros Hd H1 H2 H3 H4. unfold checkStorage. rewrite Hd, H1, H2. unfold on_storage at 1.
  rewrite H3. simpl. rewrite (Load_contents s3 key b).
  - rewrite String.eqb_refl. simpl. unfold on_storage. simpl. by rewrite H4.
  - rewrite (Store_Ok _ _ _ _ H3). by rewrite lookup_insert_eq.
Qed.
End theorems.

(** ** Concrete runs *)
Section runs.
Import SimExternal.

Definition ex_cfg : Config := config [ca "one" "u1"; ca "two" "u2"].
(** Obtained from the second issuer, with the first one down. *)
Definition ex_obtained : World MemStorage.t SimExternal.t :=
  snd (ObtainCertSync ex_cfg "a.com" (world ["one"])).

Lemma ex_dns_name : @dns_name MemStorage.t SimExternal.t _ _ "a.com".
Proof. repeat split. simpl. lia. Qed.

Lemma ex_plain_config : plain_config ex_cfg "a.com".
Proof.
  intros iss Hin. repeat (apply elem_of_cons in Hin as [->|Hin]; [vm_compute; auto|]).
  by apply elem_of_nil in Hin.
Qed.

Lemma issuance_under_lock_witness :
  w_trace ex_obtained ≠ [] ∧
  lock_discipline "issue_cert_a.com" (world ["one"]) (Ok tt) ex_obtained.
Proof.
  split; [vm_compute; discriminate|].
  apply (issuance_under_lock ex_cfg "a.com" false true false). vm_compute. reflexivity.
Defined.

Lemma ObtainCertSync_stored_witness :
  storageHasCertResourcesAnyIssuer (w_storage ex_obtained) ex_cfg "a.com" = true ∧
  ObtainCertSync ex_cfg "a.com" ex_obtained = (Ok tt, ex_obtained).
Proof.
  assert (storageHasCertResourcesAnyIssuer (w_storage ex_obtained) ex_cfg "a.com" = true) as H.
  { apply (ObtainCertSync_stored ex_cfg "a.com" (world ["one"]) ex_obtained
             ex_dns_name ex_plain_config); [discriminate|]. vm_compute. reflexivity. }
  split; [exact H|].
  apply (ObtainCertSync_stored ex_cfg "a.com" ex_obtained ex_obtained
           ex_dns_name ex_plain_config); [discriminate|exact H].
Defined.

Lemma RenewCertSync_renewed_witness :
  let w' := snd (RenewCertSync ex_cfg "a.com" true ex_obtained) in
  ∃ wa w1 res timeLeft leaf needs t,
    checkStorage ex_cfg ex_obtained = (Ok tt, wa) ∧
    on_locks (acquireLock 0 (lockKey certIssueLockOp "a.com")) wa = (Ok tt, w1) ∧
    loadCertResourceAnyIssuer (w_storage w1) (iss_IssuerKey <$> Issuers ex_cfg) "a.com" = Ok res ∧
    managedCertNeedsRenewal ex_cfg (w_ext w1) res = Some (timeLeft, leaf, needs) ∧
    w_trace w' = (w_trace ex_obtained ++ t)%list ∧
    if needs || true then renewed ex_cfg "a.com" res (issued t) (contents (w_storage w'))
    else asked t = [] ∧ contents (w_storage w') = contents (w_storage w1).
Proof.
  intros w'. apply (RenewCertSync_renewed ex_cfg "a.com" true ex_obtained w'
                      ex_dns_name ex_plain_config).
  vm_compute. reflexivity.
Defined.

Definition plain_ca (key url : string) : Issuer := MkIssuer key false true (Some url).

Lemma renew_replaces_leaks_witness :
  let res := MkCertificateResource ["a.com"] (ex_pem 3) "KEY" "CA=u1" "one" in
  let csr := MkCSR "" ["a.com"] [] [] [] in
  w_trace (snd (renew_loop ex_cfg res None OtherKey "a.com" csr true 0
                  [plain_ca "one" "u1"; plain_ca "two" "u2"] None None (world ["one"]))) =
  [CallIssue "one" (Some None) csr (Err (Errorf "issuer is down"));
   CallIssue "two" (Some None) csr (Ok (MkIssued (ex_pem 4) (Ok "CA=u2")))].
Proof.
  intros res csr.
  etrans; [apply (renew_replaces_leaks ex_cfg res (MkACMEData "u1" None) None OtherKey "a.com" csr true 0
           (plain_ca "one" "u1") (plain_ca "two" "u2") (world ["one"])
           (snd (issue (plain_ca "one" "u1") 0 (Some None) csr (world ["one"])))
           (Errorf "issuer is down")); try reflexivity; try discriminate|].
  vm_compute. reflexivity.
Defined.

Definition ex_revocable : World MemStorage.t SimExternal.t :=
  snd (ObtainCertSync (config [ca "two" "u2"]) "a.com" (world [])).

Lemma RevokeCert_cleans_witness :
  let w' := snd (RevokeCert (config [ca "two" "u2"]) "a.com" 0 ex_revocable) in
  w_trace w' = (w_trace ex_revocable ++ [CallRevoke "two"])%list ∧
  (∀ iss k, iss ∈ [ca "two" "u2"] → under (CertsSitePrefix (iss_IssuerKey iss) "a.com") k = true →
     contents (w_storage w') !! k = None) ∧
  (∀ ik d k v, under (CertsSitePrefix ik d) k = true →
    contents (w_storage w') !! k = Some v → contents (w_storage ex_revocable) !! k = Some v).
Proof.
  intros w'. apply (RevokeCert_cleans (config [ca "two" "u2"]) "a.com" 0).
  vm_compute. reflexivity.
Defined.

(** For an internationalized name the storage is checked under the wrong
    key: resources are saved under the ASCII form of the name, but
    [obtainCert] looks for them, and [RevokeCert] for the private key, under
    the name as given. A second [ObtainCertSync] therefore requests a second
    certificate, and the certificate that [loadCertResource] finds cannot be
    revoked. *)
Theorem idn_name_not_found :
  let cfg := config [ca "two" "u2"] in
  let '(r1, w1) := ObtainCertSync cfg PlainCodec.idn_name (world []) in
  let '(r2, w2) := ObtainCertSync cfg PlainCodec.idn_name w1 in
  r1 = Ok tt ∧ r2 = Ok tt ∧
  is_Ok (loadCertResource (w_storage w1) "two" PlainCodec.idn_name) = true ∧
  asked (w_trace w2) = ["two"; "two"] ∧
  fst (RevokeCert cfg PlainCodec.idn_name 0 w1) = Err (Errorf "private key not found").
Proof. vm_compute. repeat split. Qed.
End runs.
