(* ===== verification/Manage.v ===== *)
(** * Loading certificates into the cache (certificates.go, maintain.go)

    The operations that join storage, OCSP and the cache: loading a managed
    certificate, caching managed and unmanaged ones, reloading after a renewal,
    and the forced renewal of a revoked certificate. *)

From S2P Require Import Prelude GoStrings Certificates Cache Storage Crypto OCSP Config.
Import KeyBuilder.
Open Scope string_scope.

(** The library functions on certificates, the random numbers and the map
    orders that the operations of this file use, and the files they read. *)
Class TLSLib (E : Type) := {
  tls_X509KeyPair : bytes → bytes → result TLSCertificate;
  blake3_hex : bytes → string;
  x_MapOrder : E → Cache → list Certificate;
  x_Intn : E → nat → nat;
  os_ReadFile : E → string → result bytes
}.

(** The world of the operations, the network for OCSP and the cache. *)
Record MState (St E N : Type) := MkM {
  m_world : World St E;
  m_net : N;
  m_cache : Cache
}.
Arguments MkM {St E N}.
Arguments m_world {St E N}.
Arguments m_net {St E N}.
Arguments m_cache {St E N}.

Section manage.
Context {St E N : Type} `{C : !Codec} `{!Storage St} `{X : !External St E}
  `{!OCSPNet N} `{TL : !TLSLib E}.
Implicit Types m : MState St E N.

Definition on_world {A} (f : ST (World St E) A) : ST (MState St E N) A := λ m,
  let '(r, w) := f (m_world m) in (r, MkM w (m_net m) (m_cache m)).

Definition on_ocsp {A} (f : ST (St * N) A) : ST (MState St E N) A := λ m,
  let w := m_world m in
  let '(r, (s, n)) := f (w_storage w, m_net m) in
  (r, MkM (MkWorld s (w_locks w) (w_ext w) (w_trace w)) n (m_cache m)).

Definition m_now m : Time := x_Now (w_ext (m_world m)).

Definition on_cache (f : E → Cache → Cache) : ST (MState St E N) unit := λ m,
  (tt, MkM (m_world m) (m_net m) (f (w_ext (m_world m)) (m_cache m))).

(** [cacheCertificate] and [replaceCertificate] with the order of the map and
    the random number that an eviction uses. *)
Definition cache_with (e : E) (cert : Certificate) (c : Cache) : Cache :=
  cacheCertificate (x_MapOrder e c) (x_Intn e (size (cache c))) cert c.
Definition replace_with (e : E) (oldCert newCert : Certificate) (c : Cache) : Cache :=
  let c1 := removeCertificate oldCert c in
  replaceCertificate (x_MapOrder e c1) (x_Intn e (size (cache c1))) oldCert newCert c.

(** An OCSP error is only logged. *)
Definition makeCertificateWithOCSP (cfg : Config) (certPEM keyPEM : bytes) :
    ST (MState St E N) (result Certificate) := λ m,
  match makeCertificate x509_ParseCertificate blake3_hex tls_X509KeyPair certPEM keyPEM with
  | Err e => (Err e, m)
  | Ok cert =>
      let '((_, cert), m) := on_ocsp (stapleOCSP (m_now m) (cfg_OCSP cfg) cert (Some certPEM)) m in
      (Ok cert, m)
  end.

Definition makeCertificateFromDiskWithOCSP (cfg : Config) (certFile keyFile : string) :
    ST (MState St E N) (result Certificate) := λ m,
  match os_ReadFile (w_ext (m_world m)) certFile with
  | Err e => (Err e, m)
  | Ok certPEM =>
      match os_ReadFile (w_ext (m_world m)) keyFile with
      | Err e => (Err e, m)
      | Ok keyPEM => makeCertificateWithOCSP cfg certPEM keyPEM m
      end
  end.

Definition loadManagedCertificate (cfg : Config) (domain : string) :
    ST (MState St E N) (result Certificate) := λ m,
  match loadCertResourceAnyIssuer (w_storage (m_world m)) (iss_IssuerKey <$> Issuers cfg) domain with
  | Err e => (Err e, m)
  | Ok certRes =>
      match makeCertificateWithOCSP cfg (CertificatePEM certRes) (PrivateKeyPEM certRes) m with
      | (Err e, m) => (Err e, m)
      | (Ok cert, m) =>
          let cert := with_managed (res_issuerKey certRes) cert in
          let cert := match getARI certRes with
                      | Ok (Some a) => with_ari a cert
                      | _ => cert
                      end in
          (Ok cert, m)
      end
  end.

Definition cacheCert (cert : Certificate) : ST (MState St E N) unit :=
  on_cache (λ e, cache_with e cert).

(** [cached_managed_cert] is emitted; the result is ignored. *)
Definition emit_cached (cfg : Config) (managed : bool) (names : list string) :
    ST (MState St E N) unit := λ m,
  (tt, snd (on_world (emit cfg (cached_cert managed names)) m)).

Definition CacheManagedCertificate (cfg : Config) (domain : string) :
    ST (MState St E N) (result Certificate) := λ m,
  let domain := transformSubject cfg domain in
  match loadManagedCertificate cfg domain m with
  | (Err e, m) => (Err e, m)
  | (Ok cert, m) =>
      let '(_, m) := cacheCert cert m in
      let '(_, m) := emit_cached cfg true (Names cert) m in
      (Ok cert, m)
  end.

(** The three ways to add an unmanaged certificate; each returns the hash. *)
Definition cacheUnmanaged (cfg : Config) (cert : Certificate) (tags : list string) :
    ST (MState St E N) (result string) := λ m,
  let cert := with_Tags tags cert in
  let '(_, m) := cacheCert cert m in
  let '(_, m) := emit_cached cfg false (Names cert) m in
  (Ok (hash cert), m).

Definition CacheUnmanagedCertificatePEMFile (cfg : Config) (certFile keyFile : string)
    (tags : list string) : ST (MState St E N) (result string) := λ m,
  match makeCertificateFromDiskWithOCSP cfg certFile keyFile m with
  | (Err e, m) => (Err e, m)
  | (Ok cert, m) => cacheUnmanaged cfg cert tags m
  end.

Definition CacheUnmanagedCertificatePEMBytes (cfg : Config) (certBytes keyBytes : bytes)
    (tags : list string) : ST (MState St E N) (result string) := λ m,
  match makeCertificateWithOCSP cfg certBytes keyBytes m with
  | (Err e, m) => (Err e, m)
  | (Ok cert, m) => cacheUnmanaged cfg cert tags m
  end.

(** Here the event is emitted before the tags are set and the certificate is
    cached. *)
Definition CacheUnmanagedTLSCertificate (cfg : Config) (tlsCert : TLSCertificate)
    (tags : list string) : ST (MState St E N) (result string) := λ m,
  match fillCertFromLeaf x509_ParseCertificate blake3_hex zeroCertificate tlsCert with
  | Err e => (Err e, m)
  | Ok cert =>
      let '((_, cert), m) := on_ocsp (stapleOCSP (m_now m) (cfg_OCSP cfg) cert None) m in
      let '(_, m) := emit_cached cfg false (Names cert) m in
      let cert := with_Tags tags cert in
      let '(_, m) := cacheCert cert m in
      (Ok (hash cert), m)
  end.

(** [cert.Names[0]]; [None] is the index out of range. *)
Definition firstName (cert : Certificate) : option string := head (Names cert).

Definition managedCertInStorageNeedsRenewal (cfg : Config) (cert : Certificate) m :
    result bool :=
  match firstName cert with
  | None => Err (Panic "index out of range")
  | Some name =>
      match loadCertResourceAnyIssuer (w_storage (m_world m))
              (iss_IssuerKey <$> Issuers cfg) name with
      | Err e => Err e
      | Ok certRes =>
          match managedCertNeedsRenewal cfg (w_ext (m_world m)) certRes with
          | None => Err (Panic "invalid argument to Int63n")
          | Some (_, _, needsRenew) => Ok needsRenew
          end
      end
  end.

Definition reloadManagedCertificate (cfg : Config) (oldCert : Certificate) :
    ST (MState St E N) (result Certificate) := λ m,
  match firstName oldCert with
  | None => (Err (Panic "index out of range"), m)
  | Some name =>
      match loadManagedCertificate cfg name m with
      | (Err _, m) => (Err (Errorf "loading managed certificate from storage"), m)
      | (Ok newCert, m) =>
          let '(_, m) := on_cache (λ e, replace_with e oldCert newCert) m in
          (Ok newCert, m)
      end
  end.

(** ** Forced renewal *)

Definition is_revoked (cert : Certificate) : bool :=
  match ocsp cert with Some o => bool_decide (Status o = OCSPRevoked) | None => false end.

Definition certShouldBeForceRenewed (cert : Certificate) : bool :=
  managed cert && (0 <? length (Names cert))%nat && is_revoked cert.

Definition moveCompromisedPrivateKey (cert : Certificate) (name : string) : ST St (result unit) :=
  λ s,
  let key := SitePrivateKey (issuerKey cert) name in
  match Load s key with
  | Err e => (Err e, s)
  | Ok privKeyPEM =>
      match Store (key +:+ ".compromised") privKeyPEM s with
      | (Err e, s) => (Err e, snd (Delete key s))
      | (Ok _, s) =>
          match Delete key s with
          | (Err e, s) => (Err e, s)
          | (Ok _, s) => (Ok tt, s)
          end
      end
  end.

(** [acme.ReasonKeyCompromise]. *)
Definition ReasonKeyCompromise : Z := 1.

Definition key_compromised (cert : Certificate) : bool :=
  match ocsp cert with
  | Some o => (RevocationReason o =? ReasonKeyCompromise)%Z
  | None => false
  end.

(** The request for a replacement: a certificate whose key is compromised is
    obtained anew, the others are renewed. *)
Definition force_request (cfg : Config) (cert : Certificate) (renewName : string) :
    ST (MState St E N) (result unit) := λ m,
  if key_compromised cert then
    let '(_, m) := on_world (on_storage (moveCompromisedPrivateKey cert renewName)) m in
    on_world (ObtainCertAsync cfg renewName) m
  else on_world (RenewCertAsync cfg renewName true) m.

(** The certificate is returned with an error too; a panic of the request
    unwinds. *)
Definition forceRenew (cfg : Config) (cert : Certificate) :
    ST (MState St E N) (Certificate * option error) := λ m,
  match firstName cert with
  | None => ((zeroCertificate, Some (Panic "index out of range")), m)
  | Some renewName =>
      let '(err, m) := force_request cfg cert renewName m in
      match err with
      | Err e =>
          if is_panic e then ((zeroCertificate, Some e), m)
          else
            let m := if is_revoked cert
                     then snd (on_cache (λ _, removeCertificate cert) m) else m in
            ((cert, Some (Wrapf "unable to forcefully get new certificate" e)), m)
      | Ok _ =>
          match reloadManagedCertificate cfg cert m with
          | (Ok newCert, m) => ((newCert, None), m)
          | (Err e, m) => ((zeroCertificate, Some e), m)
          end
      end
  end.
End manage.

(** ** Theorems *)

Section manage_theorems.
Context {St E N : Type} `{C : !Codec} `{!Storage St} `{X : !External St E}
  `{!OCSPNet N} `{TL : !TLSLib E}.
Implicit Types m : MState St E N.

(** The certificates made from PEM have the names their hash stands for, and
    the eviction order and number fit the cache. *)
Context (names_of : string → list string).
Definition make_consistent : Prop := ∀ certPEM keyPEM cert,
  makeCertificate x509_ParseCertificate blake3_hex tls_X509KeyPair certPEM keyPEM = Ok cert →
  consistent names_of cert.
Definition evictions_valid : Prop := ∀ (e : E) (c : Cache),
  atCapacity c = true → valid_choice (x_MapOrder e c) (x_Intn e (size (cache c))) c.

Lemma stapled_fields cert b resp :
  hash (stapled cert b resp) = hash cert ∧ Names (stapled cert b resp) = Names cert.
Proof. unfold stapled. by destruct (decide _). Qed.

Lemma stapleOCSP_fields now cfg cert pb (s : St) (n : N) r cert' s' n' :
  stapleOCSP now cfg cert pb (s, n) = ((r, cert'), (s', n')) →
  hash cert' = hash cert ∧ Names cert' = Names cert.
Proof. intros [->|(b & resp & -> & _)]%stapleOCSP_cases; [done|]. apply stapled_fields. Qed.

Lemma makeCertificateWithOCSP_Ok cfg certPEM keyPEM m cert m' :
  make_consistent →
  makeCertificateWithOCSP cfg certPEM keyPEM m = (Ok cert, m') →
  consistent names_of cert ∧ m_cache m' = m_cache m.
Proof.
  intros Hmk. unfold makeCertificateWithOCSP.
  destruct (makeCertificate _ _ _ _ _) as [c0|] eqn:E0; [|done]. apply Hmk in E0 as [Hh Hn].
  unfold on_ocsp. destruct (stapleOCSP _ _ _ _ _) as [[r c1] [s n]] eqn:E1.
  apply stapleOCSP_fields in E1 as [Eh En]. intros [= <- <-]. split; [|done].
  unfold consistent. by rewrite Eh, En.
Qed.

Lemma loadManagedCertificate_Ok cfg domain m cert m' :
  make_consistent →
  loadManagedCertificate cfg domain m = (Ok cert, m') →
  consistent names_of cert ∧ m_cache m' = m_cache m ∧ managed cert = true ∧
  ∃ res, loadCertResourceAnyIssuer (w_storage (m_world m)) (iss_IssuerKey <$> Issuers cfg) domain
           = Ok res ∧ issuerKey cert = res_issuerKey res.
Proof.
  intros Hmk. unfold loadManagedCertificate.
  destruct (loadCertResourceAnyIssuer _ _ _) as [res|]; [|done].
  destruct (makeCertificateWithOCSP _ _ _ m) as [[c0|] m1] eqn:E1; [|done].
  apply makeCertificateWithOCSP_Ok in E1 as [Hc Hm]; [|done].
  intros [= <- <-]. destruct (getARI res) as [[a|]|]; simpl; eauto 10.
Qed.

Lemma cached_findable e cert c n :
  evictions_valid → cache_inv names_of c → consistent names_of cert → n ∈ Names cert →
  ∃ cert', cert' ∈ getAllMatchingCerts (cache_with e cert c) n ∧ hash cert' = hash cert.
Proof.
  intros Hev Hinv Hc Hn. pose proof (Hev e c) as Hch. unfold cache_with.
  set (order := x_MapOrder e c) in *. set (rnd := x_Intn e _) in *.
  pose proof (unsyncedCacheCertificate_inv _ order rnd cert c Hc Hch Hinv) as Hinv'.
  setoid_rewrite (getAllMatchingCerts_elem names_of); [|exact Hinv'].
  assert (∃ cert', cache (cacheCertificate order rnd cert c) !! hash cert = Some cert')
    as [cert' Hl].
  { unfold cacheCertificate.
    destruct (unsyncedCacheCertificate_cases _ order rnd cert c Hch Hinv)
      as [ex Hex ->|_ _ ->|v _ _ _ _ ->]; simpl; rewrite ?lookup_insert_eq; eauto.
    destruct (Tags cert); [eauto|]. unfold updateCached. rewrite Hex. simpl.
    rewrite lookup_insert_eq. eauto. }
  pose proof (inv_hash _ _ Hinv' _ _ Hl) as Hh.
  destruct (inv_consistent _ _ Hinv' _ _ Hl) as [_ HN].
  exists cert'. destruct Hc as [_ Hcn]. rewrite Hh. split; [|done]. split; [done|].
  by rewrite HN, Hh, <-Hcn.
Qed.

Lemma cache_with_inv e cert c :
  evictions_valid → cache_inv names_of c → consistent names_of cert →
  cache_inv names_of (cache_with e cert c).
Proof. intros Hev Hinv Hc. apply unsyncedCacheCertificate_inv; [done|apply Hev|done]. Qed.

Lemma emit_cached_cache cfg b names m u m' :
  emit_cached cfg b names m = (u, m') → m_cache m' = m_cache m.
Proof. unfold emit_cached, on_world. destruct (emit _ _ _). by intros [= _ <-]. Qed.

(** (C33) A managed certificate that is loaded into the cache is served: after
    [CacheManagedCertificate] succeeds the returned certificate is marked
    managed with the issuer whose resource was loaded, a certificate with its
    hash is found in the cache under each of its names, and the index of the
    cache is still consistent. *)
Theorem CacheManagedCertificate_findable cfg domain m cert m' :
  make_consistent → evictions_valid → cache_inv names_of (m_cache m) →
  CacheManagedCertificate cfg domain m = (Ok cert, m') →
  managed cert = true ∧
  (∃ res, loadCertResourceAnyIssuer (w_storage (m_world m)) (iss_IssuerKey <$> Issuers cfg)
            (transformSubject cfg domain) = Ok res ∧ issuerKey cert = res_issuerKey res) ∧
  cache_inv names_of (m_cache m') ∧
  (∀ n, n ∈ Names cert → ∃ cert',
     cert' ∈ getAllMatchingCerts (m_cache m') n ∧ hash cert' = hash cert).
Proof.
  intros Hmk Hev Hinv. unfold CacheManagedCertificate.
  destruct (loadManagedCertificate _ _ m) as [[c0|] m1] eqn:E1; [|done].
  apply loadManagedCertificate_Ok in E1 as (Hc & Hm & Hman & Hres); [|done].
  unfold cacheCert, on_cache. destruct (emit_cached _ _ _ _) as [u' m3] eqn:E3.
  apply emit_cached_cache in E3. simpl in E3. intros [= <- <-]. rewrite E3, Hm.
  split; [done|]. split; [done|]. split; [by apply cache_with_inv|].
  intros n Hn. by apply cached_findable.
Qed.

Lemma reloadManagedCertificate_Ok cfg oldCert m cert m' :
  make_consistent → evictions_valid → cache_inv names_of (m_cache m) →
  consistent names_of oldCert →
  reloadManagedCertificate cfg oldCert m = (Ok cert, m') →
  managed cert = true ∧ consistent names_of cert ∧ cache_inv names_of (m_cache m') ∧
  (∀ n, n ∈ Names cert → ∃ c, c ∈ getAllMatchingCerts (m_cache m') n ∧ hash c = hash cert) ∧
  (hash cert ≠ hash oldCert →
   ∀ n c, hash c = hash oldCert → c ∉ getAllMatchingCerts (m_cache m') n).
Proof.
  intros Hmk Hev Hinv Ho. unfold reloadManagedCertificate.
  destruct (firstName oldCert) as [name|]; [|done].
  destruct (loadManagedCertificate cfg name m) as [[c1|] m1] eqn:E1; [|done].
  apply loadManagedCertificate_Ok in E1 as (Hc & Hm & Hman & _); [|done].
  unfold on_cache. intros [= <- <-]. simpl. rewrite Hm.
  set (e := w_ext (m_world m1)). set (c0 := removeCertificate oldCert (m_cache m)).
  assert (cache_inv names_of c0) as Hinv0 by (by apply removeCertificate_inv).
  change (replace_with e oldCert c1 (m_cache m)) with (cache_with e c1 c0).
  pose proof (cache_with_inv e c1 c0 Hev Hinv0 Hc) as Hinv1.
  split; [done|]. split; [done|]. split; [done|].
  split; [intros n Hn; by apply cached_findable|].
  intros Hne n c Hh Hin. apply (getAllMatchingCerts_elem names_of) in Hin as [Hin _]; [|done].
  assert (cache c0 !! hash oldCert = None) as Hgone
    by (unfold c0; simpl; by rewrite lookup_delete_eq).
  clearbody c0.
  revert Hin. unfold cache_with, cacheCertificate. rewrite Hh.
  destruct (unsyncedCacheCertificate_cases names_of (x_MapOrder e c0)
    (x_Intn e (size (cache c0))) c1 c0 (Hev e c0) Hinv0)
    as [ex Hex ->|_ _ ->|v _ _ _ _ ->]; simpl.
  - destruct (Tags c1); [by rewrite Hgone|]. unfold updateCached. rewrite Hex. simpl.
    by rewrite lookup_insert_ne, Hgone.
  - by rewrite lookup_insert_ne, Hgone.
  - rewrite lookup_insert_ne by done. rewrite lookup_delete_Some. intros [_ H].
    by rewrite Hgone in H.
Qed.

Lemma loadManagedCertificate_cache cfg domain m r m' :
  loadManagedCertificate cfg domain m = (r, m') → m_cache m' = m_cache m.
Proof.
  unfold loadManagedCertificate. destruct (loadCertResourceAnyIssuer _ _ _) as [res|]; [|by intros [= _ <-]].
  unfold makeCertificateWithOCSP. destruct (makeCertificate _ _ _ _ _); [|by intros [= _ <-]].
  unfold on_ocsp. destruct (stapleOCSP _ _ _ _ _) as [[? ?] [? ?]]. by intros [= _ <-].
Qed.

Lemma force_request_cache cfg cert name m r m' :
  force_request cfg cert name m = (r, m') → m_cache m' = m_cache m.
Proof.
  unfold force_request, on_world. destruct (key_compromised cert).
  - destruct (on_storage _ _) as [u w1]. simpl.
    destruct (ObtainCertAsync cfg name w1) as [r2 w2]. by intros [= _ <-].
  - destruct (RenewCertAsync cfg name true _) as [r2 w2]. by intros [= _ <-].
Qed.

(** No certificate with the hash of [cert] is found in the cache. *)
Definition not_served (cert : Certificate) (c : Cache) : Prop :=
  ∀ n c', hash c' = hash cert → c' ∉ getAllMatchingCerts c n.

Lemma removed_not_served cert c :
  consistent names_of cert → cache_inv names_of c → not_served cert (removeCertificate cert c).
Proof.
  intros Hc Hinv n c' Hh Hin.
  apply (getAllMatchingCerts_elem names_of) in Hin as [Hin _]; [|by apply removeCertificate_inv].
  simpl in Hin. rewrite Hh in Hin. by rewrite lookup_delete_eq in Hin.
Qed.

(** (C16) What [forceRenew] does with a revoked certificate, by the outcome of
    the request for another one. When the request fails, the revoked certificate
    is taken out of the cache and is found under no name. When it succeeds and
    the certificate in storage can be loaded, this one is returned, marked
    managed, and found in the cache under each of its names, and the revoked one
    is found under no name if it is a different certificate. When the
    certificate in storage cannot be loaded, or the request panics, an error is
    returned and the cache is as before: the revoked certificate stays. *)
Theorem forceRenew_revoked cfg cert name m r m1 cert' err m' :
  make_consistent → evictions_valid → cache_inv names_of (m_cache m) →
  consistent names_of cert → is_revoked cert = true → firstName cert = Some name →
  force_request cfg cert name m = (r, m1) →
  forceRenew cfg cert m = ((cert', err), m') →
  match r with
  | Err e =>
      is_Some err ∧
      (if is_panic e then m_cache m' = m_cache m else cert' = cert ∧ not_served cert (m_cache m'))
  | Ok _ =>
      match fst (loadManagedCertificate cfg name m1) with
      | Ok new =>
          err = None ∧ cert' = new ∧ managed new = true ∧
          (∀ n, n ∈ Names new → ∃ c, c ∈ getAllMatchingCerts (m_cache m') n ∧ hash c = hash new) ∧
          (hash new ≠ hash cert → not_served cert (m_cache m'))
      | Err _ => is_Some err ∧ m_cache m' = m_cache m
      end
  end.
Proof.
  intros Hmk Hev Hinv Hcons Hrev Hname Hreq. unfold forceRenew. rewrite Hname, Hreq.
  pose proof (force_request_cache _ _ _ _ _ _ Hreq) as Hm1. destruct r as [[]|e].
  - destruct (reloadManagedCertificate cfg cert m1) as [[c1|e] m2] eqn:E2; intros [= <- <- <-].
    + pose proof E2 as E3. unfold reloadManagedCertificate in E3. rewrite Hname in E3.
      destruct (loadManagedCertificate cfg name m1) as [[c2|] m3]; [|done]. injection E3 as <- _. simpl.
      apply reloadManagedCertificate_Ok in E2; [|done|done|by rewrite Hm1|done]. unfold not_served. tauto.
    + unfold reloadManagedCertificate in E2. rewrite Hname in E2.
      destruct (loadManagedCertificate cfg name m1) as [[c2|] m3] eqn:E3; [done|]. injection E2 as _ <-. simpl.
      apply loadManagedCertificate_cache in E3. split; [done|congruence].
  - destruct (is_panic e); [by intros [= <- <- <-]|]. rewrite Hrev. unfold on_cache. intros [= <- <- <-].
    simpl. rewrite Hm1. split; [done|]. split; [done|]. by apply removed_not_served.
Qed.
End manage_theorems.

(** A compromised private key is taken out of use: when
    [moveCompromisedPrivateKey] succeeds nothing is stored under the key's name
    and its data is kept under the name with the suffix, so that no later
    request can reuse the key; other files are untouched. *)
Theorem moveCompromisedPrivateKey_moves `{!Storage St} `{!StorageLaws St} cert name (s s' : St) pem :
  let key := SitePrivateKey (issuerKey cert) name in
  contents s !! key = Some pem →
  moveCompromisedPrivateKey cert name s = (Ok tt, s') →
  contents s' !! key = None ∧ contents s' !! (key +:+ ".compromised") = Some pem ∧
  (∀ k, under key k = false → k ≠ key +:+ ".compromised" → contents s' !! k = contents s !! k).
Proof.
  intros key Hpem. unfold moveCompromisedPrivateKey. fold key.
  rewrite (Load_contents _ _ _ Hpem).
  destruct (Store _ pem s) as [[[]|] s1] eqn:E1; [|done].
  destruct (Delete key s1) as [[[]|] s2] eqn:E2; [|done]. intros [= <-].
  rewrite (Delete_Ok _ _ _ E2), (Store_Ok _ _ _ _ E1).
  assert (under key (key +:+ ".compromised") = false) as Hu.
  { unfold under. apply orb_false_iff. split.
    - apply String.eqb_neq. intros Eq. apply (f_equal String.length) in Eq.
      rewrite length_append in Eq. simpl in Eq. lia.
    - apply not_true_iff_false. rewrite HasPrefix_spec. intros [t Ht].
      rewrite append_assoc in Ht. by apply append_inj_l in Ht. }
  split; [|split].
  - apply map_lookup_filter_None. right. intros v _. simpl. by rewrite under_refl.
  - apply map_lookup_filter_Some. split; [by rewrite lookup_insert_eq|done].
  - intros k Hk Hne. rewrite map_lookup_filter, lookup_insert_ne by done.
    destruct (contents s !! k); [|done]. simpl. by rewrite option_guard_True.
Qed.

(** ** Concrete runs *)
Module SimTLS.
#[export] Instance sim_TLSLib : TLSLib SimExternal.t := {
  tls_X509KeyPair certPEM _ := Ok (MkTLSCertificate [certPEM] "" None);
  blake3_hex b := "h:" +:+ b;
  x_MapOrder _ c := getAllCerts c;
  x_Intn _ _ := 0%nat;
  os_ReadFile _ _ := Err ErrNotExist
}.

Definition names (h : string) : list string := ["a.com"].

Lemma sim_make_consistent : make_consistent (E := SimExternal.t) names.
Proof.
  intros certPEM keyPEM cert H. vm_compute in H. injection H as <-.
  split; [vm_compute; discriminate|reflexivity].
Qed.

Lemma sim_evictions_valid : evictions_valid (E := SimExternal.t).
Proof.
  intros e c Hc. unfold atCapacity in Hc. split; [done|]. reflect_bools. simpl. lia.
Qed.

Definition cache0 : Cache := MkCache ex_options ∅ ∅.
Lemma cache0_inv : cache_inv names cache0.
Proof. by apply (NewCache_inv names ex_options). Qed.

Definition state0 : MState MemStorage.t SimExternal.t SimNet.t :=
  MkM ex_obtained (SimNet.Mk 0) cache0.
End SimTLS.
Export (hints) SimTLS.

Section manage_runs.
Import SimTLS.

Definition ex_loaded := CacheManagedCertificate ex_cfg "a.com" state0.

Lemma CacheManagedCertificate_findable_witness :
  match ex_loaded with
  | (Ok cert, m') =>
      managed cert = true ∧
      (∃ res, loadCertResourceAnyIssuer (w_storage (m_world state0))
                (iss_IssuerKey <$> Issuers ex_cfg) "a.com" = Ok res ∧
              issuerKey cert = res_issuerKey res) ∧
      cache_inv names (m_cache m') ∧
      (∀ n, n ∈ Names cert → ∃ cert',
         cert' ∈ getAllMatchingCerts (m_cache m') n ∧ hash cert' = hash cert)
  | (Err _, _) => False
  end.
Proof.
  destruct ex_loaded as [[cert|e] m'] eqn:E1.
  - exact (CacheManagedCertificate_findable names ex_cfg "a.com" state0 cert m'
             sim_make_consistent sim_evictions_valid cache0_inv E1).
  - vm_compute in E1. discriminate.
Defined.

Definition ex_revoked : Certificate :=
  MkCertificate (MkTLSCertificate ["old"] "" (Some (PlainCodec.ex_x509 3))) ["a.com"] []
    (Some (MkOCSPResponse OCSPRevoked 0 10 0 None)) "h:old" true "two" zeroRenewalInfo.
(** The cache holds the revoked certificate and another process holds the lock
    of its name, so that the renewal fails at once. *)
Definition ex_canceled_state : MState MemStorage.t SimExternal.t SimNet.t :=
  MkM (MkWorld (MemStorage.Mk ∅ {["issue_cert_a.com"]} ∅) ∅ (SimExternal.Mk (5 * Second) [] 1) [])
    (SimNet.Mk 0) (cache_with (SimExternal.Mk 0 [] 0) ex_revoked cache0).

Lemma ex_revoked_consistent : consistent names ex_revoked.
Proof. split; [discriminate|reflexivity]. Qed.

Lemma forceRenew_revoked_witness :
  let '((cert', err), m') := forceRenew ex_cfg ex_revoked ex_canceled_state in
  is_Some err ∧ cert' = ex_revoked ∧ not_served ex_revoked (m_cache m').
Proof.
  destruct (force_request ex_cfg ex_revoked "a.com" ex_canceled_state) as [r m1] eqn:E0.
  destruct (forceRenew ex_cfg ex_revoked ex_canceled_state) as [[cert' err] m'] eqn:E1.
  pose proof (forceRenew_revoked names ex_cfg ex_revoked "a.com" ex_canceled_state r m1 cert' err m'
    sim_make_consistent sim_evictions_valid
    (cache_with_inv names _ _ _ sim_evictions_valid cache0_inv
       ex_revoked_consistent)
    ex_revoked_consistent
    eq_refl eq_refl E0 E1) as H.
  assert (∃ e, r = Err e ∧ is_panic e = false) as (e & Hr & Hp).
  { vm_compute in E0. injection E0 as <- _. by eexists. }
  rewrite Hr, Hp in H. exact H.
Defined.

Lemma moveCompromisedPrivateKey_moves_witness :
  let key := SitePrivateKey "two" "a.com" in
  let s := w_storage ex_obtained in
  let s' := snd (moveCompromisedPrivateKey ex_revoked "a.com" s) in
  ∃ pem, contents s !! key = Some pem ∧ contents s' !! key = None ∧
    contents s' !! (key +:+ ".compromised") = Some pem ∧
    (∀ k, under key k = false → k ≠ key +:+ ".compromised" → contents s' !! k = contents s !! k).
Proof.
  intros key s s'.
  destruct (contents s !! key) as [pem|] eqn:Ek; [|vm_compute in Ek; discriminate].
  exists pem. split; [reflexivity|].
  apply (moveCompromisedPrivateKey_moves ex_revoked "a.com" s s' pem); [exact Ek|].
  vm_compute. reflexivity.
Defined.
End manage_runs.
