(* ===== verification/Handshake.v ===== *)
(** * Certificates during TLS handshakes (handshake.go)

    How a certificate is chosen for a client hello: from the cache, from
    external managers, from storage or, on demand, from an issuer, with the
    maintenance that a handshake triggers. The methods call each other in
    cycles; each is written with its recursive calls as an argument, and
    [handshake] ties the knot with fuel.

    One goroutine is modelled. The maps of wait channels are sets of names;
    what happens while this goroutine waits is a parameter, the scheduler,
    which may change the whole state. Goroutines that are started are recorded
    as jobs. A panic is an error that passes through all callers; on the way the
    deferred functions run, and nothing else. *)

From S2P Require Import Prelude GoStrings Certificates Cache Storage Crypto OCSP Config Manage.
From Stdlib Require Import Ascii.
Open Scope string_scope.

(** ** Names *)

Definition normalizedName (serverName : string) : string := ToLower (TrimSpace serverName).

(** The host of a local address without its scope ID; [None] is a nil
    connection. *)
Definition localIPFromConn (localAddr : option string) : string :=
  match localAddr with
  | None => ""
  | Some addr =>
      let ip := match SplitHostPort addr with Ok (host, _) => host | Err _ => addr end in
      match IndexByte ip "%" with Some i => string_take i ip | None => ip end
  end.

Definition getNameFromClientHello `{!Codec} (cfg : Config) (hello : ClientHelloInfo) :
    result string :=
  match idna_LookupToASCII (TrimSpace (ServerName hello)) with
  | Err e => Err e
  | Ok name =>
      if negb (name =? "") then Ok name
      else if negb (DefaultServerName cfg =? "") then Ok (normalizedName (DefaultServerName cfg))
      else Ok (localIPFromConn (hello_LocalAddr hello))
  end.

(** ** Selection *)

(** The loop of [DefaultCertificateSelector]. Certificates in the cache always
    have a leaf. *)
Fixpoint selector_loop (now : Time) (hello : ClientHelloInfo) (choices : list Certificate)
    (best : Certificate) : Certificate :=
  match choices with
  | [] => best
  | choice :: rest =>
      if negb (SupportsCertificate hello (tls choice)) then selector_loop now hello rest best
      else
        match Leaf choice with
        | Some leaf =>
            if time_After now (NotBefore leaf) && time_Before now (expiresAt (Leaf choice))
            then choice else selector_loop now hello rest choice
        | None => selector_loop now hello rest choice
        end
  end.

Definition DefaultCertificateSelector (now : Time) (hello : ClientHelloInfo)
    (choices : list Certificate) : result Certificate :=
  match choices with
  | [choice] => Ok choice
  | [] => Err (Errorf "no certificates available")
  | first :: _ => Ok (selector_loop now hello choices first)
  end.

(** [all] is the cache in the order of the map. *)
Definition selectCert (cfg : Config) (now : Time) (all : list Certificate) (c : Cache)
    (hello : ClientHelloInfo) (name : string) : Certificate * bool :=
  let choices := getAllMatchingCerts c name in
  match CertSelection cfg with
  | None =>
      match choices with
      | [] => (zeroCertificate, false)
      | _ => match DefaultCertificateSelector now hello choices with
             | Ok cert => (cert, true)
             | Err _ => (zeroCertificate, false)
             end
      end
  | Some select =>
      let choices := match choices with [] => all | _ => choices end in
      match select hello choices with
      | Ok cert => (cert, true)
      | Err _ => (zeroCertificate, false)
      end
  end.

(** The loop over the wildcard forms of the name: the first that is matched. *)
Fixpoint select_first (select : string → Certificate * bool) (candidates : list string) :
    Certificate * bool :=
  match candidates with
  | [] => (zeroCertificate, false)
  | candidate :: rest =>
      match select candidate with
      | (cert, true) => (cert, true)
      | (_, false) => select_first select rest
      end
  end.

(** The certificate, whether it matched, and whether it is a default. *)
Definition getCertificateFromCache (cfg : Config) (now : Time) (all : list Certificate)
    (c : Cache) (hello : ClientHelloInfo) : Certificate * bool * bool :=
  let select := selectCert cfg now all c hello in
  let name := normalizedName (ServerName hello) in
  let by_ip := match hello_LocalAddr hello with
               | Some _ => select (localIPFromConn (hello_LocalAddr hello))
               | None => (zeroCertificate, false)
               end in
  let by_default := if negb (DefaultServerName cfg =? "")
                    then select (normalizedName (DefaultServerName cfg))
                    else (zeroCertificate, false) in
  let by_fallback := if negb (FallbackServerName cfg =? "")
                     then select (normalizedName (FallbackServerName cfg))
                     else (zeroCertificate, false) in
  if name =? "" then
    if snd by_ip then (fst by_ip, true, false)
    else if snd by_default then (fst by_default, false, true)
    else (fst by_fallback, false, snd by_fallback)
  else
    let exact := select name in
    let wildcard := select_first select (wildcard_candidates name) in
    if snd exact then (fst exact, true, false)
    else if snd wildcard then (fst wildcard, true, false)
    else (fst by_fallback, false, snd by_fallback).

(** ** Permission *)

Definition checkIfCertShouldBeObtained (cfg : Config) (name : string) (requireOnDemand : bool) :
    result unit :=
  match OnDemand cfg with
  | None =>
      if requireOnDemand then Err (Errorf "not configured for on-demand certificate issuance")
      else if negb (SubjectQualifiesForCert name)
      then Err (Errorf "subject name does not qualify for certificate")
      else Ok tt
  | Some od =>
      if negb (SubjectQualifiesForCert name)
      then Err (Errorf "subject name does not qualify for certificate")
      else
        match od_DecisionFunc od with
        | Some decide_func =>
            match decide_func name with
            | Err e => Err (Wrapf "decision func" e)
            | Ok _ => Ok tt
            end
        | None =>
            if (0 <? size (od_hostAllowlist od))%nat && negb (bool_decide (name ∈ od_hostAllowlist od))
            then Err (Errorf "certificate is not managed")
            else Ok tt
        end
  end.

(** ** State *)

(** Goroutines started by a handshake. *)
Inductive job :=
| JobUpdateARI (cert : Certificate)
| JobRenew (name : string) (cert : Certificate).

Record HState (St E N : Type) := MkH {
  h_m : MState St E N;
  h_loadWait : gset string;      (* certLoadWaitChans *)
  h_obtainWait : gset string;    (* obtainCertWaitChans *)
  h_jobs : list job
}.
Arguments MkH {St E N}.
Arguments h_m {St E N}.
Arguments h_loadWait {St E N}.
Arguments h_obtainWait {St E N}.
Arguments h_jobs {St E N}.

Inductive wait_kind := WaitLoad | WaitObtain.
Inductive wait_outcome := WaitTimeout | WaitCtxDone | WaitClosed.

(** What the cyclic calls are: the whole lookup without loading, and the
    maintenance of a certificate. *)
Inductive hs_call := CallGetCert | CallMaintain (cert : Certificate).

(** A Go result pair; a nil error is [None]. *)
Abbreviation cert_err := (Certificate * option error)%type (only parsing).

(** The call has panicked. *)
Definition panicked (res : cert_err) : bool :=
  match snd res with Some e => is_panic e | None => false end.

Section handshake.
Context {St E N : Type} `{C : !Codec} `{!Storage St} `{X : !External St E}
  `{!OCSPNet N} `{TL : !TLSLib E}.
(** [acme.RenewalInfo.NeedsRefresh] at a time. *)
Context (ari_NeedsRefresh : Time → RenewalInfo → bool).
(** The scheduler: what happens while waiting on the channel of a name. *)
Context (wait : wait_kind → string → ST (HState St E N) wait_outcome).
Context (cfg : Config) (hello : ClientHelloInfo).
Implicit Types h : HState St E N.

Definition on_m {A} (f : ST (MState St E N) A) : ST (HState St E N) A := λ h,
  let '(r, m) := f (h_m h) in (r, MkH m (h_loadWait h) (h_obtainWait h) (h_jobs h)).
Definition set_loadWait (ws : gset string) h : HState St E N :=
  MkH (h_m h) ws (h_obtainWait h) (h_jobs h).
Definition set_obtainWait (ws : gset string) h : HState St E N :=
  MkH (h_m h) (h_loadWait h) ws (h_jobs h).
Definition spawn (j : job) h : HState St E N :=
  MkH (h_m h) (h_loadWait h) (h_obtainWait h) (h_jobs h ++ [j])%list.
Definition h_now h : Time := m_now (h_m h).
Definition h_cache h : Cache := m_cache (h_m h).
Definition h_storage h : St := w_storage (m_world (h_m h)).
Definition h_ext h : E := w_ext (m_world (h_m h)).

Definition fromCache h : Certificate * bool * bool :=
  getCertificateFromCache cfg (h_now h) (x_MapOrder (h_ext h) (h_cache h)) (h_cache h) hello.

(** ** External managers *)

Fixpoint managers_loop (managers : list (ClientHelloInfo → result (option TLSCertificate)))
    (last : result (option TLSCertificate)) : result (option TLSCertificate) :=
  match managers with
  | [] => last
  | getCertificate :: rest =>
      match getCertificate hello with
      | Err e => managers_loop rest (Err e)
      | Ok None => managers_loop rest (Ok None)
      | Ok (Some cert) => Ok (Some cert)
      end
  end.

Definition getCertFromAnyCertManager : result Certificate :=
  match OnDemand cfg with
  | None => Ok zeroCertificate
  | Some od =>
      match managers_loop (od_Managers od) (Ok None) with
      | Err _ => Err (Errorf "external certificate manager indicated that it is unable to yield certificate")
      | Ok None => Ok zeroCertificate
      | Ok (Some upstreamCert) =>
          match fillCertFromLeaf x509_ParseCertificate blake3_hex zeroCertificate upstreamCert with
          | Err _ => Err (Errorf "filling cert from leaf")
          | Ok cert => Ok cert
          end
      end
  end.

(** ** The methods, with their cyclic calls as the argument [rec] *)
Context (rec : hs_call → ST (HState St E N) cert_err).

Definition wildcard_variant (name : string) : string :=
  Join ("*" :: tail (Split name ".")) ".".

Definition loadCertFromStorage : ST (HState St E N) cert_err := λ h,
  match getNameFromClientHello cfg hello with
  | Err e => ((zeroCertificate, Some e), h)
  | Ok name =>
      let '(r, h) := on_m (CacheManagedCertificate cfg name) h in
      let '(r, h) :=
        match r with
        | Err e => if errors_Is e ErrNotExist
                   then on_m (CacheManagedCertificate cfg (wildcard_variant name)) h
                   else (r, h)
        | Ok _ => (r, h)
        end in
      match r with
      | Err e => ((zeroCertificate, Some (Wrapf "no matching certificate to load" e)), h)
      | Ok loadedCert =>
          (* an error of the maintenance is only logged *)
          let '(res, h) := rec (CallMaintain loadedCert) h in
          if panicked res then (res, h) else ((fst res, None), h)
      end
  end.

Definition obtainOnDemandCertificate : ST (HState St E N) cert_err := λ h,
  match getNameFromClientHello cfg hello with
  | Err e => ((zeroCertificate, Some e), h)
  | Ok name =>
      if decide (name ∈ h_obtainWait h) then
        match wait WaitObtain name h with
        | (WaitClosed, h) => rec CallGetCert h
        | (_, h) => ((zeroCertificate, Some (Errorf "timed out waiting to obtain certificate")), h)
        end
      else
        let h := set_obtainWait ({[name]} ∪ h_obtainWait h) h in
        let '(r, h) := on_m (on_world (ObtainCertAsync cfg name)) h in
        let '(res, h) :=
          match r with
          | Ok _ => loadCertFromStorage h
          | Err e => ((zeroCertificate, Some e), h)
          end in
        (res, if panicked res then h else set_obtainWait (h_obtainWait h ∖ {[name]}) h)
  end.

(** The function [renewAndReload]; it ends by unblocking the waiters, unless it
    panics. *)
Definition renewAndReload (name : string) (currentCert : Certificate) :
    ST (HState St E N) cert_err := λ h,
  let unblock h := set_obtainWait (h_obtainWait h ∖ {[name]}) h in
  match checkIfCertShouldBeObtained cfg name true with
  | Err e =>
      let '(_, h) := on_m (on_cache (λ _, removeCertificate currentCert)) h in
      ((zeroCertificate, Some e), unblock h)
  | Ok _ =>
      let '(res, h) :=
        if is_revoked currentCert then on_m (forceRenew cfg currentCert) h
        else
          match on_m (on_world (RenewCertAsync cfg name false)) h with
          | (Err e, h) => ((zeroCertificate, Some e), h)
          | (Ok _, h) =>
              match on_m (reloadManagedCertificate cfg currentCert) h with
              | (Ok newCert, h) => ((newCert, None), h)
              | (Err e, h) => ((zeroCertificate, Some e), h)
              end
          end in
      (res, if panicked res then h else unblock h)
  end.

Definition renewDynamicCertificate (currentCert : Certificate) : ST (HState St E N) cert_err := λ h,
  match getNameFromClientHello cfg hello with
  | Err e => ((zeroCertificate, Some e), h)
  | Ok name =>
      let timeLeft := time_Until (h_now h) (expiresAt (Leaf currentCert)) in
      if decide (name ∈ h_obtainWait h) then
        if (0 <? timeLeft)%Z && negb (is_revoked currentCert) then ((currentCert, None), h)
        else
          match wait WaitObtain name h with
          | (WaitClosed, h) => rec CallGetCert h
          | (_, h) => ((zeroCertificate, Some (Errorf "timed out waiting for certificate renewal")), h)
          end
      else
        let h := set_obtainWait ({[name]} ∪ h_obtainWait h) h in
        if (0 <? timeLeft)%Z then ((currentCert, None), spawn (JobRenew name currentCert) h)
        else renewAndReload name currentCert h
  end.

Definition renewIfNecessary (cert : Certificate) : ST (HState St E N) cert_err := λ h,
  match Leaf cert with
  | None => ((cert, Some (Errorf "leaf certificate is unexpectedly nil")), h)
  | Some _ =>
      match certNeedsRenewal (cfg_renewal cfg) (x_Int63n (h_ext h)) (h_now h) (Leaf cert) (ari cert) with
      | None => ((cert, Some (Panic "invalid argument to Int63n")), h)
      | Some false => ((cert, None), h)
      | Some true =>
          match firstName cert with
          | None => ((cert, Some (Panic "index out of range")), h)
          | Some name0 =>
              if negb (storageHasCertResourcesAnyIssuer (h_storage h) cfg name0)
              then obtainOnDemandCertificate h
              else renewDynamicCertificate cert h
          end
      end
  end.

(** The refreshed staple is written to the cache under the hash, whether or not
    the certificate is still there. *)
Definition refresh_staple (cert : Certificate) : ST (HState St E N) Certificate := λ h,
  match ocsp cert with
  | Some o =>
      if negb (freshOCSP (h_now h) o) then
        let '((_, cert), h) := on_m (on_ocsp (stapleOCSP (h_now h) (cfg_OCSP cfg) cert None)) h in
        let '(_, h) := on_m (on_cache (λ _, writeBack cert)) h in
        (cert, h)
      else (cert, h)
  | None => (cert, h)
  end.

Definition handshakeMaintenance (cert : Certificate) : ST (HState St E N) cert_err := λ h,
  let '(cert, h) := refresh_staple cert h in
  let refresh := negb (DisableARI (cfg_renewal cfg)) && ari_NeedsRefresh (h_now h) (ari cert) in
  match Leaf cert, refresh with
  | None, true => ((zeroCertificate, Some (Panic "nil pointer dereference")), h)
  | leaf, _ =>
      let unexpired := match leaf with
                       | Some leaf => time_Before (h_now h) (NotAfter leaf)
                       | None => false
                       end in
      let h := if refresh && unexpired then spawn (JobUpdateARI cert) h else h in
      if certShouldBeForceRenewed cert then renewDynamicCertificate cert h
      else renewIfNecessary cert h
  end.

Definition optionalMaintenance (cert : Certificate) : ST (HState St E N) cert_err := λ h,
  match handshakeMaintenance cert h with
  | ((newCert, None), h) => ((newCert, None), h)
  | ((_, Some err), h) =>
      if is_panic err then ((zeroCertificate, Some err), h)
      else if Expired (h_now h) cert then ((cert, Some err), h) else ((cert, None), h)
  end.

(** [float64(cacheSize) >= cacheCapacity*.9]. *)
Definition cacheAlmostFull (c : Cache) : bool :=
  let cacheCapacity := float64_of_Z (Capacity (options c)) in
  (0 <? Capacity (options c))%Z &&
  float64_leb (float64_mul cacheCapacity (ratio_of 9 10)) (float64_of_Z (Z.of_nat (size (cache c)))).

(** The part of [getCertDuringHandshake] that runs while the name is being
    loaded by this goroutine. *)
Definition getCert_load (name : string) (cert : Certificate) (defaulted load : bool) :
    ST (HState St E N) cert_err := λ h,
  match getCertFromAnyCertManager with
  | Err e => ((zeroCertificate, Some e), h)
  | Ok externalCert =>
      if negb (Empty externalCert) then ((externalCert, None), h)
      else
        match checkIfCertShouldBeObtained cfg name false with
        | Err e =>
            ((zeroCertificate, Some (Wrapf "certificate is not allowed for server name" e)), h)
        | Ok _ =>
            let onDemand := match OnDemand cfg with Some _ => true | None => false end in
            if (onDemand || cacheAlmostFull (h_cache h)) && load then
              match loadCertFromStorage h with
              | ((loadedCert, None), h) => ((loadedCert, None), h)
              | ((loadedCert, Some e), h) =>
                  if is_panic e then ((zeroCertificate, Some e), h)
                  else if onDemand then obtainOnDemandCertificate h
                  else ((loadedCert, None), h)
              end
            else if defaulted then ((cert, None), h)
            else ((zeroCertificate, Some (Errorf "no certificate available")), h)
        end
  end.

Definition getCertDuringHandshake (load : bool) : ST (HState St E N) cert_err := λ h,
  let '(cert, matched, defaulted) := fromCache h in
  if matched then
    match OnDemand cfg with
    | Some _ => if managed cert && load then optionalMaintenance cert h else ((cert, None), h)
    | None => ((cert, None), h)
    end
  else
    match getNameFromClientHello cfg hello with
    | Err e => ((zeroCertificate, Some e), h)
    | Ok name =>
        if decide (name ∈ h_loadWait h) then
          match wait WaitLoad name h with
          | (WaitTimeout, h) =>
              ((zeroCertificate, Some (Errorf "timed out waiting to load certificate")), h)
          | (WaitCtxDone, h) => ((zeroCertificate, Some Canceled), h)
          | (WaitClosed, h) => rec CallGetCert h
          end
        else
          let h := set_loadWait ({[name]} ∪ h_loadWait h) h in
          let '(res, h) := getCert_load name cert defaulted load h in
          (res, set_loadWait (h_loadWait h ∖ {[name]}) h)
    end.
End handshake.

(** The cyclic calls, to the depth of the fuel. *)
Fixpoint hs_rec {St E N : Type} `{C : !Codec} `{!Storage St} `{X : !External St E}
    `{!OCSPNet N} `{TL : !TLSLib E} (fuel : nat) (ari_NeedsRefresh : Time → RenewalInfo → bool)
    (wait : wait_kind → string → ST (HState St E N) wait_outcome)
    (cfg : Config) (hello : ClientHelloInfo) (call : hs_call) : ST (HState St E N) cert_err :=
  match fuel with
  | O => mret (zeroCertificate, Some (Errorf "out of fuel"))
  | S fuel' =>
      let rec := hs_rec fuel' ari_NeedsRefresh wait cfg hello in
      match call with
      | CallGetCert => getCertDuringHandshake ari_NeedsRefresh wait cfg hello rec false
      | CallMaintain cert => handshakeMaintenance ari_NeedsRefresh wait cfg hello rec cert
      end
  end.

(** [cfg.getCertDuringHandshake(ctx, hello, true)]. *)
Definition handshake {St E N : Type} `{C : !Codec} `{!Storage St} `{X : !External St E}
    `{!OCSPNet N} `{TL : !TLSLib E} (fuel : nat) (ari_NeedsRefresh : Time → RenewalInfo → bool)
    (wait : wait_kind → string → ST (HState St E N) wait_outcome)
    (cfg : Config) (hello : ClientHelloInfo) : ST (HState St E N) cert_err :=
  getCertDuringHandshake ari_NeedsRefresh wait cfg hello
    (hs_rec fuel ari_NeedsRefresh wait cfg hello) true.

(** ** Selection theorems *)

(** Supported by the client and within its validity period. *)
Definition usable (now : Time) (hello : ClientHelloInfo) (cert : Certificate) : bool :=
  SupportsCertificate hello (tls cert) &&
  match Leaf cert with
  | Some leaf => time_After now (NotBefore leaf) && time_Before now (expiresAt (Leaf cert))
  | None => false
  end.

Lemma selector_loop_spec now hello choices best :
  let cert := selector_loop now hello choices best in
  (cert ∈ choices ∨ cert = best) ∧
  (∀ c, c ∈ choices → usable now hello c = true → usable now hello cert = true) ∧
  (∀ c, c ∈ choices → SupportsCertificate hello (tls c) = true →
        SupportsCertificate hello (tls cert) = true) ∧
  (SupportsCertificate hello (tls best) = true → SupportsCertificate hello (tls cert) = true).
Proof.
  revert best. induction choices as [|x rest IH]; intros best; simpl.
  { split; [by right|]. split; [by intros c ?%elem_of_nil|].
    split; [by intros c ?%elem_of_nil|done]. }
  destruct (SupportsCertificate hello (tls x)) eqn:Es; simpl.
  - destruct (usable now hello x) eqn:Eu.
    + assert ((match Leaf x with
        | Some leaf => if time_After now (NotBefore leaf) && time_Before now (expiresAt (Leaf x))
                       then x else selector_loop now hello rest x
        | None => selector_loop now hello rest x end) = x) as ->.
      { unfold usable in Eu. rewrite Es in Eu. simpl in Eu. destruct (Leaf x); [|done].
        by rewrite Eu. }
      split; [left; by left|]. auto.
    + assert ((match Leaf x with
        | Some leaf => if time_After now (NotBefore leaf) && time_Before now (expiresAt (Leaf x))
                       then x else selector_loop now hello rest x
        | None => selector_loop now hello rest x end) = selector_loop now hello rest x) as ->.
      { unfold usable in Eu. rewrite Es in Eu. simpl in Eu. destruct (Leaf x); [|done].
        by rewrite Eu. }
      destruct (IH x) as (H1 & H2 & H3 & H4). split; [|split; [|split]].
      * left. destruct H1 as [ | -> ]; [by right|by left].
      * intros c [->|Hin]%elem_of_cons Hc; [congruence|by eapply H2].
      * intros c _ _. by apply H4.
      * intros _. by apply H4.
  - destruct (IH best) as (H1 & H2 & H3 & H4). split; [|split; [|split; [|done]]].
    + destruct H1; [left; by right|by right].
    + intros c [->|Hin]%elem_of_cons Hc; [|by eapply H2].
      unfold usable in Hc. by rewrite Es in Hc.
    + intros c [->|Hin]%elem_of_cons Hc; [congruence|by eapply H3].
Qed.

Lemma DefaultCertificateSelector_chooses now hello choices :
  choices ≠ [] →
  ∃ cert, DefaultCertificateSelector now hello choices = Ok cert ∧ cert ∈ choices.
Proof.
  intros Hne. destruct choices as [|x [|y rest]]; [done|..].
  - exists x. split; [done|by left].
  - destruct (selector_loop_spec now hello (x :: y :: rest) x) as (H1 & _).
    eexists. split; [reflexivity|]. destruct H1 as [ | -> ]; [done|by left].
Qed.

(** [DefaultCertificateSelector] always chooses when there is a choice: the
    result is one of the choices; it is usable (supported by the client and
    currently valid) if any of them is, and supported if any is. *)
Theorem DefaultCertificateSelector_best now hello choices :
  choices ≠ [] →
  ∃ cert, DefaultCertificateSelector now hello choices = Ok cert ∧ cert ∈ choices ∧
    (∀ c, c ∈ choices → usable now hello c = true → usable now hello cert = true) ∧
    (∀ c, c ∈ choices → SupportsCertificate hello (tls c) = true →
          SupportsCertificate hello (tls cert) = true).
Proof.
  intros Hne. destruct choices as [|x [|y rest]]; [done|..].
  - exists x. split; [done|]. split; [by left|].
    split; by intros c ->%list_elem_of_singleton.
  - destruct (selector_loop_spec now hello (x :: y :: rest) x) as (H1 & H2 & H3 & _).
    eexists. split; [reflexivity|]. split; [|done]. destruct H1 as [ | -> ]; [done|by left].
Qed.

Definition ex_hello (sni : string) : ClientHelloInfo :=
  MkHello sni (Some "192.0.2.1:443") [] (λ _, true).

Lemma DefaultCertificateSelector_best_witness :
  ∃ cert, DefaultCertificateSelector 1 (ex_hello "a.com") [ex_cert "h1"; ex_cert "h2"] = Ok cert ∧
    cert ∈ [ex_cert "h1"; ex_cert "h2"] ∧
    (∀ c, c ∈ [ex_cert "h1"; ex_cert "h2"] → usable 1 (ex_hello "a.com") c = true →
          usable 1 (ex_hello "a.com") cert = true) ∧
    (∀ c, c ∈ [ex_cert "h1"; ex_cert "h2"] → SupportsCertificate (ex_hello "a.com") (tls c) = true →
          SupportsCertificate (ex_hello "a.com") (tls cert) = true).
Proof. apply DefaultCertificateSelector_best. discriminate. Defined.

Lemma selectCert_default cfg now all c hello name :
  CertSelection cfg = None →
  match selectCert cfg now all c hello name with
  | (cert, true) => cert ∈ getAllMatchingCerts c name
  | (_, false) => getAllMatchingCerts c name = []
  end.
Proof.
  intros Hs. unfold selectCert. rewrite Hs.
  destruct (getAllMatchingCerts c name) as [|x l] eqn:Ec; [done|].
  destruct (DefaultCertificateSelector_chooses now hello (x :: l)) as (cert & -> & Hin); [done|].
  done.
Qed.

Lemma select_first_spec cfg now all c hello cands :
  CertSelection cfg = None →
  match select_first (selectCert cfg now all c hello) cands with
  | (cert, true) => ∃ n, n ∈ cands ∧ cert ∈ getAllMatchingCerts c n
  | (_, false) => ∀ n, n ∈ cands → getAllMatchingCerts c n = []
  end.
Proof.
  intros Hs. induction cands as [|n cands IH]; simpl; [by intros n ?%elem_of_nil|].
  pose proof (selectCert_default cfg now all c hello n Hs) as Hn.
  destruct (selectCert cfg now all c hello n) as [cert [|]].
  - exists n. split; [by left|done].
  - destruct (select_first _ cands) as [cert' [|]].
    + destruct IH as (n' & Hin & Hc). exists n'. split; [by right|done].
    + intros n' [->|Hin]%elem_of_cons; [done|by apply IH].
Qed.

(** (C12) A client that names a server gets a certificate for that name whenever
    one is cached, and a match is never a certificate of another name: without
    custom selection, the lookup matches exactly when some cached certificate
    has a name that the wildcard rules accept, and the matched certificate is
    one of those. *)
Theorem getCertificateFromCache_matches names_of cfg now all c hello :
  let name := normalizedName (ServerName hello) in
  cache_inv names_of c → CertSelection cfg = None →
  name ≠ "" → ToLower name = name → Forall (λ l, l ≠ "") (Split name ".") →
  (∀ h cert, cache c !! h = Some cert → Forall (λ n, ToLower n = n) (Names cert)) →
  let '(cert, matched, defaulted) := getCertificateFromCache cfg now all c hello in
  (matched = true ↔
   ∃ cert', cache c !! hash cert' = Some cert' ∧
            ∃ n, n ∈ Names cert' ∧ MatchWildcard name n = true) ∧
  (matched = true → cache c !! hash cert = Some cert ∧
                    ∃ n, n ∈ Names cert ∧ MatchWildcard name n = true).
Proof.
  intros name Hinv Hsel Hne Hlow HF Hnames. unfold getCertificateFromCache. fold name.
  rewrite (proj2 (String.eqb_neq _ _) Hne).
  set (served := λ cert, cache c !! hash cert = Some cert ∧
                 ∃ n, n ∈ Names cert ∧ MatchWildcard name n = true).
  assert (∀ n cert, n = name ∨ n ∈ wildcard_candidates name →
            cert ∈ getAllMatchingCerts c n → served cert) as Hserved.
  { intros n cert Hn Hin. apply (getAllMatchingCerts_elem names_of) in Hin as [Hc Hin]; [|done].
    split; [done|]. exists n. split; [done|]. apply MatchWildcard_candidates_lower; [done|done|].
    pose proof (Hnames _ _ Hc) as HN. rewrite Forall_forall in HN. by rewrite (HN n Hin). }
  assert (getAllMatchingCerts c name = [] →
          (∀ n, n ∈ wildcard_candidates name → getAllMatchingCerts c n = []) →
          ¬ ∃ cert', served cert') as Hnone.
  { intros H1 H2 (cert' & Hc & n & Hin & HM). pose proof (Hnames _ _ Hc) as HN.
    rewrite Forall_forall in HN. apply MatchWildcard_candidates_lower in HM; [|done|done].
    rewrite (HN n Hin) in HM.
    assert (cert' ∈ getAllMatchingCerts c n) as Hm
      by (by apply (getAllMatchingCerts_elem names_of)).
    destruct HM as [->|HM]; [by rewrite H1 in Hm; apply elem_of_nil in Hm|].
    rewrite (H2 n HM) in Hm. by apply elem_of_nil in Hm. }
  pose proof (selectCert_default cfg now all c hello name Hsel) as H1.
  pose proof (select_first_spec cfg now all c hello (wildcard_candidates name) Hsel) as H2.
  destruct (selectCert cfg now all c hello name) as [cert1 [|]]; simpl.
  { pose proof (Hserved name cert1 (or_introl eq_refl) H1) as Hs.
    split; [|by intros _]. split; [by exists cert1|done]. }
  destruct (select_first _ _) as [cert2 [|]]; simpl.
  { destruct H2 as (n & Hn & Hin). pose proof (Hserved n cert2 (or_intror Hn) Hin) as Hs.
    split; [|by intros _]. split; [by exists cert2|done]. }
  split; [|done]. split; [done|]. intros Hex. exfalso. by apply Hnone.
Qed.

Lemma ex_names_lower h : Forall (λ n, ToLower n = n) (ex_names h).
Proof. unfold ex_names. destruct (h =? "h1"); [|destruct (h =? "h2")]; by repeat constructor. Qed.

Lemma getCertificateFromCache_matches_witness :
  let hello := ex_hello " A.com" in
  let '(cert, matched, defaulted) :=
    getCertificateFromCache (SimExternal.config []) 1 [] ex_cache hello in
  matched = true ∧
  (matched = true ↔
   ∃ cert', cache ex_cache !! hash cert' = Some cert' ∧
            ∃ n, n ∈ Names cert' ∧ MatchWildcard "a.com" n = true) ∧
  (matched = true → cache ex_cache !! hash cert = Some cert ∧
                    ∃ n, n ∈ Names cert ∧ MatchWildcard "a.com" n = true).
Proof.
  intros hello. pose proof (reachable_cache_inv _ _ ex_reachable) as Hinv.
  pose proof (getCertificateFromCache_matches ex_names (SimExternal.config []) 1 [] ex_cache hello)
    as H.
  destruct (getCertificateFromCache _ _ _ _ _) as [[cert matched] defaulted] eqn:Eg.
  assert (matched = true) by (vm_compute in Eg; congruence).
  split; [done|]. apply H; [done|done|done|done|by repeat constructor|].
  intros h c Hc. destruct (inv_consistent _ _ Hinv _ _ Hc) as [_ ->]. apply ex_names_lower.
Defined.

(** ** What a handshake may do *)

Section handshake_theorems.
Context {St E N : Type} `{C : !Codec} `{!Storage St} `{X : !External St E}
  `{!OCSPNet N} `{TL : !TLSLib E}.
Context (needsRefresh : Time → RenewalInfo → bool)
  (wait : wait_kind → string → ST (HState St E N) wait_outcome) (cfg : Config)
  (hello : ClientHelloInfo).
Implicit Types h : HState St E N.

(** Maintenance never takes a good certificate away: [optionalMaintenance]
    returns an error only with an expired certificate, and then it is the
    maintenance's own error; while the certificate is not expired a failed
    maintenance still serves it. A panic of the maintenance passes through. *)
Theorem optionalMaintenance_serves rec cert h cert' err h' :
  optionalMaintenance needsRefresh wait cfg hello rec cert h = ((cert', err), h') →
  match handshakeMaintenance needsRefresh wait cfg hello rec cert h with
  | ((newCert, None), h1) => cert' = newCert ∧ err = None ∧ h' = h1
  | ((_, Some e), h1) =>
      h' = h1 ∧ (err ≠ None → err = Some e) ∧
      (is_panic e = false → cert' = cert ∧ (err = None ↔ Expired (h_now h1) cert = false)) ∧
      (is_panic e = true → err = Some e)
  end.
Proof.
  unfold optionalMaintenance.
  destruct (handshakeMaintenance _ _ _ _ _ cert h) as [[c [e|]] h1]; [|by intros [= <- <- <-]].
  destruct (is_panic e); [by intros [= <- <- <-]|].
  destruct (Expired (h_now h1) cert) eqn:Ee; intros [= <- <- <-]; naive_solver.
Qed.

(** (C35) A handshake for a name that is neither cached nor allowed goes no
    further: when no external manager gives a certificate or fails, and no other
    goroutine is loading the name, the storage, the cache, the issuers and the
    other waiters are left alone, and the client gets an error. *)
Theorem handshake_denied fuel h name e :
  snd (fst (fromCache cfg hello h)) = false →
  getNameFromClientHello cfg hello = Ok name → name ∉ h_loadWait h →
  getCertFromAnyCertManager cfg hello = Ok zeroCertificate →
  checkIfCertShouldBeObtained cfg name false = Err e →
  handshake fuel needsRefresh wait cfg hello h =
    ((zeroCertificate, Some (Wrapf "certificate is not allowed for server name" e)), h).
Proof.
  intros Hm Hn Hw Hmgr Hck. unfold handshake, getCertDuringHandshake.
  destruct (fromCache cfg hello h) as [[cert matched] defaulted]. simpl in Hm. subst matched.
  rewrite Hn, decide_False by done. unfold getCert_load. rewrite Hmgr, Hck. simpl.
  f_equal. unfold set_loadWait. destruct h as [m lw ow jobs]. simpl in *. f_equal. set_solver.
Qed.

(** Who may get a certificate on demand: with a decision function exactly
    the qualifying names it accepts; without one, the qualifying names on the
    allowlist, or all of them if the list is empty. *)
Theorem checkIfCertShouldBeObtained_spec name requireOnDemand :
  is_Ok (checkIfCertShouldBeObtained cfg name requireOnDemand) = true ↔
  SubjectQualifiesForCert name = true ∧
  match OnDemand cfg with
  | None => requireOnDemand = false
  | Some od =>
      match od_DecisionFunc od with
      | Some f => is_Ok (f name) = true
      | None => od_hostAllowlist od = ∅ ∨ name ∈ od_hostAllowlist od
      end
  end.
Proof.
  unfold checkIfCertShouldBeObtained. destruct (OnDemand cfg) as [od|].
  - destruct (SubjectQualifiesForCert name); simpl; [|naive_solver].
    destruct (od_DecisionFunc od) as [f|].
    + destruct (f name); naive_solver.
    + destruct (Nat.ltb_spec 0 (size (od_hostAllowlist od))) as [Hs|Hs]; simpl.
      * case_bool_decide as Hin; simpl; [naive_solver|]. split; [done|].
        intros [_ [He|?]]; [|done]. rewrite He, size_empty in Hs. lia.
      * split; [|done]. intros _. split; [done|]. left.
        apply leibniz_equiv, size_empty_inv. lia.
  - destruct requireOnDemand, (SubjectQualifiesForCert name); simpl; naive_solver.
Qed.

(** Refreshing the staple of a certificate that is no longer cached corrupts
    the cache: the certificate is put back without index entries and without
    regard to the capacity, so that no lookup by name finds it and the index is
    inconsistent. *)
Theorem refresh_staple_orphans names_of cert o h cert' h' :
  cache_inv names_of (h_cache h) → cache (h_cache h) !! hash cert = None → Names cert ≠ [] →
  ocsp cert = Some o → freshOCSP (h_now h) o = false →
  refresh_staple cfg cert h = (cert', h') →
  cache (h_cache h') !! hash cert = Some cert' ∧
  size (cache (h_cache h')) = S (size (cache (h_cache h))) ∧
  (∀ n, hash cert ∉ index_of (h_cache h') n) ∧
  ¬ cache_inv names_of (h_cache h').
Proof.
  intros Hinv Hnone Hne Ho Hf. unfold refresh_staple. rewrite Ho, Hf. simpl.
  unfold on_m, on_ocsp. destruct (stapleOCSP _ _ _ _ _) as [[r c1] [s n]] eqn:Es. simpl.
  apply stapleOCSP_fields in Es as [Eh En]. intros [= <- <-]. unfold h_cache, writeBack in *. simpl.
  rewrite Eh, lookup_insert_eq. split; [done|].
  split; [by rewrite map_size_insert_None|].
  assert (∀ nm, hash cert ∉ default [] (cacheIndex (m_cache (h_m h)) !! nm)) as Hidx.
  { intros nm Hin. apply (inv_index _ _ Hinv nm (hash cert)) in Hin as (c & Hc & _). congruence. }
  split; [exact Hidx|]. intros Hinv'. destruct (Names cert) as [|nm names] eqn:Ens; [done|].
  apply (Hidx nm). apply (inv_index _ _ Hinv' nm (hash cert)). exists c1. simpl.
  rewrite lookup_insert_eq. split; [done|]. rewrite En. by left.
Qed.
End handshake_theorems.

(** ** Concrete runs *)
Section handshake_runs.
Import SimExternal SimTLS.

Abbreviation hstate := (HState MemStorage.t SimExternal.t SimNet.t) (only parsing).

Definition never_refresh (_ : Time) (_ : RenewalInfo) : bool := false.
(** Other goroutines finish what they obtain without success; a load that
    nobody finishes times out. *)
Definition ex_wait (k : wait_kind) (name : string) : ST hstate wait_outcome := λ h,
  match k with
  | WaitObtain => (WaitClosed, set_obtainWait (h_obtainWait h ∖ {[name]}) h)
  | WaitLoad => (WaitTimeout, h)
  end.

Definition with_OnDemand (od : option OnDemandConfig) (cfg : Config) : Config :=
  MkConfig (cfg_renewal cfg) (cfg_OnEvent cfg) (DefaultServerName cfg) (FallbackServerName cfg)
    od (MustStaple cfg) (Issuers cfg) (cfg_IssuerPolicy cfg) (ReusePrivateKeys cfg)
    (CertSelection cfg) (cfg_OCSP cfg) (DisableStorageCheck cfg) (SubjectTransformer cfg).

Definition allow_all : OnDemandConfig := MkOnDemand None [] ∅.
Definition deny_all : OnDemandConfig := MkOnDemand (Some (λ _, Err (Errorf "denied"))) [] ∅.

Definition ex_h (s : MemStorage.t) (c : Cache) (now : Time) (down : list string)
    (obtaining : gset string) : hstate :=
  MkH (MkM (MkWorld s ∅ (SimExternal.Mk now down 0) []) (SimNet.Mk 0) c) ∅ obtaining [].

Definition run (cfg : Config) (sni : string) : ST hstate (Certificate * option error) :=
  handshake 5 never_refresh ex_wait cfg (ex_hello sni).

Lemma handshake_denied_witness :
  let cfg := with_OnDemand (Some deny_all) ex_cfg in
  let h := ex_h MemStorage.empty cache0 0 [] ∅ in
  run cfg "a.com" h =
    ((zeroCertificate, Some (Wrapf "certificate is not allowed for server name"
                               (Wrapf "decision func" (Errorf "denied")))), h).
Proof.
  intros cfg h. unfold run.
  assert (snd (fst (fromCache cfg (ex_hello "a.com") h)) = false) as H1
    by (vm_compute; reflexivity).
  assert (getCertFromAnyCertManager cfg (ex_hello "a.com") = Ok zeroCertificate) as H2
    by (vm_compute; reflexivity).
  assert (checkIfCertShouldBeObtained cfg "a.com" false =
          Err (Wrapf "decision func" (Errorf "denied"))) as H3 by (vm_compute; reflexivity).
  exact (handshake_denied never_refresh ex_wait cfg (ex_hello "a.com") 5 h "a.com" _
           H1 eq_refl (not_elem_of_empty _) H2 H3).
Defined.

(** On success there may be no certificate: [getCertDuringHandshake] returns
    the empty certificate without an error when on-demand TLS is off and the
    cache is almost full, and when the certificate loaded from storage has
    expired and cannot be renewed. *)
Theorem handshake_empty_without_error :
  fst (run ex_cfg "b.com" (ex_h MemStorage.empty ex_cache 0 [] ∅)) = (zeroCertificate, None) ∧
  fst (run (with_OnDemand (Some allow_all) ex_cfg) "a.com"
         (ex_h (w_storage ex_obtained) cache0 (100 * 24 * Hour) ["one"; "two"] ∅))
  = (zeroCertificate, None).
Proof. split; vm_compute; reflexivity. Qed.

(** A handshake can wait for itself: when another goroutine fails to obtain
    the certificate this one waits for, the repeated lookup finds the name
    marked as being loaded, by this goroutine, and waits until it times out.
    No other goroutine was loading the name. *)
Theorem handshake_waits_for_itself :
  let h := ex_h MemStorage.empty cache0 0 [] {["a.com"]} in
  h_loadWait h = ∅ ∧
  fst (run (with_OnDemand (Some allow_all) ex_cfg) "a.com" h) =
    (zeroCertificate, Some (Errorf "timed out waiting to load certificate")).
Proof. split; vm_compute; reflexivity. Qed.

(** The certificate of the cache is expired and no longer in storage. *)
Definition ex_expired : Certificate :=
  MkCertificate (MkTLSCertificate ["old"] "" (Some (PlainCodec.ex_x509 3))) ["a.com"] [] None
    "h:old" true "two" zeroRenewalInfo.
Definition ex_stale_h (now : Time) : hstate :=
  ex_h MemStorage.empty (cache_with (SimExternal.Mk 0 [] 0) ex_expired cache0) now [] ∅.

(** The decision function can be bypassed: a cached certificate that needs
    renewal and is gone from storage is replaced without asking whether the
    name is still allowed; the issuer is asked for a certificate although the
    decision function denies every name. *)
Theorem handshake_bypasses_decision :
  let cfg := with_OnDemand (Some deny_all) ex_cfg in
  let h := ex_stale_h (100 * 24 * Hour) in
  is_Ok (checkIfCertShouldBeObtained cfg "a.com" true) = false ∧
  asked (w_trace (m_world (h_m (snd (run cfg "a.com" h))))) = ["one"].
Proof. split; vm_compute; reflexivity. Qed.

Lemma refresh_staple_orphans_witness :
  let o := MkOCSPResponse OCSPGood 0 10 0 None in
  let cert := with_ocsp (Some o) ex_expired in
  let h := ex_h MemStorage.empty cache0 100 [] ∅ in
  let '(cert', h') := refresh_staple ex_cfg cert h in
  cache (h_cache h') !! hash cert = Some cert' ∧
  size (cache (h_cache h')) = 1%nat ∧
  (∀ n, hash cert ∉ index_of (h_cache h') n) ∧
  ¬ cache_inv names (h_cache h').
Proof.
  intros o cert h. destruct (refresh_staple ex_cfg cert h) as [cert' h'] eqn:Er.
  apply (refresh_staple_orphans ex_cfg names cert o h cert' h' cache0_inv);
    [reflexivity|discriminate|reflexivity|reflexivity|exact Er].
Defined.
End handshake_runs.
