(* ===== verification/Maintain.v ===== *)
(** * Background maintenance (maintain.go)

    The passes that the maintenance goroutine of a cache makes over its
    certificates: [RenewManagedCertificates] finds those that are due, updates
    their renewal information, reloads those that another instance has renewed
    and queues the others for renewal; [updateOCSPStaples] refreshes staples
    and replaces revoked certificates. A scan runs under the read lock of the
    cache; what it queues is done afterwards. *)

From S2P Require Import Prelude GoStrings Certificates Cache Async Storage Crypto OCSP Config Manage.
Import KeyBuilder.
Open Scope string_scope.

(** The methods of the ACME package on renewal information, the issuers that
    give it, and its JSON form. *)
Class ACMELib (St E : Type) := {
  ari_SameWindow : RenewalInfo → RenewalInfo → bool;
  ari_HasWindow : RenewalInfo → bool;
  ari_NeedsRefresh : Time → RenewalInfo → bool;
  (** the issuer is a [RenewalInfoGetter] *)
  iss_RenewalInfoGetter : Issuer → bool;
  (** with an error, the first result is what the issuer returns with it *)
  x_GetRenewalInfo : Issuer → Certificate → ST (St * E) (RenewalInfo * option error);
  (** [json.Marshal] of the [acme.Certificate] that the data decodes to, with
      another renewal information *)
  json_SetRenewalInfo : bytes → RenewalInfo → result bytes
}.

(** [rand.Int63n] panics on an empty window. *)
Definition panic_Int63n : error := Panic "invalid argument to Int63n".

(** [certList.insert]. *)
Definition certList_insert (certs : list Certificate) (cert : Certificate) : list Certificate :=
  if existsb (λ c, hash c =? hash cert) certs then certs else (certs ++ [cert])%list.

(** What a scan queues, and the configuration of each queued certificate. *)
Record queues := MkQueues {
  configs : gmap string Config;
  renewQueue : list Certificate;
  reloadQueue : list Certificate;
  deleteQueue : list Certificate;
  ariQueue : list Certificate
}.
Definition no_queues : queues := MkQueues ∅ [] [] [] [].

Definition with_config (cert : Certificate) (cfg : Config) (q : queues) : queues :=
  MkQueues (<[hash cert := cfg]> (configs q)) (renewQueue q) (reloadQueue q) (deleteQueue q)
    (ariQueue q).
Definition queue_ari (cert : Certificate) (q : queues) : queues :=
  MkQueues (configs q) (renewQueue q) (reloadQueue q) (deleteQueue q) (ariQueue q ++ [cert])%list.
Definition queue_reload (cert : Certificate) (q : queues) : queues :=
  MkQueues (configs q) (renewQueue q) (reloadQueue q ++ [cert])%list (deleteQueue q) (ariQueue q).
Definition queue_delete (cert : Certificate) (q : queues) : queues :=
  MkQueues (configs q) (renewQueue q) (reloadQueue q) (deleteQueue q ++ [cert])%list (ariQueue q).
Definition queue_renew (cert : Certificate) (q : queues) : queues :=
  MkQueues (configs q) (certList_insert (renewQueue q) cert) (reloadQueue q) (deleteQueue q) (ariQueue q).

(** The closures that are submitted as jobs: the renewal of a cached certificate
    ([queueRenewalTask]), and the first certificate of a name and the renewal
    of one found in storage ([manageOne] of config.go). *)
Inductive task :=
| TaskRenewal (oldCert : Certificate) (cfg : Config)
| TaskManageObtain (cfg : Config) (domainName : string)
| TaskManageRenew (cfg : Config) (domainName : string) (cert : Certificate).

(** The state of the passes: that of the certificate operations, the job
    manager of the package and the closures of the jobs submitted to it, by
    their identity. *)
Record RState (St E N : Type) := MkR {
  r_m : MState St E N;
  r_jm : JobManager.jobManager;
  r_tasks : list task
}.
Arguments MkR {St E N}.
Arguments r_m {St E N}.
Arguments r_jm {St E N}.
Arguments r_tasks {St E N}.

Section maintain.
Context {St E N : Type} `{C : !Codec} `{!Storage St} `{X : !External St E}
  `{!OCSPNet N} `{TL : !TLSLib E} `{AL : !ACMELib St E}.
Implicit Types m : MState St E N.

(** ** Renewal information *)

(** The stored metadata: what is read of it, and the data it was decoded from. *)
Definition loadStoredACMECertificateMetadata (cert : Certificate) (s : St) :
    result (ACMEData * bytes) :=
  match firstName cert with
  | None => Err (Panic "index out of range")
  | Some name =>
      match Load s (SiteMeta (issuerKey cert) name) with
      | Err e => Err (Wrapf "loading cert metadata" e)
      | Ok metaBytes =>
          match json_UnmarshalMeta metaBytes with
          | Err e => Err (Wrapf "unmarshaling cert metadata" e)
          | Ok (_, issuerData) =>
              match json_UnmarshalACME issuerData with
              | Err _ => Err (Errorf "unmarshaling potential ACME issuer metadata")
              | Ok acmeCert => Ok (acmeCert, issuerData)
              end
          end
      end
  end.

(** [None] stands for false and the zero value. *)
Definition storageHasNewerARI (cert : Certificate) (s : St) : result (option RenewalInfo) :=
  match loadStoredACMECertificateMetadata cert s with
  | Err e => Err e
  | Ok (storedCert, _) =>
      match acme_RenewalInfo storedCert with
      | None => Ok None
      | Some stored =>
          match RetryAfter stored with
          | None => Ok None
          | Some retryAfter =>
              if negb (ari_HasWindow (ari cert)) && ari_HasWindow stored ||
                 match RetryAfter (ari cert) with
                 | None => true
                 | Some loaded => time_After retryAfter loaded
                 end
              then Ok (Some stored) else Ok None
          end
      end
  end.

(** The certificate in the cache gets the new information; the result is the
    certificate for the caller and whether it is cached. *)
Definition update_cached_ari (cert : Certificate) (newARI : RenewalInfo) :
    ST (MState St E N) (Certificate * bool) := λ m,
  match cache (m_cache m) !! hash cert with
  | None => ((with_ari newARI cert, false), m)
  | Some cached =>
      ((with_ari newARI cached, true),
       snd (on_cache (λ _, updateCached (hash cert) (with_ari newARI)) m))
  end.

(** The new information goes into the stored metadata. *)
Definition store_ari (cert : Certificate) (newARI : RenewalInfo) : ST St (option error) := λ s,
  match loadStoredACMECertificateMetadata cert s, firstName cert with
  | _, None => (Some (Panic "index out of range"), s)
  | Ok (_, issuerData), Some name =>
      match json_SetRenewalInfo issuerData newARI with
      | Err _ => (Some (Errorf "failed marshaling certificate ACME metadata"), s)
      | Ok certDataBytes =>
          match json_MarshalMeta (Names cert) certDataBytes with
          | Err _ => (Some (Errorf "could not re-encode certificate metadata"), s)
          | Ok certResBytes =>
              match Store (SiteMeta (issuerKey cert) name) certResBytes s with
              | (Err _, s) => (Some (Errorf "could not store it with certificate metadata"), s)
              | (Ok _, s) => (None, s)
              end
          end
      end
  | _, _ => (Some (Errorf "failed loading stored certificate metadata"), s)
  end.

(** The loop over the issuers. The result has the certificate to return, the
    last value of [newARI] and the error. *)
Fixpoint fetch_ari (cert : Certificate) (issuers : list Issuer) (newARI : RenewalInfo) :
    ST (MState St E N) (Certificate * RenewalInfo * option error) :=
  match issuers with
  | [] => mret (cert, newARI, Some (Errorf "could not fully update ACME renewal info"))
  | iss :: rest => λ m,
      if iss_RenewalInfoGetter iss && (iss_IssuerKey iss =? issuerKey cert) then
        match on_world (on_external (x_GetRenewalInfo iss cert)) m with
        | ((newARI, Some _), m) => fetch_ari cert rest newARI m
        | ((newARI, None), m) =>
            let newARI :=
              if ari_SameWindow newARI (ari cert) && negb (time_IsZero (SelectedTime (ari cert)))
              then MkRenewalInfo (WindowStart newARI) (WindowEnd newARI) (SelectedTime (ari cert))
                     (RetryAfter newARI) (UniqueIdentifier newARI)
              else newARI in
            let '((updatedCert, cached), m) := update_cached_ari cert newARI m in
            if cached then
              let '(err, m) := on_world (on_storage (store_ari cert newARI)) m in
              ((updatedCert, newARI, err), m)
            else ((updatedCert, newARI, None), m)
        end
      else fetch_ari cert rest newARI m
  end.

(** Under the lock. *)
Definition updateARI_locked (cfg : Config) (cert : Certificate) :
    ST (MState St E N) (Certificate * RenewalInfo * option error) := λ m,
  match storageHasNewerARI cert (w_storage (m_world m)) with
  | Ok (Some newARI) =>
      let '((updatedCert, _), m) := update_cached_ari cert newARI m in
      ((updatedCert, newARI, None), m)
  | Ok None => fetch_ari cert (Issuers cfg) zeroRenewalInfo m
  | Err e =>
      if is_panic e then ((cert, zeroRenewalInfo, Some e), m)
      else fetch_ari cert (Issuers cfg) zeroRenewalInfo m
  end.

(** The certificate, whether the window changed, and the error; a panic of the
    locked part runs the deferred functions. *)
Definition updateARI (cfg : Config) (cert : Certificate) :
    ST (MState St E N) (Certificate * bool * option error) := λ m,
  match Leaf cert with
  | None => ((cert, false, Some (Panic "nil pointer dereference")), m)
  | Some _ =>
      let lockName := "ari_" +:+ UniqueIdentifier (ari cert) in
      match on_world (on_locks (acquireLock 0 lockName)) m with
      | (Err _, m) => ((cert, false, Some (Errorf "unable to obtain ARI lock")), m)
      | (Ok _, m) =>
          let '((updatedCert, newARI, err), m) := updateARI_locked cfg cert m in
          let '(_, m) := on_world (on_locks (releaseLock 0 lockName)) m in
          ((updatedCert, negb (ari_SameWindow newARI (ari cert)), err), m)
      end
  end.

(** ** Renewals *)

(** The configuration for a certificate, as [getConfig] finds it. *)
Context (configFor : Certificate → result Config).

Definition needs_renewal (cfg : Config) (cert : Certificate) m : option bool :=
  NeedsRenewal (cfg_renewal cfg) (x_Int63n (w_ext (m_world m))) (m_now m) cert.

(** The body of the scan for one certificate; the error is a panic. *)
Definition scan_cert m (cert : Certificate) (q : queues) : result queues :=
  if negb (managed cert) then Ok q
  else if (length (Names cert) =? 0)%nat then Ok (queue_delete cert q)
  else
    match configFor cert with
    | Err _ => Ok q
    | Ok cfg =>
        match OnDemand cfg with
        | Some _ => Ok q
        | None =>
            let q := if negb (DisableARI (cfg_renewal cfg)) && ari_NeedsRefresh (m_now m) (ari cert)
                     then queue_ari cert (with_config cert cfg q) else q in
            match needs_renewal cfg cert m with
            | None => Err panic_Int63n
            | Some false => Ok q
            | Some true =>
                let q := with_config cert cfg q in
                match managedCertInStorageNeedsRenewal cfg cert m with
                | Ok false => Ok (queue_reload cert q)
                | Ok true => Ok (queue_renew cert q)
                | Err e => if is_panic e then Err e else Ok (queue_renew cert q)
                end
            end
        end
    end.

(** The scan; [certs] is the cache in the order of the iteration. *)
Fixpoint scan m (certs : list Certificate) (q : queues) : result queues :=
  match certs with
  | [] => Ok q
  | cert :: rest =>
      match scan_cert m cert q with
      | Err e => Err e
      | Ok q => scan m rest q
      end
  end.

(** The error of a panic. *)
Definition panic_of (err : option error) : option error :=
  match err with Some e => if is_panic e then Some e else None | None => None end.

(** The loop over the queue of renewal information; its errors are logged. *)
Fixpoint update_aris (cfgs : gmap string Config) (certs : list Certificate)
    (renew : list Certificate) : ST (MState St E N) (result (list Certificate)) :=
  match certs with
  | [] => mret (Ok renew)
  | cert :: rest => λ m,
      match cfgs !! hash cert with
      | None => (Err (Panic "nil pointer dereference"), m)
      | Some cfg =>
          let '((cert, changed, err), m) := updateARI cfg cert m in
          match panic_of err with
          | Some e => (Err e, m)
          | None =>
              if changed then
                match needs_renewal cfg cert m with
                | None => (Err panic_Int63n, m)
                | Some needs => update_aris cfgs rest (if needs then certList_insert renew cert else renew) m
                end
              else update_aris cfgs rest renew m
          end
      end
  end.

(** Errors are logged. *)
Fixpoint reload_all (cfgs : gmap string Config) (certs : list Certificate) :
    ST (MState St E N) (result unit) :=
  match certs with
  | [] => mret (Ok tt)
  | oldCert :: rest => λ m,
      match cfgs !! hash oldCert with
      | None => (Err (Panic "nil pointer dereference"), m)
      | Some cfg =>
          match reloadManagedCertificate cfg oldCert m with
          | (Err e, m) => if is_panic e then (Err e, m) else reload_all cfgs rest m
          | (Ok _, m) => reload_all cfgs rest m
          end
      end
  end.

(** The closure of a renewal job. *)
Definition renewal_task (cfg : Config) (oldCert : Certificate) (renewName : string) :
    ST (MState St E N) (result unit) := λ m,
  match on_world (RenewCertAsync cfg renewName false) m with
  | (Err e, m) =>
      if is_panic e then (Err e, m)
      else
        let m := match OnDemand cfg with
                 | Some _ => snd (on_cache (λ _, removeCertificate oldCert) m)
                 | None => m
                 end in
        (Err (Errorf "renewal"), m)
  | (Ok _, m) =>
      match reloadManagedCertificate cfg oldCert m with
      | (Err e, m) => if is_panic e then (Err e, m) else (Err (ErrNoRetry (Errorf "reload")), m)
      | (Ok _, m) => (Ok tt, m)
      end
  end.

Definition renew_job_name (renewName : string) : string := "renew_" +:+ renewName.

(** The job manager runs the closure later, if at all. *)
Definition queueRenewalTask (oldCert : Certificate) (cfg : Config) :
    ST (RState St E N) (result unit) := λ r,
  match firstName oldCert with
  | None => (Err (Panic "index out of range"), r)
  | Some renewName =>
      let j := JobManager.MkJob (renew_job_name renewName) (length (r_tasks r)) in
      (Ok tt, MkR (r_m r) (fst (JobManager.Submit j (r_jm r)))
                (r_tasks r ++ [TaskRenewal oldCert cfg])%list)
  end.

Fixpoint queue_all (cfgs : gmap string Config) (certs : list Certificate) :
    ST (RState St E N) (result unit) :=
  match certs with
  | [] => mret (Ok tt)
  | oldCert :: rest => λ r,
      match cfgs !! hash oldCert with
      | None => (Err (Panic "nil pointer dereference"), r)
      | Some cfg =>
          match queueRenewalTask oldCert cfg r with
          | (Err e, r) => (Err e, r)
          | (Ok _, r) => queue_all cfgs rest r
          end
      end
  end.

Definition delete_queued (certs : list Certificate) (c : Cache) : Cache :=
  foldl (λ c cert, removeCertificate cert c) c certs.

(** An error is a panic; the method itself returns nil. *)
Definition RenewManagedCertificates : ST (RState St E N) (result unit) := λ r,
  let m := r_m r in
  match scan m (x_MapOrder (w_ext (m_world m)) (m_cache m)) no_queues with
  | Err e => (Err e, r)
  | Ok q =>
      match update_aris (configs q) (ariQueue q) (renewQueue q) m with
      | (Err e, m) => (Err e, MkR m (r_jm r) (r_tasks r))
      | (Ok renew, m) =>
          match reload_all (configs q) (reloadQueue q) m with
          | (Err e, m) => (Err e, MkR m (r_jm r) (r_tasks r))
          | (Ok _, m) =>
              match queue_all (configs q) renew (MkR m (r_jm r) (r_tasks r)) with
              | (Err e, r) => (Err e, r)
              | (Ok _, r) =>
                  let m := snd (on_cache (λ _, delete_queued (deleteQueue q)) (r_m r)) in
                  (Ok tt, MkR m (r_jm r) (r_tasks r))
              end
          end
      end
  end.

(** ** Staples *)

Record updateQueueEntry := MkUpdate {
  uq_cert : Certificate;
  uq_lastNextUpdate : Time;
  uq_cfg : Config
}.

(** The scan for staples: certificates to staple and to replace. *)
Definition scan_staple (now : Time) (cert : Certificate)
    (q : list updateQueueEntry * list (Certificate * Config)) :
    list updateQueueEntry * list (Certificate * Config) :=
  let '(upd, renew) := q in
  match Leaf cert with
  | None => q
  | Some _ =>
      if Expired now cert then q
      else
        match configFor cert with
        | Err _ => q
        | Ok cfg =>
            if certShouldBeForceRenewed cert then (upd, (renew ++ [(cert, cfg)])%list)
            else
              match ocsp cert with
              | None => ((upd ++ [MkUpdate cert 0 cfg])%list, renew)
              | Some o =>
                  if negb (bool_decide (Status o = OCSPUnknown)) && freshOCSP now o then q
                  else ((upd ++ [MkUpdate cert (NextUpdate o) cfg])%list, renew)
              end
        end
  end.

Abbreviation updates := (list (string * (bytes * option OCSPResponse))) (only parsing).

(** One entry of the queue: the certificate is stapled, the update is noted
    and a revoked certificate is queued for replacement. *)
Definition staple_entry (qe : updateQueueEntry) (upd : updates)
    (renew : list (Certificate * Config)) :
    ST (MState St E N) (updates * list (Certificate * Config)) := λ m,
  let '((r, cert), m) := on_ocsp (stapleOCSP (m_now m) (cfg_OCSP (uq_cfg qe)) (uq_cert qe) None) m in
  match r with
  | Err _ => ((upd, renew), m)
  | Ok _ =>
      let upd :=
        match ocsp cert with
        | Some o =>
            if bool_decide (Status o = OCSPGood) &&
               (time_IsZero (uq_lastNextUpdate qe) || negb (uq_lastNextUpdate qe =? NextUpdate o)%Z)
            then (upd ++ [(hash (uq_cert qe), (tls_OCSPStaple (tls cert), ocsp cert))])%list
            else upd
        | None => upd
        end in
      if certShouldBeForceRenewed cert then
        let reason := match ocsp cert with Some o => RevocationReason o | None => 0%Z end in
        let '(_, m) := on_world (emit (uq_cfg qe) (cert_ocsp_revoked (Names cert) reason)) m in
        ((upd, (renew ++ [(cert, uq_cfg qe)])%list), m)
      else ((upd, renew), m)
  end.

Fixpoint staple_all (queue : list updateQueueEntry) (upd : updates)
    (renew : list (Certificate * Config)) :
    ST (MState St E N) (updates * list (Certificate * Config)) :=
  match queue with
  | [] => mret (upd, renew)
  | qe :: rest => λ m,
      let '((upd, renew), m) := staple_entry qe upd renew m in staple_all rest upd renew m
  end.

Definition apply_updates (upd : updates) (c : Cache) : Cache :=
  foldl (λ c u, updateCached (fst u) (λ cert, with_staple (fst (snd u)) (with_ocsp (snd (snd u)) cert)) c)
    c upd.

(** Errors are logged. *)
Fixpoint force_all (renew : list (Certificate * Config)) : ST (MState St E N) (result unit) :=
  match renew with
  | [] => mret (Ok tt)
  | (oldCert, cfg) :: rest => λ m,
      let '((_, err), m) := forceRenew cfg oldCert m in
      match panic_of err with
      | Some e => (Err e, m)
      | None => force_all rest m
      end
  end.

(** An error is a panic; the method returns nothing. *)
Definition updateOCSPStaples : ST (MState St E N) (result unit) := λ m,
  let order := x_MapOrder (w_ext (m_world m)) (m_cache m) in
  let '(queue, renew) := foldl (λ q cert, scan_staple (m_now m) cert q) ([], []) order in
  let '((upd, renew), m) := staple_all queue [] renew m in
  let '(_, m) := on_cache (λ _, apply_updates upd) m in
  force_all renew m.
End maintain.

(** ** Theorems *)

Section maintain_theorems.
Context {St E N : Type} `{C : !Codec} `{!Storage St} `{X : !External St E}
  `{!OCSPNet N} `{TL : !TLSLib E} `{AL : !ACMELib St E}.
Context (names_of : string → list string) (configFor : Certificate → result Config).
Implicit Types m : MState St E N.

(** *** The passes as executions of the cache *)

(** The iteration over the cache visits each certificate once. *)
Definition orders_valid : Prop := ∀ (e : E) c, x_MapOrder e c ≡ₚ getAllCerts c.

Definition cache_runs m m' : Prop := rtc (method_step names_of) (m_cache m) (m_cache m').

Lemma cache_runs_refl m : cache_runs m m.
Proof. apply rtc_refl. Qed.
Lemma cache_runs_trans m1 m2 m3 : cache_runs m1 m2 → cache_runs m2 m3 → cache_runs m1 m3.
Proof. intros H1 H2. unfold cache_runs in *. by etrans. Qed.
Lemma cache_runs_same m m' : m_cache m' = m_cache m → cache_runs m m'.
Proof. unfold cache_runs. intros ->. apply rtc_refl. Qed.
Lemma cache_runs_step m m' :
  method_step names_of (m_cache m) (m_cache m') → cache_runs m m'.
Proof. apply rtc_once. Qed.
Hint Resolve cache_runs_refl cache_runs_same cache_runs_step : certmagic.

Lemma on_world_cache {A} (f : ST (World St E) A) m r m' :
  on_world f m = (r, m') → m_cache m' = m_cache m.
Proof. unfold on_world. destruct (f _). by intros [= _ <-]. Qed.

Lemma on_ocsp_cache {A} (f : ST (St * N) A) m r m' :
  on_ocsp f m = (r, m') → m_cache m' = m_cache m.
Proof. unfold on_ocsp. destruct (f _) as [? [? ?]]. by intros [= _ <-]. Qed.

Lemma reloadManagedCertificate_runs cfg cert m r m' :
  make_consistent names_of → evictions_valid (E := E) → consistent names_of cert →
  reloadManagedCertificate cfg cert m = (r, m') → cache_runs m m'.
Proof.
  intros Hmk Hev Hc. unfold reloadManagedCertificate.
  destruct (firstName cert); [|intros [= _ <-]; auto with certmagic].
  destruct (loadManagedCertificate cfg _ m) as [[c1|] m1] eqn:E1.
  - pose proof (loadManagedCertificate_cache _ _ _ _ _ E1) as Hm1.
    apply (loadManagedCertificate_Ok names_of) in E1 as (Hc1 & _); [|done].
    unfold on_cache. intros [= _ <-]. unfold cache_runs. simpl. rewrite Hm1.
    apply replaceCertificate_steps; [done|done|]. apply Hev.
  - apply loadManagedCertificate_cache in E1. intros [= _ <-]. auto with certmagic.
Qed.

Lemma on_cache_runs f m :
  method_step names_of (m_cache m) (f (w_ext (m_world m)) (m_cache m)) →
  cache_runs m (snd (on_cache f m)).
Proof. intros Hs. by apply cache_runs_step. Qed.

Lemma forceRenew_runs cfg cert m r m' :
  make_consistent names_of → evictions_valid (E := E) → consistent names_of cert →
  forceRenew cfg cert m = (r, m') → cache_runs m m'.
Proof.
  intros Hmk Hev Hc. unfold forceRenew.
  destruct (firstName cert) as [name|]; [|intros [= _ <-]; auto with certmagic].
  destruct (force_request cfg cert name m) as [r1 m1] eqn:E1. apply force_request_cache in E1. intros Hrun.
  eapply cache_runs_trans; [by apply cache_runs_same|]. clear E1.
  destruct r1 as [[]|e]; revert Hrun.
  - destruct (reloadManagedCertificate cfg cert m1) as [[c1|e] m2] eqn:E2; intros [= _ <-];
      by eapply reloadManagedCertificate_runs.
  - destruct (is_panic e); [intros [= _ <-]; apply cache_runs_refl|].
    intros [= _ <-]. destruct (is_revoked cert); [|apply cache_runs_refl].
    apply cache_runs_step. by constructor.
Qed.

Lemma update_cached_ari_runs cert a m r m' :
  update_cached_ari cert a m = (r, m') → cache_runs m m'.
Proof.
  unfold update_cached_ari. destruct (cache (m_cache m) !! hash cert);
    intros [= _ <-]; [|auto with certmagic].
  apply cache_runs_step. by constructor.
Qed.

Lemma fetch_ari_runs cert issuers a m r m' :
  fetch_ari cert issuers a m = (r, m') → cache_runs m m'.
Proof.
  revert a m. induction issuers as [|iss issuers IH]; intros a m; simpl.
  { intros [= _ <-]. apply cache_runs_refl. }
  destruct (_ && _); [|apply IH].
  destruct (on_world _ m) as [[a1 [e|]] m1] eqn:E1; apply on_world_cache in E1;
    (intros Hrun; eapply cache_runs_trans; [by apply cache_runs_same|]).
  - by eapply IH.
  - revert Hrun. destruct (update_cached_ari cert _ m1) as [[c cached] m2] eqn:E2.
    apply update_cached_ari_runs in E2. destruct cached; [|by intros [= _ <-]].
    destruct (on_world (on_storage _) m2) as [r3 m3] eqn:E3. apply on_world_cache in E3.
    intros [= _ <-]. eapply cache_runs_trans; [exact E2|by apply cache_runs_same].
Qed.

Lemma updateARI_runs cfg cert m r m' :
  updateARI cfg cert m = (r, m') → cache_runs m m'.
Proof.
  unfold updateARI. destruct (Leaf cert); [|intros [= _ <-]; apply cache_runs_refl].
  destruct (on_world _ m) as [[[]|e] m1] eqn:E1; apply on_world_cache in E1.
  2: { intros [= _ <-]. auto with certmagic. }
  destruct (updateARI_locked cfg cert m1) as [[[c a] err] m2] eqn:E2.
  destruct (on_world (on_locks (releaseLock _ _)) m2) as [r3 m3] eqn:E3. apply on_world_cache in E3.
  intros [= _ <-]. eapply cache_runs_trans; [by apply cache_runs_same|].
  eapply cache_runs_trans; [|by apply cache_runs_same].
  revert E2. unfold updateARI_locked.
  destruct (storageHasNewerARI _ _) as [[a1|]|e]; [|apply fetch_ari_runs|].
  - destruct (update_cached_ari cert a1 m1) as [[c1 b] m4] eqn:E4.
    intros [= _ _ _ <-]. by eapply update_cached_ari_runs.
  - destruct (is_panic e); [intros [= _ _ _ <-]; apply cache_runs_refl|apply fetch_ari_runs].
Qed.

(** *** The scan *)

(** Every queued certificate was scanned and has a configuration; all but those
    to delete have a name. *)
Definition queued (P : Certificate → Prop) (cfgs : gmap string Config) (c : Certificate) : Prop :=
  P c ∧ Names c ≠ [] ∧ is_Some (cfgs !! hash c).
Record queues_ok (P : Certificate → Prop) (q : queues) : Prop := {
  ok_renew : Forall (queued P (configs q)) (renewQueue q);
  ok_reload : Forall (queued P (configs q)) (reloadQueue q);
  ok_ari : Forall (queued P (configs q)) (ariQueue q);
  ok_delete : Forall P (deleteQueue q)
}.

Lemma configs_grow (cfgs : gmap string Config) (h : string) (cfg : Config) k :
  is_Some (cfgs !! k) → is_Some (<[h := cfg]> cfgs !! k).
Proof. intros Hk. by apply lookup_insert_is_Some'; right. Qed.

Lemma insert_elem certs cert c : c ∈ certList_insert certs cert → c ∈ certs ∨ c = cert.
Proof.
  unfold certList_insert. destruct (existsb _ certs); [by left|].
  rewrite elem_of_app, list_elem_of_singleton. tauto.
Qed.
Lemma insert_old certs cert c : c ∈ certs → c ∈ certList_insert certs cert.
Proof. unfold certList_insert. destruct (existsb _ certs); [done|]. rewrite elem_of_app. tauto. Qed.
Lemma insert_new_elem certs cert : ∃ c, c ∈ certList_insert certs cert ∧ hash c = hash cert.
Proof.
  unfold certList_insert. destruct (existsb _ certs) eqn:Ex.
  - apply existsb_exists in Ex as (c & Hin & Hh). exists c.
    apply list_elem_of_In in Hin. by apply String.eqb_eq in Hh.
  - exists cert. rewrite elem_of_app, list_elem_of_singleton. auto.
Qed.

Lemma with_config_ok P cert cfg q : queues_ok P q → queues_ok P (with_config cert cfg q).
Proof.
  intros [H1 H2 H3 H4]. split; simpl; [..|done]; eapply Forall_impl; try done;
    simpl; intros c (Hc & Hn & Hk); (split; [done|split; [done|by apply configs_grow]]).
Qed.

Lemma with_config_get cert cfg q : is_Some (configs (with_config cert cfg q) !! hash cert).
Proof. simpl. rewrite lookup_insert_eq. eauto. Qed.

Lemma scan_cert_ok P m cert q q' :
  P cert → queues_ok P q → scan_cert configFor m cert q = Ok q' → queues_ok P q'.
Proof.
  intros HP Hq. unfold scan_cert. destruct (managed cert); [|by intros [= <-]]. simpl.
  destruct (Nat.eqb_spec (length (Names cert)) 0) as [|Hlen].
  { intros [= <-]. destruct Hq. split; simpl; [done..|]. by apply Forall_app; auto. }
  assert (Names cert ≠ []) as Hn by (by intros E0; rewrite E0 in Hlen).
  destruct (configFor cert) as [cfg|]; [|by intros [= <-]].
  destruct (OnDemand cfg); [by intros [= <-]|].
  set (q1 := if _ && _ then _ else q).
  assert (queues_ok P q1) as Hq1.
  { unfold q1. destruct (_ && _); [|done]. pose proof (with_config_ok P cert cfg q Hq) as [].
    split; simpl; try done. apply Forall_app. split; [done|].
    constructor; [|done]. split; [done|]. split; [done|apply (with_config_get cert cfg q)]. }
  destruct (needs_renewal cfg cert m) as [[]|]; [|by intros [= <-]|done].
  pose proof (with_config_ok P cert cfg q1 Hq1) as Hq2.
  assert (queued P (configs (with_config cert cfg q1)) cert) as Hget
    by (split; [done|split; [done|apply with_config_get]]).
  assert (queues_ok P (queue_renew cert (with_config cert cfg q1))) as Hren.
  { destruct Hq2. split; try done. cbn [renewQueue queue_renew configs].
    apply Forall_forall. intros c [Hc| ->]%insert_elem; [|done].
    by apply (proj1 (Forall_forall _ _) ok_renew0). }
  destruct (managedCertInStorageNeedsRenewal cfg cert m) as [[]|e]; [by intros [= <-]|..].
  - intros [= <-]. destruct Hq2. split; try done. cbn [reloadQueue queue_reload configs].
    apply Forall_app. by auto.
  - destruct (is_panic e); [done|]. by intros [= <-].
Qed.

Lemma scan_ok P m certs q q' :
  Forall P certs → queues_ok P q → scan configFor m certs q = Ok q' → queues_ok P q'.
Proof.
  intros Hc. revert q. induction Hc as [|cert certs HP _ IH]; intros q Hq; simpl; [by intros [= <-]|].
  destruct (scan_cert configFor m cert q) as [q1|] eqn:E1; [|done].
  apply IH. by eapply scan_cert_ok.
Qed.

Lemma no_queues_ok P : queues_ok P no_queues.
Proof. split; constructor. Qed.

Lemma scan_panic m certs q e : scan configFor m certs q = Err e → is_panic e = true.
Proof.
  revert q. induction certs as [|cert certs IH]; intros q; simpl; [done|].
  destruct (scan_cert configFor m cert q) as [q1|e1] eqn:E1; [by apply IH|]. intros [= <-].
  revert E1. unfold scan_cert. repeat case_match; try done; by intros [= <-].
Qed.

(** *** The phases *)

Lemma cache_runs_indexed m m' :
  indexed names_of (m_cache m) → cache_runs m m' → indexed names_of (m_cache m').
Proof. intros Hi Hr. by eapply indexed_evolves, evolves_methods. Qed.

Lemma update_cached_ari_cert cert a m c b m' :
  indexed names_of (m_cache m) → consistent names_of cert →
  update_cached_ari cert a m = ((c, b), m') →
  hash c = hash cert ∧ Names c = Names cert.
Proof.
  intros Hinv [_ Hn]. unfold update_cached_ari.
  destruct (cache (m_cache m) !! hash cert) as [c0|] eqn:E0; [|by intros [= <- _ _]].
  intros [= <- _ _]. destruct (indexed_consistent _ _ _ _ Hinv E0) as [[_ Hn0] Hh].
  simpl. by rewrite Hn0, Hn, Hh.
Qed.

Lemma fetch_ari_cert cert issuers a m c a' err m' :
  indexed names_of (m_cache m) → consistent names_of cert →
  fetch_ari cert issuers a m = ((c, a', err), m') →
  hash c = hash cert ∧ Names c = Names cert.
Proof.
  revert a m. induction issuers as [|iss issuers IH]; intros a m Hinv Hc; simpl.
  { by intros [= <- _ _ _]. }
  destruct (_ && _); [|by apply IH].
  destruct (on_world _ m) as [[a1 [e|]] m1] eqn:E1; apply on_world_cache in E1.
  - apply IH; [by rewrite E1|done].
  - destruct (update_cached_ari cert _ m1) as [[c1 cached] m2] eqn:E2.
    apply update_cached_ari_cert in E2; [|by rewrite E1|done].
    destruct cached; [|by intros [= <- _ _ _]].
    destruct (on_world (on_storage _) m2) as [r3 m3]. by intros [= <- _ _ _].
Qed.

Lemma updateARI_cert cfg cert m c b err m' :
  indexed names_of (m_cache m) → consistent names_of cert →
  updateARI cfg cert m = ((c, b, err), m') → hash c = hash cert ∧ Names c = Names cert.
Proof.
  intros Hinv Hc. unfold updateARI. destruct (Leaf cert); [|by intros [= <- _ _ _]].
  destruct (on_world _ m) as [[[]|e] m1] eqn:E1; apply on_world_cache in E1;
    [|by intros [= <- _ _ _]].
  destruct (updateARI_locked cfg cert m1) as [[[c1 a] err1] m2] eqn:E2.
  destruct (on_world (on_locks (releaseLock _ _)) m2) as [r3 m3]. intros [= <- _ _ _].
  rewrite <-E1 in Hinv. revert E2. unfold updateARI_locked.
  destruct (storageHasNewerARI _ _) as [[a1|]|e]; [|by apply fetch_ari_cert|].
  - destruct (update_cached_ari cert a1 m1) as [[c2 b2] m4] eqn:E4. intros [= <- _ _ _].
    by eapply update_cached_ari_cert.
  - destruct (is_panic e); [by intros [= <- _ _ _]|by apply fetch_ari_cert].
Qed.

Lemma panic_of_Some err e : panic_of err = Some e → is_panic e = true.
Proof. unfold panic_of. destruct err as [e'|]; [|done]. destruct (is_panic e') eqn:E0; [by intros [= <-]|done]. Qed.

Lemma update_aris_spec cfgs certs renew m res m' :
  indexed names_of (m_cache m) →
  Forall (queued (consistent names_of) cfgs) certs →
  Forall (queued (consistent names_of) cfgs) renew →
  update_aris cfgs certs renew m = (res, m') →
  cache_runs m m' ∧
  match res with
  | Ok renew' => Forall (queued (consistent names_of) cfgs) renew' ∧ ∀ c, c ∈ renew → c ∈ renew'
  | Err e => is_panic e = true
  end.
Proof.
  intros Hre Hcs. revert renew m Hre. induction Hcs as [|cert certs (Hc & Hn & [cfg Hcfg]) _ IH];
    intros renew m Hre Hren; simpl.
  { intros [= <- <-]. auto using cache_runs_refl. }
  rewrite Hcfg. destruct (updateARI cfg cert m) as [[[c changed] err] m1] eqn:E1.
  pose proof (updateARI_runs _ _ _ _ _ E1) as Hrun.
  pose proof (cache_runs_indexed _ _ Hre Hrun) as Hre1.
  apply updateARI_cert in E1 as [Hh HN]; [|done|done].
  assert (∀ renew1, Forall (queued (consistent names_of) cfgs) renew1 →
    (∀ x, x ∈ renew → x ∈ renew1) → update_aris cfgs certs renew1 m1 = (res, m') →
    cache_runs m m' ∧
    match res with
    | Ok renew' => Forall (queued (consistent names_of) cfgs) renew' ∧ ∀ c, c ∈ renew → c ∈ renew'
    | Err e => is_panic e = true
    end) as Hnext.
  { intros renew1 Hren1 Hsub Hr. apply IH in Hr as [Hr1 Hr2]; [|done|done].
    split; [by eapply cache_runs_trans|]. destruct res; [|done]. naive_solver. }
  destruct (panic_of err) as [e|] eqn:Ep; [intros [= <- <-]; by apply panic_of_Some in Ep|].
  destruct changed; [|by apply Hnext].
  destruct (needs_renewal cfg c m1) as [needs|]; [|by intros [= <- <-]].
  apply Hnext; destruct needs; try done; [|by intros; apply insert_old].
  apply Forall_forall. intros x [Hx| ->]%insert_elem; [by apply (proj1 (Forall_forall _ _) Hren)|].
  unfold queued, consistent. rewrite Hh, HN. eauto.
Qed.

Lemma firstName_Some cert : Names cert ≠ [] → ∃ n, firstName cert = Some n.
Proof. unfold firstName. destruct (Names cert); [done|]. simpl. eauto. Qed.

Lemma reload_no_panic cfg cert m r m' :
  Names cert ≠ [] → reloadManagedCertificate cfg cert m = (r, m') →
  match r with Ok _ => True | Err e => is_panic e = false end.
Proof.
  intros [n Hn]%firstName_Some. unfold reloadManagedCertificate. rewrite Hn.
  destruct (loadManagedCertificate cfg n m) as [[c|e] m1]; by intros [= <- _].
Qed.

Lemma reload_all_spec cfgs certs m res m' :
  make_consistent names_of → evictions_valid (E := E) →
  Forall (queued (consistent names_of) cfgs) certs →
  reload_all cfgs certs m = (res, m') → cache_runs m m' ∧ res = Ok tt.
Proof.
  intros Hmk Hev Hcs. revert m. induction Hcs as [|cert certs (Hc & Hn & [cfg Hcfg]) _ IH];
    intros m; simpl.
  { intros [= <- <-]. auto using cache_runs_refl. }
  rewrite Hcfg. destruct (reloadManagedCertificate cfg cert m) as [r1 m1] eqn:E1.
  pose proof (reload_no_panic _ _ _ _ _ Hn E1) as Hp.
  apply reloadManagedCertificate_runs in E1; [|done..].
  assert (reload_all cfgs certs m1 = (res, m') → cache_runs m m' ∧ res = Ok tt) as Hnext.
  { intros [Hr1 Hr2]%IH. split; [by eapply cache_runs_trans|done]. }
  destruct r1 as [c|e]; [done|]. by rewrite Hp.
Qed.

Lemma delete_queued_runs certs m :
  Forall (consistent names_of) certs →
  cache_runs m (snd (on_cache (λ _, delete_queued certs) m)).
Proof.
  intros Hcs. unfold cache_runs. simpl. generalize (m_cache m).
  induction Hcs as [|cert certs Hc _ IH]; intros c; [apply rtc_refl|].
  eapply rtc_l; [by apply step_removeCertificate|apply IH].
Qed.

(** A queued or running renewal was there before, or waits in the queue with a
    certificate of the name. *)
Definition renewals_backed (jm0 : JobManager.jobManager) (r : RState St E N) : Prop :=
  ∀ n, renew_job_name n ∈ JobManager.names (r_jm r) →
    renew_job_name n ∈ JobManager.names jm0 ∨
    ∃ j c cfg, j ∈ JobManager.queue (r_jm r) ∧ JobManager.name j = renew_job_name n ∧
      r_tasks r !! JobManager.job j = Some (TaskRenewal c cfg) ∧ firstName c = Some n.

Lemma queueRenewalTask_spec jm0 cert cfg r n :
  firstName cert = Some n →
  ∃ r', queueRenewalTask cert cfg r = (Ok tt, r') ∧ r_m r' = r_m r ∧
    renew_job_name n ∈ JobManager.names (r_jm r') ∧
    (∀ x, x ∈ JobManager.names (r_jm r) → x ∈ JobManager.names (r_jm r')) ∧
    (∀ j, j ∈ JobManager.queue (r_jm r) → j ∈ JobManager.queue (r_jm r')) ∧
    (renewals_backed jm0 r → renewals_backed jm0 r').
Proof.
  intros Hn. unfold queueRenewalTask. rewrite Hn. eexists. split; [reflexivity|]. simpl.
  split; [done|]. set (j := JobManager.MkJob _ _).
  destruct (JobManager.Submit j (r_jm r)) as [jm' sp] eqn:Es. unfold renewals_backed. simpl.
  destruct (JobManager.duplicate j (r_jm r)) eqn:Ed.
  - assert (jm' = r_jm r) as ->.
    { unfold JobManager.Submit in Es. rewrite Ed in Es. congruence. }
    unfold JobManager.duplicate in Ed. apply andb_true_iff in Ed as [_ Ed%bool_decide_eq_true].
    split; [done|]. split; [done|]. split; [done|]. intros Hb x Hx.
    destruct (Hb x Hx) as [|(j0 & c & g & H1 & H2 & H3 & H4)]; [by left|right].
    exists j0, c, g. by rewrite (lookup_app_l_Some _ _ _ _ H3).
  - destruct (JobManager.Submit_spec _ _ _ _ Es Ed) as (Hq & Hnm & _).
    split; [apply Hnm; by right|]. split; [intros x Hx; apply Hnm; by left|].
    split; [intros j' Hj'; rewrite Hq; apply elem_of_app; by left|]. intros Hb x Hx.
    apply Hnm in Hx as [Hx|[Hx _]].
    + destruct (Hb x Hx) as [|(j0 & c & g & H1 & H2 & H3 & H4)]; [by left|right].
      exists j0, c, g. rewrite Hq, elem_of_app, (lookup_app_l_Some _ _ _ _ H3). auto.
    + right. exists j, cert, cfg. rewrite Hq, elem_of_app, list_elem_of_singleton.
      split; [by right|]. split; [done|]. split; [by rewrite list_lookup_middle|].
      unfold j, renew_job_name in Hx. simpl in Hx. injection Hx as ->. done.
Qed.

(** The certificates of the jobs are of the cache's kind. *)
Definition task_ok (t : task) : Prop :=
  match t with
  | TaskRenewal c _ | TaskManageRenew _ _ c => consistent names_of c
  | TaskManageObtain _ _ => True
  end.

Lemma queue_all_tasks cfgs certs (r : RState St E N) res r' :
  Forall (queued (consistent names_of) cfgs) certs → queue_all cfgs certs r = (res, r') →
  Forall task_ok (r_tasks r) → Forall task_ok (r_tasks r').
Proof.
  intros Hcs. revert r. induction Hcs as [|cert certs (Hc & Hn & [cfg Hcfg]) _ IH]; intros r; simpl.
  { by intros [= _ <-]. }
  rewrite Hcfg. destruct (firstName_Some cert Hn) as [n0 Hn0]. unfold queueRenewalTask. rewrite Hn0.
  intros Hrun Ht. apply IH in Hrun; [done|]. simpl. apply Forall_app. split; [done|by constructor].
Qed.

Lemma queue_all_spec jm0 cfgs certs r res r' :
  Forall (queued (consistent names_of) cfgs) certs →
  queue_all cfgs certs r = (res, r') →
  res = Ok tt ∧ r_m r' = r_m r ∧
  (∀ x, x ∈ JobManager.names (r_jm r) → x ∈ JobManager.names (r_jm r')) ∧
  (∀ c n, c ∈ certs → firstName c = Some n → renew_job_name n ∈ JobManager.names (r_jm r')) ∧
  (∀ j, j ∈ JobManager.queue (r_jm r) → j ∈ JobManager.queue (r_jm r')) ∧
  (renewals_backed jm0 r → renewals_backed jm0 r').
Proof.
  intros Hcs. revert r. induction Hcs as [|cert certs (_ & Hn & [cfg Hcfg]) _ IH];
    intros r; simpl.
  { intros [= <- <-]. repeat split; try done. by intros c n H%elem_of_nil. }
  rewrite Hcfg. destruct (firstName_Some cert Hn) as [n0 Hn0].
  destruct (queueRenewalTask_spec jm0 cert cfg r n0 Hn0) as (r1 & -> & Hm & Hin & Hsub & Hqs & Hb).
  intros (H1 & H2 & H3 & H4 & H5 & H6)%IH. repeat split; [done|congruence|auto| |auto|auto].
  intros c n [->|Hc]%elem_of_cons Hc'; [|by eapply H4].
  rewrite Hn0 in Hc'. injection Hc' as <-. auto.
Qed.

(** *** The renewal pass *)

(** A certificate that the pass must renew: the one in storage has not been
    renewed by another instance. *)
Definition due m (cert : Certificate) (cfg : Config) : Prop :=
  managed cert = true ∧ Names cert ≠ [] ∧ configFor cert = Ok cfg ∧ OnDemand cfg = None ∧
  needs_renewal cfg cert m = Some true ∧ managedCertInStorageNeedsRenewal cfg cert m ≠ Ok false.

Lemma scan_cert_renew m cert q q' c :
  scan_cert configFor m cert q = Ok q' → c ∈ renewQueue q → c ∈ renewQueue q'.
Proof.
  unfold scan_cert. intros Hs Hc.
  repeat case_match; simplify_eq; simpl; auto using insert_old.
Qed.

Lemma scan_renew m certs q q' c :
  scan configFor m certs q = Ok q' → c ∈ renewQueue q → c ∈ renewQueue q'.
Proof.
  revert q. induction certs as [|x certs IH]; intros q; simpl; [by intros [= <-]|].
  destruct (scan_cert configFor m x q) as [q1|] eqn:E1; [|done].
  intros Hs Hc. eapply IH; [exact Hs|]. by eapply scan_cert_renew.
Qed.

Lemma scan_cert_due m cert cfg q q' :
  scan_cert configFor m cert q = Ok q' → due m cert cfg →
  ∃ c, c ∈ renewQueue q' ∧ hash c = hash cert.
Proof.
  unfold scan_cert. intros Hs (Hm & Hn & Hcfg & Hod & Hnr & Hst).
  rewrite Hm, Hcfg, Hod, Hnr in Hs. simpl in Hs.
  destruct (Nat.eqb_spec (length (Names cert)) 0) as [Hl|_].
  { by apply nil_length_inv in Hl. }
  destruct (managedCertInStorageNeedsRenewal cfg cert m) as [[]|e]; [|done|];
    [|destruct (is_panic e); [done|]]; injection Hs as <-; apply insert_new_elem.
Qed.

Lemma scan_due m certs cert cfg q q' :
  scan configFor m certs q = Ok q' → cert ∈ certs → due m cert cfg →
  ∃ c, c ∈ renewQueue q' ∧ hash c = hash cert.
Proof.
  revert q. induction certs as [|x certs IH]; intros q; simpl; [by intros _ H%elem_of_nil|].
  destruct (scan_cert configFor m x q) as [q1|] eqn:E1; [|done].
  intros Hs [->|Hin]%elem_of_cons Hd; [|by eapply IH].
  destruct (scan_cert_due _ _ _ _ _ E1 Hd) as (c & Hc & Hh).
  exists c. split; [by eapply scan_renew|done].
Qed.

Lemma scan_order_consistent (e : E) c :
  orders_valid → indexed names_of c → Forall (consistent names_of) (x_MapOrder e c).
Proof.
  intros Ho Hinv. rewrite (Ho e c). apply Forall_forall. intros cert Hin.
  unfold getAllCerts in Hin. apply list_elem_of_fmap in Hin as ([h x] & -> & Hx).
  apply elem_of_map_to_list in Hx. by eapply indexed_consistent.
Qed.

Lemma scan_order_elem (e : E) c cert :
  orders_valid → cache c !! hash cert = Some cert → cert ∈ x_MapOrder e c.
Proof.
  intros Ho Hc. rewrite (Ho e c). unfold getAllCerts. apply list_elem_of_fmap.
  exists (hash cert, cert). by rewrite elem_of_map_to_list.
Qed.

(** The whole pass: the phases in order. *)
Lemma RenewManagedCertificates_phases r res r' :
  make_consistent names_of → evictions_valid (E := E) → orders_valid →
  indexed names_of (m_cache (r_m r)) →
  RenewManagedCertificates configFor r = (res, r') →
  cache_runs (r_m r) (r_m r') ∧
  (Forall task_ok (r_tasks r) → Forall task_ok (r_tasks r')) ∧
  ((∃ e, res = Err e ∧ is_panic e = true) ∨ res = Ok tt ∧
   renewals_backed (r_jm r) r' ∧
   (∀ j, j ∈ JobManager.queue (r_jm r) → j ∈ JobManager.queue (r_jm r')) ∧
   ∃ q renew, scan configFor (r_m r) (x_MapOrder (w_ext (m_world (r_m r))) (m_cache (r_m r)))
                no_queues = Ok q ∧
     Forall (queued (consistent names_of) (configs q)) renew ∧
     (∀ c, c ∈ renewQueue q → c ∈ renew) ∧
     (∀ c n, c ∈ renew → firstName c = Some n →
        renew_job_name n ∈ JobManager.names (r_jm r'))).
Proof.
  intros Hmk Hev Ho Hre. unfold RenewManagedCertificates.
  pose proof (scan_order_consistent (w_ext (m_world (r_m r))) _ Ho Hre) as Hord.
  destruct (scan configFor _ _ no_queues) as [q|e] eqn:Es.
  2: { apply scan_panic in Es. intros [= <- <-]. split; [apply cache_runs_refl|]. split; [done|eauto]. }
  destruct (scan_ok _ _ _ _ _ Hord (no_queues_ok _) Es) as [Hq1 Hq2 Hq3 Hq4].
  destruct (update_aris _ _ _ (r_m r)) as [r1 m1] eqn:E1.
  destruct (update_aris_spec _ _ _ _ _ _ Hre Hq3 Hq1 E1) as [Hrun1 H1].
  destruct r1 as [renew|e]; [|intros [= <- <-]; split; [done|]; split; [done|eauto]]. destruct H1 as [Hren Hsub].
  destruct (reload_all _ _ m1) as [r2 m2] eqn:E2.
  destruct (reload_all_spec _ _ _ _ _ Hmk Hev Hq2 E2) as [Hrun2 ->].
  destruct (queue_all _ renew _) as [r3 s3] eqn:E3.
  destruct (queue_all_spec (r_jm r) _ _ _ _ _ Hren E3) as (-> & Hm & _ & Hin & Hqs & Hb). simpl in Hm.
  pose proof (queue_all_tasks _ _ _ _ _ Hren E3) as Ht.
  pose proof (delete_queued_runs (deleteQueue q) (r_m s3) Hq4) as Hrun3.
  intros [= <- <-]. split.
  - eapply cache_runs_trans; [exact Hrun1|]. eapply cache_runs_trans; [exact Hrun2|].
    by rewrite <-Hm.
  - split; [exact Ht|]. right. split; [done|]. split; [apply Hb; intros n Hn; by left|]. split; [exact Hqs|by exists q, renew].
Qed.

(** A job of this name is in the list. *)
Definition has_job (name : string) (js : list JobManager.namedJob) : Prop :=
  ∃ j, j ∈ js ∧ JobManager.name j = name.

(** (C10) No certificate that is due is forgotten: let [s] be the job manager
    with its workers when a pass of [RenewManagedCertificates] begins. When the
    pass ends, for every cached certificate that needed renewal and had not been
    renewed in storage, a renewal job for a certificate of its name waits in the
    queue; or a job of this name was already waiting when the pass began, and
    still waits; or a worker had taken one and had not given its name free; or
    one had panicked before, which leaves its name taken for good. *)
Theorem RenewManagedCertificates_schedules max s r r' cert cfg n :
  make_consistent names_of → evictions_valid (E := E) → orders_valid →
  indexed names_of (m_cache (r_m r)) →
  rtc JobManager.step (JobManager.init max) s → JobManager.jm s = r_jm r →
  RenewManagedCertificates configFor r = (Ok tt, r') →
  cache (m_cache (r_m r)) !! hash cert = Some cert → due (r_m r) cert cfg →
  firstName cert = Some n →
  (∃ j c cfg', j ∈ JobManager.queue (r_jm r') ∧ JobManager.name j = renew_job_name n ∧
     r_tasks r' !! JobManager.job j = Some (TaskRenewal c cfg') ∧ firstName c = Some n) ∨
  (∃ j, j ∈ JobManager.queue (r_jm r) ∧ j ∈ JobManager.queue (r_jm r') ∧
     JobManager.name j = renew_job_name n) ∨
  has_job (renew_job_name n) (omap JobManager.worker_job (JobManager.workers s)) ∨
  has_job (renew_job_name n) (JobManager.panicked s).
Proof.
  intros Hmk Hev Ho Hre Hsys Hjm Hrun Hc Hdue Hn.
  destruct (RenewManagedCertificates_phases _ _ _ Hmk Hev Ho Hre Hrun)
    as (_ & _ & [(e & ? & _)|(_ & Hb & Hqs & q & renew & Hs & Hren & Hsub & Hnames)]); [done|].
  destruct (scan_due _ _ _ _ _ _ Hs (scan_order_elem _ _ _ Ho Hc) Hdue) as (c & Hin & Hh).
  apply Hsub in Hin. assert (firstName c = Some n) as Hn'.
  { destruct (proj1 (Forall_forall _ _) Hren c Hin) as ([_ Hcn] & _).
    destruct (indexed_consistent _ _ _ _ Hre Hc) as [[_ Hcn'] _]. unfold firstName in *. congruence. }
  destruct (Hb n (Hnames c n Hin Hn')) as [Hold|Hnew]; [right|by left].
  pose proof (JobManager.reachable_inv max s Hsys) as Hinv. rewrite <-Hjm in Hold, Hqs |- *.
  apply (JobManager.i_names _ Hinv) in Hold. apply JobManager.named_elem in Hold as (_ & j & Hj & Hjn).
  unfold JobManager.held in Hj. rewrite !elem_of_app in Hj. destruct Hj as [Hj|[Hj|Hj]].
  - left. exists j. auto.
  - right. left. by exists j.
  - right. right. by exists j.
Qed.

(** The renewal pass respects the cache: it is a sequence of the cache's own
    operations, so that the index stays consistent and the capacity is
    respected, and it ends or panics. *)
Theorem RenewManagedCertificates_refines r res r' :
  make_consistent names_of → evictions_valid (E := E) → orders_valid →
  indexed names_of (m_cache (r_m r)) →
  RenewManagedCertificates configFor r = (res, r') →
  rtc (method_step names_of) (m_cache (r_m r)) (m_cache (r_m r')) ∧
  indexed names_of (m_cache (r_m r')) ∧ (res = Ok tt ∨ ∃ e, res = Err e ∧ is_panic e = true).
Proof.
  intros Hmk Hev Ho Hre Hrun.
  destruct (RenewManagedCertificates_phases _ _ _ Hmk Hev Ho Hre Hrun) as (Hr & _ & Hres).
  split; [done|]. split; [by eapply cache_runs_indexed|]. naive_solver.
Qed.

(** *** The staple pass *)

Definition entries_ok (q : list updateQueueEntry * list (Certificate * Config)) : Prop :=
  Forall (λ qe, consistent names_of (uq_cert qe)) (fst q) ∧
  Forall (λ p, consistent names_of (fst p)) (snd q).

Lemma scan_staple_ok now cert q :
  consistent names_of cert → entries_ok q → entries_ok (scan_staple configFor now cert q).
Proof.
  intros Hc [H1 H2]. destruct q as [upd renew]. unfold scan_staple. simpl in *.
  repeat case_match; (split; simpl; [done || (apply Forall_app; auto)|done || (apply Forall_app; auto)]).
Qed.

Lemma scan_staples_ok now certs q :
  Forall (consistent names_of) certs → entries_ok q →
  entries_ok (foldl (λ q cert, scan_staple configFor now cert q) q certs).
Proof.
  intros Hcs. revert q. induction Hcs as [|c certs Hc _ IH]; intros q Hq; [done|].
  simpl. by apply IH, scan_staple_ok.
Qed.

Lemma staple_all_spec queue upd renew m upd' renew' m' :
  Forall (λ qe, consistent names_of (uq_cert qe)) queue →
  Forall (λ p, consistent names_of (fst p)) renew →
  staple_all queue upd renew m = ((upd', renew'), m') →
  m_cache m' = m_cache m ∧ Forall (λ p, consistent names_of (fst p)) renew'.
Proof.
  intros Hq. revert upd renew m. induction Hq as [|qe queue Hc _ IH]; intros upd renew m Hren; simpl.
  { by intros [= _ <- <-]. }
  unfold staple_entry. destruct (on_ocsp _ m) as [[r1 cert] m1] eqn:E1.
  pose proof (on_ocsp_cache _ _ _ _ E1) as Hm1.
  assert (consistent names_of cert) as Hcert.
  { revert E1. unfold on_ocsp. destruct (stapleOCSP _ _ _ _ _) as [[r2 c2] [s n]] eqn:E2.
    intros [= _ <- _]. apply stapleOCSP_fields in E2 as [Hh HN].
    unfold consistent. by rewrite Hh, HN. }
  destruct r1 as [[]|]; [|intros [H1 H2]%IH; [split; [congruence|done]|done]].
  destruct (certShouldBeForceRenewed cert).
  2: { intros [H1 H2]%IH; [split; [congruence|done]|done]. }
  destruct (on_world _ m1) as [r3 m3] eqn:E3. apply on_world_cache in E3.
  intros [H1 H2]%IH; [split; [congruence|done]|]. apply Forall_app. by auto.
Qed.

Lemma force_all_runs renew m u m' :
  make_consistent names_of → evictions_valid (E := E) →
  Forall (λ p, consistent names_of (fst p)) renew →
  force_all renew m = (u, m') → cache_runs m m'.
Proof.
  intros Hmk Hev Hr. revert m. induction Hr as [|[cert cfg] renew Hc _ IH]; intros m; simpl.
  { intros [= _ <-]. apply cache_runs_refl. }
  destruct (forceRenew cfg cert m) as [[c1 err] m1] eqn:E1. intros Hrun.
  eapply cache_runs_trans; [by eapply forceRenew_runs|].
  destruct (panic_of err); [injection Hrun as _ <-; apply cache_runs_refl|by apply IH].
Qed.

Lemma apply_updates_runs upd m :
  cache_runs m (snd (on_cache (λ _, apply_updates upd) m)).
Proof.
  unfold cache_runs. simpl. generalize (m_cache m).
  induction upd as [|u upd IH]; intros c; [apply rtc_refl|].
  eapply rtc_l; [|apply IH]. by constructor.
Qed.

(** The staple pass respects the cache too: [updateOCSPStaples], with the
    forced renewals it makes, is a sequence of the cache's own operations. *)
Theorem updateOCSPStaples_refines m u m' :
  make_consistent names_of → evictions_valid (E := E) → orders_valid →
  indexed names_of (m_cache m) →
  updateOCSPStaples configFor m = (u, m') →
  rtc (method_step names_of) (m_cache m) (m_cache m') ∧ indexed names_of (m_cache m').
Proof.
  intros Hmk Hev Ho Hre Hrun. enough (cache_runs m m') as Hr
    by (split; [done|by eapply cache_runs_indexed]).
  revert Hrun. unfold updateOCSPStaples.
  pose proof (scan_staples_ok (m_now m) _ ([], []) (scan_order_consistent (w_ext (m_world m)) _ Ho Hre) ltac:(by split)) as Hok.
  destruct (foldl _ _ _) as [queue renew]. destruct Hok as [Hq Hren]. simpl in Hq, Hren.
  destruct (staple_all queue [] renew m) as [[upd renew'] m1] eqn:E1.
  destruct (staple_all_spec _ _ _ _ _ _ _ Hq Hren E1) as [Hm1 Hren'].
  pose proof (apply_updates_runs upd m1) as Hup.
  destruct (on_cache _ m1) as [u2 m2]. intros Hrun.
  eapply cache_runs_trans; [by apply cache_runs_same|].
  eapply cache_runs_trans; [exact Hup|]. by eapply force_all_runs.
Qed.

(** *** Renewal information *)

Section ari.
Context `{!StorageLaws St} `{!CodecLaws}.
(** The JSON form of renewal information is read back, in the canonical form of
    the surrounding document too. *)
Context (SetRenewalInfo_roundtrip : ∀ data a b,
  json_SetRenewalInfo data a = Ok b →
  ∃ d, json_UnmarshalACME (json_canon b) = Ok d ∧ acme_RenewalInfo d = Some a).

(** The information that the storage has for a certificate. *)
Definition stored_ari (cert : Certificate) (s : St) : option RenewalInfo :=
  match loadStoredACMECertificateMetadata cert s with
  | Ok (d, _) => acme_RenewalInfo d
  | Err _ => None
  end.

Lemma stored_ari_contents cert s s' :
  contents s' = contents s → stored_ari cert s' = stored_ari cert s.
Proof.
  intros Heq. unfold stored_ari, loadStoredACMECertificateMetadata.
  destruct (firstName cert) as [n|]; [|done]. set (k := SiteMeta _ _).
  pose proof (Load_spec s k) as H1. pose proof (Load_spec s' k) as H2. rewrite Heq in H2.
  destruct (contents s !! k).
  - by rewrite H1, H2.
  - destruct H1 as (? & -> & _), H2 as (? & -> & _). done.
Qed.

Lemma store_ari_stored cert a s s' :
  store_ari cert a s = (None, s') → stored_ari cert s' = Some a.
Proof.
  unfold store_ari. destruct (loadStoredACMECertificateMetadata cert s) as [[d data]|]; [|by destruct (firstName cert)].
  destruct (firstName cert) as [n|] eqn:En; [|done].
  destruct (json_SetRenewalInfo data a) as [b|] eqn:Eb; [|done].
  destruct (json_MarshalMeta (Names cert) b) as [res|] eqn:Er; [|done].
  destruct (Store _ res s) as [[[]|] s1] eqn:Es; [|done]. intros [= <-].
  destruct (SetRenewalInfo_roundtrip _ _ _ Eb) as (d' & Hd & Ha).
  unfold stored_ari, loadStoredACMECertificateMetadata. rewrite En.
  rewrite (Load_contents s1 _ res); [|by rewrite (Store_Ok _ _ _ _ Es), lookup_insert_eq].
  by rewrite (json_Meta_roundtrip _ _ _ Er), Hd.
Qed.

Lemma update_cached_ari_cached cert a m c m' :
  is_Some (cache (m_cache m) !! hash cert) →
  update_cached_ari cert a m = ((c, true), m') ∨ update_cached_ari cert a m = ((c, false), m') →
  update_cached_ari cert a m = ((c, true), m') ∧ ari c = a ∧
  cache (m_cache m') !! hash cert = Some c ∧ m_world m' = m_world m.
Proof.
  intros [c0 Hc0]. unfold update_cached_ari. rewrite Hc0.
  intros [[= <- <-]|[=]]. simpl. unfold updateCached. rewrite Hc0. simpl.
  by rewrite lookup_insert_eq.
Qed.

(** What the issuer gives becomes the new information, but for the selected
    time when the window has not moved. *)
Definition keep_selected (old a : RenewalInfo) : RenewalInfo :=
  if ari_SameWindow a old && negb (time_IsZero (SelectedTime old))
  then MkRenewalInfo (WindowStart a) (WindowEnd a) (SelectedTime old) (RetryAfter a)
         (UniqueIdentifier a)
  else a.

Definition ari_agrees (cert c : Certificate) m : Prop :=
  cache (m_cache m) !! hash cert = Some c ∧ stored_ari cert (w_storage (m_world m)) = Some (ari c).

Lemma fetch_ari_persisted cert issuers a m c a' m' :
  is_Some (cache (m_cache m) !! hash cert) →
  fetch_ari cert issuers a m = ((c, a', None), m') →
  ari_agrees cert c m' ∧ a' = ari c ∧
  ∃ iss a0 m1 m2, iss ∈ issuers ∧ iss_IssuerKey iss = issuerKey cert ∧
    on_world (on_external (x_GetRenewalInfo iss cert)) m1 = ((a0, None), m2) ∧
    ari c = keep_selected (ari cert) a0.
Proof.
  revert a m. induction issuers as [|iss issuers IH]; intros a m Hc; simpl; [done|].
  assert (∀ a m, is_Some (cache (m_cache m) !! hash cert) →
    fetch_ari cert issuers a m = ((c, a', None), m') → ari_agrees cert c m' ∧ a' = ari c ∧
    ∃ iss0 a0 m1 m2, iss0 ∈ iss :: issuers ∧ iss_IssuerKey iss0 = issuerKey cert ∧
      on_world (on_external (x_GetRenewalInfo iss0 cert)) m1 = ((a0, None), m2) ∧
      ari c = keep_selected (ari cert) a0) as Hrest.
  { intros a1 m1 Hc1 Hrun. destruct (IH a1 m1 Hc1 Hrun) as (? & ? & i & a0 & ? & ? & Hin & ?).
    split; [done|]. split; [done|]. exists i, a0. setoid_rewrite elem_of_cons. eauto. }
  destruct (iss_RenewalInfoGetter iss); simpl; [|by apply Hrest].
  destruct (String.eqb_spec (iss_IssuerKey iss) (issuerKey cert)) as [Hk|]; [|by apply Hrest].
  destruct (on_world _ m) as [[a1 [e|]] m1] eqn:E1; pose proof (on_world_cache _ _ _ _ E1) as Hm1.
  { apply Hrest. by rewrite Hm1. }
  fold (keep_selected (ari cert) a1).
  destruct (update_cached_ari cert (keep_selected (ari cert) a1) m1) as [[c1 b] m2] eqn:E2.
  destruct (update_cached_ari_cached cert (keep_selected (ari cert) a1) m1 c1 m2) as (E2' & Ha & Hcc & Hw);
    [by rewrite Hm1|destruct b; auto|].
  rewrite E2 in E2'. injection E2' as ->.
  destruct (on_world (on_storage _) m2) as [err m3] eqn:E3. intros [= <- <- -> <-].
  pose proof (on_world_cache _ _ _ _ E3) as Hm3.
  assert (stored_ari cert (w_storage (m_world m3)) = Some (keep_selected (ari cert) a1)) as Hst.
  { revert E3. unfold on_world, on_storage.
    destruct (store_ari cert _ _) as [e s3] eqn:E4. intros [= -> <-]. simpl.
    by eapply store_ari_stored. }
  split; [split; [by rewrite Hm3|by rewrite Ha]|]. split; [done|].
  exists iss, a1, m, m1. repeat split; [by left|done|done|done].
Qed.

Lemma storageHasNewerARI_stored cert s a :
  storageHasNewerARI cert s = Ok (Some a) → stored_ari cert s = Some a.
Proof.
  unfold storageHasNewerARI, stored_ari.
  destruct (loadStoredACMECertificateMetadata cert s) as [[d data]|]; [|done].
  destruct (acme_RenewalInfo d) as [a1|]; [|done]. destruct (RetryAfter a1); [|done].
  destruct (_ || _); congruence.
Qed.

Lemma releaseLock_contents k m r m' :
  on_world (on_locks (releaseLock 0 k)) m = (r, m') →
  contents (w_storage (m_world m')) = contents (w_storage (m_world m)) ∧ m_cache m' = m_cache m.
Proof.
  unfold on_world, on_locks, releaseLock. simpl.
  destruct (Unlock k (w_storage (m_world m))) as [e s1] eqn:Eu. intros [= _ <-]. simpl.
  by apply Unlock_contents in Eu.
Qed.

(** Where new information comes from: a newer one in storage, or an issuer that
    issued the certificate. *)
Definition ari_source (cfg : Config) (cert : Certificate) (a : RenewalInfo) : Prop :=
  (∃ s : St, storageHasNewerARI cert s = Ok (Some a)) ∨
  ∃ iss a0 m1 m2, iss ∈ Issuers cfg ∧ iss_IssuerKey iss = issuerKey cert ∧
    on_world (N := N) (on_external (x_GetRenewalInfo iss cert)) m1 = ((a0, None), m2) ∧
    a = keep_selected (ari cert) a0.

(** Renewal information stays in step: when [updateARI] succeeds on a cached
    certificate, the certificate it returns is the cached one, storage has the
    same renewal information, the change is reported exactly when the window
    moved, and the information comes from storage or from an issuer of the
    certificate, with the selected time kept while the window stays. *)
Theorem updateARI_agrees cfg cert m c changed m' :
  is_Some (cache (m_cache m) !! hash cert) →
  updateARI cfg cert m = ((c, changed, None), m') →
  ari_agrees cert c m' ∧ changed = negb (ari_SameWindow (ari c) (ari cert)) ∧
  ari_source cfg cert (ari c).
Proof.
  intros Hc. unfold updateARI. destruct (Leaf cert); [|done].
  destruct (on_world _ m) as [[[]|e] m1] eqn:E1; [|done]. apply on_world_cache in E1.
  destruct (updateARI_locked cfg cert m1) as [[[c1 a] err] m2] eqn:E2.
  destruct (on_world (on_locks (releaseLock _ _)) m2) as [r3 m3] eqn:E3.
  apply releaseLock_contents in E3 as [Hs3 Hc3]. intros [= <- <- -> <-].
  assert (ari_agrees cert c1 m2 ∧ a = ari c1 ∧ ari_source cfg cert (ari c1)) as ([H1 H2] & -> & Hsrc).
  { rewrite <-E1 in Hc. revert E2. unfold updateARI_locked.
    assert (fetch_ari cert (Issuers cfg) zeroRenewalInfo m1 = ((c1, a, None), m2) →
      ari_agrees cert c1 m2 ∧ a = ari c1 ∧ ari_source cfg cert (ari c1)) as Hf.
    { intros Hrun. destruct (fetch_ari_persisted _ _ _ _ _ _ _ Hc Hrun) as (? & ? & Hi).
      split; [done|]. split; [done|]. by right. }
    destruct (storageHasNewerARI _ _) as [[a1|]|e] eqn:En; [|done|by destruct (is_panic e)]. clear Hf.
    destruct (update_cached_ari cert a1 m1) as [[c2 b] m4] eqn:E4.
    destruct (update_cached_ari_cached cert a1 m1 c2 m4) as (_ & Ha & Hcc & Hw);
      [done|destruct b; auto|].
    intros [= <- <- <-]. split; [split; [done|]|].
    - rewrite Hw, Ha. by apply storageHasNewerARI_stored.
    - split; [done|]. left. rewrite Ha. eauto. }
  split; [|done]. split; [by rewrite Hc3|]. by rewrite (stored_ari_contents _ _ _ Hs3).
Qed.
End ari.
End maintain_theorems.

(** ** Concrete runs *)

Module SimACME.
#[export] Instance sim_ACMELib : ACMELib MemStorage.t SimExternal.t := {
  ari_SameWindow a b := (WindowStart a =? WindowStart b)%Z && (WindowEnd a =? WindowEnd b)%Z;
  ari_HasWindow a := negb (time_IsZero (WindowStart a)) && negb (time_IsZero (WindowEnd a));
  ari_NeedsRefresh now a :=
    match RetryAfter a with Some t => time_After now t | None => true end;
  iss_RenewalInfoGetter _ := true;
  x_GetRenewalInfo iss _ := λ '(s, e),
    if decide (iss_IssuerKey iss ∈ SimExternal.sim_down e)
    then ((zeroRenewalInfo, Some (Errorf "issuer is down")), (s, e))
    else ((PlainCodec.ex_ari, None), (s, e));
  json_SetRenewalInfo _ a := if decide (a = PlainCodec.ex_ari) then Ok "ARI=" else Err (Errorf "json")
}.

Lemma sim_SetRenewalInfo data a b :
  json_SetRenewalInfo data a = Ok b →
  ∃ d, json_UnmarshalACME (json_canon b) = Ok d ∧ acme_RenewalInfo d = Some a.
Proof.
  simpl. destruct (decide _) as [->|]; [|done]. intros [= <-].
  exists (MkACMEData "" (Some PlainCodec.ex_ari)). by vm_compute.
Qed.

Lemma sim_orders_valid : orders_valid (E := SimExternal.t).
Proof. intros e c. reflexivity. Qed.
End SimACME.
Export (hints) SimACME.

Section maintain_runs.
Import SimTLS SimACME.

(** Eighty days later the certificate of ninety days is due. *)
Definition later (down : list string) (m : MState MemStorage.t SimExternal.t SimNet.t) :
    MState MemStorage.t SimExternal.t SimNet.t :=
  MkM (MkWorld (w_storage (m_world m)) ∅ (SimExternal.Mk (80 * 24 * Hour) down 0) []) (m_net m)
    (m_cache m).
Definition ex_m := later [] (snd ex_loaded).
Definition ex_managed : Certificate := match fst ex_loaded with Ok c => c | Err _ => zeroCertificate end.
Definition ex_r : RState MemStorage.t SimExternal.t SimNet.t :=
  MkR ex_m (JobManager.MkManager 2 0 [] ∅) [].
Definition ex_configFor (_ : Certificate) : result Config := Ok ex_cfg.

Lemma ex_m_inv : cache_inv names (m_cache ex_m).
Proof.
  assert (m_cache ex_m = cacheCertificate [] 0 ex_managed cache0) as -> by (vm_compute; reflexivity).
  eapply method_step_inv; [apply step_cacheCertificate|apply cache0_inv].
  - split; [vm_compute; discriminate|reflexivity].
  - vm_compute. discriminate.
Qed.
Lemma ex_m_indexed : indexed names (m_cache ex_m).
Proof. apply cache_inv_indexed, ex_m_inv. Qed.

Lemma RenewManagedCertificates_schedules_witness :
  let r' := snd (RenewManagedCertificates ex_configFor ex_r) in
  (∃ j c cfg', j ∈ JobManager.queue (r_jm r') ∧ JobManager.name j = renew_job_name "a.com" ∧
     r_tasks r' !! JobManager.job j = Some (TaskRenewal c cfg') ∧ firstName c = Some "a.com") ∨
  (∃ j, j ∈ JobManager.queue (r_jm ex_r) ∧ j ∈ JobManager.queue (r_jm r') ∧
     JobManager.name j = renew_job_name "a.com") ∨
  has_job (renew_job_name "a.com") (omap JobManager.worker_job (JobManager.workers (JobManager.init 2))) ∨
  has_job (renew_job_name "a.com") (JobManager.panicked (JobManager.init 2)).
Proof.
  intros r'. apply (RenewManagedCertificates_schedules names ex_configFor 2 (JobManager.init 2) ex_r r' ex_managed ex_cfg).
  - exact sim_make_consistent.
  - exact sim_evictions_valid.
  - exact sim_orders_valid.
  - exact ex_m_indexed.
  - apply rtc_refl.
  - reflexivity.
  - vm_compute. reflexivity.
  - vm_compute. reflexivity.
  - repeat split; vm_compute; first [reflexivity|discriminate].
  - reflexivity.
Defined.

Lemma RenewManagedCertificates_refines_witness :
  let '(res, r') := RenewManagedCertificates ex_configFor ex_r in
  rtc (method_step names) (m_cache ex_m) (m_cache (r_m r')) ∧
  indexed names (m_cache (r_m r')) ∧ (res = Ok tt ∨ ∃ e, res = Err e ∧ is_panic e = true).
Proof.
  destruct (RenewManagedCertificates ex_configFor ex_r) as [res r'] eqn:E.
  exact (RenewManagedCertificates_refines names ex_configFor ex_r res r' sim_make_consistent
           sim_evictions_valid sim_orders_valid ex_m_indexed E).
Defined.

Lemma updateOCSPStaples_refines_witness :
  let m' := snd (updateOCSPStaples ex_configFor ex_m) in
  rtc (method_step names) (m_cache ex_m) (m_cache m') ∧ indexed names (m_cache m').
Proof.
  destruct (updateOCSPStaples ex_configFor ex_m) as [u m'] eqn:E.
  exact (updateOCSPStaples_refines names ex_configFor ex_m u m' sim_make_consistent
           sim_evictions_valid sim_orders_valid ex_m_indexed E).
Defined.

Lemma updateARI_agrees_witness :
  let '((c, changed, err), m') := updateARI ex_cfg ex_managed ex_m in
  err = None ∧ ari_agrees ex_managed c m' ∧
  changed = negb (ari_SameWindow (ari c) (ari ex_managed)) ∧
  ari_source (N := SimNet.t) ex_cfg ex_managed (ari c).
Proof.
  destruct (updateARI ex_cfg ex_managed ex_m) as [[[c changed] err] m'] eqn:E.
  assert (err = None) as Herr by (vm_compute in E; congruence).
  split; [exact Herr|]. rewrite Herr in E.
  apply (updateARI_agrees sim_SetRenewalInfo ex_cfg ex_managed ex_m c changed m').
  - vm_compute. eexists. reflexivity.
  - exact E.
Defined.

(** When every issuer fails, a change of the window is reported although the
    certificate keeps its renewal information: the comparison uses the zero
    value that came with the error. *)
Lemma updateARI_failure_reports_change :
  let cert := with_ari PlainCodec.ex_ari ex_managed in
  let '((c, changed, err), _) := updateARI ex_cfg cert (later ["one"; "two"] (snd ex_loaded)) in
  c = cert ∧ changed = true ∧ is_Some err.
Proof. vm_compute. eauto. Qed.
End maintain_runs.
