(* ===== verification/ManageAll.v ===== *)
(** * Taking names under management (config.go)

    [ManageSync] and [ManageAsync] make sure that a certificate for each name
    is in the cache: from the cache itself, from storage, or from an issuer,
    in the foreground or as a job. With on-demand TLS the names only go to the
    allowlist. *)

From S2P Require Import Prelude GoStrings Certificates Cache Async Storage Crypto OCSP.
From S2P Require Import Config Manage Handshake Maintain.
Open Scope string_scope.

Section manageAll.
Context {St E N : Type} `{C : !Codec} `{!Storage St} `{X : !External St E}
  `{!OCSPNet N} `{TL : !TLSLib E} `{AL : !ACMELib St E}.
Implicit Types m : MState St E N.

(** The closure [obtain] of [manageOne]. *)
Definition manage_obtain (cfg : Config) (domainName : string) (async : bool) :
    ST (MState St E N) (result unit) := λ m,
  match on_world (if async then ObtainCertAsync cfg domainName
                  else ObtainCertSync cfg domainName) m with
  | (Err e, m) => (Err (if is_panic e then e else Wrapf "obtaining certificate" e), m)
  | (Ok _, m) =>
      match CacheManagedCertificate cfg domainName m with
      | (Err _, m) => (Err (Errorf "caching certificate after obtaining it"), m)
      | (Ok _, m) => (Ok tt, m)
      end
  end.

(** The renewal information is updated before the certificate is checked; an
    error is only logged, a panic passes through. *)
Definition refresh_ari (cfg : Config) (cert : Certificate) :
    ST (MState St E N) (result Certificate) := λ m,
  if negb (DisableARI (cfg_renewal cfg)) && ari_NeedsRefresh (m_now m) (ari cert) then
    let '((cert, _, err), m) := updateARI cfg cert m in
    (match panic_of err with Some e => Err e | None => Ok cert end, m)
  else (Ok cert, m).

(** The certificate is replaced at once, whatever its time left. *)
Definition revoked_now (cert : Certificate) (m : MState St E N) : bool :=
  negb (Expired (m_now m) cert) && is_revoked cert.

(** The closure [renew]. *)
Definition manage_renew (cfg : Config) (domainName : string) (async : bool) (cert : Certificate) :
    ST (MState St E N) (result unit) := λ m,
  if revoked_now cert m then
    match forceRenew cfg cert m with
    | ((_, Some e), m) => (Err e, m)
    | ((_, None), m) => (Ok tt, m)
    end
  else
    match refresh_ari cfg cert m with
    | (Err e, m) => (Err e, m)
    | (Ok cert, m) =>
        match needs_renewal cfg cert m with
        | None => (Err panic_Int63n, m)
        | Some false => (Ok tt, m)
        | Some true =>
            match on_world (if async then RenewCertAsync cfg domainName false
                            else RenewCertSync cfg domainName false) m with
            | (Err e, m) => (Err (if is_panic e then e else Wrapf "renewing certificate" e), m)
            | (Ok _, m) =>
                match reloadManagedCertificate cfg cert m with
                | (Err e, m) =>
                    (Err (if is_panic e then e else Errorf "reloading renewed certificate into memory"), m)
                | (Ok _, m) => (Ok tt, m)
                end
            end
        end
    end.

Definition submit (name : string) (t : task) : ST (RState St E N) unit := λ r,
  let j := JobManager.MkJob name (length (r_tasks r)) in
  (tt, MkR (r_m r) (fst (JobManager.Submit j (r_jm r))) (r_tasks r ++ [t])%list).

Definition on_m {A} (f : ST (MState St E N) A) : ST (RState St E N) A := λ r,
  let '(x, m) := f (r_m r) in (x, MkR m (r_jm r) (r_tasks r)).

Definition manageOne (cfg : Config) (domainName : string) (async : bool) :
    ST (RState St E N) (result unit) := λ r,
  if existsb managed (getAllMatchingCerts (m_cache (r_m r)) domainName) then (Ok tt, r)
  else
    match on_m (CacheManagedCertificate cfg domainName) r with
    | (Err e, r) =>
        if negb (errors_Is e ErrNotExist) then (Err (Errorf "caching certificate"), r)
        else if async then
          let '(_, r) := submit "" (TaskManageObtain cfg domainName) r in (Ok tt, r)
        else on_m (manage_obtain cfg domainName false) r
    | (Ok cert, r) =>
        if async then
          let '(_, r) := submit (renew_job_name domainName)
                           (TaskManageRenew cfg domainName cert) r in (Ok tt, r)
        else on_m (manage_renew cfg domainName false cert) r
    end.

(** [cfg.OnDemand.hostAllowlist[name] = struct{}{}]. *)
Definition allow (name : string) (od : OnDemandConfig) : OnDemandConfig :=
  MkOnDemand (od_DecisionFunc od) (od_Managers od) ({[name]} ∪ od_hostAllowlist od).

(** The configuration is returned too, since its allowlist changes. *)
Fixpoint manageAll (cfg : Config) (domainNames : list string) (async : bool) :
    ST (RState St E N) (result unit * Config) :=
  match domainNames with
  | [] => mret (Ok tt, cfg)
  | domainName :: rest => λ r,
      let domainName := normalizedName domainName in
      match OnDemand cfg with
      | Some od => manageAll (with_OnDemand (Some (allow domainName od)) cfg) rest async r
      | None =>
          match manageOne cfg domainName async r with
          | (Err e, r) => ((Err e, cfg), r)
          | (Ok _, r) => manageAll cfg rest async r
          end
      end
  end.

Definition ManageSync (cfg : Config) (domainNames : list string) := manageAll cfg domainNames false.
Definition ManageAsync (cfg : Config) (domainNames : list string) := manageAll cfg domainNames true.

(** The loop of [ClientCredentials]; the chains so far come with an error. *)
Fixpoint load_chains (cfg : Config) (identifiers : list string) (chains : list TLSCertificate)
    (s : St) : list TLSCertificate * option error :=
  match identifiers with
  | [] => (chains, None)
  | id :: rest =>
      match loadCertResourceAnyIssuer s (iss_IssuerKey <$> Issuers cfg) id with
      | Err e => (chains, Some e)
      | Ok certRes =>
          match tls_X509KeyPair (CertificatePEM certRes) (PrivateKeyPEM certRes) with
          | Err e => (chains, Some e)
          | Ok chain => load_chains cfg rest (chains ++ [chain])%list s
          end
      end
  end.

Definition ClientCredentials (cfg : Config) (identifiers : list string) :
    ST (RState St E N) (list TLSCertificate * option error * Config) := λ r,
  match manageAll cfg identifiers false r with
  | ((Err e, cfg), r) => (([], Some e, cfg), r)
  | ((Ok _, cfg), r) => ((load_chains cfg identifiers [] (w_storage (m_world (r_m r))), cfg), r)
  end.

(** What a worker runs for a job. *)
Definition run_task (t : task) : ST (MState St E N) (result unit) :=
  match t with
  | TaskRenewal oldCert cfg =>
      match firstName oldCert with
      | None => mret (Err (Panic "index out of range"))
      | Some renewName => renewal_task cfg oldCert renewName
      end
  | TaskManageObtain cfg domainName => manage_obtain cfg domainName true
  | TaskManageRenew cfg domainName cert => manage_renew cfg domainName true cert
  end.
End manageAll.

(** ** Theorems *)

Section manageAll_theorems.
Context {St E N : Type} `{C : !Codec} `{!Storage St} `{X : !External St E}
  `{!OCSPNet N} `{TL : !TLSLib E} `{AL : !ACMELib St E}.
Context (names_of : string → list string).
Hypothesis Hmk : make_consistent (E := E) names_of.
Hypothesis Hev : evictions_valid (E := E).
Implicit Types m : MState St E N.

(** *** Jobs and calls as executions of the cache *)

Lemma CacheManagedCertificate_runs cfg d m r m' :
  CacheManagedCertificate cfg d m = (r, m') → cache_runs names_of m m'.
Proof.
  unfold CacheManagedCertificate.
  destruct (loadManagedCertificate cfg _ m) as [[c1|e] m1] eqn:E1;
    pose proof (loadManagedCertificate_cache _ _ _ _ _ E1) as Hm1.
  2: { intros [= _ <-]. by apply cache_runs_same. }
  apply (loadManagedCertificate_Ok names_of) in E1 as (Hc & _); [|done].
  destruct (cacheCert c1 m1) as [u m2] eqn:E2.
  destruct (emit_cached cfg true (Names c1) m2) as [u' m3] eqn:E3. apply emit_cached_cache in E3.
  intros [= _ <-]. eapply cache_runs_trans; [by apply cache_runs_same|].
  eapply cache_runs_trans; [|by apply cache_runs_same].
  injection E2 as _ <-. apply cache_runs_step. simpl. apply step_cacheCertificate; [done|apply Hev].
Qed.

Lemma CacheManagedCertificate_consistent cfg d m cert m' :
  CacheManagedCertificate cfg d m = (Ok cert, m') → consistent names_of cert.
Proof.
  unfold CacheManagedCertificate.
  destruct (loadManagedCertificate cfg _ m) as [[c1|e] m1] eqn:E1; [|done].
  apply (loadManagedCertificate_Ok names_of) in E1 as (Hc & _); [|done].
  destruct (cacheCert c1 m1) as [u m2]. destruct (emit_cached cfg true (Names c1) m2) as [u' m3].
  by intros [= <- _].
Qed.

Lemma manage_obtain_runs cfg d async m r m' :
  manage_obtain cfg d async m = (r, m') → cache_runs names_of m m'.
Proof.
  unfold manage_obtain. destruct (on_world _ m) as [[[]|e] m1] eqn:E1; apply on_world_cache in E1.
  - destruct (CacheManagedCertificate cfg d m1) as [[c|e] m2] eqn:E2;
      apply CacheManagedCertificate_runs in E2; intros [= _ <-];
      (eapply cache_runs_trans; [by apply cache_runs_same|exact E2]).
  - intros [= _ <-]. by apply cache_runs_same.
Qed.

Lemma refresh_ari_spec cfg cert m c m' :
  indexed names_of (m_cache m) → consistent names_of cert →
  refresh_ari cfg cert m = (c, m') →
  cache_runs names_of m m' ∧
  match c with Ok c => consistent names_of c ∧ Names c = Names cert | Err e => is_panic e = true end.
Proof.
  intros Hinv Hc. unfold refresh_ari. destruct (_ && _).
  2: { intros [= <- <-]. auto using cache_runs_refl. }
  destruct (updateARI cfg cert m) as [[[c1 b] err] m1] eqn:E1. intros [= <- <-].
  split; [by eapply updateARI_runs|].
  destruct (panic_of err) as [e|] eqn:Ep; [by apply panic_of_Some in Ep|].
  apply (updateARI_cert names_of) in E1 as [Hh HN]; [|done|done].
  unfold consistent. by rewrite Hh, HN.
Qed.

Lemma manage_renew_runs cfg d async cert m r m' :
  indexed names_of (m_cache m) → consistent names_of cert →
  manage_renew cfg d async cert m = (r, m') → cache_runs names_of m m'.
Proof.
  intros Hinv Hc. unfold manage_renew. destruct (revoked_now cert m).
  { destruct (forceRenew cfg cert m) as [[c [e|]] m1] eqn:E1; intros [= _ <-];
      by eapply forceRenew_runs. }
  destruct (refresh_ari cfg cert m) as [[c|e] m1] eqn:E1;
    apply refresh_ari_spec in E1 as [Hr1 H1]; [|done|done|..|done|done]; [|by intros [= _ <-]].
  destruct H1 as [Hc1 _].
  destruct (needs_renewal cfg c m1) as [[]|]; [|by intros [= _ <-]..].
  destruct (on_world _ m1) as [[[]|e] m2] eqn:E2; apply on_world_cache in E2.
  - destruct (reloadManagedCertificate cfg c m2) as [x m3] eqn:E3.
    apply (reloadManagedCertificate_runs names_of) in E3; [|done..]. intros Hrun.
    assert (m3 = m') as <- by (destruct x; congruence).
    eapply cache_runs_trans; [exact Hr1|]. eapply cache_runs_trans; [by apply cache_runs_same|exact E3].
  - intros [= _ <-]. eapply cache_runs_trans; [exact Hr1|by apply cache_runs_same].
Qed.

Lemma renewal_task_runs cfg cert n m r m' :
  consistent names_of cert → renewal_task cfg cert n m = (r, m') → cache_runs names_of m m'.
Proof.
  intros Hc. unfold renewal_task.
  destruct (on_world _ m) as [[[]|e] m1] eqn:E1; apply on_world_cache in E1;
    (intros Hrun; eapply cache_runs_trans; [by apply cache_runs_same|]; revert Hrun).
  - destruct (reloadManagedCertificate cfg cert m1) as [x m3] eqn:E3. intros Hrun.
    apply (reloadManagedCertificate_runs names_of) in E3; [|done..].
    assert (m3 = m') as <- by (destruct x as [|e]; [|destruct (is_panic e)]; congruence). done.
  - destruct (is_panic e); [intros [= _ <-]; apply cache_runs_refl|].
    destruct (OnDemand cfg); intros [= _ <-]; [|apply cache_runs_refl].
    apply cache_runs_step. by constructor.
Qed.

(** Background jobs respect the cache: every job that the passes and
    [ManageAsync] submit runs as a sequence of the cache's own operations, so
    that jobs and handshakes find the index consistent and the capacity
    respected, whatever their order. *)
Theorem run_task_refines t m r m' :
  task_ok names_of t → indexed names_of (m_cache m) → run_task t m = (r, m') →
  rtc (method_step names_of) (m_cache m) (m_cache m') ∧ indexed names_of (m_cache m').
Proof.
  intros Ht Hre Hrun.
  enough (cache_runs names_of m m') as Hr by (split; [done|by eapply cache_runs_indexed]).
  destruct t as [c cfg|cfg d|cfg d c]; simpl in *.
  - destruct (firstName c) as [n|]; [by eapply renewal_task_runs|].
    injection Hrun as _ <-. apply cache_runs_refl.
  - by eapply manage_obtain_runs.
  - by eapply manage_renew_runs.
Qed.

Lemma submit_m name t (r : RState St E N) :
  r_m (snd (submit name t r)) = r_m r ∧ r_tasks (snd (submit name t r)) = (r_tasks r ++ [t])%list.
Proof. done. Qed.

(** So do the calls of [ManageSync] and [ManageAsync]; the jobs they submit are
    for certificates of the cache's kind. *)
Lemma manageOne_runs cfg d async r res r' :
  indexed names_of (m_cache (r_m r)) → manageOne cfg d async r = (res, r') →
  cache_runs names_of (r_m r) (r_m r') ∧
  (Forall (task_ok names_of) (r_tasks r) → Forall (task_ok names_of) (r_tasks r')).
Proof.
  intros Hinv. unfold manageOne. destruct (existsb _ _); [intros [= _ <-]; auto using cache_runs_refl|].
  unfold on_m at 1. destruct (CacheManagedCertificate cfg d (r_m r)) as [x m1] eqn:E1.
  pose proof (CacheManagedCertificate_runs _ _ _ _ _ E1) as Hr1.
  pose proof (cache_runs_indexed _ _ _ Hinv Hr1) as Hinv1.
  destruct x as [cert|e].
  - assert (consistent names_of cert) as Hc by (by eapply CacheManagedCertificate_consistent).
    destruct async; [intros [= _ <-]; split; [done|]; intros Ht; apply Forall_app; split; [done|by constructor]|].
    unfold on_m. simpl. destruct (manage_renew cfg d false cert m1) as [y m2] eqn:E2. intros [= _ <-].
    split; [|done]. eapply cache_runs_trans; [exact Hr1|]. by eapply manage_renew_runs.
  - destruct (negb _); [by intros [= _ <-]|]. destruct async.
    { intros [= _ <-]. split; [done|]. intros Ht. apply Forall_app. split; [done|by constructor]. }
    unfold on_m. simpl. destruct (manage_obtain cfg d false m1) as [y m2] eqn:E2. intros [= _ <-].
    split; [|done]. eapply cache_runs_trans; [exact Hr1|]. by eapply manage_obtain_runs.
Qed.

Lemma manageAll_runs cfg ds async r res r' :
  indexed names_of (m_cache (r_m r)) → manageAll cfg ds async r = (res, r') →
  cache_runs names_of (r_m r) (r_m r') ∧
  (Forall (task_ok names_of) (r_tasks r) → Forall (task_ok names_of) (r_tasks r')).
Proof.
  revert cfg r. induction ds as [|d ds IH]; intros cfg r Hinv; simpl.
  { intros [= _ <-]. auto using cache_runs_refl. }
  destruct (OnDemand cfg); [by apply IH|].
  destruct (manageOne cfg (normalizedName d) async r) as [x r1] eqn:E1.
  destruct (manageOne_runs _ _ _ _ _ _ Hinv E1) as [Hr1 Ht1].
  destruct x as [u|e]; [|by intros [= _ <-]]. intros Hrun.
  destruct (IH _ _ (cache_runs_indexed _ _ _ Hinv Hr1) Hrun) as [Hr2 Ht2].
  split; [by eapply cache_runs_trans|auto].
Qed.

(** *** A certificate for the name *)

Definition served (c : Cache) (d : string) : Prop := ∃ cert, cert ∈ getAllMatchingCerts c d.

Lemma served_cache c d :
  cache_inv names_of c → served c d ↔ ∃ cert, cache c !! hash cert = Some cert ∧ d ∈ Names cert.
Proof. intros Hinv. unfold served. by setoid_rewrite (getAllMatchingCerts_elem names_of); [|done]. Qed.

Lemma served_updateCached c d h f :
  (∀ cert, hash (f cert) = hash cert ∧ Names (f cert) = Names cert) →
  cache_inv names_of c → served c d → served (updateCached h f c) d.
Proof.
  intros Hf Hinv. rewrite !served_cache by auto using updateCached_inv.
  intros (cert & Hc & Hd). unfold updateCached.
  destruct (cache c !! h) as [c0|] eqn:E0; [|eauto]. simpl.
  destruct (decide (hash cert = h)) as [<-|Hne].
  - exists (f cert). destruct (Hf cert) as [-> ->]. rewrite Hc in E0. injection E0 as <-.
    by rewrite lookup_insert_eq.
  - exists cert. by rewrite lookup_insert_ne.
Qed.

Lemma update_cached_ari_served cert a m r m' d :
  cache_inv names_of (m_cache m) → update_cached_ari cert a m = (r, m') →
  served (m_cache m) d → served (m_cache m') d.
Proof.
  intros Hinv. unfold update_cached_ari.
  destruct (cache (m_cache m) !! hash cert); intros [= _ <-]; [|done].
  simpl. by apply served_updateCached.
Qed.

Lemma fetch_ari_served cert issuers a m r m' d :
  cache_inv names_of (m_cache m) → fetch_ari cert issuers a m = (r, m') →
  served (m_cache m) d → served (m_cache m') d.
Proof.
  revert a m. induction issuers as [|iss issuers IH]; intros a m Hinv; simpl; [by intros [= _ <-]|].
  destruct (_ && _); [|by apply IH].
  destruct (on_world _ m) as [[a1 [e|]] m1] eqn:E1; apply on_world_cache in E1;
    rewrite <-E1 in Hinv |- *; [by apply IH|].
  destruct (update_cached_ari cert _ m1) as [[c b] m2] eqn:E2.
  destruct (on_world (on_storage _) m2) as [r3 m3] eqn:E3. apply on_world_cache in E3.
  intros Hrun Hs. apply (update_cached_ari_served _ _ _ _ _ d Hinv E2) in Hs.
  destruct b; injection Hrun as _ <-; [by rewrite E3|done].
Qed.

Lemma refresh_ari_served cfg cert m c m' d :
  cache_inv names_of (m_cache m) → refresh_ari cfg cert m = (c, m') →
  served (m_cache m) d → served (m_cache m') d.
Proof.
  intros Hinv. unfold refresh_ari. destruct (_ && _); [|by intros [= _ <-]].
  unfold updateARI. destruct (Leaf cert); [|by intros [= _ <-]].
  destruct (on_world _ m) as [[[]|e] m1] eqn:E1; apply on_world_cache in E1;
    rewrite <-E1 in Hinv |- *; [|by intros [= _ <-]].
  destruct (updateARI_locked cfg cert m1) as [[[c1 a] err] m2] eqn:E2.
  destruct (on_world (on_locks (releaseLock _ _)) m2) as [r3 m3] eqn:E3. apply on_world_cache in E3.
  intros [= _ <-]. rewrite E3. revert E2. unfold updateARI_locked.
  destruct (storageHasNewerARI _ _) as [[a1|]|e]; [|by apply fetch_ari_served|].
  - destruct (update_cached_ari cert a1 m1) as [[c2 b] m4] eqn:E4. intros [= _ _ _ <-].
    by eapply update_cached_ari_served.
  - destruct (is_panic e); [by intros [= _ _ _ <-]|by apply fetch_ari_served].
Qed.

(** What is loaded for the name in this state has the name and no other, as the
    code assumes of the certificates it manages. *)
Definition loads_named (cfg : Config) (d : string) m : Prop := ∀ cert m',
  loadManagedCertificate cfg d m = (Ok cert, m') → Names cert = [d].

(** The state in which a renewal in the foreground loads the certificate. *)
Definition renew_load (cfg : Config) (d : string) (cert : Certificate) m : option (MState St E N) :=
  if revoked_now cert m then Some (snd (force_request cfg cert d m))
  else
    match refresh_ari cfg cert m with
    | (Ok _, m2) => Some (snd (on_world (RenewCertSync cfg d false) m2))
    | (Err _, _) => None
    end.

(** The state in which [manageOne], started in [m], loads the certificate for a
    second time, if it does: once it is obtained, or renewed. *)
Definition second_load (cfg : Config) (d : string) m : option (MState St E N) :=
  match CacheManagedCertificate cfg d m with
  | (Err _, m1) => Some (snd (on_world (ObtainCertSync cfg d) m1))
  | (Ok cert, m1) => renew_load cfg d cert m1
  end.

Lemma reload_served cfg cert d m c m' :
  loads_named cfg d m → cache_inv names_of (m_cache m) → consistent names_of cert →
  Names cert = [d] → reloadManagedCertificate cfg cert m = (Ok c, m') → served (m_cache m') d.
Proof.
  intros Hl Hinv Hc Hn Hrun.
  destruct (reloadManagedCertificate_Ok names_of _ _ _ _ _ Hmk Hev Hinv Hc Hrun) as (_ & _ & _ & Hf & _).
  assert (Names c = [d]) as Hcn.
  { revert Hrun. unfold reloadManagedCertificate, firstName. rewrite Hn. simpl.
    destruct (loadManagedCertificate cfg d m) as [[c1|] m1] eqn:E1; [|done].
    intros [= <- _]. by eapply Hl. }
  destruct (Hf d) as (c' & Hin & _); [rewrite Hcn; by left|]. by exists c'.
Qed.

Lemma forceRenew_served cfg cert d m c m' :
  loads_named cfg d (snd (force_request cfg cert d m)) → cache_inv names_of (m_cache m) →
  consistent names_of cert → Names cert = [d] →
  forceRenew cfg cert m = ((c, None), m') → served (m_cache m') d.
Proof.
  intros Hl Hinv Hc Hn. unfold forceRenew. assert (firstName cert = Some d) as -> by (unfold firstName; by rewrite Hn).
  destruct (force_request cfg cert d m) as [r1 m1] eqn:E1. simpl in Hl. apply force_request_cache in E1.
  destruct r1 as [[]|e]; [|by destruct (is_panic e)].
  destruct (reloadManagedCertificate cfg cert m1) as [[c1|] m2] eqn:E2; [|done].
  intros [= _ <-]. rewrite <-E1 in Hinv. by eapply reload_served.
Qed.

Lemma CacheManagedCertificate_served cfg d m cert m' :
  loads_named cfg d m → transformSubject cfg d = d → cache_inv names_of (m_cache m) →
  CacheManagedCertificate cfg d m = (Ok cert, m') →
  served (m_cache m') d ∧ consistent names_of cert ∧ Names cert = [d] ∧
  cache_inv names_of (m_cache m').
Proof.
  intros Hl Ht Hinv. unfold CacheManagedCertificate. rewrite Ht.
  destruct (loadManagedCertificate cfg d m) as [[c1|e] m1] eqn:E1; [|done].
  pose proof (Hl _ _ E1) as Hn.
  apply (loadManagedCertificate_Ok names_of) in E1 as (Hc & Hm & _); [|done].
  unfold cacheCert, on_cache. destruct (emit_cached _ _ _ _) as [u m3] eqn:E3.
  apply emit_cached_cache in E3. simpl in E3. intros [= <- <-]. rewrite E3, Hm.
  split; [|split; [done|split; [done|by apply cache_with_inv]]].
  destruct (cached_findable names_of (w_ext (m_world m1)) c1 (m_cache m) d) as (c & Hin & _);
    [done|done|done|rewrite Hn; by left|by exists c].
Qed.

Lemma manage_renew_served cfg d cert m m' :
  (∀ m2, renew_load cfg d cert m = Some m2 → loads_named cfg d m2) →
  cache_inv names_of (m_cache m) → consistent names_of cert →
  Names cert = [d] → served (m_cache m) d →
  manage_renew cfg d false cert m = (Ok tt, m') → served (m_cache m') d.
Proof.
  intros Hl Hinv Hc Hn Hs. unfold manage_renew, renew_load in *. destruct (revoked_now cert m).
  { destruct (forceRenew cfg cert m) as [[c [e|]] m1] eqn:E1; intros [= <-]. eapply forceRenew_served; eauto. }
  destruct (refresh_ari cfg cert m) as [[c|e] m1] eqn:E1; [|done].
  pose proof (refresh_ari_served _ _ _ _ _ d Hinv E1 Hs) as Hs1.
  destruct (refresh_ari_spec _ _ _ _ _ (cache_inv_indexed _ _ Hinv) Hc E1) as (Hr1 & Hc1 & Hn1).
  destruct (needs_renewal cfg c m1) as [[]|]; [|by intros [= <-]|done].
  destruct (on_world _ m1) as [[[]|e] m2] eqn:E2; [|done]. specialize (Hl _ eq_refl). simpl in Hl.
  apply on_world_cache in E2.
  destruct (reloadManagedCertificate cfg c m2) as [[x|e] m3] eqn:E3; intros [= <-].
  eapply reload_served; [done| |exact Hc1|congruence|exact E3].
  rewrite E2. by eapply method_steps_inv.
Qed.

Lemma submit_queued name t (r : RState St E N) :
  name = "" → let r' := snd (submit name t r) in
  ∃ j, j ∈ JobManager.queue (r_jm r') ∧ r_tasks r' !! JobManager.job j = Some t.
Proof.
  intros ->. simpl. set (j := JobManager.MkJob _ _). exists j. split; [|by rewrite list_lookup_middle].
  destruct (JobManager.Submit j (r_jm r)) as [jm' sp] eqn:Es.
  destruct (JobManager.Submit_spec _ _ _ _ Es eq_refl) as (Hq & _). simpl.
  rewrite Hq, elem_of_app, list_elem_of_singleton. by right.
Qed.

(** (C30) A name under management gets its certificate: when [manageOne] succeeds
    in the foreground, a certificate for the name is in the cache; in the
    background, it is there or the job that obtains it waits in the queue. What
    the call finds for the name in storage, at the moments it loads it, has to
    be a certificate for this name alone, and the cache no certificate that was
    written back after it had left. *)
Theorem manageOne_ensures cfg d async r r' :
  loads_named cfg d (r_m r) →
  (async = false → ∀ m2, second_load cfg d (r_m r) = Some m2 → loads_named cfg d m2) →
  transformSubject cfg d = d → cache_inv names_of (m_cache (r_m r)) →
  manageOne cfg d async r = (Ok tt, r') →
  served (m_cache (r_m r')) d ∨
  async = true ∧ ∃ j, j ∈ JobManager.queue (r_jm r') ∧
    r_tasks r' !! JobManager.job j = Some (TaskManageObtain cfg d).
Proof.
  intros Hl Hl2 Ht Hinv. unfold manageOne.
  destruct (existsb managed _) eqn:Ex.
  { intros [= <-]. apply existsb_exists in Ex as (c & Hin & _). left. exists c. by apply list_elem_of_In. }
  unfold second_load in Hl2.
  unfold on_m at 1. destruct (CacheManagedCertificate cfg d (r_m r)) as [[cert|e] m1] eqn:E1;
    pose proof (method_steps_inv _ _ _ (CacheManagedCertificate_runs _ _ _ _ _ E1) Hinv) as Hinv1.
  - apply CacheManagedCertificate_served in E1 as (Hs & Hc & Hn & _); [|done..].
    destruct async; [intros [= <-]; by left|]. unfold on_m. simpl.
    destruct (manage_renew cfg d false cert m1) as [[[]|] m2] eqn:E2; [|done]. intros [= <-].
    left. eapply manage_renew_served; eauto.
  - destruct (negb _); [done|]. destruct async.
    { destruct (submit "" _ _) as [u r2] eqn:Es. intros [= <-]. right. split; [done|].
      pose proof (submit_queued "" (TaskManageObtain cfg d) (MkR m1 (r_jm r) (r_tasks r)) eq_refl) as Hq.
      by rewrite Es in Hq. }
    unfold on_m. simpl. destruct (manage_obtain cfg d false m1) as [[[]|] m2] eqn:E2; [|done].
    intros [= <-]. left. revert E2. unfold manage_obtain.
    specialize (Hl2 eq_refl _ eq_refl).
    destruct (on_world _ m1) as [[[]|] m3] eqn:E3; [|done]. simpl in Hl2. apply on_world_cache in E3.
    destruct (CacheManagedCertificate cfg d m3) as [[c|] m4] eqn:E4; [|done]. intros [= <-].
    apply CacheManagedCertificate_served in E4 as (Hs & _); [done|done|done|by rewrite E3].
Qed.

(** With on-demand TLS, [ManageSync] and [ManageAsync] only record the names,
    and without a decision function exactly the recorded names that qualify
    are then allowed in handshakes. *)
Theorem manageAll_on_demand cfg od ds async r res cfg' r' :
  OnDemand cfg = Some od → od_DecisionFunc od = None → ds ≠ [] →
  manageAll cfg ds async r = ((res, cfg'), r') →
  res = Ok tt ∧ r' = r ∧
  ∀ name, is_Ok (checkIfCertShouldBeObtained cfg' name true) = true ↔
    SubjectQualifiesForCert name = true ∧
    (name ∈ od_hostAllowlist od ∨ ∃ d, d ∈ ds ∧ name = normalizedName d).
Proof.
  intros Hod Hdf Hne Hrun.
  assert (∃ od', res = Ok tt ∧ r' = r ∧ OnDemand cfg' = Some od' ∧ od_DecisionFunc od' = None ∧
    ∀ name, name ∈ od_hostAllowlist od' ↔
      name ∈ od_hostAllowlist od ∨ ∃ d, d ∈ ds ∧ name = normalizedName d)
    as (od' & -> & -> & Hod' & Hdf' & Hal).
  { clear Hne. revert cfg od Hod Hdf Hrun. induction ds as [|d ds IH]; intros cfg od Hod Hdf; simpl.
    - intros [= <- <- <-]. exists od. split; [done|]. split; [done|]. split; [done|]. split; [done|].
      intros name. split; [by left|]. intros [|(x & H%elem_of_nil & _)]; done.
    - rewrite Hod. intros Hrun. eapply (IH _ (allow (normalizedName d) od)) in Hrun; [|done|done].
      destruct Hrun as (od' & ? & ? & ? & ? & Hal). exists od'. do 4 (split; [done|]).
      intros name. rewrite Hal. simpl. rewrite elem_of_union, elem_of_singleton.
      setoid_rewrite elem_of_cons. naive_solver. }
  split; [done|]. split; [done|]. intros name.
  rewrite checkIfCertShouldBeObtained_spec, Hod', Hdf', <-Hal.
  destruct ds as [|d ds]; [done|].
  assert (od_hostAllowlist od' ≠ ∅) as Hnon.
  { intros He. assert (normalizedName d ∈ od_hostAllowlist od') as Hin; [|rewrite He in Hin; set_solver].
    apply Hal. right. exists d. split; [by left|done]. }
  naive_solver.
Qed.
End manageAll_theorems.

(** ** Concrete runs *)

Section manageAll_runs.
Import SimTLS SimACME.

Lemma run_task_refines_witness :
  let m' := snd (run_task (TaskRenewal ex_managed ex_cfg) ex_m) in
  rtc (method_step names) (m_cache ex_m) (m_cache m') ∧ indexed names (m_cache m').
Proof.
  destruct (run_task (TaskRenewal ex_managed ex_cfg) ex_m) as [r m'] eqn:E.
  apply (run_task_refines names sim_make_consistent sim_evictions_valid
           (TaskRenewal ex_managed ex_cfg) ex_m r m').
  - split; [vm_compute; discriminate|reflexivity].
  - exact ex_m_indexed.
  - exact E.
Defined.

Definition ex_fresh : RState MemStorage.t SimExternal.t SimNet.t :=
  MkR (MkM (SimExternal.world ["one"]) (SimNet.Mk 0) cache0) (JobManager.MkManager 2 0 [] ∅) [].

Lemma manageOne_ensures_witness :
  served (m_cache (r_m (snd (manageOne ex_cfg "a.com" false ex_fresh)))) "a.com".
Proof.
  destruct (manageOne_ensures names sim_make_consistent sim_evictions_valid ex_cfg "a.com" false
    ex_fresh (snd (manageOne ex_cfg "a.com" false ex_fresh))) as [H|[H _]].
  - intros cert m' H. vm_compute in H. discriminate H.
  - intros _ m2 H2 cert m' H. vm_compute in H2. injection H2 as <-.
    vm_compute in H. injection H as <- _. reflexivity.
  - reflexivity.
  - exact cache0_inv.
  - vm_compute. reflexivity.
  - exact H.
  - discriminate H.
Defined.

Lemma manageAll_on_demand_witness :
  let cfg := with_OnDemand (Some allow_all) ex_cfg in
  let '((res, cfg'), r') := manageAll cfg [" A.com"] true ex_fresh in
  res = Ok tt ∧ r' = ex_fresh ∧
  ∀ name, is_Ok (checkIfCertShouldBeObtained cfg' name true) = true ↔
    SubjectQualifiesForCert name = true ∧
    (name ∈ od_hostAllowlist allow_all ∨ ∃ d, d ∈ [" A.com"] ∧ name = normalizedName d).
Proof.
  intros cfg. destruct (manageAll cfg [" A.com"] true ex_fresh) as [[res cfg'] r'] eqn:E.
  apply (manageAll_on_demand cfg allow_all [" A.com"] true ex_fresh res cfg' r').
  - reflexivity.
  - reflexivity.
  - discriminate.
  - exact E.
Defined.
End manageAll_runs.
