(* ===== verification/FileLock.v ===== *)
(** * Lock files (filestorage.go)

    [FileStorage.Lock] creates a lock file exclusively, keeps its timestamp
    fresh from a goroutine of its own, and removes a file that it finds stale.
    The file system, the processes in [Lock] and [Unlock] and the goroutines
    that refresh the file interleave; each system call is one step. The steps
    are an executable function of a label, so that runs can be evaluated. *)

From S2P Require Import Prelude.
Open Scope string_scope.

Record lockMeta := MkLockMeta { Created : Time; Updated : Time }.

Definition lockFreshnessInterval : Duration := (5 * Second)%Z.
Definition fileLockPollInterval : Duration := (1 * Second)%Z.
Definition emptyRetryInterval : Duration := (250 * 10 ^ 6)%Z.

Definition fileLockIsStale (now : Time) (meta : lockMeta) : bool :=
  let ref := if time_IsZero (Updated meta) then Created meta else Updated meta in
  (lockFreshnessInterval * 2 <? time_Since now ref)%Z.

(** What decoding the lock file finds: nothing ([io.EOF]), metadata, or
    something else. *)
Inductive content := Empty | Meta (m : lockMeta) | Garbage.

(** A process in [Lock], with the count of empty reads, or holding the lock. *)
Inductive pc :=
| Idle
| Trying (emptyCount : nat)
| Opening (emptyCount : nat)
| Reading (ino : nat) (emptyCount : nat)
| Writing (ino : nat)
| Holding
| Removing (emptyCount : nat)
| Waiting (until : Time) (emptyCount : nat)
| Failed.

(** The goroutine [keepLockfileFresh]: asleep, with the file open, with the
    file read, or after the truncation. *)
Inductive keeper :=
| Sleeping (until : Time)
| Opened (ino : nat)
| Loaded (ino : nat) (meta : lockMeta)
| Truncated (ino : nat) (meta : lockMeta).

(** The name of the lock file may refer to an inode; open files keep theirs
    after the name is gone. *)
Record sys := MkSys {
  now : Time;
  lockfile : option nat;
  inodes : gmap nat content;
  nextIno : nat;
  procs : gmap nat pc;
  keepers : list (nat * keeper)     (* with the process they belong to *)
}.

Definition pc_of (p : nat) (s : sys) : pc := default Idle (procs s !! p).
Definition file_content (s : sys) : option content := ino ← lockfile s; inodes s !! ino.

Definition set_pc (p : nat) (c : pc) (s : sys) : sys :=
  MkSys (now s) (lockfile s) (inodes s) (nextIno s) (<[p := c]> (procs s)) (keepers s).
Definition set_file (f : option nat) (s : sys) : sys :=
  MkSys (now s) f (inodes s) (nextIno s) (procs s) (keepers s).
Definition set_inode (ino : nat) (c : content) (s : sys) : sys :=
  MkSys (now s) (lockfile s) (<[ino := c]> (inodes s)) (nextIno s) (procs s) (keepers s).
Definition set_keepers (ks : list (nat * keeper)) (s : sys) : sys :=
  MkSys (now s) (lockfile s) (inodes s) (nextIno s) (procs s) ks.

(** [os.OpenFile(filename, os.O_CREATE|os.O_WRONLY|os.O_EXCL, 0644)] *)
Definition create (s : sys) : option (nat * sys) :=
  match lockfile s with
  | Some _ => None
  | None =>
      Some (nextIno s, MkSys (now s) (Some (nextIno s)) (<[nextIno s := Empty]> (inodes s))
                         (S (nextIno s)) (procs s) (keepers s))
  end.

(** What [Lock] does with the lock file it has opened and read. *)
Definition inspect (t : Time) (c : content) (emptyCount : nat) : pc :=
  match c with
  | Empty =>
      if (S emptyCount <? 8)%nat then Waiting (t + emptyRetryInterval) (S emptyCount)
      else if fileLockIsStale t (MkLockMeta 0 0) then Removing (S emptyCount)
      else Waiting (t + fileLockPollInterval) (S emptyCount)
  | Meta m =>
      if fileLockIsStale t m then Removing emptyCount
      else Waiting (t + fileLockPollInterval) emptyCount
  | Garbage => Failed
  end.

(** What follows the creation: [Encode], and [createLockfile] starts the
    goroutine that keeps the file fresh. *)
Definition createLockfile (p ino : nat) (s : sys) : sys :=
  let s := set_pc p Holding (set_inode ino (Meta (MkLockMeta (now s) (now s))) s) in
  set_keepers (keepers s ++ [(p, Sleeping (now s + lockFreshnessInterval)%Z)])%list s.

(** The goroutine number [i] ends. *)
Definition terminate (i : nat) (s : sys) : sys := set_keepers (delete i (keepers s)) s.
Definition set_keeper (i p : nat) (k : keeper) (s : sys) : sys :=
  set_keepers (<[i := (p, k)]> (keepers s)) s.

(** A call of [updateLockfileFreshness] in the goroutine [i]: the opening after
    [time.Sleep], reading, truncating and writing. *)
Definition updateLockfileFreshness (i p : nat) (k : keeper) (s : sys) : option sys :=
  match k with
  | Sleeping until =>
      if (until <=? now s)%Z then
        match lockfile s with
        | None => Some (terminate i s)
        | Some ino => Some (set_keeper i p (Opened ino) s)
        end
      else None
  | Opened ino =>
      match inodes s !! ino with
      | Some (Meta m) => Some (set_keeper i p (Loaded ino m) s)
      | _ => Some (terminate i s)
      end
  | Loaded ino m => Some (set_keeper i p (Truncated ino m) (set_inode ino Empty s))
  | Truncated ino m =>
      Some (set_keeper i p (Sleeping (now s + lockFreshnessInterval)%Z)
              (set_inode ino (Meta (MkLockMeta (Created m) (now s))) s))
  end.

(** The system calls of a process and of its keepers, the passing of time and
    crashes; the labels with [Err] are calls that fail, those of writes with
    what they leave in the file. *)
Inductive label :=
| Tick (d : Duration)
| LLock (p : nat)
| LCreate (p : nat)
| LCreateErr (p : nat)
| LWrite (p : nat)
| LWriteErr (p : nat) (c : content)
| LOpen (p : nat)
| LOpenErr (p : nat)
| LRead (p : nat)
| LReadErr (p : nat)
| LWait (p : nat)
| LCancel (p : nat)
| LRemove (p : nat)
| LRemoveErr (p : nat)
| LUnlock (p : nat)
| LUnlockErr (p : nat)
| LCrash (p : nat)
| KNext (i : nat)
| KErr (i : nat)
| KWriteErr (i : nat) (c : content).

Definition exec (l : label) (s : sys) : option sys :=
  match l with
  | Tick d =>
      if (0 <=? d)%Z
      then Some (MkSys (now s + d) (lockfile s) (inodes s) (nextIno s) (procs s) (keepers s))
      else None
  | LLock p => match pc_of p s with Idle | Failed => Some (set_pc p (Trying 0) s) | _ => None end
  | LCreate p =>
      match pc_of p s with
      | Trying n =>
          match create s with
          | Some (ino, s) => Some (set_pc p (Writing ino) s)
          | None => Some (set_pc p (Opening n) s)
          end
      | _ => None
      end
  | LCreateErr p => match pc_of p s with Trying _ => Some (set_pc p Failed s) | _ => None end
  | LWrite p =>
      match pc_of p s with
      | Writing ino => Some (createLockfile p ino s)
      | _ => None
      end
  | LWriteErr p c =>
      match pc_of p s with
      | Writing ino => Some (set_pc p Failed (set_inode ino c s))
      | _ => None
      end
  | LOpen p =>
      match pc_of p s with
      | Opening n =>
          match lockfile s with
          | None => Some (set_pc p (Trying n) s)
          | Some ino => Some (set_pc p (Reading ino n) s)
          end
      | _ => None
      end
  | LOpenErr p => match pc_of p s with Opening _ => Some (set_pc p Failed s) | _ => None end
  | LRead p =>
      match pc_of p s with
      | Reading ino n => c ← inodes s !! ino; Some (set_pc p (inspect (now s) c n) s)
      | _ => None
      end
  | LReadErr p => match pc_of p s with Reading _ _ => Some (set_pc p Failed s) | _ => None end
  | LWait p =>
      match pc_of p s with
      | Waiting until n => if (until <=? now s)%Z then Some (set_pc p (Trying n) s) else None
      | _ => None
      end
  | LCancel p => match pc_of p s with Waiting _ _ => Some (set_pc p Failed s) | _ => None end
  | LRemove p =>
      match pc_of p s with
      | Removing n => Some (set_pc p (Trying n) (set_file None s))
      | _ => None
      end
  | LRemoveErr p => match pc_of p s with Removing _ => Some (set_pc p Failed s) | _ => None end
  | LUnlock p =>
      match pc_of p s with Holding => Some (set_pc p Idle (set_file None s)) | _ => None end
  | LUnlockErr p => match pc_of p s with Holding => Some (set_pc p Idle s) | _ => None end
  | LCrash p =>
      Some (set_keepers (filter (λ k, k.1 ≠ p) (keepers s)) (set_pc p Idle s))
  | KNext i => '(p, k) ← keepers s !! i; updateLockfileFreshness i p k s
  | KErr i =>
      match keepers s !! i with
      | Some _ => Some (terminate i s)
      | None => None
      end
  | KWriteErr i c =>
      match keepers s !! i with
      | Some (_, Truncated ino _) => Some (terminate i (set_inode ino c s))
      | _ => None
      end
  end.

Definition step (s s' : sys) : Prop := ∃ l, exec l s = Some s'.
Definition execs (ls : list label) (s : sys) : option sys :=
  foldl (λ s l, s ← s; exec l s) (Some s) ls.

Definition init (t : Time) : sys := MkSys t None ∅ 0 ∅ [].

(** ** Mutual exclusion *)

(** Between the creation of the lock file and [Unlock]. *)
Definition owns (p : nat) (s : sys) : Prop :=
  match pc_of p s with Writing _ | Holding => True | _ => False end.

(** Nothing looks abandoned: the metadata in a lock file that is open for
    reading is not stale, and its reader has not met an empty one seven times. *)
Definition calm (s : sys) : Prop :=
  ∀ p ino n, pc_of p s = Reading ino n →
    (∀ m, inodes s !! ino = Some (Meta m) → fileLockIsStale (now s) m = false) ∧ (n < 7)%nat.

Record exclusive (s : sys) : Prop := {
  one_owner : ∀ p q, owns p s → owns q s → p = q;
  owner_file : ∀ p, owns p s → is_Some (lockfile s);
  writer_file : ∀ p ino, pc_of p s = Writing ino → lockfile s = Some ino;
  none_removing : ∀ p n, pc_of p s ≠ Removing n
}.

Lemma pc_of_set_pc q p c s : pc_of q (set_pc p c s) = if decide (q = p) then c else pc_of q s.
Proof.
  unfold pc_of, set_pc. simpl. destruct (decide (q = p)) as [->|Hne].
  - by rewrite lookup_insert_eq.
  - by rewrite lookup_insert_ne.
Qed.

(** A step that makes nobody an owner and leaves the lock file keeps
    exclusion. *)
Lemma exclusive_quiet s s' :
  exclusive s → lockfile s' = lockfile s →
  (∀ q, pc_of q s' = pc_of q s ∨ ¬ owns q s' ∧ ∀ n, pc_of q s' ≠ Removing n) → exclusive s'.
Proof.
  intros [H1 H2 H3 H4] Hf Hq.
  assert (∀ q, owns q s' → owns q s ∧ pc_of q s' = pc_of q s) as Ho.
  { intros q Hown. destruct (Hq q) as [E|[Hn _]]; [|done].
    split; [|done]. unfold owns in *. by rewrite <-E. }
  split.
  - intros p q Hp%Ho Hqo%Ho. apply H1; tauto.
  - intros p Hp%Ho. rewrite Hf. apply (H2 p). tauto.
  - intros p ino Hp. rewrite Hf. destruct (Ho p) as [_ E]; [unfold owns; rewrite Hp; exact I|].
    apply (H3 p). by rewrite <-E.
  - intros p n. destruct (Hq p) as [->|[_ Hn]]; auto.
Qed.

Lemma exclusive_set_pc p c s :
  exclusive s → match c with Writing _ | Holding | Removing _ => False | _ => True end →
  exclusive (set_pc p c s).
Proof.
  intros Hex Hc. apply (exclusive_quiet s); [done|done|]. intros q. unfold owns.
  rewrite pc_of_set_pc. destruct (decide (q = p)); [right|by left]. destruct c; try done; (split; [tauto|done]).
Qed.

(** Only the process records and the name of the lock file matter. *)
Lemma exclusive_other s s' :
  procs s' = procs s → lockfile s' = lockfile s → exclusive s → exclusive s'.
Proof.
  intros Hp Hf Hex. apply (exclusive_quiet s); [done|done|]. intros q. left.
  unfold pc_of. by rewrite Hp.
Qed.

Lemma inspect_calm s c n p ino :
  calm s → pc_of p s = Reading ino n → inodes s !! ino = Some c →
  match inspect (now s) c n with Writing _ | Holding | Removing _ => False | _ => True end.
Proof.
  intros Hcalm Hp Hc. destruct (Hcalm _ _ _ Hp) as [Hst Hn]. unfold inspect.
  destruct c as [|m|]; [|..|done].
  - by rewrite (proj2 (Nat.ltb_lt (S n) 8)) by lia.
  - by rewrite (Hst m Hc).
Qed.

Lemma exclusive_create p s ino s1 n :
  exclusive s → pc_of p s = Trying n → create s = Some (ino, s1) →
  exclusive (set_pc p (Writing ino) s1).
Proof.
  intros [H1 H2 H3 H4] Hp. unfold create. destruct (lockfile s) eqn:Ef; [done|]. intros [= <- <-].
  assert (∀ q, ¬ owns q s) as Hnone.
  { intros q Hq. destruct (H2 q Hq) as [? ?]. congruence. }
  set (s1 := MkSys _ _ _ _ _ _).
  assert (∀ q, pc_of q s1 = pc_of q s) as Hpc by done.
  assert (∀ q, owns q (set_pc p (Writing (nextIno s)) s1) → q = p) as Hown.
  { intros q. unfold owns. rewrite pc_of_set_pc. destruct (decide (q = p)); [done|].
    intros Ho. by destruct (Hnone q). }
  split.
  - intros q q' ->%Hown ->%Hown. done.
  - intros q _. simpl. eauto.
  - intros q ino. rewrite pc_of_set_pc. destruct (decide (q = p)); [by intros [= <-]|].
    intros Hq. exfalso. apply (Hnone q). unfold owns. rewrite <-Hpc, Hq. exact I.
  - intros q m. rewrite pc_of_set_pc. destruct (decide (q = p)); [done|]. rewrite Hpc. apply H4.
Qed.

(** The holder gets on: writes its metadata, or unlocks. *)
Lemma exclusive_hold p s ino :
  exclusive s → pc_of p s = Writing ino → exclusive (set_pc p Holding s).
Proof.
  intros [H1 H2 H3 H4] Hp. assert (owns p s) as Ho by (unfold owns; rewrite Hp; exact I).
  assert (∀ q, owns q (set_pc p Holding s) → q = p) as Hown.
  { intros q. unfold owns. rewrite pc_of_set_pc. destruct (decide (q = p)); [done|].
    intros Hq. by apply H1. }
  split.
  - intros q q' ->%Hown ->%Hown. done.
  - intros q _. by apply (H2 p).
  - intros q ino'. rewrite pc_of_set_pc. destruct (decide (q = p)); [done|]. apply H3.
  - intros q m. rewrite pc_of_set_pc. destruct (decide (q = p)); [done|]. apply H4.
Qed.

Lemma exclusive_unlock p s :
  exclusive s → pc_of p s = Holding → exclusive (set_pc p Idle (set_file None s)).
Proof.
  intros [H1 H2 H3 H4] Hp. assert (owns p s) as Ho by (unfold owns; rewrite Hp; exact I).
  assert (∀ q, ¬ owns q (set_pc p Idle (set_file None s))) as Hown.
  { intros q. unfold owns. rewrite pc_of_set_pc. destruct (decide (q = p)) as [|Hne]; [tauto|].
    intros Hq. apply Hne. by apply H1. }
  split.
  - by intros q q' Hq%Hown.
  - by intros q Hq%Hown.
  - intros q ino Hq. exfalso. apply (Hown q). unfold owns. rewrite Hq. exact I.
  - intros q m. rewrite pc_of_set_pc. destruct (decide (q = p)); [done|]. apply H4.
Qed.

Lemma exclusive_step s s' : calm s → step s s' → exclusive s → exclusive s'.
Proof.
  intros Hcalm [l Hl] Hex.
  destruct l as [d|p|p|p|p|p c|p|p|p|p|p|p|p|p|p|p|p|i|i|i c]; simpl in Hl.
  1: destruct (0 <=? d)%Z; simplify_eq; by apply (exclusive_other s).
  16: simplify_eq; apply (exclusive_other (set_pc p Idle s)); [done|done|by apply exclusive_set_pc].
  16: destruct (keepers s !! i) as [[p k]|]; [|done]; simpl in Hl;
    unfold updateLockfileFreshness in Hl; repeat case_match; simplify_eq;
    by apply (exclusive_other s).
  16-17: repeat case_match; simplify_eq; by apply (exclusive_other s).
  all: destruct (pc_of p s) as [|n|n|ino n|ino| |n|u n|] eqn:Hp; try done.
  all: try (simplify_eq; by apply exclusive_set_pc).
  - destruct (create s) as [[ino s1]|] eqn:Ec; simplify_eq; [by eapply exclusive_create|].
    by apply exclusive_set_pc.
  - simplify_eq. apply (exclusive_other (set_pc p Holding s)); [done|done|by eapply exclusive_hold].
  - simplify_eq. apply (exclusive_other (set_pc p Failed s)); [done|done|by apply exclusive_set_pc].
  - destruct (lockfile s) eqn:Ef; simplify_eq; by apply exclusive_set_pc.
  - destruct (inodes s !! ino) as [c|] eqn:Ec; simplify_eq/=. apply exclusive_set_pc; [done|].
    by eapply inspect_calm.
  - case_match; simplify_eq. by apply exclusive_set_pc.
  - exfalso. by eapply none_removing.
  - simplify_eq. by apply exclusive_unlock.
Qed.

Lemma exclusive_init t : exclusive (init t).
Proof. split; done. Qed.

(** An execution in which nothing looks abandoned. *)
Definition calm_step (s s' : sys) : Prop := calm s ∧ step s s'.

(** (C17) The lock file excludes: as long as the lock files that are read are kept
    fresh and are not found empty too often, at most one process at a time is between
    creating it and [Unlock], whatever the interleaving, the crashes and the
    failures of other calls, and the file is there while it is. *)
Theorem FileLock_exclusive t s p q :
  rtc calm_step (init t) s → owns p s → owns q s → p = q ∧ is_Some (lockfile s).
Proof.
  intros Hrun Hp Hq. assert (exclusive s) as [H1 H2 _ _].
  { clear Hp Hq. generalize (exclusive_init t). generalize dependent (init t). intros s0 Hrun.
    induction Hrun as [|s0 s1 s2 [Hc Hs] _ IH]; [done|]. intros Hex.
    apply IH. by eapply exclusive_step. }
  split; [by apply H1|by apply (H2 p)].
Qed.

(** ** Stale locks *)

(** (C32) A stale lock is no obstacle: a process that tries to get the lock while
    the lock file is stale gets it with its next six system calls, if no other
    process comes in between, and the lock file is fresh afterwards. *)
Theorem stale_lock_recovered s p n m :
  pc_of p s = Trying n → file_content s = Some (Meta m) → fileLockIsStale (now s) m = true →
  ∃ s', execs [LCreate p; LOpen p; LRead p; LRemove p; LCreate p; LWrite p] s = Some s' ∧
    pc_of p s' = Holding ∧ file_content s' = Some (Meta (MkLockMeta (now s) (now s))) ∧
    now s' = now s.
Proof.
  intros Hp Hf Hst. unfold file_content in Hf. destruct (lockfile s) as [ino|] eqn:El; [|done].
  simpl in Hf. unfold execs. cbn [foldl mbind option_bind].
  assert (exec (LCreate p) s = Some (set_pc p (Opening n) s)) as ->.
  { simpl. rewrite Hp. unfold create. by rewrite El. }
  cbn [mbind option_bind]. set (s1 := set_pc p (Opening n) s).
  assert (exec (LOpen p) s1 = Some (set_pc p (Reading ino n) s1)) as ->.
  { unfold exec, s1. rewrite pc_of_set_pc, decide_True by done. simpl. by rewrite El. }
  cbn [mbind option_bind]. set (s1' := set_pc p (Reading ino n) s1).
  assert (exec (LRead p) s1' = Some (set_pc p (Removing n) s1')) as ->.
  { unfold exec, s1'. rewrite pc_of_set_pc, decide_True by done. simpl.
    rewrite Hf. simpl. by rewrite Hst. }
  cbn [mbind option_bind]. set (s2 := set_pc p (Removing n) s1').
  assert (exec (LRemove p) s2 = Some (set_pc p (Trying n) (set_file None s2))) as ->.
  { unfold exec, s2. by rewrite pc_of_set_pc, decide_True by done. }
  cbn [mbind option_bind]. set (s3 := set_pc p (Trying n) (set_file None s2)).
  set (s4 := MkSys (now s) (Some (nextIno s)) (<[nextIno s := Empty]> (inodes s)) (S (nextIno s))
               (procs s3) (keepers s)).
  assert (exec (LCreate p) s3 = Some (set_pc p (Writing (nextIno s)) s4)) as ->.
  { unfold exec, s3. by rewrite pc_of_set_pc, decide_True by done. }
  cbn [mbind option_bind]. unfold exec. rewrite pc_of_set_pc, decide_True by done.
  eexists. split; [reflexivity|]. unfold pc_of, file_content. simpl.
  by rewrite !lookup_insert_eq.
Qed.

(** *** What can go wrong *)

(** The run of a label list with a check of every state on the way. *)
Fixpoint execs_with (ok : sys → bool) (ls : list label) (s : sys) : option sys :=
  if ok s then
    match ls with
    | [] => Some s
    | l :: rest => match exec l s with Some s' => execs_with ok rest s' | None => None end
    end
  else None.

(** The lock file in place is not stale. *)
Definition timely (s : sys) : bool :=
  match file_content s with Some (Meta m) => negb (fileLockIsStale (now s) m) | _ => true end.

(** No crash, no failing call. *)
Definition faultless (l : label) : bool :=
  match l with
  | LCreateErr _ | LWriteErr _ _ | LOpenErr _ | LReadErr _ | LCancel _ | LRemoveErr _
  | LUnlockErr _ | LCrash _ | KErr _ | KWriteErr _ _ => false
  | _ => true
  end.

Definition t0 : Time := (100 * 24 * Hour)%Z.

(** Process 0 holds the lock and refreshes it every five seconds; process 1
    polls and reads the file between the truncation and the write. *)
Definition empty_round (first : bool) : list label :=
  [Tick lockFreshnessInterval] ++ (if first then [] else [LWait 1]) ++
  [LCreate 1; LOpen 1; KNext 0; KNext 0; KNext 0; LRead 1; KNext 0].
Definition empty_run : list label :=
  [LLock 0; LCreate 0; LWrite 0; LLock 1] ++ empty_round true ++
  mjoin (replicate 7 (empty_round false)) ++ [LRemove 1; LCreate 1; LWrite 1].

(** Mutual exclusion fails without any fault: the count of empty reads is
    never reset, so that a process that waits long enough to read the file
    eight times while its holder refreshes it removes a lock file that is
    fresh and in use. In the run there is no crash and no failing call, the
    lock file is never stale, and in the end both processes hold the lock. *)
Theorem FileLock_empty_reads :
  forallb faultless empty_run = true ∧
  ∃ s, execs_with timely empty_run (init t0) = Some s ∧
    pc_of 0 s = Holding ∧ pc_of 1 s = Holding.
Proof. split; [reflexivity|]. eexists. split; [vm_compute; reflexivity|]. split; reflexivity. Qed.

(** Process 0 locks and unlocks, process 1 locks while the keeper of process 0
    still sleeps, and crashes. *)
Definition orphan_run : list label :=
  [LLock 0; LCreate 0; LWrite 0; LUnlock 0; LLock 1; LCreate 1; LWrite 1; LCrash 1].
Definition orphaned : sys := default (init t0) (execs orphan_run (init t0)).

(** A keeper, a lock file and no owner. *)
Record kept (s : sys) : Prop := {
  kept_keeper : ∃ p u, keepers s = [(p, Sleeping u)] ∧ (u ≤ now s + lockFreshnessInterval)%Z;
  kept_file : ∃ ino m, lockfile s = Some ino ∧ inodes s !! ino = Some (Meta m) ∧
                       Updated m = now s ∧ now s ≠ 0%Z;
  kept_orphan : ∀ p, pc_of p s = Idle
}.

Lemma kept_round s :
  kept s → ∃ s', execs [Tick lockFreshnessInterval; KNext 0; KNext 0; KNext 0; KNext 0] s = Some s' ∧
    ((0 ≤ now s)%Z → kept s') ∧ now s' = (now s + lockFreshnessInterval)%Z.
Proof.
  intros [(p & u & Hk & Hu) (ino & m & Hl & Hi & Hm & Hz) Ho]. unfold execs.
  cbn [foldl mbind option_bind].
  set (s1 := MkSys (now s + lockFreshnessInterval) (lockfile s) (inodes s) (nextIno s) (procs s)
               (keepers s)).
  assert (exec (Tick lockFreshnessInterval) s = Some s1) as -> by reflexivity.
  cbn [mbind option_bind].
  assert (exec (KNext 0) s1 = Some (set_keepers [(p, Opened ino)] s1)) as ->.
  { unfold exec, s1. cbn [keepers]. rewrite Hk. cbn [lookup list_lookup mbind option_bind].
    unfold updateLockfileFreshness. cbn [lockfile now]. rewrite (proj2 (Z.leb_le _ _) Hu), Hl.
    done. }
  cbn [mbind option_bind].
  assert (exec (KNext 0) (set_keepers [(p, Opened ino)] s1)
          = Some (set_keepers [(p, Loaded ino m)] s1)) as ->.
  { unfold exec. cbn [keepers set_keepers lookup list_lookup mbind option_bind].
    unfold updateLockfileFreshness. cbn [set_keepers inodes s1]. by rewrite Hi. }
  eexists. split; [reflexivity|]. split; [|done]. intros Hnow. split.
  - exists p. eexists. split; [reflexivity|]. simpl. lia.
  - exists ino. eexists. split; [done|]. simpl. rewrite lookup_insert_eq.
    split; [reflexivity|]. split; [done|]. unfold lockFreshnessInterval, Second. simpl in *. lia.
  - done.
Qed.

Lemma kept_orphaned : kept orphaned.
Proof.
  split.
  - exists 0%nat, (t0 + lockFreshnessInterval)%Z. split; [vm_compute; reflexivity|vm_compute; discriminate].
  - exists 1%nat, (MkLockMeta t0 t0). split; [vm_compute; reflexivity|].
    split; [vm_compute; reflexivity|]. split; [vm_compute; reflexivity|vm_compute; discriminate].
  - intros p. assert (procs orphaned = <[1%nat := Idle]> (<[0%nat := Idle]> ∅)) as E
      by (vm_compute; reflexivity).
    unfold pc_of. rewrite E. destruct (decide (p = 1%nat)) as [->|]; [done|].
    rewrite lookup_insert_ne by done. destruct (decide (p = 0%nat)) as [->|]; [done|].
    by rewrite lookup_insert_ne.
Qed.

(** A lock can be orphaned for good: the goroutine that keeps a lock file
    fresh looks only at its name, so after [Unlock] it goes on with the file of
    the next owner. When that owner crashes, the lock file is refreshed for as
    long as the first process lives: at any later time nobody owns the lock
    and yet the lock file is not stale. *)
Theorem FileLock_orphan_kept (n : nat) :
  ∃ ls s, execs ls orphaned = Some s ∧ now s = (now orphaned + Z.of_nat n * lockFreshnessInterval)%Z ∧
    (∀ p, ¬ owns p s) ∧ is_Some (lockfile s) ∧ timely s = true.
Proof.
  assert (∀ s, kept s → (∀ p, ¬ owns p s) ∧ is_Some (lockfile s) ∧ timely s = true) as Hkept.
  { intros s [_ (ino & m & Hl & Hi & Hm & Hz) Ho]. split; [intros p; unfold owns; rewrite Ho; tauto|].
    split; [eauto|]. unfold timely, file_content. rewrite Hl. simpl. rewrite Hi.
    unfold fileLockIsStale. rewrite Hm. unfold time_IsZero.
    rewrite (proj2 (Z.eqb_neq _ _) Hz). unfold time_Since. rewrite time_Sub_exact; [|].
    - by rewrite Z.sub_diag.
    - unfold in_int64. rewrite Z.sub_diag. by vm_compute. }
  enough (∃ ls s, execs ls orphaned = Some s ∧
    now s = (now orphaned + Z.of_nat n * lockFreshnessInterval)%Z ∧ kept s)
    as (ls & s & Hr & Hn & Hk) by (exists ls, s; auto).
  induction n as [|n (ls & s & Hr & Hn & Hk)].
  - exists [], orphaned. split; [done|]. split; [lia|apply kept_orphaned].
  - destruct (kept_round s Hk) as (s' & Hr' & Hk' & Hn').
    exists (ls ++ [Tick lockFreshnessInterval; KNext 0; KNext 0; KNext 0; KNext 0])%list, s'.
    split; [|split; [lia|]].
    + unfold execs in *. by rewrite foldl_app, Hr.
    + apply Hk'. rewrite Hn. assert (0 ≤ now orphaned)%Z by (by vm_compute).
      unfold lockFreshnessInterval, Second. lia.
Qed.

(** ** Concrete runs *)

(** Process 0 holds, process 1 waits. *)
Definition ex_locked : sys :=
  default (init t0) (execs [LLock 0; LCreate 0; LWrite 0; LLock 1; LCreate 1; LOpen 1; LRead 1] (init t0)).

(** [calm] as a check. *)
Definition calmb (s : sys) : bool :=
  forallb (λ pp, match pp.2 with
                 | Reading ino n =>
                     (match inodes s !! ino with
                      | Some (Meta m) => negb (fileLockIsStale (now s) m)
                      | _ => true
                      end && (n <? 7)%nat)%bool
                 | _ => true
                 end) (map_to_list (procs s)).

Lemma calmb_calm s : calmb s = true → calm s.
Proof.
  intros Hf p ino n. unfold pc_of. destruct (procs s !! p) as [c|] eqn:E; [|done]. simpl. intros ->.
  unfold calmb in Hf. rewrite forallb_forall in Hf.
  specialize (Hf (p, Reading ino n)). simpl in Hf.
  destruct (andb_prop _ _ (Hf ltac:(by apply list_elem_of_In, elem_of_map_to_list))) as [Hm Hn].
  split; [|by apply Nat.ltb_lt]. intros m Hi. rewrite Hi in Hm. by apply negb_true_iff.
Qed.

Lemma execs_with_calm ls s s' : execs_with calmb ls s = Some s' → rtc calm_step s s'.
Proof.
  revert s. induction ls as [|l ls IH]; intros s; simpl; destruct (calmb s) eqn:Ec; try done.
  - intros [= <-]. apply rtc_refl.
  - destruct (exec l s) as [s1|] eqn:El; [|done]. intros Hrun.
    eapply rtc_l; [|by apply IH]. split; [by apply calmb_calm|by exists l].
Qed.

Lemma FileLock_exclusive_witness : owns 0 ex_locked ∧ (0%nat = 0%nat ∧ is_Some (lockfile ex_locked)).
Proof.
  assert (owns 0 ex_locked) as H by (vm_compute; exact I).
  split; [exact H|]. apply (FileLock_exclusive t0 ex_locked 0 0); [|exact H|exact H].
  apply (execs_with_calm [LLock 0; LCreate 0; LWrite 0; LLock 1; LCreate 1; LOpen 1; LRead 1]).
  vm_compute. reflexivity.
Defined.

(** Twenty seconds after a crash. *)
Definition ex_stale : sys :=
  default (init t0)
    (execs [LLock 0; LCreate 0; LWrite 0; LCrash 0; Tick (20 * Second); LLock 1] (init t0)).

Lemma stale_lock_recovered_witness :
  ∃ s', execs [LCreate 1; LOpen 1; LRead 1; LRemove 1; LCreate 1; LWrite 1] ex_stale = Some s' ∧
    pc_of 1 s' = Holding ∧
    file_content s' = Some (Meta (MkLockMeta (now ex_stale) (now ex_stale))) ∧
    now s' = now ex_stale.
Proof.
  apply (stale_lock_recovered ex_stale 1 0 (MkLockMeta t0 t0)); vm_compute; reflexivity.
Defined.
