(* ===== verification/AtomicFile.v ===== *)
(** * Writing files atomically (filestorage.go, internal/atomicfile)

    [FileStorage.Store] writes a value to a temporary file beside its
    destination and renames it. The files are a map from paths to contents.
    Each system call is a step that succeeds or fails, and the process may stop
    after any of them: a reader of the destination sees the old value or the
    new one, never a part. *)

From S2P Require Import Prelude GoStrings.
Open Scope string_scope.

Section atomicfile.
(** [a.f.Name()] of [os.CreateTemp], the destination, and the value. *)
Context (tmp filename : string) (value : bytes).

(** The next call of [newFile] and of [Close]. *)
Inductive newFile_pc := CreateTemp | Chmod.
Inductive close_pc := Sync | Close | Rename.

(** The next call of [Store]: [newFile], [Write], then [Close] or [Cancel]. A
    failing call leads to the clean-up that returns its error, if there is one. *)
Inductive store_pc :=
| SMkdirAll
| SNew (c : newFile_pc)
| SWrite
| SClose (c : close_pc)
| SCancel (e : error)
| SRemove (e : error)
| SReturn (r : result unit).

Definition newFile_step (ok : bool) (c : newFile_pc) (files : gmap string bytes) :
    store_pc * gmap string bytes :=
  match c with
  | CreateTemp =>
      if ok then (SNew Chmod, <[tmp := ""]> files)
      else (SReturn (Err (Errorf "failed to create temp file")), files)
  | Chmod =>
      (if ok then SWrite else SReturn (Err (Errorf "failed to change temp file permissions")), files)
  end.

Definition Close_step (ok : bool) (c : close_pc) (files : gmap string bytes) :
    store_pc * gmap string bytes :=
  match c with
  | Sync => (if ok then SClose Close else SRemove (Errorf "failed to sync temp file"), files)
  | Close => (if ok then SClose Rename else SRemove (Errorf "failed to close temp file"), files)
  | Rename =>
      match files !! tmp with
      | Some v =>
          if ok then (SReturn (Ok tt), <[filename := v]> (delete tmp files))
          else (SRemove (Errorf "failed to rename"), files)
      | None => (SRemove (Errorf "failed to rename"), files)
      end
  end.

(** [os.Remove(a.f.Name())] of [Cancel] and of the deferred function of
    [Close], whose error is ignored. *)
Definition remove_tmp (ok : bool) (files : gmap string bytes) : gmap string bytes :=
  if ok then delete tmp files else files.

(** One call, with whether it succeeds; [written] is the part of the value that
    a failing write leaves in the file. *)
Definition store_step (ok : bool) (written : bytes) (pc : store_pc) (files : gmap string bytes) :
    store_pc * gmap string bytes :=
  match pc with
  | SMkdirAll => (if ok then SNew CreateTemp else SReturn (Err (Errorf "mkdir")), files)
  | SNew c => newFile_step ok c files
  | SWrite =>
      if ok then (SClose Sync, <[tmp := value]> files)
      else (SCancel (Errorf "write"), <[tmp := written]> files)
  | SClose c => Close_step ok c files
  | SCancel e => (SRemove e, files)
  | SRemove e => (SReturn (Err e), remove_tmp ok files)
  | SReturn r => (SReturn r, files)
  end.

(** The run of the calls with the given outcomes. *)
Fixpoint store_run (outcomes : list (bool * bytes)) (pc : store_pc) (files : gmap string bytes) :
    store_pc * gmap string bytes :=
  match outcomes with
  | [] => (pc, files)
  | (ok, written) :: rest =>
      let '(pc, files) := store_step ok written pc files in store_run rest pc files
  end.

(** ** Theorems *)

Hypothesis tmp_other : tmp ≠ filename.

(** The temporary file exists from its creation to its end. *)
Definition has_tmp (pc : store_pc) (files : gmap string bytes) : Prop :=
  match pc with
  | SMkdirAll | SNew CreateTemp => files !! tmp = None
  | SNew Chmod | SWrite | SCancel _ | SRemove _ => is_Some (files !! tmp)
  | SClose _ => files !! tmp = Some value
  | SReturn _ => True
  end.

(** Where the run is, compared with the files at its start. *)
Record store_inv (files0 : gmap string bytes) (pc : store_pc) (files : gmap string bytes) : Prop := {
  si_others : ∀ k, k ≠ tmp → k ≠ filename → files !! k = files0 !! k;
  si_target : files !! filename = match pc with
                                  | SReturn (Ok _) => Some value
                                  | _ => files0 !! filename
                                  end;
  si_tmp : has_tmp pc files;
  si_done : pc = SReturn (Ok tt) → files !! tmp = None
}.

Lemma store_inv_step files0 ok written pc files pc' files' :
  store_inv files0 pc files → store_step ok written pc files = (pc', files') →
  store_inv files0 pc' files'.
Proof using tmp_other.
  intros [Ho Ht Htmp Hd]. destruct pc as [ |[]| |[]|e|e|r]; simpl in *.
  - destruct ok; intros [= <- <-]; by split.
  - destruct ok; intros [= <- <-]; split; simpl; try done.
    + intros k H1 H2. rewrite lookup_insert_ne by done. auto.
    + by rewrite lookup_insert_ne.
    + rewrite lookup_insert_eq. eauto.
  - destruct ok; intros [= <- <-]; by split.
  - assert (∀ v k, k ≠ tmp → <[tmp := v]> files !! k = files !! k) as Hne
      by (intros v k Hk; by rewrite lookup_insert_ne).
    destruct ok; intros [= <- <-]; split; simpl; try done.
    all: try (intros k H1 H2; rewrite Hne by done; auto).
    all: try (by rewrite Hne).
    all: rewrite lookup_insert_eq; eauto.
  - destruct ok; intros [= <- <-]; split; simpl; try done; eauto.
  - destruct ok; intros [= <- <-]; split; simpl; try done; eauto.
  - rewrite Htmp. destruct ok; intros [= <- <-]; split; simpl; try done; eauto.
    + intros k H1 H2. rewrite lookup_insert_ne, lookup_delete_ne by done. auto.
    + by rewrite lookup_insert_eq.
    + intros _. rewrite lookup_insert_ne by done. by rewrite lookup_delete_eq.
  - intros [= <- <-]. by split.
  - destruct ok; intros [= <- <-]; split; simpl; try done.
    + intros k H1 H2. rewrite lookup_delete_ne by done. auto.
    + by rewrite lookup_delete_ne.
  - intros [= <- <-]. by split.
Qed.

Lemma store_inv_run files0 outcomes pc files pc' files' :
  store_inv files0 pc files → store_run outcomes pc files = (pc', files') →
  store_inv files0 pc' files'.
Proof using tmp_other.
  revert pc files. induction outcomes as [|[ok w] outcomes IH]; intros pc files Hi; simpl.
  { by intros [= <- <-]. }
  destruct (store_step ok w pc files) as [pc1 files1] eqn:E1.
  apply IH. by eapply store_inv_step.
Qed.

(** The calls that are left at most. *)
Definition calls_left (pc : store_pc) : nat :=
  match pc with
  | SMkdirAll => 8 | SNew CreateTemp => 7 | SNew Chmod => 6 | SWrite => 5
  | SClose Sync => 4 | SClose Close => 3 | SClose Rename => 2 | SCancel _ => 2 | SRemove _ => 1 | SReturn _ => 0
  end.

Lemma store_step_progress ok written pc files :
  (calls_left (fst (store_step ok written pc files)) ≤ pred (calls_left pc))%nat.
Proof.
  destruct pc as [ |[]| |[]|e|e|r], ok; simpl; try lia; destruct (files !! tmp); simpl; lia.
Qed.

Lemma store_run_returns outcomes pc files :
  (calls_left pc ≤ length outcomes)%nat →
  ∃ r, fst (store_run outcomes pc files) = SReturn r.
Proof.
  revert pc files. induction outcomes as [|[ok w] outcomes IH]; intros pc files Hl; simpl in *.
  - destruct pc as [ |[]| |[]|e|e|r]; simpl in Hl; try lia. eauto.
  - pose proof (store_step_progress ok w pc files) as Hp.
    destruct (store_step ok w pc files) as [pc1 files1]. simpl in Hp. apply IH. lia.
Qed.

Lemma store_inv_init files : files !! tmp = None → store_inv files SMkdirAll files.
Proof. by split. Qed.

(** (C18) [Store] is atomic: however its system calls turn out and wherever the
    process stops, the destination has its old value or the new one, and other
    files are untouched; when [Store] returns nil the value is there and the
    temporary file is gone, when it returns an error the destination is as
    before; and it returns after at most eight calls. *)
Theorem Store_atomic files outcomes pc' files' :
  files !! tmp = None → store_run outcomes SMkdirAll files = (pc', files') →
  (files' !! filename = files !! filename ∨ files' !! filename = Some value) ∧
  (∀ k, k ≠ tmp → k ≠ filename → files' !! k = files !! k) ∧
  (pc' = SReturn (Ok tt) → files' = <[filename := value]> files) ∧
  (∀ e, pc' = SReturn (Err e) → files' !! filename = files !! filename) ∧
  ((8 ≤ length outcomes)%nat → ∃ r, pc' = SReturn r).
Proof using tmp_other.
  intros Htmp Hrun.
  destruct (store_inv_run _ _ _ _ _ _ (store_inv_init files Htmp) Hrun) as [Ho Ht _ Hd].
  split; [|split; [done|split; [|split]]].
  - rewrite Ht. destruct pc' as [ | | | | | |[]]; auto.
  - intros ->. apply map_eq. intros k. destruct (decide (k = filename)) as [->|Hk].
    + by rewrite lookup_insert_eq.
    + rewrite lookup_insert_ne by done. destruct (decide (k = tmp)) as [->|]; [|auto].
      rewrite Htmp. by apply Hd.
  - intros e ->. done.
  - intros Hl. destruct (store_run_returns outcomes SMkdirAll files Hl) as [r Hr].
    rewrite Hrun in Hr. by exists r.
Qed.
End atomicfile.

(** The last call fails: the old value is still there. *)
Definition ex_outcomes : list (bool * bytes) :=
  [(true, ""); (true, ""); (true, ""); (true, ""); (true, ""); (true, ""); (false, ""); (true, "")].
Definition ex_files : gmap string bytes := {["certs/a" := "old"]}.

Lemma Store_atomic_witness :
  let '(pc', files') := store_run "certs/123" "certs/a" "new" ex_outcomes SMkdirAll ex_files in
  (files' !! "certs/a" = Some "old" ∨ files' !! "certs/a" = Some "new") ∧
  (∀ k, k ≠ "certs/123" → k ≠ "certs/a" → files' !! k = ex_files !! k) ∧
  (pc' = SReturn (Ok tt) → files' = <["certs/a" := "new"]> ex_files) ∧
  (∀ e, pc' = SReturn (Err e) → files' !! "certs/a" = Some "old") ∧
  ((8 ≤ length ex_outcomes)%nat → ∃ r, pc' = SReturn r).
Proof.
  destruct (store_run "certs/123" "certs/a" "new" ex_outcomes SMkdirAll ex_files)
    as [pc' files'] eqn:E.
  apply (Store_atomic "certs/123" "certs/a" "new" ltac:(discriminate) ex_files ex_outcomes pc' files');
    [reflexivity|exact E].
Defined.

(** A failing [Chmod] leaves the temporary file behind. *)
Lemma Store_chmod_leak :
  let '(pc', files') :=
    store_run "certs/123" "certs/a" "new" [(true, ""); (true, ""); (false, "")] SMkdirAll ex_files in
  (∃ e, pc' = SReturn (Err e)) ∧ files' !! "certs/123" = Some "".
Proof. vm_compute. eauto. Qed.

(** ** The interface [File] *)

(** An atomic file as its user has it: the destination, the temporary file with
    the offset of its handle, and whether it was closed or cancelled. Nobody
    else touches the temporary file. *)
Record atomicFile := MkAtomicFile {
  af_name : string;
  af_f : string;
  af_offset : nat;
  af_closed : bool
}.

Definition ErrClosed : error := Errorf "file is closed".
Definition EOF : error := Errorf "EOF".

Definition af_state : Type := atomicFile * gmap string bytes.

Definition seek (n : nat) (a : atomicFile) : atomicFile :=
  MkAtomicFile (af_name a) (af_f a) (af_offset a + n) (af_closed a).
Definition mark_closed (a : atomicFile) : atomicFile :=
  MkAtomicFile (af_name a) (af_f a) (af_offset a) true.
Definition remove_f (failed : option error) (a : atomicFile) (files : gmap string bytes) : gmap string bytes :=
  match failed with None => delete (af_f a) files | Some _ => files end.

(** [Read] into a buffer of [len] bytes; [failed] is the error of the system
    call, here and below. *)
Definition af_Read (len : nat) (failed : option error) : ST af_state (result bytes) := λ '(a, files),
  if af_closed a then (Err ErrClosed, (a, files))
  else
    match failed with
    | Some e => (Err e, (a, files))
    | None =>
        let p := string_take len (string_drop (af_offset a) (default "" (files !! af_f a))) in
        if (p =? "") && (0 <? len)%nat then (Err EOF, (a, files))
        else (Ok p, (seek (String.length p) a, files))
    end.

(** A failing [Write] has written a part of its argument. *)
Definition af_Write (p : bytes) (failed : option (nat * error)) :
    ST af_state (nat * option error) := λ '(a, files),
  if af_closed a then ((0%nat, Some ErrClosed), (a, files))
  else
    let n := match failed with Some (n, _) => Nat.min n (String.length p) | None => String.length p end in
    let v := default "" (files !! af_f a) in
    let v := string_take (af_offset a) v +:+ string_take n p +:+ string_drop (af_offset a + n) v in
    ((n, snd <$> failed), (seek n a, <[af_f a := v]> files)).

Definition af_Close (sync close rename remove : option error) : ST af_state (option error) := λ '(a, files),
  if af_closed a then (None, (a, files))
  else
    let a := mark_closed a in
    let fail msg e := (Some (Wrapf msg e), (a, remove_f remove a files)) in
    match sync with
    | Some e => fail "failed to sync temp file" e
    | None =>
        match close with
        | Some e => fail "failed to close temp file" e
        | None =>
            match rename with
            | Some e => fail "failed to rename" e
            | None =>
                match files !! af_f a with
                | Some v => (None, (a, <[af_name a := v]> (delete (af_f a) files)))
                | None => fail "failed to rename" ErrNotExist
                end
            end
        end
    end.

Definition af_Cancel (remove : option error) : ST af_state (option error) := λ '(a, files),
  if af_closed a then (None, (a, files))
  else let a := mark_closed a in (remove, (a, remove_f remove a files)).

Inductive file_op :=
| OpRead (len : nat) (failed : option error)
| OpWrite (p : bytes) (failed : option (nat * error))
| OpClose (sync close rename remove : option error)
| OpCancel (remove : option error).

Inductive file_out :=
| OutRead (r : result bytes)
| OutWrite (n : nat) (err : option error)
| OutErr (err : option error).

Definition file_call (op : file_op) : ST af_state file_out := λ s,
  match op with
  | OpRead len failed => let '(r, s) := af_Read len failed s in (OutRead r, s)
  | OpWrite p failed => let '((n, err), s) := af_Write p failed s in (OutWrite n err, s)
  | OpClose sync close rename remove => let '(err, s) := af_Close sync close rename remove s in (OutErr err, s)
  | OpCancel remove => let '(err, s) := af_Cancel remove s in (OutErr err, s)
  end.

Fixpoint file_calls (ops : list file_op) : ST af_state (list file_out) := λ s,
  match ops with
  | [] => ([], s)
  | op :: ops =>
      let '(out, s) := file_call op s in
      let '(outs, s) := file_calls ops s in (out :: outs, s)
  end.

(** What the calls on a closed file return. *)
Definition closed_out (op : file_op) : file_out :=
  match op with
  | OpRead _ _ => OutRead (Err ErrClosed)
  | OpWrite _ _ => OutWrite 0 (Some ErrClosed)
  | OpClose _ _ _ _ | OpCancel _ => OutErr None
  end.

Definition reads_or_writes (op : file_op) : Prop :=
  match op with OpRead _ _ | OpWrite _ _ => True | _ => False end.

Lemma closed_calls ops a files :
  af_closed a = true → file_calls ops (a, files) = (closed_out <$> ops, (a, files)).
Proof.
  intros Ha. induction ops as [|op ops IH]; [done|]. simpl. destruct op; simpl; rewrite Ha, IH; done.
Qed.

Lemma file_calls_app ops1 ops2 s :
  file_calls (ops1 ++ ops2)%list s =
  let '(outs1, s) := file_calls ops1 s in
  let '(outs2, s) := file_calls ops2 s in ((outs1 ++ outs2)%list, s).
Proof.
  revert s. induction ops1 as [|op ops1 IH]; intros s; simpl; [by destruct (file_calls ops2 s)|].
  destruct (file_call op s) as [out s1]. rewrite IH. destruct (file_calls ops1 s1) as [outs1 s2].
  by destruct (file_calls ops2 s2).
Qed.

(** Reading and writing leaves the other files alone. *)
Lemma open_call op a files out a' files' :
  af_closed a = false → reads_or_writes op → file_call op (a, files) = (out, (a', files')) →
  af_closed a' = false ∧ af_name a' = af_name a ∧ af_f a' = af_f a ∧
  ∀ k, k ≠ af_f a → files' !! k = files !! k.
Proof.
  intros Ha Hop H. destruct op as [len failed|p failed|s c r m|m]; try done; cbn in H; rewrite Ha in H.
  - destruct failed; [by injection H as _ <- <-|]. destruct (_ && _); injection H as _ <- <-; done.
  - injection H as _ <- <-. split_and!; try done. intros k Hk. by rewrite lookup_insert_ne.
Qed.

(** A call that closes the file: the destination gets the content of the
    temporary file when [Close] succeeds, and otherwise nothing changes but the
    temporary file. *)
Lemma closing_call op a files out a' files' :
  af_closed a = false → ¬ reads_or_writes op → file_call op (a, files) = (out, (a', files')) →
  af_closed a' = true ∧ (∀ k, k ≠ af_f a → k ≠ af_name a → files' !! k = files !! k) ∧
  (af_f a ≠ af_name a →
   files' !! af_name a = files !! af_name a ∧ (out = OutErr None → ∃ remove, op = OpCancel remove) ∨
   files' !! af_name a = files !! af_f a ∧ out = OutErr None ∧ ∃ s c r m, op = OpClose s c r m).
Proof.
  intros Ha Hop H.
  assert (∀ m k, k ≠ af_f a → remove_f m (mark_closed a) files !! k = files !! k) as Hr.
  { intros [e|] k Hk; [done|]. simpl. by rewrite lookup_delete_ne. }
  destruct op as [len f|p f|sync close rename remove|remove]; [by destruct Hop..| |]; cbn in H; rewrite Ha in H.
  - destruct sync; [|destruct close; [|destruct rename; [|destruct (files !! af_f a) as [v|] eqn:Ef]]];
      injection H as <- <- <-; (split; [done|split; [|intros Hne]]);
      try (by intros k ? ?; apply Hr); try (left; split; [by rewrite Hr|done]).
    + intros k H1 H2. simpl. by rewrite lookup_insert_ne, lookup_delete_ne by done.
    + right. simpl. rewrite lookup_insert_eq. split_and!; eauto 8.
  - injection H as <- <- <-. split; [done|]. split; [by intros k ? ?; apply Hr|]. intros Hne. left.
    split; [by rewrite Hr|eauto].
Qed.

(** A file is published once and as a whole: however the calls on an atomic file
    turn out, the destination keeps its content until the first [Close] that
    returns nil (if no [Cancel] came before it), and then has what was written
    until then; calls after the first [Close] or [Cancel] change nothing and
    return [ErrClosed] or nil. *)
Theorem atomicFile_settles ops name tmp files :
  tmp ≠ name →
  let run ops := file_calls ops (MkAtomicFile name tmp 0 false, files) in
  (Forall reads_or_writes ops → (snd (snd (run ops))) !! name = files !! name) ∧
  ∀ before op after, ops = (before ++ op :: after)%list → Forall reads_or_writes before → ¬ reads_or_writes op →
    let '(_, (a, files1)) := run before in
    let '(out, (_, files2)) := file_call op (a, files1) in
    fst (run ops) = (fst (run before) ++ out :: (closed_out <$> after))%list ∧
    snd (snd (run ops)) = files2 ∧
    (files2 !! name = files !! name ∧ (out = OutErr None → ∃ remove, op = OpCancel remove) ∨
     files2 !! name = files1 !! tmp ∧ out = OutErr None ∧ ∃ s c r m, op = OpClose s c r m).
Proof.
  intros Hne run.
  assert (∀ ops a files, af_closed a = false → af_name a = name → af_f a = tmp → Forall reads_or_writes ops →
    let '(_, (a', files')) := file_calls ops (a, files) in
    af_closed a' = false ∧ af_name a' = name ∧ af_f a' = tmp ∧ files' !! name = files !! name) as Hopen.
  { clear ops. induction ops as [|op ops IH]; intros a fs Ha Hn Hf Hops; [done|].
    apply Forall_cons in Hops as [Hop Hops]. simpl.
    destruct (file_call op (a, fs)) as [out [a1 fs1]] eqn:E1. apply open_call in E1 as (H1 & H2 & H3 & H4); [|done..].
    specialize (IH a1 fs1 H1). destruct (file_calls ops (a1, fs1)) as [outs [a2 fs2]].
    rewrite <-(H4 name) by congruence. apply IH; congruence. }
  split.
  - intros Hops. unfold run. specialize (Hopen ops (MkAtomicFile name tmp 0 false) files eq_refl eq_refl eq_refl Hops).
    destruct (file_calls ops _) as [outs [a fs]]. by destruct Hopen as (_ & _ & _ & ?).
  - intros before op after -> Hb Hop. unfold run.
    specialize (Hopen before (MkAtomicFile name tmp 0 false) files eq_refl eq_refl eq_refl Hb).
    rewrite file_calls_app. destruct (file_calls before _) as [outs [a fs]]. destruct Hopen as (Ha & Hn & Hf & Hfs).
    simpl. destruct (file_call op (a, fs)) as [out [a2 fs2]] eqn:E1.
    apply closing_call in E1 as (Hc & _ & Hd); [|done..]. rewrite closed_calls by done. simpl.
    split_and!; [done..|]. subst. rewrite <-Hfs. by apply Hd.
Qed.
