(* ===== verification/Dns.v ===== *)
(** * DNS lookups (dnsutil.go)

    [FindZoneByFQDN] walks up the labels of a name until a nameserver answers
    with a SOA record, behind a cache; [checkDNSPropagation] looks for a record
    at the authoritative nameservers. The DNS library, the clock and the
    context are the class [DNSNet]: an exchange is an operation on the state of
    the outside world. *)

From S2P Require Import Prelude GoStrings.
From Stdlib Require Import Ascii.
Open Scope string_scope.

(** ** Messages *)

(** The resource records the code looks into, with the name of their header. *)
Inductive RR :=
| SOA (name ns : string) (refresh : Z)
| CNAME (name target : string)
| TXT (name : string) (txt : list string)
| NS (name ns : string)
| OtherRR (name : string).

Record Msg := MkMsg { Rcode : Z; Truncated : bool; Answer : list RR }.

(** The query [createDNSMsg] makes. *)
Record Query := MkQuery {
  q_name : string;
  q_type : Z;
  q_udpSize : Z;
  RecursionDesired : bool
}.

Definition TypeNS : Z := 2%Z.
Definition TypeCNAME : Z := 5%Z.
Definition TypeSOA : Z := 6%Z.
Definition TypeTXT : Z := 16%Z.

Definition RcodeSuccess : Z := 0%Z.
Definition RcodeServerFailure : Z := 2%Z.
Definition RcodeNameError : Z := 3%Z.

(** What an exchange returns: a message, or an error that may come with one. *)
Inductive reply := Reply (r : Msg) | Failure (r : option Msg) (e : error).

(** The text of an error. *)
Fixpoint error_Error (e : error) : string :=
  match e with
  | ErrNotExist => "file does not exist"
  | Canceled => "context canceled"
  | DeadlineExceeded => "context deadline exceeded"
  | ErrNoRetry e => error_Error e
  | Errorf msg => msg
  | Panic msg => msg
  | Wrapf msg e => msg +:+ ": " +:+ error_Error e
  end.

(** soaCacheEntry *)
Record soaCacheEntry := MkSoaEntry { zone : string; primaryNs : string; expires : Time }.

Definition newSoaCacheEntry (now : Time) (name ns : string) (refresh : Z) : soaCacheEntry :=
  MkSoaEntry name ns (time_Add now (refresh * Second)).

Definition isExpired (now : Time) (ent : soaCacheEntry) : bool := time_After now (expires ent).

(** The outside: [ExchangeContext] of a client for a network and a server,
    [ctx.Err()], the clock, waiting for a duration or the end of the context,
    the first key of a map in Go's order, [dns.Split], the names of response
    codes and the servers of a resolv.conf file. *)
Class DNSNet (N : Type) := {
  Exchange : string → Query → string → ST N reply;
  ctx_Err : N → option error;
  net_Now : N → Time;
  time_After_or_Done : Duration → ST N (option error);
  range_first : N → gmap string soaCacheEntry → string;
  dns_Split : string → list nat;
  RcodeToString : Z → string;
  ClientConfigFromFile : N → string → result (list string)
}.

(** What the code relies on: time does not run backwards and waiting takes its
    time, and a name that is ranged over first is in the map. *)
Class DNSLaws (N : Type) `{!DNSNet N} := {
  Exchange_time net q ns n r n' : Exchange net q ns n = (r, n') → (net_Now n ≤ net_Now n')%Z;
  After_time d n n' :
    time_After_or_Done d n = (None, n') → (net_Now n + d ≤ net_Now n')%Z;
  range_first_elem n (m : gmap string soaCacheEntry) : m ≠ ∅ → is_Some (m !! range_first n m)
}.

(** The network with the package's cache [fqdnSOACache]. *)
Record DState (N : Type) := MkDState { d_net : N; fqdnSOACache : gmap string soaCacheEntry }.
Arguments MkDState {N}.
Arguments d_net {N}.
Arguments fqdnSOACache {N}.

Section dns.
Context {N : Type} `{!DNSNet N}.

Definition on_net {A} (f : ST N A) : ST (DState N) A := λ s,
  let '(a, n) := f (d_net s) in (a, MkDState n (fqdnSOACache s)).

(** ** Queries *)

Definition createDNSMsg (fqdn : string) (rtype : Z) (recursive : bool) : Query :=
  MkQuery fqdn rtype 1232 recursive.

Definition sendDNSQuery (m : Query) (ns : string) : ST N (option Msg * option error) := λ n,
  let '(r, n) := Exchange "udp" m ns n in
  let in_ := match r with Reply i => Some i | Failure i _ => i end in
  let err := match r with Reply _ => None | Failure _ e => Some e end in
  let truncated := match in_ with Some i => Truncated i | None => false end in
  let timeoutErr := match err with Some e => Contains (error_Error e) "timeout" | None => false end in
  if truncated || timeoutErr then
    let '(r, n) := Exchange "tcp" m ns n in
    ((match r with Reply i => Some i | Failure i _ => i end,
      match r with Reply _ => None | Failure _ e => Some e end), n)
  else ((in_, err), n).

(** The loop over the nameservers, with the last message and error. *)
Fixpoint query_loop (m : Query) (nameservers : list string) (last : option Msg * option error) :
    ST N (option Msg * option error) :=
  match nameservers with
  | [] => mret last
  | ns :: rest => λ n,
      match sendDNSQuery m ns n with
      | ((Some i, None), n) =>
          if (0 <? length (Answer i))%nat then ((Some i, None), n)
          else query_loop m rest (Some i, None) n
      | (last, n) => query_loop m rest last n
      end
  end.

Definition dnsQuery (fqdn : string) (rtype : Z) (nameservers : list string) (recursive : bool) :
    ST N (option Msg * option error) :=
  query_loop (createDNSMsg fqdn rtype recursive) nameservers (None, None).

Definition dnsMsgContainsCNAME (msg : Msg) : bool :=
  existsb (λ ans, match ans with CNAME _ _ => true | _ => false end) (Answer msg).

Definition formatDNSError (msg : option Msg) (err : option error) : string :=
  let parts := (match msg with Some m => [RcodeToString (Rcode m)] | None => [] end ++
                match err with Some e => [error_Error e] | None => [] end)%list in
  if (0 <? length parts)%nat then ": " +:+ Join parts " " else "".

(** ** The zone of a name *)

(** The first SOA record among the answers. *)
Fixpoint first_SOA (answers : list RR) : option (string * string * Z) :=
  match answers with
  | [] => None
  | SOA name ns refresh :: _ => Some (name, ns, refresh)
  | _ :: rest => first_SOA rest
  end.

(** The loop of [fetchSoaByFqdn] over the label indexes; [in_] and [err] are
    those of the last query. *)
Fixpoint fetch_loop (fqdn : string) (nameservers : list string) (labelIndexes : list nat)
    (in_ : option Msg) (err : option error) : ST N (result soaCacheEntry) :=
  match labelIndexes with
  | [] => mret (Err (Errorf ("could not find the start of authority for " +:+ fqdn +:+
                             formatDNSError in_ err)))
  | index :: rest => λ n,
      match ctx_Err n with
      | Some e => (Err e, n)
      | None =>
          let domain := string_drop index fqdn in
          match dnsQuery domain TypeSOA nameservers true n with
          | ((in_, Some e), n) => fetch_loop fqdn nameservers rest in_ (Some e) n
          | ((None, None), n) => fetch_loop fqdn nameservers rest None None n
          | ((Some m, None), n) =>
              if (Rcode m =? RcodeSuccess)%Z then
                if (length (Answer m) =? 0)%nat then fetch_loop fqdn nameservers rest (Some m) None n
                else if dnsMsgContainsCNAME m then fetch_loop fqdn nameservers rest (Some m) None n
                else match first_SOA (Answer m) with
                     | Some (name, ns, refresh) =>
                         (Ok (newSoaCacheEntry (net_Now n) name ns refresh), n)
                     | None => fetch_loop fqdn nameservers rest (Some m) None n
                     end
              else if (Rcode m =? RcodeNameError)%Z then
                fetch_loop fqdn nameservers rest (Some m) None n
              else (Err (Errorf ("unexpected response code '" +:+ RcodeToString (Rcode m) +:+
                                 "' for " +:+ domain)), n)
          end
      end
  end.

Definition fetchSoaByFqdn (fqdn : string) (nameservers : list string) : ST N (result soaCacheEntry) :=
  fetch_loop fqdn nameservers (dns_Split fqdn) None None.

(** [if !strings.HasSuffix(fqdn, ".") { fqdn += "." }] *)
Definition withDot (fqdn : string) : string :=
  if HasSuffix fqdn "." then fqdn else fqdn +:+ ".".

Definition maxSOACache : nat := 1000.

Definition lookupSoaByFqdn (fqdn : string) (nameservers : list string) :
    ST (DState N) (result soaCacheEntry) := λ s,
  let fqdn := withDot fqdn in
  match ctx_Err (d_net s) with
  | Some e => (Err e, s)
  | None =>
      let fetch :=
        match on_net (fetchSoaByFqdn fqdn nameservers) s with
        | (Err e, s) => (Err e, s)
        | (Ok ent, s) =>
            let cache := fqdnSOACache s in
            let cache := if (maxSOACache <=? size cache)%nat
                         then delete (range_first (d_net s) cache) cache else cache in
            (Ok ent, MkDState (d_net s) (<[fqdn := ent]> cache))
        end in
      match fqdnSOACache s !! fqdn with
      | Some ent => if isExpired (net_Now (d_net s)) ent then fetch else (Ok ent, s)
      | None => fetch
      end
  end.

Definition FindZoneByFQDN (fqdn : string) (nameservers : list string) :
    ST (DState N) (result string) := λ s,
  match lookupSoaByFqdn (withDot fqdn) nameservers s with
  | (Err e, s) => (Err e, s)
  | (Ok soa, s) => (Ok (zone soa), s)
  end.

(** ** Nameservers *)

Definition systemOrDefaultNameservers (n : N) (path : string) (defaults : list string) : list string :=
  match ClientConfigFromFile n path with
  | Err _ | Ok [] => defaults
  | Ok servers => servers
  end.

Definition populate_port (server : string) : string :=
  let port := match SplitHostPort server with Ok (_, port) => port | Err _ => "" end in
  if port =? "" then JoinHostPort server "53" else server.
Definition populateNameserverPorts (servers : list string) : list string :=
  populate_port <$> servers.

Definition defaultNameservers : list string :=
  ["8.8.8.8:53"; "8.8.4.4:53"; "1.1.1.1:53"; "1.0.0.1:53"].
Definition defaultResolvConf : string := "/etc/resolv.conf".

Definition RecursiveNameservers (n : N) (custom : list string) : list string :=
  populateNameserverPorts
    (match custom with
     | [] => systemOrDefaultNameservers n defaultResolvConf defaultNameservers
     | _ => custom
     end).

Definition lookupNameservers (fqdn : string) (resolvers : list string) :
    ST (DState N) (result (list string)) := λ s,
  match FindZoneByFQDN fqdn resolvers s with
  | (Err e, s) => (Err (Wrapf "could not determine the zone" e), s)
  | (Ok zone, s) =>
      match on_net (dnsQuery zone TypeNS resolvers true) s with
      | ((_, Some e), s) => (Err (Errorf "querying NS resolver"), s)
      | ((None, None), s) => (Err (Panic "nil pointer dereference"), s)
      | ((Some r, None), s) =>
          match omap (λ rr, match rr with NS _ ns => Some (ToLower ns) | _ => None end) (Answer r) with
          | [] => (Err (Errorf "could not determine authoritative nameservers"), s)
          | authoritativeNss => (Ok authoritativeNss, s)
          end
      end
  end.

(** ** Propagation *)

Fixpoint updateDomainWithCName (answers : list RR) (fqdn : string) : string :=
  match answers with
  | [] => fqdn
  | CNAME name target :: rest => if name =? fqdn then target else updateDomainWithCName rest fqdn
  | _ :: rest => updateDomainWithCName rest fqdn
  end.

(** The loop over the answers of one nameserver: whether the record is among
    them, or that the record type is not supported. *)
Fixpoint check_answers (recType : Z) (expectedValue : string) (answers : list RR) : result bool :=
  match answers with
  | [] => Ok false
  | rr :: rest =>
      if (recType =? TypeTXT)%Z then
        match rr with
        | TXT _ txt => if Join txt "" =? expectedValue then Ok true
                       else check_answers recType expectedValue rest
        | _ => check_answers recType expectedValue rest
        end
      else if (recType =? TypeCNAME)%Z then
        match rr with
        | CNAME _ target =>
            if TrimSuffix target "." =? TrimSuffix expectedValue "." then Ok true
            else check_answers recType expectedValue rest
        | _ => check_answers recType expectedValue rest
        end
      else Err (Errorf "unsupported record type")
  end.

Fixpoint checkAuthoritativeNss (fqdn : string) (recType : Z) (expectedValue : string)
    (nameservers : list string) : ST N (result bool) :=
  match nameservers with
  | [] => mret (Ok false)
  | ns :: rest => λ n,
      match dnsQuery fqdn recType [ns] true n with
      | ((_, Some e), n) => (Err (Errorf "querying authoritative nameservers"), n)
      | ((None, None), n) => (Err (Panic "nil pointer dereference"), n)
      | ((Some r, None), n) =>
          if negb (Rcode r =? RcodeSuccess)%Z then
            if (Rcode r =? RcodeNameError)%Z || (Rcode r =? RcodeServerFailure)%Z then (Ok false, n)
            else (Err (Errorf ("NS " +:+ ns +:+ " returned " +:+ RcodeToString (Rcode r) +:+
                               " for " +:+ fqdn)), n)
          else
            match check_answers recType expectedValue (Answer r) with
            | Ok true => (Ok true, n)
            | Err e => (Err e, n)
            | Ok false => checkAuthoritativeNss fqdn recType expectedValue rest n
            end
      end
  end.

(** The first query of [checkDNSPropagation]: the name behind a CNAME. *)
Definition follow_cname (fqdn : string) (recType : Z) (resolvers : list string) :
    ST N (result string) := λ n,
  if (recType =? TypeCNAME)%Z then (Ok fqdn, n)
  else
    match dnsQuery fqdn recType resolvers true n with
    | ((_, Some e), n) => (Err (Errorf "CNAME dns query"), n)
    | ((None, None), n) => (Err (Panic "nil pointer dereference"), n)
    | ((Some r, None), n) =>
        (Ok (if (Rcode r =? RcodeSuccess)%Z then updateDomainWithCName (Answer r) fqdn else fqdn), n)
    end.

Definition checkDNSPropagation (fqdn : string) (recType : Z) (expectedValue : string)
    (checkAuthoritativeServers : bool) (resolvers : list string) :
    ST (DState N) (result bool) := λ s,
  match on_net (follow_cname (withDot fqdn) recType resolvers) s with
  | (Err e, s) => (Err e, s)
  | (Ok fqdn, s) =>
      if checkAuthoritativeServers then
        match lookupNameservers fqdn resolvers s with
        | (Err e, s) =>
            (Err (if is_panic e then e else Errorf "looking up authoritative nameservers"), s)
        | (Ok servers, s) =>
            on_net (checkAuthoritativeNss fqdn recType expectedValue
                      (populateNameserverPorts servers)) s
        end
      else on_net (checkAuthoritativeNss fqdn recType expectedValue resolvers) s
  end.
End dns.

(** ** Theorems *)

(** *** Addresses of nameservers *)

(** The address splits into a host and a port. *)
Definition has_port (addr : string) : Prop :=
  match SplitHostPort addr with Ok (_, port) => port ≠ "" | Err _ => False end.
#[export] Instance has_port_dec addr : Decision (has_port addr).
Proof. unfold has_port. destruct (SplitHostPort addr) as [[h p]|]; apply _. Defined.
(** A host without brackets, or an address that has its port. *)
Definition server_name (addr : string) : Prop :=
  has_port addr ∨ no_byte "[" addr = true ∧ no_byte "]" addr = true.

Lemma populate_port_id addr : has_port addr → populate_port addr = addr.
Proof.
  unfold has_port, populate_port. destruct (SplitHostPort addr) as [[h p]|]; [|done].
  intros Hp%String.eqb_neq. by rewrite Hp.
Qed.

Lemma populate_port_has_port addr : server_name addr → has_port (populate_port addr).
Proof.
  intros [Hp|[H1 H2]]; [by rewrite populate_port_id|].
  destruct (decide (has_port addr)) as [Hp|Hp]; [by rewrite populate_port_id|].
  assert (populate_port addr = JoinHostPort addr "53") as ->.
  { unfold populate_port, has_port in *. destruct (SplitHostPort addr) as [[h p]|]; [|done].
    destruct (String.eqb_spec p ""); [done|]. by destruct Hp. }
  unfold has_port. destruct (no_byte ":" addr) eqn:Hc.
  - by rewrite SplitHostPort_JoinHostPort.
  - by rewrite SplitHostPort_JoinHostPort_v6.
Qed.

Section resolvers.
Context {N : Type} `{!DNSNet N}.

(** Every nameserver that is asked has an address with a port, and there is
    one to ask: the configured servers or, without any, those of the system or
    the built-in ones; completing the addresses again changes nothing. *)
Theorem RecursiveNameservers_ports (n : N) custom :
  Forall server_name custom →
  (∀ l, ClientConfigFromFile n defaultResolvConf = Ok l → Forall server_name l) →
  RecursiveNameservers n custom ≠ [] ∧
  Forall has_port (RecursiveNameservers n custom) ∧
  populateNameserverPorts (RecursiveNameservers n custom) = RecursiveNameservers n custom.
Proof.
  intros Hc Hs. unfold RecursiveNameservers, populateNameserverPorts.
  set (l := match custom with [] => _ | _ => _ end).
  assert (l ≠ [] ∧ Forall server_name l) as [Hne Hl].
  { destruct custom as [|c custom]; [|done]. unfold l, systemOrDefaultNameservers.
    destruct (ClientConfigFromFile n defaultResolvConf) as [[|a l']|e] eqn:E.
    - split; [done|]. repeat constructor; by left.
    - split; [done|]. by apply Hs.
    - split; [done|]. repeat constructor; by left. }
  assert (Forall has_port (populate_port <$> l)) as Hp.
  { apply Forall_fmap. eapply Forall_impl; [exact Hl|]. apply populate_port_has_port. }
  split; [by destruct l|]. split; [done|].
  clear -Hp. induction (populate_port <$> l) as [|a l' IH]; [done|].
  inversion_clear Hp. simpl. rewrite populate_port_id by done. f_equal. by apply IH.
Qed.
End resolvers.

(** *** Time *)

Section timed.
Context {N : Type} `{!DNSNet N} `{!DNSLaws N}.

(** The clock does not run backwards while [m] runs. *)
Definition forward {A} (m : ST N A) : Prop :=
  ∀ n a n', m n = (a, n') → (net_Now n ≤ net_Now n')%Z.
Definition forwardD {A} (m : ST (DState N) A) : Prop :=
  ∀ s a s', m s = (a, s') → (net_Now (d_net s) ≤ net_Now (d_net s'))%Z.

Lemma sendDNSQuery_forward q ns : forward (sendDNSQuery q ns).
Proof using DNSLaws0.
  intros n a n'. unfold sendDNSQuery. destruct (Exchange "udp" q ns n) as [r n1] eqn:E1.
  apply Exchange_time in E1. destruct (_ || _).
  - destruct (Exchange "tcp" q ns n1) as [r2 n2] eqn:E2. apply Exchange_time in E2.
    intros [= <- <-]. lia.
  - by intros [= <- <-].
Qed.

Lemma query_loop_forward q nss l : forward (query_loop q nss l).
Proof using DNSLaws0.
  revert l. induction nss as [|ns nss IH]; intros l n a n'; simpl; [by intros [= <- <-]|].
  destruct (sendDNSQuery q ns n) as [[om oe] n1] eqn:E. apply sendDNSQuery_forward in E.
  destruct om as [m|], oe as [e|]; [|destruct (_ <? _)%nat; [by intros [= <- <-]|]|..];
    intros H%IH; lia.
Qed.

Lemma dnsQuery_forward d t nss rd : forward (dnsQuery d t nss rd).
Proof using DNSLaws0. apply query_loop_forward. Qed.

Lemma fetch_loop_forward fqdn nss idx i e : forward (fetch_loop fqdn nss idx i e).
Proof using DNSLaws0.
  revert i e. induction idx as [|ix idx IH]; intros i e n a n'; simpl; [by intros [= <- <-]|].
  destruct (ctx_Err n); [by intros [= <- <-]|].
  destruct (dnsQuery (string_drop ix fqdn) TypeSOA nss true n) as [[om oe] n1] eqn:E.
  apply dnsQuery_forward in E. destruct om as [m|], oe as [e'|]; try (intros H%IH; lia).
  repeat case_match; try (intros Hr%IH; lia); intros Hr; simplify_eq; lia.
Qed.

Lemma FindZoneByFQDN_forward fqdn nss : forwardD (FindZoneByFQDN fqdn nss).
Proof using DNSLaws0.
  intros s a s'. unfold FindZoneByFQDN, lookupSoaByFqdn, on_net.
  destruct (ctx_Err (d_net s)); [by intros [= <- <-]|].
  destruct (fetchSoaByFqdn _ nss (d_net s)) as [r n1] eqn:E.
  apply fetch_loop_forward in E.
  repeat case_match; simplify_eq/=; intros; simplify_eq/=; lia.
Qed.

Lemma on_net_forward {A} (m : ST N A) : forward m → forwardD (on_net m).
Proof.
  intros Hm s a s'. unfold on_net. destruct (m (d_net s)) as [b n] eqn:E. apply Hm in E.
  by intros [= <- <-].
Qed.

Lemma checkAuthoritativeNss_forward fqdn t v nss : forward (checkAuthoritativeNss fqdn t v nss).
Proof using DNSLaws0.
  induction nss as [|ns nss IH]; intros n a n'; simpl; [by intros [= <- <-]|].
  destruct (dnsQuery fqdn t [ns] true n) as [[om oe] n1] eqn:E. apply dnsQuery_forward in E.
  repeat case_match; try (intros Hr%IH; lia); intros Hr; simplify_eq; lia.
Qed.

Lemma checkDNSPropagation_forward fqdn t v auth nss : forwardD (checkDNSPropagation fqdn t v auth nss).
Proof using DNSLaws0.
  intros s a s'. unfold checkDNSPropagation.
  destruct (on_net (follow_cname (withDot fqdn) t nss) s) as [r1 s1] eqn:E1.
  apply (on_net_forward (follow_cname (withDot fqdn) t nss)) in E1.
  2: { intros n b n'. unfold follow_cname. destruct (_ =? _)%Z; [by intros [= <- <-]|].
       destruct (dnsQuery _ t nss true n) as [[om oe] n1] eqn:E. apply dnsQuery_forward in E.
       repeat case_match; intros Hr; simplify_eq; lia. }
  destruct r1 as [d|e]; [|by intros [= <- <-]]. destruct auth.
  - unfold lookupNameservers. destruct (FindZoneByFQDN d nss s1) as [r2 s2] eqn:E2.
    apply FindZoneByFQDN_forward in E2. destruct r2 as [z|e]; [|intros [= <- <-]; lia].
    destruct (on_net (dnsQuery z TypeNS nss true) s2) as [[om oe] s3] eqn:E3.
    apply on_net_forward in E3; [|apply dnsQuery_forward].
    repeat case_match; simplify_eq; try (intros Hr; simplify_eq; lia).
    intros H%on_net_forward; [lia|apply checkAuthoritativeNss_forward].
  - intros H%on_net_forward; [lia|apply checkAuthoritativeNss_forward].
Qed.
End timed.

(** *** The closest zone

    The search is described by the answers the nameservers give while it goes
    on: nothing is assumed of them, and they may answer otherwise later. *)

Section search.
Context {N : Type} `{!DNSNet N}.

(** The SOA record of an answer, if it counts. *)
Definition soa_in (a : option Msg * option error) : option (string * string * Z) :=
  match a with
  | (Some m, None) =>
      if (Rcode m =? RcodeSuccess)%Z && negb (dnsMsgContainsCNAME m) then first_SOA (Answer m) else None
  | _ => None
  end.

(** An answer that ends the search. *)
Definition refused (a : option Msg * option error) : Prop :=
  ∃ m, a = (Some m, None) ∧ Rcode m ≠ RcodeSuccess ∧ Rcode m ≠ RcodeNameError.

(** An answer that sends the search to the parent. *)
Definition passes (a : option Msg * option error) : Prop := soa_in a = None ∧ ¬ refused a.

(** The name and its parents, the name first. *)
Definition ancestors (fqdn : string) : list string :=
  (λ i, string_drop i fqdn) <$> dns_Split fqdn.

(** The nameservers are asked for the SOA records of the names in turn, while
    the context lasts, and give the answers. *)
Inductive asks_all (nss : list string) :
    N → list string → list (option Msg * option error) → N → Prop :=
| asks_none n : asks_all nss n [] [] n
| asks_next n d a n1 ds l n' :
    ctx_Err n = None → dnsQuery d TypeSOA nss true n = (a, n1) →
    asks_all nss n1 ds l n' → asks_all nss n (d :: ds) (a :: l) n'.

(** The search among [ds] that finds the record [soa]: that of the first name
    that has one, those before it having passed. *)
Definition found (nss ds : list string) (n : N) (soa : string * string * Z) (n' : N) : Prop :=
  ∃ pre d post l a,
    ds = (pre ++ d :: post)%list ∧ asks_all nss n (pre ++ [d]) (l ++ [a]) n' ∧
    Forall passes l ∧ soa_in a = Some soa.

(** The search that fails: no name has a record, an answer ends it, or the
    context does. *)
Definition not_found (nss ds : list string) (n : N) (e : error) (n' : N) : Prop :=
  ∃ pre post l,
    ds = (pre ++ post)%list ∧ asks_all nss n pre l n' ∧
    (Forall passes l ∧ (post = [] ∨ post ≠ [] ∧ ctx_Err n' = Some e) ∨
     ∃ l' a, l = (l' ++ [a])%list ∧ Forall passes l' ∧ refused a).

Lemma found_next nss d ds n a n1 soa n' :
  ctx_Err n = None → dnsQuery d TypeSOA nss true n = (a, n1) → passes a →
  found nss ds n1 soa n' → found nss (d :: ds) n soa n'.
Proof.
  intros Hc Hq Ha (pre & d' & post & l & a' & -> & Hl & Hp & Hs).
  exists (d :: pre), d', post, (a :: l), a'. split; [done|]. split; [by econstructor|].
  split; [by constructor|done].
Qed.

Lemma not_found_next nss d ds n a n1 e n' :
  ctx_Err n = None → dnsQuery d TypeSOA nss true n = (a, n1) → passes a →
  not_found nss ds n1 e n' → not_found nss (d :: ds) n e n'.
Proof.
  intros Hc Hq Ha (pre & post & l & -> & Hl & Hend). exists (d :: pre), post, (a :: l).
  split; [done|]. split; [by econstructor|].
  destruct Hend as [[Hp He]|(l' & a' & -> & Hp & Hr)]; [left; by split; [constructor|]|].
  right. exists (a :: l'), a'. split; [done|]. split; [by constructor|done].
Qed.

Lemma fetch_loop_searches fqdn nss idx i e n r n' :
  fetch_loop fqdn nss idx i e n = (r, n') →
  match r with
  | Ok ent => ∃ refresh,
      found nss ((λ i, string_drop i fqdn) <$> idx) n (zone ent, primaryNs ent, refresh) n' ∧
      expires ent = (net_Now n' + refresh * Second)%Z
  | Err e => not_found nss ((λ i, string_drop i fqdn) <$> idx) n e n'
  end.
Proof.
  revert i e n. induction idx as [|ix idx IH]; intros i e n; simpl.
  { intros [= <- <-]. exists [], [], []. split; [done|]. split; [constructor|]. left. by split; [|left]. }
  destruct (ctx_Err n) as [ce|] eqn:Hc.
  { intros [= <- <-]. exists [], (string_drop ix fqdn :: ((λ i, string_drop i fqdn) <$> idx)), [].
    split; [done|]. split; [constructor|]. left. split; [done|]. by right. }
  destruct (dnsQuery (string_drop ix fqdn) TypeSOA nss true n) as [a n1] eqn:Hq.
  assert (∀ i e, passes a → fetch_loop fqdn nss idx i e n1 = (r, n') →
    match r with
    | Ok ent => ∃ refresh,
        found nss (string_drop ix fqdn :: ((λ i, string_drop i fqdn) <$> idx)) n
          (zone ent, primaryNs ent, refresh) n' ∧ expires ent = (net_Now n' + refresh * Second)%Z
    | Err e => not_found nss (string_drop ix fqdn :: ((λ i, string_drop i fqdn) <$> idx)) n e n'
    end) as Hon.
  { intros i' e' Ha Hl. apply IH in Hl. destruct r as [ent|e''].
    - destruct Hl as (refresh & Hf & He). exists refresh. split; [|done]. by eapply found_next.
    - by eapply not_found_next. }
  clear IH. destruct a as [[m|] [e'|]].
  1, 3, 4: apply Hon; split; [done|by intros (m' & [= ] & _)].
  destruct (Z.eqb_spec (Rcode m) RcodeSuccess) as [Hm|Hm].
  - assert (soa_in (Some m, None) = None → passes (Some m, None)) as Hpass.
    { intros Hs. split; [done|]. intros (m' & [= <-] & Hm' & _). done. }
    revert Hon Hpass. unfold soa_in at 1. rewrite Hm, Z.eqb_refl. simpl. intros Hon Hpass.
    destruct (length (Answer m) =? 0)%nat eqn:El.
    { apply Nat.eqb_eq, nil_length_inv in El. rewrite El in Hpass. apply Hon, Hpass.
      by destruct (negb _). }
    destruct (dnsMsgContainsCNAME m) eqn:Hcn; simpl in Hpass; [by apply Hon, Hpass|].
    destruct (first_SOA (Answer m)) as [[[z ns] refresh]|] eqn:Hs; [|by apply Hon, Hpass].
    intros [= <- <-]. exists refresh. split; [|done]. 
    exists [], (string_drop ix fqdn), ((λ i, string_drop i fqdn) <$> idx), [], (Some m, None).
    split; [done|]. split; [econstructor; [done..|constructor]|]. split; [done|].
    unfold soa_in. rewrite Hm, Z.eqb_refl, Hcn. exact Hs.
  - destruct (Z.eqb_spec (Rcode m) RcodeNameError) as [Hn|Hn].
    + apply Hon. split; [|by intros (m' & [= <-] & _ & ?)]. unfold soa_in.
      by rewrite (proj2 (Z.eqb_neq _ _) Hm).
    + intros [= <- <-]. exists [string_drop ix fqdn], ((λ i, string_drop i fqdn) <$> idx), [(Some m, None)].
      split; [done|]. split; [econstructor; [done..|constructor]|]. right.
      exists [], (Some m, None). split; [done|]. split; [done|]. by exists m.
Qed.

Lemma withDot_idemp fqdn : withDot (withDot fqdn) = withDot fqdn.
Proof.
  unfold withDot at 2 3. destruct (HasSuffix fqdn ".") eqn:E; unfold withDot.
  - by rewrite E.
  - by rewrite (proj2 (HasSuffix_spec _ _)) by eauto.
Qed.

Lemma cache_room `{!DNSLaws N} (n : N) c k ent :
  (size c ≤ maxSOACache)%nat →
  (size (<[k := ent]> (if (maxSOACache <=? size c)%nat then delete (range_first n c) c else c))
     ≤ maxSOACache)%nat.
Proof.
  intros Hb. destruct (maxSOACache <=? size c)%nat eqn:E.
  - apply Nat.leb_le in E.
    assert (c ≠ ∅) as Hne by (intros ->; rewrite map_size_empty in E; unfold maxSOACache in E; lia).
    destruct (range_first_elem n c Hne) as [ent' Hr].
    rewrite map_size_insert. rewrite map_size_delete, Hr. unfold maxSOACache in *; case_match; unfold id; lia.
  - apply Nat.leb_gt in E. rewrite map_size_insert. unfold maxSOACache in *; case_match; unfold id; lia.
Qed.

(** The entry of a name, while the clock has not passed the end of it. *)
Definition current (now : Time) (c : gmap string soaCacheEntry) (k : string) : option soaCacheEntry :=
  match c !! k with
  | Some ent => if (now <=? expires ent)%Z then Some ent else None
  | None => None
  end.

(** (C28) [FindZoneByFQDN], whatever the nameservers answer. A context that is
    done ends it. A record of the cache is given back while it has not expired,
    and then nobody is asked. Otherwise the nameservers are asked for the name
    and its parents in turn: the zone that comes back is that of the first SOA
    record that counts, every closer name having passed, and it is in the cache
    from then on, until its refresh time is over; or the search fails, for one
    of its three reasons, and the cache is what it was. The cache keeps its
    bound. *)
Theorem FindZoneByFQDN_closest `{!DNSLaws N} fqdn nss s r s' :
  FindZoneByFQDN fqdn nss s = (r, s') →
  ((size (fqdnSOACache s) ≤ maxSOACache)%nat → (size (fqdnSOACache s') ≤ maxSOACache)%nat) ∧
  match ctx_Err (d_net s) with
  | Some e => r = Err e ∧ s' = s
  | None =>
      match current (net_Now (d_net s)) (fqdnSOACache s) (withDot fqdn) with
      | Some ent => r = Ok (zone ent) ∧ s' = s
      | None =>
          let ds := ancestors (withDot fqdn) in
          match r with
          | Ok z => ∃ ns refresh,
              found nss ds (d_net s) (z, ns, refresh) (d_net s') ∧
              fqdnSOACache s' !! withDot fqdn =
                Some (MkSoaEntry z ns (net_Now (d_net s') + refresh * Second)%Z)
          | Err e =>
              not_found nss ds (d_net s) e (d_net s') ∧ fqdnSOACache s' = fqdnSOACache s
          end
      end
  end.
Proof.
  unfold FindZoneByFQDN, lookupSoaByFqdn. rewrite withDot_idemp. set (k := withDot fqdn).
  destruct (ctx_Err (d_net s)) as [e|] eqn:Hc; [by intros [= <- <-]|].
  unfold on_net. destruct (fetchSoaByFqdn k nss (d_net s)) as [r1 n1] eqn:Hf.
  apply fetch_loop_searches in Hf.
  unfold current, isExpired, time_After.
  destruct (fqdnSOACache s !! k) as [ent|] eqn:Hk; [rewrite Z.leb_antisym; destruct (_ <? _)%Z|].
  2: by intros [= <- <-].
  all: destruct r1 as [ent1|e]; intros [= <- <-]; cbn [d_net fqdnSOACache].
  2, 4: done.
  all: split; [apply cache_room|]; destruct Hf as (refresh & Hf & He);
    exists (primaryNs ent1), refresh; (split; [done|]); rewrite lookup_insert_eq, <- He;
    by destruct ent1.
Qed.
End search.

(** *** Nameservers that always answer the same *)

Section stable.
Context {N : Type} `{!DNSNet N}.
(** The answer of a server to a query over a network, at any time. *)
Context (replies : string → Query → string → reply).
Hypothesis Exchange_replies : ∀ net q ns n, fst (Exchange net q ns n) = replies net q ns.

Definition reply_msg (r : reply) : option Msg := match r with Reply m => Some m | Failure m _ => m end.
Definition reply_err (r : reply) : option error :=
  match r with Reply _ => None | Failure _ e => Some e end.

(** The answer to a query: that over TCP when the one over UDP is cut short or
    times out. *)
Definition answer_of (q : Query) (ns : string) : reply :=
  let r := replies "udp" q ns in
  if match reply_msg r with Some m => Truncated m | None => false end
     || match reply_err r with Some e => Contains (error_Error e) "timeout" | None => false end
  then replies "tcp" q ns else r.

(** A server that has something to say. *)
Definition informative (q : Query) (ns : string) : bool :=
  match answer_of q ns with Reply m => (0 <? length (Answer m))%nat | _ => false end.

(** The answer of the nameservers: of the first with something to say, or of
    the last one. *)
Definition answers_of (q : Query) (nameservers : list string) : option Msg * option error :=
  match list_find (λ ns, informative q ns = true) nameservers, last nameservers with
  | Some (_, ns), _ | None, Some ns => (reply_msg (answer_of q ns), reply_err (answer_of q ns))
  | None, None => (None, None)
  end.

Lemma sendDNSQuery_answer q ns n :
  fst (sendDNSQuery q ns n) = (reply_msg (answer_of q ns), reply_err (answer_of q ns)).
Proof.
  unfold sendDNSQuery, answer_of. pose proof (Exchange_replies "udp" q ns n) as H1.
  destruct (Exchange "udp" q ns n) as [r n1]. simpl in H1. subst r.
  unfold reply_msg, reply_err. destruct (_ || _); [|done].
  pose proof (Exchange_replies "tcp" q ns n1) as H2.
  destruct (Exchange "tcp" q ns n1) as [r n2]. simpl in *. by subst r.
Qed.

Lemma answers_of_cons q ns nss :
  answers_of q (ns :: nss) =
    if informative q ns then (reply_msg (answer_of q ns), reply_err (answer_of q ns))
    else match nss with
         | [] => (reply_msg (answer_of q ns), reply_err (answer_of q ns))
         | _ => answers_of q nss
         end.
Proof.
  unfold answers_of. cbn [list_find]. destruct (decide (informative q ns = true)) as [H|H].
  - by rewrite H.
  - apply not_true_is_false in H. rewrite H. destruct nss as [|ns' nss]; [done|].
    by destruct (list_find _ _) as [[]|].
Qed.

Lemma query_loop_answers q nss l n :
  fst (query_loop q nss l n) = match nss with [] => l | _ => answers_of q nss end.
Proof using Exchange_replies.
  revert l n. induction nss as [|ns nss IH]; intros l n; [done|].
  cbn [query_loop]. pose proof (sendDNSQuery_answer q ns n) as Hs.
  destruct (sendDNSQuery q ns n) as [[i e] n1]. simpl in Hs. injection Hs as -> ->.
  rewrite answers_of_cons. unfold informative.
  destruct (answer_of q ns) as [m|[m|] e] eqn:Ea; cbn [reply_msg reply_err].
  - destruct (0 <? length (Answer m))%nat; [done|]. by rewrite IH.
  - by rewrite IH.
  - by rewrite IH.
Qed.

Lemma dnsQuery_answers d t nss n :
  fst (dnsQuery d t nss true n) = answers_of (createDNSMsg d t true) nss.
Proof using Exchange_replies. unfold dnsQuery. rewrite query_loop_answers. by destruct nss. Qed.

(** *** Propagation *)

Context (fqdn : string) (recType : Z) (expectedValue : string).
Hypothesis supported : recType = TypeTXT ∨ recType = TypeCNAME.

(** The record that is looked for; the dot at the end of a CNAME is optional. *)
Definition carries (rr : RR) : bool :=
  match rr with
  | TXT _ txt => (recType =? TypeTXT)%Z && (Join txt "" =? expectedValue)
  | CNAME _ target =>
      (recType =? TypeCNAME)%Z && (TrimSuffix target "." =? TrimSuffix expectedValue ".")
  | _ => false
  end.

(** A nameserver that has answered, and whether the record is in its answer. *)
Definition shows (present : bool) (ns : string) : Prop :=
  ∃ r, answers_of (createDNSMsg fqdn recType true) [ns] = (Some r, None) ∧
       Rcode r = RcodeSuccess ∧ existsb carries (Answer r) = present.

Lemma check_answers_spec answers :
  check_answers recType expectedValue answers = Ok (existsb carries answers).
Proof using supported.
  induction answers as [|rr l IH]; [done|]. simpl. unfold carries at 1.
  destruct supported as [-> | ->]; simpl; destruct rr; simpl; rewrite ?IH; try done.
  all: by destruct (_ =? _).
Qed.

(** The propagation check at the authoritative nameservers succeeds exactly
    when one of them answers with the record and those before it in the list
    have answered without it. In particular one nameserver that has the record
    is enough; those behind it are not asked. *)
Theorem checkAuthoritativeNss_first nss n :
  fst (checkAuthoritativeNss fqdn recType expectedValue nss n) = Ok true ↔
  ∃ pre ns post, nss = (pre ++ ns :: post)%list ∧ Forall (shows false) pre ∧ shows true ns.
Proof using Exchange_replies supported.
  revert n. induction nss as [|ns nss IH]; intros n.
  { simpl. split; [done|]. by intros ([|] & ? & ? & ? & _). }
  cbn [checkAuthoritativeNss].
  pose proof (dnsQuery_answers fqdn recType [ns] n) as Ha.
  destruct (dnsQuery fqdn recType [ns] true n) as [a n1]. simpl in Ha. subst a.
  destruct (answers_of _ [ns]) as [om oe] eqn:Ea.
  assert ((∃ pre x post, ns :: nss = (pre ++ x :: post)%list ∧ Forall (shows false) pre ∧ shows true x)
    ↔ shows true ns ∨ shows false ns ∧
      ∃ pre x post, nss = (pre ++ x :: post)%list ∧ Forall (shows false) pre ∧ shows true x) as ->.
  { split.
    - intros ([|y pre] & x & post & E & Hp & Hx); injection E as -> ->; [by left|].
      inversion_clear Hp. right. eauto 10.
    - intros [Hx|(Hns & pre & x & post & -> & Hp & Hx)]; [by exists [], ns, nss|].
      exists (ns :: pre), x, post. split; [done|]. split; [by constructor|done]. }
  unfold shows at 1 2. rewrite Ea.
  destruct om as [r|], oe as [e|]; simpl; try (split; [done|]; by intros [(?&?&?)|[(?&?&?) _]]).
  destruct (Z.eqb_spec (Rcode r) RcodeSuccess) as [Hr|Hr]; simpl.
  - rewrite check_answers_spec. destruct (existsb carries (Answer r)) eqn:Ex.
    + split; [|done]. intros _. left. eauto.
    + rewrite IH. split; [right; split; [eauto|done]|].
      intros [(r' & [= <-] & _ & ?)|[_ ?]]; [congruence|done].
  - split; [by destruct (_ || _)|]. by intros [(? & [= <-] & ? & _)|[(? & [= <-] & ? & _) _]].
Qed.
End stable.

(** ** A small network

    The zone [example.com.] with a TXT record that only one of its two
    nameservers has yet. *)
Module SimDNS.
Definition t : Type := Time.

(** The starts of the labels behind the first. *)
Fixpoint label_starts (i : nat) (s : string) : list nat :=
  match s with
  | "" => []
  | String c s' =>
      if Ascii.eqb c "." && negb (s' =? "") then S i :: label_starts (S i) s'
      else label_starts (S i) s'
  end.

Definition challenge : string := "_acme-challenge.example.com.".

Definition replies (_ : string) (q : Query) (ns : string) : reply :=
  let answer l := Reply (MkMsg RcodeSuccess false l) in
  if (q_type q =? TypeSOA)%Z && (q_name q =? "example.com.")
  then answer [SOA "example.com." "ns1.example.com." 3600]
  else if (q_type q =? TypeNS)%Z && (q_name q =? "example.com.")
  then answer [NS "example.com." "NS1.example.com."; NS "example.com." "ns2.example.com."]
  else if (q_type q =? TypeTXT)%Z && (q_name q =? challenge)
  then if ns =? "ns1.example.com.:53" then answer [TXT challenge ["to"; "ken"]] else answer []
  else Reply (MkMsg RcodeNameError false []).

#[export] Instance sim_DNSNet : DNSNet t := {
  Exchange net q ns := λ n, (replies net q ns, (n + 1)%Z);
  ctx_Err _ := None;
  net_Now n := n;
  time_After_or_Done d := λ n, (None, (n + d)%Z);
  range_first _ m := match map_to_list m with (k, _) :: _ => k | [] => "" end;
  dns_Split s := if s =? "." then [] else 0%nat :: label_starts 0 s;
  RcodeToString c := if (c =? 0)%Z then "NOERROR" else "NXDOMAIN";
  ClientConfigFromFile _ _ := Ok ["9.9.9.9"; "2620:fe::fe"]
}.

#[export] Instance sim_DNSLaws : DNSLaws t.
Proof.
  split.
  - intros net q ns n r n' [= _ <-]. simpl. lia.
  - intros d n n' [= <-]. simpl. lia.
  - intros n m Hm. simpl. destruct (map_to_list m) as [|[k e] l] eqn:E.
    + by apply map_to_list_empty_iff in E.
    + exists e. apply elem_of_map_to_list. rewrite E. by left.
Qed.

Lemma sim_replies net q ns (n : t) : fst (Exchange net q ns n) = replies net q ns.
Proof. done. Qed.

Definition begin : t := 0%Z.
Definition start : DState t := MkDState begin ∅.
End SimDNS.
Export (hints) SimDNS.

Lemma RecursiveNameservers_ports_witness :
  RecursiveNameservers SimDNS.begin [] ≠ [] ∧
  Forall has_port (RecursiveNameservers SimDNS.begin []) ∧
  populateNameserverPorts (RecursiveNameservers SimDNS.begin []) =
    RecursiveNameservers SimDNS.begin [].
Proof.
  apply (RecursiveNameservers_ports SimDNS.begin []); [constructor|].
  intros l [= <-]. repeat constructor; right; split; vm_compute; reflexivity.
Defined.

(** The cache of the first call answers the second one, until it has expired. *)
Lemma FindZoneByFQDN_closest_witness :
  let s1 := snd (FindZoneByFQDN "_acme-challenge.example.com" ["9.9.9.9:53"] SimDNS.start) in
  let late := MkDState (d_net s1 + 3601 * Second)%Z (fqdnSOACache s1) in
  (∃ ns refresh,
     found ["9.9.9.9:53"] (ancestors "_acme-challenge.example.com.") (d_net late)
       ("example.com.", ns, refresh)
       (d_net (snd (FindZoneByFQDN "_acme-challenge.example.com" ["9.9.9.9:53"] late)))) ∧
  FindZoneByFQDN "_acme-challenge.example.com" ["9.9.9.9:53"] s1 = (Ok "example.com.", s1).
Proof.
  intros s1 late. split.
  - destruct (FindZoneByFQDN "_acme-challenge.example.com" ["9.9.9.9:53"] late) as [r s'] eqn:E.
    assert (r = Ok "example.com.") as -> by (vm_compute in E; congruence).
    destruct (FindZoneByFQDN_closest _ _ late _ _ E) as [_ (ns & refresh & Hf & _)].
    exists ns, refresh. exact Hf.
  - destruct (FindZoneByFQDN "_acme-challenge.example.com" ["9.9.9.9:53"] s1) as [r s'] eqn:E.
    destruct (FindZoneByFQDN_closest _ _ s1 _ _ E) as [_ [-> ->]]. reflexivity.
Defined.

(** The second nameserver does not have the record yet, but is not asked. *)
Lemma checkAuthoritativeNss_first_witness :
  fst (checkAuthoritativeNss (N := SimDNS.t) SimDNS.challenge TypeTXT "token"
         ["ns1.example.com.:53"; "ns2.example.com.:53"] 0%Z) = Ok true ∧
  shows SimDNS.replies SimDNS.challenge TypeTXT "token" false "ns2.example.com.:53".
Proof.
  split.
  - apply (checkAuthoritativeNss_first (N := SimDNS.t) SimDNS.replies SimDNS.sim_replies
      SimDNS.challenge TypeTXT "token" (or_introl eq_refl)).
    exists [], "ns1.example.com.:53", ["ns2.example.com.:53"]. split; [reflexivity|].
    split; [constructor|]. eexists. split; [vm_compute; reflexivity|]. split; vm_compute; reflexivity.
  - eexists. split; [vm_compute; reflexivity|]. split; vm_compute; reflexivity.
Defined.

Example propagation_run :
  fst (checkDNSPropagation SimDNS.challenge TypeTXT "token" true ["9.9.9.9:53"] SimDNS.start) = Ok true.
Proof. vm_compute. reflexivity. Qed.

(** A bracketed IPv6 address without a port is completed to one that does not
    parse. *)
Lemma populate_port_brackets :
  populateNameserverPorts ["[2001:db8::1]"] = ["[[2001:db8::1]]:53"] ∧
  ¬ has_port "[[2001:db8::1]]:53".
Proof. split; [reflexivity|]. vm_compute. tauto. Qed.
