(* ===== verification/Solvers.v ===== *)
(** * Challenge solvers (solvers.go)

    The solvers of the HTTP-01 and TLS-ALPN-01 challenges share one listener
    per address, which the first challenge opens and the last one closes.
    [distributedSolver] leaves the challenge in storage for the other instances
    of a cluster; [solverWrapper] remembers it in the process. Solvers are
    records of operations on a state, as acmez has them as an interface. *)

From S2P Require Import Prelude GoStrings Certificates Storage Crypto.
Import KeyBuilder.
Open Scope string_scope.

(** ** Challenges *)

(** [acme.Challenge] with the fields that are used. *)
Record Identifier := MkIdentifier { id_Type : string; id_Value : string }.
Record acmeChallenge := MkChallenge {
  ch_Type : string;
  ch_URL : string;
  ch_Token : string;
  ch_KeyAuthorization : string;
  ch_Identifier : Identifier
}.

#[export] Instance Identifier_eq_dec : EqDecision Identifier.
Proof. solve_decision. Defined.
#[export] Instance acmeChallenge_eq_dec : EqDecision acmeChallenge.
Proof. solve_decision. Defined.

Definition ChallengeTypeHTTP01 : string := "http-01".
Definition ChallengeTypeTLSALPN01 : string := "tls-alpn-01".
Definition ChallengeTypeDNS01 : string := "dns-01".

(** What acmez computes from a challenge, its JSON encoding, and
    [dns.ReverseAddr]. A nil certificate is [None]. *)
Class ChallengeLib := {
  DNS01TXTRecordName : acmeChallenge → string;
  DNS01KeyAuthorization : acmeChallenge → string;
  HTTP01ResourcePath : acmeChallenge → string;
  TLSALPN01ChallengeCert : acmeChallenge → result (option TLSCertificate);
  json_MarshalChallenge : acmeChallenge → result bytes;
  json_UnmarshalChallenge : bytes → result acmeChallenge;
  ReverseAddr : string → result string
}.

Class ChallengeLaws `{!ChallengeLib} := {
  json_Challenge_roundtrip c b : json_MarshalChallenge c = Ok b → json_UnmarshalChallenge b = Ok c;
  json_Challenge_nonempty c b : json_MarshalChallenge c = Ok b → b ≠ "";
  HTTP01ResourcePath_prefix c :
    HasPrefix (HTTP01ResourcePath c) "/.well-known/acme-challenge" = true
}.

(** [Challenge]: with data that makes it easier to solve, which is the
    certificate of a TLS-ALPN challenge. *)
Record Challenge := MkChallengeData {
  chal_Challenge : acmeChallenge;
  chal_data : option (option TLSCertificate)
}.

(** The key of a challenge in the maps: the identifier, or the name of the
    reverse lookup of an IP address with its last dot cut off. *)
Definition challengeKey `{!ChallengeLib} (chal : acmeChallenge) : string :=
  if (ch_Type chal =? ChallengeTypeTLSALPN01) && (id_Type (ch_Identifier chal) =? "ip") then
    match ReverseAddr (id_Value (ch_Identifier chal)) with
    | Ok reversed => string_take (String.length reversed - 1) reversed
    | Err _ => id_Value (ch_Identifier chal)
    end
  else id_Value (ch_Identifier chal).

(** The [acmez.Solver] interface, with [acmez.Waiter] when it is implemented. *)
Record Solver (W : Type) := MkSolver {
  sv_Present : acmeChallenge → ST W (result unit);
  sv_Wait : option (acmeChallenge → ST W (result unit));
  sv_CleanUp : acmeChallenge → ST W (result unit)
}.
Arguments MkSolver {W}.
Arguments sv_Present {W}.
Arguments sv_Wait {W}.
Arguments sv_CleanUp {W}.

(** ** Listeners *)

(** [net.Listen] and [net.DialTimeout] on the outside state; [None] is no
    error. *)
Class ListenNet (N : Type) := {
  net_Listen : string → ST N (option error);
  net_Dial : string → ST N (option error);
  listen_in_use : error → bool      (* the texts that robustTryListen looks for *)
}.

(** A listener is a number. The flag [closed] and the channel [done] only serve
    to end the goroutine of a listener that is closed, which is one step here. *)
Record solverInfo := MkSolverInfo {
  si_count : Z;
  si_listener : option nat
}.

(** The solvers and challenges of the process, the listeners it has open and
    those that a goroutine serves. *)
Record ProcState := MkProc {
  solvers : gmap string solverInfo;
  activeChallenges : gmap string Challenge;
  sockets : gset nat;
  serving : gset nat;
  nextListener : nat
}.

Definition set_solvers (m : gmap string solverInfo) (p : ProcState) : ProcState :=
  MkProc m (activeChallenges p) (sockets p) (serving p) (nextListener p).
Definition set_active (m : gmap string Challenge) (p : ProcState) : ProcState :=
  MkProc (solvers p) m (sockets p) (serving p) (nextListener p).
(** A listener that was just bound, and one that is closed and served no more. *)
Definition bind_socket (p : ProcState) : nat * ProcState :=
  (nextListener p,
   MkProc (solvers p) (activeChallenges p) ({[nextListener p]} ∪ sockets p) (serving p)
     (S (nextListener p))).
Definition serve (l : nat) (p : ProcState) : ProcState :=
  MkProc (solvers p) (activeChallenges p) (sockets p) ({[l]} ∪ serving p) (nextListener p).
Definition close_socket (l : nat) (p : ProcState) : ProcState :=
  MkProc (solvers p) (activeChallenges p) (sockets p ∖ {[l]}) (serving p ∖ {[l]}) (nextListener p).

Definition newSolverInfo : solverInfo := MkSolverInfo 0 None.

Definition getSolverInfo (address : string) (p : ProcState) : solverInfo :=
  default newSolverInfo (solvers p !! address).

(** The world of a solver: the shared storage, the process, and the network. *)
Record SWorld (St N : Type) := MkSW { sw_storage : St; sw_proc : ProcState; sw_net : N }.
Arguments MkSW {St N}.
Arguments sw_storage {St N}.
Arguments sw_proc {St N}.
Arguments sw_net {St N}.

Section solvers.
Context {St N : Type} `{!ChallengeLib} `{!Storage St} `{!ListenNet N}.
Implicit Types w : SWorld St N.

Definition with_proc (f : ProcState → ProcState) w : SWorld St N :=
  MkSW (sw_storage w) (f (sw_proc w)) (sw_net w).
Definition on_sw_storage {A} (m : ST St A) : ST (SWorld St N) A := λ w,
  let '(a, s) := m (sw_storage w) in (a, MkSW s (sw_proc w) (sw_net w)).
Definition on_sw_net {A} (m : ST N A) : ST (SWorld St N) A := λ w,
  let '(a, n) := m (sw_net w) in (a, MkSW (sw_storage w) (sw_proc w) n).

(** The connection is closed at once, so only the outcome of dialing is left. *)
Definition dialTCPSocket (addr : string) : ST (SWorld St N) (option error) := on_sw_net (net_Dial addr).

(** The attempts that are left of [robustTryListen]. The listener may be missing without an error. *)
Fixpoint robust_loop (attempts : nat) (addr : string) :
    ST (SWorld St N) (result (option nat)) :=
  match attempts with
  | O => mret (Err (Errorf "could not start listener for challenge server"))
  | S attempts' => λ w,
      match on_sw_net (net_Listen addr) w with
      | (None, w) =>
          let '(l, p) := bind_socket (sw_proc w) in
          (Ok (Some l), MkSW (sw_storage w) p (sw_net w))
      | (Some listenErr, w) =>
          match dialTCPSocket addr w with
          | (None, w) => (Ok None, w)
          | (Some _, w) =>
              if listen_in_use listenErr then (Ok None, w)
              else robust_loop attempts' addr w
          end
      end
  end.
Definition robustTryListen (addr : string) : ST (SWorld St N) (result (option nat)) :=
  robust_loop 2 addr.

(** What [Present] of both solvers does under [solversMu]. *)
Definition present_at (address : string) : ST (SWorld St N) (result unit) := λ w,
  let si := getSolverInfo address (sw_proc w) in
  let si := MkSolverInfo (si_count si + 1) (si_listener si) in
  let put si w := with_proc (λ p, set_solvers (<[address := si]> (solvers p)) p) w in
  let w := put si w in
  match si_listener si with
  | Some _ => (Ok tt, w)
  | None =>
      match robustTryListen address w with
      | (Err e, w) => (Err e, w)
      | (Ok None, w) => (Ok tt, w)
      | (Ok (Some l), w) =>
          (Ok tt, with_proc (serve l) (put (MkSolverInfo (si_count si) (Some l)) w))
      end
  end.

(** What [CleanUp] of both solvers does under [solversMu]: the goroutine ends
    when its listener is closed, which [<-si.done] waits for. *)
Definition cleanup_at (address : string) : ST (SWorld St N) (result unit) := λ w,
  let si := getSolverInfo address (sw_proc w) in
  let count := (si_count si - 1)%Z in
  if (count =? 0)%Z then
    let w := match si_listener si with
             | Some l => with_proc (close_socket l) w
             | None => w
             end in
    (Ok tt, with_proc (λ p, set_solvers (delete address (solvers p)) p) w)
  else
    (Ok tt, with_proc (λ p, set_solvers
       (<[address := MkSolverInfo count (si_listener si)]> (solvers p)) p) w).

(** *** The solvers *)

Definition httpSolver (address : string) : Solver (SWorld St N) :=
  MkSolver (λ _, present_at address) None (λ _, cleanup_at address).

Definition tlsALPN_Present (address : string) (chal : acmeChallenge) : ST (SWorld St N) (result unit) := λ w,
  match TLSALPN01ChallengeCert chal with
  | Err e => (Err e, w)
  | Ok cert =>
      let key := challengeKey chal in
      let zero := MkChallenge "" "" "" "" (MkIdentifier "" "") in
      let chalData := default (MkChallengeData zero None) (activeChallenges (sw_proc w) !! key) in
      let chalData := MkChallengeData (chal_Challenge chalData) (Some cert) in
      present_at address
        (with_proc (λ p, set_active (<[key := chalData]> (activeChallenges p)) p) w)
  end.
Definition tlsALPNSolver (address : string) : Solver (SWorld St N) :=
  MkSolver (tlsALPN_Present address) None (λ _, cleanup_at address).

(** [distributedSolver]; [prefix] is its [storageKeyIssuerPrefix]. *)
Definition challengeTokensPrefix (prefix : string) : string := path_Join [prefix; "challenge_tokens"].
Definition challengeTokensKey (prefix domain : string) : string :=
  path_Join [challengeTokensPrefix prefix; Safe domain +:+ ".json"].

Definition distributed_Present (prefix : string) (solver : Solver (SWorld St N))
    (chal : acmeChallenge) : ST (SWorld St N) (result unit) := λ w,
  match json_MarshalChallenge chal with
  | Err e => (Err e, w)
  | Ok infoBytes =>
      match on_sw_storage (Store (challengeTokensKey prefix (challengeKey chal)) infoBytes) w with
      | (Err e, w) => (Err e, w)
      | (Ok _, w) =>
          match sv_Present solver chal w with
          | (Err _, w) => (Err (Errorf "presenting with embedded solver"), w)
          | (Ok _, w) => (Ok tt, w)
          end
      end
  end.

Definition distributed_CleanUp (prefix : string) (solver : Solver (SWorld St N))
    (chal : acmeChallenge) : ST (SWorld St N) (result unit) := λ w,
  match on_sw_storage (Delete (challengeTokensKey prefix (challengeKey chal))) w with
  | (Err e, w) => (Err e, w)
  | (Ok _, w) =>
      match sv_CleanUp solver chal w with
      | (Err _, w) => (Err (Errorf "cleaning up embedded provider"), w)
      | (Ok _, w) => (Ok tt, w)
      end
  end.

(** [Wait] of both wrappers: that of the solver inside, if it has one. *)
Definition wrapped_Wait (solver : Solver (SWorld St N)) (chal : acmeChallenge) :
    ST (SWorld St N) (result unit) :=
  match sv_Wait solver with Some wait => wait chal | None => mret (Ok tt) end.

Definition distributedSolver (prefix : string) (solver : Solver (SWorld St N)) : Solver (SWorld St N) :=
  MkSolver (distributed_Present prefix solver) (Some (wrapped_Wait solver))
    (distributed_CleanUp prefix solver).

Definition wrapper_Present (solver : Solver (SWorld St N)) (chal : acmeChallenge) :
    ST (SWorld St N) (result unit) := λ w,
  sv_Present solver chal
    (with_proc (λ p, set_active
       (<[challengeKey chal := MkChallengeData chal None]> (activeChallenges p)) p) w).
Definition wrapper_CleanUp (solver : Solver (SWorld St N)) (chal : acmeChallenge) :
    ST (SWorld St N) (result unit) := λ w,
  sv_CleanUp solver chal
    (with_proc (λ p, set_active (delete (challengeKey chal) (activeChallenges p)) p) w).
Definition solverWrapper (solver : Solver (SWorld St N)) : Solver (SWorld St N) :=
  MkSolver (wrapper_Present solver) (Some (wrapped_Wait solver)) (wrapper_CleanUp solver).

Definition GetACMEChallenge (identifier : string) (p : ProcState) : option Challenge :=
  activeChallenges p !! identifier.
End solvers.

(** ** The table of listeners *)

Section listeners.
Context {St N : Type} `{!ChallengeLib} `{!Storage St} `{!ListenNet N}.
Implicit Types (w : SWorld St N) (p : ProcState).

(** The solvers that serve an address: the HTTP or the TLS-ALPN solver, alone or
    in the wrappers that the issuers put around them. *)
Inductive shape :=
| ShHTTP
| ShALPN
| ShDistributed (prefix : string) (inner : shape)
| ShWrapper (inner : shape).

Fixpoint shape_solver (address : string) (sh : shape) : Solver (SWorld St N) :=
  match sh with
  | ShHTTP => httpSolver address
  | ShALPN => tlsALPNSolver address
  | ShDistributed prefix inner => distributedSolver prefix (shape_solver address inner)
  | ShWrapper inner => solverWrapper (shape_solver address inner)
  end.

(** [Present] returns its error before it gets to [si.count++]: there is no
    certificate, the challenge has no JSON form or the token is not stored. *)
Fixpoint present_early (sh : shape) (chal : acmeChallenge) w : bool :=
  match sh with
  | ShHTTP => false
  | ShALPN => negb (is_Ok (TLSALPN01ChallengeCert chal))
  | ShDistributed prefix inner =>
      match json_MarshalChallenge chal with
      | Err _ => true
      | Ok infoBytes =>
          let '(r, w) := on_sw_storage (Store (challengeTokensKey prefix (challengeKey chal)) infoBytes) w in
          negb (is_Ok r) || present_early inner chal w
      end
  | ShWrapper inner => present_early inner chal w
  end.

(** [CleanUp] returns its error before it gets to [si.count--]: the token
    cannot be deleted. *)
Fixpoint cleanup_early (sh : shape) (chal : acmeChallenge) w : bool :=
  match sh with
  | ShHTTP | ShALPN => false
  | ShDistributed prefix inner =>
      let '(r, w) := on_sw_storage (Delete (challengeTokensKey prefix (challengeKey chal))) w in
      negb (is_Ok r) || cleanup_early inner chal w
  | ShWrapper inner => cleanup_early inner chal w
  end.

(** What has happened at the addresses: the challenges that were counted and
    have not ended, those whose [Present] failed before, and the addresses where
    a [CleanUp] went with no count of its own, or the other way round. *)
Record book := MkBook { active : list string; uncounted : list string; odd : list string }.
Definition empty_book : book := MkBook [] [] [].

(** Challenges begin and end at addresses, one [CleanUp] for a [Present], also
    for one that failed, as acmez does it; a goroutine may end on its own; the
    storage and the network may change at any time. *)
Inductive listener_step : book * SWorld St N → book * SWorld St N → Prop :=
| step_Present b address sh chal w r w' :
    sv_Present (shape_solver address sh) chal w = (r, w') →
    listener_step (b, w)
      (if present_early sh chal w then MkBook (active b) (address :: uncounted b) (odd b)
       else MkBook (address :: active b) (uncounted b) (odd b), w')
| step_CleanUp before address after uc od sh chal w r w' :
    sv_CleanUp (shape_solver address sh) chal w = (r, w') →
    listener_step (MkBook (before ++ address :: after) uc od, w)
      (MkBook (before ++ after) uc (if cleanup_early sh chal w then address :: od else od), w')
| step_CleanUp_uncounted ac before address after od sh chal w r w' :
    sv_CleanUp (shape_solver address sh) chal w = (r, w') →
    listener_step (MkBook ac (before ++ address :: after) od, w)
      (MkBook ac (before ++ after) (if cleanup_early sh chal w then od else address :: od), w')
| step_serve_ends b l w :
    listener_step (b, w)
      (b, with_proc (λ p, MkProc (solvers p) (activeChallenges p) (sockets p)
                            (serving p ∖ {[l]}) (nextListener p)) w)
| step_outside b w w' :
    sw_proc w' = sw_proc w → listener_step (b, w) (b, w').

Definition uses (address : string) (l : list string) : nat := length (filter (λ a, a = address) l).

Definition listener_of (m : gmap string solverInfo) (address : string) : option nat :=
  m !! address ≫= si_listener.

(** The count of an address is that of its challenges [n]. *)
Definition counted_at (n : nat) (m : gmap string solverInfo) (a : string) : Prop :=
  match m !! a with
  | Some si => si_count si = Z.of_nat n ∧ (0 < n)%nat
  | None => n = 0%nat
  end.

(** The open sockets are the listeners of the table, one per address. *)
Record owned (m : gmap string solverInfo) (open serving : gset nat) (next : nat) : Prop := {
  owned_open l : l ∈ open ↔ ∃ a, listener_of m a = Some l;
  owned_distinct a a' l : listener_of m a = Some l → listener_of m a' = Some l → a = a';
  owned_fresh l : l ∈ open → (l < next)%nat;
  owned_serving : serving ⊆ open
}.

Definition owns p : Prop := owned (solvers p) (sockets p) (serving p) (nextListener p).

Definition solver_inv (b : book) p : Prop :=
  (∀ a, a ∉ odd b → counted_at (uses a (active b)) (solvers p) a) ∧ owns p.

Lemma uses_cons a b l :
  uses a (b :: l) = if decide (b = a) then S (uses a l) else uses a l.
Proof. unfold uses. rewrite filter_cons. by destruct (decide (b = a)). Qed.

Lemma uses_cleanup a b before after :
  uses a (before ++ b :: after)%list =
    if decide (b = a) then S (uses a (before ++ after)%list) else uses a (before ++ after)%list.
Proof.
  unfold uses. rewrite !filter_app, filter_cons, !length_app.
  destruct (decide (b = a)); simpl; lia.
Qed.

Lemma uses_elem a l : (0 < uses a l)%nat ↔ a ∈ l.
Proof.
  unfold uses. split.
  - destruct (filter (λ b, b = a) l) as [|b l'] eqn:E; simpl; [lia|]. intros _.
    assert (b ∈ filter (λ b, b = a) l) as Hb by (rewrite E; by left).
    apply list_elem_of_filter in Hb as [-> ?]. done.
  - intros Ha. assert (a ∈ filter (λ b, b = a) l) as Hb by (by apply list_elem_of_filter).
    destruct (filter (λ b, b = a) l); [by apply elem_of_nil in Hb|]. simpl. lia.
Qed.

(** [robustTryListen] binds at most one new socket. *)
Lemma robust_loop_spec k a w r w' :
  robust_loop k a w = (r, w') →
  sw_storage w' = sw_storage w ∧
  sw_proc w' = match r with Ok (Some l) => snd (bind_socket (sw_proc w)) | _ => sw_proc w end ∧
  ∀ l, r = Ok (Some l) → l = nextListener (sw_proc w).
Proof.
  revert w. induction k as [|k IH]; intros w; simpl; [by intros [= <- <-]|].
  unfold dialTCPSocket, on_sw_net. destruct (net_Listen a (sw_net w)) as [[e|] n1]; simpl.
  - destruct (net_Dial a n1) as [[e'|] n2]; simpl; [|by intros [= <- <-]].
    destruct (listen_in_use e); [by intros [= <- <-]|]. intros Hr. by apply IH in Hr.
  - intros [= <- <-]. simpl. split; [done|]. split; [done|]. by intros l [= <-].
Qed.

Lemma present_at_spec a w r w' :
  present_at a w = (r, w') →
  sw_storage w' = sw_storage w ∧
  let p := sw_proc w in
  let si := getSolverInfo a p in
  let put l := set_solvers (<[a := MkSolverInfo (si_count si + 1) l]> (solvers p)) in
  sw_proc w' = put (si_listener si) p ∨
  si_listener si = None ∧
  sw_proc w' = serve (nextListener p) (put (Some (nextListener p)) (snd (bind_socket p))).
Proof.
  unfold present_at. set (si := getSolverInfo a (sw_proc w)). cbn [si_listener si_count].
  destruct (si_listener si) as [l|] eqn:El; [intros [= <- <-]; split; [done|by left]|].
  destruct (robustTryListen a _) as [r1 w1] eqn:E.
  apply robust_loop_spec in E as (Hs & Hp & Hl). simpl in Hs, Hp, Hl.
  destruct r1 as [[l|]|e]; intros [= <- <-]; simpl; rewrite Hs, Hp; (split; [done|]).
  - right. split; [done|]. rewrite (Hl l eq_refl). unfold serve, set_solvers, bind_socket. simpl.
    by rewrite insert_insert_eq.
  - by left.
  - by left.
Qed.

Lemma present_at_frame a w r w' :
  present_at a w = (r, w') →
  sw_storage w' = sw_storage w ∧ activeChallenges (sw_proc w') = activeChallenges (sw_proc w).
Proof. intros [Hs [Hw|[_ Hw]]]%present_at_spec; by rewrite Hw. Qed.

Lemma cleanup_at_frame a w r w' :
  cleanup_at a w = (r, w') →
  sw_storage w' = sw_storage w ∧ activeChallenges (sw_proc w') = activeChallenges (sw_proc w).
Proof.
  unfold cleanup_at. destruct (_ =? 0)%Z; intros [= _ <-]; [|done].
  by destruct (si_listener _).
Qed.

Lemma listener_of_insert m a si x :
  listener_of (<[a := si]> m) x = if decide (x = a) then si_listener si else listener_of m x.
Proof.
  unfold listener_of. destruct (decide (x = a)) as [->|].
  - by rewrite lookup_insert_eq.
  - by rewrite lookup_insert_ne.
Qed.

Lemma listener_of_delete m a x :
  listener_of (delete a m) x = if decide (x = a) then None else listener_of m x.
Proof.
  unfold listener_of. destruct (decide (x = a)) as [->|].
  - by rewrite lookup_delete_eq.
  - by rewrite lookup_delete_ne.
Qed.

Lemma getSolverInfo_listener a p : si_listener (getSolverInfo a p) = listener_of (solvers p) a.
Proof. unfold getSolverInfo, listener_of. by destruct (solvers p !! a). Qed.

Lemma getSolverInfo_count n a p :
  counted_at n (solvers p) a → si_count (getSolverInfo a p) = Z.of_nat n.
Proof.
  unfold counted_at, getSolverInfo. destruct (solvers p !! a); simpl; [tauto|by intros ->].
Qed.

Lemma owned_same m m' open srv next :
  (∀ x, listener_of m' x = listener_of m x) → owned m open srv next → owned m' open srv next.
Proof.
  intros E [H1 H2 H3 H4]. split; [|intros a a' l; rewrite !E; apply H2|done|done].
  intros l. rewrite H1. by setoid_rewrite E.
Qed.

Lemma owned_bind m open srv next a c :
  listener_of m a = None → owned m open srv next →
  owned (<[a := MkSolverInfo c (Some next)]> m) ({[next]} ∪ open) ({[next]} ∪ srv) (S next).
Proof.
  intros Ha [H1 H2 H3 H4].
  assert (∀ x, listener_of m x ≠ Some next) as Hfr.
  { intros x Hx. assert (next ∈ open) as Hin by (apply H1; eauto). apply H3 in Hin. lia. }
  split.
  - intros l. rewrite elem_of_union, elem_of_singleton, H1. setoid_rewrite listener_of_insert. split.
    + intros [->|[x Hx]]; [exists a; by rewrite decide_True|].
      exists x. rewrite decide_False; [done|congruence].
    + intros [x Hx]. destruct (decide (x = a)); [left; simpl in Hx; congruence|right; eauto].
  - intros x x' l. rewrite !listener_of_insert. simpl.
    destruct (decide (x = a)), (decide (x' = a)); try congruence. apply H2.
  - intros l [->%elem_of_singleton|Hl%H3]%elem_of_union; lia.
  - set_solver.
Qed.

Lemma owned_close m open srv next a l :
  listener_of m a = Some l → owned m open srv next →
  owned (delete a m) (open ∖ {[l]}) (srv ∖ {[l]}) next.
Proof.
  intros Ha [H1 H2 H3 H4]. split.
  - intros l'. rewrite elem_of_difference, elem_of_singleton, H1. setoid_rewrite listener_of_delete.
    split.
    + intros [[x Hx] Hne]. exists x. rewrite decide_False; [done|congruence].
    + intros [x Hx]. destruct (decide (x = a)) as [|Hne]; [done|]. split; [eauto|]. intros ->.
      by apply Hne, (H2 _ _ l).
  - intros x x' l'. rewrite !listener_of_delete. destruct (decide (x = a)), (decide (x' = a)); try done.
    apply H2.
  - intros l' [Hl _]%elem_of_difference. auto.
  - set_solver.
Qed.

(** The table after the two operations, at the address and elsewhere. *)
Lemma present_at_counts a w r w' n :
  present_at a w = (r, w') → owns (sw_proc w) →
  owns (sw_proc w') ∧
  (counted_at n (solvers (sw_proc w)) a → counted_at (S n) (solvers (sw_proc w')) a) ∧
  ∀ x, x ≠ a → solvers (sw_proc w') !! x = solvers (sw_proc w) !! x.
Proof.
  intros [_ Hw]%present_at_spec Ho.
  assert (∃ l, solvers (sw_proc w') =
    <[a := MkSolverInfo (si_count (getSolverInfo a (sw_proc w)) + 1) l]> (solvers (sw_proc w))) as [l Hl].
  { destruct Hw as [-> | [_ ->]]; simpl; eauto. }
  split; [|rewrite Hl; split].
  - destruct Hw as [-> | [Hn ->]]; unfold owns; simpl.
    + eapply owned_same; [|exact Ho]. intros x. rewrite listener_of_insert. simpl.
      destruct (decide (x = a)) as [->|]; [apply getSolverInfo_listener|done].
    + apply owned_bind; [by rewrite <-getSolverInfo_listener|done].
  - intros Hc%getSolverInfo_count. unfold counted_at. rewrite lookup_insert_eq. simpl. lia.
  - intros x Hx. by rewrite lookup_insert_ne.
Qed.

Lemma cleanup_at_counts a w r w' n :
  cleanup_at a w = (r, w') → owns (sw_proc w) →
  owns (sw_proc w') ∧
  (counted_at (S n) (solvers (sw_proc w)) a → counted_at n (solvers (sw_proc w')) a) ∧
  ∀ x, x ≠ a → solvers (sw_proc w') !! x = solvers (sw_proc w) !! x.
Proof.
  unfold cleanup_at. intros Hw Ho. pose proof (getSolverInfo_listener a (sw_proc w)) as Hl.
  destruct (Z.eqb_spec (si_count (getSolverInfo a (sw_proc w)) - 1) 0) as [Hz|Hz]; injection Hw as <- <-.
  - assert (∀ p, solvers p = solvers (sw_proc w) →
      (counted_at (S n) (solvers (sw_proc w)) a → counted_at n (delete a (solvers p)) a) ∧
      ∀ x, x ≠ a → delete a (solvers p) !! x = solvers (sw_proc w) !! x) as Hd.
    { intros p ->. split; [|intros x Hx; by rewrite lookup_delete_ne].
      intros Hc%getSolverInfo_count. unfold counted_at. rewrite lookup_delete_eq. lia. }
    destruct (si_listener (getSolverInfo a (sw_proc w))) as [l|]; (split; [|by apply Hd]).
    + by apply owned_close.
    + unfold owns. simpl. eapply owned_same; [|exact Ho]. intros x. rewrite listener_of_delete.
      by destruct (decide (x = a)) as [->|].
  - split; [|split]; simpl.
    + unfold owns. simpl. eapply owned_same; [|exact Ho]. intros x. rewrite listener_of_insert. simpl.
      by destruct (decide (x = a)) as [->|].
    + intros Hc. pose proof (getSolverInfo_count _ _ _ Hc) as Hn. unfold counted_at.
      rewrite lookup_insert_eq. simpl. lia.
    + intros x Hx. by rewrite lookup_insert_ne.
Qed.

(** The states of the process that differ in the challenges only. *)
Definition same_listeners p p' : Prop :=
  solvers p' = solvers p ∧ sockets p' = sockets p ∧ serving p' = serving p ∧
  nextListener p' = nextListener p.

(** A solver of the shapes presents at its address, unless it fails before. *)
Lemma shape_Present_spec sh a chal w r w' :
  sv_Present (shape_solver a sh) chal w = (r, w') →
  if present_early sh chal w then is_Ok r = false ∧ same_listeners (sw_proc w) (sw_proc w')
  else ∃ w1 r1 w2, same_listeners (sw_proc w) (sw_proc w1) ∧ present_at a w1 = (r1, w2) ∧
         sw_proc w' = sw_proc w2.
Proof.
  revert w r w'. induction sh as [| |prefix sh IH|sh IH]; intros w r w'; simpl.
  - intros Hp. by exists w, r, w'.
  - unfold tlsALPN_Present. destruct (TLSALPN01ChallengeCert chal) as [cert|e]; simpl.
    + intros Hp. eexists _, r, w'. split; [|by split]. done.
    + by intros [= <- <-].
  - unfold distributed_Present. destruct (json_MarshalChallenge chal) as [b|e]; [|by intros [= <- <-]].
    unfold on_sw_storage. destruct (Store _ b (sw_storage w)) as [[[]|e] st]; simpl; [|by intros [= <- <-]].
    destruct (sv_Present _ chal _) as [r1 w1] eqn:Hp. apply IH in Hp. simpl in Hp.
    destruct (present_early sh chal _); [|by destruct r1; intros [= <- <-]].
    destruct r1; [by destruct Hp|]. by intros [= <- <-].
  - unfold wrapper_Present. intros Hp%IH. simpl in Hp. revert Hp.
    assert (∀ w1, sw_storage w1 = sw_storage w → present_early sh chal w1 = present_early sh chal w) as ->.
    { clear. revert w. induction sh as [| |prefix sh IH|sh IH]; intros w w1 Hs; simpl; [done|done| |by apply IH].
      destruct (json_MarshalChallenge chal); [|done]. unfold on_sw_storage. rewrite Hs.
      destruct (Store _ _ _) as [r st]. f_equal. by apply IH. }
    2: done.
    done.
Qed.

Lemma shape_CleanUp_spec sh a chal w r w' :
  sv_CleanUp (shape_solver a sh) chal w = (r, w') →
  if cleanup_early sh chal w then same_listeners (sw_proc w) (sw_proc w')
  else ∃ w1 r1 w2, same_listeners (sw_proc w) (sw_proc w1) ∧ cleanup_at a w1 = (r1, w2) ∧
         sw_proc w' = sw_proc w2.
Proof.
  revert w r w'. induction sh as [| |prefix sh IH|sh IH]; intros w r w'; simpl.
  - intros Hp. by exists w, r, w'.
  - intros Hp. by exists w, r, w'.
  - unfold distributed_CleanUp, on_sw_storage.
    destruct (Delete _ (sw_storage w)) as [[[]|e] st]; simpl; [|by intros [= <- <-]].
    destruct (sv_CleanUp _ chal _) as [r1 w1] eqn:Hp. apply IH in Hp. simpl in Hp.
    by destruct r1; intros [= <- <-].
  - unfold wrapper_CleanUp. intros Hp%IH. simpl in Hp. revert Hp.
    assert (∀ w1, sw_storage w1 = sw_storage w → cleanup_early sh chal w1 = cleanup_early sh chal w) as ->.
    { clear. revert w. induction sh as [| |prefix sh IH|sh IH]; intros w w1 Hs; simpl; [done|done| |by apply IH].
      unfold on_sw_storage. rewrite Hs. destruct (Delete _ _) as [r st]. f_equal. by apply IH. }
    2: done.
    done.
Qed.

Lemma same_listeners_inv b p p' : same_listeners p p' → solver_inv b p → solver_inv b p'.
Proof. intros (H1 & H2 & H3 & H4). unfold solver_inv, owns. by rewrite H1, H2, H3, H4. Qed.

Lemma solver_inv_Present b sh a chal w r w' :
  solver_inv b (sw_proc w) → sv_Present (shape_solver a sh) chal w = (r, w') →
  solver_inv (if present_early sh chal w then MkBook (active b) (a :: uncounted b) (odd b)
              else MkBook (a :: active b) (uncounted b) (odd b)) (sw_proc w').
Proof.
  intros Hi Hw%shape_Present_spec. destruct (present_early sh chal w).
  { destruct Hw as [_ Hs]. by apply (same_listeners_inv _ _ _ Hs). }
  destruct Hw as (w1 & r1 & w2 & Hs & Hp & ->). destruct (same_listeners_inv b _ _ Hs Hi) as [Hc Ho].
  destruct (present_at_counts _ _ _ _ (uses a (active b)) Hp Ho) as (Ho' & Hc' & Hne).
  split; [|done]. intros x Hx. simpl. rewrite uses_cons. destruct (decide (a = x)) as [->|Hax].
  - by apply Hc', Hc.
  - unfold counted_at. rewrite Hne by done. by apply Hc.
Qed.

(** A [CleanUp] that goes with a count, or not. *)
Lemma solver_inv_CleanUp b b' sh a chal w r w' :
  solver_inv b (sw_proc w) → sv_CleanUp (shape_solver a sh) chal w = (r, w') →
  (∀ x, x ∉ odd b' → x ∉ odd b) →
  (∀ x, x ≠ a → uses x (active b') = uses x (active b)) →
  (a ∉ odd b' → uses a (active b) =
     if cleanup_early sh chal w then uses a (active b') else S (uses a (active b'))) →
  solver_inv b' (sw_proc w').
Proof.
  intros Hi Hw%shape_CleanUp_spec Hodd Hne Ha. destruct (cleanup_early sh chal w).
  - destruct (same_listeners_inv b _ _ Hw Hi) as [Hc Ho]. split; [|done]. intros x Hx.
    assert (uses x (active b') = uses x (active b)) as ->; [|auto].
    destruct (decide (x = a)) as [->|Hxa]; [symmetry|]; auto.
  - destruct Hw as (w1 & r1 & w2 & Hs & Hp & ->). destruct (same_listeners_inv b _ _ Hs Hi) as [Hc Ho].
    destruct (cleanup_at_counts _ _ _ _ (uses a (active b')) Hp Ho) as (Ho' & Hc' & Hx).
    split; [|done]. intros x Hxo. destruct (decide (x = a)) as [->|Hxa].
    + specialize (Ha Hxo). apply Hc'. rewrite <- Ha. auto.
    + unfold counted_at. rewrite Hx, Hne by done. by apply Hc, Hodd.
Qed.

Lemma solver_inv_step s s' :
  listener_step s s' → solver_inv s.1 (sw_proc s.2) → solver_inv s'.1 (sw_proc s'.2).
Proof.
  intros [b a sh chal w r w' Hw|before a after uc od sh chal w r w' Hw
         |ac before a after od sh chal w r w' Hw|b l w|b w w' Hw] Hi; simpl in *.
  - by eapply solver_inv_Present.
  - eapply solver_inv_CleanUp; [exact Hi|exact Hw|..]; simpl.
    + destruct (cleanup_early _ _ _); set_solver.
    + intros x Hx. rewrite uses_cleanup. by rewrite decide_False.
    + rewrite uses_cleanup, decide_True by done. destruct (cleanup_early _ _ _); set_solver.
  - eapply solver_inv_CleanUp; [exact Hi|exact Hw|..]; simpl.
    + destruct (cleanup_early _ _ _); set_solver.
    + done.
    + destruct (cleanup_early _ _ _); set_solver.
  - destruct Hi as [Hc [H1 H2 H3 H4]]. split; [done|]. split; simpl; [done|done|done|set_solver].
  - by rewrite Hw.
Qed.

Lemma solver_inv_reachable s s' :
  rtc listener_step s s' → solver_inv s.1 (sw_proc s.2) → solver_inv s'.1 (sw_proc s'.2).
Proof.
  intros Hr. induction Hr as [|s s1 s2 Hs _ IH]; [done|]. intros Hi. apply IH.
  by eapply solver_inv_step.
Qed.

Definition idle_proc : ProcState := MkProc ∅ ∅ ∅ ∅ 0.

Lemma solver_inv_idle : solver_inv empty_book idle_proc.
Proof.
  split; [by intros a|]. split; simpl; [|done|set_solver|done].
  intros l. split; [set_solver|]. by intros [a Ha].
Qed.

(** (C25) The listeners of the challenge servers follow the challenges. Whatever
    fails, every open socket is the listener of an address in the table, each of
    its own, and no other is served. An address where every [CleanUp] that
    counted down goes with a [Present] that counted up, and the other way round,
    has an entry exactly while a challenge is active there, and the count of
    them; so when that is so everywhere and no challenge is active, everything is
    closed. The addresses where it is not so, because a [Present] failed before
    it counted and its [CleanUp] counted, or a [CleanUp] failed before it
    counted, are those of [odd]. *)
Theorem listeners_follow_challenges st n b w :
  rtc listener_step (empty_book, MkSW st idle_proc n) (b, w) →
  (∀ l, l ∈ sockets (sw_proc w) ↔ ∃ a, listener_of (solvers (sw_proc w)) a = Some l) ∧
  (∀ a a' l, listener_of (solvers (sw_proc w)) a = Some l →
             listener_of (solvers (sw_proc w)) a' = Some l → a = a') ∧
  serving (sw_proc w) ⊆ sockets (sw_proc w) ∧
  (∀ a, a ∉ odd b →
     (is_Some (solvers (sw_proc w) !! a) ↔ a ∈ active b) ∧
     ∀ si, solvers (sw_proc w) !! a = Some si → si_count si = Z.of_nat (uses a (active b))) ∧
  (odd b = [] → active b = [] → solvers (sw_proc w) = ∅ ∧ sockets (sw_proc w) = ∅).
Proof.
  intros Hr.
  assert (solver_inv b (sw_proc w)) as [Hc [H1 H2 _ H4]].
  { exact (solver_inv_reachable (empty_book, MkSW st idle_proc n) (b, w) Hr solver_inv_idle). }
  assert (∀ a, a ∉ odd b → is_Some (solvers (sw_proc w) !! a) ↔ a ∈ active b) as Hent.
  { intros a Ha. rewrite <-uses_elem. specialize (Hc a Ha). unfold counted_at in Hc.
    destruct (solvers (sw_proc w) !! a) as [si|].
    - split; [tauto|eauto].
    - rewrite Hc. split; [by intros []|lia]. }
  split; [done|]. split; [done|]. split; [done|]. split.
  - intros a Ha. split; [by apply Hent|]. intros si Hsi. specialize (Hc a Ha). unfold counted_at in Hc.
    rewrite Hsi in Hc. tauto.
  - intros Ho Hb.
    assert (solvers (sw_proc w) = ∅) as He.
    { apply map_empty. intros a. apply eq_None_not_Some. rewrite Hent, Hb; [apply not_elem_of_nil|].
      rewrite Ho. apply not_elem_of_nil. }
    split; [done|]. apply set_eq. intros l. rewrite H1, He. split; [by intros [a Ha]|set_solver].
Qed.
End listeners.

(** ** A simple library and network

    The JSON form is a list of strings; listening succeeds except at the
    addresses that are in use. *)
Module SimSolver.
Import PlainCodec.

Definition enc_chal (c : acmeChallenge) : bytes :=
  enc_strs [ch_Type c; ch_URL c; ch_Token c; ch_KeyAuthorization c;
            id_Type (ch_Identifier c); id_Value (ch_Identifier c)].
Definition dec_chal (b : bytes) : result acmeChallenge :=
  match dec_strs (String.length b) b with
  | Some [ty; url; token; ka; idt; idv] => Ok (MkChallenge ty url token ka (MkIdentifier idt idv))
  | _ => Err (Errorf "json")
  end.

Lemma dec_enc_chal c : dec_chal (enc_chal c) = Ok c.
Proof. unfold dec_chal, enc_chal. rewrite dec_enc_strs by done. by destruct c as [???? []]. Qed.

#[export] Instance sim_ChallengeLib : ChallengeLib := {
  DNS01TXTRecordName c := "_acme-challenge." +:+ id_Value (ch_Identifier c);
  DNS01KeyAuthorization c := "sha256:" +:+ ch_KeyAuthorization c;
  HTTP01ResourcePath c := "/.well-known/acme-challenge/" +:+ ch_Token c;
  TLSALPN01ChallengeCert c :=
    if ch_KeyAuthorization c =? "" then Err (Errorf "no key authorization")
    else Ok (Some (MkTLSCertificate ["challenge:" +:+ ch_KeyAuthorization c] "" None));
  json_MarshalChallenge c := Ok (enc_chal c);
  json_UnmarshalChallenge := dec_chal;
  ReverseAddr ip := if ip =? "127.0.0.1" then Ok "1.0.0.127.in-addr.arpa." else Err (Errorf "bad address")
}.

#[export] Instance sim_ChallengeLaws : ChallengeLaws.
Proof.
  split.
  - intros c b [= <-]. apply dec_enc_chal.
  - intros [[|c ty] url token ka idn] b [= <-]; done.
  - intros c. apply HasPrefix_spec. by exists ("/" +:+ ch_Token c).
Qed.

Definition t : Type := list string.
#[export] Instance sim_ListenNet : ListenNet t := {
  net_Listen a := λ n, (if decide (a ∈ n) then Some (Errorf "address already in use") else None, n);
  net_Dial a := λ n, (if decide (a ∈ n) then None else Some (Errorf "connection refused"), n);
  listen_in_use e := match e with Errorf m => Contains m "address already in use" | _ => false end
}.

Definition start : SWorld MemStorage.t t := MkSW MemStorage.empty idle_proc [":443"].
Definition chal : acmeChallenge :=
  MkChallenge ChallengeTypeHTTP01 "https://ca/chal/1" "tok" "tok.thumb" (MkIdentifier "dns" "a.com").
(** Two challenges at port 80, one of which has ended. *)
Definition one_left : SWorld MemStorage.t t :=
  snd (cleanup_at ":80" (snd (present_at ":80" (snd (present_at ":80" start))))).
End SimSolver.
Export (hints) SimSolver.

(** A TLS-ALPN solver as the ACME issuer sets it up. *)
Definition ex_alpn_solver : Solver (SWorld MemStorage.t SimSolver.t) :=
  shape_solver ":8443" (ShWrapper (ShDistributed "acme" ShALPN)).

Lemma listeners_follow_challenges_witness :
  rtc listener_step (empty_book, SimSolver.start) (MkBook [":80"] [] [], SimSolver.one_left) ∧
  ∃ si, solvers (sw_proc SimSolver.one_left) !! ":80" = Some si ∧ si_count si = 1%Z.
Proof.
  assert (rtc listener_step (empty_book, SimSolver.start)
            (MkBook [":80"] [] [], SimSolver.one_left)) as Hr.
  { eapply rtc_l; [eapply (step_Present empty_book ":80" ShHTTP SimSolver.chal); apply surjective_pairing|].
    eapply rtc_l; [eapply (step_Present (MkBook [":80"] [] []) ":80" ShHTTP SimSolver.chal);
                   apply surjective_pairing|].
    eapply rtc_l; [eapply (step_CleanUp [] ":80" [":80"] [] [] ShHTTP SimSolver.chal);
                   apply surjective_pairing|].
    apply rtc_refl. }
  split; [exact Hr|].
  destruct (listeners_follow_challenges MemStorage.empty [":443"] (MkBook [":80"] [] [])
    SimSolver.one_left Hr) as (_ & _ & _ & Hent & _).
  destruct (Hent ":80") as [Hin Hcount]; [apply not_elem_of_nil|].
  destruct (proj2 Hin) as [si Hsi]; [by left|].
  exists si. split; [exact Hsi|]. exact (Hcount si Hsi).
Defined.

(** What a [Present] that failed before it counted does to the others: its
    [CleanUp] closes the listener of a challenge that is still active; the
    [CleanUp] of that one takes the count below zero, and from then on the
    listener of the next challenge stays open after its end. *)
Example stray_CleanUp_run :
  let bad := MkChallenge ChallengeTypeTLSALPN01 "https://ca/chal/2" "tok" "" (MkIdentifier "dns" "b.com") in
  let w1 := snd (sv_Present ex_alpn_solver SimSolver.chal SimSolver.start) in
  let '(r2, w2) := sv_Present ex_alpn_solver bad w1 in
  let w3 := snd (sv_CleanUp ex_alpn_solver bad w2) in
  let w4 := snd (sv_CleanUp ex_alpn_solver SimSolver.chal w3) in
  let w5 := snd (sv_Present ex_alpn_solver SimSolver.chal w4) in
  let w6 := snd (sv_CleanUp ex_alpn_solver SimSolver.chal w5) in
  r2 = Err (Errorf "presenting with embedded solver") ∧
  elements (sockets (sw_proc w2)) = [0%nat] ∧ elements (sockets (sw_proc w3)) = [] ∧
  si_count <$> solvers (sw_proc w4) !! ":8443" = Some (-1)%Z ∧
  elements (sockets (sw_proc w6)) = [1%nat].
Proof. vm_compute. repeat split. Qed.
