(* ===== verification/AlpnServer.v ===== *)
(** * The server of the TLS-ALPN challenge (solvers.go)

    [Solvers] has the table of listeners, in which a server starts and ends in
    one step. This file has the server of one address by itself: the goroutine
    that accepts connections, the goroutines that handle them, and the last
    [CleanUp], which marks the solver as closed, closes the listener and waits
    for the first goroutine. *)

From S2P Require Import Prelude.

Module AlpnServer.

(** The accepting goroutine: in [Accept], after an error of it, or at its end. *)
Inductive loop_pc := Accepting | AcceptFailed | Ended.

(** [CleanUp]: before its section, after the store, after [Close], at its end. *)
Inductive cleanup_pc := Before | Marked | ListenerClosed | CleanedUp.

Record server := Mk {
  closed : bool;               (* si.closed *)
  listening : bool;            (* si.listener is open *)
  done : bool;                 (* si.done is closed *)
  loop : loop_pc;
  handling : gset nat;         (* connections with a running handleConn *)
  conns : gset nat;            (* accepted connections that are not closed *)
  cleanup : cleanup_pc
}.

(** [Present] has just started the goroutine. *)
Definition started : server := Mk false true false Accepting ∅ ∅ Before.

Definition accept (c : nat) (s : server) : server :=
  Mk (closed s) (listening s) (done s) Accepting ({[c]} ∪ handling s) ({[c]} ∪ conns s) (cleanup s).
Definition accept_error (s : server) : server :=
  Mk (closed s) (listening s) (done s) AcceptFailed (handling s) (conns s) (cleanup s).

(** The function ends, by returning or by a panic: [si.done] is closed. *)
Definition end_loop (s : server) : server :=
  Mk (closed s) (listening s) true Ended (handling s) (conns s) (cleanup s).

(** After an error: the loop ends when the solver was closed. *)
Definition check_closed (s : server) : server :=
  if closed s then end_loop s
  else Mk (closed s) (listening s) (done s) Accepting (handling s) (conns s) (cleanup s).

(** [handleConn] as a whole: whether the connection is of another type, or the
    handshake succeeds, fails or panics, the deferred [conn.Close] comes last. *)
Definition handleConn (c : nat) (s : server) : server :=
  Mk (closed s) (listening s) (done s) (loop s) (handling s ∖ {[c]}) (conns s ∖ {[c]}) (cleanup s).

Definition mark (s : server) : server :=
  Mk true (listening s) (done s) (loop s) (handling s) (conns s) Marked.
Definition close_listener (s : server) : server :=
  Mk (closed s) false (done s) (loop s) (handling s) (conns s) ListenerClosed.
Definition finish_cleanup (s : server) : server :=
  Mk (closed s) (listening s) (done s) (loop s) (handling s) (conns s) CleanedUp.

(** The steps of the accepting goroutine; [Accept] may fail at any time, and only
    fails once the listener is closed. *)
Inductive accept_step (s : server) : server → Prop :=
| accepts c : loop s = Accepting → listening s = true → c ∉ conns s → accept_step s (accept c s)
| accept_fails : loop s = Accepting → accept_step s (accept_error s)
| checks : loop s = AcceptFailed → accept_step s (check_closed s)
| panics : loop s ≠ Ended → accept_step s (end_loop s).

Inductive step (s : server) : server → Prop :=
| loop_steps s' : accept_step s s' → step s s'
| handles c : c ∈ handling s → step s (handleConn c s)
| marks : cleanup s = Before → step s (mark s)
| closes : cleanup s = Marked → step s (close_listener s)
| waited : cleanup s = ListenerClosed → done s = true → step s (finish_cleanup s).

Definition reachable (s : server) : Prop := rtc step started s.

Record inv (s : server) : Prop := MkInv {
  inv_done : done s = true ↔ loop s = Ended;
  inv_closed : cleanup s ≠ Before → closed s = true;
  inv_listening : listening s = true ↔ cleanup s = Before ∨ cleanup s = Marked;
  inv_cleaned : cleanup s = CleanedUp → done s = true;
  inv_conns : conns s = handling s
}.

Lemma end_loop_inv s : inv s → inv (end_loop s).
Proof. intros [H1 H2 H3 H4 H5]. by split. Qed.

Lemma accept_step_inv s s' : inv s → accept_step s s' → inv s'.
Proof.
  intros I [c Hl Hon Hc|Hl|Hl|Hl]; [| | |by apply end_loop_inv].
  1, 2: destruct I as [H1 H2 H3 H4 H5]; rewrite Hl in H1; split; simpl; rewrite ?H5; try done; try (split; [intros ?%H1|]; done).
  unfold check_closed. destruct (closed s) eqn:Ec; [by apply end_loop_inv|].
  destruct I as [H1 H2 H3 H4 H5]. rewrite Hl in H1. rewrite Ec in H2.
  split; simpl; try done. split; [intros ?%H1|]; done.
Qed.

Lemma server_step s s' : inv s → step s s' → inv s'.
Proof.
  intros I [s1 H|c Hc|Hc|Hc|Hc Hd]; [by eapply accept_step_inv|..]; destruct I as [H1 H2 H3 H4 H5]; split; simpl; try done.
  - by rewrite H5.
  - rewrite Hc in H3. rewrite H3. intuition.
  - intros _. apply H2. by rewrite Hc.
  - split; [done|intros [?|?]; done].
  - intros _. apply H2. by rewrite Hc.
  - rewrite H3, Hc. intuition discriminate.
Qed.

Lemma server_reachable s : reachable s → inv s.
Proof.
  intros H. assert (inv started) as I by (split; simpl; try done; intuition). induction H; eauto using server_step.
Qed.

(** The steps that the goroutine still has when the listener is closed. *)
Definition steps_left (s : server) : nat :=
  match loop s with Accepting => 2 | AcceptFailed => 1 | Ended => 0 end.

Lemma closing_step s s' :
  inv s → cleanup s = ListenerClosed → accept_step s s' →
  (steps_left s' < steps_left s)%nat ∧ inv s' ∧ cleanup s' = ListenerClosed ∧ conns s' = conns s.
Proof.
  intros I Hc H. pose proof (server_step _ _ I (loop_steps _ _ H)) as I'.
  assert (closed s = true) as Hcl by (apply I; by rewrite Hc).
  unfold steps_left. destruct H as [c Hl Hon ?|Hl|Hl|Hl].
  - apply (inv_listening _ I) in Hon as [?|?]; congruence.
  - rewrite Hl. simpl. split_and!; [lia|done..].
  - rewrite Hl. unfold check_closed in *. rewrite Hcl in *. simpl. split_and!; [lia|done..].
  - destruct (loop s) eqn:El; try done; simpl; split_and!; try done; lia.
Qed.

(** The last clean-up of a TLS-ALPN challenge returns: in whatever state the
    server is when its listener is closed, no connection is accepted any more
    and the accepting goroutine has at most two steps left, after which the
    channel that the clean-up waits for is closed; and all accepted connections
    are closed but those still being handled. *)
Theorem cleanup_returns s :
  reachable s → cleanup s = ListenerClosed →
  (∀ n s', nsteps accept_step n s s' → (n ≤ 2)%nat ∧ conns s' = conns s) ∧
  (∀ s', rtc accept_step s s' → (¬ ∃ s'', accept_step s' s'') → done s' = true ∧ step s' (finish_cleanup s')) ∧
  conns s = handling s.
Proof.
  intros I%server_reachable Hc. split_and!; [| |apply I].
  - intros n s' Hn. assert ((n + steps_left s' ≤ steps_left s)%nat ∧ conns s' = conns s) as [Hle ?].
    { induction Hn as [|n s1 s2 s3 H12 _ IH]; [split; [lia|done]|].
      destruct (closing_step _ _ I Hc H12) as (Hlt & I2 & Hc2 & <-). destruct (IH I2 Hc2) as [? ->]. split; [lia|done]. }
    split; [|done]. assert (steps_left s ≤ 2)%nat by (unfold steps_left; destruct (loop s); lia). lia.
  - intros s' Hrun Hstuck. assert (inv s' ∧ cleanup s' = ListenerClosed) as [I' Hc'].
    { clear Hstuck. induction Hrun as [|s1 s2 s3 H12 _ IH]; [done|].
      destruct (closing_step _ _ I Hc H12) as (_ & I2 & Hc2 & _). auto. }
    assert (done s' = true) as Hd.
    { apply (inv_done _ I'). destruct (loop s') eqn:El; [..|done]; exfalso; apply Hstuck; eexists; apply panics; congruence. }
    split; [done|by apply waited].
Qed.

(** A run: a connection is accepted, the solver is cleaned up meanwhile, the
    goroutine sees the error of [Accept]. *)
Definition ex_closing : server := close_listener (mark (accept 0 started)).

Lemma cleanup_returns_witness :
  (∀ n s', nsteps accept_step n ex_closing s' → (n ≤ 2)%nat ∧ conns s' = {[0%nat]}) ∧
  step (check_closed (accept_error ex_closing)) (finish_cleanup (check_closed (accept_error ex_closing))).
Proof.
  assert (reachable ex_closing) as Hr.
  { apply rtc_l with (accept 0 started); [by apply loop_steps, accepts|].
    apply rtc_l with (mark (accept 0 started)); [by apply marks|]. by apply rtc_once, closes. }
  destruct (cleanup_returns ex_closing Hr eq_refl) as (H1 & H2 & _). split; [exact H1|].
  apply H2.
  - apply rtc_l with (accept_error ex_closing); [by apply accept_fails|]. by apply rtc_once, checks.
  - intros [s'' H]. by inversion H.
Defined.
End AlpnServer.
