(* ===== verification/DnsSolver.v ===== *)
(** * The DNS-01 solver (solvers.go)

    [DNSManager] creates a record at a provider, waits until it has propagated
    and deletes it; [DNS01Solver] remembers the records it has created by the
    name of the challenge and tells them apart by their values. The provider is
    the class [DNSProvider] on the state of the network. *)

From S2P Require Import Prelude GoStrings Certificates Storage Crypto Dns Solvers.
Open Scope string_scope.

(** [libdns.Record] *)
Record libdnsRecord := MkRecord {
  rec_ID : string;
  rec_Type : string;
  rec_Name : string;
  rec_Value : string;
  rec_TTL : Duration
}.

#[export] Instance libdnsRecord_eq_dec : EqDecision libdnsRecord.
Proof. solve_decision. Defined.

Record zoneRecord := MkZoneRecord { zr_zone : string; zr_record : libdnsRecord }.
Record dnsPresentMemory := MkMemory { mem_dnsName : string; mem_zoneRec : zoneRecord }.

Record DNSManager := MkDNSManager {
  TTL : Duration;
  PropagationDelay : Duration;
  PropagationTimeout : Duration;
  Resolvers : list string;
  OverrideDomain : string
}.

(** The provider, with [libdns.RelativeName] and [libdns.AbsoluteName]. *)
Class DNSProvider (N : Type) := {
  AppendRecords : string → list libdnsRecord → ST N (result (list libdnsRecord));
  DeleteRecords : string → list libdnsRecord → ST N (result (list libdnsRecord));
  RelativeName : string → string → string;
  AbsoluteName : string → string → string
}.

(** The records that are returned are those that were asked for, as the
    provider has completed them: it may fill in an ID. *)
Class DNSProviderLaws (N : Type) `{!DNSProvider N} := {
  AppendRecords_same z rs n rs' n' : AppendRecords z rs n = (Ok rs', n') →
    (λ r, (rec_Type r, rec_Value r)) <$> rs' = (λ r, (rec_Type r, rec_Value r)) <$> rs
}.

(** The DNS state with the records of the manager. *)
Record DNSWorld (N : Type) := MkDNSWorld {
  dw_dns : DState N;
  records : gmap string (list dnsPresentMemory)
}.
Arguments MkDNSWorld {N}.
Arguments dw_dns {N}.
Arguments records {N}.

Section manager.
Context {N : Type} `{!DNSNet N} `{!DNSProvider N}.
Implicit Types (m : DNSManager) (s : DState N) (w : DNSWorld N).

(** ** [DNSManager] *)

Definition createRecord m (dnsName recordType recordValue : string) :
    ST (DState N) (result zoneRecord) := λ s,
  match FindZoneByFQDN dnsName (RecursiveNameservers (d_net s) (Resolvers m)) s with
  | (Err e, s) => (Err (Errorf "could not determine zone for domain"), s)
  | (Ok zone, s) =>
      let rec := MkRecord "" recordType (RelativeName (dnsName +:+ ".") zone) recordValue (TTL m) in
      match on_net (AppendRecords zone [rec]) s with
      | (Err e, s) => (Err (Wrapf "adding temporary record for zone" e), s)
      | (Ok [r], s) => (Ok (MkZoneRecord zone r), s)
      | (Ok _, s) => (Err (Errorf "expected one record"), s)
      end
  end.

Definition defaultDNSPropagationTimeout : Duration := (2 * Minute)%Z.
Definition propagationInterval : Duration := (2 * Second)%Z.

(** The loop of [wait]; [None] when the fuel runs out. *)
Fixpoint wait_loop (fuel : nat) (zrec : zoneRecord) (recType : Z) (absName : string)
    (checkAuthoritativeServers : bool) (resolvers : list string) (start : Time)
    (timeout : Duration) : DState N → option (result unit) * DState N :=
  match fuel with
  | O => λ s, (None, s)
  | S fuel' => λ s,
      if (time_Since (net_Now (d_net s)) start <? timeout)%Z then
        match on_net (time_After_or_Done propagationInterval) s with
        | (Some e, s) => (Some (Err e), s)
        | (None, s) =>
            match checkDNSPropagation absName recType (rec_Value (zr_record zrec))
                    checkAuthoritativeServers resolvers s with
            | (Err e, s) =>
                (Some (Err (if is_panic e then e else Wrapf "checking DNS propagation" e)), s)
            | (Ok true, s) => (Some (Ok tt), s)
            | (Ok false, s) =>
                wait_loop fuel' zrec recType absName checkAuthoritativeServers resolvers start timeout s
            end
        end
      else (Some (Err (Errorf "timed out waiting for record to fully propagate")), s)
  end.

(** Enough rounds for the timeout. *)
Definition wait_fuel (timeout : Duration) : nat := S (S (Z.to_nat (timeout / propagationInterval))).

Definition wait m (zrec : zoneRecord) : ST (DState N) (result unit) := λ s,
  let '(delayed, s) := if (0 <? PropagationDelay m)%Z
                       then on_net (time_After_or_Done (PropagationDelay m)) s else (None, s) in
  match delayed with
  | Some e => (Err e, s)
  | None =>
      if (PropagationTimeout m =? -1)%Z then (Ok tt, s)
      else
        let timeout := if (PropagationTimeout m =? 0)%Z then defaultDNSPropagationTimeout
                       else PropagationTimeout m in
        let checkAuthoritativeServers := (length (Resolvers m) =? 0)%nat in
        let resolvers := RecursiveNameservers (d_net s) (Resolvers m) in
        let recType := if rec_Type (zr_record zrec) =? "CNAME" then TypeCNAME else TypeTXT in
        let absName := AbsoluteName (rec_Name (zr_record zrec)) (zr_zone zrec) in
        match wait_loop (wait_fuel timeout) zrec recType absName checkAuthoritativeServers resolvers
                (net_Now (d_net s)) timeout s with
        | (Some r, s) => (r, s)
        | (None, s) => (Err (Errorf "out of fuel"), s)
        end
  end.

Definition cleanUpRecord m (zrec : zoneRecord) : ST (DState N) (result unit) := λ s,
  match on_net (DeleteRecords (zr_zone zrec) [zr_record zrec]) s with
  | (Err e, s) => (Err (Wrapf "deleting temporary record" e), s)
  | (Ok _, s) => (Ok tt, s)
  end.

(** ** The memory of records *)

Definition recalled (dnsName : string) (rs : gmap string (list dnsPresentMemory)) :
    list dnsPresentMemory := default [] (rs !! dnsName).

Definition saveDNSPresentMemory (mem : dnsPresentMemory)
    (rs : gmap string (list dnsPresentMemory)) : gmap string (list dnsPresentMemory) :=
  <[mem_dnsName mem := (recalled (mem_dnsName mem) rs ++ [mem])%list]> rs.

Definition getDNSPresentMemory (dnsName recType value : string)
    (rs : gmap string (list dnsPresentMemory)) : result dnsPresentMemory :=
  match list_find (λ mem, rec_Type (zr_record (mem_zoneRec mem)) = recType ∧
                          rec_Value (zr_record (mem_zoneRec mem)) = value) (recalled dnsName rs) with
  | Some (_, mem) => Ok mem
  | None => Err (Errorf "no memory of presenting a DNS record")
  end.

Definition deleteDNSPresentMemory (dnsName keyAuth : string)
    (rs : gmap string (list dnsPresentMemory)) : gmap string (list dnsPresentMemory) :=
  match list_find (λ mem, rec_Value (zr_record (mem_zoneRec mem)) = keyAuth) (recalled dnsName rs) with
  | Some (i, _) => <[dnsName := delete i (recalled dnsName rs)]> rs
  | None => rs
  end.

(** ** [DNS01Solver] *)

Context `{!ChallengeLib}.

Definition challenge_dnsName m (chal : acmeChallenge) : string :=
  if OverrideDomain m =? "" then DNS01TXTRecordName chal else OverrideDomain m.

Definition on_dns {A} (f : ST (DState N) A) : ST (DNSWorld N) A := λ w,
  let '(a, s) := f (dw_dns w) in (a, MkDNSWorld s (records w)).

Definition DNS01_Present m (chal : acmeChallenge) : ST (DNSWorld N) (result unit) := λ w,
  let dnsName := challenge_dnsName m chal in
  match on_dns (createRecord m dnsName "TXT" (DNS01KeyAuthorization chal)) w with
  | (Err e, w) => (Err e, w)
  | (Ok zrec, w) =>
      (Ok tt, MkDNSWorld (dw_dns w) (saveDNSPresentMemory (MkMemory dnsName zrec) (records w)))
  end.

Definition DNS01_Wait m (chal : acmeChallenge) : ST (DNSWorld N) (result unit) := λ w,
  match getDNSPresentMemory (challenge_dnsName m chal) "TXT" (DNS01KeyAuthorization chal) (records w) with
  | Err e => (Err e, w)
  | Ok memory => on_dns (wait m (mem_zoneRec memory)) w
  end.

Definition DNS01_CleanUp m (chal : acmeChallenge) : ST (DNSWorld N) (result unit) := λ w,
  let dnsName := challenge_dnsName m chal in
  let keyAuth := DNS01KeyAuthorization chal in
  let '(r, w) :=
    match getDNSPresentMemory dnsName "TXT" keyAuth (records w) with
    | Err e => (Err e, w)
    | Ok memory => on_dns (cleanUpRecord m (mem_zoneRec memory)) w
    end in
  (r, MkDNSWorld (dw_dns w) (deleteDNSPresentMemory dnsName keyAuth (records w))).

Definition DNS01Solver m : Solver (DNSWorld N) :=
  MkSolver (DNS01_Present m) (Some (DNS01_Wait m)) (DNS01_CleanUp m).
End manager.

(** A solver of the network's state in a larger world. *)
Definition lift_solver {St N} (sv : Solver N) : Solver (SWorld St N) :=
  MkSolver (λ c, on_sw_net (sv_Present sv c))
    ((λ wait c, on_sw_net (wait c)) <$> sv_Wait sv)
    (λ c, on_sw_net (sv_CleanUp sv c)).

(** ** Waiting ends *)

Section waiting.
Context {N : Type} `{!DNSNet N} `{!DNSLaws N} `{!DNSProvider N}.

Lemma wait_loop_enough fuel zrec rt an auth res start timeout (s : DState N) :
  (timeout ≤ int64_max)%Z → (0 < fuel)%nat →
  (timeout ≤ net_Now (d_net s) - start + Z.of_nat (pred fuel) * propagationInterval)%Z →
  ∃ r s', wait_loop fuel zrec rt an auth res start timeout s = (Some r, s') ∧
    (r = Ok tt → ∃ s1, checkDNSPropagation an rt (rec_Value (zr_record zrec)) auth res s1 = (Ok true, s')).
Proof using DNSLaws0.
  intros Hmax. revert s. induction fuel as [|fuel IH]; intros s Hf Ht; [lia|]. simpl.
  destruct (time_Since (net_Now (d_net s)) start <? timeout)%Z eqn:Hlt; [|by eexists _, _].
  apply Z.ltb_lt in Hlt. unfold time_Since, time_Sub in Hlt. simpl pred in Ht.
  destruct fuel as [|fuel].
  { exfalso. unfold int64_max, int64_min in *. lia. }
  unfold on_net at 1. destruct (time_After_or_Done propagationInterval (d_net s)) as [oe n1] eqn:E1.
  destruct oe as [e|]; [by eexists _, _|]. apply After_time in E1.
  destruct (checkDNSPropagation _ _ _ _ _ _) as [r2 s2] eqn:E2.
  pose proof (checkDNSPropagation_forward _ _ _ _ _ _ _ _ E2) as H2. simpl in H2.
  destruct r2 as [[]|e]; [eexists _, _; split; [reflexivity|eauto]| |by eexists _, _].
  apply IH; [lia|]. simpl pred. lia.
Qed.

(** Waiting for propagation ends: within the rounds that fit into the
    timeout the loop succeeds, fails or times out, and it succeeds only after a
    propagation check that has found the record. *)
Theorem wait_loop_returns zrec rt an auth res timeout (s : DState N) :
  in_int64 timeout →
  ∃ r s', wait_loop (wait_fuel timeout) zrec rt an auth res (net_Now (d_net s)) timeout s
          = (Some r, s') ∧
    (r = Ok tt → ∃ s1, checkDNSPropagation an rt (rec_Value (zr_record zrec)) auth res s1 = (Ok true, s')).
Proof using DNSLaws0.
  intros [Hmin Hmax]. apply wait_loop_enough; [done|unfold wait_fuel; lia|]. unfold wait_fuel. simpl pred.
  assert (0 < propagationInterval)%Z as Hp by done.
  pose proof (Z.mul_succ_div_gt timeout _ Hp).
  destruct (decide (0 ≤ timeout)%Z) as [H0|H0].
  - pose proof (Z.div_pos timeout _ H0 Hp). nia.
  - nia.
Qed.
End waiting.

(** ** The memory of active challenges *)

Section memory.
Context {N : Type} `{!DNSNet N} `{!DNSProvider N} `{!DNSProviderLaws N} `{!ChallengeLib}.
Context (m : DNSManager).
Implicit Types (w : DNSWorld N) (active : list (acmeChallenge * zoneRecord)).

(** A challenge is told apart by its name and its value. *)
Definition tag (chal : acmeChallenge) : string * string :=
  (challenge_dnsName m chal, DNS01KeyAuthorization chal).

(** Challenges that begin and end in any order, with the records that were
    created for those that are active. The tokens of active challenges of a
    name differ. *)
Inductive dns_step : list (acmeChallenge * zoneRecord) * DNSWorld N →
                     list (acmeChallenge * zoneRecord) * DNSWorld N → Prop :=
| dns_present active chal zrec w w1 w' :
    tag chal ∉ tag ∘ fst <$> active →
    on_dns (createRecord m (challenge_dnsName m chal) "TXT" (DNS01KeyAuthorization chal)) w
      = (Ok zrec, w1) →
    DNS01_Present m chal w = (Ok tt, w') →
    dns_step (active, w) ((active ++ [(chal, zrec)])%list, w')
| dns_present_fails active chal w e w' :
    DNS01_Present m chal w = (Err e, w') → dns_step (active, w) (active, w')
| dns_cleanup before chal zrec after w r w' :
    DNS01_CleanUp m chal w = (r, w') →
    dns_step ((before ++ (chal, zrec) :: after)%list, w) ((before ++ after)%list, w')
| dns_cleanup_unknown active chal w r w' :
    tag chal ∉ tag ∘ fst <$> active →
    DNS01_CleanUp m chal w = (r, w') → dns_step (active, w) (active, w')
| dns_other active w w' :
    records w' = records w → dns_step (active, w) (active, w').

Definition named (k : string) active : list (acmeChallenge * zoneRecord) :=
  filter (λ cz, challenge_dnsName m cz.1 = k) active.

Record memory_inv active (rs : gmap string (list dnsPresentMemory)) : Prop := {
  mi_recalled k : recalled k rs = (λ cz, MkMemory k cz.2) <$> named k active;
  mi_record c z : (c, z) ∈ active →
    rec_Type (zr_record z) = "TXT" ∧ rec_Value (zr_record z) = DNS01KeyAuthorization c;
  mi_distinct : NoDup (tag ∘ fst <$> active)
}.

Lemma recalled_insert k l k' rs :
  recalled k' (<[k := l]> rs) = if decide (k' = k) then l else recalled k' rs.
Proof.
  unfold recalled. destruct (decide (k' = k)) as [->|].
  - by rewrite lookup_insert_eq.
  - by rewrite lookup_insert_ne.
Qed.

Lemma createRecord_record d v (s : DState N) z s' :
  createRecord m d "TXT" v s = (Ok z, s') → rec_Type (zr_record z) = "TXT" ∧ rec_Value (zr_record z) = v.
Proof using DNSProviderLaws0.
  unfold createRecord, on_net. destruct (FindZoneByFQDN _ _ s) as [[zn|e] s1]; [|done].
  destruct (AppendRecords zn _ (d_net s1)) as [[rs|e] n2] eqn:E; [|done].
  apply AppendRecords_same in E. destruct rs as [|r [|r' rs]]; try done. simpl in E.
  injection E as E1 E2. by intros [= <- _].
Qed.

Lemma memory_present active chal z rs :
  memory_inv active rs → tag chal ∉ tag ∘ fst <$> active →
  rec_Type (zr_record z) = "TXT" → rec_Value (zr_record z) = DNS01KeyAuthorization chal →
  memory_inv (active ++ [(chal, z)])%list
    (saveDNSPresentMemory (MkMemory (challenge_dnsName m chal) z) rs).
Proof.
  intros [H1 H2 H3] Hn Ht Hv. split.
  - intros k. unfold saveDNSPresentMemory. rewrite recalled_insert. simpl. unfold named.
    rewrite filter_app, filter_cons. simpl. destruct (decide (k = _)) as [->|Hk].
    + rewrite decide_True by done. rewrite fmap_app, H1. done.
    + rewrite decide_False by done. rewrite filter_nil, app_nil_r. apply H1.
  - intros c z' [Hin|[= -> ->]%list_elem_of_singleton]%elem_of_app; auto.
  - rewrite fmap_app. apply NoDup_app. split; [done|]. split; [|apply NoDup_singleton].
    intros x Hx ->%list_elem_of_singleton. done.
Qed.

(** The active challenge of a tag is found, and it is the only one. *)
Lemma memory_find before c z after rs (P : dnsPresentMemory → Prop) `{∀ x, Decision (P x)} :
  memory_inv (before ++ (c, z) :: after)%list rs →
  (∀ k z', rec_Type (zr_record z') = "TXT" →
           P (MkMemory k z') ↔ rec_Value (zr_record z') = DNS01KeyAuthorization c) →
  let k := challenge_dnsName m c in
  list_find P (recalled k rs) = Some (length (named k before), MkMemory k z) ∧
  delete (length (named k before)) (recalled k rs) = (λ cz, MkMemory k cz.2) <$> named k (before ++ after)%list.
Proof.
  intros [H1 H2 H3] HP k. rewrite H1. unfold named. rewrite !filter_app, filter_cons. simpl.
  rewrite decide_True by done. rewrite !fmap_app. simpl.
  set (f := λ cz : acmeChallenge * zoneRecord, MkMemory k cz.2).
  set (l1 := filter _ before). set (l2 := filter _ after).
  assert (P (f (c, z))) as Hz.
  { destruct (H2 c z) as [? ?]; [set_solver|]. by apply HP. }
  assert (∀ y, y ∈ f <$> l1 → ¬ P y) as Hno.
  { intros y ([c' z'] & -> & [Hk Hin]%list_elem_of_filter)%list_elem_of_fmap Hy. simpl in Hk.
    destruct (H2 c' z') as [Ht Hv']; [set_solver|]. apply HP in Hy as Hv; [|done].
    rewrite fmap_app in H3. apply NoDup_app in H3 as (_ & Hd & _).
    apply (Hd (tag c)); [|simpl; left].
    apply list_elem_of_fmap. exists (c', z'). split; [|done]. unfold tag. simpl.
    simpl in Hv. unfold k in Hk. congruence. }
  split.
  - rewrite <-(length_fmap f l1). apply list_find_Some. split.
    + rewrite lookup_app_r, Nat.sub_diag by done. done.
    + split; [done|]. intros j y Hj Hlt. apply Hno.
      rewrite lookup_app_l in Hj by done. by eapply list_elem_of_lookup_2.
  - rewrite <-(length_fmap f l1). rewrite delete_middle. done.
Qed.

Lemma getDNSPresentMemory_active before c z after rs :
  memory_inv (before ++ (c, z) :: after)%list rs →
  getDNSPresentMemory (challenge_dnsName m c) "TXT" (DNS01KeyAuthorization c) rs
  = Ok (MkMemory (challenge_dnsName m c) z).
Proof.
  intros Hi. unfold getDNSPresentMemory.
  destruct (memory_find before c z after rs
    (λ mem, rec_Type (zr_record (mem_zoneRec mem)) = "TXT" ∧
            rec_Value (zr_record (mem_zoneRec mem)) = DNS01KeyAuthorization c) Hi) as [-> _]; [|done].
  simpl. naive_solver.
Qed.

Lemma memory_cleanup before c z after rs :
  memory_inv (before ++ (c, z) :: after)%list rs →
  memory_inv (before ++ after)%list
    (deleteDNSPresentMemory (challenge_dnsName m c) (DNS01KeyAuthorization c) rs).
Proof.
  intros Hi. unfold deleteDNSPresentMemory.
  destruct (memory_find before c z after rs
    (λ mem, rec_Value (zr_record (mem_zoneRec mem)) = DNS01KeyAuthorization c) Hi) as [-> Hd]; [done|].
  destruct Hi as [H1 H2 H3]. split.
  - intros k. rewrite recalled_insert. destruct (decide (k = challenge_dnsName m c)) as [->|Hk]; [done|].
    rewrite H1. unfold named. rewrite !filter_app, filter_cons. simpl. by rewrite decide_False.
  - intros c' z' Hin. apply H2. set_solver.
  - rewrite fmap_app in *. simpl in H3. apply NoDup_app in H3 as (Ha & Hb & Hc).
    apply NoDup_cons in Hc as [_ Hc]. apply NoDup_app. split; [done|]. split; [|done].
    intros x Hx Hx'. apply (Hb x Hx). by right.
Qed.

Lemma memory_unknown active chal rs :
  memory_inv active rs → tag chal ∉ tag ∘ fst <$> active →
  deleteDNSPresentMemory (challenge_dnsName m chal) (DNS01KeyAuthorization chal) rs = rs.
Proof.
  intros [H1 H2 _] Hn. unfold deleteDNSPresentMemory.
  destruct (list_find _ _) as [[i mem]|] eqn:E; [|done]. exfalso.
  apply list_find_Some in E as (Hl & Hv & _). rewrite H1 in Hl.
  apply list_elem_of_lookup_2, list_elem_of_fmap in Hl as ([c z] & -> & [Hk Hin]%list_elem_of_filter).
  apply Hn, list_elem_of_fmap. exists (c, z). split; [|done]. simpl in *.
  destruct (H2 c z Hin) as [_ Hz]. unfold tag. congruence.
Qed.

Lemma memory_step s s' : dns_step s s' → memory_inv s.1 (records s.2) → memory_inv s'.1 (records s'.2).
Proof using DNSProviderLaws0.
  intros [active chal z w w1 w' Hn Hc Hp|active chal w e w' Hp|before chal z after w r w' Hp
         |active chal w r w' Hn Hp|active w w' Hp] Hi; simpl in *.
  - unfold DNS01_Present in Hp. rewrite Hc in Hp. injection Hp as <-. unfold on_dns in Hc. simpl.
    destruct (createRecord _ _ _ _ _) as [rz s1] eqn:E. injection Hc as -> <-. simpl.
    apply createRecord_record in E as [Ht Hv]. by apply memory_present.
  - unfold DNS01_Present, on_dns in Hp. destruct (createRecord _ _ _ _ _) as [[z|e'] s1]; [done|].
    by injection Hp as _ <-.
  - unfold DNS01_CleanUp in Hp. rewrite (getDNSPresentMemory_active _ _ _ _ _ Hi) in Hp.
    unfold on_dns in Hp. destruct (cleanUpRecord _ _ _) as [r1 s1]. injection Hp as _ <-. simpl.
    by eapply memory_cleanup.
  - unfold DNS01_CleanUp in Hp.
    destruct (getDNSPresentMemory _ _ _ _) as [mem|e]; unfold on_dns in Hp;
      [destruct (cleanUpRecord _ _ _) as [r1 s1]|]; injection Hp as _ <-; simpl;
      by rewrite (memory_unknown active).
  - by rewrite Hp.
Qed.

Lemma memory_reachable s s' :
  rtc dns_step s s' → memory_inv s.1 (records s.2) → memory_inv s'.1 (records s'.2).
Proof using DNSProviderLaws0.
  intros Hr. induction Hr as [|s s1 s2 Hs _ IH]; [done|]. intros Hi. apply IH.
  by eapply memory_step.
Qed.

(** (C26) The DNS solver keeps concurrent challenges apart, also those that share
    a record name: however they begin and end, for every active challenge the
    memory returns the very record that was created for it, cleaning it up
    deletes that record, and nothing is remembered once all have ended. *)
Theorem dns_memory_exact dns active w :
  rtc dns_step ([], MkDNSWorld dns ∅) (active, w) →
  (∀ c z, (c, z) ∈ active →
    getDNSPresentMemory (challenge_dnsName m c) "TXT" (DNS01KeyAuthorization c) (records w)
      = Ok (MkMemory (challenge_dnsName m c) z) ∧
    fst (DNS01_CleanUp m c w) = fst (cleanUpRecord m z (dw_dns w)) ∧
    dw_dns (snd (DNS01_CleanUp m c w)) = snd (cleanUpRecord m z (dw_dns w))) ∧
  (active = [] → ∀ k, recalled k (records w) = []).
Proof using DNSProviderLaws0.
  intros Hr. assert (memory_inv active (records w)) as Hi.
  { apply (memory_reachable ([], MkDNSWorld dns ∅) (active, w) Hr).
    split; [done|by intros ?? ?%elem_of_nil|apply NoDup_nil_2]. }
  split.
  - intros c z [before [after ->]]%list_elem_of_split.
    pose proof (getDNSPresentMemory_active _ _ _ _ _ Hi) as Hg. split; [done|].
    unfold DNS01_CleanUp. rewrite Hg. unfold on_dns. simpl. by destruct (cleanUpRecord _ _ _).
  - intros -> k. by rewrite (mi_recalled _ _ Hi).
Qed.
End memory.

(** ** A run with two challenges for one name *)
Module SimProvider.
#[export] Instance sim_DNSProvider : DNSProvider SimDNS.t := {
  AppendRecords _ rs := λ n,
    (Ok ((λ r, MkRecord "id" (rec_Type r) (rec_Name r) (rec_Value r) (rec_TTL r)) <$> rs), (n + 1)%Z);
  DeleteRecords _ rs := λ n, (Ok rs, (n + 1)%Z);
  RelativeName fqdn zone := TrimSuffix fqdn ("." +:+ zone);
  AbsoluteName name zone := name +:+ "." +:+ zone
}.

#[export] Instance sim_DNSProviderLaws : DNSProviderLaws SimDNS.t.
Proof.
  split. intros z rs n rs' n' [= <- _]. rewrite <-list_fmap_compose. by apply list_fmap_ext.
Qed.

Definition manager : DNSManager := MkDNSManager 0 0 0 [] "".
Definition chal (token : string) : acmeChallenge :=
  MkChallenge ChallengeTypeDNS01 "" token token (MkIdentifier "dns" "example.com").
Definition zrec (token : string) : zoneRecord :=
  MkZoneRecord "example.com." (MkRecord "id" "TXT" "_acme-challenge" ("sha256:" +:+ token) 0).
Definition start : DNSWorld SimDNS.t := MkDNSWorld SimDNS.start ∅.
Definition both : DNSWorld SimDNS.t :=
  snd (DNS01_Present manager (chal "two") (snd (DNS01_Present manager (chal "one") start))).
End SimProvider.
Export (hints) SimProvider.

Section runs.
Import SimProvider.

Lemma wait_loop_returns_witness :
  ∃ r s', wait_loop (wait_fuel (2 * Minute)) (zrec "x") TypeTXT SimDNS.challenge true ["9.9.9.9:53"]
            (net_Now (d_net SimDNS.start)) (2 * Minute) SimDNS.start = (Some r, s') ∧
    (r = Ok tt → ∃ s1, checkDNSPropagation SimDNS.challenge TypeTXT (rec_Value (zr_record (zrec "x"))) true
                         ["9.9.9.9:53"] s1 = (Ok true, s')).
Proof. apply (wait_loop_returns (N := SimDNS.t)). split; vm_compute; discriminate. Defined.

Lemma dns_memory_exact_witness :
  fst (DNS01_CleanUp manager (chal "one") both) = fst (cleanUpRecord manager (zrec "one") (dw_dns both)) ∧
  dw_dns (snd (DNS01_CleanUp manager (chal "one") both))
    = snd (cleanUpRecord manager (zrec "one") (dw_dns both)).
Proof.
  eapply (dns_memory_exact (N := SimDNS.t) manager SimDNS.start
            [(chal "one", zrec "one"); (chal "two", zrec "two")] both).
  - eapply rtc_l; [|eapply rtc_l; [|apply rtc_refl]].
    + eapply (dns_present manager [] (chal "one") (zrec "one") start);
        [apply not_elem_of_nil|vm_compute; reflexivity|vm_compute; reflexivity].
    + eapply (dns_present manager [(chal "one", zrec "one")] (chal "two") (zrec "two"));
        [|vm_compute; reflexivity|vm_compute; reflexivity].
      intros Hin%list_elem_of_singleton. vm_compute in Hin. discriminate.
  - by left.
Defined.
End runs.
