(* ===== verification/Challenges.v ===== *)
(** * Answering challenges (httphandlers.go, config.go, handshake.go)

    A challenge that this instance or another one of the cluster has presented
    is found in the process or in storage, and answered over HTTP or in a TLS
    handshake. Solvers put it there ([Solvers]); the theorems join the two
    sides. *)

From S2P Require Import Prelude GoStrings Certificates Cache Storage Crypto OCSP Config.
From S2P Require Import Manage Handshake Solvers.
Import KeyBuilder.
Open Scope string_scope.

(** ** Finding the challenge *)

Definition prefixACME : string := "acme".
Definition storageKeyACMECAPrefix (issuerKey : string) : string :=
  path_Join [prefixACME; Safe issuerKey].

Section info.
Context {St : Type} `{!ChallengeLib} `{!Storage St}.
Implicit Types (s : St) (p : ProcState).

(** The loop over the issuers: the bytes that were loaded last, which are none
    when no issuer has them. *)
Fixpoint load_challenge s (identifier : string) (issuers : list Issuer) : result bytes :=
  match issuers with
  | [] => Ok ""
  | issuer :: rest =>
      let tokenKey := challengeTokensKey (storageKeyACMECAPrefix (iss_IssuerKey issuer)) identifier in
      match Load s tokenKey with
      | Ok b => Ok b
      | Err e =>
          if errors_Is e ErrNotExist then load_challenge s identifier rest
          else Err (Errorf "opening distributed challenge token file")
      end
  end.

Definition getChallengeInfo (cfg : Config) s p (identifier : string) : result (Challenge * bool) :=
  match GetACMEChallenge identifier p with
  | Some chalData => Ok (chalData, false)
  | None =>
      match load_challenge s identifier (Issuers cfg) with
      | Err e => Err e
      | Ok chalInfoBytes =>
          if (String.length chalInfoBytes =? 0)%nat then
            Err (Errorf "no information found to solve challenge")
          else
            match json_UnmarshalChallenge chalInfoBytes with
            | Err e => Err (Errorf "decoding challenge token file (corrupted?)")
            | Ok chalInfo => Ok (MkChallengeData chalInfo None, true)
            end
      end
  end.

(** ** HTTP *)

Record Request := MkRequest { req_Method : string; req_Host : string; req_Path : string }.
Record Response := MkResponse { resp_Status : Z; resp_ContentType : string; resp_Body : string }.

Definition StatusOK : Z := 200%Z.
Definition StatusNotFound : Z := 404%Z.
Definition StatusInternalServerError : Z := 500%Z.

Definition acmeHTTPChallengeBasePath : string := "/.well-known/acme-challenge".
Definition zerosslHTTPValidationBasePath : string := "/.well-known/pki-validation/".

Definition LooksLikeHTTPChallenge (r : Request) : bool :=
  (req_Method r =? "GET") && HasPrefix (req_Path r) acmeHTTPChallengeBasePath.
Definition LooksLikeZeroSSLHTTPValidation (r : Request) : bool :=
  (req_Method r =? "GET") && HasPrefix (req_Path r) zerosslHTTPValidationBasePath.

(** [strings.EqualFold] on ASCII. *)
Definition EqualFold (s t : string) : bool := ToLower s =? ToLower t.

(** The response that is written when the request is handled. *)
Definition solveHTTPChallenge (r : Request) (challenge : acmeChallenge) : option Response :=
  if (req_Path r =? HTTP01ResourcePath challenge) &&
     EqualFold (hostOnly (req_Host r)) (id_Value (ch_Identifier challenge)) &&
     (req_Method r =? "GET")
  then Some (MkResponse StatusOK "text/plain" (ch_KeyAuthorization challenge))
  else None.
Definition SolveHTTPChallenge (r : Request) (challenge : acmeChallenge) : option Response :=
  solveHTTPChallenge r challenge.

Definition distributedHTTPChallengeSolver (cfg : Config) s p (r : Request) : option Response :=
  match getChallengeInfo cfg s p (hostOnly (req_Host r)) with
  | Err _ => None
  | Ok (chalInfo, _) => solveHTTPChallenge r (chal_Challenge chalInfo)
  end.

Definition HandleHTTPChallenge (DisableHTTPChallenge : bool) (cfg : Config) s p (r : Request) :
    option Response :=
  if DisableHTTPChallenge then None
  else if negb (LooksLikeHTTPChallenge r) then None
  else distributedHTTPChallengeSolver cfg s p r.

(** [T] is what the handlers of the server write. *)
Definition HTTPChallengeHandler {T : Type} (write : Response → T) (DisableHTTPChallenge : bool)
    (cfg : Config) s p (h : Request → T) (r : Request) : T :=
  match HandleHTTPChallenge DisableHTTPChallenge cfg s p r with
  | Some resp => write resp
  | None => h r
  end.

(** *** Validation by ZeroSSL *)

(** [url.Parse]: the path of a URL. *)
Context (url_Path : string → result string).


Definition getDistributedValidationInfo s (identifier : string) : result acmeChallenge :=
  match Load s (challengeTokensKey (Safe zerosslIssuerKey) identifier) with
  | Err _ => Err (Errorf "opening distributed challenge token file")
  | Ok valObjectBytes =>
      if (String.length valObjectBytes =? 0)%nat then
        Err (Errorf "no information found to solve challenge")
      else
        match json_UnmarshalChallenge valObjectBytes with
        | Err _ => Err (Errorf "decoding HTTP validation token file (corrupted?)")
        | Ok chal => Ok chal
        end
  end.

Definition answerHTTPValidation (r : Request) (valInfo : acmeChallenge) : Response :=
  match url_Path (ch_URL valInfo) with
  | Err _ => MkResponse StatusInternalServerError "" ""
  | Ok path =>
      if req_Path r =? path then MkResponse StatusOK "text/plain" (ch_Token valInfo)
      else MkResponse StatusNotFound "" ""
  end.

Definition distributedHTTPValidationAnswer (st : option St) (r : Request) : option Response :=
  match st with
  | None => Some (answerHTTPValidation r (MkChallenge "" "" "" "" (MkIdentifier "" "")))
  | Some s =>
      match getDistributedValidationInfo s (hostOnly (req_Host r)) with
      | Err _ => None
      | Ok valInfo => Some (answerHTTPValidation r valInfo)
      end
  end.

Definition HandleZeroSSLHTTPValidation (st : option St) (r : Request) : option Response :=
  if negb (LooksLikeZeroSSLHTTPValidation r) then None
  else distributedHTTPValidationAnswer st r.

Definition HTTPValidationHandler (st : option St) (h : Request → Response) (r : Request) : Response :=
  match HandleZeroSSLHTTPValidation st r with
  | Some resp => resp
  | None => h r
  end.
End info.

(** ** TLS handshakes *)

Definition ACMETLS1Protocol : string := "acme-tls/1".

Section tls.
Context {St E N : Type} `{C : !Codec} `{!Storage St} `{X : !External St E} `{!OCSPNet N}
  `{TL : !TLSLib E} `{!ChallengeLib}.

(** A nil certificate is [None]. *)
Definition getTLSALPNChallengeCert (cfg : Config) (s : St) (p : ProcState) (hello : ClientHelloInfo) :
    result (option TLSCertificate * bool) :=
  match getChallengeInfo cfg s p (ServerName hello) with
  | Err e => Err e
  | Ok (chalData, distributed) =>
      match chal_data chalData with
      | Some cert => Ok (cert, distributed)
      | None =>
          match TLSALPN01ChallengeCert (chal_Challenge chalData) with
          | Err e => Err (Errorf "making TLS-ALPN challenge certificate")
          | Ok None => Err (Errorf "got nil TLS-ALPN challenge certificate but no error")
          | Ok (Some cert) => Ok (Some cert, distributed)
          end
      end
  end.

(** Whether the handshake asks for the certificate of a TLS-ALPN challenge. *)
Definition wants_challenge_cert (hello : ClientHelloInfo) : bool :=
  negb (ServerName hello =? "") &&
  match SupportedProtos hello with [proto] => proto =? ACMETLS1Protocol | _ => false end.

Definition GetCertificateWithContext (fuel : nat) (ari_NeedsRefresh : Time → RenewalInfo → bool)
    (wait : wait_kind → string → ST (HState St E N) wait_outcome) (cfg : Config) (p : ProcState)
    (hello : ClientHelloInfo) : ST (HState St E N) (option TLSCertificate * option error) := λ h,
  match on_m (on_world (emit cfg (tls_get_certificate (ServerName hello)))) h with
  | (Err e, h) => ((None, Some (Wrapf "handshake aborted by event handler" e)), h)
  | (Ok _, h) =>
      if wants_challenge_cert hello then
        match getTLSALPNChallengeCert cfg (h_storage h) p hello with
        | Err e => ((None, Some e), h)
        | Ok (challengeCert, _) => ((challengeCert, None), h)
        end
      else
        let '((cert, err), h) := handshake fuel ari_NeedsRefresh wait cfg hello h in
        ((Some (tls cert), err), h)
  end.

Definition GetCertificate (fuel : nat) (ari_NeedsRefresh : Time → RenewalInfo → bool)
    (wait : wait_kind → string → ST (HState St E N) wait_outcome) (cfg : Config) (p : ProcState)
    (hello : ClientHelloInfo) : ST (HState St E N) (option TLSCertificate * option error) :=
  GetCertificateWithContext fuel ari_NeedsRefresh wait cfg p hello.
End tls.

(** ** Theorems *)

Section answers.
Context {St N : Type} `{!ChallengeLib} `{CHL : !ChallengeLaws} `{!Storage St} `{!StorageLaws St} `{!ListenNet N}.
Implicit Types (w : SWorld St N) (p : ProcState).

Definition tokenKey (iss : Issuer) (key : string) : string :=
  challengeTokensKey (storageKeyACMECAPrefix (iss_IssuerKey iss)) key.

Lemma load_challenge_found s key before iss after b :
  (∀ i, i ∈ before → contents s !! tokenKey i key = None) →
  contents s !! tokenKey iss key = Some b →
  load_challenge s key (before ++ iss :: after)%list = Ok b.
Proof using StorageLaws0.
  intros Hb Hi. induction before as [|i before IH]; simpl.
  - fold (tokenKey iss key). by rewrite (Load_contents _ _ _ Hi).
  - fold (tokenKey i key). pose proof (Load_spec s (tokenKey i key)) as Hl.
    rewrite Hb in Hl by (by left). destruct Hl as (e & -> & ->). apply IH. intros j Hj. apply Hb. by right.
Qed.

Lemma load_challenge_none s key issuers :
  (∀ i, i ∈ issuers → contents s !! tokenKey i key = None) → load_challenge s key issuers = Ok "".
Proof using StorageLaws0.
  intros Hb. induction issuers as [|i issuers IH]; simpl; [done|].
  fold (tokenKey i key). pose proof (Load_spec s (tokenKey i key)) as Hl.
  rewrite Hb in Hl by (by left). destruct Hl as (e & -> & ->). apply IH. intros j Hj. apply Hb. by right.
Qed.

(** The solver that an ACME client uses for its challenges, around the one that
    listens; [prefix] is [storageKeyCAPrefix] of the client's directory. *)
Definition presented (prefix : string) (inner : Solver (SWorld St N)) : Solver (SWorld St N) :=
  solverWrapper (distributedSolver prefix inner).

(** What a listening solver does to the rest of the world: it only adds data to
    the challenge it presents. *)
Definition listens (inner : Solver (SWorld St N)) (data : acmeChallenge → option (option TLSCertificate)) : Prop :=
  (∀ c w r w', sv_Present inner c w = (r, w') →
     activeChallenges (sw_proc w) !! challengeKey c = Some (MkChallengeData c None) →
     sw_storage w' = sw_storage w ∧
     (is_Ok r = true → activeChallenges (sw_proc w') !! challengeKey c = Some (MkChallengeData c (data c)))) ∧
  (∀ c w r w', sv_CleanUp inner c w = (r, w') →
     r = Ok tt ∧ sw_storage w' = sw_storage w ∧
     activeChallenges (sw_proc w') = activeChallenges (sw_proc w)).

Lemma cleanup_at_listens a w r w' :
  cleanup_at a w = (r, w') →
  r = Ok tt ∧ sw_storage w' = sw_storage w ∧
  activeChallenges (sw_proc w') = activeChallenges (sw_proc w).
Proof.
  intros Hw. split; [|by eapply cleanup_at_frame]. unfold cleanup_at in Hw.
  destruct (_ =? 0)%Z; by injection Hw as <- _.
Qed.

Lemma httpSolver_listens a : listens (httpSolver a) (λ _, None).
Proof.
  split; [|intros c; apply cleanup_at_listens].
  intros c w r w' [Hs Ha]%present_at_frame Hc. by rewrite Ha.
Qed.

Lemma tlsALPNSolver_listens a :
  listens (tlsALPNSolver a)
    (λ c, match TLSALPN01ChallengeCert c with Ok cert => Some cert | Err _ => None end).
Proof.
  split; [|intros c; apply cleanup_at_listens].
  intros c w r w'. simpl. unfold tlsALPN_Present.
  destruct (TLSALPN01ChallengeCert c) as [cert|e]; [|by intros [= <- <-]].
  intros [Hs Ha]%present_at_frame Hc. split; [done|]. intros _. rewrite Ha. simpl.
  rewrite lookup_insert_eq, Hc. done.
Qed.

Lemma presented_Ok prefix inner data chal w w' :
  listens inner data → sv_Present (presented prefix inner) chal w = (Ok tt, w') →
  activeChallenges (sw_proc w') !! challengeKey chal = Some (MkChallengeData chal (data chal)) ∧
  ∃ b, json_MarshalChallenge chal = Ok b ∧
       contents (sw_storage w') = <[challengeTokensKey prefix (challengeKey chal) := b]> (contents (sw_storage w)).
Proof using StorageLaws0.
  intros [Hin _]. simpl. unfold wrapper_Present, distributedSolver. simpl. unfold distributed_Present.
  destruct (json_MarshalChallenge chal) as [b|e]; [|done]. unfold on_sw_storage. simpl.
  destruct (Store _ b (sw_storage w)) as [[[]|e] s1] eqn:Es; [|done]. apply Store_Ok in Es.
  destruct (sv_Present inner chal _) as [[u|e] w1] eqn:Ep; [|done]. intros [= <-].
  apply Hin in Ep as [Hs Ha]; [|simpl; by rewrite lookup_insert_eq]. simpl in Hs.
  split; [by apply Ha|]. exists b. rewrite Hs. done.
Qed.

(** The instances that can answer a challenge whose token is kept under [prefix]:
    the one that has presented it, and those with the same storage that have an
    issuer of that prefix in their configuration and no older challenge for the
    name. *)
Definition instance_of (prefix : string) (w' : SWorld St N) (key : string) (cfg : Config) p : Prop :=
  p = sw_proc w' ∨
  activeChallenges p !! key = None ∧
  ∃ before iss after, Issuers cfg = (before ++ iss :: after)%list ∧
    storageKeyACMECAPrefix (iss_IssuerKey iss) = prefix ∧
    ∀ i, i ∈ before → contents (sw_storage w') !! tokenKey i key = None.

Lemma getChallengeInfo_presented prefix inner data chal w w' cfg p :
  listens inner data → sv_Present (presented prefix inner) chal w = (Ok tt, w') →
  instance_of prefix w' (challengeKey chal) cfg p →
  ∃ distributed : bool,
    getChallengeInfo cfg (sw_storage w') p (challengeKey chal) =
      Ok (MkChallengeData chal (if distributed then None else data chal), distributed).
Proof using StorageLaws0 CHL.
  intros Hin (Ha & b & Hj & Hc)%(presented_Ok _ _ _ _ _ _ Hin).
  intros [->|(Hp & before & iss & after & Hi & <- & Hb)]; unfold getChallengeInfo, GetACMEChallenge.
  - rewrite Ha. by exists false.
  - rewrite Hp, Hi, (load_challenge_found _ _ _ _ _ b); [|done|by rewrite Hc, lookup_insert_eq].
    assert ((String.length b =? 0)%nat = false) as ->.
    { apply Nat.eqb_neq. intros Hz. apply (json_Challenge_nonempty _ _ Hj). by destruct b. }
    rewrite (json_Challenge_roundtrip _ _ Hj). by exists true.
Qed.

(** An HTTP challenge is answered by every instance of the cluster: once it
    is presented, a request of the CA for its path and host gets the key
    authorization from the instance that presented it and from all others that
    share the storage and have an issuer with the prefix. *)
Theorem http_challenge_answered prefix addr chal w w' cfg p r :
  sv_Present (presented prefix (httpSolver addr)) chal w = (Ok tt, w') →
  challengeKey chal = id_Value (ch_Identifier chal) →
  instance_of prefix w' (challengeKey chal) cfg p →
  req_Method r = "GET" → req_Path r = HTTP01ResourcePath chal →
  hostOnly (req_Host r) = id_Value (ch_Identifier chal) →
  HandleHTTPChallenge false cfg (sw_storage w') p r =
    Some (MkResponse StatusOK "text/plain" (ch_KeyAuthorization chal)).
Proof using StorageLaws0 CHL.
  intros Hw Hk Hp Hm Hpath Hh. unfold HandleHTTPChallenge, LooksLikeHTTPChallenge.
  rewrite Hm, Hpath, HTTP01ResourcePath_prefix. simpl. unfold distributedHTTPChallengeSolver.
  rewrite Hh, <-Hk.
  destruct (getChallengeInfo_presented _ _ _ _ _ _ _ _ (httpSolver_listens addr) Hw Hp) as [d ->].
  unfold solveHTTPChallenge, EqualFold. rewrite Hpath, Hh, Hm, !String.eqb_refl. done.
Qed.

(** (C24) Nothing else is answered: a response is the key authorization of a known
    challenge, to a GET of exactly its path, under the name that it is for. *)
Theorem HandleHTTPChallenge_only disabled cfg (s : St) p r resp :
  HandleHTTPChallenge disabled cfg s p r = Some resp →
  disabled = false ∧ req_Method r = "GET" ∧
  ∃ chal d, getChallengeInfo cfg s p (hostOnly (req_Host r)) = Ok (chal, d) ∧
    req_Path r = HTTP01ResourcePath (chal_Challenge chal) ∧
    ToLower (hostOnly (req_Host r)) = ToLower (id_Value (ch_Identifier (chal_Challenge chal))) ∧
    resp = MkResponse StatusOK "text/plain" (ch_KeyAuthorization (chal_Challenge chal)).
Proof.
  unfold HandleHTTPChallenge. destruct disabled; [done|].
  destruct (LooksLikeHTTPChallenge r); [|done]. simpl. unfold distributedHTTPChallengeSolver.
  destruct (getChallengeInfo _ _ _ _) as [[chal d]|e]; [|done].
  unfold solveHTTPChallenge, EqualFold. destruct (_ && _) eqn:E; [|done]. intros [= <-].
  reflect_bools. split; [done|]. split; [done|]. by exists chal, d.
Qed.

(** When the challenge has ended, nobody answers it any more: neither the
    instance that presented it nor another one without a token of its own. *)
Theorem challenge_forgotten prefix addr chal w r w' cfg p req :
  sv_CleanUp (presented prefix (httpSolver addr)) chal w = (Ok r, w') →
  p = sw_proc w' ∨ activeChallenges p !! challengeKey chal = None →
  (∀ i, i ∈ Issuers cfg → tokenKey i (challengeKey chal) ≠ challengeTokensKey prefix (challengeKey chal) →
        contents (sw_storage w) !! tokenKey i (challengeKey chal) = None) →
  hostOnly (req_Host req) = challengeKey chal →
  HandleHTTPChallenge false cfg (sw_storage w') p req = None.
Proof using StorageLaws0.
  intros Hw Hp Hi Hh. cbn [sv_CleanUp presented solverWrapper] in Hw.
  unfold wrapper_CleanUp, distributedSolver in Hw. simpl in Hw. unfold distributed_CleanUp, on_sw_storage in Hw.
  simpl in Hw.
  destruct (Delete _ (sw_storage w)) as [[[]|e] s1] eqn:Es; [|done].
  destruct (cleanup_at addr _) as [r1 w1] eqn:Ec.
  apply cleanup_at_listens in Ec as (-> & Hs & Ha). simpl in Hs, Ha. injection Hw as _ <-.
  assert (activeChallenges p !! challengeKey chal = None) as Hnone.
  { destruct Hp as [->|]; [|done]. rewrite Ha. apply lookup_delete_eq. }
  assert (∀ i, i ∈ Issuers cfg → contents (sw_storage w1) !! tokenKey i (challengeKey chal) = None) as Hl.
  { intros i Hin. rewrite Hs. apply Delete_Ok in Es. rewrite Es, map_lookup_filter.
    destruct (decide (tokenKey i (challengeKey chal) = challengeTokensKey prefix (challengeKey chal))) as [->|Hne].
    - destruct (contents (sw_storage w) !! _); [|done]. simpl. rewrite option_guard_False; [done|].
      unfold under. by rewrite String.eqb_refl.
    - by rewrite Hi. }
  unfold HandleHTTPChallenge. destruct (negb _); [done|]. unfold distributedHTTPChallengeSolver.
  rewrite Hh. unfold getChallengeInfo, GetACMEChallenge. by rewrite Hnone, load_challenge_none.
Qed.
End answers.

Section tls_answers.
Context {St E N L : Type} `{C : !Codec} `{!Storage St} `{!StorageLaws St} `{X : !External St E}
  `{XL : !ExternalLaws St E} `{!OCSPNet N} `{TL : !TLSLib E} `{!ChallengeLib} `{CHL : !ChallengeLaws}
  `{!ListenNet L}.

(** Once a TLS-ALPN challenge is presented, a handshake for its name that offers
    only the protocol of the challenge gets the challenge's certificate. *)
Lemma alpn_presented_answered fuel refresh wait prefix addr chal cert (w w' : SWorld St L) cfg p hello
    (h : HState St E N) :
  sv_Present (presented prefix (tlsALPNSolver addr)) chal w = (Ok tt, w') →
  TLSALPN01ChallengeCert chal = Ok (Some cert) →
  instance_of prefix w' (challengeKey chal) cfg p →
  ServerName hello = challengeKey chal → challengeKey chal ≠ "" →
  SupportedProtos hello = [ACMETLS1Protocol] →
  h_storage h = sw_storage w' →
  fst (on_m (on_world (emit cfg (tls_get_certificate (ServerName hello)))) h) = Ok tt →
  fst (GetCertificateWithContext fuel refresh wait cfg p hello h) = (Some cert, None).
Proof using StorageLaws0 XL CHL.
  intros Hw Hc Hp Hn Hne Hpr Hst He. unfold GetCertificateWithContext, on_m, on_world in *.
  destruct (emit _ _ (m_world (h_m h))) as [r w1] eqn:Ee. simpl in He. subst r.
  assert (wants_challenge_cert hello = true) as ->.
  { unfold wants_challenge_cert. rewrite Hn, Hpr, String.eqb_refl, andb_true_r.
    apply negb_true_iff. by apply String.eqb_neq. }
  unfold h_storage at 1. simpl. rewrite (emit_storage _ _ _ _ _ Ee). fold (h_storage h).
  unfold getTLSALPNChallengeCert. rewrite Hst, Hn.
  destruct (getChallengeInfo_presented _ _ _ _ _ _ _ _ (tlsALPNSolver_listens addr) Hw Hp) as [d ->].
  simpl. rewrite Hc. by destruct d.
Qed.
End tls_answers.

(** ** Runs in a cluster of two *)

Section runs.
Import SimSolver SimExternal.

Definition ex_issuer : Issuer := ca "two" "u2".
Definition ex_prefix : string := storageKeyACMECAPrefix (iss_IssuerKey ex_issuer).
Definition ex_presented : SWorld MemStorage.t SimSolver.t :=
  snd (sv_Present (presented ex_prefix (httpSolver ":80")) SimSolver.chal SimSolver.start).
Definition ex_request : Request :=
  MkRequest "GET" "a.com:80" "/.well-known/acme-challenge/tok".

(** The second instance has the same storage and another process. *)
Lemma http_challenge_answered_witness :
  HandleHTTPChallenge false ex_cfg (sw_storage ex_presented) idle_proc ex_request =
    Some (MkResponse StatusOK "text/plain" "tok.thumb").
Proof.
  apply (http_challenge_answered (N := SimSolver.t) ex_prefix ":80" SimSolver.chal SimSolver.start
    ex_presented ex_cfg idle_proc ex_request).
  - vm_compute. reflexivity.
  - reflexivity.
  - right. split; [reflexivity|]. exists [ca "one" "u1"], ex_issuer, [].
    split; [reflexivity|]. split; [reflexivity|].
    intros i ->%list_elem_of_singleton. vm_compute. reflexivity.
  - reflexivity.
  - reflexivity.
  - reflexivity.
Defined.

Lemma HandleHTTPChallenge_only_witness :
  ∃ chal d, getChallengeInfo ex_cfg (sw_storage ex_presented) idle_proc "a.com" = Ok (chal, d) ∧
    ch_KeyAuthorization (chal_Challenge chal) = "tok.thumb".
Proof.
  destruct (HandleHTTPChallenge_only false ex_cfg (sw_storage ex_presented) idle_proc ex_request
    (MkResponse StatusOK "text/plain" "tok.thumb")) as (_ & _ & chal & d & Hg & _ & _ & Hr).
  - vm_compute. reflexivity.
  - exists chal, d. split; [exact Hg|]. injection Hr as Hr. symmetry. exact Hr.
Defined.

Lemma challenge_forgotten_witness :
  HandleHTTPChallenge false ex_cfg
    (sw_storage (snd (sv_CleanUp (presented ex_prefix (httpSolver ":80")) SimSolver.chal ex_presented)))
    idle_proc ex_request = None.
Proof.
  apply (challenge_forgotten (N := SimSolver.t) ex_prefix ":80" SimSolver.chal ex_presented tt _ ex_cfg
    idle_proc ex_request).
  - vm_compute. reflexivity.
  - right. reflexivity.
  - intros i Hi. repeat (apply elem_of_cons in Hi as [->|Hi]; [vm_compute; congruence|]).
    by apply elem_of_nil in Hi.
  - reflexivity.
Defined.

Definition ex_alpn : acmeChallenge :=
  MkChallenge ChallengeTypeTLSALPN01 "" "tok" "tok.thumb" (MkIdentifier "dns" "a.com").
Definition ex_alpn_hello : ClientHelloInfo :=
  MkHello "a.com" None [ACMETLS1Protocol] (λ _, true).
End runs.
