(* ===== verification/Account.v ===== *)
(** * ACME accounts (account.go)

    The accounts of an ACME issuer in storage: their keys, saving and loading,
    the search for an email address. The ACME server, the random source and the
    terminal are the class [ACMENet]. *)

From S2P Require Import Prelude GoStrings Certificates Storage Crypto RateLimiter Config Challenges.
From Stdlib Require Import Ascii.
Import KeyBuilder.
Open Scope string_scope.

(** ** Data *)

(** [acme.Account]; a nil private key is [OtherKey]. *)
Record Account := MkAccount {
  acc_Status : string;
  acc_Contact : list string;
  acc_TermsOfServiceAgreed : bool;
  acc_Location : string;
  acc_ExternalAccountBinding : bytes;    (* as encoded *)
  acc_PrivateKey : PrivateKey
}.

#[export] Instance Account_eq_dec : EqDecision Account.
Proof. solve_decision. Defined.

Definition zeroAccount : Account := MkAccount "" [] false "" "" OtherKey.
Definition with_key (key : PrivateKey) (a : Account) : Account :=
  MkAccount (acc_Status a) (acc_Contact a) (acc_TermsOfServiceAgreed a) (acc_Location a)
    (acc_ExternalAccountBinding a) key.

(** [acme.EAB] *)
Record EAB := MkEAB { eab_KeyID : string; eab_MACKey : string }.

(** [url.URL] *)
Record URL := MkURL { url_Scheme : string; url_Host : string; url_Path : string }.

(** [ChainPreference] *)
Record ChainPreference := MkChainPreference {
  Smallest : option bool;
  RootCommonName : list string;
  AnyCommonName : list string
}.

(** [ACMEIssuer] without the fields that only configure the transport; whether
    there is a DNS solver, a callback. *)
Record ACMEIssuer := MkACMEIssuer {
  am_CA : string;
  am_TestCA : string;
  am_Email : string;
  am_AccountKeyPEM : string;
  am_Agreed : bool;
  am_ExternalAccount : option EAB;
  am_Profile : string;
  am_NotBefore : Duration;
  am_NotAfter : Duration;
  am_DisableHTTPChallenge : bool;
  am_DisableTLSALPNChallenge : bool;
  am_ListenHost : string;
  am_AltHTTPPort : Z;
  am_AltTLSALPNPort : Z;
  am_DNS01Solver : bool;
  am_CertObtainTimeout : Duration;
  am_Resolver : string;
  am_NewAccountFunc : bool;
  am_PreferredChains : ChainPreference;
  am_DisableARI : bool;                 (* am.config.DisableARI *)
  am_email : string;
  am_agreed : bool
}.

Definition set_am_email (email : string) (am : ACMEIssuer) : ACMEIssuer :=
  MkACMEIssuer (am_CA am) (am_TestCA am) (am_Email am) (am_AccountKeyPEM am) (am_Agreed am)
    (am_ExternalAccount am) (am_Profile am) (am_NotBefore am) (am_NotAfter am)
    (am_DisableHTTPChallenge am) (am_DisableTLSALPNChallenge am) (am_ListenHost am)
    (am_AltHTTPPort am) (am_AltTLSALPNPort am) (am_DNS01Solver am) (am_CertObtainTimeout am)
    (am_Resolver am) (am_NewAccountFunc am) (am_PreferredChains am) (am_DisableARI am)
    email (am_agreed am).
Definition set_am_agreed (agreed : bool) (am : ACMEIssuer) : ACMEIssuer :=
  MkACMEIssuer (am_CA am) (am_TestCA am) (am_Email am) (am_AccountKeyPEM am) (am_Agreed am)
    (am_ExternalAccount am) (am_Profile am) (am_NotBefore am) (am_NotAfter am)
    (am_DisableHTTPChallenge am) (am_DisableTLSALPNChallenge am) (am_ListenHost am)
    (am_AltHTTPPort am) (am_AltTLSALPNPort am) (am_DNS01Solver am) (am_CertObtainTimeout am)
    (am_Resolver am) (am_NewAccountFunc am) (am_PreferredChains am) (am_DisableARI am)
    (am_email am) agreed.

Definition set_am_Agreed (Agreed : bool) (am : ACMEIssuer) : ACMEIssuer :=
  MkACMEIssuer (am_CA am) (am_TestCA am) (am_Email am) (am_AccountKeyPEM am) Agreed
    (am_ExternalAccount am) (am_Profile am) (am_NotBefore am) (am_NotAfter am)
    (am_DisableHTTPChallenge am) (am_DisableTLSALPNChallenge am) (am_ListenHost am)
    (am_AltHTTPPort am) (am_AltTLSALPNPort am) (am_DNS01Solver am) (am_CertObtainTimeout am)
    (am_Resolver am) (am_NewAccountFunc am) (am_PreferredChains am) (am_DisableARI am)
    (am_email am) (am_agreed am).

(** [acme.Problem]; an error is one or wraps one. *)
Record Problem := MkProblem { prob_Type : string; prob_Status : Z }.

(** A client of acmez: its directory, timeout and the solvers by challenge
    type, which are described by the addresses and keys they work with. *)
Inductive solver_desc :=
| DescHTTP (address : string)
| DescTLSALPN (address : string)
| DescDNS
| DescDistributed (prefix : string) (solver : solver_desc)
| DescWrapper (solver : solver_desc).
Record acmezClient := MkClient {
  client_Directory : string;
  client_UserAgent : string;
  client_PollTimeout : Duration;
  client_ChallengeSolvers : gmap string solver_desc
}.

(** [acmez.OrderParameters] and [acme.Certificate]. *)
Record OrderParameters := MkOrder {
  order_Account : Account;
  order_CSR : CertificateRequest;
  order_NotBefore : Time;
  order_NotAfter : Time;
  order_Replaces : option X509;
  order_Profile : string
}.
Record acmeCertificate := MkACMECert { ac_URL : string; ac_ChainPEM : bytes }.

(** What [ReadString] returns: a line, the text before the end of the input, or
    an error. *)
Inductive stdin_line := Line (s : string) | LineEOF (s : string) | LineErr.

(** What is outside: the ACME server through acmez, parsing of URLs and IP
    addresses, JSON, the issuer name in a parsed certificate, which errors are
    problems reported by the server, the generation of account keys, a line
    from the terminal, the time at which a rate limiter gives the next ticket
    or the context ends, the callback of the issuer. *)
Class ACMENet (N : Type) := {
  url_Parse : string → result URL;
  json_MarshalAccount : Account → result bytes;
  json_UnmarshalAccount : bytes → result Account;
  json_MarshalCertificate : acmeCertificate → result bytes;
  net_ParseIP : string → option IP;
  IssuerCommonName : X509 → string;
  err_Problem : error → option Problem;
  ecdsa_GenerateKey : ST N (result PrivateKey);
  stdin_ReadLine : ST N stdin_line;
  acmez_GetAccount : string → Account → ST N (result Account);
  acmez_NewAccount : string → Account → ST N (result Account);
  acmez_GetDirectory : string → ST N (result (option string));
  acmez_SetExternalAccountBinding : string → EAB → Account → ST N (result Account);
  acmez_OrderParametersFromCSR : Account → CertificateRequest → result OrderParameters;
  acmez_ObtainCertificate : acmezClient → OrderParameters → ST N (result (list acmeCertificate));
  acmez_RevokeCertificate : string → Account → X509 → Z → ST N (result unit);
  acmez_GetRenewalInfo : string → option X509 → ST N (result RenewalInfo);
  (** [rl.Wait]: the times at which the goroutine of the limiter hands out the
      ticket and then records it *)
  limiter_Wait : RingBufferRateLimiter → ST N (result (Time * Time));
  x_NewAccountFunc : Account → ST (ACMEIssuer * N) (result Account);
  acme_Now : N → Time
}.

Class ACMELaws (N : Type) `{!ACMENet N} := {
  (** the private key is not part of the JSON form *)
  json_Account_roundtrip a b :
    json_MarshalAccount a = Ok b → json_UnmarshalAccount b = Ok (with_key OtherKey a);
  (** an account the server knows has a status; it keeps the contacts *)
  acmez_NewAccount_Ok d a n a' n' :
    acmez_NewAccount d a n = (Ok a', n') → acc_Status a' ≠ "" ∧ acc_Contact a' = acc_Contact a;
  (** the binding to an external account is put into the account, the contacts
      stay *)
  acmez_SetExternalAccountBinding_contact d eab a n a' n' :
    acmez_SetExternalAccountBinding d eab a n = (Ok a', n') → acc_Contact a' = acc_Contact a
}.

(** [errors.As(err, &problem)] *)
Definition errors_As_Problem {N : Type} `{!ACMENet N} (e : error) : option Problem :=
  head (omap err_Problem (error_chain e)).

(** Calls to the ACME server and to the locks, in order, with what an order led
    to and whether a lock was had. *)
Inductive acme_call :=
| CallNewAccount (directory : string) (account : Account)
| CallGetAccount (directory : string)
| CallObtain (directory : string) (account : Account) (replaces : option X509)
    (chains : result (list acmeCertificate))
| CallThrottle (limiterKey : string) (ticket : Time)
| CallAcmeLock (key : string) (acquired : bool)
| CallAcmeUnlock (key : string)
| CallPrompt.

(** The storage with the lock table, the issuer, the package's variables
    [DefaultACME], [discoveredEmail] and
    [rateLimiters], and the outside. *)
Record AState (St N : Type) := MkA {
  a_storage : St;
  a_locks : gmap string nat;
  a_iss : ACMEIssuer;
  a_DefaultACME : ACMEIssuer;
  discoveredEmail : string;
  rateLimiters : gmap string RingBufferRateLimiter;
  a_net : N;
  a_trace : list acme_call
}.
Arguments MkA {St N}.
Arguments a_storage {St N}.
Arguments a_locks {St N}.
Arguments a_iss {St N}.
Arguments a_DefaultACME {St N}.
Arguments discoveredEmail {St N}.
Arguments rateLimiters {St N}.
Arguments a_net {St N}.
Arguments a_trace {St N}.

Section account.
Context {St N : Type} `{C : !Codec} `{!Storage St} `{A : !ACMENet N}.
Implicit Types (s : St) (am : ACMEIssuer) (w : AState St N).

Definition on_a_storage {T} (m : ST St T) : ST (AState St N) T := λ w,
  let '(r, s) := m (a_storage w) in
  (r, MkA s (a_locks w) (a_iss w) (a_DefaultACME w) (discoveredEmail w)
        (rateLimiters w) (a_net w) (a_trace w)).
Definition on_a_net {T} (m : ST N T) : ST (AState St N) T := λ w,
  let '(r, n) := m (a_net w) in
  (r, MkA (a_storage w) (a_locks w) (a_iss w) (a_DefaultACME w)
        (discoveredEmail w) (rateLimiters w) n (a_trace w)).
Definition with_iss (f : ACMEIssuer → ACMEIssuer) w : AState St N :=
  MkA (a_storage w) (a_locks w) (f (a_iss w)) (a_DefaultACME w)
    (discoveredEmail w) (rateLimiters w) (a_net w) (a_trace w).
Definition with_globals (default : ACMEIssuer) (discovered : string) w : AState St N :=
  MkA (a_storage w) (a_locks w) (a_iss w) default discovered
    (rateLimiters w) (a_net w) (a_trace w).
Definition a_record (c : acme_call) w : AState St N :=
  MkA (a_storage w) (a_locks w) (a_iss w) (a_DefaultACME w)
    (discoveredEmail w) (rateLimiters w) (a_net w) (a_trace w ++ [c])%list.
Definition on_a_locks {T} (m : ST (LockState St) T) : ST (AState St N) T := λ w,
  let '(r, ls) := m (MkLockState [a_storage w] (a_locks w)) in
  (r, MkA (default (a_storage w) (ls_storages ls !! 0%nat)) (ls_locks ls) (a_iss w)
        (a_DefaultACME w) (discoveredEmail w) (rateLimiters w) (a_net w)
        (a_trace w)).

(** ** Storage keys *)

(** The characters [/] and [\] of a path become hyphens; [strings.Trim] of
    them. *)
Definition hyphenate (c : ascii) : ascii :=
  if Ascii.eqb c "/" || Ascii.eqb c "\" then "-"%char else c.
Fixpoint trim_left (c : ascii) (s : string) : string :=
  match s with
  | "" => ""
  | String d s' => if Ascii.eqb d c then trim_left c s' else s
  end.
Fixpoint trim_right (c : ascii) (s : string) : string :=
  match s with
  | "" => ""
  | String d s' =>
      match trim_right c s' with
      | "" => if Ascii.eqb d c then "" else String d ""
      | t => String d t
      end
  end.
Definition Trim (s : string) (c : ascii) : string := trim_right c (trim_left c s).

Definition issuerKey (ca : string) : string :=
  match url_Parse ca with
  | Err _ => ca
  | Ok caURL =>
      if url_Path caURL =? "" then url_Host caURL
      else
        let path := Trim (string_map hyphenate (url_Path caURL)) "-" in
        if path =? "" then url_Host caURL else url_Host caURL +:+ "-" +:+ path
  end.

Definition storageKeyCAPrefix (caURL : string) : string := storageKeyACMECAPrefix (issuerKey caURL).
Definition storageKeyUsersPrefix (caURL : string) : string :=
  path_Join [storageKeyCAPrefix caURL; "users"].

Definition emptyEmail : string := "default".

Definition storageKeyUserPrefix (caURL email : string) : string :=
  let email := if email =? "" then emptyEmail else email in
  path_Join [storageKeyUsersPrefix caURL; Safe email].

Definition emailUsername (email : string) : string :=
  match IndexByte email "@" with
  | None => email
  | Some O => string_drop 1 email
  | Some at_ => string_take at_ email
  end.

Definition storageSafeUserKey (ca email defaultFilename extension : string) : string :=
  let email := if email =? "" then emptyEmail else email in
  let email := ToLower email in
  let filename := emailUsername email in
  let filename := if filename =? "" then defaultFilename else filename in
  path_Join [storageKeyUserPrefix ca email; Safe filename +:+ extension].

Definition storageKeyUserReg (caURL email : string) : string :=
  storageSafeUserKey caURL email "registration" ".json".
Definition storageKeyUserPrivateKey (caURL email : string) : string :=
  storageSafeUserKey caURL email "private" ".key".

Definition getPrimaryContact (account : Account) : string :=
  match acc_Contact account with
  | [] => ""
  | primaryContact :: _ =>
      match IndexByte primaryContact ":" with
      | Some idx => string_drop (S idx) primaryContact
      | None => primaryContact
      end
  end.

Definition accountRegLockKey (acc : Account) : string :=
  let key := "register_acme_account" in
  match acc_Contact acc with
  | [] => key
  | _ => key +:+ "_" +:+ getPrimaryContact acc
  end.

(** ** Accounts in storage *)

Definition loadAccount s (ca email : string) : result Account :=
  match Load s (storageKeyUserReg ca email) with
  | Err e => Err e
  | Ok regBytes =>
      match Load s (storageKeyUserPrivateKey ca email) with
      | Err e => Err e
      | Ok keyBytes =>
          match json_UnmarshalAccount regBytes with
          | Err e => Err e
          | Ok acct =>
              match PEMDecodePrivateKey keyBytes with
              | Err _ => Err (Errorf "could not decode account's private key")
              | Ok key => Ok (with_key key acct)
              end
          end
      end
  end.

Definition newAccount (email : string) : ST (AState St N) (result Account) := λ w,
  let contact := if email =? "" then [] else ["mailto:" +:+ email] in
  match on_a_net ecdsa_GenerateKey w with
  | (Err _, w) => (Err (Errorf "generating private key"), w)
  | (Ok key, w) => (Ok (MkAccount "" contact false "" "" key), w)
  end.

Definition getAccount (ca email : string) : ST (AState St N) (result Account) := λ w,
  match loadAccount (a_storage w) ca email with
  | Err e => if errors_Is e ErrNotExist then newAccount email w else (Err e, w)
  | Ok acct => (Ok acct, w)
  end.

Definition account_kvs (ca : string) (account : Account) (regBytes keyBytes : bytes) : list keyValue :=
  let primaryContact := getPrimaryContact account in
  [MkKV (storageKeyUserReg ca primaryContact) regBytes;
   MkKV (storageKeyUserPrivateKey ca primaryContact) keyBytes].

Definition saveAccount (ca : string) (account : Account) : ST (AState St N) (result unit) := λ w,
  match json_MarshalAccount account with
  | Err e => (Err e, w)
  | Ok regBytes =>
      match PEMEncodePrivateKey (acc_PrivateKey account) with
      | Err e => (Err e, w)
      | Ok keyBytes => on_a_storage (storeTx (account_kvs ca account regBytes keyBytes)) w
      end
  end.

Definition deleteAccountLocally (ca : string) (account : Account) : ST (AState St N) (result unit) := λ w,
  let primaryContact := getPrimaryContact account in
  match on_a_storage (Delete (storageKeyUserReg ca primaryContact)) w with
  | (Err e, w) => (Err e, w)
  | (Ok _, w) => on_a_storage (Delete (storageKeyUserPrivateKey ca primaryContact)) w
  end.

(** ** Email addresses *)

(** The accounts of the users folder that are no files, with the times of their
    last changes; one whose times are not known counts as the oldest. *)
Definition account_stats s (accountList : list string) : list (string * Time) :=
  omap (λ u, match Stat s u with
             | Err _ => Some (u, 0%Z)
             | Ok keyInfo => if ki_IsTerminal keyInfo then None else Some (u, ki_Modified keyInfo)
             end) accountList.

Definition modified_first (x y : string * Time) : Prop := (y.2 ≤ x.2)%Z.
#[local] Instance modified_first_dec x y : Decision (modified_first x y).
Proof. unfold modified_first. apply _. Defined.

Definition mostRecentAccountEmail (caURL : string) : ST (AState St N) (option string) := λ w,
  match List (a_storage w) (storageKeyUsersPrefix caURL) false with
  | Err _ => (None, w)
  | Ok accountList =>
      match merge_sort modified_first (account_stats (a_storage w) accountList) with
      | [] => (None, w)
      | (u, _) :: _ =>
          match getAccount caURL (path_Base u) w with
          | (Err _, w) => (None, w)
          | (Ok account, w) => (Some (getPrimaryContact account), w)
          end
      end
  end.

Definition promptUserForEmail : ST (AState St N) (result string) := λ w,
  let w := a_record CallPrompt w in
  match on_a_net stdin_ReadLine w with
  | (LineErr, w) => (Err (Errorf "reading email address"), w)
  | (Line leEmail, w) | (LineEOF leEmail, w) =>
      (Ok (TrimSpace leEmail), with_globals (set_am_Agreed true (a_DefaultACME w)) (discoveredEmail w) w)
  end.

Definition askUserAgreement : ST (AState St N) bool := λ w,
  let w := a_record CallPrompt w in
  match on_a_net stdin_ReadLine w with
  | (Line answer, w) =>
      let answer := ToLower (TrimSpace answer) in ((answer =? "y") || (answer =? "yes"), w)
  | (_, w) => (false, w)
  end.

(** The address that is known without asking: of the issuer, of the defaults,
    one discovered before, or of the most recent account; the second part tells
    whether it is the last. *)
Definition knownEmail : ST (AState St N) (string * bool) := λ w,
  let leEmail := am_Email (a_iss w) in
  let leEmail := if leEmail =? "" then am_Email (a_DefaultACME w) else leEmail in
  let leEmail := if leEmail =? "" then discoveredEmail w else leEmail in
  if leEmail =? "" then
    match mostRecentAccountEmail (am_CA (a_iss w)) w with
    | (Some email, w) => ((email, true), w)
    | (None, w) => (("", false), w)
    end
  else ((leEmail, false), w).

(** The end of [setEmail]: the address is normalized and remembered. *)
Definition rememberEmail (leEmail : string) w : AState St N :=
  let leEmail := TrimSpace (ToLower leEmail) in
  let w := with_globals (a_DefaultACME w)
             (if discoveredEmail w =? "" then leEmail else discoveredEmail w) w in
  with_iss (set_am_email leEmail) w.

Definition setEmail (allowPrompts : bool) : ST (AState St N) (result unit) := λ w,
  let '((leEmail, gotRecentEmail), w) := knownEmail w in
  if negb gotRecentEmail && (leEmail =? "") && allowPrompts then
    match promptUserForEmail w with
    | (Err e, w) => (Err e, w)
    | (Ok leEmail, w) =>
        let w := with_iss (set_am_agreed (am_Agreed (a_DefaultACME w))) w in
        (Ok tt, rememberEmail leEmail w)
    end
  else (Ok tt, rememberEmail leEmail w).
End account.

(** ** Theorems *)

Section account_theorems.
Context {St N : Type} `{C : !Codec} `{CL : !CodecLaws} `{!Storage St} `{!StorageLaws St}
  `{A : !ACMENet N} `{AL : !ACMELaws N}.
Implicit Types (w : AState St N).

Lemma normalized_idemp e : TrimSpace (ToLower (TrimSpace (ToLower e))) = TrimSpace (ToLower e).
Proof.
  rewrite (TrimSpace_lower (TrimSpace (ToLower e))), TrimSpace_idemp, TrimSpace_lower.
  apply ToLower_idemp.
Qed.

(** A storage key of an account ends in its extension. *)
Lemma storageSafeUserKey_ext ca email def ext :
  no_byte "/" ext = true → (2 < String.length ext)%nat →
  ∃ d, storageSafeUserKey ca email def ext = d +:+ ext.
Proof.
  intros Hs Hl. unfold storageSafeUserKey. set (f := if _ =? "" then def else _).
  destruct (path_Join_last (storageKeyUserPrefix ca (ToLower (if email =? "" then emptyEmail else email)))
              (Safe f +:+ ext)) as [d Hd].
  { apply plain_file; [apply Safe_charset|done|done]. }
  exists (d +:+ Safe f). by rewrite Hd, append_assoc.
Qed.

Lemma account_keys_differ ca e ca' e' : storageKeyUserReg ca e ≠ storageKeyUserPrivateKey ca' e'.
Proof.
  unfold storageKeyUserReg, storageKeyUserPrivateKey. intros E.
  destruct (storageSafeUserKey_ext ca e "registration" ".json") as [d Hd]; [done|simpl; lia|].
  destruct (storageSafeUserKey_ext ca' e' "private" ".key") as [d' Hd']; [done|simpl; lia|].
  rewrite Hd, Hd' in E. change ".json" with (".jso" +:+ String "n" "") in E.
  change ".key" with (".ke" +:+ String "y" "") in E. rewrite <-!append_assoc in E.
  by apply append_last in E.
Qed.

(** What is deleted stays away when more is deleted. *)
Lemma filtered_out k k' (m : gmap string bytes) :
  filter (λ kv : string * bytes, under k' kv.1 = false)
    (filter (λ kv : string * bytes, under k kv.1 = false) m) !! k = None.
Proof.
  rewrite map_lookup_filter_None. left. rewrite map_lookup_filter_None. right.
  intros v _ H. simpl in H. unfold under in H. by rewrite String.eqb_refl in H.
Qed.

#[local] Opaque storageKeyUserReg storageKeyUserPrivateKey.

Lemma saveAccount_load ca acct w w' :
  saveAccount ca acct w = (Ok tt, w') →
  loadAccount (a_storage w') ca (getPrimaryContact acct) = Ok acct.
Proof using CL AL StorageLaws0.
  unfold saveAccount. destruct (json_MarshalAccount acct) as [regBytes|e] eqn:Ej; [|done].
  destruct (PEMEncodePrivateKey (acc_PrivateKey acct)) as [keyBytes|e] eqn:Ek; [|done].
  unfold on_a_storage. destruct (storeTx _ (a_storage w)) as [r s'] eqn:Es. intros [= -> <-].
  apply storeTx_stores_all in Es as [Hl%Forall_forall _].
  2: { simpl. apply NoDup_cons. split; [|apply NoDup_singleton].
       intros Hin%list_elem_of_singleton. by apply account_keys_differ in Hin. }
  unfold loadAccount. unfold account_kvs in Hl.
  apply Forall_cons in Hl as [Hreg [Hkey _]%Forall_cons]. simpl in Hreg, Hkey |- *. rewrite Hreg, Hkey.
  rewrite (json_Account_roundtrip _ _ Ej). apply PEMPrivateKey_roundtrip in Ek as [_ ->].
  by destruct acct.
Qed.

(** An account that is saved is loaded back, with its private key, under the
    CA and the primary contact it was saved for. *)
Theorem account_roundtrip ca acct w w' :
  saveAccount ca acct w = (Ok tt, w') →
  loadAccount (a_storage w') ca (getPrimaryContact acct) = Ok acct ∧
  getAccount ca (getPrimaryContact acct) w' = (Ok acct, w').
Proof using CL AL StorageLaws0.
  intros H%saveAccount_load. split; [done|]. unfold getAccount. by rewrite H.
Qed.

(** An account that is deleted locally is gone: looking for it afterwards
    makes a new, unregistered account for the address instead of an error. *)
Theorem deleteAccountLocally_gone ca acct w w' :
  deleteAccountLocally ca acct w = (Ok tt, w') →
  (∃ e, loadAccount (a_storage w') ca (getPrimaryContact acct) = Err e ∧ errors_Is e ErrNotExist = true) ∧
  getAccount ca (getPrimaryContact acct) w' = newAccount (getPrimaryContact acct) w' ∧
  ∀ acct' w'', getAccount ca (getPrimaryContact acct) w' = (Ok acct', w'') → acc_Status acct' = "".
Proof using StorageLaws0.
  unfold deleteAccountLocally, on_a_storage.
  destruct (Delete (storageKeyUserReg ca _) (a_storage w)) as [[u|e] s1] eqn:E1; [|done]. simpl.
  destruct (Delete (storageKeyUserPrivateKey ca _) s1) as [r s2] eqn:E2. intros [= -> <-]. simpl.
  destruct u. apply Delete_Ok in E1. apply Delete_Ok in E2.
  assert (Storage.contents s2 !! storageKeyUserReg ca (getPrimaryContact acct) = None) as Hn.
  { rewrite E2, E1. by apply filtered_out. }
  pose proof (Load_spec s2 (storageKeyUserReg ca (getPrimaryContact acct))) as Hl. rewrite Hn in Hl.
  destruct Hl as (e & Hl & He).
  assert (loadAccount s2 ca (getPrimaryContact acct) = Err e) as Hload.
  { unfold loadAccount. by rewrite Hl. }
  split; [eauto|]. unfold getAccount. simpl. rewrite Hload, He. split; [done|].
  intros acct' w''. unfold newAccount. destruct (on_a_net _ _) as [[key|e'] w3]; [|done].
  by intros [= <- _].
Qed.

Lemma getAccount_other ca email w r w' :
  getAccount ca email w = (r, w') →
  a_iss w' = a_iss w ∧ discoveredEmail w' = discoveredEmail w ∧ a_DefaultACME w' = a_DefaultACME w ∧
  a_trace w' = a_trace w ∧ a_locks w' = a_locks w ∧ a_storage w' = a_storage w.
Proof.
  unfold getAccount, newAccount, on_a_net. destruct (loadAccount _ _ _); [by intros [= _ <-]|].
  destruct (errors_Is _ _); [|by intros [= _ <-]].
  destruct (ecdsa_GenerateKey (a_net w)) as [[key|] n]; by intros [= _ <-].
Qed.

Lemma knownEmail_other w x w' :
  knownEmail w = (x, w') →
  a_iss w' = a_iss w ∧ discoveredEmail w' = discoveredEmail w ∧ am_Email (a_DefaultACME w') = am_Email (a_DefaultACME w) ∧
  a_trace w' = a_trace w ∧
  (x.1 = am_Email (a_iss w) ∧ x.1 ≠ "" ∨
   am_Email (a_iss w) = "" ∧ x.1 = am_Email (a_DefaultACME w) ∧ x.1 ≠ "" ∨
   am_Email (a_iss w) = "" ∧ am_Email (a_DefaultACME w) = "" ∧ x.1 = discoveredEmail w ∧ x.1 ≠ "" ∨
   am_Email (a_iss w) = "" ∧ am_Email (a_DefaultACME w) = "" ∧ discoveredEmail w = "").
Proof.
  unfold knownEmail. cbv zeta.
  destruct (String.eqb_spec (am_Email (a_iss w)) "") as [H1|H1].
  2: { rewrite !(proj2 (String.eqb_neq _ _) H1). intros [= <- <-]. auto 20. }
  destruct (String.eqb_spec (am_Email (a_DefaultACME w)) "") as [H2|H2].
  2: { rewrite !(proj2 (String.eqb_neq _ _) H2). intros [= <- <-]. auto 20. }
  destruct (String.eqb_spec (discoveredEmail w) "") as [H3|H3]; [|intros [= <- <-]; auto 20].
  unfold mostRecentAccountEmail. intros Hk.
  assert (a_iss w' = a_iss w ∧ discoveredEmail w' = discoveredEmail w ∧
          am_Email (a_DefaultACME w') = am_Email (a_DefaultACME w) ∧ a_trace w' = a_trace w) as (-> & -> & -> & ->);
    [|auto 20].
  destruct (List _ _ _) as [l|]; [|by injection Hk as _ <-].
  destruct (merge_sort _ _) as [|[u t] l']; [by injection Hk as _ <-|].
  destruct (getAccount _ _ w) as [r w1] eqn:E. apply getAccount_other in E as (? & ? & E & ? & _).
  rewrite <-E. by destruct r; injection Hk as _ <-.
Qed.

Lemma knownEmail_again w :
  am_Email (a_iss w) ≠ "" ∨ am_Email (a_DefaultACME w) ≠ "" ∨ discoveredEmail w ≠ "" →
  knownEmail w =
    ((if am_Email (a_iss w) =? "" then if am_Email (a_DefaultACME w) =? "" then discoveredEmail w
      else am_Email (a_DefaultACME w) else am_Email (a_iss w), false), w).
Proof.
  intros Hk. unfold knownEmail. cbv zeta.
  destruct (String.eqb_spec (am_Email (a_iss w)) "") as [H1|H1];
    [|by rewrite !(proj2 (String.eqb_neq _ _) H1)].
  destruct (String.eqb_spec (am_Email (a_DefaultACME w)) "") as [H2|H2];
    [|by rewrite !(proj2 (String.eqb_neq _ _) H2)].
  rewrite (proj2 (String.eqb_neq (discoveredEmail w) "")); [done|]. tauto.
Qed.

(** The email address is settled once: after [setEmail] the issuer has a
    normalized address, and if it is not empty, setting it again keeps it
    without asking the user, whatever was asked before. *)
Theorem setEmail_settles allowPrompts w w' :
  setEmail allowPrompts w = (Ok tt, w') →
  let email := am_email (a_iss w') in
  TrimSpace (ToLower email) = email ∧
  (email ≠ "" → ∀ again, ∃ w'', setEmail again w' = (Ok tt, w'') ∧
     am_email (a_iss w'') = email ∧ a_trace w'' = a_trace w').
Proof.
  unfold setEmail. destruct (knownEmail w) as [[leEmail recent] w1] eqn:E.
  apply knownEmail_other in E as (Hi & Hd & Hdef & _ & Hcases). simpl in Hcases. intros Hset.
  assert (∃ e w2, w' = rememberEmail e w2 ∧ am_Email (a_iss w2) = am_Email (a_iss w) ∧
            am_Email (a_DefaultACME w2) = am_Email (a_DefaultACME w) ∧ discoveredEmail w2 = discoveredEmail w ∧
            (e = leEmail ∨ leEmail = "")) as (e & w2 & -> & Hi2 & Hdef2 & Hd2 & He).
  { destruct (negb recent && (leEmail =? "") && allowPrompts) eqn:Eb.
    - reflect_bools. unfold promptUserForEmail, on_a_net in Hset. simpl in Hset.
      destruct (stdin_ReadLine (a_net w1)) as [[l|l|] n]; try done;
        injection Hset as <-; eexists _, _; split; [reflexivity| |reflexivity|]; simpl; rewrite ?Hi; auto 10.
    - injection Hset as <-. exists leEmail, w1. rewrite Hi. auto 10. }
  clear Hset. simpl. set (n := TrimSpace (ToLower e)). split; [apply normalized_idemp|].
  intros Hn again. unfold setEmail.
  rewrite knownEmail_again.
  2: { simpl. rewrite Hi2, Hdef2, Hd2. destruct Hcases as [[? ?]|[(?&?&?)|[(?&?&?&?)|(H1&H2&H3)]]];
         [left; congruence|right; left; congruence|right; right|right; right].
       - destruct (String.eqb_spec (discoveredEmail w) ""); congruence.
       - by rewrite H3. }
  simpl. rewrite Hi2, Hdef2, Hd2.
  set (known := if am_Email (a_iss w) =? "" then _ else _).
  assert (known ≠ "" ∧ TrimSpace (ToLower known) = n) as [Hne Hk].
  { subst known. fold n.
    destruct Hcases as [[-> H]|[(H1 & -> & H)|[(H1 & H2 & -> & H)|(H1 & H2 & H3)]]];
      rewrite ?H1, ?H2, ?H3; simpl; rewrite ?(proj2 (String.eqb_neq _ _) H);
      [by destruct He as [->|]..|]. split; [done|apply normalized_idemp]. }
  rewrite (proj2 (String.eqb_neq _ _) Hne). simpl. eexists. split; [done|]. by simpl.
Qed.
End account_theorems.

(** ** A simulated CA *)

(** A server that knows the accounts registered with each of its directories,
    refuses orders for other accounts and those of the directories in [busy],
    and issues two chains; keys are numbered. *)
Module SimCA.
Import PlainCodec.
Record t := Mk {
  now : Time;
  next_key : nat;
  registered : list (string * PrivateKey);
  input : list stdin_line;
  busy : list string
}.

Definition parse (s : string) : result URL :=
  let split (scheme rest : string) :=
    match IndexByte rest "/" with
    | None => Ok (MkURL scheme rest "")
    | Some i => Ok (MkURL scheme (string_take i rest) (string_drop i rest))
    end in
  if HasPrefix s "https://" then split "https" (string_drop 8 s)
  else if HasPrefix s "http://" then split "http" (string_drop 7 s)
  else if Contains s "://" then Err (Errorf "parse")
  else Ok (MkURL "" "" s).

Definition enc_account (a : Account) : bytes :=
  enc_strs (acc_Status a :: (if acc_TermsOfServiceAgreed a then "t" else "f") :: acc_Location a ::
            acc_ExternalAccountBinding a :: acc_Contact a).
Definition dec_account (b : bytes) : result Account :=
  match dec_strs (String.length b) b with
  | Some (status :: agreed :: location :: eab :: contact) =>
      Ok (MkAccount status contact (agreed =? "t") location eab OtherKey)
  | _ => Err (Errorf "json")
  end.

Definition chain (directory der : string) : acmeCertificate :=
  MkACMECert (directory +:+ "/" +:+ der)
    (enc_str "CERTIFICATE" (enc_str der "")).

Definition known (d : string) (a : Account) (n : t) : bool :=
  bool_decide ((d, acc_PrivateKey a) ∈ registered n).

(** How orders are answered. *)
Definition obtain (client : acmezClient) (params : OrderParameters) : ST t (result (list acmeCertificate)) := λ n,
  let d := client_Directory client in
  (if negb (known d (order_Account params) n) then Err (Errorf "accountDoesNotExist")
   else if bool_decide (d ∈ busy n) then Err (Errorf "rateLimited")
   else Ok [chain d "long"; chain d "x"], n).
Definition obtain_lost (client : acmezClient) (params : OrderParameters) :
    ST t (result (list acmeCertificate)) := λ n, (Err (Errorf "accountDoesNotExist"), n).

(** The time of the next ticket of a limiter: when the slot at the cursor is
    free, and not before any ticket that was recorded. *)
Definition next_ticket (rl : RingBufferRateLimiter) (n : t) : Time :=
  foldr Z.max (Z.max (now n) (time_Add (nth (cursor rl) (ring rl) 0%Z) (window rl))) (ring rl).

Definition net (obtain : acmezClient → OrderParameters → ST t (result (list acmeCertificate))) : ACMENet t := {|
  url_Parse := parse;
  json_MarshalAccount a := Ok (enc_account a);
  json_UnmarshalAccount := dec_account;
  json_MarshalCertificate c := Ok (ac_URL c);
  net_ParseIP s := if s =? "10.0.0.1" then Some (ipv4 10 0 0 1)
                   else if s =? "8.8.8.8" then Some (ipv4 8 8 8 8) else None;
  IssuerCommonName c := if (NotBefore c =? 1)%Z then "Root A" else "Root B";
  err_Problem e :=
    match e with
    | Errorf m =>
        if m =? "accountDoesNotExist"
        then Some (MkProblem "urn:ietf:params:acme:error:accountDoesNotExist" 400)
        else if m =? "rateLimited" then Some (MkProblem "urn:ietf:params:acme:error:rateLimited" 429)
        else None
    | _ => None
    end;
  ecdsa_GenerateKey n :=
    (Ok (EcdsaKey (String (ascii_of_nat (48 + next_key n)) "")),
     Mk (now n) (S (next_key n)) (registered n) (input n) (busy n));
  stdin_ReadLine n :=
    match input n with
    | [] => (LineEOF "", n)
    | l :: rest => (l, Mk (now n) (next_key n) (registered n) rest (busy n))
    end;
  acmez_GetAccount d a n :=
    (if known d a n then Ok (MkAccount "valid" ["mailto:me@a.com"] true d "" (acc_PrivateKey a))
     else Err (Errorf "accountDoesNotExist"), n);
  acmez_NewAccount d a n :=
    (Ok (MkAccount "valid" (acc_Contact a) (acc_TermsOfServiceAgreed a) d
           (acc_ExternalAccountBinding a) (acc_PrivateKey a)),
     Mk (now n) (next_key n) ((d, acc_PrivateKey a) :: registered n) (input n) (busy n));
  acmez_GetDirectory d n := (Ok (Some "https://terms"), n);
  acmez_SetExternalAccountBinding d eab a n :=
    (Ok (MkAccount (acc_Status a) (acc_Contact a) (acc_TermsOfServiceAgreed a) (acc_Location a)
           (eab_KeyID eab) (acc_PrivateKey a)), n);
  acmez_OrderParametersFromCSR a csr := Ok (MkOrder a csr 0 0 None "");
  acmez_ObtainCertificate := obtain;
  acmez_RevokeCertificate d a c reason n := (Ok tt, n);
  acmez_GetRenewalInfo d leaf n := (Ok ex_ari, n);
  limiter_Wait rl n := let ticket := next_ticket rl n in
    (if (length (ring rl) <=? cursor rl)%nat then Err Canceled else Ok (ticket, ticket),
     Mk ticket (next_key n) (registered n) (input n) (busy n));
  x_NewAccountFunc a := λ p, (Ok a, p);
  acme_Now := now
|}.
#[export] Instance sim_ACMENet : ACMENet t := net obtain.
(** A server that has lost all accounts for orders. *)
Definition lost : ACMENet t := net obtain_lost.

#[export] Instance sim_ACMELaws : ACMELaws t.
Proof.
  split.
  - intros [st con ag loc eab key] b [= <-]. simpl. unfold dec_account, enc_account.
    rewrite dec_enc_strs by done. simpl. by destruct ag.
  - intros d a n a' n' [= <- <-]. done.
  - intros d eab a n a' n' [= <- <-]. done.
Qed.

Definition le : string := "https://le.org/dir".
Definition staging : string := "https://staging.le.org/dir".
Definition issuer : ACMEIssuer :=
  MkACMEIssuer le staging "me@a.com" "" true None "" 0 0 false false "" 0 0 false 0 "" false
    (MkChainPreference None [] []) false "" false.
Definition default : ACMEIssuer :=
  MkACMEIssuer "https://acme-v02.api.letsencrypt.org/directory"
    "https://acme-staging-v02.api.letsencrypt.org/directory" "" "" false None "" 0 0 false false
    "" 0 0 false 0 "" false (MkChainPreference None [] []) false "" false.
Definition start : AState MemStorage.t t :=
  MkA MemStorage.empty ∅ issuer default "" ∅ (Mk 0 0 [] [Line "  Me@A.com "] []) [].
Definition account : Account := MkAccount "valid" ["mailto:me@a.com"] true le "" (EcdsaKey "0").
Definition saved : AState MemStorage.t t := snd (saveAccount le account start).
Definition deleted : AState MemStorage.t t := snd (deleteAccountLocally le account saved).

(** An issuer without an address: the user is asked. *)
Definition asking : AState MemStorage.t t :=
  MkA MemStorage.empty ∅
    (MkACMEIssuer le staging "" "" true None "" 0 0 false false "" 0 0 false 0 "" false
       (MkChainPreference None [] []) false "" false)
    default "" ∅ (Mk 0 0 [] [Line "  Me@A.com "] []) [].
Definition asked : AState MemStorage.t t := snd (setEmail true asking).
End SimCA.
Export (hints) SimCA.

Lemma account_roundtrip_witness :
  loadAccount (a_storage SimCA.saved) SimCA.le (getPrimaryContact SimCA.account) = Ok SimCA.account ∧
  getAccount SimCA.le (getPrimaryContact SimCA.account) SimCA.saved = (Ok SimCA.account, SimCA.saved).
Proof. apply (account_roundtrip SimCA.le SimCA.account SimCA.start). by vm_compute. Defined.

Lemma deleteAccountLocally_gone_witness :
  deleteAccountLocally SimCA.le SimCA.account SimCA.saved = (Ok tt, SimCA.deleted) ∧
  getAccount SimCA.le (getPrimaryContact SimCA.account) SimCA.deleted =
  newAccount (getPrimaryContact SimCA.account) SimCA.deleted.
Proof.
  assert (deleteAccountLocally SimCA.le SimCA.account SimCA.saved = (Ok tt, SimCA.deleted)) as H
    by (by vm_compute).
  split; [exact H|].
  exact (proj1 (proj2 (deleteAccountLocally_gone SimCA.le SimCA.account SimCA.saved SimCA.deleted H))).
Defined.

Lemma setEmail_settles_witness :
  setEmail true SimCA.asking = (Ok tt, SimCA.asked) ∧
  am_email (a_iss SimCA.asked) = "me@a.com" ∧
  TrimSpace (ToLower (am_email (a_iss SimCA.asked))) = am_email (a_iss SimCA.asked).
Proof.
  assert (setEmail true SimCA.asking = (Ok tt, SimCA.asked)) as H by (by vm_compute).
  split; [exact H|]. split; [by vm_compute|].
  exact (proj1 (setEmail_settles true SimCA.asking SimCA.asked H)).
Defined.
