(* ===== verification/AcmeClient.v ===== *)
(** * The ACME client (acmeclient.go, the rest of account.go)

    How an issuer gets a client for its CA or its test CA, with the solvers of
    the challenges, and an account: loaded from storage, looked up with its key,
    or registered under a lock; the rate limiters in front of a CA. *)

From stdpp Require Import pretty.
From S2P Require Import Prelude GoStrings Certificates Storage Crypto OCSP RateLimiter Config.
From S2P Require Import Cache Manage Handshake Solvers Challenges Account.
Import KeyBuilder.
Open Scope string_scope.

(** [acmeClient]; its issuer is the one of the state. *)
Record acmeClient := MkAcmeClient {
  c_acmeClient : acmezClient;
  c_account : Account
}.

Definition HTTPChallengePort : Z := 80.
Definition TLSALPNChallengePort : Z := 443.

(** The variables of the package that a program may set. *)
Record PackageVars := MkVars {
  HTTPPort : Z;
  HTTPSPort : Z;
  UserAgent : string;
  RateLimitEvents : Z;
  RateLimitEventsWindow : Duration
}.

Create HintDb calls.

Section client.
Context {St N : Type} `{C : !Codec} `{!Storage St} `{A : !ACMENet N}.
Implicit Types (s : St) (am : ACMEIssuer) (w : AState St N) (g : PackageVars).

(** ** The client *)

Definition buildUAString g : string :=
  let ua := "CertMagic" in
  if UserAgent g =? "" then ua else UserAgent g +:+ " " +:+ ua.

Definition getHTTPPort g am : Z :=
  let useHTTPPort := HTTPChallengePort in
  let useHTTPPort := if ((0 <? HTTPPort g) && negb (HTTPPort g =? HTTPChallengePort))%Z
                     then HTTPPort g else useHTTPPort in
  if (0 <? am_AltHTTPPort am)%Z then am_AltHTTPPort am else useHTTPPort.

Definition getTLSALPNPort g am : Z :=
  let useTLSALPNPort := TLSALPNChallengePort in
  let useTLSALPNPort := if ((0 <? HTTPSPort g) && negb (HTTPSPort g =? TLSALPNChallengePort))%Z
                        then HTTPSPort g else useTLSALPNPort in
  if (0 <? am_AltTLSALPNPort am)%Z then am_AltTLSALPNPort am else useTLSALPNPort.

Definition newBasicACMEClient g w : result acmezClient :=
  let caURL := am_CA (a_iss w) in
  let caURL := if caURL =? "" then am_CA (a_DefaultACME w) else caURL in
  let caURL := if Contains caURL "://" then caURL else "https://" +:+ caURL in
  match url_Parse caURL with
  | Err e => Err e
  | Ok u =>
      if negb (url_Scheme u =? "https") && negb (SubjectIsInternal net_ParseIP (url_Host u))
      then Err (Errorf "insecure CA URL (HTTPS required for non-internal CA)")
      else Ok (MkClient caURL (buildUAString g) 0 ∅)
  end.

(** The solvers of a client with the directory [directory]. *)
Definition challengeSolvers g am (directory : string) : gmap string solver_desc :=
  let distributed (solver : solver_desc) := DescDistributed (storageKeyCAPrefix directory) solver in
  let address (port : Z) := JoinHostPort (am_ListenHost am) (pretty port) in
  if am_DNS01Solver am then {[ChallengeTypeDNS01 := DescDNS]}
  else
    let solvers := if am_DisableHTTPChallenge am then ∅
                   else {[ChallengeTypeHTTP01 := distributed (DescHTTP (address (getHTTPPort g am)))]} in
    if am_DisableTLSALPNChallenge am then solvers
    else <[ChallengeTypeTLSALPN01 := distributed (DescTLSALPN (address (getTLSALPNPort g am)))]> solvers.

Definition newACMEClient g (useTestCA : bool) w : result acmezClient :=
  match newBasicACMEClient g w with
  | Err e => Err e
  | Ok client =>
      let am := a_iss w in
      let directory := if useTestCA && negb (am_TestCA am =? "") then am_TestCA am
                       else client_Directory client in
      let certObtainTimeout := if (am_CertObtainTimeout am =? 0)%Z
                               then am_CertObtainTimeout (a_DefaultACME w)
                               else am_CertObtainTimeout am in
      Ok (MkClient directory (client_UserAgent client) certObtainTimeout
            (DescWrapper <$> challengeSolvers g am directory))
  end.

Definition GetRenewalInfo g (cert : Certificate) : ST (AState St N) (result RenewalInfo) := λ w,
  match newBasicACMEClient g w with
  | Err e => (Err e, w)
  | Ok client => on_a_net (acmez_GetRenewalInfo (client_Directory client) (Leaf cert)) w
  end.

(** ** Looking for an account by its key *)

(** The loop over the accounts in storage. *)
Fixpoint account_with_key s (ca : string) (privateKeyPEM : bytes) (accountList : list string) :
    result Account :=
  match accountList with
  | [] => Err ErrNotExist
  | accountFolderKey :: rest =>
      let email := path_Base accountFolderKey in
      match Load s (storageKeyUserPrivateKey ca email) with
      | Err _ => account_with_key s ca privateKeyPEM rest
      | Ok keyBytes =>
          if TrimSpace keyBytes =? TrimSpace privateKeyPEM then loadAccount s ca email
          else account_with_key s ca privateKeyPEM rest
      end
  end.

Definition loadAccountByKey s am (privateKeyPEM : bytes) : result Account :=
  match List s (storageKeyUsersPrefix (am_CA am)) false with
  | Err e => Err e
  | Ok accountList => account_with_key s (am_CA am) privateKeyPEM accountList
  end.

Definition lookUpAccount g (privateKeyPEM : bytes) : ST (AState St N) (result Account) := λ w,
  match newACMEClient g false w with
  | Err _ => (Err (Errorf "creating ACME client"), w)
  | Ok client =>
      match PEMDecodePrivateKey privateKeyPEM with
      | Err _ => (Err (Errorf "decoding private key"), w)
      | Ok privateKey =>
          let directory := client_Directory client in
          match on_a_net (acmez_GetAccount directory (with_key privateKey zeroAccount))
                  (a_record (CallGetAccount directory) w) with
          | (Err _, w) => (Err (Errorf "looking up account with server"), w)
          | (Ok account, w) =>
              match saveAccount directory account w with
              | (Err _, w) => (Err (Errorf "could not save account to storage"), w)
              | (Ok _, w) => (Ok account, w)
              end
          end
      end
  end.

Definition GetAccount g (privateKeyPEM : bytes) : ST (AState St N) (result Account) := λ w,
  let am := a_iss w in
  let email := am_email am in
  if email =? "" then
    match loadAccountByKey (a_storage w) am privateKeyPEM with
    | Ok account => (Ok account, w)
    | Err _ => lookUpAccount g privateKeyPEM w
    end
  else
    match Load (a_storage w) (storageKeyUserPrivateKey (am_CA am) email) with
    | Ok keyBytes =>
        if TrimSpace keyBytes =? TrimSpace privateKeyPEM
        then (loadAccount (a_storage w) (am_CA am) email, w)
        else lookUpAccount g privateKeyPEM w
    | Err _ => lookUpAccount g privateKeyPEM w
    end.

(** ** A client with an account *)

(** The function [getAccount] inside [newACMEClientWithAccount]. *)
Definition clientAccount g (client : acmezClient) : ST (AState St N) (result Account) := λ w,
  match (if am_AccountKeyPEM (a_iss w) =? ""
         then getAccount (client_Directory client) (am_email (a_iss w)) w
         else GetAccount g (am_AccountKeyPEM (a_iss w)) w) with
  | (Err _, w) => (Err (Errorf "getting ACME account"), w)
  | (Ok account, w) => (Ok account, w)
  end.

Definition preRegister (account : Account) : ST (AState St N) (result Account) := λ w,
  if am_NewAccountFunc (a_iss w) then
    let '(r, (am, n)) := x_NewAccountFunc account (a_iss w, a_net w) in
    let w := MkA (a_storage w) (a_locks w) am (a_DefaultACME w) (discoveredEmail w)
               (rateLimiters w) n (a_trace w) in
    match r with
    | Err _ => (Err (Errorf "account pre-registration callback"), w)
    | Ok account => (Ok account, w)
    end
  else (Ok account, w).

Definition agreeToTerms (directory : string) (interactive : bool) :
    ST (AState St N) (result unit) := λ w,
  if interactive then
    if am_agreed (a_iss w) then (Ok tt, w)
    else
      match on_a_net (acmez_GetDirectory directory) w with
      | (Err e, w) => (Err (Wrapf "getting directory" e), w)
      | (Ok termsOfService, w) =>
          if default "" termsOfService =? "" then (Ok tt, w)
          else
            match askUserAgreement w with
            | (false, w) => (Err (Errorf "user must agree to CA terms"), w)
            | (true, w) => (Ok tt, with_iss (set_am_agreed true) w)
            end
      end
  else (Ok tt, with_iss (set_am_agreed true) w).

Definition with_agreed (agreed : bool) (a : Account) : Account :=
  MkAccount (acc_Status a) (acc_Contact a) agreed (acc_Location a) (acc_ExternalAccountBinding a)
    (acc_PrivateKey a).

Definition bindExternalAccount (directory : string) (account : Account) :
    ST (AState St N) (result Account) := λ w,
  match am_ExternalAccount (a_iss w) with
  | None => (Ok account, w)
  | Some eab => on_a_net (acmez_SetExternalAccountBinding directory eab account) w
  end.

(** The registration of a new account, while its lock is held. *)
Definition registerAccount (directory : string) (interactive : bool) (account : Account) :
    ST (AState St N) (result Account) := λ w,
  match preRegister account w with
  | (Err e, w) => (Err e, w)
  | (Ok account, w) =>
      match agreeToTerms directory interactive w with
      | (Err e, w) => (Err e, w)
      | (Ok _, w) =>
          let account := with_agreed (am_agreed (a_iss w)) account in
          match bindExternalAccount directory account w with
          | (Err e, w) => (Err e, w)
          | (Ok account, w) =>
              match on_a_net (acmez_NewAccount directory account)
                      (a_record (CallNewAccount directory account) w) with
              | (Err e, w) => (Err (Wrapf "registering account with server" e), w)
              | (Ok account, w) =>
                  match saveAccount directory account w with
                  | (Err _, w) => (Err (Errorf "could not save account"), w)
                  | (Ok _, w) => (Ok account, w)
                  end
              end
          end
      end
  end.

(** The lock around the registration; the deferred release runs on every way
    out. *)
Definition withRegLock (acctLockKey : string) (body : ST (AState St N) (result Account)) :
    ST (AState St N) (result Account) := λ w,
  match on_a_locks (acquireLock 0 acctLockKey) w with
  | (Err _, w) =>
      (Err (Errorf "locking account registration"), a_record (CallAcmeLock acctLockKey false) w)
  | (Ok _, w) =>
      let '(r, w) := body (a_record (CallAcmeLock acctLockKey true) w) in
      (r, snd (on_a_locks (releaseLock 0 acctLockKey) (a_record (CallAcmeUnlock acctLockKey) w)))
  end.

(** Under the lock: another instance may have registered the account. *)
Definition reloadOrRegister g (client : acmezClient) (interactive : bool) :
    ST (AState St N) (result Account) := λ w,
  match clientAccount g client w with
  | (Err e, w) => (Err e, w)
  | (Ok account, w) =>
      if acc_Status account =? ""
      then registerAccount (client_Directory client) interactive account w
      else (Ok account, w)
  end.

Definition newACMEClientWithAccount g (useTestCA interactive : bool) :
    ST (AState St N) (result acmeClient) := λ w,
  match newACMEClient g useTestCA w with
  | Err e => (Err e, w)
  | Ok client =>
      match clientAccount g client w with
      | (Err e, w) => (Err e, w)
      | (Ok account, w) =>
          let '(r, w) := if acc_Status account =? ""
                         then withRegLock (accountRegLockKey account)
                                (reloadOrRegister g client interactive) w
                         else (Ok account, w) in
          match r with
          | Err e => (Err e, w)
          | Ok account => (Ok (MkAcmeClient client account), w)
          end
      end
  end.

(** ** Using a client *)

Definition with_limiter (key : string) (rl : RingBufferRateLimiter) w : AState St N :=
  MkA (a_storage w) (a_locks w) (a_iss w) (a_DefaultACME w) (discoveredEmail w)
    (<[key := rl]> (rateLimiters w)) (a_net w) (a_trace w).

(** A limiter for a CA and an account; [NewRateLimiter] panics on some values of
    the variables. *)
Definition newLimiter g : option RingBufferRateLimiter :=
  NewRateLimiter (RateLimitEvents g) (RateLimitEventsWindow g).

(** The mutex of the limiters stays locked when making one panics. *)
Definition throttle g (client : acmeClient) : ST (AState St N) (result unit) := λ w,
  let rateLimiterKey := client_Directory (c_acmeClient client) +:+ "," +:+ am_email (a_iss w) in
  match (match rateLimiters w !! rateLimiterKey with Some rl => Some rl | None => newLimiter g end) with
  | None => (Err (Panic "invalid configuration of the rate limiter"), w)
  | Some rl =>
      let w := with_limiter rateLimiterKey rl w in
      match on_a_net (limiter_Wait rl) w with
      | (Err e, w) => (Err e, w)
      | (Ok (ticket, now), w) =>
          (Ok tt, a_record (CallThrottle rateLimiterKey ticket)
                    (with_limiter rateLimiterKey (permit_record now rl) w))
      end
  end.

Definition usingTestCA am (client : acmeClient) : bool :=
  negb (am_TestCA am =? "") && (client_Directory (c_acmeClient client) =? am_TestCA am).

Definition revoke (client : acmeClient) (cert : X509) (reason : Z) : ST (AState St N) (result unit) :=
  on_a_net (acmez_RevokeCertificate (client_Directory (c_acmeClient client)) (c_account client) cert reason).
End client.

(** ** Theorems *)

Section client_theorems.
Context {St N : Type} `{C : !Codec} `{CL : !CodecLaws} `{!Storage St} `{!StorageLaws St}
  `{A : !ACMENet N} `{AL : !ACMELaws N}.
Implicit Types (w : AState St N) (g : PackageVars).

(** *** What the calls record *)

(** The calls made between two states satisfy [P], and the lock table is
    untouched. *)
Definition calls (P : acme_call → Prop) w w' : Prop :=
  a_locks w' = a_locks w ∧ ∃ t, a_trace w' = (a_trace w ++ t)%list ∧ Forall P t.

(** Neither calls nor locks. *)
Definition silent w w' : Prop := a_locks w' = a_locks w ∧ a_trace w' = a_trace w.

Lemma calls_silent P w w' : silent w w' → calls P w w'.
Proof. intros [Hl Ht]. split; [done|]. exists []. by rewrite app_nil_r. Qed.
Lemma calls_refl P w : calls P w w.
Proof. by apply calls_silent. Qed.
Lemma calls_record (P : acme_call → Prop) c w : P c → calls P w (a_record c w).
Proof. intros Hc. split; [done|]. exists [c]. auto. Qed.
Lemma calls_trans P w1 w2 w3 : calls P w1 w2 → calls P w2 w3 → calls P w1 w3.
Proof.
  intros (L1 & t & E1 & Ht) (L2 & u & E2 & Hu). split; [congruence|].
  exists (t ++ u)%list. split; [by rewrite E2, E1, app_assoc|]. by apply Forall_app.
Qed.
Lemma calls_impl (P Q : acme_call → Prop) w w' : (∀ c, P c → Q c) → calls P w w' → calls Q w w'.
Proof. intros H (L & t & E & Ht). split; [done|]. exists t. split; [done|]. eapply Forall_impl; eauto. Qed.

Definition a_lookup (c : acme_call) : Prop := ∃ d, c = CallGetAccount d.

Lemma on_a_net_silent {T} (m : ST N T) w r w' : on_a_net m w = (r, w') → silent w w'.
Proof. unfold on_a_net. destruct (m (a_net w)). by intros [= _ <-]. Qed.
Lemma on_a_storage_silent {T} (m : ST St T) w r w' : on_a_storage m w = (r, w') → silent w w'.
Proof. unfold on_a_storage. destruct (m (a_storage w)). by intros [= _ <-]. Qed.
Lemma saveAccount_silent ca a w r w' : saveAccount ca a w = (r, w') → silent w w'.
Proof.
  unfold saveAccount. destruct (json_MarshalAccount a); [|by intros [= _ <-]].
  destruct (PEMEncodePrivateKey _); [|by intros [= _ <-]]. apply on_a_storage_silent.
Qed.

#[local] Hint Resolve calls_refl calls_silent calls_record : calls.

Lemma lookUpAccount_calls g pem w r w' : lookUpAccount g pem w = (r, w') → calls a_lookup w w'.
Proof.
  unfold lookUpAccount. destruct (newACMEClient g false w) as [client|]; [|intros [= _ <-]; auto with calls].
  destruct (PEMDecodePrivateKey pem); [|intros [= _ <-]; auto with calls].
  intros H. eapply calls_trans; [apply calls_record; by eexists|].
  destruct (on_a_net _ _) as [[acct|] w1] eqn:E; apply on_a_net_silent in E.
  2: { injection H as _ <-. by apply calls_silent. }
  eapply calls_trans; [by apply calls_silent|]. apply calls_silent.
  destruct (saveAccount _ _ w1) as [[u|] w2] eqn:E2; apply saveAccount_silent in E2; by injection H as _ <-.
Qed.

Lemma GetAccount_calls g pem w r w' : GetAccount g pem w = (r, w') → calls a_lookup w w'.
Proof.
  unfold GetAccount. destruct (_ =? "").
  - destruct (loadAccountByKey _ _ _); [intros [= _ <-]; auto with calls|apply lookUpAccount_calls].
  - destruct (Load _ _); [|apply lookUpAccount_calls].
    destruct (_ =? _); [intros [= _ <-]; auto with calls|apply lookUpAccount_calls].
Qed.

Lemma clientAccount_calls g client w r w' :
  clientAccount g client w = (r, w') → calls a_lookup w w'.
Proof.
  unfold clientAccount. destruct (_ =? "").
  - destruct (getAccount _ _ w) as [[acct|] w1] eqn:E;
      apply getAccount_other in E as (_ & _ & _ & Ht & Hl & _); intros [= _ <-]; by apply calls_silent.
  - destruct (GetAccount _ _ w) as [[acct|] w1] eqn:E; apply GetAccount_calls in E; by intros [= _ <-].
Qed.

(** *** Registration *)

Definition a_prompt (c : acme_call) : Prop := c = CallPrompt.
Definition is_registration (c : acme_call) : bool :=
  match c with CallNewAccount _ _ => true | _ => false end.
Definition registrations (t : list acme_call) : nat := length (List.filter is_registration t).
Definition account_call (c : acme_call) : bool :=
  match c with CallNewAccount _ _ | CallGetAccount _ | CallPrompt => true | _ => false end.

Lemma askUserAgreement_calls w r w' : askUserAgreement w = (r, w') → calls a_prompt w w'.
Proof.
  unfold askUserAgreement. intros H. eapply calls_trans; [by apply (calls_record _ CallPrompt)|].
  apply calls_silent. destruct (on_a_net _ _) as [[l|l|] w1] eqn:E; apply on_a_net_silent in E;
    by injection H as _ <-.
Qed.

Lemma agreeToTerms_calls d i w r w' : agreeToTerms d i w = (r, w') → calls a_prompt w w'.
Proof.
  unfold agreeToTerms. destruct i; [|intros [= _ <-]; by apply calls_silent].
  destruct (am_agreed _); [intros [= _ <-]; auto with calls|].
  destruct (on_a_net _ w) as [[terms|] w1] eqn:E; apply on_a_net_silent in E;
    [|intros [= _ <-]; auto with calls].
  intros H. eapply calls_trans; [by apply calls_silent|]. destruct (default "" terms =? "").
  - injection H as _ <-. auto with calls.
  - destruct (askUserAgreement w1) as [[] w2] eqn:E2; apply askUserAgreement_calls in E2;
      injection H as _ <-; [|done]. eapply calls_trans; [done|]. by apply calls_silent.
Qed.

Lemma preRegister_silent a w r w' : preRegister a w = (r, w') → silent w w'.
Proof.
  unfold preRegister. destruct (am_NewAccountFunc _); [|by intros [= _ <-]].
  destruct (x_NewAccountFunc _ _) as [[acct|] [am n]]; by intros [= _ <-].
Qed.

Lemma bindExternalAccount_silent d a w r w' : bindExternalAccount d a w = (r, w') → silent w w'.
Proof.
  unfold bindExternalAccount. destruct (am_ExternalAccount _); [apply on_a_net_silent|by intros [= _ <-]].
Qed.

Lemma bindExternalAccount_contact d a w a' w' :
  bindExternalAccount d a w = (Ok a', w') → acc_Contact a' = acc_Contact a.
Proof using AL.
  unfold bindExternalAccount, on_a_net. destruct (am_ExternalAccount _); [|by intros [= <- _]].
  destruct (acmez_SetExternalAccountBinding _ _ _ _) as [ra n] eqn:E. intros [= -> _].
  by eapply acmez_SetExternalAccountBinding_contact.
Qed.

(** The account [acct] is one with the contacts of [a], after the external
    account is bound to it. *)
Definition bound_from (d : string) (a acct : Account) : Prop :=
  ∃ a1 w w' , acc_Contact a1 = acc_Contact a ∧ bindExternalAccount d a1 w = (Ok acct, w').

(** Registering asks the user at most and then creates at most one account. *)
Lemma registerAccount_calls d i a w r w' :
  registerAccount d i a w = (r, w') →
  calls a_prompt w w' ∨
  ∃ w1 acct, calls a_prompt w w1 ∧ silent (a_record (CallNewAccount d acct) w1) w' ∧
    (am_NewAccountFunc (a_iss w) = false → bound_from d a acct).
Proof.
  unfold registerAccount. intros H.
  destruct (preRegister a w) as [[a1|] w1] eqn:E1; pose proof (preRegister_silent _ _ _ _ E1) as S1.
  2: { injection H as _ <-. auto with calls. }
  assert (am_NewAccountFunc (a_iss w) = false → acc_Contact a1 = acc_Contact a) as Ha1.
  { intros Hf. unfold preRegister in E1. rewrite Hf in E1. by injection E1 as <- _. }
  clear E1. rename S1 into E1.
  destruct (agreeToTerms d i w1) as [[[]|] w2] eqn:E2; apply agreeToTerms_calls in E2.
  all: apply (calls_trans _ _ _ _ (calls_silent a_prompt _ _ E1)) in E2.
  2: { injection H as _ <-. by left. }
  destruct (bindExternalAccount d _ w2) as [[a3|] w3] eqn:E3;
    pose proof E3 as Ha3; apply bindExternalAccount_silent in E3.
  all: apply (calls_silent a_prompt), (calls_trans _ _ _ _ E2) in E3.
  2: { injection H as _ <-. by left. }
  right. exists w3, a3. split; [done|]. split; [|intros Hf; do 3 eexists; split; [|exact Ha3]; by apply Ha1].
  destruct (on_a_net _ _) as [[a4|] w4] eqn:E4; apply on_a_net_silent in E4.
  2: { by injection H as _ <-. }
  destruct (saveAccount d a4 w4) as [[u|] w5] eqn:E5; apply saveAccount_silent in E5;
    injection H as _ <-; destruct E4, E5; split; congruence.
Qed.

Lemma on_a_locks_other (release : bool) k w r w' :
  on_a_locks (if release then releaseLock 0 k else acquireLock 0 k) w = (r, w') →
  a_trace w' = a_trace w ∧ a_iss w' = a_iss w ∧ a_DefaultACME w' = a_DefaultACME w ∧
  ∀ k', k' ≠ k → a_locks w' !! k' = a_locks w !! k'.
Proof.
  unfold on_a_locks, releaseLock, acquireLock. intros H.
  destruct release; simpl in H;
    [destruct (Unlock k (a_storage w)) as [u s]|destruct (Lock k (a_storage w)) as [u s]];
    injection H as _ <-; simpl; repeat split; intros k' Hne; destruct (is_Ok u); try done;
    [by rewrite lookup_delete_ne|by rewrite lookup_insert_ne].
Qed.

(** The lock of registration could not be had and nothing came of it; or it
    was had, and between it and its release there are only calls about accounts,
    at most one of them a registration. *)
Definition registering (k : string) (ok : bool) (t : list acme_call) : Prop :=
  (t = [CallAcmeLock k false] ∧ ok = false) ∨
  ∃ body, t = (CallAcmeLock k true :: body ++ [CallAcmeUnlock k])%list ∧
    Forall (λ c, account_call c = true) body ∧ (registrations body ≤ 1)%nat.

Lemma registrations_none (P : acme_call → Prop) t :
  (∀ c, P c → is_registration c = false) → Forall P t → registrations t = 0%nat.
Proof.
  intros HP. unfold registrations. induction 1 as [|c t Hc _ IH]; [done|]. simpl.
  by rewrite (HP c Hc).
Qed.

Lemma registrations_app t u : registrations (t ++ u) = (registrations t + registrations u)%nat.
Proof. unfold registrations. by rewrite List.filter_app, length_app. Qed.

Lemma lookup_no_reg c : a_lookup c → is_registration c = false.
Proof. by intros [d ->]. Qed.
Lemma prompt_no_reg c : a_prompt c → is_registration c = false.
Proof. by intros ->. Qed.

Lemma lookup_account_calls t : Forall a_lookup t → Forall (λ c, account_call c = true) t.
Proof. intros H. eapply Forall_impl; [exact H|]. by intros c [d ->]. Qed.
Lemma prompt_account_calls t : Forall a_prompt t → Forall (λ c, account_call c = true) t.
Proof. intros H. eapply Forall_impl; [exact H|]. by intros c ->. Qed.

(** The accounts that are registered among calls. *)
Definition registered_in (t : list acme_call) (d : string) (acct : Account) : Prop :=
  CallNewAccount d acct ∈ t.

Lemma not_registered_in (P : acme_call → Prop) t d acct :
  (∀ c, P c → is_registration c = false) → Forall P t → ¬ registered_in t d acct.
Proof. intros HP Ht Hin. eapply Forall_forall in Ht; [|exact Hin]. by apply HP in Ht. Qed.

Lemma reloadOrRegister_calls g client i w r w' :
  reloadOrRegister g client i w = (r, w') →
  a_locks w' = a_locks w ∧
  ∃ t, a_trace w' = (a_trace w ++ t)%list ∧
    Forall (λ c, account_call c = true) t ∧ (registrations t ≤ 1)%nat ∧
    ∀ d acct, registered_in t d acct → d = client_Directory client ∧
      ∃ a w1, clientAccount g client w = (Ok a, w1) ∧ acc_Status a = "" ∧
        (am_NewAccountFunc (a_iss w1) = false → bound_from d a acct).
Proof.
  unfold reloadOrRegister. intros H.
  destruct (clientAccount g client w) as [ra w1] eqn:E1.
  apply clientAccount_calls in E1 as (L1 & t & T1 & P1).
  pose proof (registrations_none _ _ lookup_no_reg P1) as R1.
  assert (∀ d acct, ¬ registered_in t d acct) as N1 by (intros; by eapply not_registered_in, P1; apply lookup_no_reg).
  apply lookup_account_calls in P1.
  assert ((∃ e, ra = Err e) ∨ (r, w') = (ra, w1) ∨
          ∃ a, ra = Ok a ∧ acc_Status a = "" ∧ registerAccount (client_Directory client) i a w1 = (r, w'))
    as [[e ->]|[E|(a & -> & Hst & Hr)]].
  { destruct ra as [a|e]; [|eauto]. right. destruct (String.eqb_spec (acc_Status a) ""); eauto. }
  - injection H as _ <-. split; [done|]. exists t. rewrite R1. repeat split; auto; by edestruct N1.
  - injection E as _ ->. split; [done|]. exists t. rewrite R1. repeat split; auto; by edestruct N1.
  - apply registerAccount_calls in Hr as [(L2 & u & T2 & P2)|(w2 & acct & (L2 & u & T2 & P2) & [L3 T3] & Hc)];
      pose proof (registrations_none _ _ prompt_no_reg P2) as R2;
      assert (∀ d acct, ¬ registered_in u d acct) as N2
        by (intros; by eapply not_registered_in, P2; apply prompt_no_reg);
      apply prompt_account_calls in P2.
    + split; [congruence|]. exists (t ++ u)%list. rewrite registrations_app, R1, R2, T2, T1, app_assoc.
      split; [done|]. split; [by apply Forall_app|]. split; [lia|].
      intros d acct [Hin|Hin]%elem_of_app; [by edestruct N1|by edestruct N2].
    + simpl in L3, T3. split; [congruence|].
      exists (t ++ u ++ [CallNewAccount (client_Directory client) acct])%list.
      rewrite !registrations_app, R1, R2, T3, T2, T1, !app_assoc.
      split; [done|]. split; [rewrite !Forall_app; auto|]. split; [done|].
      intros d acct' [[Hin|Hin]%elem_of_app|Hin%list_elem_of_singleton]%elem_of_app;
        [by edestruct N1|by edestruct N2|].
      injection Hin as -> ->. split; [done|]. by exists a, w1.
Qed.

(** What [newACMEClientWithAccount] does besides looking up accounts: nothing, or
    an account without a status was found or made, and it is registered under
    its lock. *)
Lemma newACMEClientWithAccount_calls g useTestCA interactive w r w' :
  newACMEClientWithAccount g useTestCA interactive w = (r, w') →
  ∃ before t, a_trace w' = (a_trace w ++ before ++ t)%list ∧ Forall a_lookup before ∧
    (t = [] ∧ a_locks w' = a_locks w ∨
     ∃ client account w1 rl w2, let k := accountRegLockKey account in
       newACMEClient g useTestCA w = Ok client ∧ clientAccount g client w = (Ok account, w1) ∧
       acc_Status account = "" ∧ on_a_locks (acquireLock 0 k) w1 = (rl, w2) ∧
       registering k (is_Ok r) t ∧ (∀ k', k' ≠ k → a_locks w' !! k' = a_locks w !! k') ∧
       ∀ d acct, registered_in t d acct → d = client_Directory client ∧
         ∃ a w3, clientAccount g client (a_record (CallAcmeLock k true) w2) = (Ok a, w3) ∧
           acc_Status a = "" ∧ (am_NewAccountFunc (a_iss w3) = false → bound_from d a acct)).
Proof.
  unfold newACMEClientWithAccount. intros H.
  assert (∀ w1, calls a_lookup w w1 → w' = w1 →
    ∃ before t, a_trace w' = (a_trace w ++ before ++ t)%list ∧ Forall a_lookup before ∧
      (t = [] ∧ a_locks w' = a_locks w)) as Hquiet.
  { intros w1 (L & t & T & P) ->. exists t, []. by rewrite app_nil_r. }
  assert (∀ P : _ → _ → Prop, (∃ before t, a_trace w' = (a_trace w ++ before ++ t)%list ∧
      Forall a_lookup before ∧ (t = [] ∧ a_locks w' = a_locks w)) →
    ∃ before t, a_trace w' = (a_trace w ++ before ++ t)%list ∧ Forall a_lookup before ∧
      (t = [] ∧ a_locks w' = a_locks w ∨ P before t)) as Hleft.
  { intros P (before & t & ? & ? & ?). exists before, t. auto. }
  destruct (newACMEClient g useTestCA w) as [client|].
  2: { injection H as _ <-. apply Hleft, (Hquiet w); [apply calls_refl|done]. }
  destruct (clientAccount g client w) as [[a|] w1] eqn:Eca;
    pose proof (clientAccount_calls _ _ _ _ _ Eca) as E1.
  2: { injection H as _ <-. apply Hleft. by eapply Hquiet. }
  destruct (String.eqb_spec (acc_Status a) "") as [Hst|_].
  2: { injection H as _ <-. apply Hleft. by eapply Hquiet. }
  clear Hleft Hquiet. destruct E1 as (L1 & before & T1 & P1). exists before.
  unfold withRegLock in H. set (k := accountRegLockKey a) in *.
  destruct (on_a_locks (acquireLock 0 k) w1) as [ra w2] eqn:E2.
  pose proof (on_a_locks_other false _ _ _ _ E2) as (T2 & _ & _ & L2).
  destruct ra as [[]|e].
  2: { injection H as <- <-. exists [CallAcmeLock k false]. simpl. rewrite T2, T1, app_assoc.
       split; [done|]. split; [done|]. right. exists client, a, w1, (Err e), w2.
       split; [done|]. split; [done|]. split; [done|]. split; [done|]. split; [by left|].
       split; [intros k' Hk; by rewrite L2, L1|]. by intros ? ? ?%list_elem_of_singleton. }
  destruct (reloadOrRegister g client interactive _) as [rb w3] eqn:E3.
  apply reloadOrRegister_calls in E3 as (L3 & body & T3 & P3 & R3 & N3). simpl in L3, T3.
  destruct (on_a_locks (releaseLock 0 k) _) as [ru w4] eqn:E4.
  apply (on_a_locks_other true) in E4 as (T4 & _ & _ & L4). simpl in T4, L4, H.
  assert (w' = w4) as -> by (destruct rb; by injection H).
  exists (CallAcmeLock k true :: body ++ [CallAcmeUnlock k])%list.
  rewrite T4, T3, T2, T1. split; [by rewrite <-!app_assoc|]. split; [done|]. right.
  exists client, a, w1, (Ok tt), w2. split; [done|]. split; [done|]. split; [done|]. split; [done|].
  split; [right; eauto|]. split; [intros k' Hk; by rewrite L4, L3, L2, L1|].
  intros d acct [Hin|[Hin|Hin%list_elem_of_singleton]%elem_of_app]%elem_of_cons; [done|by apply N3|done].
Qed.

(** No order is made on the way. *)
Lemma newACMEClientWithAccount_no_order g useTestCA i w r w' :
  newACMEClientWithAccount g useTestCA i w = (r, w') →
  ∃ t, a_trace w' = (a_trace w ++ t)%list ∧
    Forall (λ c, match c with CallObtain _ _ _ _ | CallThrottle _ _ => False | _ => True end) t.
Proof.
  intros (before & t & T & Hb & Hr)%newACMEClientWithAccount_calls. exists (before ++ t)%list.
  split; [done|]. apply Forall_app. split.
  - eapply Forall_impl; [exact Hb|]. by intros c [d ->].
  - destruct Hr as [[-> _]|(client & a & w1 & rl & w2 & _ & _ & _ & _ & [[-> _]|(body & -> & Hbody & _)] & _)];
      [done|by repeat constructor|].
    constructor; [done|]. apply Forall_app. split; [|by repeat constructor].
    eapply Forall_impl; [exact Hbody|]. by intros [].
Qed.

(** *** The account is found again *)

(** The issuer is the same but for the agreement to the terms. *)
Definition kept w w' : Prop :=
  (∃ b, a_iss w' = set_am_agreed b (a_iss w)) ∧ a_DefaultACME w' = a_DefaultACME w.

Lemma kept_same w w' : a_iss w' = a_iss w → a_DefaultACME w' = a_DefaultACME w → kept w w'.
Proof. intros Hi Hd. split; [|done]. exists (am_agreed (a_iss w)). rewrite Hi. by destruct (a_iss w). Qed.
Lemma kept_trans w1 w2 w3 : kept w1 w2 → kept w2 w3 → kept w1 w3.
Proof. intros [[b H1] D1] [[c H2] D2]. split; [exists c; by rewrite H2, H1|congruence]. Qed.

Lemma kept_client g useTestCA w w' :
  kept w w' → newACMEClient g useTestCA w' = newACMEClient g useTestCA w.
Proof.
  intros [[b Hi] Hd]. unfold newACMEClient, newBasicACMEClient, challengeSolvers, getHTTPPort, getTLSALPNPort.
  by rewrite Hi, Hd.
Qed.

Lemma on_a_net_kept {T} (m : ST N T) w r w' : on_a_net m w = (r, w') → kept w w'.
Proof. unfold on_a_net. destruct (m (a_net w)). intros [= _ <-]. by apply kept_same. Qed.
Lemma saveAccount_kept ca a w r w' : saveAccount ca a w = (r, w') → kept w w'.
Proof.
  unfold saveAccount, on_a_storage. destruct (json_MarshalAccount a); [|intros [= _ <-]; by apply kept_same].
  destruct (PEMEncodePrivateKey _); [|intros [= _ <-]; by apply kept_same].
  destruct (storeTx _ _). intros [= _ <-]. by apply kept_same.
Qed.
Lemma agreeToTerms_kept d i w r w' : agreeToTerms d i w = (r, w') → kept w w'.
Proof.
  unfold agreeToTerms, askUserAgreement. intros H.
  assert (∀ w1 b, kept w w1 → kept w (with_iss (set_am_agreed b) w1)) as Hset.
  { intros w1 b [[c Hi] Hd]. split; [|done]. exists b. simpl. by rewrite Hi. }
  destruct i; [|injection H as _ <-; apply Hset; by apply kept_same].
  destruct (am_agreed _); [injection H as _ <-; by apply kept_same|].
  destruct (on_a_net _ w) as [[terms|] w1] eqn:E; apply on_a_net_kept in E; [|by injection H as _ <-].
  destruct (_ =? ""); [by injection H as _ <-|].
  destruct (on_a_net stdin_ReadLine _) as [l w2] eqn:E2. apply on_a_net_kept in E2.
  apply (kept_trans _ _ _ E) in E2.
  destruct l as [s|s|]; [destruct (_ || _)|..]; injection H as _ <-; auto.
Qed.

Lemma bindExternalAccount_kept d a w r w' : bindExternalAccount d a w = (r, w') → kept w w'.
Proof.
  unfold bindExternalAccount. destruct (am_ExternalAccount _); [apply on_a_net_kept|].
  intros [= _ <-]. by apply kept_same.
Qed.

Lemma saveAccount_found ca a w w' :
  saveAccount ca a w = (Ok tt, w') → loadAccount (a_storage w') ca (getPrimaryContact a) = Ok a.
Proof. intros H. by apply saveAccount_load in H. Qed.

Lemma registerAccount_kept d i a w r w' :
  am_NewAccountFunc (a_iss w) = false → registerAccount d i a w = (r, w') → kept w w'.
Proof.
  unfold registerAccount, preRegister. intros -> H.
  destruct (agreeToTerms d i w) as [[[]|] w2] eqn:E2; apply agreeToTerms_kept in E2; [|by injection H as _ <-].
  destruct (bindExternalAccount d _ w2) as [[a3|] w3] eqn:E3;
    apply bindExternalAccount_kept, (kept_trans _ _ _ E2) in E3; [|by injection H as _ <-].
  destruct (on_a_net _ _) as [[a4|] w4] eqn:E4; apply on_a_net_kept in E4.
  2: { injection H as _ <-. eapply kept_trans; [exact E3|]. exact E4. }
  destruct (saveAccount d a4 w4) as [[u|] w5] eqn:E5; apply saveAccount_kept, (kept_trans _ _ _ E4) in E5;
    injection H as _ <-; (eapply kept_trans; [exact E3|exact E5]).
Qed.

Lemma registerAccount_found d i a w a' w' :
  am_NewAccountFunc (a_iss w) = false →
  registerAccount d i a w = (Ok a', w') →
  kept w w' ∧ acc_Status a' ≠ "" ∧ loadAccount (a_storage w') d (getPrimaryContact a') = Ok a'.
Proof.
  unfold registerAccount, preRegister. intros -> H.
  destruct (agreeToTerms d i w) as [[[]|] w2] eqn:E2; [|done]. apply agreeToTerms_kept in E2.
  destruct (bindExternalAccount d _ w2) as [[a3|] w3] eqn:E3; [|done].
  apply bindExternalAccount_kept, (kept_trans _ _ _ E2) in E3.
  destruct (on_a_net _ _) as [[a4|] w4] eqn:E4; [|done].
  assert (acc_Status a4 ≠ "") as Hs.
  { unfold on_a_net in E4. destruct (acmez_NewAccount d a3 _) as [ra n] eqn:En. injection E4 as -> _.
    by apply acmez_NewAccount_Ok in En as [? _]. }
  apply on_a_net_kept in E4.
  destruct (saveAccount d a4 w4) as [[[]|] w5] eqn:E5; [|done]. injection H as <- <-.
  pose proof (saveAccount_found _ _ _ _ E5). apply saveAccount_kept, (kept_trans _ _ _ E4) in E5.
  split; [|done]. eapply kept_trans; [exact E3|]. exact E5.
Qed.

(** A stored account is still found after a lock is released. *)
Lemma loadAccount_contents s s' ca email a :
  Storage.contents s' = Storage.contents s → loadAccount s ca email = Ok a → loadAccount s' ca email = Ok a.
Proof.
  intros Hc. unfold loadAccount.
  pose proof (Load_spec s (storageKeyUserReg ca email)) as H1.
  pose proof (Load_spec s (storageKeyUserPrivateKey ca email)) as H2.
  pose proof (Load_spec s' (storageKeyUserReg ca email)) as H3.
  pose proof (Load_spec s' (storageKeyUserPrivateKey ca email)) as H4. rewrite Hc in H3, H4.
  destruct (Storage.contents s !! storageKeyUserReg ca email); [|by destruct H1 as (e & -> & _)].
  rewrite H1, H3.
  destruct (Storage.contents s !! storageKeyUserPrivateKey ca email); [|by destruct H2 as (e & -> & _)].
  by rewrite H2, H4.
Qed.

(** Without a configured key: an account that has a status was loaded. *)
Lemma clientAccount_registered g client w a w' :
  am_AccountKeyPEM (a_iss w) = "" →
  clientAccount g client w = (Ok a, w') → acc_Status a ≠ "" →
  w' = w ∧ loadAccount (a_storage w) (client_Directory client) (am_email (a_iss w)) = Ok a.
Proof.
  intros Hk. unfold clientAccount, getAccount, newAccount. rewrite Hk. simpl.
  destruct (loadAccount _ _ _) as [acct|e]; [by intros [= <- <-]|].
  destruct (errors_Is e ErrNotExist); [|done]. destruct (on_a_net _ w) as [[key|] w1]; [|done].
  by intros [= <- _].
Qed.

Lemma clientAccount_loaded g client w a :
  am_AccountKeyPEM (a_iss w) = "" →
  loadAccount (a_storage w) (client_Directory client) (am_email (a_iss w)) = Ok a →
  clientAccount g client w = (Ok a, w).
Proof. intros Hk Hl. unfold clientAccount, getAccount. rewrite Hk. simpl. by rewrite Hl. Qed.

Lemma lookUpAccount_kept g pem w r w' : lookUpAccount g pem w = (r, w') → kept w w'.
Proof.
  unfold lookUpAccount. destruct (newACMEClient g false w); [|intros [= _ <-]; by apply kept_same].
  destruct (PEMDecodePrivateKey pem); [|intros [= _ <-]; by apply kept_same].
  destruct (on_a_net _ _) as [[acct|] w1] eqn:E; apply on_a_net_kept in E; [|by intros [= _ <-]].
  destruct (saveAccount _ _ w1) as [[u|] w2] eqn:E2; apply saveAccount_kept, (kept_trans _ _ _ E) in E2;
    by intros [= _ <-].
Qed.

Lemma clientAccount_kept g client w r w' : clientAccount g client w = (r, w') → kept w w'.
Proof.
  unfold clientAccount. intros H.
  assert (∃ ra, (if am_AccountKeyPEM (a_iss w) =? ""
                 then getAccount (client_Directory client) (am_email (a_iss w)) w
                 else GetAccount g (am_AccountKeyPEM (a_iss w)) w) = (ra, w')) as [ra E].
  { destruct (if _ =? "" then _ else _) as [[acct|] w1]; injection H as _ <-; by eexists. }
  destruct (_ =? "").
  - apply getAccount_other in E as (Hi & _ & Hd & _). by apply kept_same.
  - unfold GetAccount in E. destruct (_ =? "").
    + destruct (loadAccountByKey _ _ _); [injection E as _ <-; by apply kept_same|by eapply lookUpAccount_kept].
    + destruct (Load _ _); [|by eapply lookUpAccount_kept].
      destruct (_ =? _); [injection E as _ <-; by apply kept_same|by eapply lookUpAccount_kept].
Qed.

(** Storage has an account of the address that was never registered. *)
Definition unregistered (client : acmezClient) (email : string) w : Prop :=
  ∃ a, loadAccount (a_storage w) (client_Directory client) email = Ok a ∧ acc_Status a = "".

(** Without a configured key, an account without a status is from storage, or
    new. *)
Lemma clientAccount_new g client w a w' :
  am_AccountKeyPEM (a_iss w) = "" →
  clientAccount g client w = (Ok a, w') → acc_Status a = "" →
  unregistered client (am_email (a_iss w)) w ∨
  acc_Contact a = if am_email (a_iss w) =? "" then [] else ["mailto:" +:+ am_email (a_iss w)].
Proof.
  intros Hk. unfold clientAccount, getAccount, newAccount. rewrite Hk. simpl. intros H Hs.
  destruct (loadAccount _ _ _) as [acct|e] eqn:El.
  - injection H as -> ->. left. by exists a.
  - destruct (errors_Is e ErrNotExist); [|done]. destruct (on_a_net _ w) as [[key|] w1]; [|done].
    injection H as <- _. by right.
Qed.

(** (C22) Accounts are registered under the lock of their address, and at most
    one by each call. The calls of [newACMEClientWithAccount] begin with lookups
    of accounts. Then there is nothing, and the lock table is what it was; or an
    account without a status was found or made, its lock could not be had, and
    the call fails with nothing registered; or its lock was had, and before its
    release come calls about accounts, among them at most one registration, with
    the CA of the client. Other locks are untouched. When neither a key nor the
    callback for new accounts is configured, the lock of the account that is
    registered is the one that is held, unless storage has an account without a
    status under the address, before the lock or with it. *)
Theorem registration_under_lock g useTestCA interactive w r w' :
  newACMEClientWithAccount g useTestCA interactive w = (r, w') →
  ∃ before t, a_trace w' = (a_trace w ++ before ++ t)%list ∧ Forall a_lookup before ∧
    (t = [] ∧ a_locks w' = a_locks w ∨
     ∃ client account w1 rl w2, let k := accountRegLockKey account in
       newACMEClient g useTestCA w = Ok client ∧ clientAccount g client w = (Ok account, w1) ∧
       acc_Status account = "" ∧ on_a_locks (acquireLock 0 k) w1 = (rl, w2) ∧
       registering k (is_Ok r) t ∧ (∀ k', k' ≠ k → a_locks w' !! k' = a_locks w !! k') ∧
       ∀ d acct, registered_in t d acct → d = client_Directory client ∧
         (am_AccountKeyPEM (a_iss w) = "" → am_NewAccountFunc (a_iss w) = false →
          accountRegLockKey acct = k ∨
          unregistered client (am_email (a_iss w)) w ∨ unregistered client (am_email (a_iss w)) w2)).
Proof using AL.
  intros (before & t & T & Hb & Hr)%newACMEClientWithAccount_calls. exists before, t.
  split; [done|]. split; [done|].
  destruct Hr as [Hr|(client & a & w1 & rl & w2 & Hcl & Ha & Hs & Hl & Hreg & Hk & Hin)]; [by left|].
  right. exists client, a, w1, rl, w2. split_and!; [done..|]. intros d acct Hacct.
  destruct (Hin d acct Hacct) as [Hd (a2 & w3 & Ha2 & Hs2 & Hc)]. split; [done|]. intros Hpem Hf.
  pose proof (clientAccount_kept _ _ _ _ _ Ha) as [[b I1] _].
  pose proof (on_a_locks_other false _ _ _ _ Hl) as (_ & I2 & _). rewrite I1 in I2.
  pose proof (clientAccount_kept _ _ _ _ _ Ha2) as [[b3 I3] _]. simpl in I3. rewrite I2 in I3.
  apply clientAccount_new in Ha as [?|E1]; [by right; left| |done..].
  apply clientAccount_new in Ha2 as [Hu|E2]; [| |by simpl; rewrite I2|done].
  { right. right. simpl in Hu. by rewrite I2 in Hu. }
  left. simpl in E2. rewrite I2 in E2.
  destruct Hc as (a3 & wb & wb' & E3 & E4%bindExternalAccount_contact); [by rewrite I3|].
  unfold accountRegLockKey, getPrimaryContact. by rewrite E4, E3, E2, E1.
Qed.

(** What the locked part leaves: an account stored under the issuer's address
    or under its own primary contact. *)
Lemma reloadOrRegister_found g client i w a w' :
  am_AccountKeyPEM (a_iss w) = "" → am_NewAccountFunc (a_iss w) = false →
  reloadOrRegister g client i w = (Ok a, w') →
  kept w w' ∧ acc_Status a ≠ "" ∧
  ∃ email, (email = am_email (a_iss w) ∨ email = getPrimaryContact a) ∧
    loadAccount (a_storage w') (client_Directory client) email = Ok a.
Proof.
  intros Hk Hf. unfold reloadOrRegister.
  destruct (clientAccount g client w) as [[acct|] w1] eqn:E; [|done].
  destruct (String.eqb_spec (acc_Status acct) "") as [Hs|Hs].
  - apply clientAccount_kept in E. intros H.
    apply registerAccount_found in H as (Hkept & Hst & Hl).
    + split; [by eapply kept_trans|]. split; [done|]. exists (getPrimaryContact a). auto.
    + destruct E as [[b ->] _]. done.
  - intros [= <- <-]. apply clientAccount_registered in E as [-> Hl]; [|done|done].
    split; [by apply kept_same|]. split; [done|]. exists (am_email (a_iss w)). auto.
Qed.

Lemma withRegLock_found k body w a w' :
  withRegLock k body w = (Ok a, w') →
  ∃ w1 w2, kept w w1 ∧ body w1 = (Ok a, w2) ∧ kept w2 w' ∧
    Storage.contents (a_storage w') = Storage.contents (a_storage w2).
Proof.
  unfold withRegLock. intros H.
  destruct (on_a_locks (acquireLock 0 k) _) as [[[]|] w1] eqn:E1; [|done].
  apply (on_a_locks_other false) in E1 as (_ & I1 & D1 & _).
  destruct (body _) as [r w2] eqn:E2. injection H as -> <-.
  exists (a_record (CallAcmeLock k true) w1), w2. split; [by apply kept_same|]. split; [done|].
  destruct (on_a_locks (releaseLock 0 k) _) as [ru w3] eqn:E3. simpl.
  pose proof E3 as (_ & I3 & D3 & _)%(on_a_locks_other true). split; [by apply kept_same|].
  unfold on_a_locks, releaseLock in E3. simpl in E3.
  destruct (Unlock k (a_storage w2)) as [u s] eqn:Eu. injection E3 as _ <-. simpl.
  by eapply Unlock_contents.
Qed.

Lemma newACMEClientWithAccount_kept g useTestCA i w r w' :
  am_NewAccountFunc (a_iss w) = false →
  newACMEClientWithAccount g useTestCA i w = (r, w') → kept w w'.
Proof.
  intros Hf. unfold newACMEClientWithAccount, withRegLock, reloadOrRegister. intros H.
  destruct (newACMEClient g useTestCA w) as [client|]; [|injection H as _ <-; by apply kept_same].
  destruct (clientAccount g client w) as [[a|] w1] eqn:E1; apply clientAccount_kept in E1;
    [|by injection H as _ <-].
  destruct (acc_Status a =? ""); [|by injection H as _ <-].
  destruct (on_a_locks (acquireLock 0 _) _) as [ra w2] eqn:E2.
  apply (on_a_locks_other false) in E2 as (_ & I2 & D2 & _).
  assert (∀ c, kept w (a_record c w2)) as K2.
  { intros c. eapply kept_trans; [exact E1|by apply kept_same]. }
  destruct ra; [|injection H as _ <-; apply K2]. set (w2' := a_record _ w2) in *.
  specialize (K2 (CallAcmeLock (accountRegLockKey a) true)). fold w2' in K2.
  destruct (match clientAccount g client w2' with (Ok acct, w3) => _ | (Err e, w3) => _ end) as [rb w4] eqn:Eb.
  destruct (on_a_locks (releaseLock 0 _) _) as [ru w5] eqn:E5.
  apply (on_a_locks_other true) in E5 as (_ & I5 & D5 & _). simpl in H.
  assert (w' = w5) as -> by (destruct rb; by injection H).
  apply (kept_trans w w4); [|by apply kept_same]. apply (kept_trans _ _ _ K2).
  destruct (clientAccount g client w2') as [[acct|] w3] eqn:E3; apply clientAccount_kept in E3;
    [|by injection Eb as _ <-].
  destruct (acc_Status acct =? ""); [|by injection Eb as _ <-].
  apply registerAccount_kept in Eb; [by eapply kept_trans|].
  destruct (kept_trans _ _ _ K2 E3) as [[b ->] _]. done.
Qed.

(** (C21) An account is registered once: when a client was made whose account has
    the issuer's address as its primary contact, the account is in storage, and
    every later client of the same CA gets that account without any request,
    prompt or lock, and changes nothing. *)
Theorem account_registered_once g useTestCA interactive w c w' :
  am_AccountKeyPEM (a_iss w) = "" → am_NewAccountFunc (a_iss w) = false →
  newACMEClientWithAccount g useTestCA interactive w = (Ok c, w') →
  getPrimaryContact (c_account c) = am_email (a_iss w) →
  ∀ interactive', newACMEClientWithAccount g useTestCA interactive' w' = (Ok c, w').
Proof.
  intros Hk Hf H Hp interactive'. unfold newACMEClientWithAccount in H.
  destruct (newACMEClient g useTestCA w) as [client|] eqn:Ec; [|done].
  destruct (clientAccount g client w) as [[a|] w1] eqn:E1; [|done].
  assert (∃ a', c = MkAcmeClient client a' ∧ kept w w' ∧ acc_Status a' ≠ "" ∧
            loadAccount (a_storage w') (client_Directory client) (am_email (a_iss w)) = Ok a')
    as (a' & -> & Hkept & Hs & Hl).
  { destruct (String.eqb_spec (acc_Status a) "") as [Hs|Hs].
    - apply clientAccount_kept in E1.
      destruct (withRegLock _ _ w1) as [[a'|] w2] eqn:E2; [|done]. injection H as <- <-.
      apply withRegLock_found in E2 as (w3 & w4 & K3 & Hb & K4 & Hc).
      pose proof (kept_trans _ _ _ E1 K3) as K. destruct K as [[b K] _].
      apply reloadOrRegister_found in Hb as (K5 & Hs' & email & He & Hl); [|by rewrite K..].
      exists a'. split; [done|]. split; [eauto using kept_trans|]. split; [done|].
      apply (loadAccount_contents (a_storage w4)); [done|].
      replace (am_email (a_iss w)) with email; [done|].
      destruct He as [->| ->]; [by rewrite K|done].
    - injection H as <- <-. apply clientAccount_registered in E1 as [-> Hl]; [|done|done].
      exists a. split; [done|]. split; [by apply kept_same|]. auto. }
  unfold newACMEClientWithAccount. rewrite (kept_client _ _ _ _ Hkept), Ec.
  destruct Hkept as [[b Hi] _].
  rewrite (clientAccount_loaded _ _ _ a'); [|by rewrite Hi|by rewrite Hi].
  by rewrite (proj2 (String.eqb_neq _ _) Hs).
Qed.

(** *** The client *)

(** A client never talks to its CA unprotected: the directory of a client for
    production has the scheme https, or its host is internal. Its solvers are
    wrapped, so that their challenges are known to the whole process, and keep
    their tokens under the prefix of that directory; with a CA that is given
    with its scheme this is where other instances look for them. *)
Theorem newACMEClient_secure g w client :
  newACMEClient g false w = Ok client →
  (∃ u, url_Parse (client_Directory client) = Ok u ∧
     (url_Scheme u = "https" ∨ SubjectIsInternal net_ParseIP (url_Host u) = true)) ∧
  ∀ name solver, client_ChallengeSolvers client !! name = Some solver →
    solver = DescWrapper DescDNS ∨
    ∃ listener, solver = DescWrapper (DescDistributed (storageKeyCAPrefix (client_Directory client)) listener) ∧
      (am_CA (a_iss w) ≠ "" → Contains (am_CA (a_iss w)) "://" = true →
       storageKeyCAPrefix (client_Directory client) =
       storageKeyACMECAPrefix (Account.issuerKey (am_CA (a_iss w)))).
Proof.
  unfold newACMEClient, newBasicACMEClient. intros H.
  set (caURL := if Contains _ "://" then _ else _) in H.
  destruct (url_Parse caURL) as [u|] eqn:Eu; [|done].
  destruct (negb _ && negb _) eqn:Eb; [done|]. injection H as <-. simpl. split.
  { exists u. split; [done|]. apply andb_false_iff in Eb as [Eb|Eb]; apply negb_false_iff in Eb; [|by right].
    left. by apply String.eqb_eq. }
  intros name solver Hl. apply lookup_fmap_Some in Hl as (d & <- & Hd).
  assert (am_CA (a_iss w) ≠ "" → Contains (am_CA (a_iss w)) "://" = true → caURL = am_CA (a_iss w)) as Hca.
  { intros Hne Hs. subst caURL. rewrite (proj2 (String.eqb_neq _ _) Hne). by rewrite Hs. }
  unfold challengeSolvers in Hd. destruct (am_DNS01Solver _).
  - apply lookup_singleton_Some in Hd as [_ <-]. by left.
  - right. assert (∃ listener, d = DescDistributed (storageKeyCAPrefix caURL) listener) as [listener ->].
    { destruct (am_DisableTLSALPNChallenge _); [|apply lookup_insert_Some in Hd as [[_ <-]|[_ Hd]]; [by eexists|]];
        (destruct (am_DisableHTTPChallenge _); [done|apply lookup_singleton_Some in Hd as [_ <-]; by eexists]). }
    exists listener. split; [done|]. intros H1 H2. by rewrite (Hca H1 H2).
Qed.
End client_theorems.

(** ** The solvers of a client at work *)

(** The solver that a description stands for; [dns] is the configured one. *)
Fixpoint solver_of {St L : Type} `{!ChallengeLib} `{!Storage St} `{!ListenNet L}
    (dns : Solver (SWorld St L)) (d : solver_desc) : Solver (SWorld St L) :=
  match d with
  | DescHTTP address => httpSolver address
  | DescTLSALPN address => tlsALPNSolver address
  | DescDNS => dns
  | DescDistributed prefix d => distributedSolver prefix (solver_of dns d)
  | DescWrapper d => solverWrapper (solver_of dns d)
  end.

(** The listening solvers of a client keep their tokens under the prefix of its
    directory. *)
Lemma client_solver {St N L : Type} `{A : !ACMENet N} `{!ChallengeLib} `{!Storage St} `{!ListenNet L}
    g useTestCA (w : AState St N) client name desc (dns : Solver (SWorld St L)) :
  newACMEClient g useTestCA w = Ok client →
  client_ChallengeSolvers client !! name = Some desc →
  name = ChallengeTypeHTTP01 ∨ name = ChallengeTypeTLSALPN01 →
  ∃ address, solver_of dns desc =
    presented (storageKeyCAPrefix (client_Directory client))
      (if name =? ChallengeTypeHTTP01 then httpSolver address else tlsALPNSolver address).
Proof.
  unfold newACMEClient. destruct (newBasicACMEClient g w) as [c|]; [|done]. intros [= <-]. simpl.
  set (directory := if _ && _ then _ else _). intros Hd Hn.
  apply lookup_fmap_Some in Hd as (d & <- & Hd). unfold challengeSolvers in Hd.
  destruct (am_DNS01Solver _).
  { apply lookup_singleton_Some in Hd as [<- _]. by destruct Hn. }
  destruct Hn as [-> | ->].
  - assert (∃ address, d = DescDistributed (storageKeyCAPrefix directory) (DescHTTP address)) as [address ->].
    { destruct (am_DisableTLSALPNChallenge _); [|rewrite lookup_insert_ne in Hd by done];
        (destruct (am_DisableHTTPChallenge _); [done|apply lookup_singleton_Some in Hd as [_ <-]; by eexists]). }
    by exists address.
  - assert (∃ address, d = DescDistributed (storageKeyCAPrefix directory) (DescTLSALPN address)) as [address ->].
    { destruct (am_DisableTLSALPNChallenge _).
      - by destruct (am_DisableHTTPChallenge _); [|apply lookup_singleton_Some in Hd as [[=] _]].
      - rewrite lookup_insert_eq in Hd. injection Hd as <-. by eexists. }
    by exists address.
Qed.

(** For the CA, given with its scheme, that prefix is where the instances look
    whose issuer has that CA. *)
Lemma client_prefix {St N : Type} `{A : !ACMENet N} g (w : AState St N) client :
  newACMEClient g false w = Ok client →
  am_CA (a_iss w) ≠ "" → Contains (am_CA (a_iss w)) "://" = true →
  storageKeyCAPrefix (client_Directory client) =
    storageKeyACMECAPrefix (Account.issuerKey (am_CA (a_iss w))).
Proof.
  unfold newACMEClient, newBasicACMEClient. intros Hc Hne Hs.
  rewrite (proj2 (String.eqb_neq _ _) Hne), Hs in Hc.
  destruct (url_Parse _) as [u|]; [|done]. destruct (negb _ && negb _); [done|]. by injection Hc as <-.
Qed.

Section client_solvers.
Context {St N L : Type} `{C : !Codec} `{!Storage St} `{!StorageLaws St} `{A : !ACMENet N}
  `{!ChallengeLib} `{CHL : !ChallengeLaws} `{!ListenNet L}.

(** The HTTP challenges of a client are answered in the cluster: when the HTTP
    solver of a client has presented a challenge, every instance that shares the
    storage and has an issuer with the client's prefix answers the CA's request
    for it with the key authorization. *)
Theorem client_challenge_answered g useTestCA (w : AState St N) client desc dns chal (sw sw' : SWorld St L)
    cfg p r :
  newACMEClient g useTestCA w = Ok client →
  client_ChallengeSolvers client !! ChallengeTypeHTTP01 = Some desc →
  sv_Present (solver_of dns desc) chal sw = (Ok tt, sw') →
  challengeKey chal = id_Value (ch_Identifier chal) →
  instance_of (storageKeyCAPrefix (client_Directory client)) sw' (challengeKey chal) cfg p →
  req_Method r = "GET" → req_Path r = HTTP01ResourcePath chal →
  hostOnly (req_Host r) = id_Value (ch_Identifier chal) →
  HandleHTTPChallenge false cfg (sw_storage sw') p r =
    Some (MkResponse StatusOK "text/plain" (ch_KeyAuthorization chal)).
Proof using StorageLaws0 CHL.
  intros Hc Hd Hp. destruct (client_solver _ _ _ _ _ _ dns Hc Hd (or_introl eq_refl)) as [address E].
  rewrite E in Hp. by apply (http_challenge_answered _ address chal sw).
Qed.
End client_solvers.

Section client_alpn.
Context {St N L E O : Type} `{C : !Codec} `{!Storage St} `{!StorageLaws St} `{A : !ACMENet N}
  `{X : !External St E} `{XL : !ExternalLaws St E} `{!OCSPNet O} `{TL : !TLSLib E}
  `{!ChallengeLib} `{CHL : !ChallengeLaws} `{!ListenNet L}.

(** (C23) The TLS-ALPN challenges of a client are answered in the cluster. When
    the TLS-ALPN solver of a client, for the CA or for the test CA, has presented
    a challenge, a handshake for its name that offers only the protocol of the
    challenge gets the challenge's certificate, from the instance that presented
    it and from every other one that shares the storage and has an issuer whose
    key gives the prefix of the client's directory; no other certificate is
    looked for. For a client of the CA, given with its scheme, these are the
    instances with an issuer for that CA; for the test CA they are those whose
    issuer has it as its CA. *)
Theorem tls_alpn_challenge_answered fuel refresh wait g useTestCA (w : AState St N) client desc dns
    chal cert (sw sw' : SWorld St L) cfg p hello (h : HState St E O) :
  newACMEClient g useTestCA w = Ok client →
  client_ChallengeSolvers client !! ChallengeTypeTLSALPN01 = Some desc →
  sv_Present (solver_of dns desc) chal sw = (Ok tt, sw') →
  TLSALPN01ChallengeCert chal = Ok (Some cert) →
  instance_of (storageKeyCAPrefix (client_Directory client)) sw' (challengeKey chal) cfg p →
  ServerName hello = challengeKey chal → challengeKey chal ≠ "" →
  SupportedProtos hello = [ACMETLS1Protocol] →
  h_storage h = sw_storage sw' →
  fst (on_m (on_world (emit cfg (tls_get_certificate (ServerName hello)))) h) = Ok tt →
  fst (GetCertificateWithContext fuel refresh wait cfg p hello h) = (Some cert, None) ∧
  (useTestCA = false → am_CA (a_iss w) ≠ "" → Contains (am_CA (a_iss w)) "://" = true →
   storageKeyCAPrefix (client_Directory client) =
     storageKeyACMECAPrefix (Account.issuerKey (am_CA (a_iss w)))).
Proof using StorageLaws0 XL CHL.
  intros Hc Hd Hp Hcert Hi Hn Hne Hpr Hst He. split; [|intros ->; by apply (client_prefix g)].
  destruct (client_solver _ _ _ _ _ _ dns Hc Hd (or_intror eq_refl)) as [address E1].
  rewrite E1 in Hp. by eapply (alpn_presented_answered fuel refresh wait _ address chal cert sw).
Qed.
End client_alpn.

(** ** Examples *)

Module SimClient.
Definition vars : PackageVars := MkVars 80 443 "" 10 (10 * Second).
Definition ready : AState MemStorage.t SimCA.t := with_iss (set_am_email "me@a.com") SimCA.start.
Definition client : acmezClient :=
  default (MkClient "" "" 0 ∅) (match newACMEClient vars false ready with Ok c => Some c | Err _ => None end).
Definition registered : AState MemStorage.t SimCA.t :=
  snd (newACMEClientWithAccount vars false false ready).
Definition with_account : acmeClient :=
  MkAcmeClient client (MkAccount "valid" ["mailto:me@a.com"] true SimCA.le "" (EcdsaKey "1")).

(** A challenge of the issuer and the request of the CA. *)
Definition iss : Issuer := MkIssuer (Account.issuerKey SimCA.le) true true (Some SimCA.le).
Definition http : solver_desc := DescWrapper (DescDistributed "acme/le.org-dir" (DescHTTP ":80")).
Definition dns : Solver (SWorld MemStorage.t SimSolver.t) :=
  MkSolver (λ _, mret (Ok tt)) None (λ _, mret (Ok tt)).
Definition presenting : SWorld MemStorage.t SimSolver.t :=
  snd (sv_Present (solver_of dns http) SimSolver.chal SimSolver.start).
Definition alpn : solver_desc := DescWrapper (DescDistributed "acme/le.org-dir" (DescTLSALPN ":443")).
Definition presenting_alpn : SWorld MemStorage.t SimSolver.t :=
  snd (sv_Present (solver_of dns alpn) ex_alpn SimSolver.start).
Definition request : Request := MkRequest "GET" "a.com" "/.well-known/acme-challenge/tok".

(** The issuer with another test CA. *)
Definition set_TestCA (ca : string) (am : ACMEIssuer) : ACMEIssuer :=
  MkACMEIssuer (am_CA am) ca (am_Email am) (am_AccountKeyPEM am) (am_Agreed am)
    (am_ExternalAccount am) (am_Profile am) (am_NotBefore am) (am_NotAfter am)
    (am_DisableHTTPChallenge am) (am_DisableTLSALPNChallenge am) (am_ListenHost am)
    (am_AltHTTPPort am) (am_AltTLSALPNPort am) (am_DNS01Solver am) (am_CertObtainTimeout am)
    (am_Resolver am) (am_NewAccountFunc am) (am_PreferredChains am) (am_DisableARI am)
    (am_email am) (am_agreed am).
End SimClient.

Lemma registered_run :
  newACMEClientWithAccount SimClient.vars false false SimClient.ready =
  (Ok SimClient.with_account, SimClient.registered).
Proof. by vm_compute. Qed.

Lemma registration_under_lock_witness :
  a_trace SimClient.registered ≠ a_trace SimClient.ready ∧
  ∃ before t, a_trace SimClient.registered = (a_trace SimClient.ready ++ before ++ t)%list ∧
    ∃ account, registering (accountRegLockKey account) true t.
Proof.
  split; [by vm_compute|].
  destruct (registration_under_lock SimClient.vars false false SimClient.ready
              (Ok SimClient.with_account) SimClient.registered registered_run)
    as (before & t & T & Hb & [[Ht _]|(client & account & w1 & rl & w2 & _ & _ & _ & _ & Hr & _)]).
  - exfalso. rewrite Ht, app_nil_r in T. revert T. vm_compute. intros T. rewrite <-T in Hb.
    apply Forall_cons in Hb as [[d Hd] _]. discriminate Hd.
  - exists before, t. split; [exact T|]. exists account. exact Hr.
Defined.

(** The one registration is made under the lock of the address. *)
Example registered_trace :
  a_trace SimClient.registered =
  [CallAcmeLock "register_acme_account_me@a.com" true;
   CallNewAccount SimCA.le (MkAccount "" ["mailto:me@a.com"] true "" "" (EcdsaKey "1"));
   CallAcmeUnlock "register_acme_account_me@a.com"].
Proof. by vm_compute. Qed.

Lemma account_registered_once_witness :
  newACMEClientWithAccount SimClient.vars false true SimClient.registered =
  (Ok SimClient.with_account, SimClient.registered).
Proof.
  exact (account_registered_once SimClient.vars false false SimClient.ready SimClient.with_account
           SimClient.registered eq_refl eq_refl registered_run eq_refl true).
Defined.

Lemma newACMEClient_secure_witness :
  newACMEClient SimClient.vars false SimClient.ready = Ok SimClient.client ∧
  ∃ u, url_Parse (client_Directory SimClient.client) = Ok u ∧
    (url_Scheme u = "https" ∨ SubjectIsInternal net_ParseIP (url_Host u) = true).
Proof.
  assert (newACMEClient SimClient.vars false SimClient.ready = Ok SimClient.client) as H by (by vm_compute).
  split; [exact H|]. exact (proj1 (newACMEClient_secure SimClient.vars SimClient.ready SimClient.client H)).
Defined.

(** The check of the scheme does not cover the test CA: a client for retries
    uses an insecure one as it is. *)
Example newACMEClient_insecure_test :
  let w := with_iss (SimClient.set_TestCA "http://test.example.com/dir") SimClient.ready in
  (client_Directory <$> match newACMEClient SimClient.vars true w with Ok c => Some c | Err _ => None end) =
    Some "http://test.example.com/dir" ∧
  url_Parse "http://test.example.com/dir" = Ok (MkURL "http" "test.example.com" "/dir") ∧
  SubjectIsInternal net_ParseIP "test.example.com" = false.
Proof. by vm_compute. Qed.

(** The tokens of challenges for the test CA are stored under the key of the
    test CA, but looked for under the key of the issuer, which is that of the
    CA. *)
Example test_tokens_elsewhere :
  match newACMEClient SimClient.vars true SimClient.ready with
  | Ok c => client_ChallengeSolvers c !! ChallengeTypeHTTP01 =
      Some (DescWrapper (DescDistributed "acme/staging.le.org-dir" (DescHTTP ":80")))
  | Err _ => False
  end ∧
  storageKeyACMECAPrefix (Account.issuerKey (am_CA (a_iss SimClient.ready))) = "acme/le.org-dir".
Proof. by vm_compute. Qed.

(** The field [Agreed] of the issuer is not read: the user is asked although it
    is set. *)
Example agreed_not_read :
  am_Agreed (a_iss SimClient.ready) = true ∧
  existsb (λ c, match c with CallPrompt => true | _ => false end)
    (a_trace (snd (newACMEClientWithAccount SimClient.vars false true SimClient.ready))) = true.
Proof. by vm_compute. Qed.

Lemma client_challenge_answered_witness :
  sv_Present (solver_of SimClient.dns SimClient.http) SimSolver.chal SimSolver.start = (Ok tt, SimClient.presenting) ∧
  HandleHTTPChallenge false (SimExternal.config [SimClient.iss]) (sw_storage SimClient.presenting)
    (sw_proc SimClient.presenting) SimClient.request =
  Some (MkResponse StatusOK "text/plain" (ch_KeyAuthorization SimSolver.chal)).
Proof.
  assert (sv_Present (solver_of SimClient.dns SimClient.http) SimSolver.chal SimSolver.start =
          (Ok tt, SimClient.presenting)) as Hp by (by vm_compute).
  split; [exact Hp|].
  refine (client_challenge_answered SimClient.vars false SimClient.ready SimClient.client SimClient.http SimClient.dns
           SimSolver.chal SimSolver.start SimClient.presenting
           (SimExternal.config [SimClient.iss]) (sw_proc SimClient.presenting) SimClient.request
           _ _ Hp _ _ _ _ _); [by vm_compute..| | | |].
  all: first [by left | by vm_compute].
Defined.

(** Another instance, with its own process and the issuer, answers. *)
Lemma tls_alpn_challenge_answered_witness :
  fst (GetCertificateWithContext 5 never_refresh ex_wait (SimExternal.config [SimClient.iss]) idle_proc
         ex_alpn_hello (ex_h (sw_storage SimClient.presenting_alpn) SimTLS.cache0 0 [] ∅)) =
    (Some (MkTLSCertificate ["challenge:tok.thumb"] "" None), None).
Proof.
  refine (proj1 (tls_alpn_challenge_answered 5 never_refresh ex_wait SimClient.vars false SimClient.ready
    SimClient.client SimClient.alpn SimClient.dns ex_alpn _ SimSolver.start SimClient.presenting_alpn
    (SimExternal.config [SimClient.iss]) idle_proc ex_alpn_hello _ _ _ _ _ _ _ _ _ _ _)).
  - by vm_compute.
  - by vm_compute.
  - by vm_compute.
  - reflexivity.
  - right. split; [reflexivity|]. exists [], SimClient.iss, [].
    split; [reflexivity|]. split; [reflexivity|]. by intros i Hi%elem_of_nil.
  - reflexivity.
  - discriminate.
  - reflexivity.
  - reflexivity.
  - by vm_compute.
Defined.
