(* ===== verification/AcmeIssuer.v ===== *)
(** * The ACME issuer (acmeissuer.go)

    [NewACMEIssuer] with its defaults, the check of names before issuance, the
    order of a certificate from the CA, first from the test CA on a retry, the
    choice among the chains offered, and revocation. *)

From S2P Require Import Prelude GoStrings Certificates Storage Crypto RateLimiter Config Challenges.
From S2P Require Import Account AcmeClient.
Open Scope string_scope.

(** ** Construction *)

(** [t] unless it is empty. *)
Definition or_default {T} (empty : T → bool) (t d : T) : T := if empty t then d else t.
Definition str_or (t d : string) : string := or_default (λ s, s =? "") t d.
Definition z_or (t d : Z) : Z := or_default (λ z, (z =? 0)%Z) t d.
Definition bool_or (t d : bool) : bool := or_default negb t d.

(** The argument [DisableARI] is that of the configuration given; the template
    brings [Profile], [PreferredChains] and the unexported fields. *)
Definition NewACMEIssuer (DisableARI : bool) (DefaultACME template : ACMEIssuer) : ACMEIssuer :=
  let CA := str_or (am_CA template) (am_CA DefaultACME) in
  let TestCA := if (am_TestCA template =? "") && (CA =? am_CA DefaultACME)
                then am_TestCA DefaultACME else am_TestCA template in
  MkACMEIssuer CA TestCA
    (str_or (am_Email template) (am_Email DefaultACME))
    (str_or (am_AccountKeyPEM template) (am_AccountKeyPEM DefaultACME))
    (bool_or (am_Agreed template) (am_Agreed DefaultACME))
    (match am_ExternalAccount template with None => am_ExternalAccount DefaultACME | eab => eab end)
    (am_Profile template)
    (z_or (am_NotBefore template) (am_NotBefore DefaultACME))
    (z_or (am_NotAfter template) (am_NotAfter DefaultACME))
    (bool_or (am_DisableHTTPChallenge template) (am_DisableHTTPChallenge DefaultACME))
    (bool_or (am_DisableTLSALPNChallenge template) (am_DisableTLSALPNChallenge DefaultACME))
    (str_or (am_ListenHost template) (am_ListenHost DefaultACME))
    (z_or (am_AltHTTPPort template) (am_AltHTTPPort DefaultACME))
    (z_or (am_AltTLSALPNPort template) (am_AltTLSALPNPort DefaultACME))
    (bool_or (am_DNS01Solver template) (am_DNS01Solver DefaultACME))
    (z_or (am_CertObtainTimeout template) (am_CertObtainTimeout DefaultACME))
    (str_or (am_Resolver template) (am_Resolver DefaultACME))
    (bool_or (am_NewAccountFunc template) (am_NewAccountFunc DefaultACME))
    (am_PreferredChains template) DisableARI (am_email template) (am_agreed template).

(** The initial value of [DefaultACME]. *)
Definition LetsEncryptStagingCA : string := "https://acme-staging-v02.api.letsencrypt.org/directory".
Definition LetsEncryptProductionCA : string := "https://acme-v02.api.letsencrypt.org/directory".
Definition DefaultACME : ACMEIssuer :=
  MkACMEIssuer LetsEncryptProductionCA LetsEncryptStagingCA "" "" false None "" 0 0 false false "" 0 0
    false 0 "" false (MkChainPreference None [] []) false "" false.

(** ** Choosing a chain *)

Definition smaller_chain (a b : acmeCertificate) : Prop :=
  (String.length (ac_ChainPEM a) ≤ String.length (ac_ChainPEM b))%nat.
#[export] Instance smaller_chain_dec a b : Decision (smaller_chain a b).
Proof. unfold smaller_chain. apply _. Defined.
Definition larger_chain (a b : acmeCertificate) : Prop := smaller_chain b a.
#[export] Instance larger_chain_dec a b : Decision (larger_chain a b).
Proof. unfold larger_chain. apply _. Defined.

Section chains.
Context {N : Type} `{C : !Codec} `{A : !ACMENet N}.

Definition ProblemTypeAccountDoesNotExist : string := "urn:ietf:params:acme:error:accountDoesNotExist".
Definition StatusTooManyRequests : Z := 429.

(** The sort keeps the order of chains of the same size, as Go's does for up to
    twelve. *)
Definition sort_chains (Smallest : option bool) (certChains : list acmeCertificate) :
    list acmeCertificate :=
  match Smallest with
  | None => certChains
  | Some true => merge_sort smaller_chain certChains
  | Some false => merge_sort larger_chain certChains
  end.

(** A chain that does not parse is decoded as none. *)
Definition decoded_chain (chain : acmeCertificate) : list X509 :=
  match parseCertsFromPEMBundle (ac_ChainPEM chain) with Ok certs => certs | Err _ => [] end.

Fixpoint find_any (prefs : list string) (decodedChains : list (list X509)) : option nat :=
  match prefs with
  | [] => None
  | prefAnyCN :: rest =>
      match list_find (λ chain, existsb (λ cert, IssuerCommonName cert =? prefAnyCN) chain = true)
              decodedChains with
      | Some (i, _) => Some i
      | None => find_any rest decodedChains
      end
  end.

(** The search for one root; [None] is the panic of [chain[len(chain)-1]] on an
    empty chain. *)
Fixpoint find_root (prefRootCN : string) (i : nat) (decodedChains : list (list X509)) :
    option (option nat) :=
  match decodedChains with
  | [] => Some None
  | chain :: rest =>
      match last chain with
      | None => None
      | Some root => if IssuerCommonName root =? prefRootCN then Some (Some i)
                     else find_root prefRootCN (S i) rest
      end
  end.
Fixpoint find_roots (prefs : list string) (decodedChains : list (list X509)) : option (option nat) :=
  match prefs with
  | [] => Some None
  | prefRootCN :: rest =>
      match find_root prefRootCN 0 decodedChains with
      | Some None => find_roots rest decodedChains
      | r => r
      end
  end.

(** [None] is a panic: no chains, or a chain that does not parse while looking
    for a root. *)
Definition selectPreferredChain (prefs : ChainPreference) (certChains : list acmeCertificate) :
    option acmeCertificate :=
  match certChains with
  | [chain] => Some chain
  | _ =>
      let certChains := sort_chains (Smallest prefs) certChains in
      match AnyCommonName prefs, RootCommonName prefs with
      | [], [] => head certChains
      | _, _ =>
          let decodedChains := decoded_chain <$> certChains in
          match find_any (AnyCommonName prefs) decodedChains with
          | Some i => certChains !! i
          | None =>
              match find_roots (RootCommonName prefs) decodedChains with
              | None => None
              | Some (Some i) => certChains !! i
              | Some None => head certChains
              end
          end
      end
  end.
End chains.

Section issuer.
Context {St N : Type} `{C : !Codec} `{!Storage St} `{A : !ACMENet N}.
Implicit Types (am : ACMEIssuer) (w : AState St N) (g : PackageVars).

Definition IssuerKey am : string := Account.issuerKey (am_CA am).

(** ** The check before issuance *)

Definition publicCAsAndIPCerts : list (string * bool) :=
  [("api.letsencrypt.org", false); ("acme.zerossl.com", false); ("api.pki.goog", true);
   ("api.buypass.com", false); ("acme.ssl.com", false)].

(** The loop over the names of a request to a public CA. *)
Fixpoint check_names (ipCertAllowed : bool) (names : list string) : result unit :=
  match names with
  | [] => Ok tt
  | name :: rest =>
      if negb (SubjectQualifiesForPublicCert net_ParseIP name)
      then Err (Errorf "subject does not qualify for a public certificate")
      else if negb ipCertAllowed && SubjectIsIP net_ParseIP name
      then Err (Errorf "subject cannot have public IP certificate")
      else check_names ipCertAllowed rest
  end.

(** Go goes through the map in any order, [order]. *)
Definition PreCheck (order : list (string * bool)) (names : list string) (interactive : bool) :
    ST (AState St N) (result unit) := λ w,
  match match List.find (λ ca, Contains (am_CA (a_iss w)) ca.1) order with
        | Some (_, ipCert) => check_names ipCert names
        | None => Ok tt
        end with
  | Err e => (Err e, w)
  | Ok _ => setEmail interactive w
  end.

(** ** Issuance *)

(** The loop of at most two orders: it returns from [doIssue] with an error, or
    it ends with the chains, which are none after a failed order. *)
Fixpoint obtainLoop (n : nat) g (useTestCA usingTestCA : bool) (client : acmeClient)
    (params : OrderParameters) :
    ST (AState St N) ((error * bool) + list acmeCertificate) := λ w,
  match n with
  | O => (inr [], w)
  | S n' =>
      let '(r, w) := on_a_net (acmez_ObtainCertificate (c_acmeClient client) params) w in
      let w := a_record (CallObtain (client_Directory (c_acmeClient client)) (order_Account params)
                           (order_Replaces params) r) w in
      match r with
      | Err err =>
          match errors_As_Problem err with
          | Some prob =>
              if prob_Type prob =? ProblemTypeAccountDoesNotExist then
                match deleteAccountLocally (am_CA (a_iss w)) (c_account client) w with
                | (Err _, w) => (inl (Errorf "resetting our local copy of the account info failed", usingTestCA), w)
                | (Ok _, w) =>
                    match newACMEClientWithAccount g useTestCA false w with
                    | (Err err, w) => (inl (err, false), w)
                    | (Ok client, w) => obtainLoop n' g useTestCA usingTestCA client params w
                    end
                end
              else (inl (Wrapf "obtain" err, usingTestCA), w)
          | None => (inl (Wrapf "obtain" err, usingTestCA), w)
          end
      | Ok [] => (inl (Errorf "no certificate chains", usingTestCA), w)
      | Ok certChains => (inr certChains, w)
      end
  end.

(** The parameters of the order. *)
Definition orderParameters (attempts : nat) (usingTestCA : bool) (replaces : ARIReplaces)
    (params : OrderParameters) w : OrderParameters :=
  let am := a_iss w in
  let now := acme_Now (a_net w) in
  MkOrder (order_Account params) (order_CSR params)
    (if (am_NotBefore am =? 0)%Z then order_NotBefore params else time_Add now (am_NotBefore am))
    (if (am_NotAfter am =? 0)%Z then order_NotAfter params else time_Add now (am_NotAfter am))
    (if negb (am_DisableARI am) && negb usingTestCA && negb (attempts =? 2)%nat
     then match replaces with Some replacing => replacing | None => order_Replaces params end
     else order_Replaces params)
    (am_Profile am).

(** The certificate or the error, and whether the test CA was used; [None] is a
    panic. *)
Definition doIssue g (attempts : nat) (replaces : ARIReplaces) (csr : CertificateRequest) :
    ST (AState St N) (option (result IssuedCertificate * bool)) := λ w,
  let useTestCA := (0 <? attempts)%nat in
  match newACMEClientWithAccount g useTestCA false w with
  | (Err err, w) => (Some (Err err, false), w)
  | (Ok client, w) =>
      let usingTestCA := usingTestCA (a_iss w) client in
      match (if useTestCA then (Ok tt, w) else throttle g client w) with
      | (Err err, w) => (if is_panic err then None else Some (Err err, usingTestCA), w)
      | (Ok _, w) =>
          match acmez_OrderParametersFromCSR (c_account client) csr with
          | Err _ => (Some (Err (Errorf "generating order parameters from CSR"), false), w)
          | Ok params =>
              let params := orderParameters attempts usingTestCA replaces params w in
              match obtainLoop 2 g useTestCA usingTestCA client params w with
              | (inl (err, used), w) => (Some (Err err, used), w)
              | (inr certChains, w) =>
                  match selectPreferredChain (am_PreferredChains (a_iss w)) certChains with
                  | None => (None, w)
                  | Some preferredChain =>
                      (Some (Ok (MkIssued (ac_ChainPEM preferredChain) (json_MarshalCertificate preferredChain)),
                             usingTestCA), w)
                  end
              end
          end
      end
  end.

Definition Issue g (attempts : nat) (replaces : ARIReplaces) (csr : CertificateRequest) :
    ST (AState St N) (option (result IssuedCertificate)) := λ w,
  let isRetry := (0 <? attempts)%nat in
  match doIssue g attempts replaces csr w with
  | (None, w) => (None, w)
  | (Some (Err err, _), w) => (Some (Err err), w)
  | (Some (Ok cert, usedTestCA), w) =>
      if isRetry && usedTestCA && negb (am_CA (a_iss w) =? am_TestCA (a_iss w)) then
        match doIssue g 0 replaces csr w with
        | (None, w) => (None, w)
        | (Some (Err err, _), w) =>
            match errors_As_Problem err with
            | Some problem =>
                if (prob_Status problem =? StatusTooManyRequests)%Z then (Some (Err err), w)
                else (Some (Err (ErrNoRetry err)), w)
            | None => (Some (Err (ErrNoRetry err)), w)
            end
        | (Some (Ok cert, _), w) => (Some (Ok cert), w)
        end
      else (Some (Ok cert), w)
  end.

(** ** Revocation; [None] is a panic *)

Definition Revoke g (cert : CertificateResource) (reason : Z) :
    ST (AState St N) (option (result unit)) := λ w,
  match newACMEClientWithAccount g false false w with
  | (Err err, w) => (Some (Err err), w)
  | (Ok client, w) =>
      match parseCertsFromPEMBundle (CertificatePEM cert) with
      | Err err => (Some (Err err), w)
      | Ok [] => (None, w)
      | Ok (leaf :: _) => let '(r, w) := revoke client leaf reason w in (Some r, w)
      end
  end.
End issuer.

(** ** Theorems: construction *)

(** Filling in the defaults is idempotent and keeps what was set: a second
    [NewACMEIssuer] on its own result changes nothing, and every setting of the
    template that is not empty is the issuer's; the default test CA is taken
    only together with the default CA. *)
Theorem NewACMEIssuer_idempotent ari def t :
  let am := NewACMEIssuer ari def t in
  NewACMEIssuer ari def am = am ∧
  (am_CA t ≠ "" → am_CA am = am_CA t) ∧
  (am_TestCA t ≠ "" → am_TestCA am = am_TestCA t) ∧
  (am_TestCA t = "" → am_TestCA am ≠ "" → am_CA am = am_CA def ∧ am_TestCA am = am_TestCA def) ∧
  (am_Email t ≠ "" → am_Email am = am_Email t) ∧
  (am_AccountKeyPEM t ≠ "" → am_AccountKeyPEM am = am_AccountKeyPEM t) ∧
  (am_ExternalAccount t ≠ None → am_ExternalAccount am = am_ExternalAccount t) ∧
  am_PreferredChains am = am_PreferredChains t ∧ am_Profile am = am_Profile t.
Proof.
  intros am.
  assert (∀ a b, str_or (str_or a b) b = str_or a b) as Hs.
  { intros a b. unfold str_or, or_default. destruct (a =? "") eqn:E; [by destruct (b =? "")|by rewrite E]. }
  assert (∀ a b, z_or (z_or a b) b = z_or a b) as Hz.
  { intros a b. unfold z_or, or_default. destruct (a =? 0)%Z eqn:E; [by destruct (b =? 0)%Z|by rewrite E]. }
  assert (∀ a b, bool_or (bool_or a b) b = bool_or a b) as Hb by (by intros [] []).
  assert (∀ a b, a ≠ "" → str_or a b = a) as Hk.
  { intros a b H. unfold str_or, or_default. by rewrite (proj2 (String.eqb_neq _ _) H). }
  split.
  { subst am. unfold NewACMEIssuer. simpl. rewrite !Hs, !Hz, !Hb. f_equal.
    2: { destruct (am_ExternalAccount t); [done|]. by destruct (am_ExternalAccount def). }
    destruct (am_TestCA t =? "") eqn:E1; simpl; [|by rewrite E1].
    destruct (_ =? am_CA def) eqn:E2; [by destruct (am_TestCA def =? "")|by rewrite andb_false_r]. }
  subst am. simpl. repeat split; try apply Hk.
  - intros H. by rewrite (proj2 (String.eqb_neq _ _) H).
  - rewrite H in H0. simpl in H0. destruct (_ =? am_CA def) eqn:E; [by apply String.eqb_eq|done].
  - rewrite H in H0 |- *. simpl in H0 |- *. by destruct (_ =? am_CA def).
  - by destruct (am_ExternalAccount t).
Qed.

(** ** Theorems: chains *)

Section chain_theorems.
Context {N : Type} `{C : !Codec} `{A : !ACMENet N}.

(** A chain has an issuer of the name, or its root has. *)
Definition has_issuer (p : string) (chain : acmeCertificate) : Prop :=
  ∃ cert, cert ∈ decoded_chain chain ∧ IssuerCommonName cert = p.
Definition has_root (p : string) (chain : acmeCertificate) : Prop :=
  ∃ root, last (decoded_chain chain) = Some root ∧ IssuerCommonName root = p.

(** [P] of the first preference that some chain satisfies, if there is one. *)
Definition by_preference (P : string → acmeCertificate → Prop) (prefs : list string)
    (chains : list acmeCertificate) (c : acmeCertificate) : Prop :=
  ∀ before p after, prefs = (before ++ p :: after)%list →
    (∀ q c', q ∈ before → c' ∈ chains → ¬ P q c') →
    (∃ c', c' ∈ chains ∧ P p c') → P p c.
Definition none_preferred (P : string → acmeCertificate → Prop) (prefs : list string)
    (chains : list acmeCertificate) : Prop :=
  ∀ q c', q ∈ prefs → c' ∈ chains → ¬ P q c'.

Lemma has_issuer_existsb p chain :
  existsb (λ cert, IssuerCommonName cert =? p) (decoded_chain chain) = true ↔ has_issuer p chain.
Proof.
  rewrite existsb_exists. unfold has_issuer. setoid_rewrite String.eqb_eq.
  setoid_rewrite list_elem_of_In. done.
Qed.

(** What the searches find: the first preference that a chain satisfies. *)
Lemma find_any_spec prefs chains :
  match find_any prefs (decoded_chain <$> chains) with
  | Some i => ∃ c before p after, chains !! i = Some c ∧ prefs = (before ++ p :: after)%list ∧
                has_issuer p c ∧ none_preferred has_issuer before chains
  | None => none_preferred has_issuer prefs chains
  end.
Proof.
  induction prefs as [|p prefs IH]; simpl; [by intros ???%not_elem_of_nil|].
  destruct (list_find _ _) as [[i d]|] eqn:E.
  - apply list_find_Some in E as (Hi & Hd & _). apply list_lookup_fmap_Some in Hi as (c & -> & Hc).
    apply has_issuer_existsb in Hd. exists c, [], p, prefs. repeat split; auto. by intros ??? %not_elem_of_nil.
  - apply list_find_None in E. assert (∀ c', c' ∈ chains → ¬ has_issuer p c') as Hp.
    { intros c' Hc H%has_issuer_existsb. rewrite Forall_fmap, Forall_forall in E. by apply (E c'). }
    destruct (find_any prefs _) as [i|].
    + destruct IH as (c & before & q & after & Hc & -> & Hq & Hn). exists c, (p :: before), q, after.
      repeat split; auto. intros q' c' [->|H]%elem_of_cons; eauto.
    + intros q' c' [->|H]%elem_of_cons; eauto.
Qed.

Lemma find_root_spec p i chains :
  match find_root p i (decoded_chain <$> chains) with
  | None => ∃ c, c ∈ chains ∧ decoded_chain c = []
  | Some (Some j) => ∃ k c, j = (i + k)%nat ∧ chains !! k = Some c ∧ has_root p c
  | Some None => ∀ c, c ∈ chains → ¬ has_root p c
  end.
Proof.
  revert i. induction chains as [|c chains IH]; intros i; simpl; [by intros ??%not_elem_of_nil|].
  destruct (last (decoded_chain c)) as [root|] eqn:El.
  2: { exists c. split; [by left|]. by apply last_None. }
  destruct (String.eqb_spec (IssuerCommonName root) p) as [Hp|Hp].
  { exists 0%nat, c. split; [lia|]. split; [done|]. by exists root. }
  specialize (IH (S i)). destruct (find_root p (S i) _) as [[j|]|].
  - destruct IH as (k & c' & -> & Hk & Hr). exists (S k), c'. split; [lia|]. auto.
  - intros c' [->|H]%elem_of_cons; [|eauto]. intros (r & Er & Hr). congruence.
  - destruct IH as (c' & H & Hn). exists c'. split; [by right|done].
Qed.

Lemma find_roots_spec prefs chains :
  match find_roots prefs (decoded_chain <$> chains) with
  | None => ∃ c, c ∈ chains ∧ decoded_chain c = []
  | Some (Some i) => ∃ c before p after, chains !! i = Some c ∧ prefs = (before ++ p :: after)%list ∧
                has_root p c ∧ none_preferred has_root before chains
  | Some None => none_preferred has_root prefs chains
  end.
Proof.
  induction prefs as [|p prefs IH]; simpl; [by intros ???%not_elem_of_nil|].
  pose proof (find_root_spec p 0 chains) as Hr.
  destruct (find_root p 0 _) as [[j|]|]; [|destruct (find_roots prefs _) as [[j|]|]|done].
  - destruct Hr as (k & c & -> & Hc & Hp). exists c, [], p, prefs. repeat split; auto.
    by intros ???%not_elem_of_nil.
  - destruct IH as (c & before & q & after & Hc & -> & Hq & Hn). exists c, (p :: before), q, after.
    repeat split; auto. intros q' c' [->|H]%elem_of_cons; eauto.
  - intros q' c' [->|H]%elem_of_cons; eauto.
  - done.
Qed.

(** The chain found by the first preference satisfies every reading of
    "preferred": an earlier preference has none. *)
Lemma found_by_preference P prefs chains c before p after :
  prefs = (before ++ p :: after)%list → P p c → c ∈ chains → none_preferred P before chains →
  by_preference P prefs chains c.
Proof.
  intros -> Hp Hc Hn before' p' after' E Hn' (c' & Hc' & Hp').
  assert (p' = p) as ->; [|done].
  apply app_eq_inv in E as [(k & -> & E)|(k & -> & E)].
  - destruct k as [|x k]; [by injection E|]. injection E as -> _.
    exfalso. apply (Hn x c'); [set_solver|done|done].
  - destruct k as [|x k]; [by injection E|]. injection E as -> _.
    exfalso. apply (Hn' x c); [set_solver|done|done].
Qed.

Lemma none_by_preference P prefs chains c : none_preferred P prefs chains → by_preference P prefs chains c.
Proof. intros Hn before p after -> _ (c' & Hc & Hp). exfalso. apply (Hn p c'); [set_solver|done|done]. Qed.

Lemma sort_chains_Permutation o chains : sort_chains o chains ≡ₚ chains.
Proof. destruct o as [[]|]; simpl; [apply merge_sort_Permutation..|done]. Qed.

#[local] Instance smaller_total : Total smaller_chain.
Proof. intros a b. unfold smaller_chain. lia. Qed.
#[local] Instance smaller_trans : Transitive smaller_chain.
Proof. intros a b c. unfold smaller_chain. lia. Qed.
#[local] Instance larger_total : Total larger_chain.
Proof. intros a b. unfold larger_chain, smaller_chain. lia. Qed.
#[local] Instance larger_trans : Transitive larger_chain.
Proof. intros a b c. unfold larger_chain, smaller_chain. lia. Qed.

(** The first of a sorted list comes before all others. *)
Lemma sorted_head {T} (R : T → T → Prop) `{!∀ a b, Decision (R a b)} `{!Total R} `{!Transitive R} l c :
  head (merge_sort R l) = Some c → ∀ c', c' ∈ l → R c c'.
Proof.
  intros Hh c' Hc'. pose proof (StronglySorted_merge_sort R l) as Hs.
  rewrite <-(merge_sort_Permutation R l) in Hc'. destruct (merge_sort R l) as [|x xs]; [done|].
  injection Hh as ->. apply StronglySorted_inv in Hs as [_ Hf].
  apply elem_of_cons in Hc' as [->|Hc']; [by destruct (total R c c)|]. by eapply Forall_forall in Hf.
Qed.

(** What [selectPreferredChain] promises of the chain [c] it takes. *)
Definition preferred_chain (prefs : ChainPreference) (chains : list acmeCertificate) (c : acmeCertificate) : Prop :=
  c ∈ chains ∧
  by_preference has_issuer (AnyCommonName prefs) chains c ∧
  (none_preferred has_issuer (AnyCommonName prefs) chains →
   by_preference has_root (RootCommonName prefs) chains c ∧
   (none_preferred has_root (RootCommonName prefs) chains →
    ∀ c', c' ∈ chains →
      match Smallest prefs with
      | None => True
      | Some true => smaller_chain c c'
      | Some false => smaller_chain c' c
      end)).

Lemma preferred_chain_perm prefs chains chains' c :
  chains ≡ₚ chains' → preferred_chain prefs chains c → preferred_chain prefs chains' c.
Proof.
  intros Hp. unfold preferred_chain, by_preference, none_preferred. by setoid_rewrite Hp.
Qed.

Lemma head_preferred prefs chains c :
  head (sort_chains (Smallest prefs) chains) = Some c →
  none_preferred has_issuer (AnyCommonName prefs) chains →
  none_preferred has_root (RootCommonName prefs) chains → preferred_chain prefs chains c.
Proof.
  intros Hh Ha Hr. split; [|split; [by apply none_by_preference|intros _; split; [by apply none_by_preference|]]].
  - rewrite <-(sort_chains_Permutation (Smallest prefs) chains).
    destruct (sort_chains _ _); [done|]. injection Hh as ->. by left.
  - intros _ c' Hc'. destruct (Smallest prefs) as [[]|]; simpl in Hh; [| |done].
    + exact (sorted_head smaller_chain chains c Hh c' Hc').
    + exact (sorted_head larger_chain chains c Hh c' Hc').
Qed.

(** More than one chain: the searches, in their order, on the sorted chains. *)
Definition search_chains (prefs : ChainPreference) (sorted : list acmeCertificate) : option acmeCertificate :=
  match find_any (AnyCommonName prefs) (decoded_chain <$> sorted) with
  | Some i => sorted !! i
  | None => match find_roots (RootCommonName prefs) (decoded_chain <$> sorted) with
            | None => None | Some (Some i) => sorted !! i | Some None => head sorted
            end
  end.

Lemma selectPreferredChain_eq prefs chains :
  length chains ≠ 1%nat →
  selectPreferredChain prefs chains = search_chains prefs (sort_chains (Smallest prefs) chains).
Proof.
  intros Hl. unfold selectPreferredChain, search_chains.
  destruct chains as [|x [|y l]]; [|done|]; by destruct (AnyCommonName prefs), (RootCommonName prefs).
Qed.

Lemma selectPreferredChain_offered prefs chains c :
  selectPreferredChain prefs chains = Some c → c ∈ chains.
Proof.
  intros H. destruct (decide (length chains = 1%nat)) as [Hl|Hl].
  { destruct chains as [|x [|]]; try done. injection H as ->. by left. }
  rewrite selectPreferredChain_eq in H by done.
  rewrite <-(sort_chains_Permutation (Smallest prefs) chains).
  unfold search_chains in H. destruct (find_any _ _); [by eapply list_elem_of_lookup_2|].
  destruct (find_roots _ _) as [[i|]|]; [by eapply list_elem_of_lookup_2| |done].
  destruct (sort_chains _ _); [done|]. injection H as ->. by left.
Qed.

(** The chain that is selected is one that was offered, and it is a preferred
    one: with more than one chain, it has an issuer of the first name in
    [AnyCommonName] that any chain has; if none has any, its root is the first
    name in [RootCommonName] that any root has; and if there is none either, it
    is the smallest or the largest, if either is asked for. *)
Theorem selectPreferredChain_preferred prefs chains c :
  selectPreferredChain prefs chains = Some c →
  c ∈ chains ∧ (length chains ≠ 1%nat → preferred_chain prefs chains c).
Proof.
  intros H. split; [by eapply selectPreferredChain_offered|]. intros Hl.
  rewrite selectPreferredChain_eq in H by done. unfold search_chains in H.
  pose proof (sort_chains_Permutation (Smallest prefs) chains) as Hperm.
  set (sorted := sort_chains (Smallest prefs) chains) in *.
  pose proof (find_any_spec (AnyCommonName prefs) sorted) as Ha.
  pose proof (find_roots_spec (RootCommonName prefs) sorted) as Hr.
  assert (∀ P ps, none_preferred P ps sorted → none_preferred P ps chains) as Hnp.
  { intros P ps Hn q c' Hq Hc'. apply Hn; [done|]. by rewrite Hperm. }
  destruct (find_any _ _) as [i|].
  - destruct Ha as (c1 & before & p & after & Hc & Hpref & Hi & Hn). rewrite H in Hc. injection Hc as <-.
    apply (preferred_chain_perm _ sorted _ _ Hperm). apply list_elem_of_lookup_2 in H.
    split; [done|]. split; [by eapply found_by_preference|]. intros Hnone. exfalso.
    apply (Hnone p c); [rewrite Hpref; set_solver|done|done].
  - destruct (find_roots _ _) as [[i|]|]; [|by apply head_preferred; auto|done].
    destruct Hr as (c1 & before & p & after & Hc & Hpref & Hi & Hn). rewrite H in Hc. injection Hc as <-.
    apply (preferred_chain_perm _ sorted _ _ Hperm). apply list_elem_of_lookup_2 in H.
    split; [done|]. split; [by apply none_by_preference|]. intros _.
    split; [by eapply found_by_preference|]. intros Hnone. exfalso.
    apply (Hnone p c); [rewrite Hpref; set_solver|done|done].
Qed.

(** The choice does not panic if there are chains and, when roots are asked for,
    all of them parse. *)
Lemma selectPreferredChain_total prefs chains :
  chains ≠ [] → (RootCommonName prefs = [] ∨ ∀ c, c ∈ chains → decoded_chain c ≠ []) →
  is_Some (selectPreferredChain prefs chains).
Proof.
  intros Hne Hp.
  pose proof (sort_chains_Permutation (Smallest prefs) chains) as Hperm.
  set (sorted := sort_chains (Smallest prefs) chains) in *.
  assert (is_Some (head sorted)) as Hh.
  { destruct sorted; [|by eexists]. by apply Permutation_nil in Hperm. }
  pose proof (find_any_spec (AnyCommonName prefs) sorted) as Ha.
  pose proof (find_roots_spec (RootCommonName prefs) sorted) as Hr.
  destruct (decide (length chains = 1%nat)) as [Hl|Hl].
  { by destruct chains as [|x [|]]. }
  rewrite selectPreferredChain_eq by done. fold sorted. unfold search_chains.
  destruct (find_any _ _); [destruct Ha as (c & _ & _ & _ & -> & _); by eexists|].
  destruct (find_roots _ _) as [[i|]|] eqn:E; [destruct Hr as (c & _ & _ & _ & -> & _); by eexists|done|].
  destruct Hp as [Hp|Hp]; [by rewrite Hp in E|]. destruct Hr as (c & Hc & Hn).
  exfalso. apply (Hp c); [by rewrite <-Hperm|done].
Qed.
End chain_theorems.

(** ** Theorems: issuance *)

Section issuer_theorems.
Context {St N : Type} `{C : !Codec} `{!Storage St} `{A : !ACMENet N}.
Implicit Types (w : AState St N) (g : PackageVars).

(** The directory of the CA, and the one a client gets. *)
Definition caDirectory w : string :=
  let ca := if am_CA (a_iss w) =? "" then am_CA (a_DefaultACME w) else am_CA (a_iss w) in
  if Contains ca "://" then ca else "https://" +:+ ca.
Definition directory (useTestCA : bool) w : string :=
  if useTestCA && negb (am_TestCA (a_iss w) =? "") then am_TestCA (a_iss w) else caDirectory w.

Lemma newACMEClient_directory g useTestCA w client :
  newACMEClient g useTestCA w = Ok client → client_Directory client = directory useTestCA w.
Proof.
  unfold newACMEClient, newBasicACMEClient, directory, caDirectory. destruct (url_Parse _); [|done].
  destruct (_ && negb (SubjectIsInternal _ _)); [done|]. by intros [= <-].
Qed.

Lemma newACMEClientWithAccount_directory g useTestCA i w c w' :
  newACMEClientWithAccount g useTestCA i w = (Ok c, w') →
  client_Directory (c_acmeClient c) = directory useTestCA w.
Proof.
  unfold newACMEClientWithAccount.
  destruct (newACMEClient g useTestCA w) as [client|] eqn:E; [|done]. apply newACMEClient_directory in E.
  destruct (clientAccount g client w) as [[a|] w1]; [|done].
  destruct (if acc_Status a =? "" then _ else _) as [[acct|] w2]; [|done]. by intros [= <- _].
Qed.

Lemma kept_directory w w' useTestCA : kept w w' → directory useTestCA w' = directory useTestCA w.
Proof. intros [[b Hi] Hd]. unfold directory, caDirectory. by rewrite Hi, Hd. Qed.
Lemma kept_CA w w' :
  kept w w' → am_CA (a_iss w') = am_CA (a_iss w) ∧ am_TestCA (a_iss w') = am_TestCA (a_iss w) ∧
    am_NewAccountFunc (a_iss w') = am_NewAccountFunc (a_iss w) ∧ am_email (a_iss w') = am_email (a_iss w) ∧
    am_PreferredChains (a_iss w') = am_PreferredChains (a_iss w).
Proof. intros [[b Hi] Hd]. by rewrite Hi. Qed.

Definition grows (P : acme_call → Prop) w w' : Prop :=
  ∃ t, a_trace w' = (a_trace w ++ t)%list ∧ Forall P t.

Lemma grows_same P w w' : a_trace w' = a_trace w → grows P w w'.
Proof. intros H. exists []. by rewrite app_nil_r. Qed.
Lemma grows_trans P w1 w2 w3 : grows P w1 w2 → grows P w2 w3 → grows P w1 w3.
Proof.
  intros (t & E1 & Ht) (u & E2 & Hu). exists (t ++ u)%list. split; [by rewrite E2, E1, app_assoc|].
  by apply Forall_app.
Qed.
Lemma grows_impl (P Q : acme_call → Prop) w w' : (∀ c, P c → Q c) → grows P w w' → grows Q w w'.
Proof. intros H (t & E & Ht). exists t. split; [done|]. eapply Forall_impl; eauto. Qed.

(** No order; only orders at the directory [d] for the account [a]. *)
Definition no_order (c : acme_call) : Prop := match c with CallObtain _ _ _ _ => False | _ => True end.
Definition orders (d : string) (a : Account) (c : acme_call) : Prop :=
  match c with CallObtain d' a' _ _ => d' = d ∧ a' = a | _ => True end.

Lemma no_order_orders d a c : no_order c → orders d a c.
Proof. by destruct c. Qed.

Lemma newACMEClientWithAccount_grows g useTestCA i w r w' :
  newACMEClientWithAccount g useTestCA i w = (r, w') → grows no_order w w'.
Proof.
  intros (t & E & Ht)%newACMEClientWithAccount_no_order. exists t. split; [done|].
  eapply Forall_impl; [exact Ht|]. by intros [].
Qed.

Lemma deleteAccountLocally_kept ca a w r w' :
  deleteAccountLocally ca a w = (r, w') → kept w w' ∧ a_trace w' = a_trace w.
Proof.
  unfold deleteAccountLocally, on_a_storage. destruct (Delete _ (a_storage w)) as [[u|] s1].
  - simpl. destruct (Delete _ s1) as [r2 s2]. intros [= _ <-]. split; [by apply kept_same|done].
  - intros [= _ <-]. split; [by apply kept_same|done].
Qed.

Lemma throttle_kept g c w r w' :
  throttle g c w = (r, w') →
  kept w w' ∧
  (is_Ok r = true →
   ∃ now, a_trace w' = (a_trace w ++
     [CallThrottle (client_Directory (c_acmeClient c) +:+ "," +:+ am_email (a_iss w)) now])%list) ∧
  (is_Ok r = false → a_trace w' = a_trace w).
Proof.
  unfold throttle, on_a_net. destruct (match rateLimiters w !! _ with Some _ => _ | None => _ end);
    [|intros [= <- <-]; split; [by apply kept_same|by split]].
  destruct (limiter_Wait _ _) as [[[ticket now]|] n]; intros [= <- <-];
    (split; [by apply kept_same|split; [intros; try done; by exists ticket|done]]).
Qed.

(** The loop orders at one directory, for the account of the parameters it was
    given; it ends without chains, or its last call is the order that gave
    them. *)
Lemma obtainLoop_spec n g useTestCA usingTestCA client params w r w' :
  am_NewAccountFunc (a_iss w) = false →
  client_Directory (c_acmeClient client) = directory useTestCA w →
  obtainLoop n g useTestCA usingTestCA client params w = (r, w') →
  let d := directory useTestCA w in
  kept w w' ∧ grows (orders d (order_Account params)) w w' ∧
  ∀ chains, r = inr chains → chains = [] ∨
    ∃ t, a_trace w' = (a_trace w ++ t ++ [CallObtain d (order_Account params) (order_Replaces params) (Ok chains)])%list ∧
      Forall (orders d (order_Account params)) t.
Proof.
  intros Hf Hd. revert client w Hf Hd. induction n as [|n IH]; intros client w Hf Hd H d.
  { injection H as <- <-. split; [by apply kept_same|]. split; [by apply grows_same|]. intros chains [= <-]. by left. }
  cbn [obtainLoop] in H. unfold on_a_net at 1 in H.
  destruct (acmez_ObtainCertificate _ _ _) as [ro n'] eqn:Eo. rewrite Hd in H. fold d in H.
  set (w1 := a_record _ _) in H.
  assert (kept w w1) as K1 by by apply kept_same.
  assert (grows (orders d (order_Account params)) w w1) as G1.
  { exists [CallObtain d (order_Account params) (order_Replaces params) ro]. split; [done|]. by repeat constructor. }
  destruct ro as [[|c cs]|err].
  - injection H as <- <-. split; [done|]. by split.
  - injection H as <- <-. split; [done|]. split; [done|]. intros chains [= <-]. right. by exists [].
  - assert (w' = w1 ∧ (∃ e, r = inl e) ∨
      match deleteAccountLocally (am_CA (a_iss w1)) (c_account client) w1 with
      | (Err _, w) => (inl (Errorf "resetting our local copy of the account info failed", usingTestCA), w)
      | (Ok _, w) => match newACMEClientWithAccount g useTestCA false w with
                     | (Err err, w) => (inl (err, false), w)
                     | (Ok client, w) => obtainLoop n g useTestCA usingTestCA client params w
                     end
      end = (r, w')) as [[-> [e ->]]|H'].
    { destruct (errors_As_Problem err) as [prob|]; [|injection H as <- <-; eauto].
      destruct (prob_Type prob =? _); [by right|]. injection H as <- <-. eauto. }
    { split; [done|]. by split. }
    clear H. destruct (deleteAccountLocally _ _ w1) as [[u|] w2] eqn:E2; apply deleteAccountLocally_kept in E2 as [K2 T2];
      apply (kept_trans _ _ _ K1) in K2; apply (grows_same (orders d (order_Account params))), (grows_trans _ _ _ _ G1) in T2.
    2: { injection H' as <- <-. by split. }
    destruct (newACMEClientWithAccount g useTestCA false w2) as [r3 w3] eqn:E3.
    pose proof (newACMEClientWithAccount_grows _ _ _ _ _ _ E3) as G3.
    apply (grows_impl _ _ _ _ (no_order_orders d (order_Account params))), (grows_trans _ _ _ _ T2) in G3.
    pose proof (kept_CA _ _ K2) as (_ & _ & Hf2 & _). rewrite Hf in Hf2.
    pose proof (newACMEClientWithAccount_kept _ _ _ _ _ _ Hf2 E3) as K3. apply (kept_trans _ _ _ K2) in K3.
    destruct r3 as [client'|]; [|injection H' as <- <-; by split].
    apply newACMEClientWithAccount_directory in E3. rewrite (kept_directory _ _ _ K2) in E3.
    pose proof (kept_CA _ _ K3) as (_ & _ & Hf3 & _). rewrite Hf in Hf3.
    apply IH in H' as (K4 & G4 & Hc); [|done|by rewrite (kept_directory _ _ _ K3)].
    rewrite (kept_directory _ _ _ K3) in G4, Hc. fold d in G4, Hc.
    split; [by eapply kept_trans|]. split; [by eapply grows_trans|].
    intros chains Hr. destruct (Hc chains Hr) as [Hnil|(t & T & Ht)]; [by left|]. right.
    destruct G3 as (t3 & T3 & Ht3). exists (t3 ++ t)%list. rewrite T, T3, !app_assoc. split; [done|].
    by apply Forall_app.
Qed.

(** The account an attempt orders for. *)
Definition one_account (d : string) (t : list acme_call) : Prop := ∃ a, Forall (orders d a) t.

(** Where the chain of a certificate came from: it is the one that is preferred
    among those that an order at [d] gave, and the metadata are those of it. *)
Definition came_from (prefs : ChainPreference) (d : string) (cert : IssuedCertificate) (c : acme_call) : Prop :=
  ∃ a repl chains chain, c = CallObtain d a repl (Ok chains) ∧
    chain ∈ chains ∧ (length chains ≠ 1%nat → preferred_chain prefs chains chain) ∧
    cert = MkIssued (ac_ChainPEM chain) (json_MarshalCertificate chain).

(** The calls [t] of one attempt once it has a client: a first attempt waits for
    the rate limiter, all orders are for one account at the directory [d], and
    a certificate comes from the last of them. *)
Definition attempt_calls (prefs : ChainPreference) (d email testCA : string) (first : bool)
    (r : option (result IssuedCertificate * bool)) (t : list acme_call) : Prop :=
  (first = true → t = [] ∨ ∃ now t', t = CallThrottle (d +:+ "," +:+ email) now :: t') ∧
  one_account d t ∧
  ∀ cert used, r = Some (Ok cert, used) →
    used = negb (testCA =? "") && (d =? testCA) ∧ ∃ t' c, t = (t' ++ [c])%list ∧ came_from prefs d cert c.

Lemma attempt_none prefs d email testCA first r :
  (∀ cert used, r ≠ Some (Ok cert, used)) → attempt_calls prefs d email testCA first r [].
Proof.
  intros Hr. split; [by left|]. split; [by exists zeroAccount|]. by intros cert used ?%Hr.
Qed.

Lemma attempt_none_throttled prefs d email testCA now r :
  (∀ cert used, r ≠ Some (Ok cert, used)) →
  attempt_calls prefs d email testCA true r [CallThrottle (d +:+ "," +:+ email) now].
Proof.
  intros Hr. split; [eauto|]. split; [exists zeroAccount; by repeat constructor|]. by intros cert used ?%Hr.
Qed.

(** The end of an attempt: the orders, after the throttling [t0]. *)
Lemma attempt_ordered prefs d email testCA (first : bool) now t0 a u r :
  t0 = (if first then [CallThrottle (d +:+ "," +:+ email) now] else []) →
  Forall (orders d a) u →
  (∀ cert used, r = Some (Ok cert, used) →
    used = negb (testCA =? "") && (d =? testCA) ∧ ∃ t' c, u = (t' ++ [c])%list ∧ came_from prefs d cert c) →
  attempt_calls prefs d email testCA first r (t0 ++ u).
Proof.
  intros -> Hu Hr. split; [intros ->; eauto|]. split.
  - exists a. apply Forall_app. split; [destruct first; by repeat constructor|done].
  - intros cert used E. destruct (Hr cert used E) as (Hused & t' & c & -> & Hc). split; [done|].
    eexists (_ ++ t')%list, c. by rewrite app_assoc.
Qed.

Lemma doIssue_spec g attempts replaces csr w r w' :
  am_NewAccountFunc (a_iss w) = false →
  doIssue g attempts replaces csr w = (r, w') →
  kept w w' ∧
  ∃ before t, a_trace w' = (a_trace w ++ before ++ t)%list ∧ Forall no_order before ∧
    attempt_calls (am_PreferredChains (a_iss w)) (directory (0 <? attempts)%nat w) (am_email (a_iss w)) (am_TestCA (a_iss w))
      (negb (0 <? attempts)%nat) r t.
Proof.
  intros Hf H. unfold doIssue in H. set (test := (0 <? attempts)%nat) in *. set (d := directory test w).
  destruct (newACMEClientWithAccount g test false w) as [rc w1] eqn:E1.
  pose proof (newACMEClientWithAccount_kept _ _ _ _ _ _ Hf E1) as K1.
  pose proof (newACMEClientWithAccount_grows _ _ _ _ _ _ E1) as (before & T1 & P1).
  destruct rc as [client|err].
  2: { injection H as <- <-. split; [done|]. exists before, []. rewrite app_nil_r. by auto using attempt_none. }
  pose proof (newACMEClientWithAccount_directory _ _ _ _ _ _ E1) as Hd. fold d in Hd.
  pose proof (kept_CA _ _ K1) as (_ & Htest & Hf1 & Hemail & _). rewrite Hf in Hf1.
  destruct (if test then (Ok tt, w1) else throttle g client w1) as [rt w2] eqn:Et.
  set (t0 now := if negb test then [CallThrottle (d +:+ "," +:+ am_email (a_iss w)) now] else []).
  assert (kept w1 w2 ∧ (is_Ok rt = false → a_trace w2 = a_trace w1) ∧
    (is_Ok rt = true → ∃ now, a_trace w2 = (a_trace w1 ++ t0 now)%list)) as (K2 & Tf & Tt).
  { subst t0. destruct test.
    - injection Et as <- <-. split; [by apply kept_same|]. split; [done|]. exists 0%Z. by rewrite app_nil_r.
    - apply throttle_kept in Et as (? & Ht & ?). rewrite Hd, Hemail in Ht. auto. }
  apply (kept_trans _ _ _ K1) in K2. destruct rt as [[]|err].
  2: { injection H as <- <-. split; [done|]. exists before, []. rewrite app_nil_r, Tf by done.
       destruct (is_panic err); auto using attempt_none. }
  destruct (Tt eq_refl) as [now Tn]. clear Tt. rename Tn into Tt.
  destruct (acmez_OrderParametersFromCSR _ csr) as [params|].
  2: { injection H as <- <-. split; [done|]. exists before, (t0 now). rewrite Tt, T1, app_assoc by done.
       split_and!; [done|done|]. subst t0. destruct test; [by apply attempt_none|by apply attempt_none_throttled]. }
  destruct (obtainLoop 2 g test _ client _ w2) as [ro w3] eqn:E3.
  pose proof (kept_CA _ _ K2) as (_ & _ & Hf2 & _). rewrite Hf in Hf2.
  apply obtainLoop_spec in E3 as (K3 & (u & T3 & P3) & Hc); [|done|by rewrite (kept_directory _ _ _ K2)].
  rewrite (kept_directory _ _ _ K2) in P3, Hc. fold d in P3, Hc.
  assert (w' = w3) as ->.
  { destruct ro as [[err used]|chains]; [by injection H|]. by destruct (selectPreferredChain _ _); injection H. }
  split; [by eapply kept_trans|]. exists before, (t0 now ++ u)%list.
  rewrite T3, Tt, T1, !app_assoc by done. split_and!; [done|done|].
  eapply attempt_ordered; [done|exact P3|]. intros cert used ->.
  destruct ro as [[err used']|chains]; [done|].
  destruct (selectPreferredChain _ chains) as [c|] eqn:Es; [|done]. injection H as <- <-.
  split; [unfold usingTestCA; by rewrite Hd, Htest|].
  destruct (kept_CA _ _ (kept_trans _ _ _ K2 K3)) as (_ & _ & _ & _ & Hpref). rewrite Hpref in Es.
  apply selectPreferredChain_preferred in Es as [Hin Hbest].
  destruct (Hc chains eq_refl) as [->|(t & Tt' & Pt)]; [by apply not_elem_of_nil in Hin|].
  rewrite T3 in Tt'. apply app_inv_head in Tt' as ->. eexists t, _. split; [done|]. by do 4 eexists.
Qed.

(** The two shapes of a run of [Issue]: one attempt, or a successful attempt at
    the test CA followed by one in production. *)
Lemma Issue_cases g attempts replaces csr w r w' :
  Issue g attempts replaces csr w = (r, w') →
  (∃ rd, doIssue g attempts replaces csr w = (rd, w') ∧
     ∀ cert, r = Some (Ok cert) → ∃ used, rd = Some (Ok cert, used) ∧
       (0 <? attempts)%nat && used && negb (am_CA (a_iss w') =? am_TestCA (a_iss w')) = false) ∨
  (∃ cert0 used w1 rd, (0 < attempts)%nat ∧
     doIssue g attempts replaces csr w = (Some (Ok cert0, used), w1) ∧ used = true ∧
     doIssue g 0 replaces csr w1 = (rd, w') ∧
     ∀ cert, r = Some (Ok cert) → ∃ used, rd = Some (Ok cert, used)).
Proof.
  unfold Issue. intros H. destruct (doIssue g attempts replaces csr w) as [rd w1] eqn:E.
  destruct rd as [[[cert0|err] used]|].
  - destruct ((0 <? attempts)%nat && used && _) eqn:Eb.
    + right. apply andb_true_iff in Eb as [[H1 H2]%andb_true_iff _]. apply Nat.ltb_lt in H1. subst used.
      destruct (doIssue g 0 replaces csr w1) as [rd w2] eqn:E2. exists cert0, true, w1, rd.
      assert (w' = w2 ∧ ∀ cert, r = Some (Ok cert) → ∃ used, rd = Some (Ok cert, used)) as [-> Hr]; [|auto].
      destruct rd as [[[cert|err] used]|]; [|destruct (errors_As_Problem err) as [p|]; [destruct (_ =? _)%Z|]|];
        injection H as <- <-; (split; [done|]); intros c; (done || intros [= <-]; eauto).
    + left. injection H as <- <-. eexists. split; [done|]. intros cert [= <-]. eauto.
  - left. injection H as <- <-. by eexists.
  - left. injection H as <- <-. by eexists.
Qed.

(** (C19) A certificate that is issued comes from the CA and not from the test CA:
    its chain is the preferred one of those that the last order gave, its metadata
    are those of that chain, and that order was made at the directory of the CA,
    or at that of the test CA when it is the same. The issuer has no callback for
    new accounts, which could change it on the way. *)
Theorem Issue_production g attempts replaces csr w cert w' :
  am_NewAccountFunc (a_iss w) = false →
  Issue g attempts replaces csr w = (Some (Ok cert), w') →
  ∃ t c d, a_trace w' = (a_trace w ++ t ++ [c])%list ∧
    came_from (am_PreferredChains (a_iss w)) d cert c ∧
    (d = caDirectory w ∨ am_CA (a_iss w) = am_TestCA (a_iss w) ∧ d = am_TestCA (a_iss w)).
Proof.
  intros Hf [(rd & H & Hr)|(cert0 & used & w1 & rd & Ha & H0 & _ & H & Hr)]%Issue_cases.
  - destruct (Hr cert eq_refl) as (used & -> & Hb). apply doIssue_spec in H as (K & before & t & T & _ & _ & _ & Hc); [|done].
    destruct (Hc cert used eq_refl) as (-> & t' & c & -> & Hfrom).
    pose proof (kept_CA _ _ K) as (Eca & Et & _). rewrite Eca, Et in Hb.
    exists (before ++ t')%list, c, (directory (0 <? attempts)%nat w). rewrite T, !app_assoc. split; [done|]. split; [done|].
    unfold directory in *. destruct (0 <? attempts)%nat; [|by left]. simpl in *.
    destruct (am_TestCA (a_iss w) =? ""); simpl in *; [by left|]. rewrite String.eqb_refl in Hb.
    right. split; [|done]. by apply negb_false_iff, String.eqb_eq in Hb.
  - apply doIssue_spec in H0 as (K0 & before0 & t0 & T0 & _ & _); [|done].
    pose proof (kept_CA _ _ K0) as (_ & _ & Hf1 & _ & Hpref). rewrite Hf in Hf1.
    destruct (Hr cert eq_refl) as (used' & ->). apply doIssue_spec in H as (K & before & t & T & _ & _ & _ & Hc); [|done].
    destruct (Hc cert used' eq_refl) as (_ & t' & c & -> & Hfrom). simpl in Hfrom.
    exists (before0 ++ t0 ++ before ++ t')%list, c, (directory false w). rewrite T, T0, !app_assoc.
    rewrite (kept_directory _ _ _ K0), Hpref in Hfrom. split; [done|]. split; [done|by left].
Qed.

(** (C20) A retry is tried on the test CA first: with a test CA, all the orders of
    a retry go to it, and the CA gets orders only after one that the test CA
    fulfilled, and only after waiting for the rate limiter of the CA and the
    account. The issuer has no callback for new accounts. *)
Theorem Issue_tests_first g attempts replaces csr w r w' :
  am_NewAccountFunc (a_iss w) = false → (0 < attempts)%nat → am_TestCA (a_iss w) ≠ "" →
  Issue g attempts replaces csr w = (r, w') →
  ∃ test, one_account (am_TestCA (a_iss w)) test ∧
    (a_trace w' = (a_trace w ++ test)%list ∨
     ∃ cert c between production, came_from (am_PreferredChains (a_iss w)) (am_TestCA (a_iss w)) cert c ∧
       a_trace w' = (a_trace w ++ (test ++ [c]) ++ between ++ production)%list ∧
       Forall no_order between ∧ one_account (caDirectory w) production ∧
       (production = [] ∨
        ∃ now t, production = CallThrottle (caDirectory w +:+ "," +:+ am_email (a_iss w)) now :: t)).
Proof.
  intros Hf Ha Ht.
  assert (directory (0 <? attempts)%nat w = am_TestCA (a_iss w)) as Hd.
  { unfold directory. rewrite (proj2 (Nat.ltb_lt _ _) Ha), (proj2 (String.eqb_neq _ _) Ht). done. }
  intros [(rd & H & _)|(cert0 & used & w1 & rd & _ & H0 & _ & H & _)]%Issue_cases.
  - apply doIssue_spec in H as (_ & before & t & T & Hb & _ & [a Ho] & _); [|done]. rewrite Hd in Ho.
    exists (before ++ t)%list. split; [|by left]. exists a. apply Forall_app. split; [|done].
    eapply Forall_impl; [exact Hb|]. intros c. apply no_order_orders.
  - apply doIssue_spec in H0 as (K0 & before0 & t0 & T0 & Hb0 & _ & [a Ho] & Hc); [|done]. rewrite Hd in Ho, Hc.
    destruct (Hc cert0 used eq_refl) as (_ & t' & c & -> & Hfrom).
    pose proof (kept_CA _ _ K0) as (_ & _ & Hf1 & He & _). rewrite Hf in Hf1.
    apply doIssue_spec in H as (_ & before & t & T & Hb & Hth & Hp & _); [|done]. simpl in Hth, Hp.
    rewrite (kept_directory _ _ _ K0) in Hth, Hp. rewrite He in Hth.
    apply Forall_app in Ho as [Ho _]. exists (before0 ++ t')%list. split.
    + exists a. apply Forall_app. split; [|done]. eapply Forall_impl; [exact Hb0|]. intros x. apply no_order_orders.
    + right. exists cert0, c, before, t. rewrite T, T0, !app_assoc. split_and!; auto.
Qed.

(** The first attempt is rate limited: before a first attempt makes an order
    it has waited for the limiter of the CA and the account's address. *)
Theorem first_attempt_throttled g replaces csr w r w' :
  am_NewAccountFunc (a_iss w) = false →
  Issue g 0 replaces csr w = (r, w') →
  ∃ before t, a_trace w' = (a_trace w ++ before ++ t)%list ∧ Forall no_order before ∧
    (t = [] ∨ ∃ now t', t = CallThrottle (caDirectory w +:+ "," +:+ am_email (a_iss w)) now :: t').
Proof.
  intros Hf [(rd & H & _)|(cert0 & used & w1 & rd & Ha & _)]%Issue_cases; [|lia].
  apply doIssue_spec in H as (_ & before & t & T & Hb & Hth & _); [|done]. exists before, t. auto.
Qed.

(** An account that the CA has forgotten is not replaced in the order: when
    every order for an account is answered that the account does not exist, an
    attempt with it issues nothing, although a new account was registered in
    between; it fails or panics. *)
Theorem recreated_account_unused g useTestCA usingTestCA client params w r w' :
  (∀ client n, ∃ e n' prob, acmez_ObtainCertificate client params n = (Err e, n') ∧
     errors_As_Problem e = Some prob ∧ prob_Type prob = ProblemTypeAccountDoesNotExist) →
  obtainLoop 2 g useTestCA usingTestCA client params w = (r, w') →
  (∃ err used, r = inl (err, used)) ∨
  r = inr [] ∧ ∀ prefs, selectPreferredChain prefs [] = None.
Proof.
  intros Hgone H.
  assert (∀ prefs, selectPreferredChain prefs [] = None) as Hpanic.
  { intros prefs. destruct (selectPreferredChain prefs []) eqn:E; [|done].
    by apply selectPreferredChain_offered, not_elem_of_nil in E. }
  cut ((∃ err used, r = inl (err, used)) ∨ r = inr []); [by intros [|]; auto|].
  revert client w H. generalize 2%nat. intros m. induction m as [|n IH]; intros client w H;
    [injection H as <- _; auto|].
  cbn [obtainLoop] in H. unfold on_a_net at 1 in H.
  destruct (Hgone (c_acmeClient client) (a_net w)) as (e & n' & prob & Ee & Hp & Ht).
  rewrite Ee, Hp, Ht in H. simpl in H.
  destruct (deleteAccountLocally _ _ _) as [[u|] w1]; [|injection H as <- _; eauto].
  destruct (newACMEClientWithAccount g useTestCA false w1) as [[client'|] w2]; [by eapply IH|].
  injection H as <- _; eauto.
Qed.

(** ** Theorems: the check before issuance *)

Lemma check_names_Ok ip names :
  check_names ip names = Ok tt →
  ∀ name, name ∈ names → SubjectQualifiesForPublicCert net_ParseIP name = true ∧
    (ip = true ∨ SubjectIsIP net_ParseIP name = false).
Proof.
  induction names as [|n names IH]; simpl; [by intros _ ??%not_elem_of_nil|].
  destruct (SubjectQualifiesForPublicCert net_ParseIP n) eqn:E1; [|done]. simpl.
  destruct (negb ip && SubjectIsIP net_ParseIP n) eqn:E2; [done|]. intros H name [->|Hn]%elem_of_cons; [|by apply IH].
  split; [done|]. apply andb_false_iff in E2 as [E2|E2]; [left|by right]. by apply negb_false_iff.
Qed.

(** With a public CA, names pass the check only if they qualify for a public
    certificate, and no IP address passes with a CA that does not issue for
    addresses, in whatever order the table of CAs is searched; a refused request
    changes nothing. *)
Theorem PreCheck_public order names interactive w r w' :
  order ≡ₚ publicCAsAndIPCerts →
  PreCheck order names interactive w = (r, w') →
  (∃ ca ip, (ca, ip) ∈ publicCAsAndIPCerts ∧ Contains (am_CA (a_iss w)) ca = true) →
  (r = Ok tt → ∀ name, name ∈ names →
     SubjectQualifiesForPublicCert net_ParseIP name = true ∧
     ((∀ ca ip, (ca, ip) ∈ publicCAsAndIPCerts → Contains (am_CA (a_iss w)) ca = true → ip = false) →
      SubjectIsIP net_ParseIP name = false)) ∧
  ((∃ name, name ∈ names ∧ SubjectQualifiesForPublicCert net_ParseIP name = false) → w' = w ∧ is_Ok r = false).
Proof.
  intros Hperm H (ca & ip & Hin & Hca). unfold PreCheck in H.
  destruct (List.find _ order) as [[ca' ip']|] eqn:Ef.
  2: { exfalso. pose proof (List.find_none _ _ Ef (ca, ip)) as Hn. simpl in Hn.
       rewrite Hca in Hn. discriminate Hn. apply list_elem_of_In. by rewrite Hperm. }
  apply List.find_some in Ef as [Hin' Hca']. apply list_elem_of_In in Hin'. rewrite Hperm in Hin'.
  destruct (check_names ip' names) as [[]|e] eqn:Ec.
  - pose proof (check_names_Ok _ _ Ec) as Hn. split.
    + intros _ name Hname. destruct (Hn name Hname) as [Hq Hip]. split; [done|].
      intros Hall. destruct Hip as [->|]; [|done]. discriminate (Hall ca' true Hin' Hca').
    + intros (name & Hname & Hq). destruct (Hn name Hname) as [Hq' _]. by rewrite Hq in Hq'.
  - injection H as <- <-. done.
Qed.
End issuer_theorems.

(** ** Examples *)

Module SimIssuer.
Import PlainCodec.
Definition csr : CertificateRequest := MkCSR "" ["a.com"] [] [] [].
Definition issued (attempts : nat) : option (result IssuedCertificate) * AState MemStorage.t SimCA.t :=
  Issue SimClient.vars attempts None csr SimClient.ready.
Definition cert : IssuedCertificate :=
  MkIssued (ac_ChainPEM (SimCA.chain SimCA.le "long")) (Ok "https://le.org/dir/long").

Definition set_prefs (CA : string) (prefs : ChainPreference) (am : ACMEIssuer) : ACMEIssuer :=
  MkACMEIssuer CA (am_TestCA am) (am_Email am) (am_AccountKeyPEM am) (am_Agreed am)
    (am_ExternalAccount am) (am_Profile am) (am_NotBefore am) (am_NotAfter am)
    (am_DisableHTTPChallenge am) (am_DisableTLSALPNChallenge am) (am_ListenHost am)
    (am_AltHTTPPort am) (am_AltTLSALPNPort am) (am_DNS01Solver am) (am_CertObtainTimeout am)
    (am_Resolver am) (am_NewAccountFunc am) prefs (am_DisableARI am) (am_email am) (am_agreed am).

Definition chains : list acmeCertificate := [SimCA.chain SimCA.le "long"; SimCA.chain SimCA.le "x"].
Definition letsencrypt : AState MemStorage.t SimCA.t :=
  with_iss (set_prefs LetsEncryptProductionCA (MkChainPreference None [] [])) SimClient.ready.

(** A server that has lost its accounts: the stored one is not known to it. *)
Definition forgotten : AState MemStorage.t SimCA.t :=
  snd (saveAccount SimCA.le SimCA.account SimClient.ready).
(** The same for the test CA, while the account of the CA is fine. *)
Definition forgotten_test : AState MemStorage.t SimCA.t :=
  snd (saveAccount SimCA.staging SimCA.account SimClient.registered).
End SimIssuer.

Lemma Issue_production_witness :
  ∃ t c d, a_trace (SimIssuer.issued 1).2 = (a_trace SimClient.ready ++ t ++ [c])%list ∧
    came_from (am_PreferredChains (a_iss SimClient.ready)) d SimIssuer.cert c ∧
    (d = caDirectory SimClient.ready ∨
     am_CA (a_iss SimClient.ready) = am_TestCA (a_iss SimClient.ready) ∧ d = am_TestCA (a_iss SimClient.ready)).
Proof.
  assert (Issue SimClient.vars 1 None SimIssuer.csr SimClient.ready =
          (Some (Ok SimIssuer.cert), (SimIssuer.issued 1).2)) as H by (by vm_compute).
  exact (Issue_production SimClient.vars 1 None SimIssuer.csr SimClient.ready SimIssuer.cert
           (SimIssuer.issued 1).2 eq_refl H).
Defined.

Lemma Issue_tests_first_witness :
  Issue SimClient.vars 1 None SimIssuer.csr SimClient.ready = SimIssuer.issued 1 ∧
  ∃ test, one_account (am_TestCA (a_iss SimClient.ready)) test ∧
    (a_trace (SimIssuer.issued 1).2 = (a_trace SimClient.ready ++ test)%list ∨
     ∃ cert c between production, came_from (am_PreferredChains (a_iss SimClient.ready)) (am_TestCA (a_iss SimClient.ready)) cert c ∧
       a_trace (SimIssuer.issued 1).2 = (a_trace SimClient.ready ++ (test ++ [c]) ++ between ++ production)%list ∧
       Forall no_order between ∧ one_account (caDirectory SimClient.ready) production ∧
       (production = [] ∨ ∃ now t, production =
          CallThrottle (caDirectory SimClient.ready +:+ "," +:+ am_email (a_iss SimClient.ready)) now :: t)).
Proof.
  split; [done|].
  exact (Issue_tests_first SimClient.vars 1 None SimIssuer.csr SimClient.ready (SimIssuer.issued 1).1
           (SimIssuer.issued 1).2 eq_refl ltac:(lia) ltac:(done) (surjective_pairing (SimIssuer.issued 1))).
Defined.

Lemma first_attempt_throttled_witness :
  ∃ before t, a_trace (SimIssuer.issued 0).2 = (a_trace SimClient.ready ++ before ++ t)%list ∧
    Forall no_order before ∧
    (t = [] ∨ ∃ now t', t = CallThrottle (caDirectory SimClient.ready +:+ "," +:+ am_email (a_iss SimClient.ready)) now :: t').
Proof.
  exact (first_attempt_throttled SimClient.vars None SimIssuer.csr SimClient.ready (SimIssuer.issued 0).1
           (SimIssuer.issued 0).2 eq_refl (surjective_pairing (SimIssuer.issued 0))).
Defined.

Lemma selectPreferredChain_preferred_witness :
  let prefs := MkChainPreference (Some true) [] [] in
  selectPreferredChain prefs SimIssuer.chains = Some (SimCA.chain SimCA.le "x") ∧
  preferred_chain prefs SimIssuer.chains (SimCA.chain SimCA.le "x").
Proof.
  intros prefs. assert (selectPreferredChain prefs SimIssuer.chains = Some (SimCA.chain SimCA.le "x")) as H
    by (by vm_compute). split; [exact H|].
  apply (selectPreferredChain_preferred prefs SimIssuer.chains _ H). done.
Defined.

Lemma PreCheck_public_witness :
  let w := SimIssuer.letsencrypt in
  PreCheck publicCAsAndIPCerts ["a.com"] false w = (Ok tt, snd (PreCheck publicCAsAndIPCerts ["a.com"] false w)) ∧
  SubjectQualifiesForPublicCert (net_ParseIP (N := SimCA.t)) "a.com" = true.
Proof.
  intros w. assert (PreCheck publicCAsAndIPCerts ["a.com"] false w =
    (Ok tt, snd (PreCheck publicCAsAndIPCerts ["a.com"] false w))) as H by (by vm_compute).
  split; [exact H|].
  apply (PreCheck_public publicCAsAndIPCerts ["a.com"] false w (Ok tt) _ ltac:(done) H); [|done|by left].
  exists "api.letsencrypt.org", false. split; [by left|by vm_compute].
Defined.

Lemma recreated_account_unused_witness :
  let p := obtainLoop (A := SimCA.lost) 2 SimClient.vars false false
             (MkAcmeClient SimClient.client SimCA.account) (MkOrder SimCA.account SimIssuer.csr 0 0 None "")
             SimClient.ready in
  (∃ err used, p.1 = inl (err, used)) ∨ p.1 = inr [] ∧ ∀ prefs, selectPreferredChain (A := SimCA.lost) prefs [] = None.
Proof.
  intros p. apply (recreated_account_unused (A := SimCA.lost) SimClient.vars false false
    (MkAcmeClient SimClient.client SimCA.account) (MkOrder SimCA.account SimIssuer.csr 0 0 None "")
    SimClient.ready p.1 p.2).
  - intros client n. by do 3 eexists.
  - apply surjective_pairing.
Defined.

(** An order for an account that a server has lost makes the attempt panic, and
    leaves a second new account on the server. *)
Example forgotten_account_panics :
  let p := Issue SimClient.vars 0 None SimIssuer.csr SimIssuer.forgotten in
  p.1 = None ∧ registrations (a_trace p.2) = 2%nat.
Proof. by vm_compute. Qed.

(** With the test CA it is the account of the CA that is deleted locally. *)
Example forgotten_test_account :
  let p := Issue SimClient.vars 1 None SimIssuer.csr SimIssuer.forgotten_test in
  is_Ok (loadAccount (a_storage SimIssuer.forgotten_test) SimCA.le "me@a.com") = true ∧
  is_Ok (loadAccount (a_storage p.2) SimCA.le "me@a.com") = false ∧
  is_Ok (loadAccount (a_storage p.2) SimCA.staging "me@a.com") = true ∧ p.1 = None.
Proof. by vm_compute. Qed.

(** Without a test CA the retries go to the CA past the rate limiter. *)
Example retry_not_throttled :
  let w := with_iss (SimClient.set_TestCA "") SimClient.ready in
  let t := a_trace (Issue SimClient.vars 1 None SimIssuer.csr w).2 in
  existsb (λ c, match c with CallThrottle _ _ => true | _ => false end) t = false ∧
  existsb (λ c, match c with CallObtain d _ _ (Ok _) => d =? SimCA.le | _ => false end) t = true.
Proof. by vm_compute. Qed.

(** A chain that does not parse makes the search for a root panic. *)
Example root_of_bad_chain_panics :
  selectPreferredChain (MkChainPreference None ["Root A"] []) (MkACMECert "u" "" :: SimIssuer.chains) = None.
Proof. by vm_compute. Qed.
