(* ===== verification/ZeroSSL.v ===== *)
(** * The ZeroSSL issuer (zerosslissuer.go)

    A certificate is created at the API, its identifiers are validated over
    HTTP or with CNAME records, and it is downloaded once it is issued; what was
    set up for the validation is taken down by deferred calls, and a certificate
    that failed is canceled. The API is the class [ZeroSSLNet]. *)

From stdpp Require Import pretty.
From S2P Require Import Prelude GoStrings Certificates Storage Crypto Config Dns Solvers DnsSolver.
From S2P Require Import Challenges AcmeClient.
From Stdlib Require Import Ascii.
Import KeyBuilder.
Open Scope string_scope.

(** ** Data *)

(** [zerossl.ValidationObject] and [zerossl.CertificateObject]; the map of
    validation methods is the list of its entries in the order of an iteration. *)
Record ValidationInfo := MkValidation {
  FileValidationURLHTTP : string;
  FileValidationContent : list string;
  CnameValidationP1 : string;
  CnameValidationP2 : string
}.
Record CertificateObject := MkCertObject {
  zc_ID : string;
  zc_Status : string;
  zc_OtherMethods : list (string * ValidationInfo)
}.

Inductive VerificationMethod := HTTPVerification | CNAMEVerification.
Inductive RevocationReason :=
| UnspecifiedReason | KeyCompromise | AffiliationChanged | Superseded | CessationOfOperation.

(** [zi_Storage]: there is a storage. *)
Record ZeroSSLIssuer := MkZeroSSLIssuer {
  zi_APIKey : string;
  zi_Storage : bool;
  zi_ValidityDays : Z;
  zi_ListenHost : string;
  zi_AltHTTPPort : Z;
  zi_CNAMEValidation : option DNSManager;
  zi_PollInterval : Duration
}.

(** The API, with the access key; a bundle is the certificate and those of the
    CA. [ticker_or_Done] is the next tick or the end of the context. *)
Class ZeroSSLNet (N : Type) := {
  CreateCertificate : string → CertificateRequest → Z → ST N (result CertificateObject);
  CancelCertificate : string → string → ST N (result unit);
  VerifyIdentifiers : string → string → VerificationMethod → ST N (result CertificateObject);
  GetCertificateObject : string → string → ST N (result CertificateObject);
  DownloadCertificate : string → string → ST N (result (string * string));
  RevokeCertificate : string → string → RevocationReason → ST N (result unit);
  ticker_or_Done : Duration → ST N (option error);
  json_MarshalCertObject : CertificateObject → result bytes;
  json_UnmarshalCertObject : bytes → result CertificateObject
}.

(** What was done, in order. *)
Inductive z_call :=
| ZCreate (id : string)
| ZCancel (id : string)
| ZPresent (chal : acmeChallenge) (ok : bool)
| ZCleanUp (chal : acmeChallenge)
| ZCreateRecord (zr : zoneRecord)
| ZCreateRecordFailed
| ZCleanUpRecord (zr : zoneRecord)
| ZWait (zr : zoneRecord)
| ZStatus (cert : CertificateObject)
| ZDownload (id : string) (bundle : result (string * string)).

(** The world of the solvers with the cache of SOA records. *)
Record ZWorld (St N : Type) := MkZ {
  z_sw : SWorld St N;
  z_soa : gmap string soaCacheEntry;
  z_trace : list z_call
}.
Arguments MkZ {St N}.
Arguments z_sw {St N}.
Arguments z_soa {St N}.
Arguments z_trace {St N}.

Section zerossl.
Context {St N : Type} `{!ChallengeLib} `{!Storage St} `{!ListenNet N} `{!DNSNet N} `{!DNSProvider N}
  `{ZN : !ZeroSSLNet N}.
Implicit Types (iss : ZeroSSLIssuer) (w : ZWorld St N).

Definition on_z_sw {T} (m : ST (SWorld St N) T) : ST (ZWorld St N) T := λ w,
  let '(r, sw) := m (z_sw w) in (r, MkZ sw (z_soa w) (z_trace w)).
Definition on_z_net {T} (m : ST N T) : ST (ZWorld St N) T := on_z_sw (on_sw_net m).
Definition on_z_dns {T} (m : ST (DState N) T) : ST (ZWorld St N) T := λ w,
  let '(r, d) := m (MkDState (sw_net (z_sw w)) (z_soa w)) in
  (r, MkZ (MkSW (sw_storage (z_sw w)) (sw_proc (z_sw w)) (d_net d)) (fqdnSOACache d) (z_trace w)).
Definition z_record (c : z_call) w : ZWorld St N := MkZ (z_sw w) (z_soa w) (z_trace w ++ [c])%list.

(** ** Waiting *)

Definition defaultPollInterval : Duration := (5 * Second)%Z.
Definition pollInterval iss : Duration :=
  if (zi_PollInterval iss =? 0)%Z then defaultPollInterval else zi_PollInterval iss.

(** The loop over the ticks; [None] when the certificate is pending and the
    context alive after [fuel] of them. *)
Fixpoint waitForCertToBeIssued (fuel : nat) iss (cert : CertificateObject) :
    ST (ZWorld St N) (option (result CertificateObject)) := λ w,
  match fuel with
  | O => (None, w)
  | S fuel' =>
      match on_z_net (ticker_or_Done (pollInterval iss)) w with
      | (Some e, w) => (Some (Err e), w)
      | (None, w) =>
          match on_z_net (GetCertificateObject (zi_APIKey iss) (zc_ID cert)) w with
          | (Err e, w) => (Some (Err e), w)
          | (Ok cert, w) =>
              let w := z_record (ZStatus cert) w in
              if zc_Status cert =? "issued" then (Some (Ok cert), w)
              else if negb (zc_Status cert =? "pending_validation")
              then (Some (Err (Errorf "unexpected certificate status")), w)
              else waitForCertToBeIssued fuel' iss cert w
          end
      end
  end.

(** ** Issuance *)

Definition zerossl_getHTTPPort (g : PackageVars) iss : Z :=
  let useHTTPPort := HTTPChallengePort in
  let useHTTPPort := if ((0 <? HTTPPort g) && negb (HTTPPort g =? HTTPChallengePort))%Z
                     then HTTPPort g else useHTTPPort in
  if (0 <? zi_AltHTTPPort iss)%Z then zi_AltHTTPPort iss else useHTTPPort.

(** The result of a part of [Issue], and whether the variable [err] of the
    function holds an error when it returns, which the deferred cancellation
    looks at; [None] is waiting for ever. *)
Abbreviation outcome := (option (result IssuedCertificate * bool)) (only parsing).

(** From the validation on. *)
Definition downloadBundle iss (cert : CertificateObject) : ST (ZWorld St N) outcome := λ w,
  let '(r, w) := on_z_net (DownloadCertificate (zi_APIKey iss) (zc_ID cert)) w in
  let w := z_record (ZDownload (zc_ID cert) r) w in
  match r with
  | Err _ => (Some (Err (Errorf "downloading certificate"), true), w)
  | Ok (certificateCrt, caBundleCrt) =>
      (Some (Ok (MkIssued (certificateCrt +:+ caBundleCrt) (json_MarshalCertObject cert)), false), w)
  end.

Definition verifyAndDownload (fuel : nat) iss (certID : string) (method : VerificationMethod) :
    ST (ZWorld St N) outcome := λ w,
  match on_z_net (VerifyIdentifiers (zi_APIKey iss) certID method) w with
  | (Err _, w) => (Some (Err (Errorf "verifying identifiers"), true), w)
  | (Ok cert, w) =>
      let w := z_record (ZStatus cert) w in
      if zc_Status cert =? "pending_validation" then
        match waitForCertToBeIssued fuel iss cert w with
        | (None, w) => (None, w)
        | (Some (Err _), w) => (Some (Err (Errorf "waiting for certificate to be issued"), true), w)
        | (Some (Ok cert), w) => downloadBundle iss cert w
        end
      else if zc_Status cert =? "issued" then downloadBundle iss cert w
      else (Some (Err (Errorf "unexpected certificate status"), false), w)
  end.

(** A nil entry is the zero value. *)
Definition method_of (name : string) (methods : list (string * ValidationInfo)) : ValidationInfo :=
  match List.find (λ m, m.1 =? name) methods with Some (_, v) => v | None => MkValidation "" [] "" "" end.

Definition fakeChallenge (identifier : string) (cert : CertificateObject) : acmeChallenge :=
  let valInfo := method_of identifier (zc_OtherMethods cert) in
  MkChallenge "" (FileValidationURLHTTP valInfo) (Join (FileValidationContent valInfo) (String "010"%char "")) ""
    (MkIdentifier "" identifier).

Definition httpVerifier (g : PackageVars) iss : Solver (SWorld St N) :=
  let solver := httpSolver (JoinHostPort (zi_ListenHost iss) (pretty (zerossl_getHTTPPort g iss))) in
  if zi_Storage iss then distributedSolver zerosslIssuerKey solver else solver.

(** HTTP validation: the deferred [CleanUp] is there once [Present] succeeded. *)
Definition issueHTTP (fuel : nat) (g : PackageVars) iss (identifier : string) (cert : CertificateObject) :
    ST (ZWorld St N) outcome := λ w,
  let chal := fakeChallenge identifier cert in
  let solver := httpVerifier g iss in
  let '(r, w) := on_z_sw (sv_Present solver chal) w in
  let w := z_record (ZPresent chal (is_Ok r)) w in
  match r with
  | Err _ => (Some (Err (Errorf "presenting validation file for verification"), true), w)
  | Ok _ =>
      match verifyAndDownload fuel iss (zc_ID cert) HTTPVerification w with
      | (None, w) => (None, w)
      | (Some r, w) => (Some r, z_record (ZCleanUp chal) (snd (on_z_sw (sv_CleanUp solver chal) w)))
      end
  end.

(** The loop that creates the records: those made, the last first, and whether
    all were. *)
Fixpoint createRecords (m : DNSManager) (methods : list (string * ValidationInfo)) (made : list zoneRecord) :
    ST (ZWorld St N) (list zoneRecord * bool) := λ w,
  match methods with
  | [] => ((made, true), w)
  | (_, verifyInfo) :: rest =>
      match on_z_dns (createRecord m (CnameValidationP1 verifyInfo) "CNAME"
                        (CnameValidationP2 verifyInfo +:+ ".")) w with
      | (Err _, w) => ((made, false), z_record ZCreateRecordFailed w)
      | (Ok zr, w) => createRecords m rest (zr :: made) (z_record (ZCreateRecord zr) w)
      end
  end.

(** The loop that waits for them; errors are only logged. *)
Fixpoint waitRecords (m : DNSManager) (zrs : list zoneRecord) w : ZWorld St N :=
  match zrs with
  | [] => w
  | zr :: rest => waitRecords m rest (z_record (ZWait zr) (snd (on_z_dns (wait m zr) w)))
  end.

(** The deferred calls, which run last first. *)
Fixpoint cleanUpRecords (m : DNSManager) (made : list zoneRecord) w : ZWorld St N :=
  match made with
  | [] => w
  | zr :: rest => cleanUpRecords m rest (z_record (ZCleanUpRecord zr) (snd (on_z_dns (cleanUpRecord m zr) w)))
  end.

Definition issueCNAME (fuel : nat) iss (m : DNSManager) (cert : CertificateObject) :
    ST (ZWorld St N) outcome := λ w,
  match createRecords m (zc_OtherMethods cert) [] w with
  | ((made, false), w) => (Some (Err (Errorf "creating CNAME record"), false), cleanUpRecords m made w)
  | ((made, true), w) =>
      match verifyAndDownload fuel iss (zc_ID cert) CNAMEVerification (waitRecords m (reverse made) w) with
      | (None, w) => (None, w)
      | (Some r, w) => (Some r, cleanUpRecords m made w)
      end
  end.

Definition zerossl_Issue (fuel : nat) (g : PackageVars) iss (csr : CertificateRequest) :
    ST (ZWorld St N) (option (result IssuedCertificate)) := λ w,
  match namesFromCSR csr with
  | [] => (Some (Err (Errorf "no identifiers on CSR")), w)
  | identifier :: _ =>
      match on_z_net (CreateCertificate (zi_APIKey iss) csr (zi_ValidityDays iss)) w with
      | (Err _, w) => (Some (Err (Errorf "creating certificate")), w)
      | (Ok cert, w) =>
          let w := z_record (ZCreate (zc_ID cert)) w in
          match match zi_CNAMEValidation iss with
                | None => issueHTTP fuel g iss identifier cert w
                | Some m => issueCNAME fuel iss m cert w
                end with
          | (None, w) => (None, w)
          | (Some (r, err), w) =>
              (Some r,
               if err then z_record (ZCancel (zc_ID cert))
                             (snd (on_z_net (CancelCertificate (zi_APIKey iss) (zc_ID cert)) w))
               else w)
          end
      end
  end.

(** ** Revocation *)

(** The reason codes of RFC 5280. *)
Definition revocation_reason (reason : Z) : option RevocationReason :=
  if (reason =? 1)%Z then Some KeyCompromise
  else if (reason =? 3)%Z then Some AffiliationChanged
  else if (reason =? 4)%Z then Some Superseded
  else if (reason =? 5)%Z then Some CessationOfOperation
  else if (reason =? 0)%Z then Some UnspecifiedReason
  else None.

Definition zerossl_Revoke iss (cert : CertificateResource) (reason : Z) : ST (ZWorld St N) (result unit) := λ w,
  match revocation_reason reason with
  | None => (Err (Errorf "unsupported reason"), w)
  | Some r =>
      match json_UnmarshalCertObject (IssuerData cert) with
      | Err e => (Err e, w)
      | Ok certObj => on_z_net (RevokeCertificate (zi_APIKey iss) (zc_ID certObj) r) w
      end
  end.
End zerossl.

(** ** Theorems *)

Section zerossl_theorems.
Context {St N : Type} `{CH : !ChallengeLib} `{!Storage St} `{!ListenNet N} `{!DNSNet N} `{!DNSProvider N}
  `{ZN : !ZeroSSLNet N}.
Implicit Types (iss : ZeroSSLIssuer) (w : ZWorld St N).

(** *** What is set up is taken down *)

(** A file that is presented, whether that succeeds or not, and a record that is
    created are set up; what takes them down. *)
Definition opening (c : z_call) : Prop :=
  match c with ZPresent _ _ | ZCreateRecord _ => True | _ => False end.
Definition closing (c : z_call) : z_call :=
  match c with ZPresent chal _ => ZCleanUp chal | ZCreateRecord zr => ZCleanUpRecord zr | c => c end.
Definition during (c : z_call) : Prop :=
  match c with
  | ZCreateRecordFailed | ZWait _ | ZStatus _ | ZDownload _ _ => True
  | _ => False
  end.

(** The last status seen is that of a certificate that is issued, and its bundle
    was downloaded; or the status was neither that nor pending. *)
Definition downloaded (ic : IssuedCertificate) (t : list z_call) : Prop :=
  ∃ t' cert crt ca, t = (t' ++ [ZStatus cert; ZDownload (zc_ID cert) (Ok (crt, ca))])%list ∧
    zc_Status cert = "issued" ∧ ic_Certificate ic = crt +:+ ca.
Definition unexpected (t : list z_call) : Prop :=
  ∃ t' cert, t = (t' ++ [ZStatus cert])%list ∧
    zc_Status cert ≠ "issued" ∧ zc_Status cert ≠ "pending_validation".

(** What one outcome tells of the calls [t] of the part after the set up. *)
Definition explains (o : option (result IssuedCertificate * bool)) (t : list z_call) : Prop :=
  match o with
  | None => True
  | Some (Ok ic, err) => err = false ∧ downloaded ic t
  | Some (Err _, err) => err = true ∨ unexpected t
  end.

Lemma on_z_net_trace {T} (m : ST N T) w r w' : on_z_net m w = (r, w') → z_trace w' = z_trace w.
Proof. unfold on_z_net, on_z_sw, on_sw_net. destruct (m _). by intros [= _ <-]. Qed.
Lemma on_z_sw_trace {T} (m : ST (SWorld St N) T) w r w' : on_z_sw m w = (r, w') → z_trace w' = z_trace w.
Proof. unfold on_z_sw. destruct (m _). by intros [= _ <-]. Qed.
Lemma on_z_dns_trace {T} (m : ST (DState N) T) w r w' : on_z_dns m w = (r, w') → z_trace w' = z_trace w.
Proof. unfold on_z_dns. destruct (m _). by intros [= _ <-]. Qed.

Lemma downloadBundle_calls iss cert w o w' t0 :
  zc_Status cert = "issued" → downloadBundle iss cert w = (o, w') →
  ∃ t, z_trace w' = (z_trace w ++ t)%list ∧ Forall during t ∧ explains o (t0 ++ [ZStatus cert] ++ t).
Proof.
  intros Hs. unfold downloadBundle.
  destruct (on_z_net _ w) as [r w1] eqn:E. apply on_z_net_trace in E. intros H.
  exists [ZDownload (zc_ID cert) r]. split; [destruct r as [[]|]; injection H as _ <-; simpl; by rewrite E|].
  split; [by repeat constructor|].
  destruct r as [[crt ca]|]; injection H as <- _; [|by left]. split; [done|]. by exists t0, cert, crt, ca.
Qed.

Lemma waitForCertToBeIssued_calls fuel iss cert w o w' :
  waitForCertToBeIssued fuel iss cert w = (o, w') →
  ∃ t, z_trace w' = (z_trace w ++ t)%list ∧ Forall during t ∧
    ∀ cert', o = Some (Ok cert') → zc_Status cert' = "issued" ∧ ∃ t', t = (t' ++ [ZStatus cert'])%list.
Proof.
  revert cert w. induction fuel as [|fuel IH]; intros cert w H.
  { injection H as <- <-. exists []. by rewrite app_nil_r. }
  cbn [waitForCertToBeIssued] in H.
  destruct (on_z_net (ticker_or_Done _) w) as [[e|] w1] eqn:E1; apply on_z_net_trace in E1.
  { injection H as <- <-. exists []. by rewrite app_nil_r. }
  destruct (on_z_net (GetCertificateObject _ _) w1) as [[cert1|e] w2] eqn:E2; apply on_z_net_trace in E2.
  2: { injection H as <- <-. exists []. rewrite app_nil_r. split; [congruence|done]. }
  destruct (String.eqb_spec (zc_Status cert1) "issued") as [Hi|Hi].
  { injection H as <- <-. exists [ZStatus cert1]. simpl. rewrite E2, E1. split; [done|].
    split; [by repeat constructor|]. intros c [= <-]. split; [done|]. by exists []. }
  destruct (negb _).
  { injection H as <- <-. exists [ZStatus cert1]. simpl. rewrite E2, E1. split; [done|]. by repeat constructor. }
  apply IH in H as (t & T & P & Hc). simpl in T. exists (ZStatus cert1 :: t).
  rewrite T, E2, E1, <-app_assoc. split; [done|]. split; [by constructor|].
  intros c Hcc. destruct (Hc c Hcc) as (Hst & t' & ->). split; [done|]. by exists (ZStatus cert1 :: t').
Qed.

Lemma verifyAndDownload_calls fuel iss id m w o w' :
  verifyAndDownload fuel iss id m w = (o, w') →
  ∃ t, z_trace w' = (z_trace w ++ t)%list ∧ Forall during t ∧ explains o t.
Proof.
  unfold verifyAndDownload. intros H.
  destruct (on_z_net _ w) as [[cert|e] w1] eqn:E; apply on_z_net_trace in E.
  2: { injection H as <- <-. exists []. rewrite app_nil_r. split; [done|]. split; [done|by left]. }
  destruct (String.eqb_spec (zc_Status cert) "pending_validation") as [Hp|Hp].
  - destruct (waitForCertToBeIssued fuel iss cert _) as [rw w2] eqn:Ew.
    apply waitForCertToBeIssued_calls in Ew as (t & T & P & Hc). simpl in T.
    assert (z_trace w2 = (z_trace w ++ ZStatus cert :: t)%list) as T2 by (rewrite T, E, <-app_assoc; done).
    destruct rw as [[cert'|e]|].
    + destruct (Hc cert' eq_refl) as (Hi & t' & ->).
      apply (downloadBundle_calls _ _ _ _ _ (ZStatus cert :: t') Hi) in H as (u & U & Pu & He).
      exists (ZStatus cert :: t' ++ [ZStatus cert'] ++ u)%list.
      rewrite U, T2. split; [rewrite <-app_assoc; simpl; by rewrite <-app_assoc|]. split; [|done].
      constructor; [done|]. apply Forall_app in P as [P _]. apply Forall_app. split; [done|]. by constructor.
    + injection H as <- <-. exists (ZStatus cert :: t). split; [done|]. split; [by constructor|by left].
    + injection H as <- <-. exists (ZStatus cert :: t). split; [done|]. split; [by constructor|done].
  - destruct (String.eqb_spec (zc_Status cert) "issued") as [Hi|Hi].
    + apply (downloadBundle_calls _ _ _ _ _ [] Hi) in H as (u & U & Pu & He). simpl in U.
      exists (ZStatus cert :: u). rewrite U, E, <-app_assoc. split; [done|]. split; [by constructor|done].
    + injection H as <- <-. exists [ZStatus cert]. simpl. rewrite E. split; [done|].
      split; [by repeat constructor|]. right. by exists [], cert.
Qed.

Lemma createRecords_calls m methods made w r w' :
  createRecords m methods made w = (r, w') →
  ∃ new, r.1 = (reverse new ++ made)%list ∧
    z_trace w' = (z_trace w ++ (ZCreateRecord <$> new) ++ if r.2 then [] else [ZCreateRecordFailed])%list.
Proof.
  revert made w. induction methods as [|[n v] methods IH]; intros made w H; cbn [createRecords] in H.
  { injection H as <- <-. exists []. simpl. by rewrite app_nil_r. }
  destruct (on_z_dns _ w) as [[zr|e] w1] eqn:E; apply on_z_dns_trace in E.
  - apply IH in H as (new & Hr & T). exists (zr :: new). rewrite T, Hr. simpl.
    rewrite E, reverse_cons, <-!app_assoc. done.
  - injection H as <- <-. exists []. simpl. by rewrite E.
Qed.

Lemma waitRecords_calls m zrs w : z_trace (waitRecords m zrs w) = (z_trace w ++ (ZWait <$> zrs))%list.
Proof.
  revert w. induction zrs as [|zr zrs IH]; intros w; simpl; [by rewrite app_nil_r|]. rewrite IH. simpl.
  destruct (on_z_dns _ w) as [r w1] eqn:E. apply on_z_dns_trace in E. simpl. by rewrite E, <-app_assoc.
Qed.

Lemma cleanUpRecords_calls m zrs w :
  z_trace (cleanUpRecords m zrs w) = (z_trace w ++ (ZCleanUpRecord <$> zrs))%list.
Proof.
  revert w. induction zrs as [|zr zrs IH]; intros w; simpl; [by rewrite app_nil_r|]. rewrite IH. simpl.
  destruct (on_z_dns _ w) as [r w1] eqn:E. apply on_z_dns_trace in E. simpl. by rewrite E, <-app_assoc.
Qed.

(** The calls of an attempt in three parts: what is set up, what happens, and what
    is taken down. *)
Definition explained (o : option (result IssuedCertificate * bool)) (body : list z_call) : Prop :=
  Forall during body ∧
  (explains o body ∨ ∃ e, o = Some (Err e, false) ∧ body = [ZCreateRecordFailed]).

(** All that was set up is taken down, the last first, and no presentation has
    failed. *)
Definition taken_down (opens closes : list z_call) : Prop :=
  closes = closing <$> reverse opens ∧ ∀ chal, ZPresent chal false ∉ opens.

(** A presentation that failed ends the attempt, and what it has left behind, in
    the storage and at the address, stays: nothing is taken down. *)
Definition left_behind (g : PackageVars) iss (opens body closes : list z_call) (sw' : SWorld St N) : Prop :=
  ∃ chal sw e sw1, opens = [ZPresent chal false] ∧ body = [] ∧ closes = [] ∧
    sv_Present (httpVerifier g iss) chal sw = (Err e, sw1) ∧
    sw_storage sw' = sw_storage sw1 ∧ sw_proc sw' = sw_proc sw1.

Lemma issueHTTP_calls fuel g iss identifier cert w r err w' :
  issueHTTP fuel g iss identifier cert w = (Some (r, err), w') →
  ∃ opens body closes, z_trace w' = (z_trace w ++ opens ++ body ++ closes)%list ∧
    Forall opening opens ∧
    (taken_down opens closes ∧ explained (Some (r, err)) body ∨
     left_behind g iss opens body closes (z_sw w') ∧ is_Ok r = false ∧ err = true).
Proof.
  unfold issueHTTP. set (chal := fakeChallenge identifier cert). intros H.
  destruct (on_z_sw _ w) as [rp w1] eqn:E; pose proof (on_z_sw_trace _ _ _ _ E) as T1.
  destruct rp as [u|e].
  - destruct (verifyAndDownload _ _ _ _ _) as [[o'|] w2] eqn:E2; [|done]. injection H as -> <-.
    apply verifyAndDownload_calls in E2 as (t & T & P & He). simpl in T.
    exists [ZPresent chal true], t, [ZCleanUp chal]. simpl.
    destruct (on_z_sw (sv_CleanUp _ _) w2) as [r3 w3] eqn:E3; apply on_z_sw_trace in E3. simpl.
    rewrite E3, T, T1. rewrite <-!app_assoc. split; [done|].
    split; [by repeat constructor|]. left. split; [|by split; [|left]]. split; [done|].
    by intros c ?%list_elem_of_singleton.
  - injection H as <- <- <-. exists [ZPresent chal false], [], []. simpl. rewrite T1. split; [done|].
    split; [by repeat constructor|]. right. split; [|done]. unfold on_z_sw in E.
    destruct (sv_Present _ chal (z_sw w)) as [rp sw1] eqn:Ep. injection E as -> <-.
    by exists chal, (z_sw w), e, sw1.
Qed.

Lemma closing_records (made : list zoneRecord) : closing <$> (ZCreateRecord <$> made) = ZCleanUpRecord <$> made.
Proof. rewrite <-list_fmap_compose. done. Qed.

Lemma issueCNAME_calls fuel iss m cert w o w' :
  issueCNAME fuel iss m cert w = (Some o, w') →
  ∃ opens body closes, z_trace w' = (z_trace w ++ opens ++ body ++ closes)%list ∧
    Forall opening opens ∧ taken_down opens closes ∧ explained (Some o) body.
Proof.
  unfold issueCNAME. intros H.
  destruct (createRecords m _ [] w) as [[made ok] w1] eqn:E.
  apply createRecords_calls in E as (new & Hm & T). simpl in Hm, T. rewrite app_nil_r in Hm. subst made.
  assert (Forall opening (ZCreateRecord <$> new)) as Hopen by (apply Forall_fmap, Forall_true; done).
  assert (taken_down (ZCreateRecord <$> new) (ZCleanUpRecord <$> reverse new)) as Htd.
  { split; [by rewrite <-fmap_reverse, closing_records|]. by intros c (zr & [=] & _)%list_elem_of_fmap. }
  exists (ZCreateRecord <$> new). destruct ok.
  - destruct (verifyAndDownload _ _ _ _ _) as [[o'|] w2] eqn:E2; [|done]. injection H as <- <-.
    apply verifyAndDownload_calls in E2 as (t & T2 & P & He). rewrite waitRecords_calls, reverse_involutive in T2.
    exists ((ZWait <$> new) ++ t)%list, (ZCleanUpRecord <$> reverse new).
    rewrite cleanUpRecords_calls, T2, T, app_nil_r, <-!app_assoc. split; [done|].
    split; [done|]. split; [done|].
    split; [apply Forall_app; split; [apply Forall_fmap, Forall_true; done|done]|]. left.
    destruct o' as [[ic|e] err]; [destruct He as [-> (t' & c & crt & ca & -> & Hs & Hc)]|destruct He as [->|(t' & c & -> & Hs)]].
    + split; [done|]. exists ((ZWait <$> new) ++ t')%list, c, crt, ca. by rewrite <-app_assoc.
    + by left.
    + right. exists ((ZWait <$> new) ++ t')%list, c. by rewrite <-app_assoc.
  - injection H as <- <-. exists [ZCreateRecordFailed], (ZCleanUpRecord <$> reverse new).
    rewrite cleanUpRecords_calls, T, <-!app_assoc.
    split; [done|]. split; [done|]. split; [done|]. split; [by repeat constructor|]. right. by eexists.
Qed.

(** (C37) What an issuance has set up when it returns. Every file that was
    presented and every record that was created is taken down, in the reverse
    order, except in one case: when presenting the file fails, nothing is taken
    down, and what it has stored and counted stays. The certificate that is
    returned is the bundle downloaded for a certificate whose last status was
    issued. The certificate at the API is canceled after every error, except when
    a CNAME record could not be created or the status was not an expected one. *)
Theorem zerossl_Issue_cleans fuel g iss csr w r w' :
  zerossl_Issue fuel g iss csr w = (Some r, w') →
  (z_trace w' = z_trace w ∧ is_Ok r = false) ∨
  ∃ id opens body closes cancel,
    z_trace w' = (z_trace w ++ ZCreate id :: opens ++ body ++ closes ++ cancel)%list ∧
    Forall opening opens ∧ Forall during body ∧
    (taken_down opens closes ∧
     match r with
     | Ok ic => cancel = [] ∧ downloaded ic body
     | Err _ => cancel = [ZCancel id] ∨
         cancel = [] ∧ (body = [ZCreateRecordFailed] ∨ unexpected body)
     end ∨
     left_behind g iss opens body closes (z_sw w') ∧ is_Ok r = false ∧ cancel = [ZCancel id]).
Proof.
  unfold zerossl_Issue. destruct (namesFromCSR csr) as [|identifier rest].
  { intros [= <- <-]. by left. }
  destruct (on_z_net _ w) as [[cert|e] w1] eqn:E; apply on_z_net_trace in E.
  2: { intros [= <- <-]. by left. }
  intros H. right.
  destruct (match zi_CNAMEValidation iss with None => _ | Some m => _ end) as [[[r' err]|] w2] eqn:E2; [|done].
  assert (∃ opens body closes,
            z_trace w2 = (z_trace w ++ ZCreate (zc_ID cert) :: opens ++ body ++ closes)%list ∧
            Forall opening opens ∧
            (taken_down opens closes ∧ explained (Some (r', err)) body ∨
             left_behind g iss opens body closes (z_sw w2) ∧ is_Ok r' = false ∧ err = true))
    as (opens & body & closes & T & Ho & Hc).
  { destruct (zi_CNAMEValidation iss); [apply issueCNAME_calls in E2|apply issueHTTP_calls in E2];
      destruct E2 as (opens & body & closes & T & Ho & He); simpl in T; exists opens, body, closes;
      (split; [by rewrite T, E, <-app_assoc|]); auto. }
  exists (zc_ID cert), opens, body, closes, (if err then [ZCancel (zc_ID cert)] else []).
  destruct (on_z_net (CancelCertificate _ _) w2) as [rc w3] eqn:E3; pose proof (on_z_net_trace _ _ _ _ E3) as T3.
  assert (r = r' ∧ w' = if err then z_record (ZCancel (zc_ID cert)) w3 else w2) as [-> ->] by (by injection H).
  split; [destruct err; simpl; rewrite ?T3, T, <-?app_assoc; simpl; by rewrite ?app_nil_r, <-?app_assoc|].
  split; [done|]. destruct Hc as [[Ht [Hb He]]|(Hl & Hr & ->)].
  - split; [done|]. left. split; [done|]. destruct He as [He|(e & [= -> ->] & ->)]; [|auto].
    destruct r' as [ic|e]; [by destruct He as [-> ?]|]. destruct err; [by left|].
    destruct He as [|]; [done|auto].
  - destruct Hl as (chal & sw & e & sw1 & -> & -> & -> & Hp & Hs & Hpr). split; [done|]. right.
    split; [|done]. exists chal, sw, e, sw1. split_and!; [done..| |];
      unfold on_z_net, on_z_sw, on_sw_net in E3; destruct (CancelCertificate _ _ _) as [r3 n3];
      by injection E3 as _ <-.
Qed.

(** *** Polling *)

(** The statuses that the API reports at the ticks, for the [n]th poll on. *)
Inductive polls iss : CertificateObject → N → list CertificateObject → N → Prop :=
| polls_nil cert n : polls iss cert n [] n
| polls_cons cert n n1 cert' n2 rest n3 :
    ticker_or_Done (pollInterval iss) n = (None, n1) →
    GetCertificateObject (zi_APIKey iss) (zc_ID cert) n1 = (Ok cert', n2) →
    polls iss cert' n2 rest n3 → polls iss cert n (cert' :: rest) n3.

(** The certificate is waited for as long as it is pending, and no longer:
    if the polls report it pending any number of times and then issued, the wait
    returns it, with one round for each poll; in between nothing but the
    statuses is recorded. *)
Theorem waitForCertToBeIssued_issued iss cert pending issued w n' fuel :
  polls iss cert (sw_net (z_sw w)) (pending ++ [issued]) n' →
  Forall (λ c, zc_Status c = "pending_validation") pending → zc_Status issued = "issued" →
  (length pending < fuel)%nat →
  waitForCertToBeIssued fuel iss cert w =
    (Some (Ok issued),
     MkZ (MkSW (sw_storage (z_sw w)) (sw_proc (z_sw w)) n') (z_soa w)
       (z_trace w ++ (ZStatus <$> (pending ++ [issued])))%list).
Proof.
  revert cert w fuel. induction pending as [|c pending IH]; intros cert w fuel Hp Hpend Hi Hf;
    (destruct fuel as [|fuel]; [simpl in Hf; lia|]); simpl in Hp; inversion Hp as [|? ? n1 c' n2 rest n3 Ht Hg Hrest];
    subst; cbn [waitForCertToBeIssued]; unfold on_z_net, on_z_sw, on_sw_net; rewrite Ht; simpl; rewrite Hg; simpl.
  - inversion Hrest. subst. rewrite Hi. done.
  - apply Forall_cons in Hpend as [Hc Hpend]. rewrite Hc. simpl.
    rewrite IH; [|done|done|done|simpl in Hf; lia]. simpl. by rewrite <-app_assoc.
Qed.

(** *** Validation over HTTP *)

Context `{CHL : !ChallengeLaws} `{!StorageLaws St}.

Lemma fakeChallenge_key identifier cert : challengeKey (fakeChallenge identifier cert) = identifier.
Proof. done. Qed.

(** The validation file is served by the whole cluster: once it is presented
    with a storage, every instance that shares the storage answers a GET of the
    path of the validation URL under the identifier with the content of the
    file. *)
Theorem zerossl_validation_answered url_Path g iss identifier cert (w w' : ZWorld St N) path r :
  zi_Storage iss = true →
  on_z_sw (sv_Present (httpVerifier g iss) (fakeChallenge identifier cert)) w = (Ok tt, w') →
  url_Path (FileValidationURLHTTP (method_of identifier (zc_OtherMethods cert))) = Ok path →
  HasPrefix path zerosslHTTPValidationBasePath = true →
  req_Method r = "GET" → req_Path r = path → hostOnly (req_Host r) = identifier →
  HandleZeroSSLHTTPValidation url_Path (Some (sw_storage (z_sw w'))) r =
    Some (MkResponse StatusOK "text/plain"
            (Join (FileValidationContent (method_of identifier (zc_OtherMethods cert))) (String "010"%char ""))).
Proof using CHL StorageLaws0.
  intros Hst Hp Hu Hb Hm Hpath Hh. unfold httpVerifier in Hp. rewrite Hst in Hp.
  unfold on_z_sw, distributedSolver in Hp. cbn [sv_Present] in Hp. unfold distributed_Present in Hp.
  rewrite fakeChallenge_key in Hp.
  destruct (json_MarshalChallenge _) as [b|] eqn:Ej; [|done]. unfold on_sw_storage in Hp.
  destruct (Store _ b _) as [[[]|e] s1] eqn:Es; [|done]. apply Store_Ok in Es.
  destruct (sv_Present (httpSolver _) _ _) as [[u|e] w1] eqn:Ep; [|done]. injection Hp as <-. simpl.
  simpl in Ep. apply present_at_frame in Ep as [Hs _]. simpl in Hs. rewrite Hs.
  unfold HandleZeroSSLHTTPValidation, LooksLikeZeroSSLHTTPValidation. rewrite Hm, Hpath, Hb. simpl.
  unfold getDistributedValidationInfo. rewrite Hh.
  assert (Safe zerosslIssuerKey = zerosslIssuerKey) as -> by done.
  rewrite (Load_contents s1 _ b) by (by rewrite Es, lookup_insert_eq).
  assert ((String.length b =? 0)%nat = false) as ->.
  { apply Nat.eqb_neq. intros Hz. apply (json_Challenge_nonempty _ _ Ej). by destruct b. }
  rewrite (json_Challenge_roundtrip _ _ Ej). unfold answerHTTPValidation. simpl. rewrite Hu, Hpath, String.eqb_refl. done.
Qed.
End zerossl_theorems.

(** ** Examples *)

(** An API that issues a certificate eight seconds after the start; before the
    start nothing can be listened on. The records are those of [SimProvider]. *)
Module SimZeroSSL.
#[export] Instance sim_ListenNet : ListenNet SimDNS.t := {
  net_Listen _ n := (if (n <? 0)%Z then Some (Errorf "permission denied") else None, n);
  net_Dial _ n := (Some (Errorf "connection refused"), n);
  listen_in_use _ := false
}.

Definition methods : list (string * ValidationInfo) :=
  [("example.com",
    MkValidation "http://example.com/.well-known/pki-validation/F.txt" ["one"; "two"] "_x.example.com" "cname.zerossl.com")].
Definition cert (status : string) : CertificateObject := MkCertObject "id7" status methods.

#[export] Instance sim_ZeroSSLNet : ZeroSSLNet SimDNS.t := {
  CreateCertificate _ _ _ n := (Ok (cert "draft"), n);
  CancelCertificate _ _ n := (Ok tt, n);
  VerifyIdentifiers _ _ _ n := (Ok (cert "pending_validation"), n);
  GetCertificateObject _ _ n :=
    (Ok (cert (if (n <? 8 * Second)%Z then "pending_validation" else "issued")), n);
  DownloadCertificate _ id n := (Ok ("crt of " +:+ id, ", ca"), n);
  RevokeCertificate _ _ _ n := (Ok tt, n);
  ticker_or_Done d n := (None, (n + d)%Z);
  json_MarshalCertObject c := Ok (zc_ID c);
  json_UnmarshalCertObject b := Ok (MkCertObject b "issued" [])
}.

Definition issuer (cname : option DNSManager) : ZeroSSLIssuer := MkZeroSSLIssuer "key" true 90 "" 0 cname 0.
Definition start (now : Z) : ZWorld MemStorage.t SimDNS.t := MkZ (MkSW MemStorage.empty idle_proc now) ∅ [].
Definition csr : CertificateRequest := MkCSR "" ["example.com"] [] [] [].
Definition run (cname : option DNSManager) (now : Z) : option (result IssuedCertificate) * ZWorld MemStorage.t SimDNS.t :=
  zerossl_Issue 10 SimClient.vars (issuer cname) csr (start now).
Definition issued : IssuedCertificate := MkIssued "crt of id7, ca" (Ok "id7").

Definition url_Path (u : string) : result string :=
  if HasPrefix u "http://example.com" then Ok (string_drop 18 u) else Err (Errorf "parse").
Definition presenting : result unit * ZWorld MemStorage.t SimDNS.t :=
  on_z_sw (sv_Present (httpVerifier SimClient.vars (issuer None)) (fakeChallenge "example.com" (cert "draft"))) (start 0).
End SimZeroSSL.
Export (hints) SimZeroSSL.

Lemma zerossl_Issue_cleans_witness :
  ∃ id opens body closes cancel,
    z_trace (SimZeroSSL.run None 0).2 = (ZCreate id :: opens ++ body ++ closes ++ cancel)%list ∧
    taken_down opens closes ∧ cancel = [] ∧ downloaded SimZeroSSL.issued body.
Proof.
  assert (zerossl_Issue 10 SimClient.vars (SimZeroSSL.issuer None) SimZeroSSL.csr (SimZeroSSL.start 0) =
    (Some (Ok SimZeroSSL.issued), (SimZeroSSL.run None 0).2)) as H by (by vm_compute).
  destruct (zerossl_Issue_cleans 10 SimClient.vars (SimZeroSSL.issuer None) SimZeroSSL.csr (SimZeroSSL.start 0)
              (Ok SimZeroSSL.issued) (SimZeroSSL.run None 0).2 H)
    as [[_ Hf]|(id & opens & body & closes & cancel & T & _ & _ & [[Ht Hd]|(_ & Hf & _)])];
    [discriminate Hf| |discriminate Hf].
  exists id, opens, body, closes, cancel. split; [exact T|]. split; [exact Ht|exact Hd].
Defined.

Lemma waitForCertToBeIssued_issued_witness :
  let pending := SimZeroSSL.cert "pending_validation" in
  fst (waitForCertToBeIssued 2 (SimZeroSSL.issuer None) pending (SimZeroSSL.start 0)) =
    Some (Ok (SimZeroSSL.cert "issued")).
Proof.
  intros pending.
  rewrite (waitForCertToBeIssued_issued (SimZeroSSL.issuer None) pending [pending] (SimZeroSSL.cert "issued")
    (SimZeroSSL.start 0) (10 * Second)%Z 2); [reflexivity| |by repeat constructor|reflexivity|simpl; lia].
  econstructor; [vm_compute; reflexivity|vm_compute; reflexivity|].
  econstructor; [vm_compute; reflexivity|vm_compute; reflexivity|]. apply polls_nil.
Defined.

Lemma zerossl_validation_answered_witness :
  let r := MkRequest "GET" "example.com" "/.well-known/pki-validation/F.txt" in
  SimZeroSSL.presenting = (Ok tt, SimZeroSSL.presenting.2) ∧
  HandleZeroSSLHTTPValidation SimZeroSSL.url_Path (Some (sw_storage (z_sw SimZeroSSL.presenting.2))) r =
    Some (MkResponse StatusOK "text/plain"
      (Join (FileValidationContent (method_of "example.com" (zc_OtherMethods (SimZeroSSL.cert "draft"))))
         (String "010"%char ""))).
Proof.
  intros r. assert (SimZeroSSL.presenting = (Ok tt, SimZeroSSL.presenting.2)) as H by (by vm_compute).
  split; [exact H|].
  exact (zerossl_validation_answered SimZeroSSL.url_Path SimClient.vars (SimZeroSSL.issuer None) "example.com"
           (SimZeroSSL.cert "draft") (SimZeroSSL.start 0) SimZeroSSL.presenting.2
           "/.well-known/pki-validation/F.txt" r eq_refl H ltac:(by vm_compute) ltac:(by vm_compute)
           eq_refl eq_refl ltac:(by vm_compute)).
Defined.

(** With CNAME validation the record is taken down at the end. *)
Example zerossl_cname_trace :
  let w := (SimZeroSSL.run (Some SimProvider.manager) 0).2 in
  let zr := MkZoneRecord "example.com." (MkRecord "id" "CNAME" "_x" "cname.zerossl.com." 0) in
  match z_trace w with
  | [ZCreate "id7"; ZCreateRecord zr1; ZWait zr2; ZStatus _; ZStatus _; ZDownload "id7" (Ok _); ZCleanUpRecord zr3] =>
      zr1 = zr ∧ zr2 = zr ∧ zr3 = zr
  | _ => False
  end.
Proof. by vm_compute. Qed.

(** A presentation that failed is not cleaned up: the challenge stays counted at
    its address, and its token stays in storage. *)
Example zerossl_present_failed :
  let w := (SimZeroSSL.run None (-1)).2 in
  solvers (sw_proc (z_sw w)) !! ":80" = Some (MkSolverInfo 1 None) ∧
  Exists (sw_storage (z_sw w)) (challengeTokensKey zerosslIssuerKey "example.com") = true ∧
  match z_trace w with [ZCreate "id7"; ZPresent _ false; ZCancel "id7"] => True | _ => False end.
Proof. by vm_compute. Qed.
