(* ===== verification/FileStore.v ===== *)
(** * The files of a storage (filestorage.go)

    [FileStorage] keeps each value in a file whose path is the key below a root
    directory. The file system is a tree: a map from the components of a path
    to a directory or a file. The operations are those of one process without
    interference, and any call to the system may fail; [AtomicFile] has the calls of [Store] one by one and
    [FileLock] the locks. *)

From S2P Require Import Prelude GoStrings Storage Crypto.
From Stdlib Require Import Ascii.
Open Scope string_scope.

(** ** The file system *)

Inductive node := Dir | File (content : bytes) (modified : Time).
Abbreviation FS := (gmap (list string) node).

(** The elements of an absolute path. *)
Definition components (filename : string) : list string := filter (λ e, e ≠ "") (Split filename "/").

(** The walk of a path from [done] on; what follows a file is no directory. *)
Fixpoint resolve (fs : FS) (done todo : list string) : result node :=
  match fs !! done with
  | None => Err ErrNotExist
  | Some n =>
      match todo, n with
      | [], _ => Ok n
      | c :: rest, Dir => resolve fs (done ++ [c])%list rest
      | _ :: _, File _ _ => Err (Errorf "not a directory")
      end
  end.

Definition os_Stat (fs : FS) (filename : string) : result node := resolve fs [] (components filename).

Definition os_ReadFile (fs : FS) (filename : string) : result bytes :=
  match os_Stat fs filename with
  | Err e => Err e
  | Ok Dir => Err (Errorf "is a directory")
  | Ok (File content _) => Ok content
  end.

(** [os.MkdirAll] from [done] on. *)
Fixpoint mkdir_all (done todo : list string) : ST FS (result unit) := λ fs,
  match fs !! done with
  | Some (File _ _) => (Err (Errorf "not a directory"), fs)
  | found =>
      let fs := match found with None => <[done := Dir]> fs | Some _ => fs end in
      match todo with
      | [] => (Ok tt, fs)
      | c :: rest => mkdir_all (done ++ [c])%list rest fs
      end
  end.

(** [os.RemoveAll] removes all it can: what stays are the nodes that cannot be
    removed, [stuck], and the directories that lead to them; then the first error
    [e] is returned. *)
Definition os_RemoveAll (stuck : gset (list string)) (e : error) (filename : string) :
    ST FS (result unit) := λ fs,
  match os_Stat fs filename with
  | Err e => (if errors_Is e ErrNotExist then Ok tt else Err e, fs)
  | Ok _ =>
      let p := components filename in
      let stay : gset (list string) := filter (λ q, p `prefix_of` q ∧ is_Some (fs !! q)) stuck in
      (if decide (stay = ∅) then Ok tt else Err e,
       filter (λ kv, ¬ p `prefix_of` kv.1 ∨ set_Exists (λ q, kv.1 `prefix_of` q) stay) fs)
  end.

(** The entries of a directory, sorted by name. *)
Definition entry_of (dir p : list string) : option string :=
  match last p with
  | Some c => if decide (p = dir ++ [c])%list then Some c else None
  | None => None
  end.
Definition readdir (fs : FS) (dir : list string) : list string :=
  sort_Strings (elements (set_omap (entry_of dir) (dom fs) : gset string)).

(** [filepath.Walk] below a directory: an entry, and the entries below it
    unless they are skipped. *)
Fixpoint walk (fuel : nat) (fs : FS) (recursive : bool) (dir : list string) : list (list string) :=
  match fuel with
  | O => []
  | S fuel' =>
      readdir fs dir ≫= λ c,
        let fpath := (dir ++ [c])%list in
        fpath :: match fs !! fpath with
                 | Some Dir => if recursive then walk fuel' fs recursive fpath else []
                 | _ => []
                 end
  end.

(** ** The storage *)

Section storage.
(** The root, and what a directory says of itself. *)
Context (Path : string) (dirInfo : FS → list string → Time * Z).

Definition Filename (key : string) : string := path_Join [Path; key].

Definition fs_Exists (fs : FS) (key : string) : bool :=
  match os_Stat fs (Filename key) with
  | Ok _ => true
  | Err e => negb (errors_Is e ErrNotExist)
  end.

Definition fs_Load (fs : FS) (key : string) : result bytes := os_ReadFile fs (Filename key).

(** What the calls of [Store] do: they succeed, or one of them fails. The
    temporary file stays when its permissions cannot be set, and when it cannot
    be removed after a later failure. *)
Inductive store_io :=
| IoOk
| IoMkdirAll (made : nat) (e : error)
| IoCreateTemp (e : error)
| IoChmod (e : error)
| IoWrite (written : bytes) (removed : bool) (e : error)
| IoClose (removed : bool) (e : error).

(** [tmp] is the name that [os.CreateTemp] chooses; renaming fails on a
    directory. *)
Definition fs_Store (io : store_io) (tmp : string) (now : Time) (key : string) (value : bytes) :
    ST FS (result unit) := λ fs,
  let p := components (Filename key) in
  let dir := removelast p in
  let temporary content fs := <[(dir ++ [tmp])%list := File content now]> fs in
  match io with
  | IoMkdirAll made e => (Err e, (mkdir_all [] (take made dir) fs).2)
  | _ =>
      match mkdir_all [] dir fs with
      | (Err e, fs) => (Err e, fs)
      | (Ok _, fs) =>
          match io with
          | IoCreateTemp e => (Err e, fs)
          | IoChmod e => (Err e, temporary "" fs)
          | IoWrite written removed e => (Err e, if removed then fs else temporary written fs)
          | IoClose removed e => (Err e, if removed then fs else temporary value fs)
          | _ =>
              match fs !! p with
              | Some Dir => (Err (Errorf "failed to rename"), fs)
              | _ => (Ok tt, <[p := File value now]> fs)
              end
          end
      end
  end.

Definition fs_Delete (stuck : gset (list string)) (e : error) (key : string) : ST FS (result unit) :=
  os_RemoveAll stuck e (Filename key).

Definition fs_List (fs : FS) (prefix : string) (recursive : bool) : result (list string) :=
  let walkPrefix := components (Filename prefix) in
  match os_Stat fs (Filename prefix) with
  | Err e => Err e
  | Ok (File _ _) => Ok []
  | Ok Dir =>
      Ok ((λ fpath, path_Join [prefix; Join (drop (length walkPrefix) fpath) "/"])
            <$> walk (size fs) fs recursive walkPrefix)
  end.

Definition fs_Stat (fs : FS) (key : string) : result KeyInfo :=
  match os_Stat fs (Filename key) with
  | Err e => Err e
  | Ok (File content modified) => Ok (MkKeyInfo key modified (Z.of_nat (String.length content)) true)
  | Ok Dir => let '(modified, sz) := dirInfo fs (components (Filename key)) in Ok (MkKeyInfo key modified sz false)
  end.
End storage.

(** ** Paths *)

Abbreviation plains := (Forall (λ e, plain_elem e = true)).

Lemma plain_no_slashes es : plains es → Forall (λ w, no_byte "/" w = true) es.
Proof. intros H. eapply Forall_impl; [exact H|]. apply plain_no_slash. Qed.

Lemma filter_plains es : plains es → filter (λ e, e ≠ "") es = es.
Proof.
  induction 1 as [|e es He _ IH]; [done|]. apply plain_elem_spec in He as (Hne & _).
  by rewrite filter_cons_True, IH.
Qed.

(** [path.Join] below an absolute path. *)
Lemma path_Join_rooted ps es :
  ps ≠ [] → es ≠ [] → plains (ps ++ es) →
  path_Join ["/" +:+ Join ps "/"; Join es "/"] = "/" +:+ Join (ps ++ es)%list "/".
Proof.
  intros Hp He HF. pose proof HF as [H1 H2]%Forall_app.
  destruct (Join_plain_head es) as [Hj _]; [done..|].
  assert (Join [Join ps "/"; Join es "/"] "/" = Join (ps ++ es)%list "/") as E.
  { clear -Hp He. induction ps as [|e ps IH]; [done|]. destruct ps as [|e' ps].
    - simpl app. by rewrite (Join_cons e es).
    - simpl app. rewrite (Join_cons e (e' :: ps)), (Join_cons e (e' :: ps ++ es)%list) by done.
      specialize (IH ltac:(done)). simpl app in IH. rewrite <-IH. simpl. by rewrite !append_assoc. }
  unfold path_Join. rewrite !filter_cons_True by done. rewrite filter_nil.
  assert (Join ["/" +:+ Join ps "/"; Join es "/"] "/" = "/" +:+ Join (ps ++ es)%list "/") as ->.
  { rewrite <-E. done. }
  unfold path_Clean. assert (("/" +:+ Join (ps ++ es)%list "/" =? "") = false) as -> by done.
  assert (HasPrefix ("/" +:+ Join (ps ++ es)%list "/") "/" = true) as ->.
  { apply HasPrefix_spec. by eexists. }
  assert (Split ("/" +:+ Join (ps ++ es)%list "/") "/" = "" :: (ps ++ es)%list) as ->.
  { simpl. f_equal. apply Split_Join; [by destruct ps|by apply plain_no_slashes]. }
  simpl foldl. rewrite foldl_clean_plain by done. by rewrite app_nil_r, rev_involutive.
Qed.

Lemma components_rooted es : es ≠ [] → plains es → components ("/" +:+ Join es "/") = es.
Proof.
  intros Hne Hp. unfold components. simpl. rewrite Split_Join; [|done|by apply plain_no_slashes].
  rewrite filter_cons_False by (intros H; by apply H). by apply filter_plains.
Qed.

(** ** Well-formed trees *)

(** The root is a directory, so is what has entries, and names are plain. *)
Record fs_ok (fs : FS) : Prop := {
  ok_root : fs !! [] = Some Dir;
  ok_parent p c n : fs !! (p ++ [c])%list = Some n → fs !! p = Some Dir;
  ok_names p c n : fs !! (p ++ [c])%list = Some n → plain_elem c = true
}.

(** A file on the way to [p]. *)
Definition blocked (fs : FS) (p : list string) : Prop :=
  ∃ q r v t, p = (q ++ r)%list ∧ r ≠ [] ∧ fs !! q = Some (File v t).

Lemma ok_ancestor fs p q n : fs_ok fs → q ≠ [] → fs !! (p ++ q)%list = Some n → fs !! p = Some Dir.
Proof.
  intros Hok. revert n. induction q as [|c q IH] using rev_ind; intros n Hq Hn; [done|].
  rewrite app_assoc in Hn. apply (ok_parent _ Hok) in Hn.
  destruct q as [|d q]; [by rewrite app_nil_r in Hn|]. by eapply IH.
Qed.

Lemma ok_not_blocked fs p n : fs_ok fs → fs !! p = Some n → ¬ blocked fs p.
Proof.
  intros Hok Hn (q & r & v & t & -> & Hr & Hf). pose proof (ok_ancestor _ _ _ _ Hok Hr Hn). congruence.
Qed.

Lemma resolve_Ok fs p todo n : fs_ok fs → resolve fs p todo = Ok n ↔ fs !! (p ++ todo)%list = Some n.
Proof.
  intros Hok. revert p. induction todo as [|c todo IH]; intros p; simpl.
  - rewrite app_nil_r. destruct (fs !! p); split; congruence.
  - assert (fs !! (p ++ c :: todo)%list = Some n → fs !! p = Some Dir) as Ha by (by apply ok_ancestor).
    destruct (fs !! p) as [[|v t]|] eqn:E; [rewrite IH, <-app_assoc; done| |];
      (split; [done|]; by intros Hn%Ha).
Qed.

Lemma resolve_Err fs p todo e :
  resolve fs p todo = Err e → e = ErrNotExist ∨ blocked fs (p ++ todo).
Proof.
  revert p. induction todo as [|c todo IH]; intros p; simpl.
  - destruct (fs !! p); [done|]. intros [= <-]. by left.
  - destruct (fs !! p) as [[|v t]|] eqn:E.
    + intros [->|Hb]%IH; [by left|]. right. by rewrite <-app_assoc in Hb.
    + intros _. right. by exists p, (c :: todo), v, t.
    + intros [= <-]. by left.
Qed.

(** ** Walking a directory *)

Lemma readdir_elem fs dir c : c ∈ readdir fs dir ↔ is_Some (fs !! (dir ++ [c])%list).
Proof.
  unfold readdir, sort_Strings. rewrite merge_sort_Permutation, elem_of_elements, elem_of_set_omap. split.
  - intros (p & Hp & He). unfold entry_of in He. destruct (last p) as [d|]; [|done]. case_decide as Hd; [|done].
    injection He as ->. subst p. by apply elem_of_dom.
  - intros Hc. exists (dir ++ [c])%list. split; [by apply elem_of_dom|]. unfold entry_of.
    by rewrite last_snoc, decide_True.
Qed.

Lemma readdir_NoDup fs dir : NoDup (readdir fs dir).
Proof. unfold readdir, sort_Strings. rewrite merge_sort_Permutation. apply NoDup_elements. Qed.

Lemma walk_sound fuel fs recursive dir q :
  q ∈ walk fuel fs recursive dir →
  ∃ k, q = (dir ++ k)%list ∧ k ≠ [] ∧ is_Some (fs !! q) ∧ (recursive = false → length k = 1%nat).
Proof.
  revert dir. induction fuel as [|fuel IH]; intros dir; simpl; [by intros ?%not_elem_of_nil|].
  intros (c & Hq & Hc)%list_elem_of_bind. apply readdir_elem in Hc.
  apply elem_of_cons in Hq as [->|Hq]; [by exists [c]|].
  destruct (fs !! (dir ++ [c])%list) as [[|v t]|]; [|by apply not_elem_of_nil in Hq..].
  destruct recursive; [|by apply not_elem_of_nil in Hq].
  apply IH in Hq as (k & -> & Hk & Hs & _). exists (c :: k). by rewrite <-app_assoc in *.
Qed.

Lemma walk_complete fuel fs (recursive : bool) dir k :
  fs_ok fs → k ≠ [] → is_Some (fs !! (dir ++ k)%list) → (length k ≤ fuel)%nat →
  (recursive = false → length k = 1%nat) → (dir ++ k)%list ∈ walk fuel fs recursive dir.
Proof.
  intros Hok. revert dir k. induction fuel as [|fuel IH]; intros dir k Hk Hs Hl Hr; destruct k as [|c k]; simpl in Hl;
    try done; try lia.
  simpl. apply list_elem_of_bind. exists c.
  destruct k as [|d k].
  - split; [by left|]. by apply readdir_elem.
  - destruct recursive; [|by specialize (Hr eq_refl)].
    assert (dir ++ c :: d :: k = (dir ++ [c]) ++ d :: k)%list as E by by rewrite <-app_assoc.
    rewrite E in *. destruct Hs as [n Hn]. assert (fs !! (dir ++ [c])%list = Some Dir) as Hd by (by eapply (ok_ancestor _ _ (d :: k))).
    split; [|apply readdir_elem; by eexists]. right. rewrite Hd. apply IH; [done|by eexists|simpl in *; lia|done].
Qed.

Lemma walk_NoDup fuel fs recursive dir : NoDup (walk fuel fs recursive dir).
Proof.
  revert dir. induction fuel as [|fuel IH]; intros dir; simpl; [constructor|].
  apply NoDup_bind; [| |apply readdir_NoDup].
  - intros c d q Hc Hd H1 H2.
    assert (∀ c, q ∈ ((dir ++ [c])%list :: match fs !! (dir ++ [c])%list with
              | Some Dir => if recursive then walk fuel fs recursive (dir ++ [c]) else [] | _ => [] end) →
            q !! length dir = Some c) as Hx.
    { intros x [->|Hq]%elem_of_cons; [by rewrite list_lookup_middle|].
      assert (q ∈ walk fuel fs recursive (dir ++ [x])) as Hw.
      { destruct (fs !! (dir ++ [x])%list) as [[|]|]; [|by apply not_elem_of_nil in Hq..].
        destruct recursive; [done|by apply not_elem_of_nil in Hq]. }
      apply walk_sound in Hw as (k & -> & _). rewrite <-app_assoc. simpl. by rewrite list_lookup_middle. }
    apply Hx in H1, H2. congruence.
  - intros c Hc. constructor.
    + intros Hq. assert ((dir ++ [c])%list ∈ walk fuel fs recursive (dir ++ [c])) as Hw.
      { destruct (fs !! (dir ++ [c])%list) as [[|]|]; [|by apply not_elem_of_nil in Hq..].
        destruct recursive; [done|by apply not_elem_of_nil in Hq]. }
      apply walk_sound in Hw as (k & E & Hk & _). rewrite <-(app_nil_r (dir ++ [c])) in E at 1.
      apply app_inv_head in E. by subst.
    + destruct (fs !! (dir ++ [c])%list) as [[|]|]; [destruct recursive; [apply IH|]|..]; constructor.
Qed.

(** No path is deeper than the number of nodes. *)
Lemma depth_bound fs p k n : fs_ok fs → fs !! (p ++ k)%list = Some n → (length k ≤ size fs)%nat.
Proof.
  intros Hok Hn. rewrite <-size_dom. set (L := (λ i, (p ++ take i k)%list) <$> seq 1 (length k)).
  assert (NoDup L) as Hnd.
  { apply NoDup_fmap_2_strong; [|apply NoDup_seq]. intros i j Hi%elem_of_seq Hj%elem_of_seq E%app_inv_head.
    apply (f_equal length) in E. rewrite !length_take in E. lia. }
  assert (list_to_set L ⊆ dom fs) as Hsub.
  { intros q [i [-> Hi%elem_of_seq]]%elem_of_list_to_set%list_elem_of_fmap. apply elem_of_dom.
    destruct (decide (drop i k = [])) as [E|E].
    - rewrite take_ge; [by eexists|]. apply (f_equal length) in E. rewrite length_drop in E. simpl in E. lia.
    - exists Dir. eapply (ok_ancestor _ _ (drop i k)); [done|done|]. rewrite <-app_assoc, take_drop. exact Hn. }
  apply subseteq_size in Hsub. rewrite size_list_to_set in Hsub by done. unfold L in Hsub.
  by rewrite length_fmap, length_seq in Hsub.
Qed.

(** ** What the operations do *)

(** ** The default directory *)

Section datadir.
(** The environment, and whether the program was built for Windows. Paths have
    slashes, so the last definition is that of other systems. *)
Context (Getenv : string → string) (windows : bool).

Definition homeDir : string :=
  let home := Getenv "HOME" in
  let home :=
    if (home =? "") && windows then
      let drive := Getenv "HOMEDRIVE" in
      let path := Getenv "HOMEPATH" in
      if (drive =? "") || (path =? "") then Getenv "USERPROFILE" else drive +:+ path
    else home in
  if home =? "" then "." else home.

Definition dataDir : string :=
  let baseDir := path_Join [homeDir; ".local"; "share"] in
  let xdgData := Getenv "XDG_DATA_HOME" in
  let baseDir := if negb (xdgData =? "") then xdgData else baseDir in
  path_Join [baseDir; "certmagic"].
End datadir.

(** Below the home directory, or where the environment says; without either the
    storage is below the directory that the process happens to be in. *)
Example dataDir_cases :
  dataDir (λ v, if v =? "HOME" then "/home/u" else "") false = "/home/u/.local/share/certmagic" ∧
  dataDir (λ v, if v =? "XDG_DATA_HOME" then "/data/" else "") false = "/data/certmagic" ∧
  dataDir (λ _, "") false = ".local/share/certmagic".
Proof. by vm_compute. Qed.

Section refinement.
Context (ps : list string) (Hps : ps ≠ []) (Hplain : plains ps).
Context (dirInfo : FS → list string → Time * Z).
Implicit Types (fs : FS) (es : list string).

(** The root, and keys of plain elements. *)
Definition root : string := "/" +:+ Join ps "/".
Definition key (es : list string) : string := Join es "/".
Definition key_ok es : Prop := es ≠ [] ∧ plains es.

Lemma components_Filename es : key_ok es → components (Filename root (key es)) = (ps ++ es)%list.
Proof using Hps Hplain.
  intros [Hne Hp]. assert (plains (ps ++ es)) as HF by (by apply Forall_app).
  unfold Filename, root, key. rewrite path_Join_rooted by done. apply components_rooted; [by destruct ps|done].
Qed.

Lemma os_Stat_Ok fs es n : fs_ok fs → key_ok es →
  os_Stat fs (Filename root (key es)) = Ok n ↔ fs !! (ps ++ es)%list = Some n.
Proof using Hps Hplain. intros Hok Hk. unfold os_Stat. rewrite components_Filename by done. by rewrite resolve_Ok. Qed.

(** The value of a key. *)
Definition value fs es : option bytes :=
  match fs !! (ps ++ es)%list with Some (File v _) => Some v | _ => None end.

Lemma value_Some fs es v : value fs es = Some v ↔ ∃ t, fs !! (ps ++ es)%list = Some (File v t).
Proof.
  unfold value. destruct (fs !! (ps ++ es)%list) as [[|v' t]|]; split; try (by intros [? ?] || done).
  - intros [= <-]. by exists t.
  - intros [t' [= -> ->]]. done.
Qed.

Lemma fs_Load_value fs es v : fs_ok fs → key_ok es → fs_Load root fs (key es) = Ok v ↔ value fs es = Some v.
Proof using Hps Hplain.
  intros Hok Hk. unfold fs_Load, os_ReadFile, value. pose proof (λ n, os_Stat_Ok fs es n Hok Hk) as Hs.
  destruct (os_Stat fs _) as [n|e].
  - rewrite (proj1 (Hs n) eq_refl). destruct n; split; congruence.
  - destruct (fs !! (ps ++ es)%list) as [n|]; [|done]. pose proof (proj2 (Hs n) eq_refl). done.
Qed.

(** A directory that is added below a directory. *)
Lemma fs_ok_mkdir fs p c :
  fs_ok fs → fs !! p = Some Dir → plain_elem c = true → fs !! (p ++ [c])%list = None →
  fs_ok (<[(p ++ [c])%list := Dir]> fs).
Proof.
  intros [Hr Hp Hn] Hd Hc Hnew. split.
  - rewrite lookup_insert_ne; [done|]. by destruct p.
  - intros q d n Hq. destruct (decide (p ++ [c] = q)%list) as [<-|Hne]; [by rewrite lookup_insert_eq|].
    rewrite lookup_insert_ne by done. destruct (decide (p ++ [c] = q ++ [d])%list) as [E|Hne'].
    + apply app_inj_tail in E as [-> ->]. done.
    + rewrite lookup_insert_ne in Hq by done. by eapply Hp.
  - intros q d n Hq. destruct (decide (p ++ [c] = q ++ [d])%list) as [E|Hne'].
    + apply app_inj_tail in E as [-> ->]. done.
    + rewrite lookup_insert_ne in Hq by done. by eapply Hn.
Qed.

(** Making directories keeps the files and the tree well formed. *)
Lemma mkdir_all_spec todo fs done_ r fs' :
  fs_ok fs → plains todo → (done_ = [] ∨ ∃ p c, done_ = (p ++ [c])%list ∧ fs !! p = Some Dir ∧ plain_elem c = true) →
  mkdir_all done_ todo fs = (r, fs') →
  fs_ok fs' ∧ (∀ p v t, fs' !! p = Some (File v t) ↔ fs !! p = Some (File v t)) ∧
  (∀ p n, fs !! p = Some n → fs' !! p = Some n) ∧
  (∀ p, ¬ p `prefix_of` (done_ ++ todo)%list → fs' !! p = fs !! p) ∧
  (r = Ok tt → fs' !! (done_ ++ todo)%list = Some Dir).
Proof.
  revert fs done_. induction todo as [|c todo IH]; intros fs done_ Hok Hpl Hd H; simpl in H;
    destruct (fs !! done_) as [[|v t]|] eqn:E.
  - injection H as <- <-. rewrite app_nil_r. by split_and!.
  - injection H as <- <-. by split_and!.
  - injection H as <- <-. destruct Hd as [->|(p & c & -> & Hp & Hc)]; [by rewrite (ok_root _ Hok) in E|].
    split; [by apply fs_ok_mkdir|]. rewrite app_nil_r.
    split_and!; [| |intros q Hq; rewrite lookup_insert_ne; [done|by intros <-; apply Hq]
                |intros _; apply lookup_insert_eq].
    + intros q v t. destruct (decide (p ++ [c] = q)%list) as [<-|Hne]; [rewrite lookup_insert_eq, E; done|].
      by rewrite lookup_insert_ne.
    + intros q n Hq. rewrite lookup_insert_ne; [done|]. congruence.
  - apply Forall_cons in Hpl as [Hc Hpl].
    apply IH in H as (Hok' & Hf & Hn & Ho & Hr); [|done|done|right; by exists done_, c].
    rewrite <-app_assoc in Ho, Hr. by split_and!.
  - injection H as <- <-. by split_and!.
  - apply Forall_cons in Hpl as [Hc Hpl]. destruct Hd as [->|(p & d & -> & Hp & Hd)]; [by rewrite (ok_root _ Hok) in E|].
    apply IH in H as (Hok' & Hf & Hn & Ho & Hr);
      [|by apply fs_ok_mkdir|done|right; exists (p ++ [d])%list, c; by rewrite lookup_insert_eq].
    rewrite <-(app_assoc _ [c]) in Ho, Hr. split_and!; [done| | | |done].
    + intros q v t. rewrite Hf. destruct (decide (p ++ [d] = q)%list) as [<-|Hne]; [rewrite lookup_insert_eq, E; done|].
      by rewrite lookup_insert_ne.
    + intros q n Hq. apply Hn. rewrite lookup_insert_ne; [done|]. congruence.
    + intros q Hq. rewrite Ho by done. rewrite lookup_insert_ne; [done|]. intros <-. apply Hq.
      by apply prefix_app_r.
Qed.

Lemma fs_ok_put fs p c v t :
  fs_ok fs → fs !! p = Some Dir → plain_elem c = true → fs !! (p ++ [c])%list ≠ Some Dir →
  fs_ok (<[(p ++ [c])%list := File v t]> fs).
Proof.
  intros Hok Hd Hc Hnew. destruct Hok as [Hr Hp Hn]. split.
  - rewrite lookup_insert_ne; [done|]. by destruct p.
  - intros q d n Hq. destruct (decide (p ++ [c] = q ++ [d])%list) as [E|Hne'].
    + apply app_inj_tail in E as [-> ->]. rewrite lookup_insert_ne; [done|].
      intros E. apply (f_equal length) in E. rewrite length_app in E. simpl in E. lia.
    + rewrite lookup_insert_ne in Hq by done. apply Hp in Hq. rewrite lookup_insert_ne; [done|]. congruence.
  - intros q d n Hq. destruct (decide (p ++ [c] = q ++ [d])%list) as [E|Hne'].
    + apply app_inj_tail in E as [-> ->]. done.
    + rewrite lookup_insert_ne in Hq by done. by eapply Hn.
Qed.

(** The key that a temporary file in the directory of the key [es] would have, and
    what [os.CreateTemp] promises of its name: nothing is there yet. *)
Definition temp_key es (tmp : string) : list string := (removelast es ++ [tmp])%list.
Definition temp_ok fs es (tmp : string) : Prop :=
  plain_elem tmp = true ∧ temp_key es tmp ≠ es ∧ fs !! (ps ++ temp_key es tmp)%list = None.

Lemma value_insert fs es es' v t :
  value (<[(ps ++ es)%list := File v t]> fs) es' = if decide (es' = es) then Some v else value fs es'.
Proof.
  unfold value. destruct (decide (es' = es)) as [->|Hne]; [by rewrite lookup_insert_eq|].
  rewrite lookup_insert_ne; [done|]. by intros ?%app_inv_head.
Qed.

(** [Store] sets the value of its key if it succeeds. Otherwise no value changes,
    but a temporary file may stay. *)
Lemma fs_Store_spec io tmp now es v fs r fs' :
  fs_ok fs → key_ok es → temp_ok fs es tmp → fs_Store root io tmp now (key es) v fs = (r, fs') →
  fs_ok fs' ∧
  ∀ es', r = Ok tt ∨ es' ≠ temp_key es tmp →
    value fs' es' = if decide (r = Ok tt ∧ es' = es) then Some v else value fs es'.
Proof using Hps Hplain.
  intros Hok Hk (Hpt & Htk & Htmp). unfold fs_Store, temp_key in *. rewrite components_Filename by done.
  destruct Hk as [Hne Hpl].
  destruct es as [|c es _] using rev_ind; [done|]. apply Forall_app in Hpl as [Hpl [Hc _]%Forall_cons].
  rewrite app_assoc, removelast_last in *. rewrite removelast_last in *.
  assert (∀ fs1, (∀ p v t, fs1 !! p = Some (File v t) ↔ fs !! p = Some (File v t)) →
    ∀ es', value fs1 es' = value fs es') as Hvals.
  { intros fs1 Hf es'. apply option_eq. intros x. rewrite !value_Some. by setoid_rewrite Hf. }
  set (dir := (ps ++ es)%list) in *.
  assert (∀ e, (∃ made, (r, fs') = (Err e, (mkdir_all [] (take made dir) fs).2)) →
    fs_ok fs' ∧ ∀ es', r = Ok tt ∨ es' ≠ (es ++ [tmp])%list →
      value fs' es' = if decide (r = Ok tt ∧ es' = (es ++ [c])%list) then Some v else value fs es') as Hmk.
  { intros e (made & [= -> ->]). destruct (mkdir_all [] (take made dir) fs) as [rm fs1] eqn:E.
    apply mkdir_all_spec in E as (Hok1 & Hf & _); [|done|by apply Forall_take, Forall_app|by left].
    split; [done|]. intros es' _. rewrite decide_False by (by intros [? _]). by apply Hvals. }
  destruct (mkdir_all [] dir fs) as [rm fs1] eqn:E.
  apply mkdir_all_spec in E as (Hok1 & Hf & Hn & Ho & Hr); [|done|by apply Forall_app|by left]. simpl in Hr, Ho.
  pose proof (Hvals fs1 Hf) as Hv. clear Hvals.
  assert (∀ e, (r, fs') = (Err e, fs1) →
    fs_ok fs' ∧ ∀ es', r = Ok tt ∨ es' ≠ (es ++ [tmp])%list →
      value fs' es' = if decide (r = Ok tt ∧ es' = (es ++ [c])%list) then Some v else value fs es') as Hfail.
  { intros e [= -> ->]. split; [done|]. intros es' _. by rewrite decide_False by (by intros [? _]). }
  assert (∀ e x, rm = Ok tt → (r, fs') = (Err e, <[(dir ++ [tmp])%list := File x now]> fs1) →
    fs_ok fs' ∧ ∀ es', r = Ok tt ∨ es' ≠ (es ++ [tmp])%list →
      value fs' es' = if decide (r = Ok tt ∧ es' = (es ++ [c])%list) then Some v else value fs es') as Hleft.
  { intros e x Hrm [= -> ->]. specialize (Hr Hrm). split.
    - apply fs_ok_put; [done..|]. rewrite Ho, Htmp; [done|].
      intros Hp%prefix_length. rewrite !length_app in Hp. simpl in Hp. lia.
    - intros es' [|Hes']; [done|]. rewrite decide_False by (by intros [? _]). unfold dir.
      rewrite <-app_assoc, value_insert, decide_False by done. apply Hv. }
  intros H. destruct io as [|made e|e|e|written removed e|removed e].
  2: { apply (Hmk e). by exists made. }
  all: destruct rm as [[]|e']; [|by apply (Hfail e')].
  - specialize (Hr eq_refl).
    destruct (fs1 !! (dir ++ [c])%list) as [[|v1 t1]|] eqn:Ep; [by eapply Hfail|..];
      injection H as <- <-; (split; [apply fs_ok_put; [done..|by rewrite Ep]|]); intros es' _;
      unfold dir; rewrite <-app_assoc, value_insert;
      (destruct (decide (es' = (es ++ [c])%list)); [by rewrite decide_True|]);
      rewrite decide_False by (by intros [_ ?]); apply Hv.
  - by apply (Hfail e).
  - by apply (Hleft e "").
  - destruct removed; [by apply (Hfail e)|by apply (Hleft e written)].
  - destruct removed; [by apply (Hfail e)|by apply (Hleft e v)].
Qed.

(** [Delete] removes the values under its key if it succeeds; otherwise it may
    have removed some of them. *)
Lemma fs_Delete_spec stuck e es fs r fs' :
  fs_ok fs → key_ok es → fs_Delete root stuck e (key es) fs = (r, fs') →
  fs_ok fs' ∧
  (∀ es', ¬ es `prefix_of` es' → value fs' es' = value fs es') ∧
  (∀ es', es `prefix_of` es' → value fs' es' = None ∨ r ≠ Ok tt ∧ value fs' es' = value fs es').
Proof using Hps Hplain.
  intros Hok Hk. unfold fs_Delete, os_RemoveAll. rewrite components_Filename by done.
  pose proof (λ n, os_Stat_Ok fs es n Hok Hk) as Hs. destruct (os_Stat fs _) as [n|er].
  - set (stay := filter _ stuck). intros [= <- <-]. split_and!.
    + destruct Hok as [Hr Hp Hn]. split.
      * apply map_lookup_filter_Some. split; [done|]. simpl. left. intros [k Hk']. by destruct ps.
      * intros p c m [Hm Hx]%map_lookup_filter_Some. simpl in Hx. apply map_lookup_filter_Some.
        split; [by eapply Hp|]. simpl. destruct Hx as [Hx|(q & Hq & Hpq)].
        -- left. intros Hpre. apply Hx. by apply prefix_app_r.
        -- right. exists q. split; [done|]. etrans; [|exact Hpq]. by apply prefix_app_r.
      * intros p c m [Hm _]%map_lookup_filter_Some. by eapply Hn.
    + intros es' Hno. unfold value. destruct (fs !! (ps ++ es')%list) as [m|] eqn:Em.
      * rewrite (proj2 (map_lookup_filter_Some _ _ _ m)); [done|]. split; [done|]. simpl. left.
        by intros Hpre%prefix_app_inv.
      * by rewrite (proj2 (map_lookup_filter_None _ _ _)); [|left].
    + intros es' Hpre. unfold value. destruct (filter _ fs !! (ps ++ es')%list) as [m|] eqn:Em; [|by left].
      apply map_lookup_filter_Some in Em as [Em Hx]. simpl in Hx.
      destruct Hx as [Hx|(q & Hq & _)]; [destruct Hx; by apply prefix_app|].
      right. split; [|by rewrite Em]. case_decide as He; [|done]. by rewrite He in Hq; apply elem_of_empty in Hq.
  - destruct (errors_Is er ErrNotExist); intros [= <- <-]; (split; [done|]; split; [done|]); intros es' Hpre.
    + left. destruct Hpre as [k ->]. unfold value.
      destruct (fs !! (ps ++ es ++ k)%list) as [m|] eqn:Em; [|done]. exfalso.
      destruct k as [|x k]; [rewrite app_nil_r in Em; pose proof (proj2 (Hs m) Em); done|].
      rewrite app_assoc in Em. apply ok_ancestor in Em; [|done|done]. pose proof (proj2 (Hs Dir) Em). done.
    + by right.
Qed.

(** Operations on keys, with what the calls to the system do. *)
Inductive fs_op :=
| OpStore (io : store_io) (tmp : string) (now : Time) (es : list string) (v : bytes)
| OpDelete (stuck : gset (list string)) (e : error) (es : list string).

(** The keys are plain, and a temporary file has a new name. *)
Definition op_ok fs (o : fs_op) : Prop :=
  match o with
  | OpStore _ tmp _ es _ => key_ok es ∧ temp_ok fs es tmp
  | OpDelete _ _ es => key_ok es
  end.

Definition run_op (o : fs_op) : ST FS (result unit) :=
  match o with
  | OpStore io tmp now es v => fs_Store root io tmp now (key es) v
  | OpDelete stuck e es => fs_Delete root stuck e (key es)
  end.
Fixpoint fs_run (ops : list fs_op) (fs : FS) : list (result unit) * FS :=
  match ops with
  | [] => ([], fs)
  | o :: ops => let '(r, fs) := run_op o fs in let '(rs, fs) := fs_run ops fs in (r :: rs, fs)
  end.
Fixpoint ops_ok (ops : list fs_op) fs : Prop :=
  match ops with [] => True | o :: ops => op_ok fs o ∧ ops_ok ops (run_op o fs).2 end.

(** The specification: a map from keys to values, and what an operation with the
    result [r] may do to it. A [Store] that fails may leave a value at the key of
    its temporary file, and a [Delete] that fails may have removed some values
    under its key. *)
Definition effect (o : fs_op) (r : result unit) (vals vals' : list string → option bytes) : Prop :=
  match o with
  | OpStore _ tmp _ es v =>
      if decide (r = Ok tt) then ∀ es', vals' es' = if decide (es' = es) then Some v else vals es'
      else ∀ es', es' ≠ temp_key es tmp → vals' es' = vals es'
  | OpDelete _ _ es =>
      (∀ es', ¬ es `prefix_of` es' → vals' es' = vals es') ∧
      ∀ es', es `prefix_of` es' → vals' es' = None ∨ r ≠ Ok tt ∧ vals' es' = vals es'
  end.
Inductive spec_run : list (fs_op * result unit) → relation (list string → option bytes) :=
| spec_done vals : spec_run [] vals vals
| spec_next o r l vals1 vals2 vals3 :
    effect o r vals1 vals2 → spec_run l vals2 vals3 → spec_run ((o, r) :: l) vals1 vals3.

Lemma run_op_effect o fs r fs' :
  fs_ok fs → op_ok fs o → run_op o fs = (r, fs') → fs_ok fs' ∧ effect o r (value fs) (value fs').
Proof using Hps Hplain.
  intros Hok Ho H. destruct o as [io tmp now es v|stuck e es]; simpl in *.
  - destruct Ho as [Hk Ht]. apply fs_Store_spec in H as [Hok' Hv]; [|done..]. split; [done|].
    destruct (decide (r = Ok tt)) as [->|Hr].
    + intros es'. rewrite Hv by (by left). by destruct (decide (es' = es)) as [->|];
        [rewrite decide_True|rewrite decide_False by (by intros [_ ?])].
    + intros es' Hne. rewrite Hv by (by right). by rewrite decide_False by (by intros [? _]).
  - by apply fs_Delete_spec in H.
Qed.

Lemma fs_run_spec ops fs rs fs' :
  fs_ok fs → ops_ok ops fs → fs_run ops fs = (rs, fs') →
  fs_ok fs' ∧ spec_run (zip ops rs) (value fs) (value fs').
Proof using Hps Hplain.
  revert fs rs. induction ops as [|o ops IH]; intros fs rs Hok Hk H; simpl in H.
  { injection H as <- <-. split; [done|constructor]. }
  destruct Hk as [Ho Hk]. destruct (run_op o fs) as [r fs1] eqn:E1.
  destruct (fs_run ops fs1) as [rs2 fs2] eqn:E2. injection H as <- <-.
  apply run_op_effect in E1 as [Hok1 He]; [|done..].
  apply IH in E2 as [Hok2 Hr]; [|done..]. split; [done|]. by econstructor.
Qed.

(** (C27) The files implement a map from keys to values: after any sequence of
    [Store] and [Delete] on plain keys, of which any may fail at any of its calls
    to the system, the tree is well formed, and [Load] gives exactly the value
    that the map has. A [Store] that succeeded has set its key and changed nothing
    else, a [Delete] that succeeded has removed its key and all below it and
    nothing else. A [Store] that failed has changed no value, but may have left
    its temporary file, under a new key beside its own; a [Delete] that failed
    may have removed some of the values under its key, and no others. *)
Theorem FileStorage_refines ops fs rs fs' :
  fs_ok fs → ops_ok ops fs → fs_run ops fs = (rs, fs') →
  fs_ok fs' ∧
  ∃ vals, spec_run (zip ops rs) (value fs) vals ∧
    ∀ es v, key_ok es → fs_Load root fs' (key es) = Ok v ↔ vals es = Some v.
Proof using Hps Hplain.
  intros Hok Hk [Hok' Hv]%fs_run_spec; [|done|done]. split; [done|]. exists (value fs'). split; [done|].
  intros es v He. by rewrite fs_Load_value.
Qed.

(** A key that is neither a file nor a directory does not exist for [Load],
    [Stat] and [Exists], unless a file is in the way. *)
Lemma fs_missing fs es :
  fs_ok fs → key_ok es → fs !! (ps ++ es)%list = None → ¬ blocked fs (ps ++ es) →
  fs_Load root fs (key es) = Err ErrNotExist ∧ fs_Stat root dirInfo fs (key es) = Err ErrNotExist ∧
  fs_Exists root fs (key es) = false.
Proof using Hps Hplain.
  intros Hok Hk Hn Hb. unfold fs_Load, os_ReadFile, fs_Stat, fs_Exists.
  destruct (os_Stat fs _) as [n|e] eqn:E; [apply os_Stat_Ok in E; [congruence|done|done]|].
  unfold os_Stat in E. rewrite components_Filename in E by done. by apply resolve_Err in E as [->|].
Qed.

Lemma ok_plains fs p k n : fs_ok fs → fs !! (p ++ k)%list = Some n → plains k.
Proof.
  intros Hok. revert n. induction k as [|c k IH] using rev_ind; intros n Hn; [constructor|].
  rewrite app_assoc in Hn. apply Forall_app. split; [|constructor; [by eapply ok_names|constructor]].
  apply (ok_parent _ Hok) in Hn. by eapply IH.
Qed.

(** [List] gives every key below the prefix, files and directories, exactly
    once, or only those directly below it; the walk is never cut short. *)
Theorem List_exact fs es recursive :
  fs_ok fs → key_ok es → fs !! (ps ++ es)%list = Some Dir →
  ∃ keys, fs_List root fs (key es) recursive = Ok keys ∧ NoDup keys ∧
    ∀ k, k ∈ keys ↔ ∃ es', es' ≠ [] ∧ k = key (es ++ es') ∧ is_Some (fs !! (ps ++ es ++ es')%list) ∧
                     (recursive = false → length es' = 1%nat).
Proof using Hps Hplain.
  intros Hok Hk Hd. unfold fs_List. rewrite (proj2 (os_Stat_Ok fs es Dir Hok Hk) Hd).
  rewrite components_Filename by done. eexists. split; [done|].
  assert (∀ fpath, fpath ∈ walk (size fs) fs recursive (ps ++ es) →
    ∃ k, fpath = (ps ++ es ++ k)%list ∧ k ≠ [] ∧ is_Some (fs !! fpath) ∧ (recursive = false → length k = 1%nat) ∧
      path_Join [key es; Join (drop (length (ps ++ es)) fpath) "/"] = key (es ++ k)) as Hw.
  { intros fpath (k & -> & Hne & [n Hn] & Hr)%walk_sound. exists k. rewrite <-app_assoc. split_and!; try done.
    - rewrite app_assoc. by eexists.
    - rewrite app_assoc, drop_app_length. apply path_Join_plain; [apply Hk|done|].
      apply Forall_app. split; [apply Hk|by eapply ok_plains]. }
  split.
  - apply NoDup_fmap_2_strong; [|apply walk_NoDup]. intros p q Hp Hq E.
    destruct (Hw p Hp) as (k & -> & Hne & [n Hn] & _ & Ep), (Hw q Hq) as (k' & -> & Hne' & [n' Hn'] & _ & Eq).
    rewrite Ep, Eq in E. apply Join_inj in E; [by rewrite E|by destruct k, es|by destruct k', es|..];
      apply plain_no_slashes; by eapply ok_plains.
  - intros k. rewrite list_elem_of_fmap. split.
    + intros (fpath & -> & Hin). destruct (Hw fpath Hin) as (k & -> & Hne & Hs & Hr & E). exists k. by rewrite E.
    + intros (es' & Hne & -> & Hs & Hr). exists (ps ++ es ++ es')%list.
      assert ((ps ++ es ++ es')%list ∈ walk (size fs) fs recursive (ps ++ es)) as Hin.
      { rewrite app_assoc in *. apply walk_complete; [done|done|done| |done].
        destruct Hs as [n Hn]. by eapply depth_bound. }
      destruct (Hw _ Hin) as (k & E & _ & _ & _ & Ek). apply app_inv_head, app_inv_head in E as ->. by rewrite Ek.
Qed.
End refinement.

(** ** Examples *)

Module SimFiles.
Definition ps : list string := ["data"].
Definition empty : FS := {[ [] := Dir ]}.
Definition ops : list fs_op :=
  [OpStore IoOk "123" 1 ["acme"; "a.json"] "one";
   OpStore (IoChmod (Errorf "operation not permitted")) "456" 2 ["acme"; "a.json"] "two";
   OpStore IoOk "789" 3 ["acme"; "users"; "b.key"] "key";
   OpDelete {[ ["data"; "acme"; "users"; "b.key"] ]} (Errorf "permission denied") ["acme"; "users"];
   OpDelete ∅ (Errorf "permission denied") ["acme"; "users"]].
Definition after : FS := (fs_run ps ops empty).2.

Lemma empty_ok : fs_ok empty.
Proof.
  split; [done|..]; intros p c n Hn; unfold empty in Hn; apply lookup_singleton_Some in Hn as [E _]; by destruct p.
Qed.
Lemma ex_ops_ok : ops_ok ps ops empty.
Proof.
  repeat split; try (by repeat constructor); try done; vm_compute; reflexivity.
Qed.
End SimFiles.

Lemma FileStorage_refines_witness :
  fs_ok SimFiles.after ∧
  ∃ vals, spec_run (zip SimFiles.ops (fs_run SimFiles.ps SimFiles.ops SimFiles.empty).1)
            (value SimFiles.ps SimFiles.empty) vals ∧
    (fs_Load (root SimFiles.ps) SimFiles.after (key ["acme"; "a.json"]) = Ok "one" ↔
     vals ["acme"; "a.json"] = Some "one").
Proof.
  assert (SimFiles.ps ≠ []) as H1 by done. assert (plains SimFiles.ps) as H2 by (by repeat constructor).
  destruct (FileStorage_refines SimFiles.ps H1 H2 SimFiles.ops SimFiles.empty
    (fs_run SimFiles.ps SimFiles.ops SimFiles.empty).1 SimFiles.after SimFiles.empty_ok SimFiles.ex_ops_ok
    (surjective_pairing _)) as (Hok & vals & Hr & Hl).
  split; [exact Hok|]. exists vals. split; [exact Hr|]. apply Hl. split; [done|by repeat constructor].
Defined.

Lemma List_exact_witness :
  fs_ok SimFiles.after ∧
  ∃ keys, fs_List (root SimFiles.ps) SimFiles.after (key ["acme"]) true = Ok keys ∧ NoDup keys.
Proof.
  assert (SimFiles.ps ≠ []) as H1 by done. assert (plains SimFiles.ps) as H2 by (by repeat constructor).
  assert (fs_ok SimFiles.after) as Hok.
  { apply (fs_run_spec SimFiles.ps H1 H2 SimFiles.ops SimFiles.empty
      (fs_run SimFiles.ps SimFiles.ops SimFiles.empty).1 SimFiles.after SimFiles.empty_ok SimFiles.ex_ops_ok).
    apply surjective_pairing. }
  split; [exact Hok|].
  destruct (List_exact SimFiles.ps H1 H2 SimFiles.after ["acme"] true Hok) as (keys & Hk & Hnd & _);
    [split; [done|by repeat constructor]|by vm_compute|]. exists keys. exact (conj Hk Hnd).
Defined.

Example files_after :
  fs_Load "/data" SimFiles.after "acme/a.json" = Ok "one" ∧
  fs_Load "/data" SimFiles.after "acme/users/b.key" = Err ErrNotExist ∧
  fs_List "/data" SimFiles.after "acme" true = Ok ["acme/456"; "acme/a.json"] ∧
  (fs_run SimFiles.ps SimFiles.ops SimFiles.empty).1 =
    [Ok tt; Err (Errorf "operation not permitted"); Ok tt; Err (Errorf "permission denied"); Ok tt].
Proof. by vm_compute. Qed.

(** [Exists] holds for a key below a file, which cannot exist: every error but
    one counts as existing. *)
Example exists_below_file :
  fs_Exists "/data" SimFiles.after "acme/a.json/x" = true ∧
  is_Ok (fs_Load "/data" SimFiles.after "acme/a.json/x") = false.
Proof. by vm_compute. Qed.

(** A key with parent elements names a file outside the root. *)
Example key_escapes : Filename "/data/certs" "../../etc/passwd" = "/etc/passwd".
Proof. by vm_compute. Qed.
