(* ===== verification/Lifecycle.v ===== *)
(** * The maintenance goroutine of a cache among the others (maintain.go, cache.go)

    [NewCache] starts [maintainAssets], which waits for one of two tickers or
    for the channel that [Stop] closes. A panic is recovered, and the method
    calls itself again up to ten times. The scan of the renewal pass holds
    the read lock of the cache when it panics, and the lock is not released:
    from then on whoever asks for the write lock waits for ever, the
    goroutine itself included. The other goroutines of the program take part
    with their functions: jobs, handshakes and the goroutines these start, calls
    of [ManageSync] and [ManageAsync], and calls of the methods of the cache. *)

From S2P Require Import Prelude GoStrings Certificates Cache Async Storage Crypto OCSP.
From S2P Require Import Config Manage Handshake Maintain ManageAll.
Open Scope string_scope.

(** ** Handshakes as executions of the cache *)

Section hs_cache.
Context {St E N : Type} `{C : !Codec} `{!Storage St} `{X : !External St E}
  `{!OCSPNet N} `{TL : !TLSLib E} `{AL : !ACMELib St E}.
Context (names_of : string → list string).
Context (wait : wait_kind → string → ST (HState St E N) wait_outcome).
Context (cfg : Config) (hello : ClientHelloInfo).
Implicit Types h : HState St E N.

(** A goroutine that a handshake has started. *)
Definition background (rec : hs_call → ST (HState St E N) (Certificate * option error)) (j : job) :
    ST (HState St E N) (Certificate * option error) :=
  match j with
  | JobRenew name cert => renewAndReload cfg name cert
  | JobUpdateARI cert => λ h,
      let '((cert, _, err), h) := Handshake.on_m (updateARI cfg cert) h in
      match panic_of err with
      | Some e => ((cert, Some e), h)
      | None => renewIfNecessary wait cfg hello rec cert h
      end
  end.

Definition job_ok (j : job) : Prop :=
  match j with JobUpdateARI cert | JobRenew _ cert => consistent names_of cert end.

(** What a part of a handshake does to the cache and to the jobs. *)
Definition hs_runs h h' : Prop :=
  evolves names_of (h_cache h) (h_cache h') ∧
  (Forall job_ok (h_jobs h) → Forall job_ok (h_jobs h')).

Lemma hs_refl h : hs_runs h h.
Proof. split; [apply evolves_refl|done]. Qed.
Lemma hs_trans h1 h2 h3 : hs_runs h1 h2 → hs_runs h2 h3 → hs_runs h1 h3.
Proof. intros [H1 J1] [H2 J2]. split; [by eapply evolves_trans|auto]. Qed.
Lemma hs_indexed h h' : indexed names_of (h_cache h) → hs_runs h h' → indexed names_of (h_cache h').
Proof. intros Hi [He _]. by eapply indexed_evolves. Qed.
Lemma hs_on_m {A} (f : ST (MState St E N) A) h r h' :
  Handshake.on_m f h = (r, h') →
  (∀ m', f (h_m h) = (r, m') → evolves names_of (m_cache (h_m h)) (m_cache m')) → hs_runs h h'.
Proof. unfold Handshake.on_m. destruct (f (h_m h)) as [x m]. intros [= -> <-] Hf. split; [by apply Hf|done]. Qed.
Lemma hs_set_obtain ws h : hs_runs h (set_obtainWait ws h).
Proof. split; [apply evolves_refl|done]. Qed.
Lemma hs_set_load ws h : hs_runs h (set_loadWait ws h).
Proof. split; [apply evolves_refl|done]. Qed.
Lemma hs_spawn j h : job_ok j → hs_runs h (spawn j h).
Proof. intros Hj. split; [apply evolves_refl|]. intros Hjs. simpl. apply Forall_app. by split; [|constructor]. Qed.
Hint Resolve hs_refl hs_set_obtain hs_set_load : certmagic.

Hypothesis Hmk : make_consistent (E := E) names_of.
Hypothesis Hev : evictions_valid (E := E).
(** While a handshake waits the others act on the cache as it does itself. *)
Hypothesis Hwait : ∀ k n h r h', wait k n h = (r, h') → hs_runs h h'.
(** A selector chooses among the certificates it is given. *)
Hypothesis Hselect : ∀ f l cert, CertSelection cfg = Some f → f hello l = Ok cert → cert ∈ l.
Hypothesis Hord : orders_valid (E := E).

Lemma hs_world {A} (f : ST (World St E) A) h r h' :
  Handshake.on_m (on_world f) h = (r, h') → hs_runs h h'.
Proof. intros H. eapply hs_on_m; [exact H|]. intros m' ->%on_world_cache. apply evolves_refl. Qed.

Lemma hs_CacheManaged d h r h' :
  Handshake.on_m (CacheManagedCertificate cfg d) h = (r, h') →
  hs_runs h h' ∧ match r with Ok cert => consistent names_of cert | Err _ => True end.
Proof using Hmk Hev.
  intros H. split.
  - eapply hs_on_m; [exact H|]. intros m' Hr. eapply evolves_methods, CacheManagedCertificate_runs; done.
  - destruct r as [cert|]; [|done]. unfold Handshake.on_m in H.
    destruct (CacheManagedCertificate cfg d (h_m h)) as [x m] eqn:E1. injection H as -> _.
    by eapply CacheManagedCertificate_consistent.
Qed.

(** The certificate that is found in the cache is one of it. *)
Lemma selectCert_elem now all c name cert :
  indexed names_of c → (∀ x, x ∈ all → consistent names_of x) →
  selectCert cfg now all c hello name = (cert, true) → consistent names_of cert.
Proof using Hselect.
  intros Hi Hall. assert (∀ x, x ∈ getAllMatchingCerts c name → consistent names_of x) as Hm.
  { intros x Hx. by eapply getAllMatchingCerts_consistent. }
  unfold selectCert. destruct (CertSelection cfg) as [f|] eqn:Ef.
  - destruct (f hello _) as [x|] eqn:Ex; [|done]. intros [= <-]. apply (Hselect f) in Ex; [|done].
    destruct (getAllMatchingCerts c name); auto.
  - destruct (getAllMatchingCerts c name) as [|x l] eqn:El; [done|].
    destruct (DefaultCertificateSelector_chooses now hello (x :: l)) as (y & -> & Hy); [done|].
    intros [= <-]. by apply Hm.
Qed.

Lemma fromCache_matched h cert defaulted :
  indexed names_of (h_cache h) → fromCache cfg hello h = (cert, true, defaulted) → consistent names_of cert.
Proof using Hselect Hord.
  intros Hi. unfold fromCache, getCertificateFromCache.
  set (all := x_MapOrder _ _). set (select := selectCert _ _ _ _ _).
  assert (∀ n c, select n = (c, true) → consistent names_of c) as Hsel.
  { intros n c. apply selectCert_elem; [done|]. intros x Hx.
    pose proof (scan_order_consistent names_of (h_ext h) (h_cache h) Hord Hi) as Hf.
    rewrite Forall_forall in Hf. by apply Hf. }
  assert (∀ l c, select_first select l = (c, true) → consistent names_of c) as Hfirst.
  { induction l as [|n l IH]; intros c; simpl; [done|].
    destruct (select n) as [c1 []] eqn:E1; [|apply IH]. intros [= <-]. by eapply Hsel. }
  destruct (_ =? ""); [|destruct (select (normalizedName (ServerName hello))) as [c1 b1] eqn:E1].
  - destruct (hello_LocalAddr hello); simpl.
    + destruct (select _) as [c1 []] eqn:E1; simpl; [intros [= <- _]; by eapply Hsel|]. by repeat case_match.
    + by repeat case_match.
  - simpl. destruct b1; [intros [= <- _]; by eapply Hsel|].
    destruct (select_first select _) as [c2 b2] eqn:E2. simpl.
    destruct b2; [intros [= <- _]; by eapply Hfirst|done].
Qed.

(** ** The methods *)

Definition call_ok (call : hs_call) : Prop :=
  match call with CallGetCert => True | CallMaintain cert => consistent names_of cert end.
Definition keeps (m : ST (HState St E N) (Certificate * option error)) : Prop :=
  ∀ h r h', indexed names_of (h_cache h) → m h = (r, h') → hs_runs h h'.

Section methods.
Context (rec : hs_call → ST (HState St E N) (Certificate * option error)).
Hypothesis Hrec : ∀ call, call_ok call → keeps (rec call).

Lemma loadCertFromStorage_keeps : keeps (loadCertFromStorage cfg hello rec).
Proof using Hmk Hev Hrec.
  intros h r h' Hi. unfold loadCertFromStorage.
  destruct (getNameFromClientHello cfg hello) as [n|e]; [|intros [= _ <-]; auto with certmagic].
  destruct (Handshake.on_m (CacheManagedCertificate cfg n) h) as [r1 h1] eqn:E1.
  apply hs_CacheManaged in E1 as [H1 C1].
  destruct (match r1 with Ok _ => (r1, h1) | Err e => _ end) as [r2 h2] eqn:E2.
  assert (hs_runs h h2 ∧ match r2 with Ok cert => consistent names_of cert | Err _ => True end) as [H2 C2].
  { destruct r1 as [c|e]; [by injection E2 as <- <-|]. destruct (errors_Is e ErrNotExist); [|by injection E2 as <- <-].
    apply hs_CacheManaged in E2 as [H2 C2]. split; [by eapply hs_trans|done]. }
  destruct r2 as [cert|e]; [|by intros [= _ <-]].
  destruct (rec (CallMaintain cert) h2) as [res h3] eqn:E3. intros Hr.
  assert (h' = h3) as -> by (destruct (panicked res); congruence).
  eapply hs_trans; [exact H2|]. eapply (Hrec (CallMaintain cert)); [done| |exact E3]. by eapply hs_indexed.
Qed.

Lemma wait_then_keeps k n h r h' (out : wait_outcome → Certificate * option error) ro h1 :
  indexed names_of (h_cache h) → wait k n h = (ro, h1) →
  match ro with WaitClosed => rec CallGetCert h1 | _ => (out ro, h1) end = (r, h') → hs_runs h h'.
Proof using Hwait Hrec.
  intros Hi Hw%Hwait Hr. pose proof (hs_indexed _ _ Hi Hw) as Hi1. destruct ro; [by injection Hr as _ <-..|].
  eapply hs_trans; [exact Hw|]. by eapply (Hrec CallGetCert).
Qed.

Lemma obtainOnDemandCertificate_keeps : keeps (obtainOnDemandCertificate wait cfg hello rec).
Proof using Hmk Hev Hwait Hrec.
  intros h r h' Hi. unfold obtainOnDemandCertificate.
  destruct (getNameFromClientHello cfg hello) as [n|e]; [|intros [= _ <-]; auto with certmagic].
  destruct (decide _).
  - destruct (wait WaitObtain n h) as [ro h1] eqn:Ew. intros Hr.
    eapply (wait_then_keeps _ _ _ _ _ (λ _, (zeroCertificate, Some (Errorf "timed out waiting to obtain certificate"))));
      [done|exact Ew|]. by destruct ro.
  - set (h0 := set_obtainWait _ h).
    destruct (Handshake.on_m (on_world (ObtainCertAsync cfg n)) h0) as [ra h2] eqn:E2. apply hs_world in E2.
    assert (hs_runs h h2) as H2 by (eapply hs_trans; [apply hs_set_obtain|exact E2]).
    destruct (match ra with Ok _ => _ | Err _ => _ end) as [res h3] eqn:E3. intros [= _ <-].
    assert (hs_runs h h3) as H3.
    { destruct ra; [|by injection E3 as _ <-]. eapply hs_trans; [exact H2|].
      eapply loadCertFromStorage_keeps; [|exact E3]. by eapply hs_indexed. }
    destruct (panicked res); [done|]. eapply hs_trans; [exact H3|apply hs_set_obtain].
Qed.

Lemma renewAndReload_keeps n cert : consistent names_of cert → keeps (renewAndReload cfg n cert).
Proof using Hmk Hev.
  intros Hc h r h' Hi. unfold renewAndReload. destruct (checkIfCertShouldBeObtained cfg n true) as [u|e].
  - match goal with |- context [if is_revoked cert then ?a else ?b] =>
      destruct (if is_revoked cert then a else b) as [res h1] eqn:E1 end.
    intros [= _ <-]. assert (hs_runs h h1) as H1.
    { destruct (is_revoked cert).
      - eapply hs_on_m; [exact E1|]. intros m' Hf. eapply evolves_methods, forceRenew_runs; done.
      - destruct (Handshake.on_m (on_world (RenewCertAsync cfg n false)) h) as [[u1|e1] h2] eqn:E2;
          apply hs_world in E2; [|by injection E1 as _ <-].
        destruct (Handshake.on_m (reloadManagedCertificate cfg cert) h2) as [x h3] eqn:E3.
        assert (h1 = h3) as -> by (destruct x; congruence). eapply hs_trans; [exact E2|].
        eapply hs_on_m; [exact E3|]. intros m' Hf. eapply evolves_methods, reloadManagedCertificate_runs; done. }
    destruct (panicked res); [done|]. eapply hs_trans; [exact H1|apply hs_set_obtain].
  - destruct (Handshake.on_m (on_cache (λ _, removeCertificate cert)) h) as [u h1] eqn:E1. intros [= _ <-].
    eapply hs_trans; [|apply hs_set_obtain]. eapply hs_on_m; [exact E1|]. intros m' [= <- <-].
    apply evolves_method. by constructor.
Qed.

Lemma renewDynamicCertificate_keeps cert :
  consistent names_of cert → keeps (renewDynamicCertificate wait cfg hello rec cert).
Proof using Hmk Hev Hwait Hrec.
  intros Hc h r h' Hi. unfold renewDynamicCertificate.
  destruct (getNameFromClientHello cfg hello) as [n|e]; [|intros [= _ <-]; auto with certmagic].
  destruct (decide _).
  - destruct (_ && _); [intros [= _ <-]; auto with certmagic|].
    destruct (wait WaitObtain n h) as [ro h1] eqn:Ew. intros Hr.
    eapply (wait_then_keeps _ _ _ _ _ (λ _, (zeroCertificate, Some (Errorf "timed out waiting for certificate renewal"))));
      [done|exact Ew|]. by destruct ro.
  - destruct (0 <? _)%Z.
    + intros [= _ <-]. eapply hs_trans; [apply hs_set_obtain|by apply hs_spawn].
    + intros Hr. eapply hs_trans; [apply hs_set_obtain|]. by eapply renewAndReload_keeps.
Qed.

Lemma renewIfNecessary_keeps cert :
  consistent names_of cert → keeps (renewIfNecessary wait cfg hello rec cert).
Proof using Hmk Hev Hwait Hrec.
  intros Hc h r h' Hi. unfold renewIfNecessary.
  destruct (Leaf cert); [|intros [= _ <-]; auto with certmagic].
  destruct (certNeedsRenewal _ _ _ _ _) as [[]|]; try (intros [= _ <-]; auto with certmagic).
  destruct (firstName cert) as [n0|]; [|intros [= _ <-]; auto with certmagic].
  destruct (negb _); [by apply obtainOnDemandCertificate_keeps|by apply renewDynamicCertificate_keeps].
Qed.

Lemma refresh_staple_keeps cert h cert' h' :
  consistent names_of cert → refresh_staple cfg cert h = (cert', h') →
  hs_runs h h' ∧ consistent names_of cert'.
Proof.
  intros Hc. unfold refresh_staple. destruct (ocsp cert) as [o|]; [|intros [= <- <-]; auto with certmagic].
  destruct (negb _); [|intros [= <- <-]; auto with certmagic].
  unfold Handshake.on_m at 1, on_ocsp. destruct (stapleOCSP _ _ _ _ _) as [[r1 c1] [s n]] eqn:E1.
  apply stapleOCSP_fields in E1 as [Hh HN]. simpl. intros [= <- <-].
  assert (consistent names_of c1) as Hc1 by (unfold consistent; by rewrite Hh, HN).
  split; [|done]. split; [|done]. by apply evolves_writeBack.
Qed.

Lemma handshakeMaintenance_keeps cert :
  consistent names_of cert → keeps (handshakeMaintenance ari_NeedsRefresh wait cfg hello rec cert).
Proof using Hmk Hev Hwait Hrec.
  intros Hc h r h' Hi. unfold handshakeMaintenance.
  destruct (refresh_staple cfg cert h) as [cert1 h1] eqn:E1.
  apply refresh_staple_keeps in E1 as [H1 Hc1]; [|done]. pose proof (hs_indexed _ _ Hi H1) as Hi1.
  set (refresh := _ && _).
  assert (∀ b : bool,
    (if certShouldBeForceRenewed cert1
     then renewDynamicCertificate wait cfg hello rec cert1 (if b then spawn (JobUpdateARI cert1) h1 else h1)
     else renewIfNecessary wait cfg hello rec cert1 (if b then spawn (JobUpdateARI cert1) h1 else h1)) = (r, h') →
    hs_runs h h') as Hb.
  { intros b. assert (hs_runs h1 (if b then spawn (JobUpdateARI cert1) h1 else h1)) as H2
      by (destruct b; [by apply hs_spawn|apply hs_refl]).
    pose proof (hs_indexed _ _ Hi1 H2) as Hi2. intros Hr.
    eapply hs_trans; [exact H1|]. eapply hs_trans; [exact H2|].
    destruct (certShouldBeForceRenewed cert1); [by eapply renewDynamicCertificate_keeps|by eapply renewIfNecessary_keeps]. }
  destruct (Leaf cert1); [apply Hb|]. destruct refresh; [|apply (Hb false)]. by intros [= _ <-].
Qed.

Lemma getCert_load_keeps n cert defaulted load : keeps (getCert_load wait cfg hello rec n cert defaulted load).
Proof using Hmk Hev Hwait Hrec.
  intros h r h' Hi. unfold getCert_load.
  destruct (getCertFromAnyCertManager cfg hello) as [ext|e]; [|intros [= _ <-]; auto with certmagic].
  destruct (negb (Empty ext)); [intros [= _ <-]; auto with certmagic|].
  destruct (checkIfCertShouldBeObtained cfg n false) as [u|e]; [|intros [= _ <-]; auto with certmagic].
  destruct (_ && load); [|destruct defaulted; intros [= _ <-]; auto with certmagic].
  destruct (loadCertFromStorage cfg hello rec h) as [[c1 err] h1] eqn:E1.
  apply loadCertFromStorage_keeps in E1; [|done].
  destruct err as [e|]; [|by intros [= _ <-]]. destruct (is_panic e); [by intros [= _ <-]|].
  destruct (match OnDemand cfg with Some _ => true | None => false end); [|by intros [= _ <-]].
  intros Hr. eapply hs_trans; [exact E1|]. eapply obtainOnDemandCertificate_keeps; [|exact Hr]. by eapply hs_indexed.
Qed.

Lemma getCertDuringHandshake_keeps load :
  keeps (getCertDuringHandshake ari_NeedsRefresh wait cfg hello rec load).
Proof using Hmk Hev Hwait Hrec Hselect Hord.
  intros h r h' Hi. unfold getCertDuringHandshake.
  destruct (fromCache cfg hello h) as [[cert matched] defaulted] eqn:Ef. destruct matched.
  { destruct (OnDemand cfg); [|intros [= _ <-]; auto with certmagic].
    destruct (managed cert && load); [|intros [= _ <-]; auto with certmagic].
    apply fromCache_matched in Ef; [|done]. unfold optionalMaintenance.
    destruct (handshakeMaintenance _ _ _ _ _ cert h) as [[c1 e1] h1] eqn:E1. intros Hr.
    assert (h' = h1) as ->.
    { destruct e1 as [e|]; [|congruence]. destruct (is_panic e); [congruence|]. destruct (Expired _ _); congruence. }
    by eapply handshakeMaintenance_keeps. }
  destruct (getNameFromClientHello cfg hello) as [n|e]; [|intros [= _ <-]; auto with certmagic].
  destruct (decide _).
  - destruct (wait WaitLoad n h) as [ro h1] eqn:Ew. intros Hr.
    eapply (wait_then_keeps _ _ _ _ _ (λ o, match o with
      | WaitTimeout => (zeroCertificate, Some (Errorf "timed out waiting to load certificate"))
      | _ => (zeroCertificate, Some Canceled) end)); [done|exact Ew|]. by destruct ro.
  - set (h1 := set_loadWait _ _).
    destruct (getCert_load wait cfg hello rec n cert defaulted load h1) as [res h2] eqn:E2.
    apply getCert_load_keeps in E2; [|done]. intros [= _ <-].
    eapply hs_trans; [apply hs_set_load|]. eapply hs_trans; [exact E2|apply hs_set_load].
Qed.

Lemma background_keeps j : job_ok j → keeps (background rec j).
Proof using Hmk Hev Hwait Hrec.
  intros Hj h r h' Hi. destruct j as [cert|n cert]; simpl in *; [|by apply renewAndReload_keeps].
  destruct (Handshake.on_m (updateARI cfg cert) h) as [[[c b] err] h1] eqn:E1.
  assert (hs_runs h h1 ∧ consistent names_of c) as [H1 Hc1].
  { split; [eapply hs_on_m; [exact E1|]; intros m' Hr; by eapply evolves_methods, updateARI_runs|].
    unfold Handshake.on_m in E1. destruct (updateARI cfg cert (h_m h)) as [[[c2 b2] err2] m2] eqn:E2.
    injection E1 as -> -> -> _. apply (updateARI_cert names_of) in E2 as [Hh HN]; [|done..].
    unfold consistent. by rewrite Hh, HN. }
  destruct (panic_of err); [by intros [= _ <-]|]. intros Hr. eapply hs_trans; [exact H1|].
  eapply renewIfNecessary_keeps; [done| |exact Hr]. by eapply hs_indexed.
Qed.
End methods.

Lemma hs_rec_keeps fuel call : call_ok call → keeps (hs_rec fuel ari_NeedsRefresh wait cfg hello call).
Proof using Hmk Hev Hwait Hselect Hord.
  revert call. induction fuel as [|fuel IH]; intros call Hok.
  { intros h r h' _ [= _ <-]. apply hs_refl. }
  destruct call as [|cert]; simpl; [by apply getCertDuringHandshake_keeps|by apply handshakeMaintenance_keeps].
Qed.

Lemma handshake_keeps fuel : keeps (handshake fuel ari_NeedsRefresh wait cfg hello).
Proof using Hmk Hev Hwait Hselect Hord.
  apply getCertDuringHandshake_keeps. intros call. apply hs_rec_keeps.
Qed.
End hs_cache.

(** ** The goroutine and the rest of the program *)

(** Where the goroutine is: in the loop of the call with this [panicCount],
    waiting for the write lock inside a pass, or gone. *)
Inductive goroutine := Running (panicCount : nat) | Stuck | Ended.
#[export] Instance goroutine_eq_dec : EqDecision goroutine.
Proof. solve_decision. Defined.

(** The goroutines that handshakes have started come with the configuration and
    the client hello they work for. *)
Record Life (St E N : Type) := MkLife {
  l_r : RState St E N;
  l_readers : nat;        (* read locks that a panic has left behind *)
  l_loop : goroutine;
  l_stopChan : bool;      (* closed *)
  l_doneChan : bool;      (* closed *)
  l_jobs : list job       (* goroutines started by handshakes *)
}.
Arguments MkLife {St E N}.
Arguments l_r {St E N}.
Arguments l_readers {St E N}.
Arguments l_loop {St E N}.
Arguments l_stopChan {St E N}.
Arguments l_doneChan {St E N}.
Arguments l_jobs {St E N}.

(** The deferred function of [maintainAssets]. *)
Definition recovered (panicCount : nat) : goroutine :=
  if (panicCount <? 10)%nat then Running (S panicCount) else Ended.

Section lifecycle.
Context {St E N : Type} `{C : !Codec} `{!Storage St} `{X : !External St E}
  `{!OCSPNet N} `{TL : !TLSLib E} `{AL : !ACMELib St E}.
Context (names_of : string → list string) (configFor : Certificate → result Config).
Implicit Types l : Life St E N.

Abbreviation l_m l := (r_m (l_r l)).
Abbreviation l_cache l := (m_cache (l_m l)).

(** The scan with which the renewal pass begins. *)
Definition first_scan l : result queues :=
  scan configFor (l_m l) (x_MapOrder (w_ext (m_world (l_m l))) (l_cache l)) no_queues.

Definition at_loop l (r : RState St E N) (readers : nat) (s : goroutine) : Life St E N :=
  MkLife r readers s (l_stopChan l) (l_doneChan l) (l_jobs l).
(** Another goroutine has changed the state. *)
Definition with_r l (r : RState St E N) : Life St E N := at_loop l r (l_readers l) (l_loop l).
Definition with_m l (m : MState St E N) : Life St E N := with_r l (MkR m (r_jm (l_r l)) (r_tasks (l_r l))).
(** A part of a handshake has run, and has started goroutines. *)
Definition hs_state l (lw ow : gset string) : HState St E N := MkH (l_m l) lw ow [].
Definition with_h l (h : HState St E N) : Life St E N :=
  let l := with_m l (h_m h) in
  MkLife (l_r l) (l_readers l) (l_loop l) (l_stopChan l) (l_doneChan l) (l_jobs l ++ h_jobs h)%list.

(** The case of the renewal ticker, when the pass gets the locks it asks for. *)
Definition renewal_tick (panicCount : nat) l : Life St E N :=
  match first_scan l with
  | Err _ => at_loop l (l_r l) (S (l_readers l)) (recovered panicCount)
  | Ok _ =>
      match RenewManagedCertificates configFor (l_r l) with
      | (Ok _, r) => at_loop l r (l_readers l) (Running panicCount)
      | (Err _, r) => at_loop l r (l_readers l) (recovered panicCount)
      end
  end.

(** The case of the OCSP ticker. *)
Definition ocsp_tick (panicCount : nat) l : Life St E N :=
  let '(res, m) := updateOCSPStaples configFor (l_m l) in
  at_loop l (MkR m (r_jm (l_r l)) (r_tasks (l_r l))) (l_readers l)
    (match res with Ok _ => Running panicCount | Err _ => recovered panicCount end).

(** The case of [stopChan]. *)
Definition stop_seen l : Life St E N :=
  MkLife (l_r l) (l_readers l) Ended (l_stopChan l) true (l_jobs l).

(** The first half of [Stop]; the other half waits for [doneChan]. *)
Definition Stop l : Life St E N :=
  MkLife (l_r l) (l_readers l) (l_loop l) true (l_doneChan l) (l_jobs l).

(** A handshake of which the selector chooses among the certificates it is
    given; while it waits the other goroutines go on. *)
Definition client_ok (cfg : Config) (hello : ClientHelloInfo)
    (wait : wait_kind → string → ST (HState St E N) wait_outcome) : Prop :=
  (∀ k n h r h', wait k n h = (r, h') → hs_runs names_of h h') ∧
  (∀ f cs cert, CertSelection cfg = Some f → f hello cs = Ok cert → cert ∈ cs).

(** One step. [select] takes any case that is ready. The functions that may ask
    for the write lock of the cache run when nobody holds its read lock, which
    at the end of a scan is so unless the scan has panicked. With a read lock
    left behind, a scan still panics as before; a function that comes to ask for
    the write lock, or for the read lock behind a waiting writer, is stuck,
    whatever it did outside of the cache before; one that asks for neither goes
    on. The options have a lock of their own. A panic in a goroutine started by
    a handshake ends the program. *)
Inductive life_step l : Life St E N → Prop :=
| L_renewal p :
    l_loop l = Running p → l_readers l = 0%nat ∨ is_Ok (first_scan l) = false →
    life_step l (renewal_tick p l)
| L_ocsp p :
    l_loop l = Running p → l_readers l = 0%nat → life_step l (ocsp_tick p l)
| L_held p r ts s :
    l_loop l = Running p → l_readers l ≠ 0%nat → m_cache (r_m r) = l_cache l →
    r_tasks r = (r_tasks (l_r l) ++ ts)%list → Forall (task_ok names_of) ts →
    s = Running p ∨ s = Stuck →
    life_step l (at_loop l r (l_readers l) s)
| L_stop_seen p :
    l_loop l = Running p → l_stopChan l = true → life_step l (stop_seen l)
| L_Stop :
    l_stopChan l = false → life_step l (Stop l)
| L_job t :
    l_readers l = 0%nat → t ∈ r_tasks (l_r l) →
    life_step l (with_m l (snd (run_task t (l_m l))))
| L_handshake fuel wait cfg hello lw ow :
    l_readers l = 0%nat → client_ok cfg hello wait →
    life_step l (with_h l (snd (handshake fuel ari_NeedsRefresh wait cfg hello (hs_state l lw ow))))
| L_background fuel wait cfg hello lw ow j res h :
    l_readers l = 0%nat → client_ok cfg hello wait → j ∈ l_jobs l →
    background wait cfg hello (hs_rec fuel ari_NeedsRefresh wait cfg hello) j (hs_state l lw ow) = (res, h) →
    panicked res = false → life_step l (with_h l h)
| L_manage cfg ds async :
    l_readers l = 0%nat → life_step l (with_r l (snd (manageAll cfg ds async (l_r l))))
| L_method c :
    l_readers l = 0%nat → method_step names_of (l_cache l) c →
    life_step l (with_m l (MkM (m_world (l_m l)) (m_net (l_m l)) c))
| L_SetOptions opts :
    life_step l (with_m l (MkM (m_world (l_m l)) (m_net (l_m l)) (SetOptions opts (l_cache l))))
| L_outside w n :
    life_step l (with_m l (MkM w n (l_cache l))).

(** A new cache with its goroutine. *)
Definition started l : Prop :=
  (∃ opts, NewCache opts = Some (l_cache l)) ∧ r_tasks (l_r l) = [] ∧ l_jobs l = [] ∧
  l_readers l = 0%nat ∧ l_loop l = Running 0 ∧ l_stopChan l = false ∧ l_doneChan l = false.

(** The goroutine is lost: it will not close [doneChan] any more. *)
Definition lost l : Prop := (l_loop l = Stuck ∨ l_loop l = Ended) ∧ l_doneChan l = false.

(** What holds of the goroutine. *)
Record loop_ok l : Prop := {
  ok_done : l_doneChan l = true → l_loop l = Ended ∧ l_stopChan l = true;
  ok_panics : ∀ p, l_loop l = Running p → (l_readers l ≤ p ≤ 10)%nat;
  ok_stuck : l_loop l = Stuck → l_readers l ≠ 0%nat
}.

(** The cache has come about by its own steps, and the jobs are for
    certificates of its kind. *)
Record cache_ok l0 l : Prop := {
  ok_history : ∃ s, rtc (cache_step names_of) (new_history (l_cache l0)) s ∧ now_cache s = l_cache l;
  ok_tasks : Forall (task_ok names_of) (r_tasks (l_r l));
  ok_jobs : Forall (job_ok names_of) (l_jobs l)
}.

Hypothesis Hmk : make_consistent (E := E) names_of.
Hypothesis Hev : evictions_valid (E := E).
Hypothesis Hord : orders_valid (E := E).

Lemma first_scan_panics l e :
  first_scan l = Err e → RenewManagedCertificates configFor (l_r l) = (Err e, l_r l).
Proof. unfold first_scan, RenewManagedCertificates. by intros ->. Qed.

(** The shape of a renewal tick: the pass, a number of readers and a place. *)
Lemma renewal_tick_cases l p :
  indexed names_of (l_cache l) →
  ∃ r n s, renewal_tick p l = at_loop l r n s ∧ cache_runs names_of (l_m l) (r_m r) ∧
    (Forall (task_ok names_of) (r_tasks (l_r l)) → Forall (task_ok names_of) (r_tasks r)) ∧
    ((s = Running p ∧ n = l_readers l) ∨
     (s = recovered p ∧ (l_readers l ≤ n ≤ S (l_readers l))%nat)).
Proof using Hmk Hev Hord.
  intros Hre. unfold renewal_tick. destruct (first_scan l) as [q|e].
  - destruct (RenewManagedCertificates configFor (l_r l)) as [res r] eqn:Hrun.
    pose proof (RenewManagedCertificates_phases _ _ _ _ _ Hmk Hev Hord Hre Hrun) as (Hr & Ht & _).
    destruct res; eexists r, _, _; (split; [done|]); split; auto; split; auto.
  - eexists _, _, _. split; [done|]. split; [apply cache_runs_refl|]. split; [done|]. right. split; [done|lia].
Qed.

Lemma recovered_ok p n q : (n ≤ p)%nat → recovered p = Running q → (S n ≤ q ≤ 10)%nat.
Proof. unfold recovered. destruct (p <? 10)%nat eqn:Hlt; intros ? [= <-]. apply Nat.ltb_lt in Hlt. lia. Qed.
Lemma recovered_not_stuck p : recovered p ≠ Stuck.
Proof. unfold recovered. by destruct (_ <? _)%nat. Qed.

Lemma loop_ok_with l r n s :
  loop_ok l → (∃ p, l_loop l = Running p) → (l_readers l ≤ n)%nat →
  (∀ q, s = Running q → (n ≤ q ≤ 10)%nat) → (s = Stuck → n ≠ 0%nat) → loop_ok (at_loop l r n s).
Proof.
  intros [Hd _ _] [p Hp] _ Hq Hs. constructor; simpl; [|exact Hq|exact Hs].
  intros [H _]%Hd. congruence.
Qed.

Lemma loop_ok_other l r js : loop_ok l → loop_ok (MkLife r (l_readers l) (l_loop l) (l_stopChan l) (l_doneChan l) js).
Proof. by intros []. Qed.

Lemma loop_ok_step l l' : indexed names_of (l_cache l) → loop_ok l → life_step l l' → loop_ok l'.
Proof using Hmk Hev Hord.
  intros Hre Hok Hst. pose proof Hok as [Hdn Hp Hstk].
  destruct Hst; try (by apply loop_ok_other).
  - destruct (renewal_tick_cases l p Hre) as (r & n & s & -> & _ & _ & Hs). specialize (Hp p H).
    destruct Hs as [[-> ->]|[-> Hn]]; apply loop_ok_with; eauto; try lia; try done.
    + by intros q [= <-].
    + intros q Hq. assert (S (l_readers l) ≤ q ≤ 10)%nat by (eapply recovered_ok; [|done]; lia). lia.
    + by intros ?%recovered_not_stuck.
  - unfold ocsp_tick. destruct (updateOCSPStaples configFor (l_m l)) as [res m']. specialize (Hp p H).
    apply loop_ok_with; eauto; destruct res; try done.
    + by intros q [= <-].
    + intros q Hq. assert (S (l_readers l) ≤ q ≤ 10)%nat by (eapply recovered_ok; [|done]; lia). lia.
    + by intros ?%recovered_not_stuck.
  - apply loop_ok_with; eauto; try done. intros q. destruct H4 as [->| ->]; [intros [= <-]; auto|done].
  - by constructor.
  - constructor; simpl; auto. intros [Hd _]%Hdn. by split.
Qed.

Lemma hs_step_ok l fuel wait cfg hello lw ow :
  indexed names_of (l_cache l) → client_ok cfg hello wait →
  evolves names_of (l_cache l) (h_cache (snd (handshake fuel ari_NeedsRefresh wait cfg hello (hs_state l lw ow)))) ∧
  Forall (job_ok names_of) (h_jobs (snd (handshake fuel ari_NeedsRefresh wait cfg hello (hs_state l lw ow)))).
Proof using Hmk Hev Hord.
  intros Hi [Hw Hsel]. destruct (handshake _ _ _ _ _ (hs_state l lw ow)) as [res h] eqn:E1.
  destruct (handshake_keeps names_of wait cfg hello Hmk Hev Hw Hsel Hord fuel (hs_state l lw ow) res h Hi E1) as [H1 H2].
  split; [exact H1|]. by apply H2.
Qed.

(** Every step of the program is a sequence of steps of the cache. *)
Lemma cache_ok_step l l' :
  indexed names_of (l_cache l) → Forall (task_ok names_of) (r_tasks (l_r l)) → Forall (job_ok names_of) (l_jobs l) →
  life_step l l' →
  evolves names_of (l_cache l) (l_cache l') ∧
  Forall (task_ok names_of) (r_tasks (l_r l')) ∧ Forall (job_ok names_of) (l_jobs l').
Proof using Hmk Hev Hord.
  intros Hi Ht Hj Hst. destruct Hst.
  - destruct (renewal_tick_cases l p Hi) as (r & n & s & -> & Hr & Hts & _). simpl.
    split; [by apply evolves_methods|auto].
  - unfold ocsp_tick. destruct (updateOCSPStaples configFor (l_m l)) as [res m'] eqn:Hrun. simpl.
    destruct (updateOCSPStaples_refines _ _ _ _ _ Hmk Hev Hord Hi Hrun) as [Hr _].
    split; [by apply evolves_methods|done].
  - simpl. rewrite H1, H2. split; [apply evolves_refl|]. split; [by apply Forall_app|done].
  - split; [apply evolves_refl|done].
  - split; [apply evolves_refl|done].
  - simpl. destruct (run_task t (l_m l)) as [res m'] eqn:Hrun. simpl. split; [|done].
    rewrite Forall_forall in Ht.
    destruct (run_task_refines names_of Hmk Hev t (l_m l) res m' (Ht _ H0) Hi Hrun) as [Hr _]. by apply evolves_methods.
  - destruct (hs_step_ok l fuel wait cfg hello lw ow Hi H0) as [H1 H2]. simpl. split; [exact H1|].
    split; [done|]. by apply Forall_app.
  - destruct H0 as [Hw Hsel]. rewrite Forall_forall in Hj.
    destruct (background_keeps names_of wait cfg hello Hmk Hev Hw (hs_rec fuel ari_NeedsRefresh wait cfg hello)
      (hs_rec_keeps names_of wait cfg hello Hmk Hev Hw Hsel Hord fuel) j (Hj _ H1) (hs_state l lw ow) res h Hi H2) as [H4 H5].
    simpl. split; [exact H4|]. split; [done|]. apply Forall_app. split; [by apply Forall_forall|by apply H5].
  - destruct (manageAll cfg ds async (l_r l)) as [res r'] eqn:Hrun. simpl.
    destruct (manageAll_runs names_of Hmk Hev _ _ _ _ _ _ Hi Hrun) as [Hr Hts]. split; [by apply evolves_methods|auto].
  - simpl. split; [by apply evolves_method|done].
  - simpl. split; [apply evolves_SetOptions|done].
  - simpl. split; [apply evolves_refl|done].
Qed.

Lemma cache_ok_indexed l0 l : (∃ opts, NewCache opts = Some (l_cache l0)) → cache_ok l0 l →
  ∃ s, rtc (cache_step names_of) (new_history (l_cache l0)) s ∧ now_cache s = l_cache l ∧
    index_inv names_of (orphans s) (l_cache l) ∧ bounded_by (limit s) (l_cache l).
Proof.
  intros [opts Ho] [(s & Hr & Hs) _ _]. exists s. split; [done|]. split; [done|].
  rewrite <-Hs. by eapply history_reachable_ok.
Qed.

Lemma life_ok_step l0 l1 l2 :
  (∃ opts, NewCache opts = Some (l_cache l0)) →
  loop_ok l1 ∧ cache_ok l0 l1 → life_step l1 l2 → loop_ok l2 ∧ cache_ok l0 l2.
Proof using Hmk Hev Hord.
  intros Ho [H1 H2] Hst. destruct (cache_ok_indexed l0 l1 Ho H2) as (s & Hr & Hs & Hi & _).
  assert (indexed names_of (l_cache l1)) as Hi1 by (by exists (orphans s)).
  split; [by eapply loop_ok_step|]. destruct H2 as [_ Ht Hj].
  destruct (cache_ok_step _ _ Hi1 Ht Hj Hst) as (He & Ht' & Hj'). split; [|done..].
  destruct (He s Hs) as (s' & Hr' & Hs'). exists s'. split; [by etrans|done].
Qed.

Lemma life_reachable l0 l : started l0 → rtc life_step l0 l → loop_ok l ∧ cache_ok l0 l.
Proof using Hmk Hev Hord.
  intros (Ho & Ht & Hj & Hn & Hl & Hs & Hd) Hrun.
  assert (loop_ok l0 ∧ cache_ok l0 l0) as H0.
  { split; constructor; rewrite ?Hl, ?Hd, ?Ht, ?Hj; try done; [intros p [= <-]; lia|].
    exists (new_history (l_cache l0)). split; [apply rtc_refl|done]. }
  clear Ht Hj Hn Hl Hs Hd. refine (rtc_ind_r (R := life_step) (λ l, loop_ok l ∧ cache_ok l0 l) l0 H0 _ l Hrun).
  intros l1 l2 _ Hst H1. by eapply life_ok_step.
Qed.

(** (C29) Whatever the order of ticks, jobs, handshakes, the goroutines these
    start, calls of [ManageSync], [ManageAsync], [Stop] and of the methods of
    the cache: what they do to the cache is a sequence of the cache's own steps,
    so that its index is right but for the certificates that a handshake wrote
    back after they had left, and its size is bounded; [doneChan] is closed only
    by a goroutine that has seen [stopChan] closed and is gone; no call of
    [maintainAssets] has a count above ten, the count bounds the read locks left
    behind, and the goroutine waits for ever for the write lock only if there is
    one. *)
Theorem maintenance_safe l0 l :
  started l0 → rtc life_step l0 l →
  (∃ s, rtc (cache_step names_of) (new_history (l_cache l0)) s ∧ now_cache s = l_cache l ∧
     index_inv names_of (orphans s) (l_cache l) ∧ bounded_by (limit s) (l_cache l)) ∧
  (l_doneChan l = true → l_loop l = Ended ∧ l_stopChan l = true) ∧
  (∀ p, l_loop l = Running p → (l_readers l ≤ p ≤ 10)%nat) ∧
  (l_loop l = Stuck → l_readers l ≠ 0%nat).
Proof using Hmk Hev Hord.
  intros H0 Hrun. destruct (life_reachable l0 l H0 Hrun) as [[H1 H2 H3] Hc].
  split; [|done]. apply cache_ok_indexed; [apply H0|done].
Qed.

(** As long as no pass panics [Stop] works: while the goroutine is in its
    loop and no read lock was left behind, its next step that the goroutine
    makes either leaves it there, or is a panic, or ends it with [doneChan]
    closed; and once [Stop] has closed [stopChan] that last step is open to
    it. *)
Theorem Stop_returns l p :
  l_loop l = Running p → l_readers l = 0%nat →
  (l_stopChan l = true →
   ∃ l', life_step l l' ∧ l_doneChan l' = true ∧ l_cache l' = l_cache l) ∧
  (∀ l', life_step l l' →
     l_loop l' = Running p ∨ (l_loop l' = Ended ∧ l_doneChan l' = true) ∨
     (l_loop l' = recovered p ∧
      (is_Ok (fst (RenewManagedCertificates configFor (l_r l))) = false ∨
       is_Ok (fst (updateOCSPStaples configFor (l_m l))) = false))).
Proof.
  intros Hl Hn. split.
  { intros Hs. exists (stop_seen l). split; [by eapply L_stop_seen|done]. }
  intros l' Hst. destruct Hst; auto; try congruence.
  - assert (p0 = p) as -> by congruence. unfold renewal_tick. destruct (first_scan l) as [x|e] eqn:Es.
    + destruct (RenewManagedCertificates configFor (l_r l)) as [[u|e] r]; [by left|]. right; right. auto.
    + apply first_scan_panics in Es. rewrite Es. right; right. auto.
  - assert (p0 = p) as -> by congruence. unfold ocsp_tick.
    destruct (updateOCSPStaples configFor (l_m l)) as [[u|e] m']; [by left|]. right; right. auto.
Qed.

(** The maps of the cache. *)
Definition maps l : gmap string Certificate * gmap string (list string) :=
  (cache (l_cache l), cacheIndex (l_cache l)).

Lemma held_step l l' :
  l_readers l ≠ 0%nat → life_step l l' → maps l' = maps l ∧ l_readers l' ≠ 0%nat.
Proof.
  intros Hn Hst. destruct Hst; try done.
  - destruct H0 as [?|Hf]; [done|]. unfold renewal_tick. by destruct (first_scan l).
  - unfold maps. simpl. by rewrite H1.
Qed.

Lemma lost_step l l' : lost l → life_step l l' → lost l'.
Proof.
  intros [Hl Hd] Hst. destruct Hst; try done; destruct Hl; congruence.
Qed.

(** (C39) A panic of the scan is not survived, in spite of the recovery: when the
    scan panics, the read lock that it holds is not released, so that whatever
    happens from then on no goroutine adds, replaces, updates or removes a
    certificate of the cache; and when it was the eleventh panic [doneChan] is
    never closed, so that [Stop] does not return. *)
Theorem scan_panic_freezes l p e l' :
  l_loop l = Running p → first_scan l = Err e → rtc life_step (renewal_tick p l) l' →
  maps l' = maps l ∧ (p = 10%nat → l_doneChan l = false → l_doneChan l' = false).
Proof.
  intros Hl Hs Hrun. assert (renewal_tick p l = at_loop l (l_r l) (S (l_readers l)) (recovered p)) as E1
    by (unfold renewal_tick; by rewrite Hs).
  rewrite E1 in Hrun. set (l1 := at_loop l _ _ _) in *.
  assert (maps l' = maps l1 ∧ l_readers l' ≠ 0%nat) as [Hm _].
  { refine (rtc_ind_r (R := life_step) (λ x, maps x = maps l1 ∧ l_readers x ≠ 0%nat) l1 _ _ l' Hrun); [done|].
    intros x y _ Hst [Hx Hn]. destruct (held_step _ _ Hn Hst) as [Hy ?]. split; [congruence|done]. }
  split; [by rewrite Hm|]. intros -> Hd. assert (lost l1) as Hlost by (split; [by right|done]).
  refine (proj2 (rtc_ind_r (R := life_step) lost l1 Hlost _ l' Hrun)). intros x y _ Hst Hx. by eapply lost_step.
Qed.
End lifecycle.

(** ** Concrete runs *)

Section lifecycle_runs.
Import SimTLS SimACME.

Definition life_of (c : Cache) (loop : goroutine) : Life MemStorage.t SimExternal.t SimNet.t :=
  MkLife (MkR (MkM (m_world ex_m) (m_net ex_m) c) (JobManager.MkManager 2 0 [] ∅) []) 0 loop false false [].
Definition ex_started := life_of cache0 (Running 0).

(** A tick, a name under management, a handshake for it, and [Stop]. *)
Definition ex_ticked := renewal_tick ex_configFor 0 ex_started.
Definition ex_managing := with_r ex_ticked (snd (manageAll ex_cfg ["a.com"] false (l_r ex_ticked))).
Definition od_cfg : Config := with_OnDemand (Some allow_all) ex_cfg.
Definition ex_served :=
  with_h ex_managing (snd (handshake 5 ari_NeedsRefresh ex_wait od_cfg (ex_hello "a.com") (hs_state ex_managing ∅ ∅))).
Definition ex_stopping := Stop ex_served.

Lemma ex_client_ok : client_ok names od_cfg (ex_hello "a.com") ex_wait.
Proof.
  split; [|discriminate]. intros k n h r h' Hw. destruct k; simpl in Hw; injection Hw as _ <-.
  - apply hs_refl.
  - apply hs_set_obtain.
Qed.

Lemma ex_life_run : rtc (life_step names ex_configFor) ex_started ex_stopping.
Proof.
  eapply rtc_l; [exact (L_renewal names ex_configFor ex_started 0 eq_refl (or_introl eq_refl))|].
  eapply rtc_l; [exact (L_manage names ex_configFor ex_ticked ex_cfg ["a.com"] false ltac:(vm_compute; reflexivity))|].
  eapply rtc_l; [exact (L_handshake names ex_configFor ex_managing 5 ex_wait od_cfg (ex_hello "a.com") ∅ ∅
    ltac:(vm_compute; reflexivity) ex_client_ok)|].
  apply rtc_once. exact (L_Stop names ex_configFor ex_served ltac:(vm_compute; reflexivity)).
Qed.
Lemma ex_stopped : rtc (life_step names ex_configFor) ex_started (stop_seen ex_stopping).
Proof.
  eapply rtc_r; [exact ex_life_run|]. apply (L_stop_seen names ex_configFor ex_stopping 0); vm_compute; reflexivity.
Qed.

Lemma ex_is_started : started ex_started.
Proof. split; [by exists ex_options|done]. Qed.

Lemma maintenance_safe_witness :
  l_doneChan (stop_seen ex_stopping) = true ∧
  size (cache (m_cache (r_m (l_r (stop_seen ex_stopping))))) = 1%nat ∧
  ∃ s, rtc (cache_step names) (new_history cache0) s ∧ now_cache s = m_cache (r_m (l_r (stop_seen ex_stopping))) ∧
    index_inv names (orphans s) (m_cache (r_m (l_r (stop_seen ex_stopping)))) ∧
    bounded_by (limit s) (m_cache (r_m (l_r (stop_seen ex_stopping)))).
Proof.
  split; [reflexivity|]. split; [vm_compute; reflexivity|].
  exact (proj1 (maintenance_safe names ex_configFor sim_make_consistent sim_evictions_valid sim_orders_valid
    ex_started (stop_seen ex_stopping) ex_is_started ex_stopped)).
Defined.

Lemma Stop_returns_witness :
  ∃ l', life_step names ex_configFor ex_stopping l' ∧ l_doneChan l' = true ∧
    m_cache (r_m (l_r l')) = m_cache (r_m (l_r ex_stopping)).
Proof.
  apply (Stop_returns names ex_configFor ex_stopping 0); vm_compute; reflexivity.
Defined.

(** A certificate whose renewal information has a window without a second in
    it and no selected time: every scan panics. *)
Definition empty_window : RenewalInfo :=
  MkRenewalInfo (85 * 24 * Hour) (85 * 24 * Hour) 0 (Some (100 * 24 * Hour)%Z) "id".
Definition ex_cursed : Life MemStorage.t SimExternal.t SimNet.t :=
  life_of (cacheCertificate [] 0 (with_ari empty_window ex_managed) cache0) (Running 0).
Definition ticks (n : nat) : Life MemStorage.t SimExternal.t SimNet.t :=
  Nat.iter n (λ l, match l_loop l with Running p => renewal_tick ex_configFor p l | _ => l end) ex_cursed.

Lemma tick_step n :
  (n < 11)%nat → life_step names ex_configFor (ticks n) (ticks (S n)).
Proof.
  intros Hn. assert (∃ p, l_loop (ticks n) = Running p ∧ is_Ok (first_scan ex_configFor (ticks n)) = false)
    as (p & Hp & Hs) by (do 11 (destruct n as [|n]; [eexists; vm_compute; split; reflexivity|]); lia).
  assert (ticks (S n) = match l_loop (ticks n) with
                        | Running p => renewal_tick ex_configFor p (ticks n) | _ => ticks n end) as -> by reflexivity.
  rewrite Hp. by apply L_renewal; [|right].
Qed.
Lemma ticks_run n : (n < 11)%nat → rtc (life_step names ex_configFor) (ticks 1) (ticks (S n)).
Proof.
  induction n as [|n IH]; intros Hn; [apply rtc_refl|].
  eapply rtc_r; [apply IH; lia|]. by apply tick_step.
Qed.

(** Eleven ticks end the goroutine with eleven read locks left behind. *)
Example eleven_panics : lost (ticks 11) ∧ l_readers (ticks 11) = 11%nat.
Proof. split; [split; [right|]|]; vm_compute; reflexivity. Qed.

Lemma ticks_next n p : l_loop (ticks n) = Running p → ticks (S n) = renewal_tick ex_configFor p (ticks n).
Proof.
  intros Hp. assert (ticks (S n) = match l_loop (ticks n) with
    | Running p => renewal_tick ex_configFor p (ticks n) | _ => ticks n end) as -> by reflexivity. by rewrite Hp.
Qed.
Lemma ticks_0 : l_loop (ticks 0) = Running 0 ∧ first_scan ex_configFor (ticks 0) = Err panic_Int63n.
Proof. split; vm_compute; reflexivity. Qed.
Lemma ticks_10 :
  l_loop (ticks 10) = Running 10 ∧ first_scan ex_configFor (ticks 10) = Err panic_Int63n ∧
  l_doneChan (ticks 10) = false.
Proof. split; [|split]; vm_compute; reflexivity. Qed.
Lemma ex_run_0 : rtc (life_step names ex_configFor) (renewal_tick ex_configFor 0 (ticks 0)) (ticks 11).
Proof. rewrite <-(ticks_next 0 0 (proj1 ticks_0)). apply (ticks_run 10). lia. Qed.
Lemma ex_run_10 : rtc (life_step names ex_configFor) (renewal_tick ex_configFor 10 (ticks 10)) (Stop (ticks 11)).
Proof.
  rewrite <-(ticks_next 10 10 (proj1 ticks_10)). apply rtc_once, L_Stop. vm_compute. reflexivity.
Qed.

Lemma scan_panic_freezes_witness :
  maps (ticks 11) = maps (ticks 0) ∧ l_doneChan (Stop (ticks 11)) = false.
Proof.
  split.
  - exact (proj1 (scan_panic_freezes names ex_configFor (ticks 0) 0 panic_Int63n (ticks 11)
      (proj1 ticks_0) (proj2 ticks_0) ex_run_0)).
  - exact (proj2 (scan_panic_freezes names ex_configFor (ticks 10) 10 panic_Int63n (Stop (ticks 11))
      (proj1 ticks_10) (proj1 (proj2 ticks_10)) ex_run_10) eq_refl (proj2 (proj2 ticks_10))).
Defined.
End lifecycle_runs.
