(* ===== verification/Toplevel.v ===== *)
(** * Making configurations and serving with them (config.go, certmagic.go)

    [newWithCache] fills the unset fields of a configuration from the package
    variable [Default]; [NewDefault] does so for [Default] itself, with the
    default cache. The convenience functions [HTTPS], [TLS], [Listen],
    [ManageSync] and [ManageAsync] change [DefaultACME], take such a
    configuration and manage the names with it. [HTTPS] serves on a pair of
    listeners that all its calls share. *)

From Stdlib Require Import Ascii.
From S2P Require Import Prelude GoStrings Certificates Cache Async Storage Crypto OCSP Config.
From S2P Require Import Manage Handshake Maintain ManageAll Solvers Challenges Account AcmeClient AcmeIssuer.
Open Scope string_scope.

(** ** Configurations before they are valid *)

(** A value of an interface or function type is a handle; [None] is nil. *)
Abbreviation Handle := nat (only parsing).

Inductive AnIssuer :=
| IsACME (am : ACMEIssuer)       (* a *ACMEIssuer *)
| IsOther (i : Issuer).

Record Template := MkTemplate {
  t_RenewalWindowRatio : float64;
  t_OnEvent : option Handle;
  t_DefaultServerName : string;
  t_FallbackServerName : string;
  t_OnDemand : option OnDemandConfig;
  t_MustStaple : bool;
  t_Issuers : option (list AnIssuer);
  t_IssuerPolicy : IssuerPolicy;
  t_ReusePrivateKeys : bool;
  t_KeySource : option Handle;
  t_CertSelection : option (ClientHelloInfo → list Certificate → result Certificate);
  t_OCSP : OCSPConfig;
  t_Storage : option Handle;
  t_DisableStorageCheck : bool;
  t_SubjectTransformer : option (string → string);
  t_DisableARI : bool;
  t_Logger : option Handle;
  t_certCache : option Handle
}.

Definition defaultFileStorage : Handle := 0%nat.
Definition defaultLogger : Handle := 0%nat.
Definition DefaultKeyGenerator : Handle := 0%nat.

(** The initial value of [Default]. *)
Definition Default : Template :=
  MkTemplate DefaultRenewalWindowRatio None "" "" None false None UseFirstIssuer false
    (Some DefaultKeyGenerator) None (MkOCSPConfig false ∅) (Some defaultFileStorage) false None false
    (Some defaultLogger) None.

Definition or_nil {A} (t d : option A) : option A := match t with Some _ => t | None => d end.

(** [cfg.Issuers], where an issuer of the package is made when there is none. *)
Definition default_issuers (Default : Template) (DefaultACME : ACMEIssuer) (cfg : Template) : list AnIssuer :=
  match or_nil (t_Issuers cfg) (t_Issuers Default) with
  | Some issuers => issuers
  | None => [IsACME (NewACMEIssuer (t_DisableARI cfg) DefaultACME DefaultACME)]
  end.

Definition newWithCache (Default : Template) (DefaultACME : ACMEIssuer) (certCache : option Handle)
    (cfg : Template) : result Template :=
  match certCache with
  | None => Err (Panic "cannot make a valid config without a pointer to a certificate cache")
  | Some _ =>
      Ok (MkTemplate
        (if float64_eqb (t_RenewalWindowRatio cfg) (float64_of_Z 0)
         then t_RenewalWindowRatio Default else t_RenewalWindowRatio cfg)
        (or_nil (t_OnEvent cfg) (t_OnEvent Default))
        (str_or (t_DefaultServerName cfg) (t_DefaultServerName Default))
        (str_or (t_FallbackServerName cfg) (t_FallbackServerName Default))
        (or_nil (t_OnDemand cfg) (t_OnDemand Default))
        (bool_or (t_MustStaple cfg) (t_MustStaple Default))
        (Some (default_issuers Default DefaultACME cfg))
        (t_IssuerPolicy cfg) (t_ReusePrivateKeys cfg)
        (or_nil (t_KeySource cfg) (t_KeySource Default))
        (t_CertSelection cfg) (t_OCSP cfg)
        (or_nil (or_nil (t_Storage cfg) (t_Storage Default)) (Some defaultFileStorage))
        (t_DisableStorageCheck cfg) (t_SubjectTransformer cfg) (t_DisableARI cfg)
        (or_nil (or_nil (t_Logger cfg) (t_Logger Default)) (Some defaultLogger))
        certCache)
  end.

(** [opts] are the options of the cache, when there is one. *)
Definition New (Default : Template) (DefaultACME : ACMEIssuer) (certCache : option (Handle * CacheOptions))
    (cfg : Template) : result Template :=
  match certCache with
  | None => Err (Panic "a certificate cache is required")
  | Some (c, opts) =>
      if negb (HasGetConfigForCert opts)
      then Err (Panic "cache must have GetConfigForCert set in its options")
      else newWithCache Default DefaultACME (Some c) cfg
  end.

(** A configuration as the methods of [Config] see it; the key of an ACME issuer
    depends on how URLs are parsed. *)
Definition issuer_of {CA : Type} `{!ACMENet CA} (i : AnIssuer) : Issuer :=
  match i with
  | IsACME am => MkIssuer (IssuerKey am) true true (Some (am_CA am))
  | IsOther i => i
  end.

Definition config_of {CA : Type} `{!ACMENet CA} (opts : CacheOptions) (t : Template) : Config :=
  MkConfig (MkRenewalConfig (t_DisableARI t) (t_RenewalWindowRatio t) (opt_RenewCheckInterval opts))
    (match t_OnEvent t with Some _ => true | None => false end)
    (t_DefaultServerName t) (t_FallbackServerName t) (t_OnDemand t) (t_MustStaple t)
    (match t_Issuers t with Some l => issuer_of <$> l | None => [] end)
    (t_IssuerPolicy t) (t_ReusePrivateKeys t) (t_CertSelection t) (t_OCSP t)
    (t_DisableStorageCheck t) (t_SubjectTransformer t).

(** What the methods of [Config] need: the fields that they call without looking
    whether they are nil are set. *)
Definition valid (t : Template) : Prop :=
  is_Some (t_Issuers t) ∧ is_Some (t_Storage t) ∧ is_Some (t_Logger t) ∧ is_Some (t_certCache t) ∧
  is_Some (t_KeySource t).

Lemma or_nil_idem {A} (t d : option A) : or_nil (or_nil t d) d = or_nil t d.
Proof. by destruct t, d. Qed.
Lemma or_nil_Some {A} (t : option A) d : is_Some (or_nil t (Some d)).
Proof. destruct t; eauto. Qed.
Lemma str_or_idem t d : str_or (str_or t d) d = str_or t d.
Proof. unfold str_or, or_default. destruct (t =? "") eqn:E; [by destruct (d =? "")|by rewrite E]. Qed.
Lemma bool_or_idem t d : bool_or (bool_or t d) d = bool_or t d.
Proof. by destruct t, d. Qed.
Lemma ratio_or_idem (t d : float64) :
  let x := if float64_eqb t (float64_of_Z 0) then d else t in
  (if float64_eqb x (float64_of_Z 0) then d else x) = x.
Proof. simpl. destruct (float64_eqb t _) eqn:E; [by destruct (float64_eqb d _)|by rewrite E]. Qed.


(** The documentation of [Default] says that its fields are used where those
    of a configuration are unset; six of them are not. *)
Example Default_fields_unused :
  let def := MkTemplate DefaultRenewalWindowRatio None "" "" None false None UseFirstRandomIssuer true
    None (Some (λ _ _, Ok zeroCertificate)) (MkOCSPConfig true ∅) (Some 1%nat) true (Some id) true
    (Some 1%nat) None in
  let cfg := MkTemplate (float64_of_Z 0) None "" "" None false None UseFirstIssuer false None None
    (MkOCSPConfig false ∅) None false None false None None in
  match newWithCache def DefaultACME (Some 7%nat) cfg with
  | Ok v => t_Storage v = Some 1%nat ∧ t_ReusePrivateKeys v = false ∧ t_CertSelection v = None ∧
            t_OCSP v = MkOCSPConfig false ∅ ∧ t_SubjectTransformer v = None ∧ t_DisableARI v = false ∧
            t_IssuerPolicy v = UseFirstIssuer ∧ t_DisableStorageCheck v = false
  | Err _ => False
  end.
Proof. by vm_compute. Qed.

(** ** The convenience functions *)

Definition set_am_DisableHTTPChallenge (b : bool) (am : ACMEIssuer) : ACMEIssuer :=
  MkACMEIssuer (am_CA am) (am_TestCA am) (am_Email am) (am_AccountKeyPEM am) (am_Agreed am)
    (am_ExternalAccount am) (am_Profile am) (am_NotBefore am) (am_NotAfter am)
    b (am_DisableTLSALPNChallenge am) (am_ListenHost am)
    (am_AltHTTPPort am) (am_AltTLSALPNPort am) (am_DNS01Solver am) (am_CertObtainTimeout am)
    (am_Resolver am) (am_NewAccountFunc am) (am_PreferredChains am) (am_DisableARI am)
    (am_email am) (am_agreed am).

Definition with_t_OnDemand (od : option OnDemandConfig) (t : Template) : Template :=
  MkTemplate (t_RenewalWindowRatio t) (t_OnEvent t) (t_DefaultServerName t) (t_FallbackServerName t) od
    (t_MustStaple t) (t_Issuers t) (t_IssuerPolicy t) (t_ReusePrivateKeys t) (t_KeySource t)
    (t_CertSelection t) (t_OCSP t) (t_Storage t) (t_DisableStorageCheck t) (t_SubjectTransformer t)
    (t_DisableARI t) (t_Logger t) (t_certCache t).

(** [tls.Config], as far as it is set. *)
Record tlsConfig := MkTLSConfig {
  tc_GetCertificate : Config;          (* the method of this configuration *)
  tc_NextProtos : list string;
  tc_MinVersion : Z;
  tc_CurvePreferences : list Z;
  tc_CipherSuites : list Z;
  tc_PreferServerCipherSuites : bool
}.

Definition TLS_ECDHE_ECDSA_WITH_AES_256_GCM_SHA384 : Z := 0xc02c%Z.
Definition TLS_ECDHE_RSA_WITH_AES_256_GCM_SHA384 : Z := 0xc030%Z.
Definition TLS_ECDHE_ECDSA_WITH_AES_128_GCM_SHA256 : Z := 0xc02b%Z.
Definition TLS_ECDHE_RSA_WITH_AES_128_GCM_SHA256 : Z := 0xc02f%Z.
Definition TLS_ECDHE_ECDSA_WITH_CHACHA20_POLY1305 : Z := 0xcca9%Z.
Definition TLS_ECDHE_RSA_WITH_CHACHA20_POLY1305 : Z := 0xcca8%Z.

Definition defaultCiphersPreferAES : list Z :=
  [TLS_ECDHE_ECDSA_WITH_AES_256_GCM_SHA384; TLS_ECDHE_RSA_WITH_AES_256_GCM_SHA384;
   TLS_ECDHE_ECDSA_WITH_AES_128_GCM_SHA256; TLS_ECDHE_RSA_WITH_AES_128_GCM_SHA256;
   TLS_ECDHE_ECDSA_WITH_CHACHA20_POLY1305; TLS_ECDHE_RSA_WITH_CHACHA20_POLY1305].
Definition defaultCiphersPreferChaCha : list Z :=
  [TLS_ECDHE_ECDSA_WITH_CHACHA20_POLY1305; TLS_ECDHE_RSA_WITH_CHACHA20_POLY1305;
   TLS_ECDHE_ECDSA_WITH_AES_256_GCM_SHA384; TLS_ECDHE_RSA_WITH_AES_256_GCM_SHA384;
   TLS_ECDHE_ECDSA_WITH_AES_128_GCM_SHA256; TLS_ECDHE_RSA_WITH_AES_128_GCM_SHA256].

(** [AESNI]: the processor supports the instructions. *)
Definition preferredDefaultCipherSuites (AESNI : bool) : list Z :=
  if AESNI then defaultCiphersPreferAES else defaultCiphersPreferChaCha.

(** The constants are [tls.VersionTLS12], [tls.X25519] and [tls.CurveP256]. *)
Definition TLSConfig (AESNI : bool) (cfg : Config) : tlsConfig :=
  MkTLSConfig cfg [ACMETLS1Protocol] 0x0303%Z [29%Z; 23%Z] (preferredDefaultCipherSuites AESNI) true.

Section toplevel.
Context {St E N : Type} `{C : !Codec} `{!Storage St} `{X : !External St E}
  `{!OCSPNet N} `{TL : !TLSLib E} `{AL : !ACMELib St E} {CA : Type} `{CN : !ACMENet CA}.

(** The package variables; the content of the default cache is the cache of
    [g_r], once there is one. *)
Record Globals := MkGlobals {
  g_Default : Template;
  g_DefaultACME : ACMEIssuer;
  g_defaultCache : option Handle;
  g_r : RState St E N
}.
Implicit Types g : Globals.

Definition with_cache (c : Cache) (r : RState St E N) : RState St E N :=
  MkR (MkM (m_world (r_m r)) (m_net (r_m r)) c) (r_jm r) (r_tasks r).
Definition with_DefaultACME (am : ACMEIssuer) g : Globals :=
  MkGlobals (g_Default g) am (g_defaultCache g) (g_r g).

(** The options of the default cache: all but the callback are zero. *)
Definition default_cache_options : CacheOptions := MkCacheOptions true 0 0 0.

Definition theDefaultCache : Handle := 0%nat.

(** The first call makes the cache. *)
Definition ensure_defaultCache g : Globals :=
  match g_defaultCache g, NewCache default_cache_options with
  | None, Some c => MkGlobals (g_Default g) (g_DefaultACME g) (Some theDefaultCache) (with_cache c (g_r g))
  | _, _ => g
  end.

Definition NewDefault : ST Globals (result Template) := λ g,
  let g := ensure_defaultCache g in
  (newWithCache (g_Default g) (g_DefaultACME g) (g_defaultCache g) (g_Default g), g).

(** The methods of a configuration that [NewDefault] has returned. Its
    [OnDemand] is the pointer that [Default] has, so that names which go to
    the allowlist stay there. *)
Definition manage_with (t : Template) (domainNames : list string) (async : bool) :
    ST Globals (result unit) := λ g,
  let '((res, cfg), r) := manageAll (config_of (options (m_cache (r_m (g_r g)))) t) domainNames async (g_r g) in
  let def := match t_OnDemand (g_Default g) with
             | Some _ => with_t_OnDemand (OnDemand cfg) (g_Default g)
             | None => g_Default g
             end in
  (res, MkGlobals def (g_DefaultACME g) (g_defaultCache g) r).

Definition manage_default (domainNames : list string) (async : bool) : ST Globals (result unit) := λ g,
  match NewDefault g with
  | (Err e, g) => (Err e, g)
  | (Ok t, g) => manage_with t domainNames async g
  end.

Definition agree g : Globals := with_DefaultACME (set_am_Agreed true (g_DefaultACME g)) g.
Definition agree_without_http g : Globals :=
  with_DefaultACME (set_am_DisableHTTPChallenge true (set_am_Agreed true (g_DefaultACME g))) g.

Definition certmagic_ManageSync (domainNames : list string) : ST Globals (result unit) := λ g,
  manage_default domainNames false (agree g).
Definition certmagic_ManageAsync (domainNames : list string) : ST Globals (result unit) := λ g,
  manage_default domainNames true (agree g).

(** The configuration comes with the error; [TLSConfig] is called first. *)
Definition TLS (AESNI : bool) (domainNames : list string) :
    ST Globals (result (tlsConfig * result unit)) := λ g,
  match NewDefault (agree_without_http g) with
  | (Err e, g) => (Err e, g)
  | (Ok t, g) =>
      let tc := TLSConfig AESNI (config_of (options (m_cache (r_m (g_r g)))) t) in
      let '(err, g) := manage_with t domainNames false g in
      (Ok (tc, err), g)
  end.

(** [tls_Listen] is the outcome of listening. *)
Definition Listen (AESNI : bool) (tls_Listen : tlsConfig → result Handle) (domainNames : list string) :
    ST Globals (result Handle) := λ g,
  match NewDefault (agree_without_http g) with
  | (Err e, g) => (Err e, g)
  | (Ok t, g) =>
      match manage_with t domainNames false g with
      | (Err e, g) => (Err e, g)
      | (Ok _, g) => (tls_Listen (TLSConfig AESNI (config_of (options (m_cache (r_m (g_r g)))) t)), g)
      end
  end.

(** The first part of [HTTPS]: its servers use the configuration returned. The
    rest is in [Serving] and [http_handler]. *)
Definition HTTPS_manage (domainNames : list string) : ST Globals (result Template) := λ g,
  match NewDefault (agree g) with
  | (Err e, g) => (Err e, g)
  | (Ok t, g) =>
      match manage_with t domainNames false g with
      | (Err e, g) => (Err e, g)
      | (Ok _, g) => (Ok t, g)
      end
  end.

(** The TLS configuration of its listener. *)
Definition HTTPS_tlsConfig (AESNI : bool) (cfg : Config) : tlsConfig :=
  let tc := TLSConfig AESNI cfg in
  MkTLSConfig (tc_GetCertificate tc) (["h2"; "http/1.1"] ++ tc_NextProtos tc) (tc_MinVersion tc)
    (tc_CurvePreferences tc) (tc_CipherSuites tc) (tc_PreferServerCipherSuites tc).

Lemma NewDefault_Ok g :
  NewCache default_cache_options ≠ None →
  ∃ t g', NewDefault g = (Ok t, g') ∧ g_Default g' = g_Default g ∧ g_DefaultACME g' = g_DefaultACME g ∧
    t_OnDemand t = t_OnDemand (g_Default g) ∧ is_Some (g_defaultCache g') ∧
    (is_Some (g_defaultCache g) → g' = g).
Proof.
  intros Hc. unfold NewDefault, ensure_defaultCache.
  destruct (g_defaultCache g) as [h|] eqn:Hg.
  - rewrite Hg. simpl. eexists _, _. split_and!; try done. by destruct (t_OnDemand (g_Default g)).
  - destruct (NewCache _); [|done]. simpl. eexists _, _.
    split_and!; try done. by destruct (t_OnDemand (g_Default g)).
Qed.

(** The names given to the convenience functions are the allowlist of
    on-demand TLS, and stay it: with on-demand TLS in [Default] and no
    decision function, [ManageSync] only records the names, and every
    configuration that [NewDefault] returns afterwards (those of the
    maintenance goroutine too) lets exactly the recorded names that qualify
    have a certificate. *)
Theorem ManageSync_allowlist g ds od res g' :
  t_OnDemand (g_Default g) = Some od → od_DecisionFunc od = None → ds ≠ [] →
  certmagic_ManageSync ds g = (res, g') →
  res = Ok tt ∧ am_Agreed (g_DefaultACME g') = true ∧
  ∃ t, NewDefault g' = (Ok t, g') ∧
    ∀ opts name, is_Ok (checkIfCertShouldBeObtained (config_of opts t) name true) = true ↔
      SubjectQualifiesForCert name = true ∧
      (name ∈ od_hostAllowlist od ∨ ∃ d, d ∈ ds ∧ name = normalizedName d).
Proof.
  intros Hod Hdf Hne. unfold certmagic_ManageSync, manage_default.
  destruct (NewDefault_Ok (agree g)) as (t & g1 & -> & Hdef & Hacme & Hot & Hc & _); [done|].
  unfold manage_with. rewrite Hdef. simpl. rewrite Hod.
  set (cfg := config_of _ t). destruct (manageAll cfg ds false (g_r g1)) as [[res' cfg'] r'] eqn:Hrun.
  assert (OnDemand cfg = Some od) as Hcod by (simpl; by rewrite Hot).
  destruct (manageAll_on_demand cfg od ds false _ _ _ _ Hcod Hdf Hne Hrun) as (-> & -> & Hal).
  intros [= <- <-]. split; [done|]. split; [by rewrite Hacme|].
  match goal with |- context [NewDefault ?x] => set (g2 := x) end.
  destruct (NewDefault_Ok g2) as (t2 & g3 & Hg2 & _ & _ & Hot2 & _ & Heq); [done|].
  rewrite Heq in Hg2 by done. exists t2. split; [done|]. intros opts name. rewrite <-Hal.
  unfold checkIfCertShouldBeObtained. simpl. by rewrite Hot2.
Qed.
End toplevel.

(** ** Redirects *)

(** What the servers of [HTTPS] write: the answer to a challenge, a redirect,
    or what the default multiplexer of the HTTP package has for the request. *)
Inductive reply :=
| Answered (resp : Response)
| Redirected (url : string) (code : Z) (connection : string)
| DefaultServeMux (r : Request).

Definition StatusMovedPermanently : Z := 301%Z.

(** [RequestURI] is that of the request's URL. *)
Definition httpRedirectHandler (RequestURI : Request → string) (r : Request) : reply :=
  let toURL := "https://" in
  let requestHost := hostOnly (req_Host r) in
  let toURL := toURL +:+ requestHost in
  let toURL := toURL +:+ RequestURI r in
  Redirected toURL StatusMovedPermanently "close".

(** No colon and no bracket, as in the name of a host. *)
Definition unbracketed (s : string) : bool :=
  no_byte ":"%char s && no_byte "["%char s && no_byte "]"%char s.

Lemma hostOnly_JoinHostPort host port :
  unbracketed host = true → unbracketed port = true → hostOnly (JoinHostPort host port) = host.
Proof.
  unfold unbracketed. intros [[? ?]%andb_true_iff ?]%andb_true_iff [[? ?]%andb_true_iff ?]%andb_true_iff.
  unfold hostOnly. by rewrite SplitHostPort_JoinHostPort.
Qed.

Section redirects.
Context {St : Type} `{!ChallengeLib} `{!Storage St}.
Context (RequestURI : Request → string).
Implicit Types (s : St) (p : ProcState).

(** The handler of the HTTP server: none is set when the first issuer is not
    an ACME issuer, and the server then falls back on the default
    multiplexer. *)
Definition http_handler (t : Template) (cfg : Config) s p (r : Request) : reply :=
  match t_Issuers t with
  | Some (IsACME am :: _) =>
      HTTPChallengeHandler Answered (am_DisableHTTPChallenge am) cfg s p (httpRedirectHandler RequestURI) r
  | _ => DefaultServeMux r
  end.

(** When no issuers are configured, nothing but challenges is served in
    the clear: a request to the HTTP port of [HTTPS] is the answer of a
    challenge, for a path below that of challenges while the HTTP challenge
    is enabled, or it is redirected to the same resource on the HTTPS port
    of the host, without the port of the request. *)
Theorem http_redirects def acme h t cfg s p r host port :
  t_Issuers def = None → newWithCache def acme (Some h) def = Ok t →
  req_Host r = JoinHostPort host port →
  unbracketed host = true → unbracketed port = true →
  (∃ resp, http_handler t cfg s p r = Answered resp ∧ am_DisableHTTPChallenge acme = false ∧
           HasPrefix (req_Path r) acmeHTTPChallengeBasePath = true) ∨
  http_handler t cfg s p r = Redirected ("https://" +:+ host +:+ RequestURI r) StatusMovedPermanently "close".
Proof.
  intros Hd Hnew Hh H1 H2. injection Hnew as <-.
  unfold http_handler, default_issuers, HTTPChallengeHandler. simpl. rewrite Hd. simpl.
  unfold HandleHTTPChallenge. assert (httpRedirectHandler RequestURI r =
    Redirected ("https://" +:+ host +:+ RequestURI r) StatusMovedPermanently "close") as Hr.
  { unfold httpRedirectHandler. by rewrite Hh, hostOnly_JoinHostPort, append_assoc. }
  unfold bool_or, or_default. destruct (am_DisableHTTPChallenge acme); simpl; [by right|].
  destruct (LooksLikeHTTPChallenge r) eqn:Hl; simpl; [|by right].
  destruct (distributedHTTPChallengeSolver cfg s p r) as [resp|]; [|by right].
  left. exists resp. split_and!; try done. unfold LooksLikeHTTPChallenge in Hl. by apply andb_true_iff in Hl as [_ ?].
Qed.

(** With another issuer in front, the content of the default multiplexer goes
    out unencrypted, although the documentation of [HTTPS] says that all
    requests are redirected. *)
Example http_not_redirected def am i cfg s p r :
  http_handler (MkTemplate (t_RenewalWindowRatio def) None "" "" None false
      (Some [IsOther i; IsACME am]) UseFirstIssuer false None None (MkOCSPConfig false ∅) None false None false
      None None) cfg s p r = DefaultServeMux r.
Proof. done. Qed.

(** The brackets of an IPv6 address get lost with the port. *)
Example redirect_v6 r :
  req_Host r = "[2001:db8::1]:8080" → RequestURI r = "/x" →
  httpRedirectHandler RequestURI r = Redirected "https://2001:db8::1/x" StatusMovedPermanently "close".
Proof. intros Hh Hu. unfold httpRedirectHandler. rewrite Hh, Hu. by vm_compute. Qed.
End redirects.

(** ** The listeners of [HTTPS] *)

Module Serving.
(** The package variables of [HTTPS], the sockets of the process, and where
    its calls and the goroutine that closes the listeners are. *)
Record t := Mk {
  httpLn : option nat;
  httpsLn : option nat;
  open : gset nat;             (* listeners that are not closed *)
  next : nat;                  (* the next listener *)
  wg : nat;                    (* httpWg *)
  entered : nat;               (* calls between Add and the lock *)
  servers : gmap nat (nat * nat);   (* calls in Serve, with their listeners *)
  h : option (nat * nat);      (* the listeners of h1 and h2 *)
  waiting : nat;               (* closing goroutines in Wait *)
  woken : nat;                 (* closing goroutines after Wait *)
  ended : bool                 (* whether a server has ended *)
}.

Definition init : t := Mk None None ∅ 0 0 0 ∅ None 0 0 false.

(** The section under [lnMu]; [o1] and [o2] are the outcomes of listening on
    the two ports. *)
Definition listen (o1 o2 : option error) (s : t) : result (nat * nat) * t :=
  match httpLn s, httpsLn s with
  | None, None =>
      match o1 with
      | Some err => (Err err, s)
      | None =>
          let hln := next s in
          match o2 with
          | Some err => (Err err, Mk None None (open s) (S hln) (wg s) (entered s) (servers s) (h s)
                           (waiting s) (woken s) (ended s))
          | None => (Ok (hln, S hln),
                     Mk (Some hln) (Some (S hln)) ({[hln; S hln]} ∪ open s) (S (S hln)) (wg s) (entered s)
                       (servers s) (h s) (S (waiting s)) (woken s) (ended s))
          end
      end
  | Some hln, Some hsln => (Ok (hln, hsln), s)
  | _, _ => (Err (Panic "nil pointer dereference"), s)
  end.

Definition Add (s : t) : t :=
  Mk (httpLn s) (httpsLn s) (open s) (next s) (S (wg s)) (S (entered s)) (servers s) (h s)
    (waiting s) (woken s) (ended s).

(** From the lock to [Serve], or to the return with an error. *)
Definition enter (id : nat) (o1 o2 : option error) (s : t) : t :=
  match listen o1 o2 s with
  | (Err _, s) => Mk (httpLn s) (httpsLn s) (open s) (next s) (pred (wg s)) (pred (entered s)) (servers s) (h s)
                    (waiting s) (woken s) (ended s)
  | (Ok lns, s) => Mk (httpLn s) (httpsLn s) (open s) (next s) (wg s) (pred (entered s)) (<[id := lns]> (servers s))
                     (Some lns) (waiting s) (woken s) (ended s)
  end.

Definition close (lns : gset nat) (s : t) : t :=
  Mk (httpLn s) (httpsLn s) (open s ∖ lns) (next s) (wg s) (entered s) (servers s) (h s)
    (waiting s) (woken s) true.

(** [Serve] closes its listener when it returns, and [Done] is deferred. *)
Definition return_from (id : nat) (hsln : nat) (s : t) : t :=
  let s := close {[hsln]} s in
  Mk (httpLn s) (httpsLn s) (open s) (next s) (pred (wg s)) (entered s) (delete id (servers s)) (h s)
    (waiting s) (woken s) (ended s).

(** [Shutdown] closes the listeners of the servers that started last; their
    [Serve] returns afterwards. *)
Definition Shutdown (s : t) : t :=
  match h s with Some (hln, hsln) => close {[hln; hsln]} s | None => s end.

Definition close_all (s : t) : t :=
  let s := close (list_to_set (option_list (httpLn s) ++ option_list (httpsLn s))) s in
  Mk (httpLn s) (httpsLn s) (open s) (next s) (wg s) (entered s) (servers s) (h s)
    (waiting s) (pred (woken s)) (ended s).

Definition wake (s : t) : t :=
  Mk (httpLn s) (httpsLn s) (open s) (next s) (wg s) (entered s) (servers s) (h s)
    (pred (waiting s)) (S (woken s)) (ended s).

Inductive step (s : t) : t → Prop :=
| S_Add : step s (Add s)
| S_enter id o1 o2 : (0 < entered s)%nat → servers s !! id = None → step s (enter id o1 o2 s)
| S_http_ends hln : httpLn s = Some hln → step s (close {[hln]} s)
| S_return id hln hsln : servers s !! id = Some (hln, hsln) → step s (return_from id hsln s)
| S_Shutdown : step s (Shutdown s)
| S_wake : (0 < waiting s)%nat → wg s = 0%nat → step s (wake s)
| S_close : (0 < woken s)%nat → step s (close_all s).

(** The state of the listeners while [HTTPS] is in use. *)
Record ok (s : t) : Prop := {
  ok_wg : wg s = (entered s + size (servers s))%nat;
  ok_none : httpLn s = None → httpsLn s = None ∧ servers s = ∅ ∧ h s = None ∧ open s = ∅ ∧ waiting s = 0%nat ∧ woken s = 0%nat ∧
            ended s = false;
  ok_some hln : httpLn s = Some hln → ∃ hsln, httpsLn s = Some hsln ∧ hln ≠ hsln ∧
    (∀ id lns, servers s !! id = Some lns → lns = (hln, hsln)) ∧ h s = Some (hln, hsln) ∧
    (open s ⊆ {[hln; hsln]}) ∧ (waiting s + woken s ≤ 1)%nat ∧
    (ended s = false → open s = {[hln; hsln]} ∧ servers s ≠ ∅ ∧ woken s = 0%nat)
}.

Lemma init_ok : ok init.
Proof. by constructor. Qed.

Lemma close_ok lns s : httpLn s ≠ None → ok s → ok (close lns s).
Proof.
  intros Hn [Hw _ Hs]. constructor; simpl; [done|done|]. intros hln Hl.
  destruct (Hs hln Hl) as (hsln & ? & ? & ? & ? & Hsub & ? & _). exists hsln. split_and!; try done. set_solver.
Qed.

Lemma enter_ok id o1 o2 s : (0 < entered s)%nat → servers s !! id = None → ok s → ok (enter id o1 o2 s).
Proof.
  intros He Hid [Hw Hn Hs]. unfold enter, listen. destruct (httpLn s) as [hln|] eqn:Hl.
  - destruct (Hs hln eq_refl) as (hsln & E & Hne & Hsv & Hh & Hsub & Hc & Hen). rewrite E. simpl.
    constructor; simpl; [|by rewrite Hl|].
    + rewrite map_size_insert_None by done. lia.
    + intros hln' [= <-]%(eq_trans (eq_sym Hl)). exists hsln. split_and!; try done.
      * intros id' lns. rewrite lookup_insert_Some. naive_solver.
      * intros Hf. destruct (Hen Hf) as (? & ? & ?). split_and!; try done. by apply insert_non_empty.
  - destruct (Hn eq_refl) as (E & Hsv & Hh & Hop & Hwt & Hwk & Hen). rewrite E.
    rewrite Hsv, map_size_empty in Hw.
    destruct o1 as [e|]; [|destruct o2 as [e|]]; simpl.
    + constructor; simpl; rewrite ?Hsv, ?map_size_empty, ?Hl; try done; lia.
    + constructor; simpl; rewrite ?Hsv, ?map_size_empty, ?Hl; try done; lia.
    + rewrite Hsv, Hop, Hwt, Hwk. constructor; simpl; [|done|].
      * rewrite insert_empty, map_size_singleton. lia.
      * intros hln [= <-]. exists (S (next s)). split_and!; [done|lia|..|done|set_solver|lia|].
        -- intros id' lns. rewrite insert_empty, lookup_singleton_Some. naive_solver.
        -- intros _. split_and!; [set_solver|by apply insert_non_empty|done].
Qed.

Lemma step_ok s s' : ok s → step s s' → ok s'.
Proof.
  intros Hok. pose proof Hok as [Hw Hn Hs].
  assert (∀ id lns, servers s !! id = Some lns → httpLn s ≠ None) as Hsome.
  { intros id lns Hid Hl. destruct (Hn Hl) as (_ & Hsv & _). by rewrite Hsv in Hid. }
  destruct 1 as [|id o1 o2 He Hid|hln Hl|id hln hsln Hid| |Hwt Hz|Hwk].
  - constructor; simpl; [lia|done|done].
  - by apply enter_ok.
  - apply close_ok; [by rewrite Hl|done].
  - pose proof (Hsome _ _ Hid) as Hl. destruct (close_ok {[hsln]} s Hl Hok) as [Hw' _ Hs'].
    constructor; simpl in *; [|done|].
    + rewrite map_size_delete_Some by eauto. assert (size (servers s) ≠ 0%nat); [|lia].
      intros H0%map_size_empty_inv. by rewrite H0 in Hid.
    + intros hln' Hl'. destruct (Hs' hln' Hl') as (hsln' & ? & ? & Hsv & ? & ? & ? & _). exists hsln'. split_and!; try done.
      intros id' lns [_ ?]%lookup_delete_Some. by eapply Hsv.
  - unfold Shutdown. destruct (h s) as [[hln hsln]|] eqn:Hh; [|done].
    apply close_ok; [|done]. intros Hl. destruct (Hn Hl) as (_ & _ & ? & _). congruence.
  - constructor; simpl; [done|..].
    + intros Hl. destruct (Hn Hl) as (_ & _ & _ & _ & ? & _). lia.
    + intros hln Hl. destruct (Hs hln Hl) as (hsln & ? & ? & ? & ? & ? & ? & Hen). exists hsln.
      split_and!; try done; [lia|]. intros Hf. destruct (Hen Hf) as (_ & Hne & _).
      assert (size (servers s) = 0%nat) as Hz'%map_size_empty_inv by lia. done.
  - assert (httpLn s ≠ None) as Hl.
    { intros Hl. destruct (Hn Hl) as (_ & _ & _ & _ & _ & ? & _). lia. }
    destruct (close_ok (list_to_set (option_list (httpLn s) ++ option_list (httpsLn s))) s Hl Hok) as [Hw' _ Hs'].
    constructor; simpl in *; [done|done|]. intros hln Hl'.
    destruct (Hs' hln Hl') as (hsln & ? & ? & ? & ? & ? & ? & _). exists hsln. split_and!; try done. lia.
Qed.

Lemma reachable_ok s s' : ok s → rtc step s s' → ok s'.
Proof. intros Hok Hrun. revert Hok. induction Hrun; eauto using step_ok. Qed.

(** The calls of [HTTPS] share one pair of listeners, whatever their
    interleaving: the wait group counts the calls under way, every server
    runs on the pair in the package variables, no other listener is left
    open, at most one goroutine will close the pair, and until a server ends
    the pair is open. *)
Theorem HTTPS_shared s :
  rtc step init s →
  wg s = (entered s + size (servers s))%nat ∧
  (∀ id hln hsln, servers s !! id = Some (hln, hsln) →
     httpLn s = Some hln ∧ httpsLn s = Some hsln ∧ hln ≠ hsln ∧ open s ⊆ {[hln; hsln]} ∧
     (waiting s + woken s ≤ 1)%nat ∧ (ended s = false → hln ∈ open s ∧ hsln ∈ open s)).
Proof.
  intros Hrun. destruct (reachable_ok _ _ init_ok Hrun) as [Hw Hn Hs]. split; [done|].
  intros id hln hsln Hid. destruct (httpLn s) as [hln'|] eqn:Hl.
  - destruct (Hs _ eq_refl) as (hsln' & ? & ? & Hsv & ? & ? & ? & Hen).
    injection (Hsv _ _ Hid) as -> ->. split_and!; try done. intros Hf. destruct (Hen Hf) as (-> & _). set_solver.
  - destruct (Hn eq_refl) as (_ & Hsv & _). by rewrite Hsv in Hid.
Qed.

(** A closed listener is never open again. *)
Lemma closed_step s s' hln hsln :
  ok s → step s s' → httpLn s = Some hln → httpsLn s = Some hsln → hsln ∉ open s →
  httpLn s' = Some hln ∧ httpsLn s' = Some hsln ∧ hsln ∉ open s'.
Proof.
  intros Hok Hs Hl1 Hl2 Ho. destruct Hs as [|id o1 o2 He Hid| | | | |]; simpl; split_and!; try done; try set_solver.
  1-3: unfold enter, listen; by rewrite Hl1, Hl2.
  all: unfold Shutdown; destruct (h s) as [[??]|]; simpl; [|done]; try done; set_solver.
Qed.

(** [HTTPS] cannot be used again: once the server of one call has
    returned, the listener of the HTTPS port stays closed and stays in the
    package variable, so that every later call, and every other one under
    way, serves on a closed listener. *)
Theorem HTTPS_not_restartable s id hln hsln s' id' lns :
  rtc step init s → servers s !! id = Some (hln, hsln) → rtc step (return_from id hsln s) s' →
  servers s' !! id' = Some lns → snd lns ∉ open s'.
Proof.
  intros Hinit Hid Hrun Hsv. pose proof (reachable_ok _ _ init_ok Hinit) as Hok.
  pose proof (reachable_ok _ _ (step_ok _ _ Hok (S_return s id hln hsln Hid)) Hrun) as Hok'.
  assert (httpLn s = Some hln ∧ httpsLn s = Some hsln) as [Hl1 Hl2].
  { destruct Hok as [_ Hn Hs]. destruct (httpLn s) as [hln'|] eqn:Hl.
    - destruct (Hs _ eq_refl) as (hsln' & ? & _ & Hv & _). injection (Hv _ _ Hid) as -> ->. done.
    - destruct (Hn eq_refl) as (_ & Hv & _). by rewrite Hv in Hid. }
  assert (httpLn s' = Some hln ∧ httpsLn s' = Some hsln ∧ hsln ∉ open s') as (Hl1' & Hl2' & Ho').
  { clear Hsv Hok'. assert (ok (return_from id hsln s)) as Hk by (eapply step_ok; [done|by eapply S_return]).
    assert (hsln ∉ open (return_from id hsln s)) as Ho by (simpl; set_solver).
    assert (httpLn (return_from id hsln s) = Some hln ∧ httpsLn (return_from id hsln s) = Some hsln) as [A B] by done.
    clear Hl1 Hl2. revert Hk Ho A B. induction Hrun as [x|x y z Hs _ IH]; intros; [done|].
    destruct (closed_step _ _ _ _ Hk Hs A B Ho) as (? & ? & ?). apply IH; try done. by eapply step_ok. }
  destruct Hok' as [_ _ Hs]. destruct (Hs _ Hl1') as (hsln' & E & _ & Hv & _).
  rewrite (Hv _ _ Hsv). simpl. congruence.
Qed.

(** A call serves, returns, and the next call finds the closed listener. *)
Definition ex_serving : t := enter 1 None None (Add init).
Definition ex_again : t := enter 2 None None (Add (return_from 1 1 ex_serving)).

Lemma ex_serving_run : rtc step init ex_serving.
Proof. apply rtc_l with (Add init); [constructor|]. apply rtc_once. constructor; [simpl; lia|done]. Qed.

Lemma HTTPS_shared_witness :
  wg ex_serving = 1%nat ∧ servers ex_serving !! 1%nat = Some (0%nat, 1%nat) ∧ 1%nat ∈ open ex_serving.
Proof.
  split; [reflexivity|]. split; [reflexivity|].
  destruct (HTTPS_shared ex_serving ex_serving_run) as [_ H].
  destruct (H 1%nat 0%nat 1%nat eq_refl) as (_ & _ & _ & _ & _ & Ho). exact (proj2 (Ho eq_refl)).
Defined.

Lemma HTTPS_not_restartable_witness :
  servers ex_again !! 2%nat = Some (0%nat, 1%nat) ∧ 1%nat ∉ open ex_again.
Proof.
  split; [reflexivity|].
  refine (HTTPS_not_restartable ex_serving 1 0 1 ex_again 2 (0%nat, 1%nat) ex_serving_run eq_refl _ eq_refl).
  apply rtc_l with (Add (return_from 1 1 ex_serving)); [constructor|].
  apply rtc_once. constructor; [vm_compute; lia|reflexivity].
Defined.
End Serving.

(** ** Concrete runs *)

Section toplevel_runs.
Import SimTLS SimACME.

Lemma http_redirects_witness :
  ∃ t, newWithCache Default DefaultACME (Some 0%nat) Default = Ok t ∧
    http_handler (λ _, "/x") t ex_cfg MemStorage.empty idle_proc (MkRequest "GET" "a.com:8080" "/x") =
      Redirected "https://a.com/x" 301 "close".
Proof.
  destruct (newWithCache Default DefaultACME (Some 0%nat) Default) as [t|e] eqn:Ht; [|discriminate Ht].
  exists t. split; [reflexivity|].
  destruct (http_redirects (λ _, "/x") Default DefaultACME 0 t ex_cfg MemStorage.empty idle_proc
    (MkRequest "GET" "a.com:8080" "/x") "a.com" "8080" eq_refl Ht eq_refl eq_refl eq_refl) as [(r & _ & _ & Hp)|H].
  - discriminate Hp.
  - exact H.
Defined.

Definition ex_globals : Globals := MkGlobals (with_t_OnDemand (Some allow_all) Default) DefaultACME None ex_fresh.
Definition ex_managing := certmagic_ManageSync [" A.com"] ex_globals.

Lemma ManageSync_allowlist_witness :
  fst ex_managing = Ok tt ∧
  ∃ t, NewDefault (snd ex_managing) = (Ok t, snd ex_managing) ∧
    is_Ok (checkIfCertShouldBeObtained (config_of ex_options t) "a.com" true) = true.
Proof.
  destruct (ManageSync_allowlist ex_globals [" A.com"] allow_all (fst ex_managing) (snd ex_managing)
    eq_refl eq_refl ltac:(discriminate) (surjective_pairing _)) as (H1 & _ & t & Ht & H).
  split; [exact H1|]. exists t. split; [exact Ht|].
  apply H. split; [vm_compute; reflexivity|]. right. exists " A.com". split; [constructor|vm_compute; reflexivity].
Defined.
End toplevel_runs.
