(* ===== verification/Throttling.v ===== *)
(** * The rate limits of a CA and an account (acmeclient.go, ratelimiter.go)

    [throttle] takes a ticket from the limiter of the CA and the account, which
    the package variable [rateLimiters] keeps for the life of the process; the
    limiter is that of [RateLimiter], with its goroutine. This file joins the
    two: whatever the issuers of a process do, the tickets for one CA and
    account keep to the limit. *)

From S2P Require Import Prelude GoStrings Certificates Storage Crypto Config RateLimiter Solvers.
From S2P Require Import Challenges Account AcmeClient AcmeIssuer.
Open Scope string_scope.

(** A ticket is handed out by the goroutine of the limiter: its loop comes from
    the top, at a time that is not before any it has recorded, to the top
    again, with one ticket in between. *)
Class LimiterLaws (N : Type) `{!ACMENet N} := {
  limiter_Wait_loop rl n ticket now n' :
    limiter_Wait rl n = (Ok (ticket, now), n') →
    ∃ t, Forall (λ e, e ≤ t)%Z (ring rl) ∧
      rtc loop_step (MkLoop rl AtTop t []) (MkLoop (permit_record now rl) AtTop now [(ticket, now)])
}.

(** A run of the loop is one with earlier tickets as well. *)
Lemma loop_run_frame r p t s' ts ts0 :
  rtc loop_step (MkLoop r p t ts) s' →
  rtc loop_step (MkLoop r p t (ts0 ++ ts)) (MkLoop (limiter s') (pc s') (clock s') (ts0 ++ tickets s')).
Proof.
  intros Hrun. remember (MkLoop r p t ts) as s eqn:E.
  assert (rtc loop_step (MkLoop (limiter s) (pc s) (clock s) (ts0 ++ tickets s))
            (MkLoop (limiter s') (pc s') (clock s') (ts0 ++ tickets s'))) as H; [|by subst s].
  clear E. induction Hrun as [s|s s1 s2 Hs _ IH]; [apply rtc_refl|]. eapply rtc_l; [|exact IH].
  destruct Hs; simpl; rewrite ?app_assoc; by econstructor.
Qed.

Section throttling.
Context {St N : Type} `{C : !Codec} `{!Storage St} `{A : !ACMENet N}.
Implicit Types (w : AState St N) (g : PackageVars).

(** The times of the tickets for a limiter, among calls. *)
Definition ticket_of (k : string) (c : acme_call) : option Time :=
  match c with
  | CallThrottle k' ticket => if k' =? k then Some ticket else None
  | _ => None
  end.
Definition ticket_times (k : string) (t : list acme_call) : list Time := omap (ticket_of k) t.

(** *** What does not concern the limiters *)

Definition quiet w w' : Prop :=
  rateLimiters w' = rateLimiters w ∧ ∀ k, ticket_times k (a_trace w') = ticket_times k (a_trace w).

#[export] Instance quiet_preorder : PreOrder quiet.
Proof. split; [done|]. intros w1 w2 w3 [H1 T1] [H2 T2]. split; [congruence|]. intros k. by rewrite T2, T1. Qed.

Lemma on_a_net_quiet {T} (m : ST N T) w r w' : on_a_net m w = (r, w') → quiet w w'.
Proof. unfold on_a_net. destruct (m _). by intros [= _ <-]. Qed.
Lemma on_a_storage_quiet {T} (m : ST St T) w r w' : on_a_storage m w = (r, w') → quiet w w'.
Proof. unfold on_a_storage. destruct (m _). by intros [= _ <-]. Qed.
Lemma on_a_locks_quiet {T} (m : ST (LockState St) T) w r w' : on_a_locks m w = (r, w') → quiet w w'.
Proof. unfold on_a_locks. destruct (m _). by intros [= _ <-]. Qed.
Lemma a_record_quiet c w : (∀ k, ticket_of k c = None) → quiet w (a_record c w).
Proof.
  intros Hc. split; [done|]. intros k. unfold ticket_times. simpl. rewrite omap_app. simpl.
  by rewrite Hc, app_nil_r.
Qed.
Lemma with_iss_quiet f w : quiet w (with_iss f w).
Proof. done. Qed.
Lemma with_globals_quiet d e w : quiet w (with_globals d e w).
Proof. done. Qed.

(** A method whose parts are quiet is quiet: its cases are split and the parts
    put together. *)
Ltac quiet_step :=
  match goal with
  | H : (let '(_, _) := ?x in _) = _ |- _ => destruct x eqn:?
  | H : match ?x with _ => _ end = (_, _) |- _ => destruct x eqn:?
  | H : (_, _) = (_, _) |- _ => injection H as ??; subst
  end.
Create HintDb quiet.
#[local] Hint Resolve on_a_net_quiet on_a_storage_quiet on_a_locks_quiet a_record_quiet with_iss_quiet : quiet.
Ltac quiet_solve :=
  repeat match goal with
  | |- quiet ?w ?w => reflexivity
  | H : _ ?w = (_, ?w') |- quiet _ ?w' => etrans; [|by eauto with quiet]
  | |- quiet _ (a_record _ _) => etrans; [|by apply a_record_quiet]
  | |- quiet _ (with_iss _ _) => etrans; [|by apply with_iss_quiet]
  | |- quiet _ (with_globals _ _ _) => etrans; [|by apply with_globals_quiet]
  end.
Ltac quiet := intros; repeat quiet_step; quiet_solve.

Lemma saveAccount_quiet ca a w r w' : saveAccount ca a w = (r, w') → quiet w w'.
Proof. unfold saveAccount. quiet. Qed.
#[local] Hint Resolve saveAccount_quiet : quiet.
Lemma deleteAccountLocally_quiet ca a w r w' : deleteAccountLocally ca a w = (r, w') → quiet w w'.
Proof. unfold deleteAccountLocally. quiet. Qed.
Lemma newAccount_quiet e w r w' : newAccount e w = (r, w') → quiet w w'.
Proof. unfold newAccount. quiet. Qed.
#[local] Hint Resolve newAccount_quiet deleteAccountLocally_quiet : quiet.
Lemma getAccount_quiet ca e w r w' : getAccount ca e w = (r, w') → quiet w w'.
Proof. unfold getAccount. quiet. Qed.
Lemma lookUpAccount_quiet g pem w r w' : lookUpAccount g pem w = (r, w') → quiet w w'.
Proof. unfold lookUpAccount. quiet. Qed.
#[local] Hint Resolve getAccount_quiet lookUpAccount_quiet : quiet.
Lemma GetAccount_quiet g pem w r w' : GetAccount g pem w = (r, w') → quiet w w'.
Proof. unfold GetAccount. quiet. Qed.
#[local] Hint Resolve GetAccount_quiet : quiet.
Lemma clientAccount_quiet g client w r w' : clientAccount g client w = (r, w') → quiet w w'.
Proof. unfold clientAccount. quiet. Qed.
Lemma preRegister_quiet a w r w' : preRegister a w = (r, w') → quiet w w'.
Proof. unfold preRegister. quiet; done. Qed.
Lemma askUserAgreement_quiet w r w' : askUserAgreement w = (r, w') → quiet w w'.
Proof. unfold askUserAgreement. quiet. Qed.
#[local] Hint Resolve clientAccount_quiet preRegister_quiet askUserAgreement_quiet : quiet.
Lemma agreeToTerms_quiet d i w r w' : agreeToTerms d i w = (r, w') → quiet w w'.
Proof. unfold agreeToTerms. quiet. Qed.
Lemma bindExternalAccount_quiet d a w r w' : bindExternalAccount d a w = (r, w') → quiet w w'.
Proof. unfold bindExternalAccount. quiet. Qed.
#[local] Hint Resolve agreeToTerms_quiet bindExternalAccount_quiet : quiet.
Lemma registerAccount_quiet d i a w r w' : registerAccount d i a w = (r, w') → quiet w w'.
Proof. unfold registerAccount. quiet. Qed.
#[local] Hint Resolve registerAccount_quiet : quiet.
Lemma reloadOrRegister_quiet g client i w r w' : reloadOrRegister g client i w = (r, w') → quiet w w'.
Proof. unfold reloadOrRegister. quiet. Qed.
#[local] Hint Resolve reloadOrRegister_quiet : quiet.
Lemma withRegLock_quiet k body w r w' :
  (∀ w r w', body w = (r, w') → quiet w w') → withRegLock k body w = (r, w') → quiet w w'.
Proof.
  intros Hb. unfold withRegLock. intros H. repeat quiet_step; quiet_solve.
  destruct (on_a_locks (releaseLock 0 k) _) as [r2 w2] eqn:E2. simpl. quiet_solve.
Qed.
Lemma newACMEClientWithAccount_quiet g test i w r w' :
  newACMEClientWithAccount g test i w = (r, w') → quiet w w'.
Proof.
  unfold newACMEClientWithAccount. intros H. repeat quiet_step; quiet_solve;
    (etrans; [|eapply withRegLock_quiet; [|done]; by eauto with quiet]); quiet_solve.
Qed.
#[local] Hint Resolve newACMEClientWithAccount_quiet : quiet.
Lemma obtainLoop_quiet n g test usedTest client params w r w' :
  obtainLoop n g test usedTest client params w = (r, w') → quiet w w'.
Proof.
  revert client w. induction n as [|n IH]; intros client w; cbn [obtainLoop]; [quiet|].
  intros H. repeat quiet_step; quiet_solve; (etrans; [|by eapply IH]); quiet_solve.
Qed.
#[local] Hint Resolve obtainLoop_quiet : quiet.
Lemma mostRecentAccountEmail_quiet ca w r w' : mostRecentAccountEmail ca w = (r, w') → quiet w w'.
Proof. unfold mostRecentAccountEmail. quiet. Qed.
Lemma promptUserForEmail_quiet w r w' : promptUserForEmail w = (r, w') → quiet w w'.
Proof. unfold promptUserForEmail. quiet. Qed.
#[local] Hint Resolve mostRecentAccountEmail_quiet promptUserForEmail_quiet : quiet.
Lemma knownEmail_quiet w r w' : knownEmail w = (r, w') → quiet w w'.
Proof. unfold knownEmail. quiet. Qed.
#[local] Hint Resolve knownEmail_quiet : quiet.
Lemma setEmail_quiet allowPrompts w r w' : setEmail allowPrompts w = (r, w') → quiet w w'.
Proof. unfold setEmail, rememberEmail. quiet. Qed.
#[local] Hint Resolve setEmail_quiet : quiet.
Lemma PreCheck_quiet order names i w r w' : PreCheck order names i w = (r, w') → quiet w w'.
Proof. unfold PreCheck. quiet. Qed.
Lemma Revoke_quiet g cert reason w r w' : Revoke g cert reason w = (r, w') → quiet w w'.
Proof. unfold Revoke, revoke. quiet. Qed.
Lemma GetRenewalInfo_quiet g cert w r w' : GetRenewalInfo g cert w = (r, w') → quiet w w'.
Proof. unfold GetRenewalInfo. quiet. Qed.

(** *** Tickets *)

(** The variables of the limits are [events] and [window], and a limiter can be
    made with them. *)
Context (events : Z) (window : Duration) (rl0 : RingBufferRateLimiter).

Definition limits g : Prop := RateLimitEvents g = events ∧ RateLimitEventsWindow g = window.

Definition limiter_of (k : string) w : RingBufferRateLimiter := default rl0 (rateLimiters w !! k).

(** The limiter of a key with the tickets given so far is a state of its loop. *)
Definition paced (k : string) w : Prop :=
  ∃ s, rtc loop_step (MkLoop rl0 AtTop 0 []) s ∧
    limiter s = limiter_of k w ∧ pc s = AtTop ∧ (tickets s).*1 = ticket_times k (a_trace w) ∧
    clock s ∈ ring (limiter s).

Lemma paced_quiet k w w' : quiet w w' → paced k w → paced k w'.
Proof. intros [HL HT] (s & Hs & Hl & Hp & Ht & Hc). exists s. unfold limiter_of in *. by rewrite HL, HT. Qed.

Context (Hnew : NewRateLimiter events window = Some rl0) (Hpos : (0 < events)%Z).

Lemma paced_start k w : rateLimiters w = ∅ → ticket_times k (a_trace w) = [] → paced k w.
Proof using Hnew Hpos.
  intros HL HT. exists (MkLoop rl0 AtTop 0 []). unfold limiter_of. rewrite HL, HT, lookup_empty.
  split_and!; [apply rtc_refl|done..|]. unfold NewRateLimiter in Hnew. simpl.
  destruct (events <? 0)%Z; [done|]. destruct (_ && _); [done|]. injection Hnew as <-. simpl.
  apply elem_of_replicate. split; [done|lia].
Qed.

Lemma permit_record_in now r : ring r ≠ [] → wf r → now ∈ ring (permit_record now r).
Proof.
  intros Hr [Hw|[? _]]; [|done]. unfold permit_record.
  assert ((0 <? length (ring r))%nat = true) as -> by (apply Nat.ltb_lt; lia). simpl.
  apply list_elem_of_lookup_2 with (cursor r). by apply list_lookup_insert_eq.
Qed.

Context `{LL : !LimiterLaws N}.

Lemma throttle_paced k g client w r w' :
  limits g → throttle g client w = (r, w') → paced k w → paced k w'.
Proof using LL Hnew Hpos.
  intros [He Hwin]. unfold throttle. set (k0 := _ +:+ "," +:+ _). intros H (s & Hs & Hl & Hp & Ht & Hc).
  assert (match rateLimiters w !! k0 with Some rl => Some rl | None => newLimiter g end = Some (limiter_of k0 w))
    as Erl.
  { unfold limiter_of, newLimiter. rewrite He, Hwin, Hnew. by destruct (rateLimiters w !! k0). }
  rewrite Erl in H. clear Erl.
  assert (∀ w1, (∀ k, limiter_of k w1 = limiter_of k w) → a_trace w1 = a_trace w → paced k w1) as Hsame.
  { intros w1 H1 T1. exists s. by rewrite H1, T1. }
  unfold on_a_net in H. destruct (limiter_Wait _ _) as [[[ticket now]|e] n] eqn:E; injection H as <- <-.
  2: { apply Hsame; [|done]. intros k1. unfold limiter_of. simpl.
       destruct (decide (k0 = k1)) as [<-|Hne]; [by rewrite lookup_insert_eq|by rewrite lookup_insert_ne]. }
  destruct (decide (k0 = k)) as [<-|Hne].
  2: { exists s. unfold limiter_of, ticket_times in *. simpl. rewrite !lookup_insert_ne, omap_app by done. simpl.
       apply String.eqb_neq in Hne. by rewrite Hne, app_nil_r. }
  rewrite <-Hl in *.
  apply limiter_Wait_loop in E as (t & Hge & Hrun).
  pose proof (reachable_loop_inv _ _ _ Hnew Hpos _ _ Hs) as Hinv.
  exists (MkLoop (permit_record now (limiter s)) AtTop now (tickets s ++ [(ticket, now)])).
  split_and!; simpl.
  - destruct s as [rl p c ts]. simpl in *. subst p.
    etrans; [exact Hs|]. apply rtc_l with (MkLoop rl AtTop t ts).
    + apply step_tick. by eapply Forall_forall in Hge.
    + apply (loop_run_frame _ _ _ _ [] ts) in Hrun. by rewrite app_nil_r in Hrun.
  - unfold limiter_of. simpl. by rewrite lookup_insert_eq.
  - done.
  - unfold ticket_times in *. rewrite fmap_app, omap_app, Ht. simpl. by rewrite String.eqb_refl.
  - apply permit_record_in; [|by apply (li_wf _ _ _ Hinv)]. intros Hr. by rewrite Hr in Hc; apply elem_of_nil in Hc.
Qed.

Lemma doIssue_paced k g attempts replaces csr w r w' :
  limits g → doIssue g attempts replaces csr w = (r, w') → paced k w → paced k w'.
Proof using LL Hnew Hpos.
  intros Hg. unfold doIssue. intros H Hw.
  destruct (newACMEClientWithAccount _ _ _ w) as [[client|err] w1] eqn:E1;
    apply newACMEClientWithAccount_quiet, (paced_quiet k) in E1; [|done|by injection H as <- <-|done].
  destruct (if (0 <? attempts)%nat then _ else _) as [rt w2] eqn:E2.
  assert (paced k w2) as Hw2.
  { destruct (0 <? attempts)%nat; [by injection E2 as <- <-|by eapply throttle_paced]. }
  assert (quiet w2 w') as Hq; [|by eapply paced_quiet]. repeat quiet_step; quiet_solve.
Qed.

Lemma Issue_paced k g attempts replaces csr w r w' :
  limits g → Issue g attempts replaces csr w = (r, w') → paced k w → paced k w'.
Proof using LL Hnew Hpos.
  intros Hg [(rd & H & _)|(cert & used & w1 & rd & _ & H1 & _ & H2 & _)]%Issue_cases Hw.
  - by eapply doIssue_paced.
  - eapply doIssue_paced; [exact Hg|exact H2|]. by eapply doIssue_paced.
Qed.

(** The steps of the issuers of one process, whose limits are [events] and
    [window]: whole calls, and, for calls that run at the same time, the
    throttling of any client and what is quiet in between (the other parts of a
    call, another issuer's turn, other instances at the storage). *)
Inductive issuer_step w : AState St N → Prop :=
| I_Issue g attempts replaces csr r w' :
    limits g → Issue g attempts replaces csr w = (r, w') → issuer_step w w'
| I_PreCheck order names interactive r w' : PreCheck order names interactive w = (r, w') → issuer_step w w'
| I_Revoke g cert reason r w' : Revoke g cert reason w = (r, w') → issuer_step w w'
| I_GetRenewalInfo g cert r w' : GetRenewalInfo g cert w = (r, w') → issuer_step w w'
| I_throttle g client r w' : limits g → throttle g client w = (r, w') → issuer_step w w'
| I_other w' : quiet w w' → issuer_step w w'.

Lemma issuer_step_paced k w w' : issuer_step w w' → paced k w → paced k w'.
Proof using LL Hnew Hpos.
  destruct 1; [by eapply Issue_paced| | | |by eapply throttle_paced|by eapply paced_quiet];
    eapply paced_quiet; eauto using PreCheck_quiet, Revoke_quiet, GetRenewalInfo_quiet.
Qed.
End throttling.

Section limits.
Context {St N : Type} `{C : !Codec} `{!Storage St} `{A : !ACMENet N} `{LL : !LimiterLaws N}.
Implicit Types (w : AState St N) (g : PackageVars).
Context (events : Z) (window : Duration).

(** With limits that no limiter can have there are no tickets. *)
Lemma throttle_barren g client w r w' :
  NewRateLimiter events window = None → limits events window g → throttle g client w = (r, w') →
  rateLimiters w = ∅ → w' = w.
Proof.
  intros Hnew [He Hw] H HL. unfold throttle, newLimiter in H. rewrite HL, lookup_empty, He, Hw, Hnew in H.
  by injection H as _ <-.
Qed.

Lemma doIssue_barren g attempts replaces csr w r w' :
  NewRateLimiter events window = None → limits events window g →
  doIssue g attempts replaces csr w = (r, w') → rateLimiters w = ∅ → quiet w w'.
Proof.
  intros Hnew Hg. unfold doIssue. intros H HL.
  destruct (newACMEClientWithAccount _ _ _ w) as [[client|err] w1] eqn:E1;
    apply newACMEClientWithAccount_quiet in E1; [|by injection H as <- <-].
  destruct (if (0 <? attempts)%nat then _ else _) as [rt w2] eqn:E2.
  assert (w2 = w1) as ->.
  { destruct (0 <? attempts)%nat; [by injection E2|]. destruct E1 as [EL _]. rewrite HL in EL.
    by eapply (throttle_barren g client w1). }
  etrans; [exact E1|]. destruct rt; [|by injection H as _ <-].
  destruct (acmez_OrderParametersFromCSR _ _); [|by injection H as _ <-].
  destruct (obtainLoop _ _ _ _ _ _ w1) as [ro w3] eqn:E3. apply obtainLoop_quiet in E3.
  destruct ro as [[? ?]|?]; [by injection H as _ <-|].
  by destruct (selectPreferredChain _ _); injection H as _ <-.
Qed.

Lemma issuer_step_barren w w' :
  NewRateLimiter events window = None → issuer_step events window w w' → rateLimiters w = ∅ → quiet w w'.
Proof.
  intros Hnew Hs HL. destruct Hs as [g attempts replaces csr r w' Hg H| | | |g client r w' Hg H|w' H];
    eauto using PreCheck_quiet, Revoke_quiet, GetRenewalInfo_quiet.
  - apply Issue_cases in H as [(rd & H & _)|(cert & used & w1 & rd & _ & H1 & _ & H2 & _)];
      [by eapply doIssue_barren|]. eapply doIssue_barren in H1; [|done..].
    etrans; [exact H1|]. eapply doIssue_barren; [done..|]. by rewrite (proj1 H1).
  - by rewrite (throttle_barren g client w r w').
Qed.

(** (C8) The CA is not asked more often than the limit allows: however the
    issuers of a process take their turns, any interval as long as
    [RateLimitEventsWindow] has at most [RateLimitEvents] tickets for one CA
    and account, for any values of the two variables that are not changed in
    between. *)
Theorem tickets_limited k a w w' :
  rateLimiters w = ∅ → ticket_times k (a_trace w) = [] → rtc (issuer_step events window) w w' →
  (length (filter (λ e, a ≤ e < a + window)%Z (ticket_times k (a_trace w'))) ≤ Z.to_nat events)%nat.
Proof using LL.
  intros HL HT Hrun. destruct (decide (window ≤ 0)%Z) as [Hw|Hw].
  { assert (filter (λ e, a ≤ e < a + window)%Z (ticket_times k (a_trace w')) = []) as ->; [|simpl; lia].
    generalize (ticket_times k (a_trace w')). intros l. induction l as [|e l IH]; [done|].
    rewrite filter_cons_False by lia. done. }
  destruct (NewRateLimiter events window) as [rl0|] eqn:Hnew.
  - assert (0 < events)%Z as Hpos.
    { unfold NewRateLimiter in Hnew. destruct (Z.ltb_spec events 0); [done|].
      destruct (Z.eqb_spec events 0); [|lia]. destruct (Z.eqb_spec window 0); [lia|done]. }
    assert (paced rl0 k w') as (s & Hs & _ & _ & <- & _).
    { pose proof (paced_start events window rl0 Hnew Hpos k w HL HT) as Hp. clear HL HT.
      induction Hrun; eauto using issuer_step_paced. }
    by apply (tickets_spaced _ _ _ Hnew Hpos 0%Z).
  - assert (ticket_times k (a_trace w') = []) as ->; [|simpl; lia].
    induction Hrun as [w|w w1 w2 Hs _ IH]; [done|].
    apply issuer_step_barren in Hs as [HL1 HT1]; [|done..]. apply IH; [by rewrite HL1|by rewrite HT1].
Qed.
End limits.

(** ** A run *)

#[export] Instance sim_LimiterLaws : LimiterLaws SimCA.t.
Proof.
  split. intros rl n ticket now n'. simpl. set (T := SimCA.next_ticket rl n).
  destruct (Nat.leb_spec (length (ring rl)) (cursor rl)); [done|]. intros [= <- <- _].
  destruct (lookup_lt_is_Some_2 (ring rl) (cursor rl)) as [oldest Ho]; [done|].
  assert (∀ l b e, e ∈ l → (e ≤ foldr Z.max b l)%Z) as Hmax.
  { intros l b e. induction l as [|x l IH]; [by intros ?%elem_of_nil|].
    simpl. intros [->|Hin]%elem_of_cons; [lia|]. specialize (IH Hin). lia. }
  assert (∀ l b, (b ≤ foldr Z.max b l)%Z) as Hb by (intros l b; induction l; simpl; lia).
  exists T. split.
  - apply Forall_forall. intros e He. by apply Hmax.
  - eapply rtc_l; [by apply step_wait|]. apply rtc_l with (MkLoop rl Permitting T []);
      [|by apply rtc_once, (step_ticket rl T T [])].
    apply step_timer. unfold T, SimCA.next_ticket. rewrite (nth_lookup_Some _ _ _ _ Ho).
    etrans; [|apply Hb]. lia.
Qed.

(** Two orders, the second one after a ticket of its own. *)
Definition ex_twice : AState MemStorage.t SimCA.t :=
  (Issue SimClient.vars 0 None SimIssuer.csr (SimIssuer.issued 0).2).2.

Example ex_twice_tickets :
  ticket_times (SimCA.le +:+ ",me@a.com") (a_trace ex_twice) = [(10 * Second)%Z; (10 * Second)%Z].
Proof. by vm_compute. Qed.

Lemma tickets_limited_witness :
  (length (filter (λ e, 10 * Second ≤ e < 10 * Second + 10 * Second)%Z
     (ticket_times (SimCA.le +:+ ",me@a.com") (a_trace ex_twice))) ≤ 10)%nat.
Proof.
  refine (tickets_limited 10 (10 * Second)%Z (SimCA.le +:+ ",me@a.com") (10 * Second)%Z SimClient.ready ex_twice eq_refl eq_refl _).
  eapply rtc_l; [eapply (I_Issue _ _ _ SimClient.vars); [done|apply (surjective_pairing (SimIssuer.issued 0))]|].
  apply rtc_once. eapply (I_Issue _ _ _ SimClient.vars); [done|apply surjective_pairing].
Defined.
