(* ===== verification/WaitChans.v ===== *)
(** * Concurrent handshakes (handshake.go)

    [Handshake] follows one goroutine and leaves what the others do to a
    scheduler. This file has all of them: the two maps of wait channels, the
    sections under their mutexes, and the way a handshake goes through them, as
    a step relation on any number of goroutines. What a goroutine finds in the
    cache, in storage or at the CA only decides which way it goes, so it is
    left open here. *)

From S2P Require Import Prelude Handshake.
Open Scope string_scope.

Module WaitChans.
Abbreviation chan := nat (only parsing).

(** Where a goroutine is. *)
Inductive place :=
| GetCert (load : bool)                 (* getCertDuringHandshake *)
| Loading (load : bool)                 (* its part after the section on certLoadWaitChans *)
| Maintenance                           (* handshakeMaintenance *)
| RenewIfNecessary
| ObtainOnDemand                        (* obtainOnDemandCertificate *)
| RenewDynamic                          (* renewDynamicCertificate *)
| Obtaining                             (* before its unblockWaiters *)
| Renewing                              (* renewAndReload *)
| Waiting (k : wait_kind) (c : chan)    (* the select *)
| Return                                (* the rest of the calls, inside out *)
| Done.

(** The channels that a goroutine has made and not closed yet: the one it closes
    in the deferred function, and the one of [unblockWaiters]. The name is that
    of the client hello. *)
Record handshaking := G {
  g_name : string;
  g_pc : place;
  g_load : option chan;
  g_obtain : option chan
}.

Record state := Mk {
  certLoadWaitChans : gmap string chan;
  obtainCertWaitChans : gmap string chan;
  closed : gset chan;
  next : chan;                          (* the next channel *)
  gs : gmap nat handshaking;
  orphans : gset chan                   (* made by goroutines that have panicked *)
}.

Definition init : state := Mk ∅ ∅ ∅ 0 ∅ ∅.

Definition table (k : wait_kind) (s : state) : gmap string chan :=
  match k with WaitLoad => certLoadWaitChans s | WaitObtain => obtainCertWaitChans s end.
Definition set_table (k : wait_kind) (m : gmap string chan) (s : state) : state :=
  match k with
  | WaitLoad => Mk m (obtainCertWaitChans s) (closed s) (next s) (gs s) (orphans s)
  | WaitObtain => Mk (certLoadWaitChans s) m (closed s) (next s) (gs s) (orphans s)
  end.
Definition held (k : wait_kind) (g : handshaking) : option chan :=
  match k with WaitLoad => g_load g | WaitObtain => g_obtain g end.
Definition set_held (k : wait_kind) (c : option chan) (g : handshaking) : handshaking :=
  match k with
  | WaitLoad => G (g_name g) (g_pc g) c (g_obtain g)
  | WaitObtain => G (g_name g) (g_pc g) (g_load g) c
  end.
Definition at_pc (p : place) (g : handshaking) : handshaking := G (g_name g) p (g_load g) (g_obtain g).
Definition set_g (i : nat) (g : handshaking) (s : state) : state :=
  Mk (certLoadWaitChans s) (obtainCertWaitChans s) (closed s) (next s) (<[i := g]> (gs s)) (orphans s).
Definition orphan (c : option chan) (s : state) : state :=
  Mk (certLoadWaitChans s) (obtainCertWaitChans s) (closed s) (next s) (gs s)
    (from_option singleton ∅ c ∪ orphans s).

(** The section that looks a name up: the channel of another goroutine, or a new
    one of this goroutine in the map. *)
Definition enter (k : wait_kind) (name : string) (s : state) : chan + chan * state :=
  match table k s !! name with
  | Some c => inl c
  | None =>
      let c := next s in
      let s := Mk (certLoadWaitChans s) (obtainCertWaitChans s) (closed s) (S c) (gs s) (orphans s) in
      inr (c, set_table k (<[name := c]> (table k s)) s)
  end.

(** The section that unblocks the others; closing a closed channel panics. *)
Definition leave (k : wait_kind) (name : string) (c : chan) (s : state) : option state :=
  if decide (c ∈ closed s) then None
  else
    let s := Mk (certLoadWaitChans s) (obtainCertWaitChans s) ({[c]} ∪ closed s) (next s) (gs s) (orphans s) in
    Some (set_table k (delete name (table k s)) s).

(** The steps of goroutine [i], which is [g]. *)
Inductive gstep (i : nat) (g : handshaking) (s : state) : state → Prop :=
| get_cached load :                                (* matched in the cache, or no name *)
    g_pc g = GetCert load → gstep i g s (set_g i (at_pc Return g) s)
| get_maintained :                                 (* matched, managed and on demand *)
    g_pc g = GetCert true → gstep i g s (set_g i (at_pc Maintenance g) s)
| get_wait load c :
    g_pc g = GetCert load → enter WaitLoad (g_name g) s = inl c →
    gstep i g s (set_g i (at_pc (Waiting WaitLoad c) g) s)
| get_enter load c s' :
    g_pc g = GetCert load → enter WaitLoad (g_name g) s = inr (c, s') →
    gstep i g s (set_g i (set_held WaitLoad (Some c) (at_pc (Loading load) g)) s')
| load_return load :                               (* a manager's, not allowed, the default, none *)
    g_pc g = Loading load → gstep i g s (set_g i (at_pc Return g) s)
| load_storage :                                   (* loadCertFromStorage *)
    g_pc g = Loading true → gstep i g s (set_g i (at_pc Maintenance g) s)
| load_obtain :
    g_pc g = Loading true → gstep i g s (set_g i (at_pc ObtainOnDemand g) s)
| maintain_revoked :
    g_pc g = Maintenance → gstep i g s (set_g i (at_pc RenewDynamic g) s)
| maintain_renew :
    g_pc g = Maintenance → gstep i g s (set_g i (at_pc RenewIfNecessary g) s)
| maintain_ari j p :                               (* with the goroutine that updates ARI *)
    g_pc g = Maintenance → gs s !! j = None → p ∈ [RenewDynamic; RenewIfNecessary] →
    gstep i g s (set_g j (G (g_name g) RenewIfNecessary None None) (set_g i (at_pc p g) s))
| renew_not_needed :
    g_pc g = RenewIfNecessary → gstep i g s (set_g i (at_pc Return g) s)
| renew_needed :
    g_pc g = RenewIfNecessary → gstep i g s (set_g i (at_pc RenewDynamic g) s)
| renew_not_stored :
    g_pc g = RenewIfNecessary → gstep i g s (set_g i (at_pc ObtainOnDemand g) s)
| no_name p :
    g_pc g = p → p ∈ [ObtainOnDemand; RenewDynamic] → gstep i g s (set_g i (at_pc Return g) s)
| obtain_wait p c :                                (* a renewal waits when expired or revoked *)
    g_pc g = p → p ∈ [ObtainOnDemand; RenewDynamic] → enter WaitObtain (g_name g) s = inl c →
    gstep i g s (set_g i (at_pc (Waiting WaitObtain c) g) s)
| renew_serve_current c :
    g_pc g = RenewDynamic → enter WaitObtain (g_name g) s = inl c →
    gstep i g s (set_g i (at_pc Return g) s)
| obtain_enter c s' :
    g_pc g = ObtainOnDemand → enter WaitObtain (g_name g) s = inr (c, s') →
    gstep i g s (set_g i (set_held WaitObtain (Some c) (at_pc Obtaining g)) s')
| renew_enter c s' :                               (* expired: in the handshake *)
    g_pc g = RenewDynamic → enter WaitObtain (g_name g) s = inr (c, s') →
    gstep i g s (set_g i (set_held WaitObtain (Some c) (at_pc Renewing g)) s')
| renew_background j c s' :                        (* otherwise in a goroutine of its own *)
    g_pc g = RenewDynamic → gs s !! j = None → enter WaitObtain (g_name g) s = inr (c, s') →
    gstep i g s (set_g j (G (g_name g) Renewing None (Some c)) (set_g i (at_pc Return g) s'))
| obtain_failed :
    g_pc g = Obtaining → gstep i g s (set_g i (at_pc Return g) s)
| obtain_loaded :                                  (* loadCertFromStorage *)
    g_pc g = Obtaining → gstep i g s (set_g i (at_pc Maintenance g) s)
| renewed :
    g_pc g = Renewing → gstep i g s (set_g i (at_pc Return g) s)
| wait_closed k c :
    g_pc g = Waiting k c → c ∈ closed s → gstep i g s (set_g i (at_pc (GetCert false) g) s)
| wait_timeout k c :                               (* or the context is done *)
    g_pc g = Waiting k c → gstep i g s (set_g i (at_pc Return g) s)
| return_unblock c s' :
    g_pc g = Return → g_obtain g = Some c → leave WaitObtain (g_name g) c s = Some s' →
    gstep i g s (set_g i (set_held WaitObtain None g) s')
| return_deferred c s' :
    g_pc g = Return → g_obtain g = None → g_load g = Some c → leave WaitLoad (g_name g) c s = Some s' →
    gstep i g s (set_g i (set_held WaitLoad None g) s')
| return_done :
    g_pc g = Return → g_obtain g = None → g_load g = None → gstep i g s (set_g i (at_pc Done g) s).

(** A panic in a handshake: the deferred function runs, [unblockWaiters] does
    not. The server may recover, as that of [net/http] does for a connection. *)
Inductive panics (i : nat) (g : handshaking) (s : state) : state → Prop :=
| panic_none :
    g_pc g ≠ Done → g_load g = None →
    panics i g s (orphan (g_obtain g) (set_g i (G (g_name g) Done None None) s))
| panic_deferred c s' :
    g_pc g ≠ Done → g_load g = Some c → leave WaitLoad (g_name g) c s = Some s' →
    panics i g s (orphan (g_obtain g) (set_g i (G (g_name g) Done None None) s')).

Inductive step (s : state) : state → Prop :=
| handshake_starts i name :
    gs s !! i = None → step s (set_g i (G name (GetCert true) None None) s)
| goroutine_steps i g s' : gs s !! i = Some g → gstep i g s s' → step s s'
| goroutine_panics i g s' : gs s !! i = Some g → panics i g s s' → step s s'.

Definition reachable (s : state) : Prop := rtc step init s.

(** ** The invariant *)

Definition pc_ok (g : handshaking) : Prop :=
  match g_pc g with
  | GetCert _ | Waiting WaitLoad _ => g_obtain g = None
  | Loading _ => g_obtain g = None ∧ is_Some (g_load g)
  | Obtaining | Renewing => is_Some (g_obtain g)
  | Waiting WaitObtain c => g_obtain g = None ∨ g_obtain g = Some c
  | Done => g_load g = None ∧ g_obtain g = None
  | _ => True
  end.

Definition wait_ok (s : state) (g : handshaking) : Prop :=
  ∀ k c, g_pc g = Waiting k c → (c < next s)%nat ∧ (c ∈ closed s ∨ table k s !! g_name g = Some c).

(** What a goroutine relies on: what it holds is in the maps, and what it waits
    for is in the map of its name or has been closed. *)
Definition g_ok (s : state) (g : handshaking) : Prop :=
  (∀ k c, held k g = Some c → table k s !! g_name g = Some c ∧ c ∉ orphans s) ∧ wait_ok s g ∧ pc_ok g.

Record inv (s : state) : Prop := MkInv {
  inv_g i g : gs s !! i = Some g → g_ok s g;
  inv_entry k name c : table k s !! name = Some c → (c ∉ closed s) ∧ (c < next s)%nat;
  inv_inj k k' name name' c :
    table k s !! name = Some c → table k' s !! name' = Some c → k = k' ∧ name = name';
  inv_fresh c : c ∈ closed s ∪ orphans s → (c < next s)%nat;
  inv_owner k name c : table k s !! name = Some c →
    (∃ i g, gs s !! i = Some g ∧ g_name g = name ∧ held k g = Some c) ∨ k = WaitObtain ∧ c ∈ orphans s;
  inv_excl i j g g' k c :
    gs s !! i = Some g → gs s !! j = Some g' → held k g = Some c → held k g' = Some c → i = j
}.

#[global] Instance wait_kind_eq_dec : EqDecision wait_kind.
Proof. solve_decision. Defined.

Lemma held_set k k' c g : held k (set_held k' c g) = if decide (k = k') then c else held k g.
Proof. by destruct k, k'. Qed.
Lemma held_at k p g : held k (at_pc p g) = held k g.
Proof. by destruct k. Qed.
Lemma name_set k c g : g_name (set_held k c g) = g_name g.
Proof. by destruct k. Qed.
Lemma pc_set k c g : g_pc (set_held k c g) = g_pc g.
Proof. by destruct k. Qed.
Lemma table_set_g k i g s : table k (set_g i g s) = table k s.
Proof. by destruct k. Qed.
Lemma table_orphan k c s : table k (orphan c s) = table k s.
Proof. by destruct k. Qed.
Lemma table_set k k' m s : table k (set_table k' m s) = if decide (k = k') then m else table k s.
Proof. by destruct k, k'. Qed.

Lemma chans_init : inv init.
Proof. split; try (by intros *; destruct k); set_solver. Qed.

(** A goroutine that moves on without entering or leaving. *)
Lemma inv_move i g p s :
  inv s → gs s !! i = Some g → pc_ok (at_pc p g) →
  (∀ k c, p = Waiting k c → (c < next s)%nat ∧ (c ∈ closed s ∨ table k s !! g_name g = Some c)) →
  inv (set_g i (at_pc p g) s).
Proof.
  intros I Hg Hp Hw. destruct (inv_g _ I _ _ Hg) as (Hh & _ & _).
  assert (∀ j g' k c, gs (set_g i (at_pc p g) s) !! j = Some g' → held k g' = Some c →
    ∃ g0, gs s !! j = Some g0 ∧ held k g0 = Some c ∧ g_name g0 = g_name g') as Hback.
  { intros j g' k c. simpl. destruct (decide (j = i)) as [->|Hne].
    - rewrite lookup_insert_eq. intros [= <-]. rewrite held_at. by eauto.
    - rewrite lookup_insert_ne by done. eauto. }
  split.
  - intros j g'. simpl. destruct (decide (j = i)) as [->|Hne].
    + rewrite lookup_insert_eq. intros [= <-]. split_and!; [|exact Hw|done].
      intros k c. rewrite held_at, table_set_g. apply Hh.
    + rewrite lookup_insert_ne by done. intros Hj. destruct (inv_g _ I _ _ Hj) as (H1 & H2 & H3).
      by split_and!; [intros k c; rewrite table_set_g; apply H1|..].
  - intros k. rewrite table_set_g. apply I.
  - intros k k'. rewrite !table_set_g. apply I.
  - apply I.
  - intros k name c. rewrite table_set_g. intros [(j & g' & Hj & Hn & Hc)|?]%(inv_owner _ I); [left|by right].
    simpl. destruct (decide (j = i)) as [->|Hne].
    + exists i, (at_pc p g). rewrite lookup_insert_eq, held_at. simplify_eq. done.
    + exists j, g'. by rewrite lookup_insert_ne.
  - intros j j' g1 g2 k c H1 H2 Hc1 Hc2.
    destruct (Hback _ _ _ _ H1 Hc1) as (? & ? & ? & _), (Hback _ _ _ _ H2 Hc2) as (? & ? & ? & _).
    by eapply inv_excl.
Qed.

Lemma set_g_twice i g g' s : set_g i g (set_g i g' s) = set_g i g s.
Proof. unfold set_g. simpl. by rewrite insert_insert_eq. Qed.

(** A new goroutine that holds nothing. *)
Lemma inv_spawn j g s :
  inv s → gs s !! j = None → (∀ k, held k g = None) → wait_ok s g → pc_ok g → inv (set_g j g s).
Proof.
  intros I Hj Hh Hw Hp.
  assert (∀ j' g' k c, gs (set_g j g s) !! j' = Some g' → held k g' = Some c → gs s !! j' = Some g') as Hback.
  { intros j' g' k c. simpl. intros [[<- <-]|[_ H]]%lookup_insert_Some; [by rewrite Hh|done]. }
  split.
  - intros j' g' Hg. simpl in Hg. apply lookup_insert_Some in Hg as [[<- <-]|[_ Hg]].
    + split_and!; [|done..]. intros k c. by rewrite Hh.
    + destruct (inv_g _ I _ _ Hg) as (H1 & H2 & H3).
      by split_and!; [intros k c; rewrite table_set_g; apply H1|..].
  - intros k. rewrite table_set_g. apply I.
  - intros k k'. rewrite !table_set_g. apply I.
  - apply I.
  - intros k name c. rewrite table_set_g. intros [(j' & g' & Hg & Hn & Hc)|?]%(inv_owner _ I); [left|by right].
    exists j', g'. simpl. rewrite lookup_insert_ne by congruence. done.
  - intros j1 j2 g1 g2 k c H1 H2 Hc1 Hc2. eapply inv_excl; eauto.
Qed.

Lemma enter_spec k name s c s' :
  enter k name s = inr (c, s') →
  c = next s ∧ next s' = S (next s) ∧ closed s' = closed s ∧ orphans s' = orphans s ∧ gs s' = gs s ∧
  table k s !! name = None ∧
  ∀ k' n c', table k' s' !! n = Some c' ↔ k' = k ∧ n = name ∧ c' = next s ∨ table k' s !! n = Some c'.
Proof.
  unfold enter. destruct (table k s !! name) as [|] eqn:Ht; [done|]. intros [= <- <-]. split_and!; try (by destruct k).
  intros k' n c'. rewrite table_set. destruct (decide (k' = k)) as [->|Hk]; [|by destruct k, k'; naive_solver].
  assert (∀ t, table k (Mk (certLoadWaitChans s) (obtainCertWaitChans s) (closed s) t (gs s) (orphans s)) = table k s) as ->
    by (by destruct k).
  rewrite lookup_insert_Some. split; [naive_solver|]. intros [(_ & -> & ->)|H]; [by left|right].
  split; [intros ->; congruence|done].
Qed.

(** Channels that are in use are older than the next one. *)
Lemma held_older i g k c s : inv s → gs s !! i = Some g → held k g = Some c → (c < next s)%nat.
Proof.
  intros I Hg Hc. destruct (inv_g _ I _ _ Hg) as (H & _). apply H in Hc as [Hc _]. by apply (inv_entry _ I) in Hc as [_ ?].
Qed.
Lemma next_unused s : inv s → (next s ∉ closed s) ∧ next s ∉ orphans s.
Proof.
  intros I. split; intros Hin; (assert (next s < next s)%nat; [|lia]); apply (inv_fresh _ I); set_solver.
Qed.

(** [enter] as a whole: goroutine [x], old or new, now holds the new channel. *)
Lemma inv_enter x gx k c s s' :
  inv s → enter k (g_name gx) s = inr (c, s') →
  (∀ g, gs s !! x = Some g → g_name g = g_name gx) →
  (∀ k', held k' gx = if decide (k' = k) then Some c else gs s !! x ≫= held k') →
  pc_ok gx → (∀ k' c', g_pc gx ≠ Waiting k' c') → inv (set_g x gx s').
Proof.
  intros I He Hn Hh Hp Hw. apply enter_spec in He as (-> & Hnx & Hcl & Ho & Hgs & Hnone & Htab).
  destruct (next_unused s I) as [Hnc Hno].
  assert (∀ j g k' c', <[x := gx]> (gs s) !! j = Some g → held k' g = Some c' →
    j = x ∧ g = gx ∧ k' = k ∧ c' = next s ∨
    (c' < next s)%nat ∧ ∃ g0, gs s !! j = Some g0 ∧ held k' g0 = Some c' ∧ g_name g0 = g_name g) as Hback.
  { intros j g k' c' [[<- <-]|[_ Hj]]%lookup_insert_Some Hc; [|right; split; [by eapply held_older|by exists g]].
    rewrite Hh in Hc. destruct (decide (k' = k)) as [->|]; [left; by simplify_eq|right].
    apply bind_Some in Hc as (g0 & H0 & Hc0). split; [by eapply held_older|]. exists g0. auto. }
  split; simpl; rewrite ?Hgs; try (intros k'; rewrite table_set_g).
  - intros j g Hj. split_and!.
    + intros k' c' Hc. rewrite table_set_g. simpl. rewrite Ho, Htab.
      destruct (Hback _ _ _ _ Hj Hc) as [(-> & -> & -> & ->)|(_ & g0 & H0 & Hc0 & <-)]; [split; [by left|done]|].
      destruct (inv_g _ I _ _ H0) as (H & _). apply H in Hc0 as [??]. auto.
    + apply lookup_insert_Some in Hj as [[<- <-]|[_ Hj]]; [by intros k' c' ?%Hw|].
      intros k' c' Hpc. rewrite table_set_g. simpl. rewrite Hnx, Hcl, Htab.
      destruct (inv_g _ I _ _ Hj) as (_ & H & _). apply H in Hpc as [? [?|?]]; auto.
    + apply lookup_insert_Some in Hj as [[<- <-]|[_ Hj]]; [done|by apply (inv_g _ I _ _ Hj)].
  - intros name c' [(-> & -> & ->)|H]%Htab; rewrite Hcl, Hnx; [auto|apply (inv_entry _ I) in H as [? ?]; auto].
  - intros k2 n1 n2 c'. rewrite table_set_g. intros [(-> & -> & ->)|H1]%Htab [(-> & -> & E)|H2]%Htab; try done;
      [apply (inv_entry _ I) in H2 as [_ ?]; lia|subst; apply (inv_entry _ I) in H1 as [_ ?]; lia|by eapply inv_inj].
  - intros c'. rewrite Hcl, Ho, Hnx. intros ?%(inv_fresh _ I). lia.
  - intros name c' [(-> & -> & ->)|H]%Htab; rewrite Ho.
    + left. exists x, gx. rewrite lookup_insert_eq, Hh, decide_True by done. done.
    + apply (inv_owner _ I) in H as [(j & g & Hj & <- & Hc)|?]; [left|by right].
      destruct (decide (j = x)) as [->|]; [|exists j, g; by rewrite lookup_insert_ne].
      exists x, gx. rewrite lookup_insert_eq, Hh, Hj, (Hn _ Hj). simpl. split_and!; [done..|].
      destruct (decide (k' = k)) as [->|]; [|done]. destruct (inv_g _ I _ _ Hj) as (Hk & _).
      apply Hk in Hc as [Hc _]. rewrite (Hn _ Hj) in Hc. congruence.
  - intros j1 j2 g1 g2 k' c' H1 H2 Hc1 Hc2.
    destruct (Hback _ _ _ _ H1 Hc1) as [(-> & _ & _ & ->)|(? & ? & ? & ? & _)],
      (Hback _ _ _ _ H2 Hc2) as [(-> & _ & _ & ?)|(? & ? & ? & ? & _)]; try done; try lia. by eapply inv_excl.
Qed.

(** A goroutine on its way out never closes a closed channel. *)
Lemma leave_Some i g k c s :
  inv s → gs s !! i = Some g → held k g = Some c → is_Some (leave k (g_name g) c s).
Proof.
  intros I Hg Hc. destruct (inv_g _ I _ _ Hg) as (H & _). apply H in Hc as [Hc _].
  apply (inv_entry _ I) in Hc as [Hc _]. unfold leave. by rewrite decide_False.
Qed.

Lemma leave_spec i g k c s s' :
  inv s → gs s !! i = Some g → held k g = Some c → leave k (g_name g) c s = Some s' →
  next s' = next s ∧ closed s' = {[c]} ∪ closed s ∧ orphans s' = orphans s ∧ gs s' = gs s ∧
  ∀ k' n c', table k' s' !! n = Some c' ↔ c' ≠ c ∧ table k' s !! n = Some c'.
Proof.
  intros I Hg Hc Hl. unfold leave in Hl. destruct (decide _) as [|_]; [done|]. injection Hl as <-.
  destruct (inv_g _ I _ _ Hg) as (Hheld & _ & _). destruct (Hheld _ _ Hc) as [Htc _].
  split_and!; try (by destruct k). intros k' n c'. rewrite table_set. destruct (decide (k' = k)) as [->|Hk].
  - assert (∀ cl, table k (Mk (certLoadWaitChans s) (obtainCertWaitChans s) cl (next s) (gs s) (orphans s)) = table k s) as ->
      by (by destruct k).
    rewrite lookup_delete_Some. split; intros [Hne H]; (split; [|done]); [|intros <-; congruence].
    intros ->. by destruct (inv_inj _ I _ _ _ _ _ H Htc) as [_ ->].
  - assert (table k' s !! n = Some c' → c' ≠ c) as Hne.
    { intros H ->. by destruct (inv_inj _ I _ _ _ _ _ H Htc). }
    destruct k, k'; simpl in *; naive_solver.
Qed.

Lemma inv_leave i g k c s s' :
  inv s → gs s !! i = Some g → held k g = Some c → leave k (g_name g) c s = Some s' →
  inv (set_g i (set_held k None (at_pc Return g)) s').
Proof.
  intros I Hg Hc Hl. destruct (inv_g _ I _ _ Hg) as (Hheld & _ & _). destruct (Hheld _ _ Hc) as [Htc _].
  destruct (leave_spec _ _ _ _ _ _ I Hg Hc Hl) as (Hnx & Hcl & Ho & Hgs & Htab). clear Hl.
  assert (∀ j g' k' c', <[i := set_held k None (at_pc Return g)]> (gs s) !! j = Some g' → held k' g' = Some c' →
    c' ≠ c ∧ ∃ g0, gs s !! j = Some g0 ∧ held k' g0 = Some c' ∧ g_name g0 = g_name g') as Hback.
  { intros j g' k' c' [[<- <-]|[Hne Hj]]%lookup_insert_Some Hc'.
    - rewrite held_set, held_at in Hc'. destruct (decide (k' = k)) as [|Hk]; [done|].
      rewrite name_set. split; [|by eauto]. intros ->. apply Hheld in Hc' as [Hc' _].
      by destruct (inv_inj _ I _ _ _ _ _ Hc' Htc).
    - split; [|by eauto]. intros ->. destruct (inv_g _ I _ _ Hj) as (H & _). destruct (H _ _ Hc') as [H' _].
      destruct (inv_inj _ I _ _ _ _ _ H' Htc) as [-> _]. apply Hne. symmetry. by eapply inv_excl. }
  split; simpl; rewrite ?Hgs; try (intros k'; rewrite table_set_g).
  - intros j g' Hj. split_and!.
    + intros k' c' Hc'. destruct (Hback _ _ _ _ Hj Hc') as (Hne & g0 & H0 & Hc0 & <-).
      destruct (inv_g _ I _ _ H0) as (H & _). apply H in Hc0 as [??]. rewrite table_set_g. simpl. rewrite Htab, Ho. auto.
    + apply lookup_insert_Some in Hj as [[<- <-]|[_ Hj]]; [intros k' c'; by rewrite pc_set|].
      intros k' c' Hpc. destruct (inv_g _ I _ _ Hj) as (_ & H & _). rewrite table_set_g. simpl. rewrite Hnx, Hcl, Htab.
      apply H in Hpc as [? [?|?]]; [set_solver|]. split; [done|]. destruct (decide (c' = c)) as [->|]; set_solver.
    + apply lookup_insert_Some in Hj as [[<- <-]|[_ Hj]]; [|by apply (inv_g _ I _ _ Hj)].
      unfold pc_ok. by rewrite pc_set.
  - intros name c' [Hne H]%Htab. apply (inv_entry _ I) in H as [??]. rewrite Hcl, Hnx. set_solver.
  - intros k2 n1 n2 c'. rewrite table_set_g. intros [_ H1]%Htab [_ H2]%Htab. by eapply inv_inj.
  - intros c'. rewrite Hcl, Ho, Hnx. intros Hin. destruct (decide (c' = c)) as [->|]; [by eapply held_older|].
    apply (inv_fresh _ I). set_solver.
  - intros name c' [Hne H]%Htab. rewrite Ho.
    apply (inv_owner _ I) in H as [(j & g' & Hj & Hn & Hc')|?]; [left|by right].
    destruct (decide (j = i)) as [->|]; [|exists j, g'; by rewrite lookup_insert_ne].
    simplify_eq. exists i. eexists. rewrite lookup_insert_eq, name_set, held_set, held_at. split_and!; [done..|].
    destruct (decide (k' = k)) as [->|]; [|done]. congruence.
  - intros j1 j2 g1 g2 k' c' H1 H2 Hc1 Hc2.
    destruct (Hback _ _ _ _ H1 Hc1) as (_ & ? & ? & ? & _), (Hback _ _ _ _ H2 Hc2) as (_ & ? & ? & ? & _).
    by eapply inv_excl.
Qed.

(** A goroutine that ends and orphans the channel it has not closed. *)
Lemma inv_kill i g s :
  inv s → gs s !! i = Some g → g_load g = None →
  inv (orphan (g_obtain g) (set_g i (G (g_name g) Done None None) s)).
Proof.
  intros I Hg Hl. destruct (inv_g _ I _ _ Hg) as (Hheld & _ & _).
  assert (∀ c, c ∈@{gset nat} from_option singleton ∅ (g_obtain g) ↔ g_obtain g = Some c) as Hin.
  { intros c. destruct (g_obtain g); set_solver. }
  assert (∀ j g' k c, <[i := G (g_name g) Done None None]> (gs s) !! j = Some g' → held k g' = Some c →
    j ≠ i ∧ gs s !! j = Some g') as Hback.
  { intros j g' k c [[<- <-]|[Hne Hj]]%lookup_insert_Some Hc; [by destruct k|done]. }
  split.
  - intros j g' Hj. simpl in Hj. split_and!.
    + intros k c Hc. destruct (Hback _ _ _ _ Hj Hc) as [Hne Hj']. rewrite table_orphan, table_set_g. simpl.
      destruct (inv_g _ I _ _ Hj') as (H & _). destruct (H _ _ Hc) as [Ht Ho]. split; [done|].
      rewrite elem_of_union, Hin. intros [Hgo|?]; [|done]. apply Hne. symmetry.
      destruct (Hheld WaitObtain c Hgo) as [Ht' _]. destruct (inv_inj _ I _ _ _ _ _ Ht Ht') as [-> _].
      by eapply (inv_excl _ I i j g g' WaitObtain).
    + apply lookup_insert_Some in Hj as [[<- <-]|[_ Hj]]; [done|].
      intros k c Hpc. rewrite table_orphan, table_set_g. by apply (inv_g _ I _ _ Hj).
    + apply lookup_insert_Some in Hj as [[<- <-]|[_ Hj]]; [done|]. by apply (inv_g _ I _ _ Hj).
  - intros k. rewrite table_orphan, table_set_g. apply I.
  - intros k k'. rewrite !table_orphan, !table_set_g. apply I.
  - intros c. simpl. rewrite !elem_of_union, Hin. intros [?|[Hgo|?]]; [apply I; set_solver| |apply I; set_solver].
    destruct (Hheld WaitObtain c Hgo) as [Ht' _]. by apply (inv_entry _ I) in Ht' as [_ ?].
  - intros k name c. rewrite table_orphan, table_set_g. simpl. rewrite elem_of_union, Hin.
    intros [(j & g' & Hj & Hn & Hc)|[??]]%(inv_owner _ I); [|auto].
    destruct (decide (j = i)) as [->|Hne]; [|left; exists j, g'; by rewrite lookup_insert_ne].
    simplify_eq. right. destruct k; simpl in Hc; [congruence|auto].
  - intros j1 j2 g1 g2 k c H1 H2 Hc1 Hc2. simpl in *.
    apply Hback with (k := k) (c := c) in H1 as [_ H1], H2 as [_ H2]; [|done..]. by eapply inv_excl.
Qed.

Lemma enter_inl k name s c : enter k name s = inl c ↔ table k s !! name = Some c.
Proof. unfold enter. destruct (table k s !! name); naive_solver. Qed.

Lemma enter_gs k name s c s' : enter k name s = inr (c, s') → gs s' = gs s ∧ table k s !! name = None.
Proof. unfold enter. destruct (table k s !! name); [done|]. intros [= _ <-]. by destruct k. Qed.

Lemma inv_enter_self i g k c p s s' :
  inv s → gs s !! i = Some g → enter k (g_name g) s = inr (c, s') →
  ((p = Obtaining ∨ p = Renewing) ∧ k = WaitObtain ∨ k = WaitLoad ∧ g_obtain g = None ∧ ∃ load, p = Loading load) →
  inv (set_g i (set_held k (Some c) (at_pc p g)) s').
Proof.
  intros I Hg He Hp. apply (inv_enter i _ k c s); try done.
  - by rewrite name_set.
  - intros g' Hg'. rewrite name_set. by simplify_eq.
  - intros k'. by rewrite held_set, held_at, Hg.
  - unfold pc_ok. rewrite pc_set. by destruct Hp as [[[->| ->] ->]|(-> & ? & load & ->)]; simpl.
  - intros k' c'. rewrite pc_set. by destruct Hp as [[[->| ->] _]|(-> & ? & load & ->)].
Qed.

Lemma at_Return g : g_pc g = Return → at_pc Return g = g.
Proof. destruct g. by intros [= ->]. Qed.

(** What a waiting goroutine holds itself. *)
Lemma waits_unheld i g k c s :
  inv s → gs s !! i = Some g → g_pc g = Waiting k c → c ∈ closed s → g_obtain g = None.
Proof.
  intros I Hg Hpc Hc. destruct (inv_g _ I _ _ Hg) as (Hh & _ & Hok). unfold pc_ok in Hok. rewrite Hpc in Hok.
  destruct k; [done|]. destruct Hok as [?|Ho]; [done|]. apply (Hh WaitObtain) in Ho as [Ho _].
  by apply (inv_entry _ I) in Ho as [? _].
Qed.

Lemma gstep_inv i g s s' : inv s → gs s !! i = Some g → gstep i g s s' → inv s'.
Proof.
  intros I Hg H. destruct (inv_g _ I _ _ Hg) as (Hh & Hw & Hok). unfold pc_ok in Hok.
  assert (∀ p, (∀ k c, p ≠ Waiting k c) → pc_ok (at_pc p g) → inv (set_g i (at_pc p g) s)) as Hmove.
  { intros p Hnw Hp. apply inv_move; [done..|]. by intros k c ?%Hnw. }
  destruct H; try (by apply Hmove).
  - rewrite H in Hok. apply enter_inl in H0. apply inv_move; try done. intros k c' [= <- <-].
    split; [by apply (inv_entry _ I) in H0 as [_ ?]|by right].
  - rewrite H in Hok. apply (inv_enter_self i g WaitLoad c _ s); [done..|]. right. split_and!; eauto.
  - apply inv_spawn; try done; [apply inv_move; try done|simpl; rewrite lookup_insert_ne; [done|congruence]|by intros []].
    + by apply list_elem_of_In in H1 as [<-|[<-|[]]].
    + intros k c ->. by apply list_elem_of_In in H1 as [?|[?|[]]].
  - apply enter_inl in H1. apply inv_move; try done.
    + simpl. destruct (g_obtain g) as [c'|] eqn:Ho; [|by left]. destruct (Hh WaitObtain c' Ho) as [Ht _].
      right. simpl in *. congruence.
    + intros k c' [= <- <-]. split; [by apply (inv_entry _ I) in H1 as [_ ?]|by right].
  - apply (inv_enter_self i g WaitObtain c _ s); [done..|]. auto.
  - apply (inv_enter_self i g WaitObtain c _ s); [done..|]. auto.
  - pose proof H1 as He. unfold enter in H1. destruct (enter_gs _ _ _ _ _ He) as [Hgs Hnone].
    assert (i ≠ j) as Hij by congruence.
    assert (set_g j (G (g_name g) Renewing None (Some c)) (set_g i (at_pc Return g) s') =
            set_g i (at_pc Return g) (set_g j (G (g_name g) Renewing None (Some c)) s')) as ->.
    { unfold set_g. simpl. by rewrite insert_insert_ne. }
    apply inv_move; [|simpl; by rewrite lookup_insert_ne, Hgs|done..].
    apply (inv_enter j _ WaitObtain c s); try done.
    + intros g' Hg'. congruence.
    + intros []; simpl; [|done]. by rewrite H0.
    + by exists c.
  - apply Hmove; [done|]. simpl. unfold pc_ok. simpl. by eapply waits_unheld.
  - rewrite <-(at_Return g) at 1 by done. by apply (inv_leave i g WaitObtain c s).
  - rewrite <-(at_Return g) at 1 by done. by apply (inv_leave i g WaitLoad c s).
Qed.

Lemma chans_step s s' : inv s → step s s' → inv s'.
Proof.
  intros I [i name Hi|i g s1 Hg H|i g s1 Hg H].
  - apply inv_spawn; try done. by intros [].
  - by eapply gstep_inv.
  - destruct H as [Hd Hl|c s2 Hd Hl Hlv]; [by apply inv_kill|].
    rewrite <-(set_g_twice i _ (set_held WaitLoad None (at_pc Return g))).
    apply (inv_leave i g WaitLoad c s s2) in Hlv; [|done..].
    apply (inv_kill i (set_held WaitLoad None (at_pc Return g))); [done| |done]. simpl. by rewrite lookup_insert_eq.
Qed.

Lemma chans_reachable s : reachable s → inv s.
Proof. intros H. pose proof chans_init as I. induction H; eauto using chans_step. Qed.

(** ** Theorems *)

(** The goroutine is at work on its name: it asks the managers and the storage
    for the certificate, or it obtains or renews it. *)
Definition works (k : wait_kind) (g : handshaking) : bool :=
  match k, g_pc g with
  | WaitLoad, Loading _ | WaitObtain, (Obtaining | Renewing) => true
  | _, _ => false
  end.

(** Who is at work holds the channel for it. *)
Lemma works_holds i g k s : inv s → gs s !! i = Some g → works k g = true → is_Some (held k g).
Proof.
  intros I Hg. destruct (inv_g _ I _ _ Hg) as (_ & _ & Hok). unfold pc_ok in Hok. unfold works.
  destruct k, (g_pc g); try done. by destruct Hok.
Qed.

Lemma one_holder i j g g' k s :
  inv s → gs s !! i = Some g → gs s !! j = Some g' → g_name g = g_name g' →
  is_Some (held k g) → is_Some (held k g') → i = j.
Proof.
  intros I Hi Hj Hn [c Hc] [c' Hc']. destruct (inv_g _ I _ _ Hi) as (H1 & _), (inv_g _ I _ _ Hj) as (H2 & _).
  destruct (H1 _ _ Hc) as [E1 _], (H2 _ _ Hc') as [E2 _]. rewrite Hn in E1. simplify_eq. by eapply inv_excl.
Qed.

(** (C13) A swarm of handshakes for one name makes one goroutine work: in every
    state that any number of concurrent handshakes can reach, background
    renewals and recovered panics included, at most one goroutine is loading
    and at most one is obtaining or renewing the certificate of a name; the
    goroutine at work has its channel in the map, where the others find it, and
    it can unblock them when it is done, without closing a channel twice. *)
Theorem one_worker_per_name s :
  reachable s →
  (∀ i j g g' k, gs s !! i = Some g → gs s !! j = Some g' → g_name g = g_name g' →
     works k g = true → works k g' = true → i = j) ∧
  (∀ i g k, gs s !! i = Some g → works k g = true →
     ∃ c s', enter k (g_name g) s = inl c ∧ held k g = Some c ∧
       leave k (g_name g) c s = Some s' ∧ table k s' !! g_name g = None).
Proof.
  intros I%chans_reachable. split.
  - intros i j g g' k Hi Hj Hn Hw Hw'. by eapply one_holder; eauto using works_holds.
  - intros i g k Hg Hw. destruct (works_holds _ _ _ _ I Hg Hw) as [c Hc].
    destruct (leave_Some _ _ _ _ _ I Hg Hc) as [s' Hs]. exists c, s'.
    split; [apply enter_inl; by apply (inv_g _ I _ _ Hg)|]. split; [done|]. split; [done|].
    unfold leave in Hs. destruct (decide _); [done|]. injection Hs as <-. rewrite table_set, decide_True by done.
    by rewrite lookup_delete_eq.
Qed.

(** Goroutine [i] waits for a channel that [j] is to close. *)
Definition waits_for (s : state) (i j : nat) : Prop :=
  ∃ g g' k c, gs s !! i = Some g ∧ g_pc g = Waiting k c ∧ (c ∉ closed s) ∧
    gs s !! j = Some g' ∧ held k g' = Some c.

(** Goroutine [i] can go on by itself, without a timeout. *)
Definition runs (s : state) (i : nat) : Prop :=
  ∃ g s', gs s !! i = Some g ∧ gstep i g s s' ∧ ∀ k c, g_pc g = Waiting k c → c ∈ closed s.

(** Goroutine [i] waits for a channel of a goroutine that has panicked. *)
Definition abandoned (s : state) (i : nat) : Prop :=
  ∃ g c, gs s !! i = Some g ∧ g_pc g = Waiting WaitObtain c ∧ c ∈ orphans s.

Definition blocked (s : state) (g : handshaking) : Prop := ∃ k c, g_pc g = Waiting k c ∧ c ∉ closed s.

Lemma blocked_or_runs i g s :
  inv s → gs s !! i = Some g → g_pc g ≠ Done → blocked s g ∨ runs s i.
Proof.
  intros I Hg Hd.
  assert (∀ s', gstep i g s s' → (∀ k c, g_pc g = Waiting k c → c ∈ closed s) → runs s i) as Hrun by (by exists g; eauto).
  destruct (g_pc g) as [load|load| | | | | | |k c| |] eqn:Hpc; try done.
  9: { destruct (decide (c ∈ closed s)); [right|left; by exists k, c].
       eapply Hrun; [by eapply wait_closed|]. by intros ? ? [= <- <-]. }
  9: { right. destruct (g_obtain g) as [c|] eqn:Ho.
       - destruct (leave_Some i g WaitObtain c s) as [s' Hs]; [done..|]. eapply Hrun; [by eapply return_unblock|done].
       - destruct (g_load g) as [c|] eqn:Hl; [|eapply Hrun; [by apply return_done|done]].
         destruct (leave_Some i g WaitLoad c s) as [s' Hs]; [done..|]. eapply Hrun; [by eapply return_deferred|done]. }
  all: right; eapply Hrun; [|done].
  - by eapply get_cached.
  - by eapply load_return.
  - by eapply maintain_renew.
  - by eapply renew_not_needed.
  - eapply no_name; [done|]. by left.
  - eapply no_name; [done|]. right. by left.
  - by eapply obtain_failed.
  - by eapply renewed.
Qed.

(** One step along the channels. *)
Lemma blocked_waits i g k c s :
  inv s → gs s !! i = Some g → g_pc g = Waiting k c → c ∉ closed s →
  abandoned s i ∨ ∃ j g', waits_for s i j ∧ gs s !! j = Some g' ∧ held k g' = Some c ∧ g_name g' = g_name g ∧
    (blocked s g' ∨ runs s j).
Proof.
  intros I Hg Hpc Hc. destruct (inv_g _ I _ _ Hg) as (_ & Hw & _). destruct (Hw _ _ Hpc) as [_ [?|Ht]]; [done|].
  destruct (inv_owner _ I _ _ _ Ht) as [(j & g' & Hj & Hn & Hh)|[-> ?]]; [right|left; by exists g, c].
  exists j, g'. split_and!; try done; [by exists g, g', k, c|]. apply blocked_or_runs; try done.
  intros Hd. destruct (inv_g _ I _ _ Hj) as (_ & _ & Hok). unfold pc_ok in Hok. rewrite Hd in Hok.
  destruct Hok as [H1 H2]. destruct k; simpl in Hh; congruence.
Qed.

(** Who waits for a kind of channel that it holds itself waits for itself. *)
Lemma waits_for_own i g k c c' s :
  inv s → gs s !! i = Some g → g_pc g = Waiting k c → c ∉ closed s → held k g = Some c' → waits_for s i i.
Proof.
  intros I Hg Hpc Hc Hh. destruct (inv_g _ I _ _ Hg) as (H & Hw & _).
  destruct (Hw _ _ Hpc) as [_ [?|Ht]], (H _ _ Hh) as [Ht' _]; [done|].
  assert (c' = c) as -> by congruence. by exists g, g, k, c.
Qed.

(** (C14) There are no deadlocks among handshakes but of a goroutine with itself:
    from a goroutine that has not ended, the channels it waits for lead after at
    most two others to one that can go on by itself, to one that waits for a
    channel which it holds itself (it goes on after the timeout), or to one that
    waits for a goroutine which has panicked. *)
Theorem waits_resolve s i g :
  reachable s → gs s !! i = Some g → g_pc g ≠ Done →
  ∃ n j, (n ≤ 2)%nat ∧ nsteps (waits_for s) n i j ∧ (runs s j ∨ waits_for s j j ∨ abandoned s j).
Proof.
  intros I%chans_reachable Hg Hd.
  assert (nsteps (waits_for s) 0 i i) as H0 by constructor.
  destruct (blocked_or_runs i g s I Hg Hd) as [(k & c & Hpc & Hc)|]; [|by exists 0%nat, i; auto].
  destruct (blocked_waits _ _ _ _ _ I Hg Hpc Hc) as [|(j & g' & Hij & Hj & Hh & _ & Hb)]; [exists 0%nat, i; auto|].
  assert (nsteps (waits_for s) 1 i j) as H1 by eauto using nsteps.
  destruct Hb as [(k' & c' & Hpc' & Hc')|]; [|exists 1%nat, j; auto].
  destruct (decide (k' = k)) as [->|Hk]; [exists 1%nat, j; split_and!; [lia|done|right; left; by eapply waits_for_own]|].
  destruct (blocked_waits _ _ _ _ _ I Hj Hpc' Hc') as [|(j2 & g2 & Hj2 & Hg2 & Hh2 & _ & Hb)]; [exists 1%nat, j; auto|].
  exists 2%nat, j2. split_and!; [done|econstructor; eauto using nsteps|].
  destruct Hb as [(k2 & c2 & Hpc2 & Hc2)|]; [|auto]. right. left.
  destruct (inv_g _ I _ _ Hj) as (_ & _ & Hok). unfold pc_ok in Hok. rewrite Hpc' in Hok.
  destruct (inv_g _ I _ _ Hg2) as (_ & _ & Hok2). unfold pc_ok in Hok2. rewrite Hpc2 in Hok2.
  destruct k, k'; simpl in *; try done; [|congruence]. destruct k2; [congruence|]. by eapply waits_for_own.
Qed.

(** The entry of a goroutine that has panicked. *)
Definition stale (name : string) (c : chan) (s : state) : Prop :=
  c ∈ orphans s ∧ obtainCertWaitChans s !! name = Some c.

Lemma stale_enter name c k n c' s s' : stale name c s → enter k n s = inr (c', s') → stale name c s'.
Proof.
  intros [Ho Ht] He. unfold enter in He. destruct (table k s !! n) eqn:Hn; [done|]. injection He as _ <-. destruct k; simpl in *; (split; [done|]); [done|].
  simpl. rewrite lookup_insert_ne; [done|]. intros ->. congruence.
Qed.

Lemma stale_leave name c i g k c' s s' :
  inv s → gs s !! i = Some g → held k g = Some c' → stale name c s → leave k (g_name g) c' s = Some s' →
  stale name c s'.
Proof.
  intros I Hg Hh [Ho Ht] Hl. destruct (inv_g _ I _ _ Hg) as (H & _). destruct (H _ _ Hh) as [Ht' Ho'].
  unfold leave in Hl. destruct (decide _); [done|]. injection Hl as <-.
  destruct k; simpl in *; (split; [done|]); [done|]. simpl. rewrite lookup_delete_ne; [done|]. intros <-. congruence.
Qed.

Lemma stale_step name c s s' : inv s → stale name c s → step s s' → stale name c s'.
Proof.
  intros I Hs [i n Hi|i g s1 Hg H|i g s1 Hg H]; [done| |].
  - destruct H; try exact Hs;
      try match goal with H : enter _ _ _ = inr _ |- _ => exact (stale_enter _ _ _ _ _ _ _ Hs H) end.
    + exact (stale_leave _ _ i g WaitObtain _ _ _ I Hg H0 Hs H1).
    + exact (stale_leave _ _ i g WaitLoad _ _ _ I Hg H1 Hs H2).
  - destruct H as [Hd Hl|c' s2 Hd Hl Hlv]; [|eapply (stale_leave name c i g WaitLoad) in Hlv as [??]; [|done..]];
      (split; [|by try apply Hs]); simpl; [destruct Hs|]; set_solver.
Qed.

Lemma stale_run name c s s' : inv s → stale name c s → rtc step s s' → inv s' ∧ stale name c s'.
Proof. intros I Hs Hrun. induction Hrun; eauto using chans_step, stale_step. Qed.

(** (C40) A panic while a certificate is obtained or renewed blocks its name for
    good: the function that unblocks the others is not deferred, so the channel
    stays in the map, open, in every later state, and no handshake can obtain
    or renew a certificate of this name any more. *)
Theorem panic_blocks_name s s' c name :
  reachable s → c ∈ orphans s → obtainCertWaitChans s !! name = Some c → rtc step s s' →
  enter WaitObtain name s' = inl c ∧ (c ∉ closed s') ∧
  ∀ i g, gs s' !! i = Some g → g_name g = name → g_obtain g = None.
Proof.
  intros I%chans_reachable Ho Ht Hrun.
  destruct (stale_run name c s s') as [I' [Ho' Ht']]; [done..|]. rewrite enter_inl. split_and!; [done| |].
  - by apply (inv_entry _ I' WaitObtain name).
  - intros i g Hg Hn. destruct (g_obtain g) as [c'|] eqn:Hc; [|done].
    destruct (inv_g _ I' _ _ Hg) as (H & _). destruct (H WaitObtain c' Hc) as [H1 H2]. simpl in H1. congruence.
Qed.

(** ** Examples *)

Definition ex_g (p : place) : handshaking := G "a.com" p None None.
Definition entered (k : wait_kind) (i : nat) (p : place) (g : handshaking) (s : state) : state :=
  match enter k (g_name g) s with
  | inr (c, s') => set_g i (set_held k (Some c) (at_pc p g)) s'
  | inl _ => s
  end.

(** Two handshakes: the first loads, finds nothing and obtains; the second waits
    for it. *)
Definition ex_started : state := set_g 1 (ex_g (GetCert true)) (set_g 0 (ex_g (GetCert true)) init).
Definition ex_loading : state := entered WaitLoad 0 (Loading true) (ex_g (GetCert true)) ex_started.
Definition ex_waiting : state := set_g 1 (ex_g (Waiting WaitLoad 0)) ex_loading.
Definition ex_loader (p : place) : handshaking := G "a.com" p (Some 0%nat) None.
Definition ex_obtaining : state :=
  entered WaitObtain 0 Obtaining (ex_loader ObtainOnDemand) (set_g 0 (ex_loader ObtainOnDemand) ex_waiting).

Lemma ex_obtaining_reachable : reachable ex_obtaining.
Proof.
  eapply rtc_l; [exact (handshake_starts init 0 "a.com" eq_refl)|].
  eapply rtc_l; [exact (handshake_starts (set_g 0 (ex_g (GetCert true)) init) 1 "a.com" eq_refl)|].
  eapply rtc_l; [exact (goroutine_steps ex_started 0 (ex_g (GetCert true)) ex_loading eq_refl
    (get_enter 0 (ex_g (GetCert true)) ex_started true _ _ eq_refl eq_refl))|].
  eapply rtc_l; [exact (goroutine_steps ex_loading 1 (ex_g (GetCert true)) ex_waiting eq_refl
    (get_wait 1 (ex_g (GetCert true)) ex_loading true 0 eq_refl eq_refl))|].
  eapply rtc_l; [exact (goroutine_steps ex_waiting 0 (ex_loader (Loading true)) _ eq_refl
    (load_obtain 0 (ex_loader (Loading true)) ex_waiting eq_refl))|].
  eapply rtc_l; [exact (goroutine_steps (set_g 0 (ex_loader ObtainOnDemand) ex_waiting) 0
    (ex_loader ObtainOnDemand) ex_obtaining eq_refl
    (obtain_enter 0 (ex_loader ObtainOnDemand) (set_g 0 (ex_loader ObtainOnDemand) ex_waiting) _ _ eq_refl eq_refl))|].
  apply rtc_refl.
Qed.

(** The first handshake panics. *)
Definition ex_panicked : state :=
  match leave WaitLoad "a.com" 0 ex_obtaining with
  | Some s => orphan (Some 1%nat) (set_g 0 (ex_g Done) s)
  | None => ex_obtaining
  end.

Lemma ex_panicked_reachable : reachable ex_panicked.
Proof.
  eapply rtc_r; [apply ex_obtaining_reachable|].
  exact (goroutine_panics ex_obtaining 0 (G "a.com" Obtaining (Some 0%nat) (Some 1%nat)) ex_panicked eq_refl
    (panic_deferred 0 (G "a.com" Obtaining (Some 0%nat) (Some 1%nat)) ex_obtaining _ _ ltac:(done) eq_refl eq_refl)).
Qed.

(** A later handshake for the same name waits for the first one until it times
    out. *)
Definition ex_later_g (p : place) : handshaking := G "a.com" p (Some 2%nat) None.
Definition ex_later_loading : state :=
  entered WaitLoad 2 (Loading true) (ex_g (GetCert true)) (set_g 2 (ex_g (GetCert true)) ex_panicked).
Definition ex_later : state :=
  set_g 2 (ex_later_g (Waiting WaitObtain 1)) (set_g 2 (ex_later_g ObtainOnDemand) ex_later_loading).

Lemma ex_later_run : rtc step ex_panicked ex_later.
Proof.
  eapply rtc_l; [exact (handshake_starts ex_panicked 2 "a.com" eq_refl)|].
  eapply rtc_l; [exact (goroutine_steps (set_g 2 (ex_g (GetCert true)) ex_panicked) 2
    (ex_g (GetCert true)) ex_later_loading eq_refl
    (get_enter 2 (ex_g (GetCert true)) (set_g 2 (ex_g (GetCert true)) ex_panicked) true _ _ eq_refl eq_refl))|].
  eapply rtc_l; [exact (goroutine_steps ex_later_loading 2 (ex_later_g (Loading true)) _ eq_refl
    (load_obtain 2 (ex_later_g (Loading true)) ex_later_loading eq_refl))|].
  eapply rtc_l; [exact (goroutine_steps (set_g 2 (ex_later_g ObtainOnDemand) ex_later_loading) 2
    (ex_later_g ObtainOnDemand) ex_later eq_refl
    (obtain_wait 2 (ex_later_g ObtainOnDemand) (set_g 2 (ex_later_g ObtainOnDemand) ex_later_loading) ObtainOnDemand 1 eq_refl ltac:(by left) eq_refl))|].
  apply rtc_refl.
Qed.

(** A goroutine that has obtained a certificate maintains it while the others
    wait; when the certificate is due again, or its assets are not found, it
    waits for its own channel. *)
Example obtaining_waits_for_itself :
  let g p := G "a.com" p (Some 0%nat) (Some 1%nat) in
  let s1 := set_g 0 (g RenewIfNecessary) (set_g 0 (g Maintenance) ex_obtaining) in
  let s2 := set_g 0 (g ObtainOnDemand) s1 in
  let s3 := set_g 0 (g (Waiting WaitObtain 1)) s2 in
  rtc step ex_obtaining s3 ∧ waits_for s3 0 0.
Proof.
  intros g s1 s2 s3. split; [|by exists (g (Waiting WaitObtain 1)), (g (Waiting WaitObtain 1)), WaitObtain, 1%nat].
  eapply rtc_l; [exact (goroutine_steps ex_obtaining 0 (g Obtaining) _ eq_refl
    (obtain_loaded 0 (g Obtaining) ex_obtaining eq_refl))|].
  eapply rtc_l; [exact (goroutine_steps (set_g 0 (g Maintenance) ex_obtaining) 0 (g Maintenance) s1 eq_refl
    (maintain_renew 0 (g Maintenance) (set_g 0 (g Maintenance) ex_obtaining) eq_refl))|].
  eapply rtc_l; [exact (goroutine_steps s1 0 (g RenewIfNecessary) s2 eq_refl
    (renew_not_stored 0 (g RenewIfNecessary) s1 eq_refl))|].
  eapply rtc_l; [exact (goroutine_steps s2 0 (g ObtainOnDemand) s3 eq_refl
    (obtain_wait 0 (g ObtainOnDemand) s2 ObtainOnDemand 1 eq_refl ltac:(by left) eq_refl))|].
  apply rtc_refl.
Qed.

Lemma one_worker_per_name_witness :
  works WaitObtain (G "a.com" Obtaining (Some 0%nat) (Some 1%nat)) = true ∧
  (∀ i j g g' k, gs ex_obtaining !! i = Some g → gs ex_obtaining !! j = Some g' → g_name g = g_name g' →
    works k g = true → works k g' = true → i = j) ∧
  ∃ c s', enter WaitObtain "a.com" ex_obtaining = inl c ∧
    held WaitObtain (G "a.com" Obtaining (Some 0%nat) (Some 1%nat)) = Some c ∧
    leave WaitObtain "a.com" c ex_obtaining = Some s' ∧ table WaitObtain s' !! "a.com" = None.
Proof.
  split; [reflexivity|]. split.
  - exact (proj1 (one_worker_per_name ex_obtaining ex_obtaining_reachable)).
  - exact (proj2 (one_worker_per_name ex_obtaining ex_obtaining_reachable) 0%nat
      (G "a.com" Obtaining (Some 0%nat) (Some 1%nat)) WaitObtain eq_refl eq_refl).
Defined.

Lemma waits_resolve_witness :
  gs ex_obtaining !! 1%nat = Some (ex_g (Waiting WaitLoad 0)) ∧
  ∃ n j, (n ≤ 2)%nat ∧ nsteps (waits_for ex_obtaining) n 1 j ∧
    (runs ex_obtaining j ∨ waits_for ex_obtaining j j ∨ abandoned ex_obtaining j).
Proof.
  split; [reflexivity|].
  exact (waits_resolve ex_obtaining 1 (ex_g (Waiting WaitLoad 0)) ex_obtaining_reachable eq_refl ltac:(done)).
Defined.

Lemma panic_blocks_name_witness :
  enter WaitObtain "a.com" ex_later = inl 1%nat ∧ (1%nat ∉ closed ex_later) ∧
  ∀ i g, gs ex_later !! i = Some g → g_name g = "a.com" → g_obtain g = None.
Proof.
  refine (panic_blocks_name ex_panicked ex_later 1 "a.com" ex_panicked_reachable _ eq_refl ex_later_run).
  vm_compute. reflexivity.
Defined.
End WaitChans.
