(* ===== verification/HandshakeSim.v ===== *)
(** * One handshake among many (handshake.go)

    [Handshake] computes what one goroutine does and leaves the others to a
    scheduler; [WaitChans] has all goroutines and leaves open what each of them
    finds. The two describe the same code: when the scheduler lets the other
    goroutines of [WaitChans] run, every run of [Handshake] is a run of the step
    relation, so that the theorems on the relation hold for it. *)

From S2P Require Import Prelude Certificates Cache Storage Crypto OCSP Config Manage Handshake WaitChans.
Import WaitChans.
Open Scope string_scope.

#[global] Instance wait_outcome_eq_dec : EqDecision wait_outcome.
Proof. solve_decision. Defined.

(** Where a goroutine that a handshake starts begins. *)
Definition job_place (j : job) : place :=
  match j with JobRenew _ _ => Renewing | JobUpdateARI _ => RenewIfNecessary end.

(** The goroutines that are new after a step, by where they begin. *)
Definition started (s s' : state) : list place := g_pc <$> (map_to_list (gs s' ∖ gs s)).*2.

(** A step of another goroutine. *)
Definition others (i : nat) (s s' : state) : Prop := step s s' ∧ gs s' !! i = gs s !! i.

(** The runs of goroutine [i]: its own steps, with the goroutines they start,
    and while it waits the steps of the others. *)
Inductive run (i : nat) (s : state) : list place → state → Prop :=
| run_start : run i s [] s
| run_own ps g s1 s2 :
    run i s ps s1 → gs s1 !! i = Some g → gstep i g s1 s2 → run i s (ps ++ started s1 s2)%list s2
| run_other ps g k c s1 s2 :
    run i s ps s1 → gs s1 !! i = Some g → g_pc g = Waiting k c → others i s1 s2 → run i s ps s2.

Lemma run_steps i s ps s' : run i s ps s' → rtc step s s'.
Proof.
  induction 1 as [|ps g s1 s2 _ IH Hg Hs|ps g k c s1 s2 _ IH Hg Hk [Hs _]]; [apply rtc_refl|..];
    (eapply rtc_r; [exact IH|]); [by eapply goroutine_steps|done].
Qed.

Lemma started_none s s' : dom (gs s') ⊆ dom (gs s) → started s s' = [].
Proof.
  intros Hd. unfold started. assert (gs s' ∖ gs s = ∅) as ->; [|by rewrite map_to_list_empty].
  apply map_eq. intros j. rewrite lookup_empty, lookup_difference.
  destruct (gs s !! j) eqn:Hj; [done|]. apply not_elem_of_dom. apply not_elem_of_dom in Hj. set_solver.
Qed.

Lemma started_one s s' i j g g' :
  is_Some (gs s !! i) → gs s !! j = None → gs s' = <[j := g']> (<[i := g]> (gs s)) → started s s' = [g_pc g'].
Proof.
  intros Hi Hj Hs. unfold started. assert (gs s' ∖ gs s = {[j := g']}) as ->; [|by rewrite map_to_list_singleton].
  apply map_eq. intros x. rewrite lookup_difference, Hs. destruct (decide (x = j)) as [->|Hx].
  - by rewrite Hj, lookup_insert_eq, lookup_singleton_eq.
  - rewrite lookup_singleton_ne, lookup_insert_ne by done. destruct (gs s !! x) eqn:Ex; [done|].
    rewrite lookup_insert_ne; [done|]. intros ->. rewrite Ex in Hi. by destruct Hi.
Qed.

Section simulation.
Context {St E N : Type} `{C : !Codec} `{!Storage St} `{X : !External St E} `{!OCSPNet N} `{TL : !TLSLib E}.
Context (ari_NeedsRefresh : Time → RenewalInfo → bool).
Context (wait : wait_kind → string → ST (HState St E N) wait_outcome).
Context (cfg : Config) (hello : ClientHelloInfo).

(** The goroutine, and the name of its client hello. *)
Context (i : nat) (name : string).
Implicit Types (h : HState St E N) (s : state).

(** What is known of the goroutines, as much as the scheduler needs. *)
Context (env : state → Prop).

(** The sets of names of a [HState] are the keys of the maps. *)
Definition tables (s : state) (h : HState St E N) : Prop :=
  h_loadWait h = dom (certLoadWaitChans s) ∧ h_obtainWait h = dom (obtainCertWaitChans s).

(** The state in which the handshake starts, with the jobs of before. *)
Context (s0 : state) (jobs0 : list job).

(** A run from the start to [s], in which the goroutines of the new jobs were
    started. *)
Definition came h s : Prop :=
  ∃ js, h_jobs h = (jobs0 ++ js)%list ∧ run i s0 (job_place <$> js) s.

(** The goroutine is at [p] and holds the channels [l] and [o]. *)
Definition here (p : place) (l o : option nat) h s : Prop :=
  inv s ∧ env s ∧ tables s h ∧ gs s !! i = Some (G name p l o) ∧ came h s.

(** How a call returns: with the channels it had, or, when it has panicked,
    still in its run, or at the end of it when the deferred function has run. *)
Definition goes (l o : option nat) h' : Prop := ∃ s', here Return l o h' s'.
Definition dead h' : Prop :=
  ∃ js s1 g s', h_jobs h' = (jobs0 ++ js)%list ∧ run i s0 (job_place <$> js) s1 ∧
    gs s1 !! i = Some g ∧ panics i g s1 s' ∧ tables s' h'.
Definition unwinds (l : option nat) h' : Prop :=
  (∃ p o s', p ≠ Done ∧ here p l o h' s') ∨ l = None ∧ dead h'.
Definition ends (r : Certificate * option error) (l o : option nat) h' : Prop :=
  if panicked r then unwinds l h' else goes l o h'.

(** A computation that starts at [p] is a run. *)
Definition follows (p : place) (m : ST (HState St E N) (Certificate * option error)) : Prop :=
  ∀ l o h r h' s, here p l o h s → m h = (r, h') → ends r l o h'.

(** What the scheduler does: while this goroutine waits the others take steps,
    and the wait ends as closed only when the channel is closed. Steps of this
    goroutine do not change what the scheduler relies on. *)
Class Scheduler := {
  env_step g s s' : inv s → env s → gs s !! i = Some g → gstep i g s s' → env s';
  env_wait k c l o h r h' s :
    inv s → env s → tables s h → gs s !! i = Some (G name (Waiting k c) l o) →
    wait k name h = (r, h') →
    ∃ s', rtc (others i) s s' ∧ env s' ∧ tables s' h' ∧ h_jobs h' = h_jobs h ∧
      (r = WaitClosed → c ∈ closed s')
}.
Context `{Hsched : !Scheduler}.

Lemma came_step g h s s1 :
  came h s → gs s !! i = Some g → gstep i g s s1 → dom (gs s1) ⊆ dom (gs s) → came h s1.
Proof.
  intros (js & Hj & Hr) Hg Hs Hd. exists js. split; [done|].
  pose proof (run_own i s0 _ _ _ _ Hr Hg Hs) as H. by rewrite started_none, app_nil_r in H.
Qed.

Lemma here_move q p l o h s :
  here p l o h s → gstep i (G name p l o) s (set_g i (G name q l o) s) →
  here q l o h (set_g i (G name q l o) s).
Proof.
  intros (I & Hv & HT & Hg & Hc) Hs. split_and!; [by eapply gstep_inv|by eapply env_step|done| |].
  - simpl. by rewrite lookup_insert_eq.
  - eapply came_step; [done..|]. simpl. rewrite dom_insert_L. apply elem_of_dom_2 in Hg. set_solver.
Qed.

Lemma via q p l o h s (P : Prop) :
  here p l o h s → gstep i (G name p l o) s (set_g i (G name q l o) s) →
  (∀ s1, here q l o h s1 → P) → P.
Proof. intros Hh Hs HP. eapply HP, here_move; [exact Hh|exact Hs]. Qed.

Lemma ends_return r p l o h s :
  here p l o h s → p ≠ Done → (panicked r = false → here Return l o h (set_g i (G name Return l o) s)) → ends r l o h.
Proof.
  intros Hh Hp HR. unfold ends. destruct (panicked r); [left; by exists p, o, s|]. eexists. by apply HR.
Qed.

(** Returning at once. *)
Lemma ends_at r p l o h s :
  here p l o h s → p ≠ Done → gstep i (G name p l o) s (set_g i (G name Return l o) s) → ends r l o h.
Proof. intros Hh Hp Hs. eapply ends_return; [done|done|]. intros _. by eapply here_move. Qed.

Lemma came_jobs h h' s : h_jobs h' = h_jobs h → came h s → came h' s.
Proof. intros Hj (js & Hjs & Hr). exists js. split; [congruence|done]. Qed.

Lemma here_on_m {A} (f : ST (MState St E N) A) p l o h r h' s :
  on_m f h = (r, h') → here p l o h s → here p l o h' s.
Proof. unfold on_m. destruct (f _). intros [= _ <-] (I & Hv & [T1 T2] & Hg & Hc). by split_and!. Qed.

(** ** Entering and leaving *)

Lemma enter_self k q h s p l o :
  here p l o h s → name ∉ (match k with WaitLoad => h_loadWait h | WaitObtain => h_obtainWait h end) →
  (∀ c s', enter k name s = inr (c, s') →
     gstep i (G name p l o) s (set_g i (set_held k (Some c) (at_pc q (G name p l o))) s')) →
  held k (G name p l o) = None ∧
  ∃ c s1,
    here q (match k with WaitLoad => Some c | WaitObtain => l end) (match k with WaitLoad => o | WaitObtain => Some c end)
      (match k with
       | WaitLoad => set_loadWait ({[name]} ∪ h_loadWait h) h
       | WaitObtain => set_obtainWait ({[name]} ∪ h_obtainWait h) h
       end) s1.
Proof.
  intros (I & Hv & [T1 T2] & Hg & Hc) Hn Hs.
  assert (table k s !! name = None) as Ht.
  { apply not_elem_of_dom. destruct k; simpl; congruence. }
  destruct (enter k name s) as [c|[c s']] eqn:He; [apply enter_inl in He; congruence|].
  specialize (Hs _ _ eq_refl). split.
  { destruct (held k _) as [c'|] eqn:Hh; [|done]. destruct (inv_g _ I _ _ Hg) as (H & _).
    apply H in Hh as [Hh _]. simpl in Hh. congruence. }
  eexists c, _. split_and!; [by eapply gstep_inv|by eapply env_step| | |].
  - unfold enter in He. rewrite Ht in He. injection He as <- <-.
    destruct k; split; simpl in *; rewrite ?dom_insert_L; congruence.
  - simpl. rewrite lookup_insert_eq. by destruct k.
  - eapply (came_jobs h); [by destruct k|]. eapply came_step; [done|done|exact Hs|]. simpl.
    rewrite dom_insert_L. apply enter_gs in He as [-> _]. apply elem_of_dom_2 in Hg. set_solver.
Qed.

(** A goroutine is started with a job. *)
Lemma came_spawn j q g g' h s s1 :
  came h s → gs s !! i = Some g → gstep i g s s1 →
  (∃ x gi, gs s !! x = None ∧ gs s1 = <[x := g']> (<[i := gi]> (gs s))) → g_pc g' = q → job_place j = q →
  came (spawn j h) s1.
Proof.
  intros (js & Hj & Hr) Hg Hs (x & gi & Hx & Hgs) <- Hp. exists (js ++ [j])%list.
  split; [simpl; by rewrite Hj, app_assoc|]. rewrite fmap_app.
  pose proof (run_own i s0 _ _ _ _ Hr Hg Hs) as H.
  rewrite (started_one s s1 i x gi g') in H; [by rewrite <-Hp in H|by rewrite Hg|done|done].
Qed.

(** The channel goes to a new goroutine, which renews in the background. *)
Lemma enter_background cert l o h s :
  here RenewDynamic l o h s → name ∉ h_obtainWait h →
  goes l o (spawn (JobRenew name cert) (set_obtainWait ({[name]} ∪ h_obtainWait h) h)).
Proof.
  intros (I & Hv & [T1 T2] & Hg & Hc) Hn. assert (obtainCertWaitChans s !! name = None) as Ht.
  { apply not_elem_of_dom. congruence. }
  set (j := fresh (dom (gs s))). assert (gs s !! j = None) as Hj by apply not_elem_of_dom, is_fresh.
  destruct (enter WaitObtain name s) as [c|[c s']] eqn:He; [apply enter_inl in He; simpl in He; congruence|].
  assert (gstep i (G name RenewDynamic l o) s
    (set_g j (G name Renewing None (Some c)) (set_g i (G name Return l o) s'))) as Hgs.
  { by eapply (renew_background i (G name RenewDynamic l o) s j c s'). }
  pose proof (enter_gs _ _ _ _ _ He) as [Egs _].
  eexists. split_and!; [by eapply gstep_inv|by eapply env_step| | |].
  - unfold enter in He. simpl in He. rewrite Ht in He. injection He as <- <-. split; simpl; [done|].
    by rewrite dom_insert_L, T2.
  - simpl. rewrite lookup_insert_ne by congruence. by rewrite lookup_insert_eq.
  - eapply (came_spawn _ Renewing _ (G name Renewing None (Some c))); [|done|exact Hgs| |done|done].
    + by eapply came_jobs.
    + eexists j, _. split; [done|]. simpl. by rewrite Egs.
Qed.

Lemma leave_obtain l c h s :
  here Return l (Some c) h s → goes l None (set_obtainWait (h_obtainWait h ∖ {[name]}) h).
Proof.
  intros (I & Hv & [T1 T2] & Hg & Hc). destruct (leave_Some i _ WaitObtain c s I Hg eq_refl) as [s' Hl].
  assert (gstep i (G name Return l (Some c)) s (set_g i (G name Return l None) s')) as Hgs by (by eapply (return_unblock i (G name Return l (Some c)) s c s')).
  unfold leave in Hl. destruct (decide _); [done|]. injection Hl as <-.
  eexists. split_and!; [by eapply gstep_inv|by eapply env_step| |simpl; by rewrite lookup_insert_eq|].
  - split; simpl; [done|]. by rewrite dom_delete_L, T2.
  - eapply (came_jobs h); [done|]. eapply came_step; [done|done|exact Hgs|]. simpl.
    rewrite dom_insert_L. apply elem_of_dom_2 in Hg. set_solver.
Qed.

Lemma leave_load c h s :
  here Return (Some c) None h s → goes None None (set_loadWait (h_loadWait h ∖ {[name]}) h).
Proof.
  intros (I & Hv & [T1 T2] & Hg & Hc). destruct (leave_Some i _ WaitLoad c s I Hg eq_refl) as [s' Hl].
  assert (gstep i (G name Return (Some c) None) s (set_g i (G name Return None None) s')) as Hgs by (by eapply (return_deferred i (G name Return (Some c) None) s c s')).
  unfold leave in Hl. destruct (decide _); [done|]. injection Hl as <-.
  eexists. split_and!; [by eapply gstep_inv|by eapply env_step| |simpl; by rewrite lookup_insert_eq|].
  - split; simpl; [|done]. by rewrite dom_delete_L, T1.
  - eapply (came_jobs h); [done|]. eapply came_step; [done|done|exact Hgs|]. simpl.
    rewrite dom_insert_L. apply elem_of_dom_2 in Hg. set_solver.
Qed.

(** A panic reaches the function that has entered the first map. *)
Lemma panic_load p c o h s :
  here p (Some c) o h s → p ≠ Done → dead (set_loadWait (h_loadWait h ∖ {[name]}) h).
Proof.
  intros (I & Hv & [T1 T2] & Hg & js & Hj & Hr) Hp.
  destruct (leave_Some i _ WaitLoad c s I Hg eq_refl) as [s' Hl].
  eexists js, s, _, _. split; [exact Hj|]. split; [exact Hr|]. split; [exact Hg|].
  split; [by eapply (panic_deferred i (G name p (Some c) o) s c s')|].
  unfold leave in Hl. destruct (decide _); [done|]. injection Hl as <-. split; simpl; [|done].
  by rewrite dom_delete_L, T1.
Qed.

Lemma in_table k h s :
  tables s h → name ∈ (match k with WaitLoad => h_loadWait h | WaitObtain => h_obtainWait h end) →
  ∃ c, enter k name s = inl c.
Proof.
  intros [T1 T2] Hn. destruct (table k s !! name) as [c|] eqn:Ht; [exists c; by apply enter_inl|].
  apply not_elem_of_dom in Ht. destruct k; simpl in *; congruence.
Qed.

(** ** The methods *)

(** The goroutine goes by the name that the methods compute. *)
Definition named : Prop := ∀ n, getNameFromClientHello cfg hello = Ok n → n = name.
Hypothesis Hname : named.

Lemma here_others k c l o h h1 s s1 :
  here (Waiting k c) l o h s → rtc (others i) s s1 → env s1 → tables s1 h1 → h_jobs h1 = h_jobs h →
  here (Waiting k c) l o h1 s1.
Proof.
  intros (I & _ & _ & Hg & Hc) Hrun Hv HT Hj.
  assert (inv s1 ∧ gs s1 !! i = Some (G name (Waiting k c) l o) ∧ came h s1) as (I1 & Hg1 & Hc1).
  { clear HT Hv Hj. induction Hrun as [|s2 s3 s4 H23 _ IH]; [done|]. destruct H23 as [Hst He].
    apply IH; [by eapply chans_step|by rewrite He|]. destruct Hc as (js & Hj & Hr). exists js. split; [done|].
    by eapply run_other. }
  split_and!; try done. by eapply came_jobs.
Qed.

(** A wait, and the lookup after it. *)
Lemma waits_then (rec : hs_call → ST (HState St E N) (Certificate * option error)) k l o h r h' s c res h1 :
  follows (GetCert false) (rec CallGetCert) →
  here (Waiting k c) l o h s → wait k name h = (r, h1) →
  (r = WaitClosed → rec CallGetCert h1 = (res, h')) → (r ≠ WaitClosed → h' = h1) → ends res l o h'.
Proof using All.
  intros Hrec Hh Hw Hc Ht. pose proof Hh as (I & Hv & HT & Hg & _).
  destruct (env_wait _ _ _ _ _ _ _ _ I Hv HT Hg Hw) as (s1 & Hrun & Hv1 & HT1 & Hj & Hcl).
  pose proof (here_others _ _ _ _ _ _ _ _ Hh Hrun Hv1 HT1 Hj) as H1.
  destruct (decide (r = WaitClosed)) as [->|Hr].
  - eapply (via (GetCert false)); [exact H1|by eapply (wait_closed i (G name (Waiting k c) l o)); auto|].
    intros s2 H2. by eapply Hrec; [|auto].
  - rewrite (Ht Hr). eapply ends_at; [exact H1|done|by eapply (wait_timeout i (G name (Waiting k c) l o))].
Qed.

Section methods.
Context (rec : hs_call → ST (HState St E N) (Certificate * option error)).
Hypothesis rec_get : follows (GetCert false) (rec CallGetCert).
Hypothesis rec_maintain : ∀ cert, follows Maintenance (rec (CallMaintain cert)).

(** From the load in [getCertDuringHandshake] and from [obtainOnDemandCertificate]:
    an error comes before the maintenance, a panic may come from it. *)
Lemma loadCertFromStorage_follows p l o h cert err h' s :
  p = Loading true ∨ p = Obtaining → here p l o h s →
  loadCertFromStorage cfg hello rec h = ((cert, err), h') →
  match err with
  | Some e => if is_panic e then unwinds l h' else ∃ s', here p l o h' s'
  | None => goes l o h'
  end.
Proof using All.
  intros Hp Hh. unfold loadCertFromStorage.
  assert (∀ e h1, here p l o h1 s → if is_panic e then unwinds l h1 else ∃ s', here p l o h1 s') as Hstay.
  { intros e h1 H1. destruct (is_panic e); [left; exists p, o, s; by destruct Hp as [->| ->]|by exists s]. }
  destruct (getNameFromClientHello cfg hello) as [n|e]; [|intros [= _ <- <-]; by apply Hstay].
  destruct (on_m (CacheManagedCertificate cfg n) h) as [r1 h1] eqn:E1. apply (here_on_m _ _ _ _ _ _ _ _ E1) in Hh.
  destruct (match r1 with Ok _ => (r1, h1) | Err e => _ end) as [r2 h2] eqn:E2.
  assert (here p l o h2 s) as Hh2.
  { destruct r1 as [c|e]; [by injection E2 as _ <-|]. destruct (errors_Is e ErrNotExist); [|by injection E2 as _ <-].
    by apply (here_on_m _ _ _ _ _ _ _ _ E2) in Hh. }
  destruct r2 as [loaded|e]; [|intros [= _ <- <-]; by apply Hstay].
  destruct (rec (CallMaintain loaded) h2) as [res h3] eqn:E3. intros Hres.
  assert (ends res l o h3) as He.
  { eapply (via Maintenance); [exact Hh2| |intros s1 H1; by eapply rec_maintain].
    destruct Hp as [->| ->]; [by apply load_storage|by apply obtain_loaded]. }
  unfold ends in He. destruct (panicked res) eqn:Ep; [|by injection Hres as _ <- <-].
  injection Hres as -> <-. unfold panicked in Ep. simpl in Ep. destruct err; [by rewrite Ep|done].
Qed.

Lemma obtainOnDemandCertificate_follows : follows ObtainOnDemand (obtainOnDemandCertificate wait cfg hello rec).
Proof using All.
  intros l o h r h' s Hh. unfold obtainOnDemandCertificate.
  destruct (getNameFromClientHello cfg hello) as [n|e] eqn:En.
  2: { intros [= _ <-]. eapply ends_at; [exact Hh|done|eapply no_name; [done|by left]]. }
  assert (n = name) as -> by (by apply Hname). destruct (decide (name ∈ h_obtainWait h)) as [Hin|Hin].
  - destruct (in_table WaitObtain h s) as [c Hc]; [apply Hh|done|].
    destruct (wait WaitObtain name h) as [ro h1] eqn:Ew. intros Hr.
    eapply (via (Waiting WaitObtain c)); [exact Hh|by eapply obtain_wait; [|left|]|].
    intros s1 H1. eapply (waits_then rec); [done|done|exact Ew|by intros ->|]. intros Hne. by destruct ro; simplify_eq.
  - destruct (enter_self WaitObtain Obtaining h s ObtainOnDemand l o) as (Ho & c & s1 & H1);
      [done|done|intros c s' He; by eapply obtain_enter|]. simpl in Ho. subst o. set (h1 := set_obtainWait _ _) in *.
    destruct (on_m (on_world (ObtainCertAsync cfg name)) h1) as [ra h2] eqn:E2. apply (here_on_m _ _ _ _ _ _ _ _ E2) in H1.
    destruct (match ra with Ok _ => _ | Err _ => _ end) as [res h3] eqn:E3.
    assert (ends res l (Some c) h3) as He.
    { destruct ra as [u|e]; [|injection E3 as _ <-; eapply ends_at; [exact H1|done|by apply obtain_failed]].
      destruct res as [cert err].
      apply (loadCertFromStorage_follows Obtaining l (Some c) _ _ _ _ s1) in E3; [|by right|done].
      unfold ends, panicked. simpl. destruct err as [e|]; [|done]. destruct (is_panic e); [done|].
      destruct E3 as (s2 & H2). eapply (via Return); [exact H2|by apply obtain_failed|]. intros s3 H3. by exists s3. }
    intros [= <- <-]. unfold ends in *. destruct (panicked res); [done|].
    destruct He as (s2 & H2). by eapply leave_obtain.
Qed.

(** [renewAndReload] ends by unblocking the waiters, unless it panics. *)
Lemma renewAndReload_unblocks cert h r h' :
  renewAndReload cfg name cert h = (r, h') →
  ∃ h1, (h' = set_obtainWait (h_obtainWait h1 ∖ {[name]}) h1 ∨ panicked r = true ∧ h' = h1) ∧
    ∀ p l o s, here p l o h s → here p l o h1 s.
Proof.
  unfold renewAndReload. destruct (checkIfCertShouldBeObtained cfg name true) as [u|e].
  - match goal with |- context [if is_revoked cert then ?a else ?b] =>
      destruct (if is_revoked cert then a else b) as [res h1] eqn:E1 end.
    intros [= <- <-]. exists h1. split; [destruct (panicked res); auto|]. intros p l o s Hh.
    destruct (is_revoked cert); [by eapply here_on_m|].
    destruct (on_m (on_world (RenewCertAsync cfg name false)) h) as [[u1|e1] h2] eqn:E2;
      [|injection E1 as _ <-; by eapply here_on_m].
    apply (here_on_m _ _ _ _ _ _ _ _ E2) in Hh.
    destruct (on_m (reloadManagedCertificate cfg cert) h2) as [[c2|e2] h3] eqn:E3; injection E1 as _ <-; by eapply here_on_m.
  - destruct (on_m (on_cache (λ _, removeCertificate cert)) h) as [r1 h1] eqn:E1. intros [= _ <-]. eauto using here_on_m.
Qed.

Lemma renewDynamicCertificate_follows cert : follows RenewDynamic (renewDynamicCertificate wait cfg hello rec cert).
Proof using All.
  intros l o h r h' s Hh. unfold renewDynamicCertificate.
  destruct (getNameFromClientHello cfg hello) as [n|e] eqn:En.
  2: { intros [= _ <-]. eapply ends_at; [exact Hh|done|eapply no_name; [done|by right; left]]. }
  assert (n = name) as -> by (by apply Hname). destruct (decide (name ∈ h_obtainWait h)) as [Hin|Hin].
  - destruct (in_table WaitObtain h s) as [c Hc]; [apply Hh|done|]. destruct (_ && _).
    { intros [= _ <-]. eapply ends_at; [exact Hh|done|by eapply renew_serve_current]. }
    destruct (wait WaitObtain name h) as [ro h1] eqn:Ew. intros Hr.
    eapply (via (Waiting WaitObtain c)); [exact Hh|by eapply obtain_wait; [|right; left|]|].
    intros s1 H1. eapply (waits_then rec); [done|done|exact Ew|by intros ->|]. intros Hne. by destruct ro; simplify_eq.
  - destruct (0 <? _)%Z.
    + intros [= <- <-]. by eapply enter_background.
    + destruct (enter_self WaitObtain Renewing h s RenewDynamic l o) as (Ho & c & s1 & H1);
        [done|done|intros c s' He; by eapply renew_enter|]. simpl in Ho. subst o.
      intros (h1 & Hh' & Hh1)%renewAndReload_unblocks. apply Hh1 in H1. unfold ends.
      destruct (panicked r) eqn:Ep.
      { left. destruct Hh' as [->|[_ ->]]; [|by exists Renewing, (Some c), s1].
        eapply (via Return); [exact H1|by apply renewed|]. intros s2 H2.
        destruct (leave_obtain l c h1 s2 H2) as (s3 & H3). by exists Return, None, s3. }
      destruct Hh' as [->|[? _]]; [|done].
      eapply (via Return); [exact H1|by apply renewed|]. intros s2 H2. by eapply leave_obtain.
Qed.

Lemma renewIfNecessary_follows cert : follows RenewIfNecessary (renewIfNecessary wait cfg hello rec cert).
Proof using All.
  intros l o h r h' s Hh. unfold renewIfNecessary.
  assert (∀ r, ends r l o h) as Hret.
  { intros r'. eapply ends_at; [exact Hh|done|by apply renew_not_needed]. }
  destruct (Leaf cert); [|by intros [= _ <-]]. destruct (certNeedsRenewal _ _ _ _ _) as [[]|]; try by intros [= _ <-].
  destruct (firstName cert) as [n0|]; [|by intros [= _ <-]]. destruct (negb _); intros Hr.
  - eapply (via ObtainOnDemand); [exact Hh|by apply renew_not_stored|]. intros s1 H1.
    by eapply obtainOnDemandCertificate_follows.
  - eapply (via RenewDynamic); [exact Hh|by apply renew_needed|]. intros s1 H1.
    by eapply renewDynamicCertificate_follows.
Qed.

Lemma here_refresh_staple cert h cert' h' p l o s :
  refresh_staple cfg cert h = (cert', h') → here p l o h s → here p l o h' s.
Proof.
  unfold refresh_staple. destruct (ocsp cert) as [oc|]; [|by intros [= _ <-]].
  destruct (negb _); [|by intros [= _ <-]].
  destruct (on_m (on_ocsp _) h) as [[r1 c1] h1] eqn:E1. destruct (on_m (on_cache _) h1) as [r2 h2] eqn:E2.
  intros [= _ <-] Hh. eapply here_on_m; [exact E2|]. by eapply here_on_m.
Qed.

(** The maintenance may start the goroutine that updates ARI. *)
Lemma maintain_then q cert (b : bool) l o h s (P : Prop) :
  q ∈ [RenewDynamic; RenewIfNecessary] → here Maintenance l o h s →
  (∀ s1, here q l o (if b then spawn (JobUpdateARI cert) h else h) s1 → P) → P.
Proof.
  intros Hq Hh Hk. destruct b.
  - destruct Hh as (I & Hv & HT & Hg & Hc). set (j := fresh (dom (gs s))).
    assert (gs s !! j = None) as Hj by apply not_elem_of_dom, is_fresh.
    assert (gstep i (G name Maintenance l o) s
      (set_g j (G name RenewIfNecessary None None) (set_g i (G name q l o) s))) as Hgs.
    { by eapply (maintain_ari i (G name Maintenance l o) s j q). }
    apply (Hk (set_g j (G name RenewIfNecessary None None) (set_g i (G name q l o) s))).
    split_and!; [by eapply gstep_inv|by eapply env_step|done| |].
    + simpl. rewrite lookup_insert_ne by congruence. by rewrite lookup_insert_eq.
    + eapply (came_spawn _ RenewIfNecessary _ (G name RenewIfNecessary None None)); [done|exact Hg|exact Hgs| |done|done]. by eexists j, _.
  - eapply (via q); [exact Hh| |done].
    apply list_elem_of_In in Hq as [<-|[<-|[]]]; [by apply maintain_revoked|by apply maintain_renew].
Qed.

Lemma handshakeMaintenance_follows cert :
  follows Maintenance (handshakeMaintenance ari_NeedsRefresh wait cfg hello rec cert).
Proof using All.
  intros l o h r h' s Hh. unfold handshakeMaintenance.
  destruct (refresh_staple cfg cert h) as [cert1 h1] eqn:E1. apply (here_refresh_staple _ _ _ _ _ _ _ _ E1) in Hh.
  set (refresh := _ && _).
  assert (∀ b : bool,
    (if certShouldBeForceRenewed cert1
     then renewDynamicCertificate wait cfg hello rec cert1 (if b then spawn (JobUpdateARI cert1) h1 else h1)
     else renewIfNecessary wait cfg hello rec cert1 (if b then spawn (JobUpdateARI cert1) h1 else h1)) = (r, h') →
    ends r l o h') as Hb.
  { intros b. destruct (certShouldBeForceRenewed cert1); intros Hr.
    - eapply (maintain_then RenewDynamic cert1 b); [by left|exact Hh|].
      intros s1 H1. by eapply renewDynamicCertificate_follows.
    - eapply (maintain_then RenewIfNecessary cert1 b); [by right; left|exact Hh|].
      intros s1 H1. by eapply renewIfNecessary_follows. }
  destruct (Leaf cert1); [apply Hb|]. destruct refresh; [|apply (Hb false)].
  intros [= <- <-]. left. by exists Maintenance, o, s.
Qed.

Lemma getCert_load_follows cert defaulted load n l o h r h' s :
  here (Loading load) l o h s → getCert_load wait cfg hello rec n cert defaulted load h = (r, h') → ends r l o h'.
Proof using All.
  intros Hh. unfold getCert_load.
  assert (∀ r, ends r l o h) as Hret.
  { intros r'. eapply ends_at; [exact Hh|done|by eapply load_return]. }
  destruct (getCertFromAnyCertManager cfg hello) as [ext|e]; [|by intros [= _ <-]].
  destruct (negb (Empty ext)); [by intros [= _ <-]|].
  destruct (checkIfCertShouldBeObtained cfg n false) as [u|e]; [|by intros [= _ <-]].
  destruct (_ && load) eqn:El; [|destruct defaulted; by intros [= _ <-]].
  apply andb_true_iff in El as [_ ->].
  destruct (loadCertFromStorage cfg hello rec h) as [[loaded err] h1] eqn:E1.
  apply (loadCertFromStorage_follows (Loading true) l o _ _ _ _ s) in E1; [|by left|done].
  destruct err as [e|]; [|by intros [= <- <-]].
  destruct (is_panic e) eqn:Ep; [intros [= <- <-]; unfold ends, panicked; simpl; by rewrite Ep|].
  destruct E1 as (s1 & H1). destruct (match OnDemand cfg with Some _ => true | None => false end).
  - intros Hr. eapply (via ObtainOnDemand); [exact H1|by apply load_obtain|]. intros s2 H2.
    by eapply obtainOnDemandCertificate_follows.
  - intros [= <- <-]. eapply ends_at; [exact H1|done|by eapply load_return].
Qed.

Lemma getCertDuringHandshake_follows load :
  follows (GetCert load) (getCertDuringHandshake ari_NeedsRefresh wait cfg hello rec load).
Proof using All.
  intros l o h r h' s Hh. unfold getCertDuringHandshake.
  assert (∀ r, ends r l o h) as Hret.
  { intros r'. eapply ends_at; [exact Hh|done|by eapply get_cached]. }
  destruct (fromCache cfg hello h) as [[cert matched] defaulted]. destruct matched.
  { destruct (OnDemand cfg); [|by intros [= _ <-]]. destruct (managed cert && load) eqn:Em; [|by intros [= _ <-]].
    apply andb_true_iff in Em as [_ ->]. unfold optionalMaintenance.
    destruct (handshakeMaintenance _ _ _ _ _ cert h) as [[c1 e1] h1] eqn:E1. intros Hr.
    assert (ends (c1, e1) l o h1) as He.
    { eapply (via Maintenance); [exact Hh|by apply get_maintained|]. intros s1 H1. by eapply handshakeMaintenance_follows. }
    unfold ends, panicked in He |- *. simpl in He. destruct e1 as [e|]; [|by injection Hr as <- <-].
    destruct (is_panic e) eqn:Ep; [injection Hr as <- <-; simpl; by rewrite Ep|].
    destruct (Expired _ _); injection Hr as <- <-; simpl; by rewrite ?Ep. }
  destruct (getNameFromClientHello cfg hello) as [n|e] eqn:En; [|by intros [= _ <-]].
  assert (n = name) as -> by (by apply Hname). destruct (decide (name ∈ h_loadWait h)) as [Hin|Hin].
  - destruct (in_table WaitLoad h s) as [c Hc]; [apply Hh|done|].
    destruct (wait WaitLoad name h) as [ro h1] eqn:Ew. intros Hr.
    eapply (via (Waiting WaitLoad c)); [exact Hh|by eapply get_wait|].
    intros s1 H1. eapply (waits_then rec); [done|done|exact Ew|by intros ->|]. intros Hne. by destruct ro; simplify_eq.
  - assert (o = None) as ->.
    { destruct Hh as (I & _ & _ & Hg & _). by destruct (inv_g _ I _ _ Hg) as (_ & _ & ?). }
    destruct (enter_self WaitLoad (Loading load) h s (GetCert load) l None) as (Ho & c & s1 & H1);
      [done|done|intros c s' He; by eapply get_enter|]. simpl in Ho. subst l. set (h1 := set_loadWait _ _) in *.
    destruct (getCert_load wait cfg hello rec name cert defaulted load h1) as [res h2] eqn:E2.
    apply (getCert_load_follows _ _ _ _ _ _ _ _ _ _ H1) in E2.
    intros [= <- <-]. unfold ends in *. destruct (panicked res).
    + right. split; [done|]. destruct E2 as [(p & o & s2 & Hp & H2)|[? _]]; [|done]. by eapply panic_load.
    + destruct E2 as (s2 & H2). by eapply leave_load.
Qed.
End methods.

Lemma hs_rec_follows fuel :
  follows (GetCert false) (hs_rec fuel ari_NeedsRefresh wait cfg hello CallGetCert) ∧
  ∀ cert, follows Maintenance (hs_rec fuel ari_NeedsRefresh wait cfg hello (CallMaintain cert)).
Proof using All.
  induction fuel as [|fuel [IH1 IH2]]; simpl.
  - split; intros; intros l o h r h' s Hh [= _ <-].
    + eapply ends_at; [exact Hh|done|by eapply get_cached].
    + eapply (via RenewIfNecessary); [exact Hh|by apply maintain_renew|]. intros s1 H1.
      eapply ends_at; [exact H1|done|by apply renew_not_needed].
  - split; [by apply getCertDuringHandshake_follows|]. intros cert. by apply handshakeMaintenance_follows.
Qed.
End simulation.


(** ** A scheduler

    One other goroutine obtains the certificate of the same name, without
    success; it goes on when this one waits for it. *)

Module SimOther.
Definition other (p : place) (o : option nat) : handshaking := G "a.com" p None o.

(** This goroutine has waited for the other one. *)
Definition after (p : place) : Prop :=
  match p with GetCert false | Loading false | Waiting _ _ | Return | Done => True | _ => False end.

Definition obtaining (s : state) : Prop := gs s !! 1%nat = Some (other Obtaining (Some 0%nat)).
Definition failed (s : state) : Prop :=
  obtainCertWaitChans s !! "a.com" = None ∧ ∃ g, gs s !! 0%nat = Some g ∧ g_name g = "a.com" ∧ after (g_pc g).
Definition env (s : state) : Prop := obtaining s ∨ failed s.

(** The other goroutine up to its end. *)
Definition other_returns (s : state) : state := set_g 1 (other Return (Some 0%nat)) s.
Definition other_ended (s : state) : state :=
  match leave WaitObtain "a.com" 0 (other_returns s) with
  | Some s' => set_g 1 (other Done None) (set_g 1 (other Return None) s')
  | None => s
  end.

Lemma gstep_other i g s s' j g' :
  gstep i g s s' → j ≠ i → gs s !! j = Some g' → gs s' !! j = Some g'.
Proof.
  intros H Hne Hj. assert (∀ k name c s1, enter k name s = inr (c, s1) → gs s1 !! j = Some g') as He.
  { intros k n c s1 (-> & _)%enter_gs. done. }
  assert (∀ k name c s1, leave k name c s = Some s1 → gs s1 !! j = Some g') as Hl.
  { intros k n c s1. unfold leave. destruct (decide _); [done|]. intros [= <-]. by destruct k. }
  destruct H; simpl; rewrite ?lookup_insert_ne by congruence; eauto.
Qed.

(** After the wait this goroutine does not enter the second map again. *)
Lemma failed_step g s s' : inv s → gs s !! 0%nat = Some g → gstep 0 g s s' → failed s → failed s'.
Proof.
  intros I Hg H (Ht & g0 & Hg0 & Hn & Ha). assert (g0 = g) as -> by congruence.
  assert (∀ s1 g1, obtainCertWaitChans s1 !! "a.com" = None → g_name g1 = "a.com" → after (g_pc g1) →
    failed (set_g 0 g1 s1)) as Hput.
  { intros s1 g1 H1 H2 H3. split; [done|]. exists g1. simpl. by rewrite lookup_insert_eq. }
  destruct H; simpl in *; try rewrite H in Ha; try done; try (by apply Hput).
  - destruct load; [done|]. apply Hput; try done. unfold enter in H0. destruct (table WaitLoad s !! _); [done|].
    by injection H0 as _ <-.
  - destruct (inv_g _ I _ _ Hg) as (Hh & _). apply (Hh WaitObtain) in H0 as [H0 _]. simpl in H0. congruence.
  - apply Hput; simpl; try done; [|by rewrite H]. unfold leave in H2. destruct (decide _); [done|].
    by injection H2 as <-.
Qed.

Lemma other_run s :
  inv s → obtaining s →
  rtc (others 0) s (other_ended s) ∧ gs (other_ended s) !! 0%nat = gs s !! 0%nat ∧
  certLoadWaitChans (other_ended s) = certLoadWaitChans s ∧
  obtainCertWaitChans (other_ended s) = delete "a.com" (obtainCertWaitChans s) ∧
  closed (other_ended s) = {[0%nat]} ∪ closed s ∧ obtainCertWaitChans s !! "a.com" = Some 0%nat.
Proof.
  intros I Ho. unfold obtaining in Ho. destruct (inv_g _ I _ _ Ho) as (Hh & _).
  destruct (Hh WaitObtain 0%nat eq_refl) as [Ht _]. simpl in Ht. pose proof (inv_entry _ I WaitObtain _ _ Ht) as [Hopen _].
  assert (∃ s', leave WaitObtain "a.com" 0 (other_returns s) = Some s' ∧
    s' = Mk (certLoadWaitChans s) (delete "a.com" (obtainCertWaitChans s)) ({[0%nat]} ∪ closed s) (next s)
           (gs (other_returns s)) (orphans s)) as (s' & Hl & Es).
  { eexists. split; [|done]. unfold leave. simpl. by rewrite decide_False. }
  unfold other_ended. rewrite Hl. subst s'. simpl. split_and!; try done.
  - eapply rtc_l with (other_returns s).
    { split; [|simpl; by rewrite lookup_insert_ne]. eapply goroutine_steps; [exact Ho|].
      by apply (obtain_failed 1 (other Obtaining (Some 0%nat))). }
    eapply rtc_l; [split; [eapply (goroutine_steps _ 1 (other Return (Some 0%nat)))|]|].
    { simpl. by rewrite lookup_insert_eq. }
    { by eapply (return_unblock 1 (other Return (Some 0%nat)) (other_returns s) 0). }
    { simpl. by rewrite lookup_insert_ne. }
    apply rtc_once. split; [|simpl; by rewrite lookup_insert_ne].
    eapply (goroutine_steps _ 1 (other Return None)); [simpl; by rewrite lookup_insert_eq|].
    by apply (return_done 1 (other Return None)).
  - by rewrite !lookup_insert_ne.
Qed.

#[export] Instance ex_scheduler : Scheduler (St := MemStorage.t) (E := SimExternal.t) (N := SimNet.t) ex_wait 0 "a.com" env.
Proof.
  split.
  - intros g s s' I [Ho|Hf] Hg H; [left; by eapply gstep_other|right; by eapply failed_step].
  - intros k c l o h r h' s I Hv [T1 T2] Hg Hw. destruct k; simpl in Hw.
    { injection Hw as <- <-. exists s. split_and!; [apply rtc_refl|done..]. }
    injection Hw as <- <-. destruct (inv_g _ I _ _ Hg) as (_ & Hwait & _). destruct (Hwait _ _ eq_refl) as [_ Hc].
    simpl in Hc. destruct Hv as [Ho|[Ht Hf]].
    + destruct (other_run s I Ho) as (Hrun & H0 & El & Eo & Ec & Ht). exists (other_ended s). split_and!; [done|..].
      * right. split; [rewrite Eo; by rewrite lookup_delete_eq|]. rewrite H0, Hg. by eexists.
      * split; simpl; [by rewrite T1, El|by rewrite T2, Eo, dom_delete_L].
      * done.
      * intros _. rewrite Ec. destruct Hc as [?|Hc]; [set_solver|]. rewrite Ht in Hc. injection Hc as <-. set_solver.
    + exists s. split_and!; [apply rtc_refl|by right| |done|].
      * split; simpl; [done|]. apply not_elem_of_dom in Ht. rewrite T2. set_solver.
      * intros _. destruct Hc as [?|Hc]; [done|congruence].
Qed.

(** The other goroutine has started to obtain when this one starts. *)
Definition entered1 : state := entered WaitObtain 1 Obtaining (other ObtainOnDemand None) (set_g 1 (other ObtainOnDemand None) init).
Definition start : state := set_g 0 (ex_g (GetCert true)) entered1.

Lemma start_reachable : reachable start.
Proof.
  eapply rtc_l; [exact (handshake_starts init 1 "a.com" eq_refl)|].
  eapply rtc_l; [exact (goroutine_steps (set_g 1 (other (GetCert true) None) init) 1 (other (GetCert true) None) _ eq_refl
    (get_maintained 1 (other (GetCert true) None) (set_g 1 (other (GetCert true) None) init) eq_refl))|].
  eapply rtc_l; [exact (goroutine_steps (set_g 1 (other Maintenance None) init) 1 (other Maintenance None) _ eq_refl
    (maintain_renew 1 (other Maintenance None) (set_g 1 (other Maintenance None) init) eq_refl))|].
  eapply rtc_l; [exact (goroutine_steps (set_g 1 (other RenewIfNecessary None) init) 1 (other RenewIfNecessary None) _ eq_refl
    (renew_not_stored 1 (other RenewIfNecessary None) (set_g 1 (other RenewIfNecessary None) init) eq_refl))|].
  eapply rtc_l; [exact (goroutine_steps (set_g 1 (other ObtainOnDemand None) init) 1 (other ObtainOnDemand None) entered1 eq_refl
    (obtain_enter 1 (other ObtainOnDemand None) (set_g 1 (other ObtainOnDemand None) init) _ _ eq_refl eq_refl))|].
  eapply rtc_l; [exact (handshake_starts entered1 0 "a.com" eq_refl)|]. apply rtc_refl.
Qed.
End SimOther.

