(* ===== verification/Cluster.v ===== *)
(** * Instances that share a storage (config.go)

    Several processes, or configurations, obtain a certificate for one name with
    one storage. Each goes through the steps of [obtainCert]: the check without
    the lock, the lock of the name, the check under the lock, the work, the
    attempts after a failure until one succeeds, they are given up or the context
    is done, and the unlock. Between two steps of one instance the others take
    steps of theirs and time passes; what happens to other keys of the storage is
    left open. The lock excludes the others, as [FileLock] shows for lock files. *)

From S2P Require Import Prelude GoStrings Certificates Storage Crypto Config.
Import KeyBuilder.
Open Scope string_scope.

Section cluster.
Context {St E : Type} `{C : !Codec} `{!Storage St} `{X : !External St E}
  `{!StorageLaws St} `{XL : !ExternalLaws St E}.

(** The configuration of the instances, and the name as [transformSubject]
    leaves it. *)
Context (cfg : Config) (name : string) (interactive : bool).

(** Where an instance is in [obtainCert]. *)
Inductive instance_pc :=
| Start
| NotStored                      (* before the lock *)
| Locked (attempts : nat)        (* in the function, before the check *)
| Working (attempts : nat)       (* obtain_new *)
| Unlocking (r : result unit)
| Returned (r : result unit).

Record cluster := MkCluster {
  c_storage : St;
  c_lock : option nat;                          (* who holds the lock of the name *)
  c_instances : gmap nat (instance_pc * E);
  c_obtained : list nat;                        (* who has obtained a certificate *)
  c_calls : list (nat * call)
}.

Definition go (i : nat) (p : instance_pc) (e : E) (c : cluster) : cluster :=
  MkCluster (c_storage c) (c_lock c) (<[i := (p, e)]> (c_instances c)) (c_obtained c) (c_calls c).
Definition set_lock (o : option nat) (c : cluster) : cluster :=
  MkCluster (c_storage c) o (c_instances c) (c_obtained c) (c_calls c).

Definition is_stored (s : St) : bool := storageHasCertResourcesAnyIssuer s cfg name.

(** [obtain_new] of instance [i], on the storage as it is now. *)
Definition work (i attempts : nat) (e : E) (c : cluster) : result unit * E * cluster :=
  let '(r, w) := obtain_new cfg name interactive attempts (MkWorld (c_storage c) ∅ e []) in
  (r, w_ext w,
   MkCluster (w_storage w) (c_lock c) (c_instances c)
     (if is_Ok r then c_obtained c ++ [i] else c_obtained c)%list (c_calls c ++ (pair i <$> w_trace w))%list).

(** What others do to the storage does not concern the sites of the name. *)
Definition elsewhere (s s' : St) : Prop :=
  ∀ iss asset k, iss ∈ Issuers cfg → asset ∈ [SiteCert; SitePrivateKey; SiteMeta] →
    under (asset (iss_IssuerKey iss) name) k = true → contents s' !! k = contents s !! k.

Inductive istep (i : nat) (e : E) (c : cluster) : instance_pc → cluster → Prop :=
| check : istep i e c Start (go i (if is_stored (c_storage c) then Returned (Ok tt) else NotStored) e c)
| not_locked err : istep i e c NotStored (go i (Returned (Err err)) e c)
| lock : c_lock c = None → istep i e c NotStored (go i (Locked 0) e (set_lock (Some i) c))
| check_locked n :
    istep i e c (Locked n) (go i (if is_stored (c_storage c) then Unlocking (Ok tt) else Working n) e c)
| worked n r e' c' : work i n e c = (r, e', c') → istep i e c (Working n) (go i (Unlocking r) e' c')
| retried n err e' c' :
    interactive = false → work i n e c = (Err err, e', c') → istep i e c (Working n) (go i (Locked (S n)) e' c')
| gave_up n err e' c' :
    interactive = false → work i n e c = (Err err, e', c') → istep i e c (Working n) (go i (Unlocking (Ok tt)) e' c')
| canceled n : interactive = false → istep i e c (Locked n) (go i (Unlocking (Err Canceled)) e c)
| unlock r : istep i e c (Unlocking r) (go i (Returned r) e (set_lock None c)).

Inductive cstep (c : cluster) : cluster → Prop :=
| joins i e : c_instances c !! i = None → cstep c (go i Start e c)
| instance_steps i p e c' : c_instances c !! i = Some (p, e) → istep i e c p c' → cstep c c'
| outside i p e e' : c_instances c !! i = Some (p, e) → cstep c (go i p e' c)
| others s : elsewhere (c_storage c) s →
    cstep c (MkCluster s (c_lock c) (c_instances c) (c_obtained c) (c_calls c)).

Definition initial (s : St) : cluster := MkCluster s None ∅ [] [].

(** Who holds the lock. *)
Definition holds_lock (p : instance_pc) : bool :=
  match p with Locked _ | Working _ | Unlocking _ => true | _ => false end.

Definition is_working (p : instance_pc) : bool := match p with Working _ => true | _ => false end.

Record cluster_inv (c : cluster) : Prop := MkCInv {
  ci_lock i p e : c_instances c !! i = Some (p, e) → holds_lock p = true → c_lock c = Some i;
  ci_working i n e : c_instances c !! i = Some (Working n, e) → is_stored (c_storage c) = false;
  ci_obtained : (length (c_obtained c) ≤ 1)%nat;
  ci_stored : c_obtained c ≠ [] → is_stored (c_storage c) = true
}.

Lemma elsewhere_stored s s' : elsewhere s s' → is_stored s' = is_stored s.
Proof.
  unfold elsewhere, is_stored, storageHasCertResourcesAnyIssuer.
  induction (Issuers cfg) as [|iss l IH]; [done|]. intros He. simpl.
  rewrite IH by (intros; eapply He; [by right|done..]). f_equal.
  assert (∀ asset, asset ∈ [SiteCert; SitePrivateKey; SiteMeta] →
    Exists s' (asset (iss_IssuerKey iss) name) = Exists s (asset (iss_IssuerKey iss) name)) as Hx.
  { intros asset Ha. apply eq_bool_prop_intro. rewrite !Is_true_true, !Exists_spec.
    split; intros (k & Hk & Hu); exists k; (split; [|done]).
    - by rewrite <-(He iss asset k) by (done || by left).
    - by rewrite (He iss asset k) by (done || by left). }
  unfold storageHasCertResources. rewrite !Hx; set_solver.
Qed.

Lemma work_spec i n e c r e' c' :
  work i n e c = (r, e', c') →
  c_lock c' = c_lock c ∧ c_instances c' = c_instances c ∧
  c_obtained c' = (if is_Ok r then c_obtained c ++ [i] else c_obtained c)%list ∧
  ∃ w, obtain_new cfg name interactive n (MkWorld (c_storage c) ∅ e []) = (r, w) ∧ c_storage c' = w_storage w.
Proof.
  unfold work. destruct (obtain_new _ _ _ _ _) as [r1 w] eqn:Ew. intros [= <- _ <-]. simpl. eauto 6.
Qed.

Hypothesis Hname : dns_name (St := St) (E := E) name.
Hypothesis Hplain : plain_config cfg name.

Lemma work_stored i n e c e' c' u : work i n e c = (Ok u, e', c') → is_stored (c_storage c') = true.
Proof using All.
  intros (_ & _ & _ & w & Hw & ->)%work_spec. destruct u. apply has_resource_storage. by eapply obtain_new_Ok.
Qed.

(** An instance that moves on. *)
Lemma go_inv i p e c :
  cluster_inv c → (holds_lock p = true → c_lock c = Some i) → (is_working p = true → is_stored (c_storage c) = false) →
  cluster_inv (go i p e c).
Proof using All.
  intros [H1 H2 H3 H4] Hl Hw. split; simpl; try done.
  - intros j p' e' [[<- [= <- <-]]|[_ H]]%lookup_insert_Some; [done|by eapply H1].
  - intros j n e' [[<- [= -> <-]]|[_ H]]%lookup_insert_Some; [by apply Hw|by eapply H2].
Qed.

(** The only instance in the critical section. *)
Lemma alone i p e c : cluster_inv c → c_instances c !! i = Some (p, e) → holds_lock p = true →
  ∀ j p' e', c_instances c !! j = Some (p', e') → holds_lock p' = true → j = i.
Proof using All.
  intros I Hi Hp j p' e' Hj Hp'. pose proof (ci_lock _ I _ _ _ Hi Hp). pose proof (ci_lock _ I _ _ _ Hj Hp').
  congruence.
Qed.

(** The holder of the lock replaces the rest of the state. *)
Lemma replace_inv i p e p' e' c c' :
  cluster_inv c → c_instances c !! i = Some (p, e) → holds_lock p = true → c_instances c' = c_instances c →
  (holds_lock p' = true → c_lock c' = Some i) → (is_working p' = true → is_stored (c_storage c') = false) →
  (length (c_obtained c') ≤ 1)%nat → (c_obtained c' ≠ [] → is_stored (c_storage c') = true) →
  cluster_inv (go i p' e' c').
Proof using All.
  intros I Hi Hp Hin Hl Hw Ho Hs. split; simpl; try done; rewrite Hin.
  - intros j q e1 [[<- [= <- <-]]|[Hne Hj]]%lookup_insert_Some Hq; [by apply Hl|].
    exfalso. apply Hne. symmetry. by eapply (alone i p e).
  - intros j n e1 [[<- [= -> <-]]|[Hne Hj]]%lookup_insert_Some; [by apply Hw|].
    exfalso. apply Hne. symmetry. by eapply (alone i p e).
Qed.

Lemma istep_inv i p e c c' :
  cluster_inv c → c_instances c !! i = Some (p, e) → istep i e c p c' → cluster_inv c'.
Proof using All.
  intros I Hi H. pose proof (ci_obtained _ I) as Ho. pose proof (ci_stored _ I) as Hs.
  assert (∀ n p' err e' c', c_instances c !! i = Some (Working n, e) → holds_lock p' = true → is_working p' = false →
    work i n e c = (Err err, e', c') → cluster_inv (go i p' e' c')) as Hfail.
  { intros n p' err e' c1 Hp Hh Hnw Hw. pose proof (ci_working _ I _ _ _ Hp) as Hn.
    destruct (work_spec _ _ _ _ _ _ _ Hw) as (El & Ei & Eo & _).
    assert (c_obtained c = []) as Hnil by (destruct (c_obtained c); [done|by rewrite Hs in Hn]).
    eapply replace_inv; try done; [| |by rewrite Eo, Hnil; simpl; lia|by rewrite Eo, Hnil].
    - rewrite El. intros _. by eapply ci_lock.
    - by rewrite Hnw. }
  destruct H as [ |err|Hfree|n|n r e' c' Hw|n err e' c' _ Hw|n err e' c' _ Hw|n _|r].
  - apply go_inv; [done|..]; by destruct (is_stored _).
  - by apply go_inv.
  - destruct I as [H1 H2 H3 H4]. split; simpl; try done.
    + intros j p e1 [[<- [= <- <-]]|[_ H]]%lookup_insert_Some Hp; [done|].
      rewrite (H1 _ _ _ H Hp) in Hfree. done.
    + intros j n e1 [[_ ?]|[_ H]]%lookup_insert_Some; [done|by eapply H2].
  - pose proof (ci_lock _ I _ _ _ Hi eq_refl). apply go_inv; [done|done|]. by destruct (is_stored _).
  - pose proof (ci_working _ I _ _ _ Hi) as Hn. destruct (work_spec _ _ _ _ _ _ _ Hw) as (El & Ei & Eo & _).
    assert (c_obtained c = []) as Hnil by (destruct (c_obtained c); [done|by rewrite Hs in Hn]).
    eapply replace_inv; try done.
    + rewrite El. intros _. by eapply ci_lock.
    + rewrite Eo, Hnil. by destruct r; simpl; lia.
    + destruct r; [intros _; by eapply work_stored|by rewrite Eo, Hnil].
  - by eapply Hfail.
  - by eapply Hfail.
  - pose proof (ci_lock _ I _ _ _ Hi eq_refl). by apply go_inv.
  - by eapply replace_inv.
Qed.

Lemma cstep_inv c c' : cluster_inv c → cstep c c' → cluster_inv c'.
Proof using All.
  intros I [i e Hi|i p e c1 Hi H|i p e e' Hi|s He].
  - by apply go_inv.
  - by eapply istep_inv.
  - apply go_inv; [done|by eapply ci_lock|]. destruct p; try done. intros _. by eapply ci_working.
  - apply elsewhere_stored in He. destruct I as [H1 H2 H3 H4]. split; simpl; rewrite ?He; done.
Qed.

Lemma initial_inv s : cluster_inv (initial s).
Proof using All. split; simpl; try done. lia. Qed.

(** Once a certificate is stored nobody works any more. *)
Lemma stored_idle c c' :
  cluster_inv c → is_stored (c_storage c) = true → cstep c c' →
  is_stored (c_storage c') = true ∧ c_calls c' = c_calls c ∧ c_obtained c' = c_obtained c.
Proof using All.
  intros I Hs [i e Hi|i p e c1 Hi H|i p e e' Hi|s He]; [done| |done|simpl; by rewrite (elsewhere_stored _ _ He)].
  destruct H as [ |err|Hfree|n|n r e' c2 Hw|n err e' c2 _ Hw|n err e' c2 _ Hw|n _|r]; try done.
  all: by rewrite (ci_working _ I _ _ _ Hi) in Hs.
Qed.

Lemma stored_run c c' :
  cluster_inv c → is_stored (c_storage c) = true → rtc cstep c c' →
  is_stored (c_storage c') = true ∧ c_calls c' = c_calls c ∧ c_obtained c' = c_obtained c.
Proof using All.
  intros I Hs Hrun. induction Hrun as [|c1 c2 c3 H12 _ IH]; [done|].
  destruct (stored_idle _ _ I Hs H12) as (Hs2 & Hc & Ho).
  destruct (IH (cstep_inv _ _ I H12) Hs2) as (? & -> & ->). done.
Qed.

(** (C5) A cluster obtains one certificate: whatever the order of the steps of
    the instances that obtain a certificate for a name at the same time, retries
    included, at most one of them obtains it, and from then on the certificate
    is in the storage that they share and no instance makes another call to an
    issuer. *)
Theorem cluster_obtains_once s c :
  rtc cstep (initial s) c →
  (length (c_obtained c) ≤ 1)%nat ∧
  (c_obtained c ≠ [] → ∀ c', rtc cstep c c' →
     storageHasCertResourcesAnyIssuer (c_storage c') cfg name = true ∧ c_calls c' = c_calls c).
Proof using All.
  intros Hrun. assert (cluster_inv c) as I.
  { pose proof (initial_inv s) as I0. induction Hrun; eauto using cstep_inv. }
  split; [apply I|]. intros Ho c' Hrun'. destruct (stored_run c c') as (? & ? & _); [done|by apply I|done|done].
Qed.
End cluster.

(** ** An example: the second instance has looked before the first one was done *)

Module SimCluster.
Import SimExternal.
Definition cfg : Config := config [ca "two" "u2"].
Definition e0 : SimExternal.t := w_ext (world []).
Definition c : Type := @cluster MemStorage.t SimExternal.t.

Definition both_looked : c :=
  go 1 NotStored e0 (go 0 NotStored e0 (go 1 Start e0 (go 0 Start e0 (initial MemStorage.empty)))).
Definition first_works : c := go 0 (Working 0) e0 (go 0 (Locked 0) e0 (set_lock (Some 0%nat) both_looked)).
Definition e1 : SimExternal.t := (work cfg "a.com" true 0 0 e0 first_works).1.2.
Definition c1 : c := (work cfg "a.com" true 0 0 e0 first_works).2.
Definition first_done : c := go 0 (Returned (Ok tt)) e1 (set_lock None (go 0 (Unlocking (Ok tt)) e1 c1)).
Definition second_locked : c := go 1 (Locked 0) e0 (set_lock (Some 1%nat) first_done).
Definition second_done : c :=
  go 1 (Returned (Ok tt)) e0 (set_lock None (go 1 (Unlocking (Ok tt)) e0 second_locked)).

Lemma first_work : work cfg "a.com" true 0 0 e0 first_works = (Ok tt, e1, c1).
Proof. vm_compute. reflexivity. Qed.

Lemma c1_instances : c_instances c1 = c_instances first_works ∧ c_obtained c1 = [0%nat].
Proof. destruct (work_spec _ _ _ _ _ _ _ _ _ _ first_work) as (_ & H1 & H2 & _). split; [exact H1|]. rewrite H2. reflexivity. Qed.

Lemma c1_stored : is_stored cfg "a.com" (c_storage c1) = true.
Proof. vm_compute. reflexivity. Qed.

Abbreviation steps := (rtc (cstep cfg "a.com" true)).

Lemma run_first : steps (initial MemStorage.empty) first_done.
Proof.
  eapply rtc_l; [by apply (joins _ _ _ _ 0 e0)|].
  eapply rtc_l; [by apply (joins _ _ _ _ 1 e0)|].
  eapply rtc_l; [by eapply (instance_steps _ _ _ _ 0); [|apply check]|].
  eapply rtc_l; [by eapply (instance_steps _ _ _ _ 1); [|apply check]|].
  eapply rtc_l; [by eapply (instance_steps _ _ _ _ 0); [|apply lock]|].
  eapply rtc_l; [by eapply (instance_steps _ _ _ _ 0); [|apply check_locked]|].
  eapply rtc_l; [exact (instance_steps cfg "a.com" true first_works 0 (Working 0) e0 _ eq_refl
    (worked cfg "a.com" true 0 e0 first_works 0 _ _ _ first_work))|].
  eapply rtc_l; [|apply rtc_refl]. eapply (instance_steps _ _ _ _ 0); [|apply unlock]. cbn. by rewrite lookup_insert_eq.
Qed.

Lemma run_second : steps first_done second_done.
Proof.
  eapply rtc_l.
  { eapply (instance_steps _ _ _ _ 1 NotStored e0); [|by apply lock]. cbn.
    by rewrite !lookup_insert_ne, (proj1 c1_instances) by done. }
  eapply rtc_l.
  { eapply (instance_steps _ _ _ _ 1 (Locked 0) e0); [|apply check_locked]. cbn. by rewrite lookup_insert_eq. }
  cbn [c_storage go set_lock first_done]. rewrite c1_stored.
  eapply rtc_l; [|apply rtc_refl]. eapply (instance_steps _ _ _ _ 1); [|apply unlock]. cbn. by rewrite lookup_insert_eq.
Qed.
End SimCluster.

Lemma cluster_obtains_once_witness :
  c_obtained SimCluster.first_done = [0%nat] ∧
  (length (c_obtained SimCluster.first_done) ≤ 1)%nat ∧
  storageHasCertResourcesAnyIssuer (c_storage SimCluster.second_done) SimCluster.cfg "a.com" = true ∧
  c_calls SimCluster.second_done = c_calls SimCluster.first_done.
Proof.
  assert (c_obtained SimCluster.first_done = [0%nat]) as Ho by exact (proj2 SimCluster.c1_instances).
  destruct (cluster_obtains_once SimCluster.cfg "a.com" true ex_dns_name) with
    (s := MemStorage.empty) (c := SimCluster.first_done) as [Hl Hs].
  - intros iss Hin. apply list_elem_of_singleton in Hin as ->. vm_compute. auto.
  - exact SimCluster.run_first.
  - split_and!; [exact Ho|exact Hl|..]; apply Hs; try exact SimCluster.run_second; by rewrite Ho.
Defined.
