(* ===== verification/EndToEnd.v ===== *)
(** * Obtaining a certificate with the ACME issuer

    [Config] is proved against the interface of an issuer, and [AcmeIssuer]
    implements it. Here the two are put together: the outside of a [Config]
    whose issuer is the ACME issuer of the package, with the same storage, so
    that the theorems follow a certificate from the order at the CA into the
    storage. *)

From S2P Require Import Prelude GoStrings Certificates Async Storage Crypto Config Solvers.
From S2P Require Import Challenges Account AcmeClient AcmeIssuer Toplevel.
Import KeyBuilder.
Open Scope string_scope.

(** ** What the operations of a [Config] preserve of the outside *)

Section preserved.
Context {St E : Type} `{C : !Codec} `{!Storage St} `{X : !External St E}.
Context (R : relation E) `{!PreOrder R}.

(** The operations of the outside keep to [R]. *)
Class Preserved := {
  OnEvent_R ev s e r s' e' : x_OnEvent ev (s, e) = (r, (s', e')) → R e e';
  GenerateKey_R s e r s' e' : x_GenerateKey (s, e) = (r, (s', e')) → R e e';
  CreateCSR_R t ms key s e r s' e' : x_CreateCSR t ms key (s, e) = (r, (s', e')) → R e e';
  PreCheck_R i names b s e r s' e' : x_PreCheck i names b (s, e) = (r, (s', e')) → R e e';
  Issue_R i n ctx csr s e r s' e' : x_Issue i n ctx csr (s, e) = (r, (s', e')) → R e e';
  Sleep_R d s e r s' e' : x_Sleep d (s, e) = (r, (s', e')) → R e e';
  Shuffle_R l s e r s' e' : x_Shuffle l (s, e) = (r, (s', e')) → R e e';
  TestKey_R s e r s' e' : x_TestKey (s, e) = (r, (s', e')) → R e e';
  RandRead_R s e r s' e' : x_RandRead (s, e) = (r, (s', e')) → R e e'
}.
Context `{P : !Preserved}.

Definition RW (w w' : World St E) : Prop := R (w_ext w) (w_ext w').
#[local] Instance RW_preorder : PreOrder RW.
Proof. unfold RW. split; [intros w; reflexivity|intros w1 w2 w3 H1 H2; by etrans]. Qed.

Lemma on_storage_R {A} (m : ST St A) w r w' : on_storage m w = (r, w') → RW w w'.
Proof using All. unfold on_storage. destruct (m _). intros [= _ <-]. by unfold RW. Qed.

Lemma on_external_R {A} (m : ST (St * E) A) w r w' :
  (∀ s e r s' e', m (s, e) = (r, (s', e')) → R e e') → on_external m w = (r, w') → RW w w'.
Proof using All.
  intros Hm. unfold on_external. destruct (m _) as [x [s e]] eqn:Em. intros [= _ <-]. unfold RW. simpl. by eapply Hm.
Qed.

Lemma emit_R cfg ev w r w' : emit cfg ev w = (r, w') → RW w w'.
Proof using All.
  unfold emit. destruct (negb _); [by intros [= _ <-]|]. simpl. intros H%on_external_R; [done|].
  intros. by eapply OnEvent_R.
Qed.

Lemma checkStorage_R cfg w r w' : checkStorage cfg w = (r, w') → RW w w'.
Proof using All.
  unfold checkStorage. destruct (DisableStorageCheck cfg); [by intros [= _ <-]|].
  destruct (on_external x_TestKey w) as [k w1] eqn:E1. apply on_external_R in E1; [|intros; by eapply TestKey_R].
  destruct (on_external x_RandRead w1) as [[b|e] w2] eqn:E2; (apply on_external_R in E2; [|intros; by eapply RandRead_R]).
  2: { intros [= _ <-]. by etrans. }
  destruct (on_storage _ w2) as [[u|e] w3] eqn:E3; apply on_storage_R in E3; [|intros [= _ <-]; etrans; [|exact E3]; by etrans].
  destruct (on_storage _ w3) as [u' w4] eqn:E4; apply on_storage_R in E4. intros [= _ <-].
  etrans; [exact E1|]. etrans; [exact E2|]. by etrans.
Qed.

Lemma generateCSR_R cfg key sans cn w r w' : generateCSR cfg key sans cn w = (r, w') → RW w w'.
Proof using All.
  unfold generateCSR. destruct (csr_template _ _ _); [|by intros [= _ <-]].
  intros H%on_external_R; [done|]. intros. by eapply CreateCSR_R.
Qed.

Lemma csr_for_R cfg key name csr i w r w' : csr_for cfg key name csr i w = (r, w') → RW w w'.
Proof using All. unfold csr_for. destruct (_ =? _); [apply generateCSR_R|by intros [= _ <-]]. Qed.

Lemma preCheck_R i name b w r w' : preCheck i name b w = (r, w') → RW w w'.
Proof using All.
  unfold preCheck. destruct (iss_PreChecker i); [|by intros [= _ <-]]. simpl.
  intros H%on_external_R; [done|]. intros. by eapply PreCheck_R.
Qed.

Lemma issue_R i n ctx csr w r w' : issue i n ctx csr w = (r, w') → RW w w'.
Proof using All.
  unfold issue. destruct (on_external _ w) as [r1 w1] eqn:E1. simpl. intros [= _ <-].
  apply on_external_R in E1; [exact E1|]. intros. by eapply Issue_R.
Qed.

Lemma generate_key_R w r w' : on_external x_GenerateKey w = (r, w') → RW w w'.
Proof using All. intros H%on_external_R; [done|]. intros. by eapply GenerateKey_R. Qed.

Lemma obtain_key_R cfg name w r w' : obtain_key cfg name w = (r, w') → RW w w'.
Proof using All.
  unfold obtain_key. destruct (if ReusePrivateKeys cfg then _ else _) as [[found iss]|e]; [|by intros [= _ <-]].
  destruct (match cfg_IssuerPolicy cfg with UseFirstIssuer => _ | _ => _ end) as [iss' w1] eqn:E1.
  assert (RW w w1) as H1.
  { destruct (cfg_IssuerPolicy cfg); [by injection E1 as <- <-|].
    apply on_external_R in E1; [done|]. intros. by eapply Shuffle_R. }
  destruct found as [[key pem]|]; [by intros [= _ <-]|].
  destruct (on_external x_GenerateKey w1) as [[key|e] w2] eqn:E2; apply generate_key_R in E2;
    [destruct (PEMEncodePrivateKey key)|]; intros [= _ <-]; by etrans.
Qed.

Lemma renew_key_R cfg res w r w' : renew_key cfg res w = (r, w') → RW w w'.
Proof using All.
  unfold renew_key. destruct (ReusePrivateKeys cfg); [destruct (PEMDecodePrivateKey _); by intros [= _ <-]|].
  destruct (on_external x_GenerateKey w) as [[key|e] w2] eqn:E2; apply generate_key_R in E2;
    [destruct (PEMEncodePrivateKey key)|]; by intros [= _ <-].
Qed.

Lemma obtain_loop_R cfg key name csr b n issuers err w r w' :
  obtain_loop cfg key name csr b n issuers err w = (r, w') → RW w w'.
Proof using All.
  revert err w. induction issuers as [|i issuers IH]; intros err w; cbn [obtain_loop]; [by intros [= _ <-]|].
  destruct (preCheck _ _ _ w) as [[u|e] w1] eqn:E1; apply preCheck_R in E1;
    [|destruct (is_panic e); [by intros [= _ <-]|intros H%IH; by etrans]].
  destruct (csr_for _ _ _ _ _ w1) as [[useCSR|e] w2] eqn:E2; apply csr_for_R in E2; [|intros [= _ <-]; by etrans].
  destruct (issue _ _ _ _ w2) as [[cert|e] w3] eqn:E3; apply issue_R in E3;
    [|destruct (is_panic e); [|intros H%IH; etrans; [|exact H]]]; try intros [= _ <-];
    (etrans; [exact E1|by etrans]).
Qed.

Lemma renew_loop_R cfg res leaf key name csr b n issuers ctx err w r w' :
  renew_loop cfg res leaf key name csr b n issuers ctx err w = (r, w') → RW w w'.
Proof using All.
  revert ctx err w. induction issuers as [|i issuers IH]; intros ctx err w; cbn [renew_loop]; [by intros [= _ <-]|].
  destruct (csr_for _ _ _ _ _ w) as [[useCSR|e] w1] eqn:E1; apply csr_for_R in E1; [|by intros [= _ <-]].
  destruct (preCheck _ _ _ w1) as [[u|e] w2] eqn:E2; apply preCheck_R in E2;
    [|destruct (is_panic e); [intros [= _ <-]; by etrans|intros H%IH; etrans; [exact E1|by etrans]]].
  destruct (issue _ _ _ _ w2) as [[cert|e] w3] eqn:E3; apply issue_R in E3;
    [|destruct (is_panic e); [|intros H%IH; etrans; [|exact H]]]; try intros [= _ <-];
    (etrans; [exact E1|by etrans]).
Qed.

Lemma finish_R cfg ren name csr pem keys out w r w' :
  finish cfg ren name csr pem keys out w = (r, w') → RW w w'.
Proof using All.
  destruct out as [i cert|[e|]|e]; cbn [finish]; [| |by intros [= _ <-]..].
  - destruct (on_storage _ w) as [[u|e] w1] eqn:E1; apply on_storage_R in E1; [|by intros [= _ <-]].
    destruct (emit _ _ w1) as [r2 w2] eqn:E2. apply emit_R in E2. intros [= _ <-]. by etrans.
  - destruct (emit _ _ w) as [r2 w2] eqn:E2. apply emit_R in E2. by intros [= _ <-].
Qed.

Lemma obtain_body_R cfg name b n w r w' : obtain_body cfg name b n w = (r, w') → RW w w'.
Proof using All.
  intros H. unfold obtain_body, obtain_new in H. destruct (storageHasCertResourcesAnyIssuer _ _ _); [by injection H as _ <-|].
  destruct (emit _ _ w) as [[[]|e] w1] eqn:E1; apply emit_R in E1; [|by injection H as _ <-]. trans w1; [done|].
  destruct (obtain_key _ _ w1) as [[[[key pem] issuers]|e] w2] eqn:E2; apply obtain_key_R in E2;
    [|by injection H as _ <-]. trans w2; [done|].
  destruct (generateCSR _ _ _ _ w2) as [[csr|e] w3] eqn:E3; apply generateCSR_R in E3; [|by injection H as _ <-].
  destruct (obtain_loop _ _ _ _ _ _ _ _ w3) as [out w4] eqn:E4. apply obtain_loop_R in E4.
  apply finish_R in H. etrans; [exact E3|by etrans].
Qed.

Lemma renew_body_R cfg name force b n w r w' : renew_body cfg name force b n w = (r, w') → RW w w'.
Proof using All.
  intros H. unfold renew_body, renew_new in H. destruct (loadCertResourceAnyIssuer _ _ _) as [res|e]; [|by injection H as _ <-].
  destruct (managedCertNeedsRenewal _ _ _) as [[[left leaf] needs]|]; [|by injection H as _ <-].
  destruct (negb needs && negb force); [by injection H as _ <-|].
  destruct (emit _ _ w) as [[[]|e] w1] eqn:E1; apply emit_R in E1; [|by injection H as _ <-]. trans w1; [done|].
  destruct (renew_key _ _ w1) as [[[key pem]|e] w2] eqn:E2; apply renew_key_R in E2;
    [|by injection H as _ <-]. trans w2; [done|].
  destruct (generateCSR _ _ _ _ w2) as [[csr|e] w3] eqn:E3; apply generateCSR_R in E3; [|by injection H as _ <-].
  destruct (renew_loop _ _ _ _ _ _ _ _ _ _ _ w3) as [out w4] eqn:E4. apply renew_loop_R in E4.
  apply finish_R in H. etrans; [exact E3|by etrans].
Qed.

(** ** Retries *)

(** The attempts of [f] that fail, from number [n] on: each after a wait. *)
Inductive tries (f : nat → ST (World St E) (result unit)) : nat → World St E → nat → World St E → Prop :=
| tries_none n w : tries f n w n w
| tries_failed n w d wf e w1 m w' :
    on_external (x_Sleep d) w = (true, wf) → f n wf = (Err e, w1) → tries f (S n) w1 m w' →
    tries f n w m w'.

(** The attempt with number [n], made in the state [wb], is the next after the
    attempts that failed since [w]. *)
Definition turn (f : nat → ST (World St E) (result unit)) (w : World St E) (n : nat) (wb : World St E) : Prop :=
  ∃ wf d, tries f 0 w n wf ∧ on_external (x_Sleep d) wf = (true, wb).

Lemma tries_R (f : nat → ST (World St E) (result unit)) n w m w' :
  (∀ n w r w', f n w = (r, w') → RW w w') → tries f n w m w' → RW w w'.
Proof using All.
  intros Hf. induction 1 as [|n w d wf e w1 m w' Hs Hn _ IH]; [reflexivity|].
  apply on_external_R in Hs; [|intros; by eapply Sleep_R]. etrans; [exact Hs|]. etrans; [by eapply Hf|done].
Qed.

(** When retries end well, the attempts before the last one have failed, and the
    last one has succeeded or they were given up after it. *)
Lemma retry_world_Ok f fuel start n idx err w w' :
  err ≠ Ok tt ∨ (0 < fuel)%nat ∧ (time_Since (x_Now (w_ext w)) start < Retry.maxRetryDuration)%Z →
  retry_world fuel f start n idx err w = (Ok tt, w') →
  ∃ m wf d wb r, tries f n w m wf ∧ on_external (x_Sleep d) wf = (true, wb) ∧ f m wb = (r, w') ∧
    (r = Ok tt ∨ is_Ok r = false ∧ (Retry.maxRetryDuration ≤ time_Since (x_Now (w_ext w')) start)%Z).
Proof using.
  revert n idx err w. induction fuel as [|fuel IH]; intros n idx err w Hs; cbn [retry_world].
  { intros [= -> <-]. destruct Hs as [Hs|[Hs _]]; [done|lia]. }
  destruct (time_Since _ _ <? _)%Z eqn:Et; simpl.
  2: { intros [= -> <-]. apply Z.ltb_ge in Et. destruct Hs as [Hs|[_ Hs]]; [done|lia]. }
  match goal with |- context [x_Sleep ?d] => set (wait := d) end.
  destruct (on_external (x_Sleep wait) w) as [fired w1] eqn:E1.
  destruct fired; [|done]. simpl. destruct (f n w1) as [[[]|e] w2] eqn:E2.
  { intros [= <-]. exists n, w, wait, w1, (Ok tt). split; [constructor|]. auto. }
  destruct (_ || _); [done|]. destruct (time_Since (x_Now (w_ext w2)) start <? _)%Z eqn:Eg.
  - intros (m & wf & d & wb & r & Ht & Hd)%IH; [|by left]. exists m, wf, d, wb, r.
    split; [by econstructor|done].
  - intros [= <-]. apply Z.ltb_ge in Eg. exists n, w, wait, w1, (Err e). split; [constructor|]. auto.
Qed.

(** ** One issuer *)

Context `{!StorageLaws St} `{XL : !ExternalLaws St E}.

(** What [finish] stores of an issued certificate: certificate, private key and
    metadata. *)
Definition metadata_of (cert : IssuedCertificate) : bytes :=
  match ic_Metadata cert with Ok b => b | Err _ => "" end.
Definition stored_for (ik name : string) (cert : IssuedCertificate) (m : gmap string bytes) : Prop :=
  m !! SiteCert ik name = Some (ic_Certificate cert) ∧ is_Some (m !! SitePrivateKey ik name) ∧
  ∃ sans meta, json_MarshalMeta sans (metadata_of cert) = Ok meta ∧ m !! SiteMeta ik name = Some meta.

(** The issuer was asked in between, and the certificate it returned is the one
    that is stored for the name. *)
Definition issued_and_stored (i : Issuer) (name : string) (attempts : nat) (w w' : World St E) : Prop :=
  ∃ ctx csr cert w1 w2 t, RW w w1 ∧ issue i attempts ctx csr w1 = (Ok cert, w2) ∧ RW w2 w' ∧
    w_trace w' = (w_trace w ++ t)%list ∧ issued t = [(iss_IssuerKey i, cert)] ∧
    stored_for (iss_IssuerKey i) name cert (contents (w_storage w')).

(** Keeping to [R] without asking an issuer. *)
Definition QW (w w' : World St E) : Prop := RW w w' ∧ steps no_issue w w'.
#[local] Instance QW_preorder : PreOrder QW.
Proof.
  split; [intros w; split; [reflexivity|apply steps_refl, no_issue_nil]|].
  intros w1 w2 w3 [H1 S1] [H2 S2]. split; [by etrans|by eapply steps_trans].
Qed.

Lemma emit_Q cfg ev w r w' : emit cfg ev w = (r, w') → QW w w'.
Proof using All. intros H. split; [by eapply emit_R|by eapply emit_steps]. Qed.
Lemma obtain_key_Q cfg name w r w' : obtain_key cfg name w = (r, w') → QW w w'.
Proof using All. intros H. split; [by eapply obtain_key_R|by eapply obtain_key_steps]. Qed.
Lemma renew_key_Q cfg res w r w' : renew_key cfg res w = (r, w') → QW w w'.
Proof using All. intros H. split; [by eapply renew_key_R|by eapply renew_key_steps]. Qed.
Lemma generateCSR_Q cfg key sans cn w r w' : generateCSR cfg key sans cn w = (r, w') → QW w w'.
Proof using All. intros H. split; [by eapply generateCSR_R|by eapply generateCSR_steps]. Qed.
Lemma csr_for_Q cfg key name csr i w r w' : csr_for cfg key name csr i w = (r, w') → QW w w'.
Proof using All. intros H. split; [by eapply csr_for_R|by eapply csr_for_steps]. Qed.
Lemma preCheck_Q i name b w r w' : preCheck i name b w = (r, w') → QW w w'.
Proof using All. intros H. split; [by eapply preCheck_R|by eapply preCheck_steps]. Qed.

Lemma finish_stored cfg ren name csr pem keys i cert w w' :
  plain_site (iss_IssuerKey i) (NamesKey (namesFromCSR csr)) →
  finish cfg ren name csr pem keys (Issued i cert) w = (Ok tt, w') →
  RW w w' ∧ stored_for (iss_IssuerKey i) (NamesKey (namesFromCSR csr)) cert (contents (w_storage w')).
Proof using All.
  intros Hp H. split; [by eapply finish_R|]. unfold finish, on_storage in H.
  destruct (saveCertResource _ _ _) as [[[]|e] s] eqn:E1; [|done].
  destruct (emit _ _ _) as [r2 w2] eqn:E2. apply emit_storage in E2. injection H as <-. rewrite E2. simpl.
  apply saveCertResource_Ok in E1 as (meta & Hm & ->).
  destruct (resource_kvs_lookup (iss_IssuerKey i)
    (MkCertificateResource (namesFromCSR csr) (ic_Certificate cert) pem (metadata_of cert) (iss_IssuerKey i))
    meta (contents (w_storage w)) Hp) as (L1 & L2 & L3).
  split; [exact L1|]. split; [exact (mk_is_Some _ _ L2)|]. by exists (namesFromCSR csr), meta.
Qed.

(** There is nothing to do: the resources are there, and before a renewal the
    certificate is not due yet. *)
Definition up_to_date (renew force : bool) cfg name (w : World St E) : Prop :=
  if renew then force = false ∧ ∃ res left leaf,
    loadCertResourceAnyIssuer (w_storage w) (iss_IssuerKey <$> Issuers cfg) name = Ok res ∧
    managedCertNeedsRenewal cfg (w_ext w) res = Some (left, leaf, false)
  else storageHasCertResourcesAnyIssuer (w_storage w) cfg name = true.

(** The issuer has answered [issue]: the rest of the attempt. *)
Lemma issued_finish cfg i name ren csr pem keys n ctx useCSR cert w w1 w2 w' :
  Issuers cfg = [i] → NamesKey (namesFromCSR csr) = name → plain_config cfg name →
  QW w w1 → issue i n ctx useCSR w1 = (Ok cert, w2) → finish cfg ren name csr pem keys (Issued i cert) w2 = (Ok tt, w') →
  issued_and_stored i name n w w'.
Proof using All.
  intros Hi Hk Hp [H1 (_ & t1 & T1 & _ & _ & N1)] Hiss H.
  pose proof (finish_steps _ _ _ _ _ _ _ _ _ _ H) as (_ & t2 & T2 & _ & _ & N2).
  pose proof (issue_trace _ _ _ _ _ _ _ Hiss) as T.
  apply finish_stored in H as [H Hc]; [|rewrite Hk; apply Hp; rewrite Hi; by left].
  rewrite Hk in Hc. exists ctx, useCSR, cert, w1, w2, (t1 ++ [CallIssue (iss_IssuerKey i) ctx useCSR (Ok cert)] ++ t2)%list.
  split_and!; [done..| | |done].
  - by rewrite T2, T, T1, !app_assoc.
  - unfold issued in *. by rewrite !omap_app, N1, N2.
Qed.

Lemma obtain_new_one cfg i name b n w w' :
  Issuers cfg = [i] → dns_name (St := St) (E := E) name → plain_config cfg name →
  obtain_new cfg name b n w = (Ok tt, w') → issued_and_stored i name n w w'.
Proof using All.
  intros Hi Hn Hp H. unfold obtain_new in H.
  destruct (emit _ _ w) as [[[]|e] w1] eqn:E1; [|done]. apply emit_Q in E1.
  destruct (obtain_key _ _ w1) as [[[[key pem] issuers]|e] w2] eqn:E2; [|done].
  pose proof (obtain_key_perm _ _ _ _ _ _ E2) as Hperm. rewrite Hi in Hperm.
  apply Permutation_singleton_r in Hperm as ->. apply obtain_key_Q in E2.
  destruct (generateCSR _ _ _ _ w2) as [[csr|e] w3] eqn:E3; [|done].
  pose proof (generateCSR_names _ _ _ _ _ _ Hn E3) as [_ Hk]. apply generateCSR_Q in E3.
  cbn [obtain_loop] in H. destruct (preCheck _ _ _ w3) as [[u|e] w4] eqn:E4; [|by destruct (is_panic e); apply finish_Ok in H as (? & ? & ? & _)].
  apply preCheck_Q in E4.
  destruct (csr_for _ _ _ _ _ w4) as [[useCSR|e] w5] eqn:E5; [|by apply finish_Ok in H as (? & ? & ? & _)]. apply csr_for_Q in E5.
  destruct (issue i n None useCSR w5) as [[cert|e] w6] eqn:E6; [|by destruct (is_panic e); apply finish_Ok in H as (? & ? & ? & _)].
  eapply issued_finish; [done..| |done|done].
  etrans; [exact E1|]. etrans; [exact E2|]. etrans; [exact E3|]. by etrans.
Qed.

Lemma renew_new_one cfg i name res leaf b n w w' :
  Issuers cfg = [i] → dns_name (St := St) (E := E) name → plain_config cfg name →
  renew_new cfg name res leaf b n w = (Ok tt, w') → issued_and_stored i name n w w'.
Proof using All.
  intros Hi Hn Hp H. unfold renew_new in H.
  destruct (emit _ _ w) as [[[]|e] w1] eqn:E1; [|done]. apply emit_Q in E1.
  destruct (renew_key _ _ w1) as [[[key pem]|e] w2] eqn:E2; [|done]. apply renew_key_Q in E2.
  destruct (generateCSR _ _ _ _ w2) as [[csr|e] w3] eqn:E3; [|done].
  pose proof (generateCSR_names _ _ _ _ _ _ Hn E3) as [_ Hk]. apply generateCSR_Q in E3.
  rewrite Hi in H. cbn [renew_loop] in H.
  destruct (csr_for _ _ _ _ _ w3) as [[useCSR|e] w4] eqn:E4; [|by apply finish_Ok in H as (? & ? & ? & _)].
  apply csr_for_Q in E4.
  destruct (preCheck _ _ _ w4) as [[u|e] w5] eqn:E5; [|by destruct (is_panic e); apply finish_Ok in H as (? & ? & ? & _)].
  apply preCheck_Q in E5.
  destruct (issue i n _ useCSR w5) as [[cert|e] w6] eqn:E6; [|by destruct (is_panic e); apply finish_Ok in H as (? & ? & ? & _)].
  eapply issued_finish; [done..| |done|done].
  etrans; [exact E1|]. etrans; [exact E2|]. etrans; [exact E3|]. by etrans.
Qed.

(** The function that is run under the lock, once or with retries. *)
Definition attempt (renew force : bool) cfg name (interactive : bool) : nat → ST (World St E) (result unit) :=
  if renew then renew_body cfg name force interactive else obtain_body cfg name interactive.

Lemma attempt_R renew force cfg name b n w r w' :
  attempt renew force cfg name b n w = (r, w') → RW w w'.
Proof using All. unfold attempt. destruct renew; [apply renew_body_R|apply obtain_body_R]. Qed.

Lemma attempt_one (renew force : bool) cfg i name b n w w' :
  Issuers cfg = [i] → dns_name (St := St) (E := E) name → plain_config cfg name →
  attempt renew force cfg name b n w = (Ok tt, w') →
  up_to_date renew force cfg name w ∧ w' = w ∨ issued_and_stored i name n w w'.
Proof using All.
  intros Hi Hn Hp. unfold attempt. destruct renew.
  - unfold renew_body. destruct (loadCertResourceAnyIssuer _ _ _) as [res|e] eqn:El; [|done].
    destruct (managedCertNeedsRenewal _ _ _) as [[[left leaf] needs]|] eqn:Em; [|done].
    destruct (negb needs && negb force) eqn:E0; [|intros H; right; by eapply renew_new_one].
    apply andb_true_iff in E0 as [->%negb_true_iff ->%negb_true_iff]. intros [= <-].
    left. split; [|done]. split; [done|]. by eexists _, _, _.
  - unfold obtain_body. destruct (storageHasCertResourcesAnyIssuer _ _ _) eqn:E0;
      [intros [= <-]; by left|intros H; right; by eapply obtain_new_one].
Qed.

(** The operation comes to the attempt number [n] in the state [wb], with the lock
    of the name since [w1]: the only one, or the next after those that failed. *)
Definition reaches (renew force interactive : bool) cfg name (w w1 : World St E) (n : nat) (wb : World St E) : Prop :=
  let k := lockKey certIssueLockOp name in
  ∃ wa, checkStorage cfg w = (Ok tt, wa) ∧ on_locks (acquireLock 0 k) wa = (Ok tt, w1) ∧
    if interactive then n = 0%nat ∧ wb = locked k w1
    else turn (attempt renew force cfg name false) (locked k w1) n wb.

Lemma reaches_R renew force interactive cfg name w w1 n wb :
  reaches renew force interactive cfg name w w1 n wb → RW w wb.
Proof using All.
  intros (wa & Hs & Hl & H). apply checkStorage_R in Hs. apply acquire_ext in Hl.
  assert (RW w (locked (lockKey certIssueLockOp name) w1)) as H1.
  { unfold RW, locked in *. simpl. by rewrite Hl. }
  destruct interactive; [by destruct H as [_ ->]|]. destruct H as (wf & d & Ht & Hd).
  apply tries_R in Ht; [|intros; by eapply attempt_R].
  apply on_external_R in Hd; [|intros; by eapply Sleep_R]. etrans; [exact H1|]. by etrans.
Qed.

(** What an operation that succeeds has done: nothing, because the resources were
    there; or it has come to an attempt, the last one, and the state it leaves is
    that of the attempt, with the lock released. The attempt has succeeded, or
    the retries were given up after it. *)
Lemma last_attempt (renew force interactive : bool) cfg name w w' :
  let name' := transformSubject cfg name in
  Issuers cfg ≠ [] →
  (if renew then renewCert cfg name force interactive w else obtainCert cfg name interactive w) = (Ok tt, w') →
  renew = false ∧ up_to_date renew force cfg name' w ∧ w' = w ∨
  ∃ w1 n wb r wc, reaches renew force interactive cfg name' w w1 n wb ∧
    attempt renew force cfg name' interactive n wb = (r, wc) ∧
    contents (w_storage w') = contents (w_storage wc) ∧ w_ext w' = w_ext wc ∧
    w_trace w' = (w_trace wc ++ [CallUnlock (lockKey certIssueLockOp name')])%list ∧
    (r = Ok tt ∨ is_Ok r = false ∧ interactive = false ∧
       (Retry.maxRetryDuration ≤ time_Since (x_Now (w_ext w')) (x_Now (w_ext w1)))%Z).
Proof using StorageLaws0.
  intros name' Hi H.
  assert (∀ wa, checkStorage cfg w = (Ok tt, wa) →
    with_name_lock name' (if interactive then attempt renew force cfg name' true 0
                          else doWithRetry_world (attempt renew force cfg name' false)) wa = (Ok tt, w') →
    ∃ w1 n wb r wc, reaches renew force interactive cfg name' w w1 n wb ∧
      attempt renew force cfg name' interactive n wb = (r, wc) ∧
      contents (w_storage w') = contents (w_storage wc) ∧ w_ext w' = w_ext wc ∧
      w_trace w' = (w_trace wc ++ [CallUnlock (lockKey certIssueLockOp name')])%list ∧
      (r = Ok tt ∨ is_Ok r = false ∧ interactive = false ∧
         (Retry.maxRetryDuration ≤ time_Since (x_Now (w_ext w')) (x_Now (w_ext w1)))%Z)) as Hw.
  { intros wa Ha (w1 & wc & Hl & Hb & Hc & He & Ht)%with_name_lock_Ok. destruct interactive.
    - exists w1, 0%nat, (locked (lockKey certIssueLockOp name') w1), (Ok tt), wc. split; [by exists wa|]. auto 6.
    - unfold doWithRetry_world in Hb.
      apply retry_world_Ok in Hb as (n & wf & d & wb & r & Htr & Hd & Hn & Hr).
      + exists w1, n, wb, r, wc. split; [exists wa; split; [done|]; split; [done|]; by exists wf, d|].
        rewrite He. split_and!; [done..|]. destruct Hr as [->|[Hf Hr]]; [by left|]. right. done.
      + right. split; [lia|]. unfold time_Since, time_Sub. rewrite Z.sub_diag. by vm_compute. }
  destruct (Issuers cfg) as [|i0 l] eqn:Ei; [done|]. destruct renew.
  - right. unfold renewCert in H. rewrite Ei in H. fold name' in H.
    destruct (checkStorage cfg w) as [[[]|e] wa] eqn:E1; [|done].
    apply (Hw wa eq_refl). rewrite <- H. by destruct interactive.
  - unfold obtainCert in H. rewrite Ei in H. fold name' in H.
    destruct (storageHasCertResourcesAnyIssuer (w_storage w) _ _) eqn:E0.
    { injection H as <-. by left. }
    right. destruct (checkStorage cfg w) as [[[]|e] wa] eqn:E1; [|done].
    apply (Hw wa eq_refl). rewrite <- H. by destruct interactive.
Qed.
End preserved.

(** ** The ACME issuer as the issuer of a [Config] *)

Section acme.
Context {St E0 N : Type} `{C : !Codec} `{!Storage St} `{X0 : !External St E0} `{A : !ACMENet N}.

(** The package's variables, and the order in which [PreCheck] iterates over
    its map. *)
Context (g : PackageVars) (order : list (string * bool)).

(** The outside: that of the other operations, and the state of the ACME issuer
    without the storage, which it shares with the [Config]. Its entries of the
    lock table have keys of their own ([accountRegLockKey]). *)
Definition Outside : Type := E0 * AState unit N.

Definition with_a_storage {S S'} (s : S') (a : AState S N) : AState S' N :=
  MkA s (a_locks a) (a_iss a) (a_DefaultACME a) (discoveredEmail a) (rateLimiters a) (a_net a) (a_trace a).

Definition on_acme {T} (m : ST (AState St N) T) : ST (St * Outside) T := λ '(s, (e, a)),
  let '(r, a) := m (with_a_storage s a) in (r, (a_storage a, (e, with_a_storage tt a))).
Definition on_rest {T} (m : ST (St * E0) T) : ST (St * Outside) T := λ '(s, (e, a)),
  let '(r, (s, e)) := m (s, e) in (r, (s, (e, a))).

Definition is_acme (i : Issuer) (a : AState unit N) : bool := bool_decide (i = issuer_of (IsACME (a_iss a))).

(** A panic unwinds like an error. *)
#[local] Instance acme_External : External St Outside := {|
  x_OnEvent ev := on_rest (x_OnEvent ev);
  x_GenerateKey := on_rest x_GenerateKey;
  x_CreateCSR t ms key := on_rest (x_CreateCSR t ms key);
  x_PreCheck i names interactive := λ se,
    if is_acme i (snd (snd se)) then on_acme (PreCheck order names interactive) se
    else on_rest (x_PreCheck i names interactive) se;
  x_Issue i attempts replaces csr := λ se,
    if is_acme i (snd (snd se)) then
      let '(r, se) := on_acme (Issue g attempts replaces csr) se in
      (default (Err (Panic "index out of range")) r, se)
    else on_rest (x_Issue i attempts replaces csr) se;
  x_Revoke i res reason := λ se,
    if is_acme i (snd (snd se)) then
      let '(r, se) := on_acme (Revoke g res reason) se in
      (default (Err (Panic "index out of range")) r, se)
    else on_rest (x_Revoke i res reason) se;
  x_Shuffle l := on_rest (x_Shuffle l);
  x_TestKey := on_rest x_TestKey;
  x_RandRead := on_rest x_RandRead;
  x_Sleep d := on_rest (x_Sleep d);
  x_Now e := x_Now (fst e);
  x_Int63n e := x_Int63n (fst e);
  x_ParseIP := x_ParseIP;
  x_url_Parse := x_url_Parse
|}.

(** What the operations of an issuer without a [NewAccountFunc] do not change:
    the CAs of the issuer and of the defaults, the preferred chains, and the calls
    made so far. *)
Definition same_ca {S} (w w' : AState S N) : Prop :=
  am_NewAccountFunc (a_iss w) = false →
  am_CA (a_iss w') = am_CA (a_iss w) ∧ am_TestCA (a_iss w') = am_TestCA (a_iss w) ∧
  am_NewAccountFunc (a_iss w') = false ∧
  am_CA (a_DefaultACME w') = am_CA (a_DefaultACME w) ∧
  am_PreferredChains (a_iss w') = am_PreferredChains (a_iss w) ∧ a_trace w `prefix_of` a_trace w'.
#[local] Instance same_ca_preorder {S} : PreOrder (@same_ca S).
Proof.
  split; [done|]. intros w1 w2 w3 H12 H23 Hf. destruct (H12 Hf) as (H1 & H2 & H3 & H4 & H5 & H6).
  destruct (H23 H3) as (K1 & K2 & K3 & K4 & K5 & K6). split_and!; [congruence..|by etrans].
Qed.

Lemma kept_same_ca (w w' : AState St N) :
  (am_NewAccountFunc (a_iss w) = false → kept w w' ∧ a_trace w `prefix_of` a_trace w') → same_ca w w'.
Proof. intros H Hf. destruct (H Hf) as [[[b Hi] Hd] Ht]. rewrite Hi, Hd. by split_and!. Qed.

Lemma doIssue_same_ca attempts replaces csr (w : AState St N) r w' :
  doIssue g attempts replaces csr w = (r, w') → same_ca w w'.
Proof.
  intros H. apply kept_same_ca. intros Hf.
  apply doIssue_spec in H as (K & before & t & T & _); [|done]. split; [done|]. rewrite T. by eexists.
Qed.

Lemma Issue_same_ca attempts replaces csr (w : AState St N) r w' :
  Issue g attempts replaces csr w = (r, w') → same_ca w w'.
Proof.
  intros [(rd & H & _)|(cert & used & w1 & rd & _ & H1 & _ & H2 & _)]%Issue_cases; [by eapply doIssue_same_ca|].
  apply doIssue_same_ca in H1, H2. by etrans.
Qed.

Lemma on_a_net_same_ca {T} (m : ST N T) (w : AState St N) r w' : on_a_net m w = (r, w') → same_ca w w'.
Proof. unfold on_a_net. destruct (m _). by intros [= _ <-]. Qed.

Lemma getAccount_same_ca ca email (w : AState St N) r w' : getAccount ca email w = (r, w') → same_ca w w'.
Proof.
  unfold getAccount. destruct (loadAccount _ _ _); [by intros [= _ <-]|].
  destruct (errors_Is _ _); [|by intros [= _ <-]]. unfold newAccount.
  destruct (on_a_net ecdsa_GenerateKey w) as [[k|] w1] eqn:E1; apply on_a_net_same_ca in E1; by intros [= _ <-].
Qed.

Lemma knownEmail_same_ca (w : AState St N) r w' : knownEmail w = (r, w') → same_ca w w'.
Proof.
  unfold knownEmail. destruct (_ =? ""); [|by intros [= _ <-]]. unfold mostRecentAccountEmail.
  destruct (List _ _ _) as [accounts|]; [|by intros [= _ <-]]. destruct (merge_sort _ _) as [|[u t] l]; [by intros [= _ <-]|].
  destruct (getAccount _ _ w) as [[a|] w1] eqn:E1; apply getAccount_same_ca in E1; by intros [= _ <-].
Qed.

Lemma promptUserForEmail_same_ca (w : AState St N) r w' : promptUserForEmail w = (r, w') → same_ca w w'.
Proof.
  unfold promptUserForEmail. destruct (on_a_net _ _) as [l w1] eqn:E1. apply on_a_net_same_ca in E1.
  assert (same_ca w w1) as H1.
  { etrans; [|exact E1]. intros Hf. split_and!; try done. by eexists. }
  destruct l; intros [= _ <-]; done.
Qed.

Lemma PreCheck_same_ca names b (w : AState St N) r w' : PreCheck order names b w = (r, w') → same_ca w w'.
Proof.
  unfold PreCheck. destruct (match List.find _ _ with Some _ => _ | None => _ end); [|by intros [= _ <-]].
  unfold setEmail. destruct (knownEmail w) as [[email got] w1] eqn:E1. apply knownEmail_same_ca in E1.
  destruct (negb got && _ && b).
  - destruct (promptUserForEmail w1) as [[email'|] w2] eqn:E2; apply promptUserForEmail_same_ca in E2;
      intros [= _ <-]; (etrans; [exact E1|exact E2]).
  - intros [= _ <-]. done.
Qed.

Definition same_outside (o o' : Outside) : Prop := same_ca (snd o) (snd o').
#[local] Instance same_outside_preorder : PreOrder same_outside.
Proof. unfold same_outside. split; [intros o; reflexivity|intros o1 o2 o3 H1 H2; by etrans]. Qed.

Lemma on_rest_same {T} (m : ST (St * E0) T) s e r s' e' : on_rest m (s, e) = (r, (s', e')) → same_outside e e'.
Proof. destruct e as [e1 a1]. simpl. destruct (m _) as [x [s2 e2]]. intros [= _ _ <-]. by unfold same_outside. Qed.

#[local] Instance acme_Preserved : Preserved same_outside.
Proof.
  split; cbn; intros; try (by eapply on_rest_same); revert H; cbn; destruct e as [e1 a1]; destruct (is_acme _ _); simpl;
    try (apply (on_rest_same _ s (e1, a1))).
  - destruct (PreCheck _ _ _ _) as [r2 a2] eqn:E2. intros [= _ _ <-]. by apply PreCheck_same_ca in E2.
  - destruct (Issue _ _ _ _ _) as [r2 a2] eqn:E2. intros [= _ _ <-]. by apply Issue_same_ca in E2.
Qed.

Context `{!StorageLaws St} `{XL0 : !ExternalLaws St E0}.

#[local] Instance acme_ExternalLaws : ExternalLaws St Outside.
Proof.
  split.
  - intros ev s [e a]. pose proof (x_OnEvent_storage ev s e) as H. simpl.
    by destruct (x_OnEvent ev (s, e)) as [r [s1 e1]].
  - intros t ms key [s [e a]] csr se' H. simpl in H.
    destruct (x_CreateCSR t ms key (s, e)) as [r [s1 e1]] eqn:E1. injection H as -> _.
    by eapply x_CreateCSR_names.
  - intros l [s [e a]]. pose proof (x_Shuffle_perm l (s, e)) as H. simpl.
    by destruct (x_Shuffle l (s, e)) as [r [s1 e1]].
Qed.

(** The calls of one successful [Issue]. *)
Lemma Issue_calls attempts replaces csr (w : AState St N) cert w' :
  am_NewAccountFunc (a_iss w) = false →
  Issue g attempts replaces csr w = (Some (Ok cert), w') →
  ∃ t c d, a_trace w' = (a_trace w ++ t)%list ∧ c ∈ t ∧
    came_from (am_PreferredChains (a_iss w)) d cert c ∧
    (d = caDirectory w ∨ am_CA (a_iss w) = am_TestCA (a_iss w) ∧ d = am_TestCA (a_iss w)) ∧
    (attempts = 0%nat ∨ am_TestCA (a_iss w) ≠ "" ∧ am_TestCA (a_iss w) ≠ am_CA (a_iss w) →
     d = caDirectory w ∧ ∃ ticket, CallThrottle (caDirectory w +:+ "," +:+ am_email (a_iss w)) ticket ∈ t).
Proof.
  intros Hf [(rd & H & Hr)|(cert0 & used & w1 & rd & Ha & H0 & _ & H & Hr)]%Issue_cases.
  - destruct (Hr cert eq_refl) as (used & -> & Hb).
    apply doIssue_spec in H as (K & before & t & T & _ & Hfirst & _ & Hc); [|done].
    destruct (Hc cert used eq_refl) as (-> & t' & c & -> & Hfrom).
    pose proof (kept_CA _ _ K) as (Eca & Et & _). rewrite Eca, Et in Hb.
    exists (before ++ t' ++ [c])%list, c, (directory (0 <? attempts)%nat w). split_and!; [done|set_solver +|done|..].
    + unfold directory in *. destruct (0 <? attempts)%nat; [|by left]. simpl in *.
      destruct (am_TestCA (a_iss w) =? ""); simpl in *; [by left|]. rewrite String.eqb_refl in Hb.
      right. split; [|done]. by apply negb_false_iff, String.eqb_eq in Hb.
    + intros [->|[H1 H2]]; simpl in *.
      * split; [done|]. destruct (Hfirst eq_refl) as [Hnil|(ticket & t2 & E2)]; [by destruct t'|].
        exists ticket. rewrite E2. set_solver +.
      * destruct (0 <? attempts)%nat eqn:Ea; simpl in *.
        -- unfold directory in Hb. apply String.eqb_neq in H1. rewrite H1 in Hb. simpl in Hb.
           rewrite String.eqb_refl in Hb. apply negb_false_iff, String.eqb_eq in Hb. by rewrite Hb in H2.
        -- split; [done|]. destruct (Hfirst eq_refl) as [Hnil|(ticket & t2 & E2)]; [by destruct t'|].
           exists ticket. rewrite E2. set_solver +.
  - apply doIssue_spec in H0 as (K0 & before0 & t0 & T0 & _ & _); [|done].
    pose proof (kept_CA _ _ K0) as (_ & _ & Hf1 & He & Hpref). rewrite Hf in Hf1.
    destruct (Hr cert eq_refl) as (used' & ->). apply doIssue_spec in H as (K & before & t & T & _ & Hfirst & _ & Hc); [|done].
    destruct (Hc cert used' eq_refl) as (_ & t' & c & -> & Hfrom). simpl in Hfrom, Hfirst.
    rewrite (kept_directory _ _ _ K0) in Hfrom, Hfirst. rewrite He in Hfirst. rewrite Hpref in Hfrom.
    exists (before0 ++ t0 ++ before ++ t' ++ [c])%list, c, (caDirectory w). rewrite T, T0, <- !app_assoc.
    split_and!; [done|set_solver +|done|by left|]. intros _. split; [done|].
    destruct (Hfirst eq_refl) as [Hnil|(ticket & t2 & E2)]; [by destruct t'|]. exists ticket. rewrite E2. set_solver +.
Qed.

(** What one attempt that succeeds has done, with the calls [t] of the [Config] and
    [u] of the ACME issuer: if a certificate was given, the stored one for the
    name, with a private key and its metadata, is that certificate, the preferred
    chain of an order among [u] at the CA of the issuer (at the test CA only when
    it is the same), after a ticket of the rate limiter of that CA unless it was a
    retry without a test CA of its own; if none was given there was nothing to do,
    and nothing is changed. *)
Definition accounted (renew force : bool) cfg name (n : nat) (a : AState unit N) (w w' : World St Outside)
    (t : list call) (u : list acme_call) : Prop :=
  match issued t with
  | [(k, cert)] =>
      k = IssuerKey (a_iss a) ∧ stored_for k name cert (contents (w_storage w')) ∧
      ∃ c d, c ∈ u ∧ came_from (am_PreferredChains (a_iss a)) d cert c ∧
        (d = caDirectory a ∨ am_CA (a_iss a) = am_TestCA (a_iss a) ∧ d = am_TestCA (a_iss a)) ∧
        (n = 0%nat ∨ am_TestCA (a_iss a) ≠ "" ∧ am_TestCA (a_iss a) ≠ am_CA (a_iss a) →
         d = caDirectory a ∧ ∃ email ticket, CallThrottle (caDirectory a +:+ "," +:+ email) ticket ∈ u)
  | [] => up_to_date renew force cfg name w ∧ w' = w
  | _ => False
  end.

Lemma attempt_accounted (renew force b : bool) cfg name n (a : AState unit N) (w w' : World St Outside) :
  Issuers cfg = [issuer_of (IsACME (a_iss a))] → am_NewAccountFunc (a_iss a) = false →
  same_ca a (snd (w_ext w)) → dns_name (St := St) (E := Outside) name → plain_config cfg name →
  attempt renew force cfg name b n w = (Ok tt, w') →
  ∃ t u, w_trace w' = (w_trace w ++ t)%list ∧
    a_trace (snd (w_ext w')) = (a_trace (snd (w_ext w)) ++ u)%list ∧
    accounted renew force cfg name n a w w' t u.
Proof using XL0.
  intros Hi Hf Ha Hn Hp H.
  apply (attempt_one same_outside) with (i := issuer_of (IsACME (a_iss a))) in H as [[H ->]|H]; [| |done..].
  { exists [], []. by rewrite !app_nil_r. }
  destruct H as (ctx & csr & cert & w1 & w2 & t & Hw1 & Hiss & Hw2 & Ht & Hg & Hc).
  assert (∀ o, same_ca (snd (w_ext w)) o → same_ca a o) as Hsame by (intros o Ho; by etrans).
  destruct (Ha Hf) as (_ & _ & Hf0 & _ & _ & _).
  destruct (Hw1 Hf0) as (_ & _ & _ & _ & _ & [u1 HT]).
  destruct (Hsame _ Hw1 Hf) as (HCA & HTest & HF & HD & HP & _).
  unfold issue in Hiss. simpl in Hiss. unfold on_external in Hiss. simpl in Hiss.
  destruct (w_ext w1) as [e1 a1] eqn:Ee. simpl in HCA, HTest, HF, HD, HT, HP, Hiss.
  assert (is_acme (issuer_of (IsACME (a_iss a))) a1 = true) as Hacme.
  { apply bool_decide_eq_true. simpl. unfold IssuerKey. by rewrite HCA. }
  simpl in Hacme. rewrite Hacme in Hiss.
  destruct (Issue g n ctx csr (with_a_storage (w_storage w1) a1)) as [r a2] eqn:EI. injection Hiss as Hr <-.
  destruct r as [r|]; [|done]. simpl in Hr. subst r.
  pose proof (Issue_same_ca _ _ _ _ _ _ EI HF) as (_ & _ & HF2 & _).
  destruct (Hw2 HF2) as (_ & _ & _ & _ & _ & [u2 HT2]).
  apply Issue_calls in EI as (u & c & d & T & Hct & Hfrom & Hd & Htk); [|done].
  assert (caDirectory (with_a_storage (w_storage w1) a1) = caDirectory a) as Ed.
  { unfold caDirectory. simpl. by rewrite HCA, HD. }
  rewrite Ed in Hd, Htk. simpl in T, Hd, Htk, Hfrom. rewrite HCA, HTest in Hd, Htk. rewrite HP in Hfrom.
  exists t, (u1 ++ u ++ u2)%list. split; [done|]. split; [by rewrite HT2; simpl; rewrite T, HT, !app_assoc|].
  unfold accounted. rewrite Hg. split; [done|]. split; [done|].
  exists c, d. split_and!; [set_solver +Hct|done|done|].
  intros [-> [ticket Htk']]%Htk. split; [done|]. exists (am_email (a_iss a1)), ticket. set_solver +Htk'.
Qed.

End acme.

(** ** An example: an order at a CA with an empty storage *)

Module SimWhole.
Definition Out : Type := @Outside SimExternal.t SimCA.t.
#[export] Instance sim_whole : External MemStorage.t Out := acme_External SimClient.vars publicCAsAndIPCerts.

Definition issuer : AState unit SimCA.t := with_a_storage tt SimClient.ready.
Definition config : Config := SimExternal.config [issuer_of (IsACME (a_iss issuer))].
Definition start : World MemStorage.t Out :=
  MkWorld MemStorage.empty ∅ (w_ext (SimExternal.world []), issuer) [].
Definition obtained : World MemStorage.t Out := snd (ObtainCertAsync config "a.com" start).
End SimWhole.
#[local] Existing Instance SimWhole.sim_whole.

