(* ===== verification/Fleet.v ===== *)
(** * Instances that obtain and renew with one storage (config.go)

    As [Cluster], with instances that renew the certificate of the name among
    those that obtain it: [obtainCert] and [renewCert] (a renewal is not forced:
    one that is asks the issuer whatever the storage holds), with one issuer. An
    attempt under the lock looks at the storage in one step and gets a
    certificate in another. The run is looked at up to a time before which a
    newly issued certificate is not due for renewal. *)

From S2P Require Import Prelude GoStrings Certificates Async Storage Crypto Config Cluster EndToEnd.
Import KeyBuilder.
Open Scope string_scope.

Section fleet.
Context {St E : Type} `{C : !Codec} `{!Storage St} `{X : !External St E}
  `{!CodecLaws} `{!StorageLaws St} `{XL : !ExternalLaws St E}.

(** The configuration with its issuer, the name as [transformSubject] leaves it,
    and the end of the time that is looked at. *)
Context (cfg : Config) (iss : Issuer) (name : string) (horizon : Time).

(** What an instance has been asked to do. *)
Record operation := MkOperation { op_renew : bool; op_interactive : bool }.

(** What [obtain_body] and [renew_body] find in the storage: an end of the
    attempt, or what to do ([None]: to obtain). *)
Abbreviation finding := (result unit + option (CertificateResource * option X509))%type (only parsing).
Definition assess (renew : bool) (s : St) (e : E) : finding :=
  if renew then
    match loadCertResourceAnyIssuer s (iss_IssuerKey <$> Issuers cfg) name with
    | Err err => inl (Err err)
    | Ok certRes =>
        match managedCertNeedsRenewal cfg e certRes with
        | None => inl (Err (Panic "invalid argument to Int63n"))
        | Some (_, leaf, needsRenew) => if negb needsRenew then inl (Ok tt) else inr (Some (certRes, leaf))
        end
    end
  else if is_stored cfg name s then inl (Ok tt) else inr None.

(** What they do then. *)
Definition perform (interactive : bool) (n : nat) (todo : option (CertificateResource * option X509)) :
    ST (World St E) (result unit) :=
  match todo with
  | None => obtain_new cfg name interactive n
  | Some (certRes, leaf) => renew_new cfg name certRes leaf interactive n
  end.

(** Together they are an attempt. *)
Lemma attempt_steps renew interactive n (w : World St E) :
  attempt renew false cfg name interactive n w =
    match assess renew (w_storage w) (w_ext w) with
    | inl r => (r, w)
    | inr todo => perform interactive n todo w
    end.
Proof.
  unfold attempt, assess, is_stored. destruct renew.
  - unfold renew_body. destruct (loadCertResourceAnyIssuer _ _ _) as [res|]; [|done].
    destruct (managedCertNeedsRenewal _ _ _) as [[[left leaf] needs]|]; [|done]. by destruct needs.
  - unfold obtain_body. by destruct (storageHasCertResourcesAnyIssuer _ _ _).
Qed.

Inductive fleet_pc :=
| Begin
| Waiting                        (* for the lock *)
| Holding (attempts : nat)
| Performing (attempts : nat) (todo : option (CertificateResource * option X509))
| Leaving (r : result unit)
| Ended (r : result unit).

Record fleet := MkFleet {
  f_storage : St;
  f_lock : option nat;
  f_instances : gmap nat (operation * fleet_pc * E);
  f_issued : list (nat * IssuedCertificate * bool);
    (* what the issuer has given to whom, and whether it came into the storage *)
  f_calls : list (nat * call)
}.

Definition moves (i : nat) (op : operation) (p : fleet_pc) (e : E) (f : fleet) : fleet :=
  MkFleet (f_storage f) (f_lock f) (<[i := (op, p, e)]> (f_instances f)) (f_issued f) (f_calls f).
Definition holder (o : option nat) (f : fleet) : fleet :=
  MkFleet (f_storage f) o (f_instances f) (f_issued f) (f_calls f).

(** [perform] of instance [i], on the storage as it is now. *)
Definition performs (i : nat) (op : operation) (n : nat) todo (e : E) (f : fleet) : result unit * E * fleet :=
  let '(r, w) := perform (op_interactive op) n todo (MkWorld (f_storage f) ∅ e []) in
  (r, w_ext w,
   MkFleet (w_storage w) (f_lock f) (f_instances f)
     (f_issued f ++ ((λ kc, (i, kc.2, is_Ok r)) <$> issued (w_trace w)))%list
     (f_calls f ++ (pair i <$> w_trace w))%list).

(** How an attempt that ended in [r] goes on: the end, or with retries after an
    error the next attempt, or giving up. *)
Inductive goes_on (interactive : bool) (n : nat) : result unit → fleet_pc → Prop :=
| ends r : goes_on interactive n r (Leaving r)
| tries_again err : interactive = false → goes_on interactive n (Err err) (Holding (S n))
| gives_up err : interactive = false → goes_on interactive n (Err err) (Leaving (Ok tt)).

Inductive ostep (i : nat) (op : operation) (e : E) (f : fleet) : fleet_pc → fleet → Prop :=
| looks : op_renew op = false →
    ostep i op e f Begin (moves i op (if is_stored cfg name (f_storage f) then Ended (Ok tt) else Waiting) e f)
| renews : op_renew op = true → ostep i op e f Begin (moves i op Waiting e f)
| refused err : ostep i op e f Waiting (moves i op (Ended (Err err)) e f)
| locks : f_lock f = None → ostep i op e f Waiting (moves i op (Holding 0) e (holder (Some i) f))
| assesses n todo : (x_Now e ≤ horizon)%Z → assess (op_renew op) (f_storage f) e = inr todo →
    ostep i op e f (Holding n) (moves i op (Performing n todo) e f)
| assessed n r p : (x_Now e ≤ horizon)%Z → assess (op_renew op) (f_storage f) e = inl r →
    goes_on (op_interactive op) n r p → ostep i op e f (Holding n) (moves i op p e f)
| performed n todo r e' f' p : performs i op n todo e f = (r, e', f') →
    goes_on (op_interactive op) n r p → ostep i op e f (Performing n todo) (moves i op p e' f')
| context_done n : op_interactive op = false →
    ostep i op e f (Holding n) (moves i op (Leaving (Err Canceled)) e f)
| unlocks r : ostep i op e f (Leaving r) (moves i op (Ended r) e (holder None f)).

Inductive fstep (f : fleet) : fleet → Prop :=
| arrives i op e : f_instances f !! i = None → fstep f (moves i op Begin e f)
| proceeds i op p e f' : f_instances f !! i = Some (op, p, e) → ostep i op e f p f' → fstep f f'
| time_passes i op p e e' : f_instances f !! i = Some (op, p, e) → fstep f (moves i op p e' f)
| foreign s : elsewhere cfg name (f_storage f) s →
    fstep f (MkFleet s (f_lock f) (f_instances f) (f_issued f) (f_calls f)).

Definition empty_fleet (s : St) : fleet := MkFleet s None ∅ [] [].

(** ** A certificate that is not due *)

Definition fresh (res : CertificateResource) : Prop :=
  ∀ e : E, (x_Now e ≤ horizon)%Z → ∃ left leaf, managedCertNeedsRenewal cfg e res = Some (left, leaf, false).

Definition issued_resource (sans : list string) (key : bytes) (cert : IssuedCertificate) : CertificateResource :=
  MkCertificateResource sans (ic_Certificate cert) key (json_canon (metadata_of cert)) (iss_IssuerKey iss).

Hypothesis Hissuer : Issuers cfg = [iss].
Hypothesis Hname : dns_name (St := St) (E := E) name.
Hypothesis Hplain : plain_config cfg name.
(** What the issuer promises: what it issues is not due before the horizon. *)
Hypothesis Hfresh : ∀ n ctx csr (w : World St E) cert w' sans key,
  issue iss n ctx csr w = (Ok cert, w') → fresh (issued_resource sans key cert).

(** The storage has the certificate [cert], which nobody has to renew. *)
Definition settled (cert : IssuedCertificate) (s : St) : Prop :=
  stored_for (iss_IssuerKey iss) name cert (contents s) ∧ ∀ sans key, fresh (issued_resource sans key cert).

Lemma settled_stored cert s : settled cert s → is_stored cfg name s = true.
Proof using All.
  intros ((H1 & H2 & sans & meta & _ & H3) & _). apply has_resource_storage.
  exists iss. rewrite Hissuer. split; [by left|]. by rewrite H1, H3.
Qed.

Lemma settled_loaded cert s : settled cert s →
  ∃ res, loadCertResourceAnyIssuer s (iss_IssuerKey <$> Issuers cfg) name = Ok res ∧ fresh res.
Proof using All.
  intros ((H1 & [key H2] & sans & meta & Hm & H3) & Hf). rewrite Hissuer. simpl. unfold loadCertResource.
  destruct Hname as (-> & _). rewrite (Load_contents _ _ _ H1), (Load_contents _ _ _ H2), (Load_contents _ _ _ H3).
  rewrite (json_Meta_roundtrip _ _ _ Hm). exists (issued_resource sans key cert). by split.
Qed.

Lemma settled_elsewhere cert s s' : elsewhere cfg name s s' → settled cert s → settled cert s'.
Proof using All.
  intros He ((H1 & H2 & sans & meta & Hm & H3) & Hf).
  assert (∀ asset, asset ∈ [SiteCert; SitePrivateKey; SiteMeta] →
    contents s' !! asset (iss_IssuerKey iss) name = contents s !! asset (iss_IssuerKey iss) name) as Hx.
  { intros asset Ha. apply (He iss asset); [rewrite Hissuer; by left|done|by rewrite under_refl]. }
  split; [|done]. split; [by rewrite Hx by (by left)|]. split; [by rewrite Hx by (right; by left)|].
  exists sans, meta. split; [done|]. by rewrite Hx by (right; right; by left).
Qed.

(** When nothing is due there is nothing to do. *)
Lemma assess_settled renew e cert s : settled cert s → (x_Now e ≤ horizon)%Z → assess renew s e = inl (Ok tt).
Proof using All.
  intros Hs He. unfold assess. destruct renew; [|by erewrite settled_stored].
  destruct (settled_loaded cert s Hs) as (res & -> & Hf). by destruct (Hf e He) as (left & leaf & ->).
Qed.

#[local] Instance anything_preserved : Preserved (λ _ _ : E, True).
Proof. by split. Qed.
#[local] Instance anything_preorder : PreOrder (λ _ _ : E, True).
Proof. by split. Qed.

(** An attempt that succeeds was given one certificate, and the storage is settled
    with it. *)
Lemma perform_settles b n todo s e w' :
  perform b n todo (MkWorld s ∅ e []) = (Ok tt, w') →
  ∃ cert, issued (w_trace w') = [(iss_IssuerKey iss, cert)] ∧ settled cert (w_storage w').
Proof using All.
  intros Hr. assert (issued_and_stored (λ _ _, True) iss name n (MkWorld s ∅ e []) w')
    as (ctx & csr & cert & w1 & w2 & t & _ & Hi & _ & Ht & Hg & Hs).
  { destruct todo as [[res leaf]|]; [by eapply renew_new_one|by eapply obtain_new_one]. }
  exists cert. rewrite Ht. split; [done|]. split; [done|]. intros. by eapply Hfresh.
Qed.

(** No certificate among [l] came into the storage. *)
Definition lost (l : list (nat * IssuedCertificate * bool)) : Prop := Forall (λ x, x.2 = false) l.

(** The certificates that the calls of the instances were given. *)
Definition given_to (calls : list (nat * call)) : list (nat * IssuedCertificate) :=
  omap (λ ic, (λ kc, (ic.1, kc.2)) <$> issued_call ic.2) calls.

Lemma given_to_trace i t : given_to (pair i <$> t) = (λ kc, (i, kc.2)) <$> issued t.
Proof using.
  induction t as [|c t IH]; [done|]. revert IH. unfold given_to, issued. simpl.
  destruct (issued_call c); simpl; intros IH; [f_equal|]; exact IH.
Qed.

Lemma performs_spec i op n todo e f r e' f' :
  performs i op n todo e f = (r, e', f') →
  f_lock f' = f_lock f ∧ f_instances f' = f_instances f ∧
  (fst <$> f_issued f = given_to (f_calls f) → fst <$> f_issued f' = given_to (f_calls f')) ∧
  ∃ l, f_issued f' = (f_issued f ++ l)%list ∧
    (lost l ∨ ∃ cert, l = [(i, cert, true)] ∧ settled cert (f_storage f')).
Proof using All.
  unfold performs. destruct (perform _ _ _ _) as [r1 w] eqn:Ew. intros [= <- _ <-]. simpl. split_and!; [done..| |].
  - intros Hc. unfold given_to in *. rewrite fmap_app, Hc, omap_app. f_equal.
    change (omap _ (pair i <$> w_trace w)) with (given_to (pair i <$> w_trace w)).
    by rewrite given_to_trace, <- list_fmap_compose.
  - eexists. split; [reflexivity|]. destruct r1 as [[]|err].
    + right. apply perform_settles in Ew as (cert & -> & Hs). by exists cert.
    + left. by apply Forall_fmap, Forall_true.
Qed.

(** ** The invariant *)

Definition inside (p : fleet_pc) : bool := match p with Holding _ | Performing _ _ | Leaving _ => true | _ => false end.
Definition performing (p : fleet_pc) : bool := match p with Performing _ _ => true | _ => false end.

(** One certificate at most came into the storage, the last that was given, and
    the storage is settled with it. *)
Definition one_kept (f : fleet) : Prop :=
  ∃ before, lost before ∧
    (f_issued f = before ∨
     ∃ i cert, f_issued f = (before ++ [(i, cert, true)])%list ∧ settled cert (f_storage f)).

(** Whoever works has found no certificate of this run, as nobody else works. *)
Record fleet_inv (f : fleet) : Prop := MkFInv {
  fi_lock i op p e : f_instances f !! i = Some (op, p, e) → inside p = true → f_lock f = Some i;
  fi_performing i op p e : f_instances f !! i = Some (op, p, e) → performing p = true → lost (f_issued f);
  fi_kept : one_kept f;
  fi_counted : fst <$> f_issued f = given_to (f_calls f)
}.

Lemma not_lost before i cert : ¬ lost (before ++ [(i, cert, true)])%list.
Proof using. unfold lost. rewrite Forall_app, Forall_singleton. by intros [_ ?]. Qed.

Lemma goes_on_outcome b n r p : goes_on b n r p → performing p = false.
Proof using All. by intros [r'|err|err]. Qed.

Lemma moves_inv i op p e f : fleet_inv f →
  (inside p = true → f_lock f = Some i) → (performing p = true → lost (f_issued f)) → fleet_inv (moves i op p e f).
Proof using All.
  intros [H1 H2 H3 H4] Hl Hp. split; simpl; try done.
  - intros j op' p' e' [[<- [= <- <- <-]]|[_ Hj]]%lookup_insert_Some; [done|by eapply H1].
  - intros j op' p' e' [[<- [= <- <- <-]]|[_ Hj]]%lookup_insert_Some; [done|by eapply H2].
Qed.

(** The holder of the lock changes the rest of the state, and does not work any
    more. *)
Lemma replaces_inv i op p e p' e' f f' :
  fleet_inv f → f_instances f !! i = Some (op, p, e) → inside p = true → f_instances f' = f_instances f →
  performing p' = false → (inside p' = true → f_lock f' = Some i) →
  one_kept f' → fst <$> f_issued f' = given_to (f_calls f') → fleet_inv (moves i op p' e' f').
Proof using All.
  intros I Hi Hp Ei Hp' Hl Ho Hs. pose proof (fi_lock _ I _ _ _ _ Hi Hp) as Hlock.
  split; simpl; try done; rewrite Ei.
  - intros j op1 p1 e1 [[<- [= <- <- <-]]|[Hne Hj]]%lookup_insert_Some Hin; [by apply Hl|].
    rewrite (fi_lock _ I _ _ _ _ Hj Hin) in Hlock. congruence.
  - intros j op1 p1 e1 [[<- [= <- <- <-]]|[Hne Hj]]%lookup_insert_Some Hin; [by rewrite Hp' in Hin|].
    rewrite (fi_lock _ I _ _ _ _ Hj) in Hlock by (by destruct p1). congruence.
Qed.

Lemma ostep_inv i op p e f f' :
  fleet_inv f → f_instances f !! i = Some (op, p, e) → ostep i op e f p f' → fleet_inv f'.
Proof using All.
  intros I Hi Hst. pose proof (fi_lock _ I _ _ _ _ Hi) as Hl.
  destruct Hst as [Hr|Hr|err|Hfree|n todo He Hin|n r p He Hin Hg|n todo r e' f' p Hw Hg|n _|r]; simpl in Hl.
  - apply moves_inv; [done|..]; by destruct (is_stored _ _ _).
  - by apply moves_inv.
  - by apply moves_inv.
  - apply moves_inv; [|done..]. destruct I as [H1 H2 H3 H4]. split; simpl; try done.
    intros j op' p' e' Hj Hp. by rewrite (H1 _ _ _ _ Hj Hp) in Hfree.
  - apply moves_inv; [done|auto|]. intros _. destruct (fi_kept _ I) as (before & Hb & [->|(j & cert & _ & Hs)]); [done|].
    by rewrite (assess_settled _ _ cert) in Hin.
  - apply moves_inv; [done|auto|]. by rewrite (goes_on_outcome _ _ _ _ Hg).
  - pose proof (fi_performing _ I _ _ _ _ Hi eq_refl) as Hlost.
    destruct (performs_spec _ _ _ _ _ _ _ _ _ Hw) as (El & Ei & Hn & l & Eo & Hs).
    eapply replaces_inv; [done..|by eapply goes_on_outcome|rewrite El; auto| |apply Hn, I].
    destruct Hs as [Hs|(cert & -> & Hs)].
    + exists (f_issued f'). split; [rewrite Eo; by apply Forall_app|by left].
    + exists (f_issued f). split; [done|]. right. by exists i, cert.
  - by apply moves_inv; [|auto|].
  - eapply replaces_inv; try done; apply I.
Qed.

Lemma fstep_inv f f' : fleet_inv f → fstep f f' → fleet_inv f'.
Proof using All.
  intros I [i op e Hi|i op p e f1 Hi Hst|i op p e e' Hi|s He].
  - by apply moves_inv.
  - by eapply ostep_inv.
  - apply moves_inv; [done|by eapply fi_lock|by eapply fi_performing].
  - destruct I as [H1 H2 (before & Hb & H3) H4]. split; simpl; try done. exists before. split; [done|].
    destruct H3 as [H3|(i & cert & Ho & Hs)]; [by left|]. right. exists i, cert. split; [done|]. by eapply settled_elsewhere.
Qed.

(** Nothing happens after a certificate came into the storage. *)
Lemma issued_step f f' :
  fleet_inv f → ¬ lost (f_issued f) → fstep f f' → f_issued f' = f_issued f ∧ f_calls f' = f_calls f.
Proof using All.
  intros I Ho [i op e Hi|i op p e f1 Hi Hst|i op p e e' Hi|s He]; [done| |done|done].
  destruct Hst; try done. by pose proof (fi_performing _ I _ _ _ _ Hi eq_refl).
Qed.

Lemma issued_steps f f' :
  fleet_inv f → ¬ lost (f_issued f) → rtc fstep f f' →
  fleet_inv f' ∧ f_issued f' = f_issued f ∧ f_calls f' = f_calls f.
Proof using All.
  intros I Ho Hrun. induction Hrun as [|f1 f2 f3 H12 _ IH]; [done|].
  destruct (issued_step _ _ I Ho H12) as (Ho2 & <-). rewrite <- Ho2. apply IH; [by eapply fstep_inv|by rewrite Ho2].
Qed.

Lemma kept_stored before i cert f :
  fleet_inv f → f_issued f = (before ++ [(i, cert, true)])%list →
  contents (f_storage f) !! SiteCert (iss_IssuerKey iss) name = Some (ic_Certificate cert).
Proof using All.
  intros I Ho. destruct (fi_kept _ I) as (b & Hb & [Hl|(j & c & Hl & [[Hs _] _])]); rewrite Ho in Hl.
  - rewrite <- Hl in Hb. by apply not_lost in Hb.
  - by apply app_inj_tail in Hl as [_ [= _ <-]].
Qed.

(** (C6) A cluster keeps one certificate: whatever the order of the steps of the
    instances that obtain the certificate of a name or renew it (unless forced)
    with one issuer and one storage, retries included, of the certificates that
    the issuer has given to them before a new one is due (each is counted) at most
    one came into the storage, and it is the last: those before it were lost to
    attempts that failed after the issuer had answered. From then on it stays in
    the storage, and no instance calls the issuer, or anything else outside. *)
Theorem cluster_issues_once s f :
  rtc fstep (empty_fleet s) f →
  fst <$> f_issued f = given_to (f_calls f) ∧
  (lost (f_issued f) ∨
   ∃ before i cert, f_issued f = (before ++ [(i, cert, true)])%list ∧ lost before ∧
     ∀ f', rtc fstep f f' →
       f_issued f' = f_issued f ∧ f_calls f' = f_calls f ∧
       contents (f_storage f') !! SiteCert (iss_IssuerKey iss) name = Some (ic_Certificate cert)).
Proof using All.
  intros Hrun. assert (fleet_inv f) as I.
  { assert (fleet_inv (empty_fleet s)) as I0.
    { split; simpl; try done. exists []. split; [by constructor|by left]. }
    induction Hrun; eauto using fstep_inv. }
  split; [apply I|]. destruct (fi_kept _ I) as (before & Hb & [->|(i & cert & Ho & _)]); [by left|].
  right. exists before, i, cert. split_and!; [done..|]. intros f' Hrun'.
  destruct (issued_steps f f' I) as (I' & Ho' & Hc'); [rewrite Ho; apply not_lost|done|].
  split_and!; [done..|]. eapply kept_stored; [done|]. by rewrite Ho'.
Qed.
End fleet.

(** ** An example: two instances renew a certificate that is due

    The certificate in storage is due because of its renewal information; the
    issuer gives one that is not due for sixty days. *)

Module SimFleet.
Import SimExternal.
Definition two : Issuer := ca "two" "u2".
Definition cfg : Config := config [two].
Definition cert : IssuedCertificate := MkIssued (ex_pem 7) (Ok "CA=u2").

#[export] Instance sim_issuer : External MemStorage.t SimExternal.t := {|
  x_OnEvent := @x_OnEvent _ _ sim_External;
  x_GenerateKey := @x_GenerateKey _ _ sim_External;
  x_CreateCSR := @x_CreateCSR _ _ sim_External;
  x_PreCheck := @x_PreCheck _ _ sim_External;
  x_Issue _ _ _ _ := mret (Ok cert);
  x_Revoke := @x_Revoke _ _ sim_External;
  x_Shuffle := @x_Shuffle _ _ sim_External;
  x_TestKey := @x_TestKey _ _ sim_External;
  x_RandRead := @x_RandRead _ _ sim_External;
  x_Sleep := @x_Sleep _ _ sim_External;
  x_Now := @x_Now _ _ sim_External;
  x_Int63n := @x_Int63n _ _ sim_External;
  x_ParseIP := @x_ParseIP _ _ sim_External;
  x_url_Parse := @x_url_Parse _ _ sim_External
|}.

#[export] Instance sim_issuer_laws : ExternalLaws MemStorage.t SimExternal.t (X := sim_issuer).
Proof. destruct sim_ExternalLaws as [H1 H2 H3]. by split. Qed.

Definition day : Duration := (24 * Hour)%Z.
Definition horizon : Time := (30 * day)%Z.

Lemma cert_not_due now :
  (now ≤ horizon)%Z → expirationNeedsRenewal (cfg_renewal cfg) now (PlainCodec.ex_x509 7) = false.
Proof.
  intros He. change horizon with 2592000000000000%Z in He. unfold expirationNeedsRenewal, currentlyInRenewalWindow.
  repeat match goal with
  | |- context [time_After now (time_Add ?t ?d)] =>
      let v := eval vm_compute in (time_Add t d) in
      assert (time_Add t d = v) as -> by (vm_compute; reflexivity)
  end. unfold time_After.
  assert (time_IsZero (expiresAt (Some (PlainCodec.ex_x509 7))) = false) as -> by (vm_compute; reflexivity).
  rewrite !(proj2 (Z.ltb_ge _ _)) by lia. simpl. apply Z.ltb_ge.
  change (wrap64 _) with 3000000000000%Z. unfold time_Until, time_Sub.
  change (time_Add _ _) with 7776001000000000%Z. unfold int64_min, int64_max. lia.
Qed.

Lemma cert_fresh sans key : fresh cfg horizon (issued_resource two sans key cert).
Proof.
  intros e He. simpl in He. exists (time_Until (sim_now e) (expiresAt (Some (PlainCodec.ex_x509 7)))), (Some (PlainCodec.ex_x509 7)).
  unfold managedCertNeedsRenewal.
  assert (parseCertsFromPEMBundle (CertificatePEM (issued_resource two sans key cert)) = Ok [PlainCodec.ex_x509 7])
    as -> by (vm_compute; reflexivity).
  assert (getARI (issued_resource two sans key cert) = Ok None) as -> by (vm_compute; reflexivity).
  simpl. by rewrite cert_not_due.
Qed.

Lemma issuer_fresh n ctx csr (w : World MemStorage.t SimExternal.t) c w' sans key :
  issue two n ctx csr w = (Ok c, w') → fresh cfg horizon (issued_resource two sans key c).
Proof. unfold issue, on_external. simpl. intros [= <- _]. apply cert_fresh. Qed.

(** Twenty days after the certificate in storage was made. *)
Definition old : CertificateResource := MkCertificateResource ["a.com"] (ex_pem 3) "KEY" "ARI=" "two".
Definition storage0 : MemStorage.t := snd (saveCertResource "two" old MemStorage.empty).
Definition e0 : SimExternal.t := Mk (20 * day) [] 0.
Definition renew : operation := MkOperation true true.
Definition F : Type := @fleet MemStorage.t SimExternal.t.

Definition both : F :=
  moves 1 renew Waiting e0 (moves 0 renew Waiting e0
    (moves 1 renew Begin e0 (moves 0 renew Begin e0 (empty_fleet storage0)))).
Definition first_in : F := moves 0 renew (Holding 0) e0 (holder (Some 0%nat) both).
Definition todo := Some (old, Some (PlainCodec.ex_x509 3)).
Definition first_works : F := moves 0 renew (Performing 0 todo) e0 first_in.
Definition e1 : SimExternal.t := (performs cfg "a.com" 0 renew 0 todo e0 first_works).1.2.
Definition f1 : F := (performs cfg "a.com" 0 renew 0 todo e0 first_works).2.
Definition first_out : F := moves 0 renew (Ended (Ok tt)) e1 (holder None (moves 0 renew (Leaving (Ok tt)) e1 f1)).
Definition second_in : F := moves 1 renew (Holding 0) e0 (holder (Some 1%nat) first_out).
Definition second_out : F := moves 1 renew (Ended (Ok tt)) e0 (holder None (moves 1 renew (Leaving (Ok tt)) e0 second_in)).

Lemma first_looks : assess cfg "a.com" true (f_storage first_in) e0 = inr todo.
Proof. vm_compute. reflexivity. Qed.
Lemma first_performs : performs cfg "a.com" 0 renew 0 todo e0 first_works = (Ok tt, e1, f1).
Proof. vm_compute. reflexivity. Qed.
Lemma second_looks : assess cfg "a.com" true (f_storage second_in) e0 = inl (Ok tt).
Proof. vm_compute. reflexivity. Qed.
Lemma before_horizon : (x_Now e0 ≤ horizon)%Z.
Proof. vm_compute. done. Qed.
Lemma f1_instances : f_instances f1 = f_instances first_works.
Proof. vm_compute. reflexivity. Qed.
Lemma out_issued : f_issued first_out = [(0%nat, cert, true)].
Proof. vm_compute. reflexivity. Qed.

Abbreviation steps := (rtc (fstep cfg "a.com" horizon)).

Lemma step_of i op p e (f f' : F) :
  f_instances f !! i = Some (op, p, e) → ostep cfg "a.com" horizon i op e f p f' → fstep cfg "a.com" horizon f f'.
Proof. apply proceeds. Qed.

Lemma first_renews : steps (empty_fleet storage0) first_out.
Proof.
  eapply rtc_l; [by apply (arrives _ _ _ _ 0 renew e0)|].
  eapply rtc_l; [by apply (arrives _ _ _ _ 1 renew e0)|].
  eapply rtc_l; [by eapply (step_of 0); [|apply renews]|].
  eapply rtc_l; [by eapply (step_of 1); [|apply renews]|].
  eapply rtc_l; [by eapply (step_of 0); [|apply locks]|].
  eapply rtc_l; [eapply (step_of 0 renew (Holding 0) e0 first_in); [done|];
    exact (assesses cfg "a.com" horizon 0 renew e0 first_in 0 _ before_horizon first_looks)|].
  eapply rtc_l; [eapply (step_of 0 renew (Performing 0 todo) e0 first_works); [done|];
    exact (performed cfg "a.com" horizon 0 renew e0 first_works 0 _ _ _ _ _ first_performs (ends _ _ _))|].
  eapply rtc_l; [|apply rtc_refl]. eapply (step_of 0); [|apply unlocks]. cbn. by rewrite lookup_insert_eq.
Qed.

Lemma second_skips : steps first_out second_out.
Proof.
  eapply rtc_l.
  { eapply (step_of 1 renew Waiting e0 first_out second_in); [|exact (locks cfg "a.com" horizon 1 renew e0 first_out eq_refl)]. cbn. by rewrite !lookup_insert_ne, f1_instances by done. }
  eapply rtc_l.
  { eapply (step_of 1 renew (Holding 0) e0 second_in);
      [|exact (assessed cfg "a.com" horizon 1 renew e0 second_in 0 _ _ before_horizon second_looks (ends _ _ _))].
    cbn. by rewrite lookup_insert_eq. }
  eapply rtc_l; [|apply rtc_refl]. eapply (step_of 1); [|apply unlocks]. cbn. by rewrite lookup_insert_eq.
Qed.
End SimFleet.
#[local] Existing Instance SimFleet.sim_issuer.
#[local] Existing Instance SimFleet.sim_issuer_laws.

Lemma cluster_issues_once_witness :
  f_issued SimFleet.first_out = [(0%nat, SimFleet.cert, true)] ∧
  f_issued SimFleet.second_out = f_issued SimFleet.first_out ∧
  f_calls SimFleet.second_out = f_calls SimFleet.first_out ∧
  contents (f_storage SimFleet.second_out) !! SiteCert "two" "a.com" = Some (ic_Certificate SimFleet.cert).
Proof.
  split; [exact SimFleet.out_issued|].
  destruct (cluster_issues_once SimFleet.cfg SimFleet.two "a.com" SimFleet.horizon eq_refl) with
    (s := SimFleet.storage0) (f := SimFleet.first_out) as [_ [Hl|(before & i & c & Ho & _ & Hs)]].
  - repeat split. simpl. lia.
  - intros iss ->%list_elem_of_singleton. vm_compute. auto.
  - exact SimFleet.issuer_fresh.
  - exact SimFleet.first_renews.
  - rewrite SimFleet.out_issued in Hl. exfalso. exact (not_lost [] _ _ Hl).
  - destruct (Hs _ SimFleet.second_skips) as (E1 & E2 & E3). split; [exact E1|]. split; [exact E2|].
    rewrite SimFleet.out_issued in Ho. destruct before as [|x [|y before]]; [|done..].
    injection Ho as _ <-. exact E3.
Defined.
